(* ===== verification/_CoqProject ===== *)
-Q . S2P
Prelude.v
Float.v
RespEncoder.v
RespDecoder.v
RespScan.v
RespRoundtrip.v
Wire.v
Score.v
Memory.v
Command.v
Parser.v
Store.v
StoreInv.v
StoreSpec.v
Mutation.v
StoreExec.v
Replay.v
Watch.v
Batch.v
Routing.v
Format.v
MemoryFormat.v
Profile.v
MemoryLifecycle.v
Policy.v
Pubsub.v
PubsubSpec.v
Expire.v
Decoded.v
Protocol.v
Journal.v
Recovery.v
RecoverySpec.v
Disk.v
Writer.v
Ledgers.v
WriterSpec.v
Opening.v
Durability.v
History.v
Worker.v
System.v
Handle.v
