(* ===== verification/Prelude.v ===== *)
(** * Sider: a verified model of the in-memory database server *)

From Stdlib Require Import Strings.Byte Strings.String ZArith Lia.
From stdpp Require Export base tactics decidable countable gmap sorting numbers option list.

Open Scope Z_scope.

(** ** Bytes and byte strings *)

(** A Rust [u8] is the 256-valued [Byte.byte]; [Bytes], [Vec<u8>] and [&[u8]]
    are lists of bytes. *)
Abbreviation bytes := (list byte).

(** Byte-string literals: [lit "GET"] is [b"GET"]. *)
Definition lit (s : string) : bytes := list_byte_of_string s.
Arguments lit s%_string_scope.

#[export] Instance byte_eq_decision : EqDecision byte := Byte.byte_eq_dec.

#[export] Program Instance byte_countable : Countable byte :=
  inj_countable Byte.to_N Byte.of_N Byte.of_to_N.

(** The numeric value of a byte, and the byte of a number modulo 256. *)
Definition bz (b : byte) : Z := Z.of_N (Byte.to_N b).
Definition zb (z : Z) : byte := default x00 (Byte.of_N (Z.to_N (z mod 256))).

(** Rust's [len()] of a byte string or a vector, as a [usize]. *)
Definition zlen {A} (l : list A) : Z := Z.of_nat (length l).

Definition CR : byte := x0d.
Definition LF : byte := x0a.
Definition CRLF : bytes := [CR; LF].

(** [u8::is_ascii_digit]. *)
Definition is_digit (b : byte) : bool := (48 <=? bz b) && (bz b <=? 57).
(** The ASCII digit of [0 <= d < 10], and back ([byte - b'0']). *)
Definition digit_byte (d : Z) : byte := zb (48 + d).
Definition digit_value (b : byte) : Z := bz b - 48.

(** [u8::to_ascii_lowercase], [u8::to_ascii_uppercase] and
    [[u8]::eq_ignore_ascii_case]. *)
Definition ascii_lower (b : byte) : byte :=
  if (65 <=? bz b) && (bz b <=? 90) then zb (bz b + 32) else b.
Definition ascii_upper (b : byte) : byte :=
  if (97 <=? bz b) && (bz b <=? 122) then zb (bz b - 32) else b.
Definition eq_ignore_ascii_case (a b : bytes) : bool :=
  bool_decide (ascii_lower <$> a = ascii_lower <$> b).

(** [strip_prefix] and [strip_suffix]. *)
Definition strip_prefix (p s : bytes) : option bytes :=
  if bool_decide (take (length p) s = p) then Some (drop (length p) s) else None.
Definition strip_suffix (p s : bytes) : option bytes :=
  if bool_decide (length p <= length s)%nat && bool_decide (drop (length s - length p) s = p)
  then Some (take (length s - length p) s) else None.

(** ** Machine integers *)

Definition USIZE_MAX : Z := 2 ^ 64 - 1.
Definition ISIZE_MAX : Z := 2 ^ 63 - 1.
Definition U32_MAX : Z := 2 ^ 32 - 1.
Definition I64_MIN : Z := - 2 ^ 63.
Definition I64_MAX : Z := 2 ^ 63 - 1.

(** Result of an unsigned (signed) 64-bit operation when it is representable:
    the common body of [checked_add], [checked_sub], [checked_mul] and
    [checked_neg]. *)
Definition usize_checked (z : Z) : option Z :=
  if (0 <=? z) && (z <=? USIZE_MAX) then Some z else None.
Definition i64_checked (z : Z) : option Z :=
  if (I64_MIN <=? z) && (z <=? I64_MAX) then Some z else None.

Definition u_add (a b : Z) : option Z := usize_checked (a + b).
Definition u_sub (a b : Z) : option Z := usize_checked (a - b).
Definition u_mul (a b : Z) : option Z := usize_checked (a * b).
Definition i_add (a b : Z) : option Z := i64_checked (a + b).
Definition i_sub (a b : Z) : option Z := i64_checked (a - b).
Definition i_mul (a b : Z) : option Z := i64_checked (a * b).

(** [u64] wrap-around. *)
Definition wrap64 (z : Z) : Z := z mod 2 ^ 64.

(** [Option::filter]. *)
Definition opt_filter {A} (p : A → bool) (o : option A) : option A :=
  match o with
  | Some a => if p a then Some a else None
  | None => None
  end.

(** ** Decimal text *)

(** [to_string] of a non-negative integer: least significant digits first into
    an accumulator.  The fuel is the bit length, which bounds the number of
    decimal digits. *)
Fixpoint udec_aux (fuel : nat) (n : Z) (acc : bytes) : bytes :=
  match fuel with
  | O => acc
  | S fuel =>
      let acc := digit_byte (n mod 10) :: acc in
      if n / 10 =? 0 then acc else udec_aux fuel (n / 10) acc
  end.
Definition udec (n : Z) : bytes := udec_aux (S (Z.to_nat (Z.log2 n))) n [].
(** [to_string] of a signed integer. *)
Definition sdec (n : Z) : bytes :=
  if n <? 0 then "-"%byte :: udec (- n) else udec n.

(** ** Fallible code *)

(** Rust's [Result]; [Ok] and [Err] carry the source's names. *)
Inductive result (E A : Type) : Type :=
| Ok (a : A)
| Err (e : E).
Arguments Ok {E A} a.
Arguments Err {E A} e.

#[export] Instance result_ret {E} : MRet (result E) := λ A a, Ok a.
#[export] Instance result_bind {E} : MBind (result E) :=
  λ A B f r, match r with Ok a => f a | Err e => Err e end.
#[export] Instance result_eq_decision {E A} `{EqDecision E, EqDecision A} :
  EqDecision (result E A).
Proof. solve_decision. Defined.

(** [Option::ok_or] and [Result::map_err]. *)
Definition ok_or {E A} (e : E) (o : option A) : result E A :=
  match o with Some a => Ok a | None => Err e end.
Definition map_err {E F A} (f : E → F) (r : result E A) : result F A :=
  match r with Ok a => Ok a | Err e => Err (f e) end.
(** [if !cond { return Err(e) }]. *)
Definition guard_ok {E} (cond : bool) (e : E) : result E unit :=
  if cond then Ok tt else Err e.

(** Fallible code that may also panic: [None] is a panic, and [x ⇐ e; k] is the
    [?] operator on the result of a call that did not panic. *)
Definition fallible (E A : Type) : Type := option (result E A).
Definition fallible_bind {E A B} (r : fallible E A) (f : A → fallible E B) : fallible E B :=
  match r with Some (Ok a) => f a | Some (Err e) => Some (Err e) | None => None end.
Declare Scope fallible_scope.
Delimit Scope fallible_scope with fallible.
Notation "x ⇐ e ; k" := (fallible_bind e (λ x, k))
  (at level 20, e at level 100, k at level 200, only parsing) : fallible_scope.
Notation "' x ⇐ e ; k" := (fallible_bind e (λ x, k))
  (at level 20, x pattern, e at level 100, k at level 200, only parsing) : fallible_scope.

(** [Iterator::try_fold] over a fallible step. *)
Fixpoint try_fold {A B} (f : B → A → option B) (b : B) (l : list A) : option B :=
  match l with
  | [] => Some b
  | x :: l => b' ← f b x; try_fold f b' l
  end.
(** [collect::<Result<Vec<_>, _>>] over a fallible map. *)
Fixpoint try_map {E A B} (f : A → result E B) (l : list A) : result E (list B) :=
  match l with
  | [] => Ok []
  | x :: l => y ← f x; ys ← try_map f l; Ok (y :: ys)
  end.

(** [ConfigError] of src/error.rs; the parser error an invalid address carries
    is not kept. *)
Inductive ConfigError :=
| InvalidServerLimits (reason : string)
| NonUnicodeValue (name : string)
| ConfigInvalidInteger (name : string) (value : bytes)
| InvalidRespLimits (reason : string)
| NonUnicodeAddress
| InvalidAddress (value : bytes).

(** ** Total orders and ordered collections *)

(** Rust's [Ord]: a comparison function with the laws the standard ordered
    collections rely on. *)
Class Cmp (A : Type) := cmp : A → A → comparison.
Class CmpLaws (A : Type) `{Cmp A} : Prop := {
  cmp_eq : ∀ x y : A, cmp x y = Eq ↔ x = y;
  cmp_opp : ∀ x y : A, cmp y x = CompOpp (cmp x y);
  cmp_trans : ∀ x y z : A, cmp x y = Lt → cmp y z = Lt → cmp x z = Lt
}.
Definition cmp_le `{Cmp A} (x y : A) : Prop := cmp x y ≠ Gt.
Definition cmp_lt `{Cmp A} (x y : A) : Prop := cmp x y = Lt.

#[export] Instance comparison_eq_decision : EqDecision comparison.
Proof. solve_decision. Defined.
#[export] Instance cmp_le_decision `{Cmp A} (x y : A) : Decision (cmp_le x y).
Proof. unfold cmp_le. apply _. Defined.
#[export] Instance cmp_lt_decision `{Cmp A} (x y : A) : Decision (cmp_lt x y).
Proof. unfold cmp_lt. apply _. Defined.

#[export] Instance cmp_Z : Cmp Z := Z.compare.
(** Lexicographic order of slices. *)
Fixpoint list_cmp {A} (c : A → A → comparison) (l k : list A) : comparison :=
  match l, k with
  | [], [] => Eq
  | [], _ :: _ => Lt
  | _ :: _, [] => Gt
  | x :: l, y :: k => match c x y with Eq => list_cmp c l k | o => o end
  end.
#[export] Instance cmp_byte : Cmp byte := λ x y, Z.compare (bz x) (bz y).
#[export] Instance cmp_list `{Cmp A} : Cmp (list A) := list_cmp cmp.
(** Lexicographic order of tuples. *)
#[export] Instance cmp_prod `{Cmp A, Cmp B} : Cmp (A * B) :=
  λ x y, match cmp x.1 y.1 with Eq => cmp x.2 y.2 | o => o end.

(** Iteration order of a [BTreeSet] and of a [BTreeMap]. *)
Definition btree_set_iter {A} `{Countable A} `{Cmp A} (s : gset A) : list A :=
  merge_sort cmp_le (elements s).
Definition btree_iter {K V} `{Countable K} `{Cmp K} (m : gmap K V) : list (K * V) :=
  merge_sort (λ x y, cmp_le x.1 y.1) (map_to_list m).
(** [BTreeSet::first]. *)
Definition btree_first {A} `{Countable A} `{Cmp A} (s : gset A) : option A :=
  head (btree_set_iter s).

(** Sums over the entries of a map and over a list. *)
Definition map_zsum {K V} `{Countable K} (f : K → V → Z) (m : gmap K V) : Z :=
  map_fold (λ k v acc, f k v + acc) 0 m.
Definition zsum_with {A} (f : A → Z) (l : list A) : Z := foldr (λ x acc, f x + acc) 0 l.

(** A fallible fold. *)
Fixpoint fold_ok {E A B} (f : B → A → result E B) (b : B) (l : list A) : result E B :=
  match l with
  | [] => Ok b
  | x :: l => b' ← f b x; fold_ok f b' l
  end.

(** ** Facts about bytes and lengths *)

Lemma bz_range b : 0 <= bz b < 256.
Proof. unfold bz. pose proof (Byte.to_N_bounded b). lia. Qed.

Lemma bz_inj a b : bz a = bz b → a = b.
Proof.
  unfold bz. intros H%N2Z.inj. pose proof (Byte.of_to_N a). pose proof (Byte.of_to_N b).
  congruence.
Qed.

Lemma zb_bz b : zb (bz b) = b.
Proof.
  unfold zb. rewrite Z.mod_small by apply bz_range. unfold bz.
  rewrite N2Z.id, Byte.of_to_N. done.
Qed.

Lemma bz_zb z : bz (zb z) = z mod 256.
Proof.
  unfold zb, bz. pose proof (Z.mod_pos_bound z 256 eq_refl).
  destruct (Byte.of_N (Z.to_N (z mod 256))) as [b|] eqn:E; simpl.
  - apply Byte.to_of_N in E. rewrite E. lia.
  - apply Byte.of_N_None_iff in E. lia.
Qed.

Lemma zlen_nil {A} : zlen (@nil A) = 0.
Proof. done. Qed.
Lemma zlen_cons {A} (x : A) l : zlen (x :: l) = zlen l + 1.
Proof. unfold zlen. simpl. lia. Qed.
Lemma zlen_app {A} (l k : list A) : zlen (l ++ k) = zlen l + zlen k.
Proof. unfold zlen. rewrite length_app. lia. Qed.
Lemma zlen_nonneg {A} (l : list A) : 0 <= zlen l.
Proof. unfold zlen. lia. Qed.
#[export] Hint Resolve zlen_nonneg : core.

Create Rewrite HintDb zlen.
#[export] Hint Rewrite @zlen_nil @zlen_cons @zlen_app : zlen.

(** Arithmetic over lengths. *)
Ltac zlen_pos x :=
  lazymatch goal with
  | _ : 0 <= zlen x |- _ => fail
  | _ => pose proof (zlen_nonneg x)
  end.
Ltac zlen_lia :=
  autorewrite with zlen in *;
  repeat match goal with
  | |- context [zlen ?x] => zlen_pos x
  | _ : context [zlen ?x] |- _ => zlen_pos x
  end; lia.

(** ** Facts about checked arithmetic *)

Lemma map_err_ok {E F A} (g : E → F) (r : result E A) a : map_err g r = Ok a ↔ r = Ok a.
Proof. destruct r; simpl; naive_solver. Qed.

Lemma usize_checked_Some z r : usize_checked z = Some r ↔ r = z ∧ 0 <= z <= USIZE_MAX.
Proof. unfold usize_checked. destruct (_ && _) eqn:E; naive_solver lia. Qed.

Lemma i64_checked_Some z r : i64_checked z = Some r ↔ r = z ∧ I64_MIN <= z <= I64_MAX.
Proof. unfold i64_checked. destruct (_ && _) eqn:E; naive_solver lia. Qed.

Lemma usize_checked_ok z : 0 <= z <= USIZE_MAX → usize_checked z = Some z.
Proof. intros. by apply usize_checked_Some. Qed.

Lemma i64_checked_ok z : I64_MIN <= z <= I64_MAX → i64_checked z = Some z.
Proof. intros. by apply i64_checked_Some. Qed.

(** ** Facts about fallible code *)

Lemma bind_ok {E A B} (f : A → result E B) r b :
  r ≫= f = Ok b ↔ ∃ a, r = Ok a ∧ f a = Ok b.
Proof. destruct r; unfold mbind; simpl; naive_solver. Qed.

Lemma fallible_ok {E A B} (r : fallible E A) (f : A → fallible E B) b :
  fallible_bind r f = Some (Ok b) ↔ ∃ a, r = Some (Ok a) ∧ f a = Some (Ok b).
Proof. destruct r as [[a|e]|]; cbn; naive_solver. Qed.
Lemma ok_or_ok {E A} (e : E) (o : option A) a : ok_or e o = Ok a ↔ o = Some a.
Proof. destruct o; simpl; naive_solver. Qed.

Lemma opt_filter_Some {A} (p : A → bool) o a :
  opt_filter p o = Some a ↔ o = Some a ∧ p a = true.
Proof.
  destruct o as [x|]; simpl; [|naive_solver]. destruct (p x) eqn:E; split.
  - by intros [= <-].
  - by intros [[= <-] _].
  - done.
  - intros [[= <-] ?]. congruence.
Qed.

(** Decomposes a successful chain of fallible steps. *)
Ltac inv_ok :=
  repeat match goal with
  | H : _ ≫= _ = Ok _ |- _ => apply bind_ok in H as (? & ? & H)
  | H : ok_or _ _ = Ok _ |- _ => apply ok_or_ok in H
  | H : opt_filter _ _ = Some _ |- _ => apply opt_filter_Some in H as [H ?]
  | H : _ ≫= _ = Some _ |- _ => apply bind_Some in H as (? & ? & H)
  | H : usize_checked _ = Some _ |- _ => apply usize_checked_Some in H as [? ?]
  | H : u_add _ _ = Some _ |- _ => apply usize_checked_Some in H as [? ?]
  | H : Ok _ = Ok _ |- _ => injection H as ?
  | H : Err _ = Ok _ |- _ => discriminate H
  | H : Ok _ = Err _ |- _ => discriminate H
  | H : map_err _ ?r = Ok _ |- _ => destruct r eqn:?; simpl in H
  | x : unit |- _ => destruct x
  | H : (_, _) = (_, _) |- _ => injection H as ? ?
  | x : _ * _ |- _ => destruct x
  end.

(** ** Facts about decimal text *)

Definition dec_value (l : bytes) : Z :=
  fold_left (λ v b, v * 10 + digit_value b) l 0.

Lemma digit_byte_value d : 0 <= d < 10 → digit_value (digit_byte d) = d.
Proof.
  intros. unfold digit_value, digit_byte. rewrite bz_zb, Z.mod_small; lia.
Qed.

Lemma digit_byte_is_digit d : 0 <= d < 10 → is_digit (digit_byte d) = true.
Proof.
  intros. unfold is_digit, digit_byte. rewrite bz_zb, Z.mod_small by lia. lia.
Qed.

Lemma udec_aux_app fuel n acc : udec_aux fuel n acc = udec_aux fuel n [] ++ acc.
Proof.
  revert n acc. induction fuel as [|fuel IH]; intros n acc; simpl; [done|].
  destruct (_ =? 0); [done|]. rewrite IH. rewrite (IH _ [_]). by rewrite <- app_assoc.
Qed.

Lemma dec_value_snoc l b : dec_value (l ++ [b]) = dec_value l * 10 + digit_value b.
Proof. unfold dec_value. by rewrite fold_left_app. Qed.

Lemma udec_aux_spec fuel n :
  0 <= n < 2 ^ Z.of_nat fuel → (0 < fuel)%nat →
  dec_value (udec_aux fuel n []) = n ∧ forallb is_digit (udec_aux fuel n []) = true
  ∧ udec_aux fuel n [] ≠ [].
Proof.
  revert n. induction fuel as [|fuel IH]; intros n Hn Hf; [lia|].
  rewrite Nat2Z.inj_succ, Z.pow_succ_r in Hn by lia.
  pose proof (Z.mod_pos_bound n 10 eq_refl). pose proof (Z.div_mod n 10).
  assert (0 <= n / 10) by (apply Z.div_pos; lia).
  assert (n / 10 <= n / 2) by (apply Z.div_le_compat_l; lia).
  assert (n / 2 < 2 ^ Z.of_nat fuel) by (apply Z.div_lt_upper_bound; lia).
  simpl. destruct (Z.eqb_spec (n / 10) 0) as [Hz|Hz].
  - unfold dec_value. simpl.
    rewrite digit_byte_value, digit_byte_is_digit by lia. repeat split; [lia|done].
  - assert (0 < fuel)%nat by (destruct fuel; simpl in *; lia).
    destruct (IH (n / 10)) as (IHv & IHd & _); [lia|done|].
    rewrite udec_aux_app, dec_value_snoc, IHv, digit_byte_value by lia.
    rewrite forallb_app, IHd. simpl. rewrite digit_byte_is_digit by lia.
    repeat split; [lia|]. intros []%app_eq_nil. done.
Qed.

Lemma udec_fuel n : 0 <= n → 0 <= n < 2 ^ Z.of_nat (S (Z.to_nat (Z.log2 n))).
Proof.
  intros. split; [done|]. pose proof (Z.log2_nonneg n).
  replace (Z.of_nat _) with (Z.succ (Z.log2 n)) by lia.
  destruct (Z.eq_dec n 0) as [->|]; [done|]. apply Z.log2_spec. lia.
Qed.

Lemma udec_value n : 0 <= n → dec_value (udec n) = n.
Proof. intros. apply udec_aux_spec; [by apply udec_fuel|lia]. Qed.
Lemma udec_digits n : 0 <= n → forallb is_digit (udec n) = true.
Proof. intros. apply udec_aux_spec; [by apply udec_fuel|lia]. Qed.
Lemma udec_nonempty n : 0 <= n → udec n ≠ [].
Proof. intros. apply udec_aux_spec; [by apply udec_fuel|lia]. Qed.

Lemma digit_byte_digit_value b : is_digit b = true → digit_byte (digit_value b) = b.
Proof.
  unfold digit_byte, digit_value, is_digit. intros H.
  replace (48 + (bz b - 48)) with (bz b) by lia. apply zb_bz.
Qed.

Lemma digit_value_range b : is_digit b = true → 0 <= digit_value b < 10.
Proof. unfold is_digit, digit_value. lia. Qed.

Lemma div10_fuel n fuel : 0 <= n < 2 ^ Z.of_nat (S fuel) → 0 <= n / 10 < 2 ^ Z.of_nat fuel.
Proof.
  rewrite Nat2Z.inj_succ, Z.pow_succ_r by lia. intros. split; [apply Z.div_pos; lia|].
  apply Z.div_lt_upper_bound; lia.
Qed.

(** More fuel does not change the text. *)
Lemma udec_aux_fuel f1 f2 n :
  (0 < f1)%nat → (0 < f2)%nat → 0 <= n < 2 ^ Z.of_nat f1 → 0 <= n < 2 ^ Z.of_nat f2 →
  udec_aux f1 n [] = udec_aux f2 n [].
Proof.
  revert f2 n. induction f1 as [|f1 IH]; intros [|f2] n H1 H2 Hn1 Hn2; [lia..|]. simpl.
  destruct (Z.eqb_spec (n / 10) 0) as [|Hz]; [done|].
  apply div10_fuel in Hn1, Hn2. rewrite (udec_aux_app f1), (udec_aux_app f2). f_equal.
  apply IH; [destruct f1|destruct f2|..]; simpl in *; lia.
Qed.

Lemma udec_digit d : 0 <= d < 10 → udec d = [digit_byte d].
Proof. intros. unfold udec. simpl. by rewrite Z.div_small, Z.mod_small. Qed.

Lemma udec_snoc v d : 0 < v → 0 <= d < 10 → udec (v * 10 + d) = udec v ++ [digit_byte d].
Proof.
  intros Hv Hd. unfold udec at 1. pose proof (udec_fuel (v * 10 + d) ltac:(lia)) as Hf.
  simpl. replace ((v * 10 + d) mod 10) with d by (rewrite Z.add_comm, Z.mod_add, Z.mod_small; lia).
  apply div10_fuel in Hf.
  replace ((v * 10 + d) / 10) with v in * by (rewrite Z.div_add_l, Z.div_small; lia).
  destruct (Z.eqb_spec v 0); [lia|]. rewrite udec_aux_app. f_equal.
  apply udec_aux_fuel; [| |done|apply udec_fuel; lia]; [|lia].
  destruct (Z.to_nat _); simpl in *; lia.
Qed.

Lemma dec_value_nonneg ds : forallb is_digit ds = true → 0 <= dec_value ds.
Proof.
  induction ds as [|b ds IH] using rev_ind; intros Hd; [done|].
  rewrite forallb_app in Hd. apply andb_prop in Hd as [Hd Hb]. simpl in Hb.
  rewrite andb_true_r in Hb. apply digit_value_range in Hb. rewrite dec_value_snoc.
  specialize (IH Hd). lia.
Qed.

(** Digits without a leading zero are the text of their value. *)
Lemma udec_canonical ds b ds' :
  ds = b :: ds' → digit_value b ≠ 0 → forallb is_digit ds = true →
  0 < dec_value ds ∧ udec (dec_value ds) = ds.
Proof.
  revert ds'. induction ds as [|c ds IH] using rev_ind; intros ds' E Hb Hd; [done|].
  rewrite forallb_app in Hd. apply andb_prop in Hd as [Hd Hc]. simpl in Hc.
  rewrite andb_true_r in Hc. pose proof (digit_value_range c Hc) as Hr.
  rewrite dec_value_snoc. destruct ds as [|b' ds].
  - injection E as -> <-. change (dec_value []) with 0. rewrite Z.mul_0_l, Z.add_0_l, udec_digit by lia.
    rewrite digit_byte_digit_value by done. split; [lia|done].
  - injection E as -> _. destruct (IH ds) as [Hpos He]; [done..|].
    rewrite udec_snoc, He, digit_byte_digit_value by (done || lia). split; [lia|done].
Qed.

(** The text of a positive number has no leading zero. *)
Lemma udec_head n : 0 < n → ∃ b ds, udec n = b :: ds ∧ digit_value b ≠ 0 ∧ is_digit b = true.
Proof.
  intros Hn. assert (∃ k, n < Z.of_nat k) as [k Hk] by (exists (Z.to_nat (n + 1)); lia).
  revert n Hn Hk. induction k as [|k IH]; intros n Hn Hk; [lia|].
  pose proof (Z.div_mod n 10 ltac:(lia)) as Hdm. pose proof (Z.mod_pos_bound n 10 ltac:(lia)).
  destruct (Z.eq_dec (n / 10) 0) as [Hz|Hz].
  - rewrite udec_digit by lia. eexists _, []. split; [done|].
    rewrite digit_byte_value, digit_byte_is_digit by lia. lia.
  - assert (0 <= n / 10) by (apply Z.div_pos; lia).
    destruct (IH (n / 10)) as (b & ds & E & Hb); [lia..|].
    rewrite Hdm, Z.mul_comm, udec_snoc, E by lia. by exists b, (ds ++ [digit_byte (n mod 10)]).
Qed.

(** ** Facts about orders *)

#[export] Instance cmp_Z_laws : CmpLaws Z.
Proof.
  split; unfold cmp, cmp_Z.
  - apply Z.compare_eq_iff.
  - intros. apply Z.compare_antisym.
  - intros x y z. rewrite !Z.compare_lt_iff. lia.
Qed.

#[export] Instance cmp_byte_laws : CmpLaws byte.
Proof.
  split; unfold cmp, cmp_byte.
  - intros. rewrite Z.compare_eq_iff. split; [apply bz_inj|congruence].
  - intros. apply Z.compare_antisym.
  - intros x y z. rewrite !Z.compare_lt_iff. lia.
Qed.

Section cmp_facts.
Context `{CmpLaws A}.
Implicit Types x y z : A.

Lemma cmp_refl x : cmp x x = Eq.
Proof. by apply cmp_eq. Qed.

Lemma cmp_le_total x y : cmp_le x y ∨ cmp_le y x.
Proof. unfold cmp_le. rewrite (cmp_opp x y). destruct (cmp x y); simpl; naive_solver. Qed.

Lemma cmp_le_lteq x y : cmp_le x y ↔ cmp_lt x y ∨ x = y.
Proof.
  unfold cmp_le, cmp_lt. rewrite <- cmp_eq. destruct (cmp x y); naive_solver.
Qed.

Lemma cmp_le_trans x y z : cmp_le x y → cmp_le y z → cmp_le x z.
Proof.
  rewrite !cmp_le_lteq. unfold cmp_lt. intros [?| ->] [?| ->]; eauto using cmp_trans.
Qed.

Lemma cmp_le_antisym x y : cmp_le x y → cmp_le y x → x = y.
Proof.
  unfold cmp_le. rewrite <- cmp_eq, (cmp_opp x y). destruct (cmp x y); simpl; naive_solver.
Qed.
End cmp_facts.

#[export] Instance cmp_le_Total `{CmpLaws A} : Total (cmp_le (A:=A)).
Proof. intros x y. apply cmp_le_total. Qed.
#[export] Instance cmp_le_Transitive `{CmpLaws A} : Transitive (cmp_le (A:=A)).
Proof. intros x y z. apply cmp_le_trans. Qed.

#[export] Instance cmp_list_laws `{CmpLaws A} : CmpLaws (list A).
Proof.
  split; unfold cmp, cmp_list.
  - intros x. induction x as [|a x IH]; intros [|b y]; simpl; try naive_solver.
    destruct (cmp a b) eqn:E; try (split; [done|]; intros [= -> ->]; by rewrite cmp_refl in E).
    apply cmp_eq in E as ->. rewrite IH. naive_solver.
  - intros x. induction x as [|a x IH]; intros [|b y]; simpl; try done.
    rewrite (cmp_opp a b). destruct (cmp a b); simpl; auto.
  - intros x. induction x as [|a x IH]; intros [|b y] [|c z]; simpl; try done.
    destruct (cmp a b) eqn:E1, (cmp b c) eqn:E2; try done; intros H1 H2.
    + apply cmp_eq in E1 as ->. rewrite E2. eauto.
    + apply cmp_eq in E1 as ->. by rewrite E2.
    + apply cmp_eq in E2 as ->. by rewrite E1.
    + by rewrite (cmp_trans _ _ _ E1 E2).
Qed.

#[export] Instance cmp_prod_laws `{CmpLaws A, CmpLaws B} : CmpLaws (A * B).
Proof.
  split; unfold cmp, cmp_prod.
  - intros [a b] [a' b']. simpl. destruct (cmp a a') eqn:E;
      try (split; [done|]; intros [= -> ->]; by rewrite cmp_refl in E).
    apply cmp_eq in E as ->. rewrite cmp_eq. naive_solver.
  - intros [a b] [a' b']. simpl. rewrite (cmp_opp a a'). destruct (cmp a a'); simpl; auto.
    apply cmp_opp.
  - intros [a b] [a' b'] [a'' b'']. simpl.
    destruct (cmp a a') eqn:E1, (cmp a' a'') eqn:E2; try done; intros L1 L2.
    + apply cmp_eq in E1 as ->. rewrite E2. eauto using cmp_trans.
    + apply cmp_eq in E1 as ->. by rewrite E2.
    + apply cmp_eq in E2 as ->. by rewrite E1.
    + by rewrite (cmp_trans _ _ _ E1 E2).
Qed.

(** ** Facts about ordered iteration *)

Lemma btree_iter_perm {K V} `{Countable K} `{Cmp K} (m : gmap K V) :
  btree_iter m ≡ₚ map_to_list m.
Proof. apply merge_sort_Permutation. Qed.

Lemma btree_set_iter_perm {A} `{Countable A} `{Cmp A} (s : gset A) :
  btree_set_iter s ≡ₚ elements s.
Proof. apply merge_sort_Permutation. Qed.

Lemma btree_iter_elem {K V} `{Countable K} `{Cmp K} (m : gmap K V) k v :
  (k, v) ∈ btree_iter m ↔ m !! k = Some v.
Proof. rewrite btree_iter_perm. apply elem_of_map_to_list. Qed.

Lemma btree_set_iter_elem {A} `{Countable A} `{Cmp A} (s : gset A) x :
  x ∈ btree_set_iter s ↔ x ∈ s.
Proof. rewrite btree_set_iter_perm. apply elem_of_elements. Qed.

Lemma btree_iter_NoDup {K V} `{Countable K} `{Cmp K} (m : gmap K V) :
  NoDup (btree_iter m).*1.
Proof. rewrite btree_iter_perm. apply NoDup_fst_map_to_list. Qed.

Lemma btree_set_iter_NoDup {A} `{Countable A} `{Cmp A} (s : gset A) :
  NoDup (btree_set_iter s).
Proof. rewrite btree_set_iter_perm. apply NoDup_elements. Qed.

Lemma btree_set_iter_sorted {A} `{Countable A} `{CmpLaws A} (s : gset A) :
  StronglySorted cmp_le (btree_set_iter s).
Proof. apply StronglySorted_merge_sort; apply _. Qed.

#[export] Instance cmp_le_AntiSymm `{CmpLaws A} : AntiSymm (=) (cmp_le (A:=A)).
Proof. intros x y. apply cmp_le_antisym. Qed.

(** ** Facts about sums *)

Section map_zsum.
Context {K V : Type} `{Countable K} (f : K → V → Z).
Implicit Types m : gmap K V.

Lemma map_zsum_empty : map_zsum f (∅ : gmap K V) = 0.
Proof. apply map_fold_empty. Qed.

Lemma map_zsum_insert m k v :
  m !! k = None → map_zsum f (<[k := v]> m) = f k v + map_zsum f m.
Proof. intros Hk. unfold map_zsum.
  apply (map_fold_insert_L (λ k v acc, f k v + acc)); [|done]. intros; lia. Qed.

Lemma map_zsum_delete m k v :
  m !! k = Some v → map_zsum f (delete k m) = map_zsum f m - f k v.
Proof.
  intros Hk. unfold map_zsum. rewrite (map_fold_delete_L _ _ k v m); [lia| |done]. intros; lia.
Qed.

Lemma map_zsum_nonneg m :
  (∀ k v, m !! k = Some v → 0 <= f k v) → 0 <= map_zsum f m.
Proof.
  induction m as [|k v m Hk IH] using map_ind; intros Hf; [by rewrite map_zsum_empty|].
  rewrite map_zsum_insert by done. assert (0 <= f k v) by (apply Hf; by rewrite lookup_insert_eq).
  assert (0 <= map_zsum f m); [|lia]. apply IH. intros k' v' Hk'. apply Hf.
  rewrite lookup_insert_ne; [done|]. congruence.
Qed.

Lemma map_zsum_lookup_le m k v :
  (∀ k v, m !! k = Some v → 0 <= f k v) → m !! k = Some v → f k v <= map_zsum f m.
Proof.
  intros Hf Hk. pose proof (map_zsum_delete m k v Hk) as Hd.
  assert (0 <= map_zsum f (delete k m)); [|lia]. apply map_zsum_nonneg.
  intros k' v' Hk'. apply lookup_delete_Some in Hk' as [_ Hk']. eauto.
Qed.
End map_zsum.

Lemma guard_ok_ok {E} (c : bool) (e : E) u : guard_ok c e = Ok u ↔ c = true.
Proof. destruct c, u; simpl; naive_solver. Qed.

Lemma zsum_with_perm {A} (f : A → Z) l k : l ≡ₚ k → zsum_with f l = zsum_with f k.
Proof. unfold zsum_with. induction 1; simpl; lia. Qed.

Lemma map_zsum_iter {K V} `{Countable K} `{Cmp K} (f : K → V → Z) (m : gmap K V) :
  map_zsum f m = zsum_with (λ e, f e.1 e.2) (btree_iter m).
Proof.
  rewrite (zsum_with_perm _ _ _ (btree_iter_perm m)). unfold map_zsum, zsum_with.
  rewrite map_fold_foldr. induction (map_to_list m) as [|[k v] l IH]; simpl; [done|]. by rewrite IH.
Qed.

(** Keys come out of a [BTreeMap] in strictly increasing order. *)
Lemma btree_iter_sorted {K V} `{Countable K} `{CmpLaws K} (m : gmap K V) :
  StronglySorted cmp_lt (btree_iter m).*1.
Proof.
  assert (StronglySorted (λ x y : K * V, cmp_le x.1 y.1) (btree_iter m)) as Hs.
  { assert (Total (λ x y : K * V, cmp_le x.1 y.1)) by (intros x y; apply cmp_le_total).
    assert (Transitive (λ x y : K * V, cmp_le x.1 y.1)) by (intros x y z; apply cmp_le_trans).
    by apply StronglySorted_merge_sort. }
  pose proof (btree_iter_NoDup m) as Hn. induction Hs as [|[k v] l Hs IH Hl]; simpl in *; [constructor|].
  apply NoDup_cons in Hn as [Hk Hn]. constructor; [by apply IH|]. apply Forall_forall. intros k' Hk'.
  apply list_elem_of_fmap in Hk' as ([k1 v1] & -> & Hin). rewrite Forall_forall in Hl.
  specialize (Hl _ Hin). simpl in *. apply cmp_le_lteq in Hl as [?| ->]; [done|].
  destruct Hk. apply list_elem_of_fmap. by exists (k1, v1).
Qed.

(** The facts that close the side conditions of the codecs and of the counters. *)
Create HintDb sider discriminated.
#[export] Hint Resolve zlen_nonneg bz_range usize_checked_ok i64_checked_ok : sider.
#[export] Hint Resolve btree_iter_NoDup btree_iter_sorted cmp_refl map_zsum_nonneg : sider.

Lemma strip_prefix_app p s : strip_prefix p (p ++ s) = Some s.
Proof. unfold strip_prefix. by rewrite take_app_length, drop_app_length, bool_decide_eq_true_2. Qed.
Lemma strip_suffix_app p s : strip_suffix p (s ++ p) = Some s.
Proof.
  unfold strip_suffix. rewrite length_app. replace (length s + length p - length p)%nat with (length s) by lia.
  rewrite take_app_length, drop_app_length, !bool_decide_eq_true_2 by (done || lia). done.
Qed.

(** ** Checks of lists and of names *)

Lemma existsb_elem {A} (f : A → bool) l : existsb f l = true ↔ ∃ x, x ∈ l ∧ f x = true.
Proof. rewrite existsb_exists. by setoid_rewrite list_elem_of_In. Qed.

Lemma take_prefix (v value : bytes) : take (length v) value = v ↔ v `prefix_of` value.
Proof.
  split; [intros E; exists (drop (length v) value); by rewrite <- E at 1; rewrite take_drop|].
  intros [w ->]. apply take_app_length.
Qed.

Lemma if_ok {E} (b : bool) (x : result E unit) (e : E) : (if negb b then Err e else x) = Ok tt ↔ b = true ∧ x = Ok tt.
Proof. destruct b; cbn; naive_solver. Qed.

Lemma if_tt {E} (b : bool) (e : E) : (if b then Ok tt else Err e) = Ok tt ↔ b = true.
Proof. destruct b; naive_solver. Qed.

Lemma and_iff_under (P Q R : Prop) : (P → Q ↔ R) → P ∧ Q ↔ P ∧ R.
Proof. tauto. Qed.

Lemma fold_unit {E A} (f : A → result E unit) l : fold_ok (λ _ x, f x) tt l = Ok tt ↔ ∀ x, x ∈ l → f x = Ok tt.
Proof.
  induction l as [|x l IH]; cbn; [set_solver|]. rewrite bind_ok. setoid_rewrite elem_of_cons. split.
  - intros ([] & Hx & Hl) y [->|Hy]; [done|by apply IH].
  - intros Hl. exists tt. split; [by apply Hl; left|]. apply IH. intros y Hy. by apply Hl; right.
Qed.

Lemma existsb_none {A} (f : A → bool) l : existsb f l = false ↔ ∀ x, x ∈ l → f x = false.
Proof.
  rewrite <- not_true_iff_false, existsb_elem. setoid_rewrite <- not_true_iff_false. naive_solver.
Qed.

(** A loop that collects names and refuses a repeated one. *)
Lemma names_checked {E A} (check : gset bytes → A → result E (gset bytes)) (key : A → bytes) (P : A → Prop) :
  (∀ names x names', check names x = Ok names' → (key x ∉ names) ∧ names' = {[key x]} ∪ names ∧ P x) →
  ∀ l names names', fold_ok check names l = Ok names' →
    NoDup (key <$> l) ∧ ∀ x, x ∈ l → (key x ∉ names) ∧ P x.
Proof.
  intros Hcheck l. induction l as [|u l IH]; intros names names'; cbn; [split; [constructor|set_solver]|].
  intros Hl. apply bind_ok in Hl as (next & Hu & Hl). apply Hcheck in Hu as (Hn & -> & Hv).
  destruct (IH _ _ Hl) as [Hd Hr]. split.
  - constructor; [|done]. intros (v & E' & Hin)%list_elem_of_fmap. destruct (Hr v Hin) as [Hnot _]. rewrite <- E' in Hnot. set_solver.
  - intros v [->|Hin]%elem_of_cons; [done|]. destruct (Hr v Hin). set_solver.
Qed.

Lemma strip_prefix_spec p s rest : strip_prefix p s = Some rest ↔ s = p ++ rest.
Proof.
  split; [|intros ->; apply strip_prefix_app]. unfold strip_prefix. case_bool_decide as E; [|done]. intros [= <-].
  by rewrite <- E at 1; rewrite take_drop.
Qed.
