(* ===== verification/Float.v ===== *)
(** * IEEE-754 binary64 values

    The fragment of Rust's [f64] that the sources use: bit patterns, the
    classification predicates, [==], [total_cmp], correctly rounded conversion
    from an exact ratio, [str::parse::<f64>] and truncation to an integer.
    Values are kept as their 64-bit patterns ([to_bits] / [from_bits]). *)

From Stdlib Require Import Strings.Byte Strings.String ZArith Lia.
From S2P Require Import Prelude.

(** ** Representation *)

Definition in_u64 (z : Z) : bool := (0 <=? z) && (z <? 2 ^ 64).

Record f64 := F64 { to_bits : Z; to_bits_range : Is_true (in_u64 to_bits) }.

Lemma from_bits_range z : Is_true (in_u64 (z mod 2 ^ 64)).
Proof.
  unfold in_u64. pose proof (Z.mod_pos_bound z (2 ^ 64) eq_refl).
  apply Is_true_true. lia.
Qed.

(** [f64::from_bits] of a 64-bit integer. *)
Definition from_bits (z : Z) : f64 := F64 (z mod 2 ^ 64) (from_bits_range z).

Lemma f64_ext a b : to_bits a = to_bits b → a = b.
Proof.
  destruct a as [x p], b as [y q]; simpl. intros ->. f_equal. apply Is_true_pi.
Qed.

#[export] Instance f64_eq_decision : EqDecision f64.
Proof.
  intros a b. destruct (decide (to_bits a = to_bits b)) as [H|H].
  - left. by apply f64_ext.
  - right. congruence.
Defined.

#[export] Program Instance f64_countable : Countable f64 :=
  inj_countable to_bits (λ z, Some (from_bits z)) _.
Next Obligation.
  intros x. simpl. f_equal. apply f64_ext. simpl. apply Z.mod_small.
  destruct x as [z p]. simpl. unfold in_u64 in p. apply Is_true_true in p. lia.
Qed.

(** Sign, biased exponent and fraction fields. *)
Definition f64_sign (x : f64) : bool := 2 ^ 63 <=? to_bits x.
Definition f64_exp (x : f64) : Z := (to_bits x / 2 ^ 52) mod 2 ^ 11.
Definition f64_frac (x : f64) : Z := to_bits x mod 2 ^ 52.

Definition is_nan (x : f64) : bool := (f64_exp x =? 2047) && negb (f64_frac x =? 0).
Definition is_infinite (x : f64) : bool := (f64_exp x =? 2047) && (f64_frac x =? 0).
Definition is_finite (x : f64) : bool := negb (f64_exp x =? 2047).
(** [x == 0.0]: both zeros compare equal. *)
Definition is_zero (x : f64) : bool := to_bits x mod 2 ^ 63 =? 0.

Definition f64_zero : f64 := from_bits 0.
Definition f64_inf : f64 := from_bits (2047 * 2 ^ 52).
Definition f64_nan : f64 := from_bits (2047 * 2 ^ 52 + 2 ^ 51).
Definition f64_neg (x : f64) : f64 := from_bits (Z.lxor (to_bits x) (2 ^ 63)).
Definition f64_abs (x : f64) : f64 := from_bits (to_bits x mod 2 ^ 63).

(** The partial equality [==] of [f64]. *)
Definition f64_eqb (x y : f64) : bool :=
  negb (is_nan x) && negb (is_nan y) &&
  ((to_bits x =? to_bits y) || (is_zero x && is_zero y)).

(** [f64::total_cmp]: the bits as a signed integer, the magnitude bits of a
    negative value flipped. *)
Definition total_key (x : f64) : Z :=
  let left := if 2 ^ 63 <=? to_bits x then to_bits x - 2 ^ 64 else to_bits x in
  if left <? 0 then Z.lxor left (2 ^ 63 - 1) else left.
Definition total_cmp (x y : f64) : comparison := Z.compare (total_key x) (total_key y).

(** ** Exact values *)

(** A finite non-negative value is [mantissa * 2 ^ exponent]. *)
Definition f64_mantissa (x : f64) : Z :=
  if f64_exp x =? 0 then f64_frac x else 2 ^ 52 + f64_frac x.
Definition f64_exponent (x : f64) : Z :=
  if f64_exp x =? 0 then -1074 else f64_exp x - 1075.

(** Magnitude truncated to an integer ([as i64] within range), and whether
    [fract() == 0.0]. *)
Definition f64_trunc_abs (x : f64) : Z := Z.shiftl (f64_mantissa x) (f64_exponent x).
Definition f64_integral (x : f64) : bool :=
  Z.shiftl (f64_trunc_abs x) (- f64_exponent x) =? f64_mantissa x.

(** [q * 2 ^ e] with at most 53 significant bits, one unit higher if [up]. *)
Definition f64_pack (q e : Z) (up : bool) : f64 :=
  let q := if up then q + 1 else q in
  let '(q, e) := if q =? 2 ^ 53 then (2 ^ 52, e + 1) else (q, e) in
  if 971 <? e then f64_inf
  else if q <? 2 ^ 52 then from_bits q
  else from_bits ((e + 1075) * 2 ^ 52 + (q - 2 ^ 52)).

(** Ties to even: whether a quotient [q] with remainder [r] of [d] rounds up. *)
Definition round_up (q r d : Z) : bool :=
  match Z.compare (2 * r) d with
  | Lt => false
  | Gt => true
  | Eq => Z.odd q
  end.

(** [num / den], both positive, rounded to nearest with ties to even; overflow
    is infinity and underflow is subnormal or zero. *)
Definition f64_of_ratio (num den : Z) : f64 :=
  let e0 := Z.log2 num - Z.log2 den - 52 in
  let scale e := if 0 <=? e then (num, den * 2 ^ e) else (num * 2 ^ (- e), den) in
  let quot e := let '(n, d) := scale e in n / d in
  let e1 := if quot e0 <? 2 ^ 52 then e0 - 1 else e0 in
  let e := Z.max e1 (-1074) in
  let '(n, d) := scale e in
  f64_pack (n / d) e (round_up (n / d) (n mod d) d).

(** [mantissa * 10 ^ exp10], rounded.  The two tests only bound the size of the
    exact ratio: outside them the result is infinity or zero. *)
Definition f64_of_decimal (mantissa digits exp10 : Z) : f64 :=
  if mantissa =? 0 then f64_zero
  else if 310 <? exp10 then f64_inf
  else if digits + exp10 <? -400 then f64_zero
  else if 0 <=? exp10 then f64_of_ratio (mantissa * 10 ^ exp10) 1
  else f64_of_ratio mantissa (10 ^ (- exp10)).

(** [n * 2 ^ e], rounded; a zero result is [+0.0]. *)
Definition f64_of_dyadic (n e : Z) : f64 :=
  if n =? 0 then f64_zero
  else
    let m := Z.abs n in
    let e' := Z.max (e + Z.log2 m - 52) (-1074) in
    let s := e' - e in
    let q := Z.shiftr m s in
    let x := f64_pack q e' ((0 <? s) && round_up q (m - Z.shiftl q s) (Z.shiftl 1 s)) in
    if n <? 0 then f64_neg x else x.

(** The signed significand of a finite value. *)
Definition f64_signed (x : f64) : Z := if f64_sign x then - f64_mantissa x else f64_mantissa x.

(** [+], [-] and [*] of finite values. *)
Definition f64_add (x y : f64) : f64 :=
  if is_zero x && is_zero y && f64_sign x && f64_sign y then f64_neg f64_zero
  else
    let e := Z.min (f64_exponent x) (f64_exponent y) in
    f64_of_dyadic (f64_signed x * 2 ^ (f64_exponent x - e) + f64_signed y * 2 ^ (f64_exponent y - e)) e.
Definition f64_sub (x y : f64) : f64 := f64_add x (f64_neg y).
Definition f64_mul (x y : f64) : f64 :=
  if is_zero x || is_zero y
  then (if xorb (f64_sign x) (f64_sign y) then f64_neg f64_zero else f64_zero)
  else f64_of_dyadic (f64_signed x * f64_signed y) (f64_exponent x + f64_exponent y).

(** [f64::from] of a finite [f32] given by its bits: exact. *)
Definition f64_of_f32_bits (bits : Z) : f64 :=
  let e := (bits / 2 ^ 23) mod 2 ^ 8 in
  let frac := bits mod 2 ^ 23 in
  let m := if e =? 0 then frac else 2 ^ 23 + frac in
  let x := f64_of_dyadic m (if e =? 0 then -149 else e - 150) in
  if 2 ^ 31 <=? bits then f64_neg x else x.

(** ** [str::parse::<f64>] *)

(** The longest prefix of ASCII digits and the remaining text. *)
Fixpoint span_digits (s : bytes) : bytes * bytes :=
  match s with
  | b :: s' => if is_digit b then let '(d, r) := span_digits s' in (b :: d, r) else ([], s)
  | [] => ([], [])
  end.

(** An optional sign: whether it is [-], and what follows. *)
Definition split_sign (s : bytes) : bool * bytes :=
  match s with
  | b :: s' => if bool_decide (b = "-"%byte) then (true, s')
               else if bool_decide (b = "+"%byte) then (false, s') else (false, s)
  | [] => (false, [])
  end.

(** The exponent part: absent, or [e], an optional sign and digits. *)
Definition parse_exponent (s : bytes) : option Z :=
  match s with
  | [] => Some 0
  | b :: s' =>
      if bool_decide (b = "e"%byte) || bool_decide (b = "E"%byte) then
        let '(neg, d) := split_sign s' in
        let '(digits, rest) := span_digits d in
        if negb (bool_decide (digits = [])) && bool_decide (rest = []) then
          Some (if neg then - dec_value digits else dec_value digits)
        else None
      else None
  end.

(** The documented grammar: digits with an optional point, at least one digit,
    then an optional exponent. *)
Definition parse_number (s : bytes) : option f64 :=
  let '(int, rest) := span_digits s in
  let '(frac, rest) :=
    match rest with
    | b :: r => if bool_decide (b = "."%byte) then span_digits r else ([], rest)
    | [] => ([], [])
    end in
  if bool_decide (int ++ frac = []) then None else
  e ← parse_exponent rest;
  Some (f64_of_decimal (dec_value (int ++ frac)) (zlen (int ++ frac)) (e - zlen frac)).

Definition parse_f64 (s : bytes) : option f64 :=
  let '(neg, t) := split_sign s in
  v ← (if eq_ignore_ascii_case t (lit "inf") || eq_ignore_ascii_case t (lit "infinity")
       then Some f64_inf
       else if eq_ignore_ascii_case t (lit "nan") then Some f64_nan
       else parse_number t);
  Some (if neg then f64_neg v else v).

(** ** Facts *)

Lemma to_bits_bound x : 0 <= to_bits x < 2 ^ 64.
Proof. destruct x as [z p]. simpl. unfold in_u64 in p. apply Is_true_true in p. lia. Qed.

Lemma from_to_bits x : from_bits (to_bits x) = x.
Proof. apply f64_ext. simpl. apply Z.mod_small, to_bits_bound. Qed.

Lemma to_from_bits z : 0 <= z < 2 ^ 64 → to_bits (from_bits z) = z.
Proof. intros. simpl. by apply Z.mod_small. Qed.

Lemma lxor_low_ones z : - 2 ^ 63 <= z < 0 → Z.lxor z (2 ^ 63 - 1) = - 2 ^ 63 - 1 - z.
Proof.
  intros Hz. set (w := - 1 - z). assert (0 <= w < 2 ^ 63) by lia.
  replace z with (Z.lnot w) by (unfold Z.lnot; lia).
  rewrite <- Z.lnot_lxor_l.
  assert (Z.lxor w (2 ^ 63 - 1) = 2 ^ 63 - 1 - w) as ->.
  { change (2 ^ 63 - 1) with (Z.ones 63). rewrite (Z.sub_nocarry_ldiff (Z.ones 63) w).
    - apply Z.bits_inj'. intros n Hn. rewrite Z.lxor_spec, Z.ldiff_spec.
      destruct (Z.ltb_spec n 63).
      + rewrite Z.ones_spec_low by lia. by destruct (Z.testbit w n).
      + rewrite Z.ones_spec_high by lia.
        replace (Z.testbit w n) with false; [done|].
        symmetry. destruct (Z.eq_dec w 0) as [->|]; [apply Z.bits_0|].
        apply Z.bits_above_log2; [lia|].
        apply Z.lt_le_trans with 63; [apply Z.log2_lt_pow2; lia|lia].
    - apply Z.bits_inj'. intros n Hn. rewrite Z.ldiff_spec, Z.bits_0.
      destruct (Z.ltb_spec n 63).
      + rewrite Z.ones_spec_low by lia. by rewrite andb_false_r.
      + replace (Z.testbit w n) with false; [done|].
        symmetry. destruct (Z.eq_dec w 0) as [->|]; [apply Z.bits_0|].
        apply Z.bits_above_log2; [lia|].
        apply Z.lt_le_trans with 63; [apply Z.log2_lt_pow2; lia|lia]. }
  unfold Z.lnot. lia.
Qed.

(** The sort key in closed form: the magnitude, mirrored for negative values. *)
Lemma total_key_eq x :
  total_key x = if f64_sign x then 2 ^ 63 - 1 - to_bits x else to_bits x.
Proof.
  pose proof (to_bits_bound x). unfold total_key, f64_sign.
  destruct (Z.leb_spec (2 ^ 63) (to_bits x)).
  - destruct (Z.ltb_spec (to_bits x - 2 ^ 64) 0); [|lia].
    rewrite lxor_low_ones by lia. lia.
  - destruct (Z.ltb_spec (to_bits x) 0); lia.
Qed.

Lemma total_key_inj x y : total_key x = total_key y → x = y.
Proof.
  rewrite !total_key_eq. unfold f64_sign. intros H. apply f64_ext.
  pose proof (to_bits_bound x). pose proof (to_bits_bound y).
  destruct (Z.leb_spec (2 ^ 63) (to_bits x)), (Z.leb_spec (2 ^ 63) (to_bits y)); lia.
Qed.

#[export] Instance cmp_f64 : Cmp f64 := total_cmp.
#[export] Instance cmp_f64_laws : CmpLaws f64.
Proof.
  split; unfold cmp, cmp_f64, total_cmp.
  - intros. rewrite Z.compare_eq_iff. split; [apply total_key_inj|congruence].
  - intros. apply Z.compare_antisym.
  - intros x y z. rewrite !Z.compare_lt_iff. lia.
Qed.

Example parse_f64_examples :
  (to_bits <$> parse_f64 (lit "0.1")) = Some 0x3fb999999999999a ∧
  (to_bits <$> parse_f64 (lit "-1.5e3")) = Some 0xc097700000000000 ∧
  (to_bits <$> parse_f64 (lit "5e-324")) = Some 1 ∧
  (to_bits <$> parse_f64 (lit "1.7976931348623157e308")) = Some 0x7fefffffffffffff ∧
  (to_bits <$> parse_f64 (lit "1.7976931348623159e308")) = Some 0x7ff0000000000000 ∧
  (to_bits <$> parse_f64 (lit "9007199254740993")) = Some 0x4340000000000000 ∧
  parse_f64 (lit ".") = None ∧ parse_f64 (lit "1e") = None ∧ parse_f64 (lit "1 ") = None.
Proof. vm_compute. auto 20. Qed.

Example f64_arithmetic_examples :
  to_bits (f64_add (from_bits 0x3fb999999999999a) (from_bits 0x3fc999999999999a)) = 0x3fd3333333333334 ∧
  to_bits (f64_sub (from_bits 0x3ff0000000000000) (from_bits 0x3ff0000000000000)) = 0 ∧
  to_bits (f64_mul (from_bits 0x3fb999999999999a) (from_bits 0xc008000000000000)) = 0xbfd3333333333334 ∧
  to_bits (f64_of_f32_bits 0x3dcccccd) = 0x3fb99999a0000000.
Proof. vm_compute. auto. Qed.
