(* ===== verification/RespEncoder.v ===== *)
(** * RESP frames, limits and the two-pass encoder

    Models src/resp/frame.rs, src/resp/error.rs, src/resp/limits.rs and
    src/resp/encoder.rs, with [validate_scalar] of src/resp/decoder.rs.  The
    encoder first walks the frame with an explicit stack to validate it and to
    compute its size, then writes it with a second stack. *)

From Stdlib Require Import Strings.Byte Strings.String ZArith Lia.
From S2P Require Import Prelude Float.

(** ** Data *)

Inductive Frame :=
| Simple (value : bytes)
| Error (value : bytes)
| Integer (value : Z)
| Bulk (value : option bytes)
| Array (values : option (list Frame))
| Null
| Boolean (value : bool)
| Double (value : bytes)
| BigNumber (value : bytes)
| BlobError (value : bytes)
| Verbatim (value : bytes)
| Map (values : list Frame)
| Set_ (values : list Frame)
| Push (values : list Frame)
| Attribute (values : list Frame).

Inductive ProtocolError :=
| Malformed (reason : string)
| PLimitExceeded (limit : string)
| BufferChanged
| Poisoned.

Inductive EncodeError :=
| InvalidFrame (reason : string)
| ELimitExceeded (limit : string)
| InvalidLimits (error : ConfigError).

Record RespLimits := {
  max_frame_bytes : Z;
  max_bulk_bytes : Z;
  max_line_bytes : Z;
  max_nodes : Z;
  max_depth : Z
}.

Definition RespLimits_default : RespLimits := {|
  max_frame_bytes := 4 * 1024 * 1024;
  max_bulk_bytes := 1024 * 1024;
  max_line_bytes := 1024;
  max_nodes := 1024;
  max_depth := 16
|}.

Definition RespLimits_validate (l : RespLimits) : result ConfigError unit :=
  let reason :=
    if (max_frame_bytes l =? 0) || (max_bulk_bytes l =? 0) || (max_line_bytes l =? 0)
       || (max_nodes l =? 0) || (max_depth l =? 0)
    then Some "all limits must be greater than zero"%string
    else if max_frame_bytes l <? max_bulk_bytes l
    then Some "max_bulk_bytes cannot exceed max_frame_bytes"%string
    else if max_frame_bytes l <? max_line_bytes l
    then Some "max_line_bytes cannot exceed max_frame_bytes"%string
    else if 128 <? max_depth l then Some "max_depth cannot exceed 128"%string
    else None in
  match reason with
  | Some reason => Err (InvalidRespLimits reason)
  | None => Ok tt
  end.

(** ** Scalars *)

(** [bytes.strip_prefix(b"-").unwrap_or(bytes)]. *)
Definition strip_minus (s : bytes) : bytes :=
  match s with
  | b :: r => if bool_decide (b = "-"%byte) then r else s
  | [] => []
  end.

Definition is_ascii_whitespace (b : byte) : bool :=
  bool_decide (b ∈ [" "%byte; x09; x0a; x0c; x0d]).

Definition validate_scalar (kind : byte) (s : bytes) : result ProtocolError unit :=
  let valid :=
    if bool_decide (kind = "("%byte) then
      let digits := strip_minus s in
      negb (bool_decide (digits = [])) && forallb is_digit digits
    else
      bool_decide (s = lit "inf") || bool_decide (s = lit "-inf") || bool_decide (s = lit "nan")
      || ((match parse_f64 s with Some v => is_finite v | None => false end)
          && negb (existsb is_ascii_whitespace s)) in
  if valid then Ok tt else Err (Malformed "invalid RESP3 scalar").

(** ** Sizing pass *)

Definition line_size (content : Z) (limits : RespLimits) : result EncodeError Z :=
  size ← ok_or (ELimitExceeded "max_line_bytes") (u_add content 3);
  if max_line_bytes limits <? size then Err (ELimitExceeded "max_line_bytes") else Ok size.

Definition has_crlf (s : bytes) : bool :=
  existsb (λ b, bool_decide (b = CR) || bool_decide (b = LF)) s.

(** Size of a bulk-like payload with its length line and terminators. *)
Definition payload_size (value : bytes) (limits : RespLimits) : result EncodeError Z :=
  if max_bulk_bytes limits <? zlen value then Err (ELimitExceeded "max_bulk_bytes") else
  line ← line_size (zlen (udec (zlen value))) limits;
  ok_or (ELimitExceeded "max_frame_bytes") (n ← u_add line (zlen value); u_add n 2).

(** The depth of the children of an aggregate at [depth]. *)
Definition child_depth (depth : Z) (limits : RespLimits) : result EncodeError Z :=
  ok_or (ELimitExceeded "max_depth")
    (opt_filter (λ n, n <=? max_depth limits) (u_add depth 1)).

(** Budgets the children of an aggregate before the stack grows. *)
Definition child_budget (nodes pending children : Z) (limits : RespLimits)
    : result EncodeError Z :=
  ok_or (ELimitExceeded "max_nodes")
    (opt_filter (λ n, n <=? max_nodes limits) (n ← u_add nodes pending; u_add n children)).

(** Children pushed on the stack: the first child on top. *)
Definition push_children (values : list Frame) (depth : Z) : list (Frame * Z) :=
  (λ f, (f, depth)) <$> values.

(** One iteration of the sizing loop after the node is counted: the bytes it
    contributes and the children it pushes. *)
Definition size_node (frame : Frame) (depth nodes pending : Z) (limits : RespLimits)
    : result EncodeError (Z * list (Frame * Z)) :=
  let leaf r := size ← r; Ok (size, []) in
  let aggregate (paired : bool) (values : list Frame) :=
    if paired && negb (zlen values mod 2 =? 0) then Err (InvalidFrame "odd map element count")
    else
      depth ← child_depth depth limits;
      _ ← child_budget nodes pending (zlen values) limits;
      header ← line_size (zlen (udec (if paired then zlen values / 2 else zlen values))) limits;
      Ok (header, push_children values depth) in
  match frame with
  | Simple value | Error value =>
      leaf (size ← line_size (zlen value) limits;
            if has_crlf value then Err (InvalidFrame "simple/error contains CR or LF")
            else Ok size)
  | Null => leaf (line_size 0 limits)
  | Boolean _ => leaf (line_size 1 limits)
  | Double value =>
      leaf (size ← line_size (zlen value) limits;
            _ ← map_err (λ _, InvalidFrame "invalid RESP3 scalar") (validate_scalar ","%byte value);
            Ok size)
  | BigNumber value =>
      leaf (size ← line_size (zlen value) limits;
            _ ← map_err (λ _, InvalidFrame "invalid RESP3 scalar") (validate_scalar "("%byte value);
            Ok size)
  | BlobError value => leaf (payload_size value limits)
  | Verbatim value =>
      if (zlen value <? 4) || negb (bool_decide (value !! 3%nat = Some ":"%byte))
      then Err (InvalidFrame "invalid verbatim format")
      else leaf (payload_size value limits)
  | Map values | Attribute values => aggregate true values
  | Set_ values | Push values => aggregate false values
  | Integer value => leaf (line_size (zlen (sdec value)) limits)
  | Bulk None => leaf (line_size 2 limits)
  | Bulk (Some value) => leaf (payload_size value limits)
  | Array values =>
      depth ← child_depth depth limits;
      match values with
      | None => leaf (line_size 2 limits)
      | Some values =>
          _ ← child_budget nodes pending (zlen values) limits;
          header ← line_size (zlen (udec (zlen values))) limits;
          Ok (header, push_children values depth)
      end
  end.

(** One iteration of the sizing loop: the node is popped, counted, sized and
    added to the total. *)
Definition size_step (limits : RespLimits) (frame : Frame) (depth pending nodes size : Z)
    : result EncodeError (Z * Z * list (Frame * Z)) :=
  nodes ← ok_or (ELimitExceeded "max_nodes")
    (opt_filter (λ n, n <=? max_nodes limits) (u_add nodes 1));
  '(delta, children) ← size_node frame depth nodes pending limits;
  size ← ok_or (ELimitExceeded "max_frame_bytes")
    (opt_filter (λ n, n <=? max_frame_bytes limits) (u_add size delta));
  Ok (nodes, size, children).

(** The sizing loop.  The stack top is the head of [pending]; [None] means the
    fuel ran out. *)
Fixpoint encoded_size_loop (fuel : nat) (limits : RespLimits)
    (pending : list (Frame * Z)) (nodes size : Z) : option (result EncodeError Z) :=
  match pending with
  | [] => Some (Ok size)
  | (frame, depth) :: pending =>
      match fuel with
      | O => None
      | S fuel =>
          match size_step limits frame depth (zlen pending) nodes size with
          | Err e => Some (Err e)
          | Ok (nodes, size, children) =>
              encoded_size_loop fuel limits (children ++ pending) nodes size
          end
      end
  end.

(** Number of nodes of a frame: the iterations both loops need. *)
Fixpoint frame_nodes (f : Frame) : nat :=
  match f with
  | Array (Some values) | Map values | Set_ values | Push values | Attribute values =>
      S (sum_list_with frame_nodes values)
  | _ => 1
  end.

Definition encoded_size (frame : Frame) (limits : RespLimits) : result EncodeError Z :=
  default (Ok 0) (encoded_size_loop (frame_nodes frame) limits [(frame, 0)] 0 0).

(** ** Writing pass *)

Definition line (prefix : byte) (value : bytes) (dst : bytes) : bytes :=
  dst ++ [prefix] ++ value ++ CRLF.

(** One iteration of the writing loop: the extended output and the children. *)
Definition write_node (frame : Frame) (dst : bytes) : bytes * list Frame :=
  match frame with
  | Simple value => (line "+"%byte value dst, [])
  | Error value => (line "-"%byte value dst, [])
  | Null => (dst ++ lit "_" ++ CRLF, [])
  | Boolean value => (dst ++ (if value then lit "#t" else lit "#f") ++ CRLF, [])
  | Double value => (line ","%byte value dst, [])
  | BigNumber value => (line "("%byte value dst, [])
  | BlobError value => (line "!"%byte (udec (zlen value)) dst ++ value ++ CRLF, [])
  | Verbatim value => (line "="%byte (udec (zlen value)) dst ++ value ++ CRLF, [])
  | Map values => (line "%"%byte (udec (zlen values / 2)) dst, values)
  | Attribute values => (line "|"%byte (udec (zlen values / 2)) dst, values)
  | Set_ values => (line "~"%byte (udec (zlen values)) dst, values)
  | Push values => (line ">"%byte (udec (zlen values)) dst, values)
  | Integer value => (line ":"%byte (sdec value) dst, [])
  | Bulk None => (dst ++ lit "$-1" ++ CRLF, [])
  | Bulk (Some value) => (line "$"%byte (udec (zlen value)) dst ++ value ++ CRLF, [])
  | Array None => (dst ++ lit "*-1" ++ CRLF, [])
  | Array (Some values) => (line "*"%byte (udec (zlen values)) dst, values)
  end.

Fixpoint encode_loop (fuel : nat) (pending : list Frame) (dst : bytes) : option bytes :=
  match pending with
  | [] => Some dst
  | frame :: pending =>
      match fuel with
      | O => None
      | S fuel =>
          let '(dst, children) := write_node frame dst in
          encode_loop fuel (children ++ pending) dst
      end
  end.

(** [encode]: the output buffer after the call and its result. *)
Definition encode (frame : Frame) (dst : bytes) (limits : RespLimits)
    : bytes * result EncodeError unit :=
  match (_ ← map_err InvalidLimits (RespLimits_validate limits);
         size ← encoded_size frame limits;
         ok_or (ELimitExceeded "output capacity") (u_add (zlen dst) size)) with
  | Err e => (dst, Err e)
  | Ok _ => (default dst (encode_loop (frame_nodes frame) [frame] dst), Ok tt)
  end.

Example encode_example :
  encode (Array (Some [Bulk (Some (lit "hello")); Integer (-7)])) (lit "x") RespLimits_default
  = (lit "x*2" ++ CRLF ++ lit "$5" ++ CRLF ++ lit "hello" ++ CRLF ++ lit ":-7" ++ CRLF, Ok tt).
Proof. vm_compute. reflexivity. Qed.

(** ** Reference serialization *)

Definition frame_children (f : Frame) : list Frame :=
  match f with
  | Array (Some values) | Map values | Set_ values | Push values | Attribute values => values
  | _ => []
  end.

(** The wire form, by recursion on the frame. *)
Fixpoint wire (f : Frame) : bytes :=
  match f with
  | Simple v => "+"%byte :: v ++ CRLF
  | Error v => "-"%byte :: v ++ CRLF
  | Null => "_"%byte :: CRLF
  | Boolean v => "#"%byte :: (if v then "t"%byte else "f"%byte) :: CRLF
  | Double v => ","%byte :: v ++ CRLF
  | BigNumber v => "("%byte :: v ++ CRLF
  | BlobError v => "!"%byte :: udec (zlen v) ++ CRLF ++ v ++ CRLF
  | Verbatim v => "="%byte :: udec (zlen v) ++ CRLF ++ v ++ CRLF
  | Map vs => "%"%byte :: udec (zlen vs / 2) ++ CRLF ++ flat_map wire vs
  | Attribute vs => "|"%byte :: udec (zlen vs / 2) ++ CRLF ++ flat_map wire vs
  | Set_ vs => "~"%byte :: udec (zlen vs) ++ CRLF ++ flat_map wire vs
  | Push vs => ">"%byte :: udec (zlen vs) ++ CRLF ++ flat_map wire vs
  | Integer v => ":"%byte :: sdec v ++ CRLF
  | Bulk None => lit "$-1" ++ CRLF
  | Bulk (Some v) => "$"%byte :: udec (zlen v) ++ CRLF ++ v ++ CRLF
  | Array None => lit "*-1" ++ CRLF
  | Array (Some vs) => "*"%byte :: udec (zlen vs) ++ CRLF ++ flat_map wire vs
  end.

(** What the validation pass requires of one node at a depth. *)
Definition node_ok (l : RespLimits) (depth : Z) (f : Frame) : Prop :=
  let fits content := content + 3 <= max_line_bytes l in
  let payload (v : bytes) := zlen v <= max_bulk_bytes l ∧ fits (zlen (udec (zlen v))) in
  let nested := depth + 1 <= max_depth l in
  match f with
  | Simple v | Error v => fits (zlen v) ∧ has_crlf v = false
  | Null => fits 0
  | Boolean _ => fits 1
  | Double v => fits (zlen v) ∧ validate_scalar ","%byte v = Ok tt
  | BigNumber v => fits (zlen v) ∧ validate_scalar "("%byte v = Ok tt
  | BlobError v | Bulk (Some v) => payload v
  | Verbatim v => payload v ∧ 4 <= zlen v ∧ v !! 3%nat = Some ":"%byte
  | Map vs | Attribute vs => nested ∧ zlen vs mod 2 = 0 ∧ fits (zlen (udec (zlen vs / 2)))
  | Set_ vs | Push vs | Array (Some vs) => nested ∧ fits (zlen (udec (zlen vs)))
  | Integer v => fits (zlen (sdec v))
  | Bulk None => fits 2
  | Array None => nested ∧ fits 2
  end.

Inductive tree_ok (l : RespLimits) : Z → Frame → Prop :=
| tree_ok_node depth f :
    node_ok l depth f →
    (∀ c, c ∈ frame_children f → tree_ok l (depth + 1) c) →
    tree_ok l depth f.

(** Wire bytes and nodes of the frames waiting on the stack. *)
Definition stack_bytes (pending : list (Frame * Z)) : Z := zlen (flat_map wire pending.*1).
Definition stack_nodes (pending : list (Frame * Z)) : nat := sum_list_with frame_nodes pending.*1.

(** Frames that a limit configuration admits on the wire. *)
Definition encodable (l : RespLimits) (f : Frame) : Prop :=
  tree_ok l 0 f ∧ Z.of_nat (frame_nodes f) <= max_nodes l ∧ zlen (wire f) <= max_frame_bytes l.

(** ** Facts *)

Lemma frame_nodes_eq f : frame_nodes f = S (sum_list_with frame_nodes (frame_children f)).
Proof. destruct f as [| | | |[]| | | | | | | | | |]; done. Qed.

Lemma sum_list_with_elem {A} (g : A → nat) x l : x ∈ l → (g x <= sum_list_with g l)%nat.
Proof. induction 1; simpl; lia. Qed.

Lemma frame_induction (P : Frame → Prop) :
  (∀ f, (∀ c, c ∈ frame_children f → P c) → P f) → ∀ f, P f.
Proof.
  intros Hstep f. remember (frame_nodes f) as n eqn:Hn.
  revert f Hn. induction n as [n IH] using lt_wf_ind. intros f ->.
  apply Hstep. intros c Hc. eapply IH; [|done].
  rewrite (frame_nodes_eq f).
  pose proof (sum_list_with_elem frame_nodes _ _ Hc). lia.
Qed.

Lemma wire_eq f dst :
  dst ++ wire f = (write_node f dst).1 ++ flat_map wire (frame_children f)
  ∧ (write_node f dst).2 = frame_children f.
Proof.
  destruct f as [| | |[]|[]| |[]| | | | | | | |]; simpl; unfold line; simpl;
    rewrite <- ?app_assoc; simpl; rewrite ?app_nil_r; rewrite <- ?app_assoc; done.
Qed.

Lemma encode_loop_spec fuel pending dst :
  (sum_list_with frame_nodes pending <= fuel)%nat →
  encode_loop fuel pending dst = Some (dst ++ flat_map wire pending).
Proof.
  revert pending dst. induction fuel as [|fuel IH]; intros [|f pending] dst Hf; simpl.
  - by rewrite app_nil_r.
  - simpl in Hf. rewrite frame_nodes_eq in Hf. lia.
  - by rewrite app_nil_r.
  - destruct (wire_eq f dst) as [Hw Hc]. destruct (write_node f dst) as [dst' ch]. simpl in *.
    subst ch. rewrite IH.
    + rewrite flat_map_app, app_assoc, <- Hw. by rewrite <- app_assoc.
    + simpl in Hf. rewrite frame_nodes_eq in Hf. rewrite sum_list_with_app. lia.
Qed.

(** The limits as machine words; every [RespLimits] value of the program has
    this property. *)
Definition limits_usize (l : RespLimits) : Prop :=
  0 <= max_frame_bytes l <= USIZE_MAX ∧ 0 <= max_bulk_bytes l <= USIZE_MAX ∧
  0 <= max_line_bytes l <= USIZE_MAX ∧ 0 <= max_nodes l <= USIZE_MAX ∧
  0 <= max_depth l <= USIZE_MAX.

(** Bytes of a node without its children. *)
Definition head_len (f : Frame) : Z := zlen (wire f) - zlen (flat_map wire (frame_children f)).

(** Aggregates with a declared length. *)
Definition budgeted (f : Frame) : bool :=
  match f with
  | Array (Some _) | Map _ | Set_ _ | Push _ | Attribute _ => true
  | _ => false
  end.

Lemma zlen_CRLF : zlen CRLF = 2.
Proof. done. Qed.
#[export] Hint Rewrite @zlen_CRLF : zlen.

Lemma line_size_ok c l n :
  0 <= c → max_line_bytes l <= USIZE_MAX →
  line_size c l = Ok n ↔ n = c + 3 ∧ c + 3 <= max_line_bytes l.
Proof.
  intros. unfold line_size. split.
  - intros Hn. inv_ok. subst. destruct (Z.ltb_spec (max_line_bytes l) (c + 3)); [done|].
    inv_ok. lia.
  - intros [-> ?]. unfold u_add. rewrite usize_checked_ok by lia. simpl.
    destruct (Z.ltb_spec (max_line_bytes l) (c + 3)); [lia|done].
Qed.

Lemma child_depth_ok d l n :
  0 <= d → max_depth l <= USIZE_MAX →
  child_depth d l = Ok n ↔ n = d + 1 ∧ d + 1 <= max_depth l.
Proof.
  intros. unfold child_depth. rewrite ok_or_ok, opt_filter_Some. unfold u_add.
  rewrite usize_checked_Some, Z.leb_le. naive_solver lia.
Qed.

Lemma child_budget_ok nodes pending children l n :
  0 <= nodes → 0 <= pending → 0 <= children → max_nodes l <= USIZE_MAX →
  child_budget nodes pending children l = Ok n ↔
  n = nodes + pending + children ∧ nodes + pending + children <= max_nodes l.
Proof.
  intros. unfold child_budget. rewrite ok_or_ok, opt_filter_Some, bind_Some, Z.leb_le.
  unfold u_add. setoid_rewrite usize_checked_Some. split.
  - intros [(m & [-> ?] & -> & ?) ?]. lia.
  - intros [-> ?]. split; [|lia]. exists (nodes + pending). lia.
Qed.

Lemma payload_size_ok v l n :
  max_line_bytes l <= USIZE_MAX → max_bulk_bytes l <= USIZE_MAX →
  payload_size v l = Ok n ↔
  zlen v <= max_bulk_bytes l ∧ zlen (udec (zlen v)) + 3 <= max_line_bytes l ∧
  n = zlen (udec (zlen v)) + zlen v + 5 ∧ n <= USIZE_MAX.
Proof.
  intros. unfold payload_size. pose proof (zlen_nonneg v). pose proof (zlen_nonneg (udec (zlen v))).
  destruct (Z.ltb_spec (max_bulk_bytes l) (zlen v)) as [?|?]; [split; [done|lia]|].
  rewrite bind_ok. setoid_rewrite line_size_ok; [|lia..].
  setoid_rewrite ok_or_ok. setoid_rewrite bind_Some.
  unfold u_add. setoid_rewrite usize_checked_Some. split.
  - intros (line & [-> ?] & m & [-> ?] & -> & ?). lia.
  - intros (? & ? & -> & ?). eexists. split; [split; [done|lia]|].
    eexists. split; [split; [done|lia]|]. lia.
Qed.

Lemma leaf_ok {E A} (r : result E Z) (delta : Z) (ch : list A) :
  (size ← r; Ok (size, [])) = Ok (delta, ch) ↔ r = Ok delta ∧ ch = [].
Proof. destruct r; unfold mbind; simpl; naive_solver. Qed.

Lemma guarded_ok {E A} (b : bool) (e : E) (r : result E A) a :
  (if b then Err e else r) = Ok a ↔ b = false ∧ r = Ok a.
Proof. destruct b; naive_solver. Qed.

Lemma validate_scalar_unit k v : ∀ u, validate_scalar k v = Ok u ↔ validate_scalar k v = Ok tt.
Proof. by intros []. Qed.

Lemma odd_guard n : negb (n mod 2 =? 0) = false ↔ n mod 2 = 0.
Proof. rewrite negb_false_iff. apply Z.eqb_eq. Qed.

Lemma aggregate_ok (d nodes pending n len : Z) l delta (vs : list Frame) ch :
  limits_usize l → 0 <= d → 0 <= nodes → 0 <= pending → 0 <= n → 0 <= len →
  (depth ← child_depth d l;
   _ ← child_budget nodes pending n l;
   header ← line_size len l;
   Ok (header, push_children vs depth)) = Ok (delta, ch) ↔
  d + 1 <= max_depth l ∧ nodes + pending + n <= max_nodes l ∧ len + 3 <= max_line_bytes l ∧
  delta = len + 3 ∧ ch = push_children vs (d + 1).
Proof.
  intros (?&?&?&?&?) ?????. split.
  - intros Hs. inv_ok.
    repeat match goal with
    | H : child_depth _ _ = Ok _ |- _ => apply child_depth_ok in H as [-> ?]; [|lia..]
    | H : child_budget _ _ _ _ = Ok _ |- _ => apply child_budget_ok in H as [-> ?]; [|lia..]
    | H : line_size _ _ = Ok _ |- _ => apply line_size_ok in H as [-> ?]; [|lia..]
    end. subst. auto with lia.
  - intros (?&?&?&->&->).
    assert (child_depth d l = Ok (d + 1)) as -> by (apply child_depth_ok; lia).
    assert (child_budget nodes pending n l = Ok (nodes + pending + n)) as ->
      by (apply child_budget_ok; lia).
    by assert (line_size len l = Ok (len + 3)) as -> by (apply line_size_ok; lia).
Qed.

Lemma line_size_eq c l :
  0 <= c → max_line_bytes l <= USIZE_MAX →
  line_size c l = if max_line_bytes l <? c + 3 then Err (ELimitExceeded "max_line_bytes")
                  else Ok (c + 3).
Proof.
  intros. unfold line_size. destruct (Z.ltb_spec (max_line_bytes l) (c + 3)).
  - unfold u_add, usize_checked. destruct (_ && _); cbn; [|done].
    by destruct (Z.ltb_spec (max_line_bytes l) (c + 3)); [|lia].
  - unfold u_add. rewrite usize_checked_ok by lia. cbn.
    by destruct (Z.ltb_spec (max_line_bytes l) (c + 3)); [lia|].
Qed.

(** A node passes the sizing step exactly when [node_ok] holds and its declared
    children fit the node budget; it then contributes its own bytes and pushes
    its children. *)
Lemma size_node_ok f d nodes pending l delta ch :
  limits_usize l → 0 <= d → 0 <= nodes → 0 <= pending →
  size_node f d nodes pending l = Ok (delta, ch) ↔
  node_ok l d f ∧ (budgeted f = true → nodes + pending + zlen (frame_children f) <= max_nodes l) ∧
  delta = head_len f ∧ (budgeted f = false → delta <= USIZE_MAX) ∧
  ch = push_children (frame_children f) (d + 1).
Proof.
  intros Hl Hd Hn Hp. unfold head_len. pose proof Hl as (?&?&?&?&?).
  assert (∀ values : list Frame, 0 <= zlen values / 2)
    by (intros; apply Z.div_pos; [apply zlen_nonneg|lia]).
  destruct f as [v|v|v|[v|]|[vs|]| |v|v|v|v|v|vs|vs|vs|vs];
    cbn -[line_size payload_size validate_scalar has_crlf child_depth child_budget
          push_children udec sdec Z.div Z.modulo Z.add Z.sub lookup CRLF lit];
    rewrite ?leaf_ok, ?guarded_ok, ?aggregate_ok, ?payload_size_ok, ?line_size_ok, ?odd_guard by (done || lia || apply zlen_nonneg);
    autorewrite with zlen.
  all: try change (zlen (lit "$-1")) with 3; try change (zlen (lit "*-1")) with 3;
    try change (push_children [] (d + 1)) with (@nil (Frame * Z)).
  all: try solve [split; intros; destruct_and?; subst; repeat split; (done || lia)].
  all: try pose proof (zlen_nonneg v).
  1,2,4,5: rewrite line_size_eq by lia; destruct (Z.ltb_spec (max_line_bytes l) (zlen v + 3)); cbn;
    [split; [by intros []|lia]|].
  1,2: destruct (has_crlf v); split; intros; destruct_and?; simplify_eq; repeat split; (done || lia || (f_equal; lia)).
  1,2: destruct (validate_scalar _ v) as [[]|]; cbn; split; intros; destruct_and?; simplify_eq;
    repeat split; (done || lia || (f_equal; lia)).
  - split.
    + intros Hs. inv_ok. apply child_depth_ok in H5 as [-> ?]; [|lia..].
      apply line_size_ok in H6 as [-> ?]; [|lia..]. subst. repeat split; (done || lia).
    + intros ((? & ?) & _ & -> & _ & ->).
      assert (child_depth d l = Ok (d + 1)) as -> by (apply child_depth_ok; lia).
      by assert (line_size 2 l = Ok 5) as -> by (apply line_size_ok; lia).
  - rewrite leaf_ok, payload_size_ok, orb_false_iff, negb_false_iff, bool_decide_eq_true, Z.ltb_ge by lia.
    split; intros; destruct_and?; subst; repeat split; (done || lia).
Qed.

Lemma tree_ok_inv l d f :
  tree_ok l d f ↔ node_ok l d f ∧ Forall (tree_ok l (d + 1)) (frame_children f).
Proof.
  rewrite Forall_forall. split.
  - intros [? ? Hn Hc]. split; [exact Hn|exact Hc].
  - intros []. constructor; assumption.
Qed.

Lemma zlen_null_bulk : zlen (lit "$-1") = 3.
Proof. done. Qed.
Lemma zlen_null_array : zlen (lit "*-1") = 3.
Proof. done. Qed.
#[export] Hint Rewrite @zlen_null_bulk @zlen_null_array : zlen.

Lemma head_len_pos f : 3 <= head_len f.
Proof.
  unfold head_len. destruct f as [| | |[]|[]| |[]| | | | | | | |]; cbn [wire frame_children flat_map];
    autorewrite with zlen;
    repeat match goal with |- context [zlen ?x] =>
      pose proof (zlen_nonneg x); generalize dependent (zlen x); intros end; lia.
Qed.

(** A bounded counter of the encoder. *)
Lemma bounded_add_ok {E} (e : E) m a b r :
  0 <= a → 0 <= b → m <= USIZE_MAX →
  ok_or e (opt_filter (λ n, n <=? m) (u_add a b)) = Ok r ↔ r = a + b ∧ a + b <= m.
Proof.
  intros. rewrite ok_or_ok, opt_filter_Some, Z.leb_le. unfold u_add.
  rewrite usize_checked_Some. split; intros; destruct_and?; subst; repeat split; lia.
Qed.

Lemma size_step_ok l f d pending nodes size r :
  limits_usize l → 0 <= d → 0 <= nodes → 0 <= pending → 0 <= size →
  size_step l f d pending nodes size = Ok r ↔
  node_ok l d f ∧ nodes + 1 <= max_nodes l ∧
  (budgeted f = true → nodes + 1 + pending + zlen (frame_children f) <= max_nodes l) ∧
  size + head_len f <= max_frame_bytes l ∧
  r = (nodes + 1, size + head_len f, push_children (frame_children f) (d + 1)).
Proof.
  intros Hl ????. unfold size_step. pose proof Hl as (?&?&?&?&?). pose proof (head_len_pos f).
  rewrite bind_ok. setoid_rewrite bounded_add_ok; [|lia..]. split.
  - intros (n & [-> ?] & Hr). apply bind_ok in Hr as ([delta ch] & Hs & Hr).
    apply size_node_ok in Hs as (? & ? & -> & ? & ->); [|done || lia..].
    apply bind_ok in Hr as (s' & Hs' & Hr). apply bounded_add_ok in Hs' as [-> ?]; [|lia..].
    injection Hr as <-. auto.
  - intros (? & ? & ? & ? & ->). eexists. split; [done|]. apply bind_ok.
    exists (head_len f, push_children (frame_children f) (d + 1)). split.
    + apply size_node_ok; [done || lia..|]. repeat split; auto; lia.
    + apply bind_ok. eexists. split; [|done]. apply bounded_add_ok; lia.
Qed.

Lemma fst_push fs d : (push_children fs d).*1 = fs.
Proof. unfold push_children. rewrite <- list_fmap_compose. apply list_fmap_id. Qed.

Lemma zlen_nodes fs : (length fs <= sum_list_with frame_nodes fs)%nat.
Proof. induction fs as [|f fs IH]; simpl; [done|]. rewrite frame_nodes_eq. lia. Qed.

Lemma stack_step l f d pending :
  let next := push_children (frame_children f) (d + 1) ++ pending in
  stack_bytes ((f, d) :: pending) = head_len f + stack_bytes next ∧
  stack_nodes ((f, d) :: pending) = S (stack_nodes next) ∧
  zlen next <= Z.of_nat (stack_nodes next) ∧
  (Forall (λ p, tree_ok l p.2 p.1) ((f, d) :: pending) ↔
   node_ok l d f ∧ Forall (λ p, tree_ok l p.2 p.1) next).
Proof.
  unfold stack_bytes, stack_nodes. cbn zeta. rewrite fmap_app, fst_push. split_and!.
  - cbn [fmap list_fmap fst flat_map]. rewrite flat_map_app, !zlen_app. unfold head_len. lia.
  - cbn [fmap list_fmap fst sum_list_with]. rewrite frame_nodes_eq, sum_list_with_app. done.
  - pose proof (zlen_nodes (frame_children f ++ pending.*1)) as Hn. unfold zlen, push_children.
    rewrite !length_app, !length_fmap in *. lia.
  - rewrite Forall_cons, Forall_app. simpl. rewrite tree_ok_inv.
    unfold push_children. rewrite Forall_fmap. simpl. tauto.
Qed.

(** The sizing loop, with fuel for every node on its stack, succeeds exactly on
    valid trees within the node and byte budgets, and returns their size. *)
Lemma encoded_size_loop_ok fuel l pending nodes size r :
  limits_usize l → 0 <= nodes <= max_nodes l → 0 <= size <= max_frame_bytes l →
  Forall (λ p, 0 <= p.2) pending → (stack_nodes pending <= fuel)%nat →
  encoded_size_loop fuel l pending nodes size = Some (Ok r) ↔
  Forall (λ p, tree_ok l p.2 p.1) pending ∧ nodes + Z.of_nat (stack_nodes pending) <= max_nodes l ∧
  r = size + stack_bytes pending ∧ r <= max_frame_bytes l.
Proof.
  intros Hl. revert pending nodes size.
  induction fuel as [|fuel IH]; intros [|[f d] pending] nodes size Hn Hs Hd Hf; cbn [encoded_size_loop].
  1,3: rewrite Forall_nil; change (stack_bytes []) with 0; change (stack_nodes []) with 0%nat;
    split; [intros [= <-]; split_and!; [done|lia..]|intros (_&_&->&_); do 2 f_equal; lia].
  - unfold stack_nodes in Hf. cbn in Hf. rewrite frame_nodes_eq in Hf. lia.
  - apply Forall_cons in Hd as [Hd0 Hd]. simpl in Hd0.
    destruct (stack_step l f d pending) as (Hb & Hc & Hz & ->). rewrite Hb, Hc in *.
    pose proof (head_len_pos f). pose proof Hl as (?&?&?&?&?).
    pose proof (zlen_nonneg (flat_map wire (push_children (frame_children f) (d + 1) ++ pending).*1)) as Hp.
    fold (stack_bytes (push_children (frame_children f) (d + 1) ++ pending)) in Hp.
    rewrite zlen_app in Hz. unfold push_children in Hz at 1. unfold zlen in Hz at 1.
    rewrite length_fmap in Hz. fold (zlen (frame_children f)) in Hz.
    pose proof (zlen_nonneg pending). pose proof (zlen_nonneg (frame_children f)).
    destruct (size_step l f d (zlen pending) nodes size) as [[[n' s'] ch]|e] eqn:Es.
    + apply size_step_ok in Es as (? & ? & ? & ? & [= -> -> ->]); [|done || lia..].
      rewrite IH; [|done || lia..|apply Forall_app; split; [apply Forall_fmap, Forall_true; simpl; lia|done]|lia].
      split; intros; destruct_and?; repeat split; (done || lia).
    + split; [done|]. intros ((? & ?) & ? & -> & ?).
      assert (size_step l f d (zlen pending) nodes size = Ok
        (nodes + 1, size + head_len f, push_children (frame_children f) (d + 1))); [|congruence].
      apply size_step_ok; [done || lia..|]. repeat split; (done || lia).
Qed.

Lemma encoded_size_loop_total fuel l pending nodes size :
  (stack_nodes pending <= fuel)%nat → 
  limits_usize l → 0 <= nodes → 0 <= size → Forall (λ p, 0 <= p.2) pending →
  encoded_size_loop fuel l pending nodes size ≠ None.
Proof.
  intros Hf Hl. revert pending nodes size Hf.
  induction fuel as [|fuel IH]; intros [|[f d] pending] nodes size Hf Hn Hs Hd; cbn [encoded_size_loop]; try done.
  - unfold stack_nodes in Hf. cbn in Hf. rewrite frame_nodes_eq in Hf. lia.
  - apply Forall_cons in Hd as [Hd0 Hd]. simpl in Hd0. pose proof (head_len_pos f).
    destruct (stack_step l f d pending) as (_ & Hc & _ & _). rewrite Hc in Hf.
    destruct (size_step _ _ _ _ _ _) as [[[n' s'] ch]|] eqn:Es; [|done].
    apply size_step_ok in Es as (? & ? & ? & ? & [= -> -> ->]); [|done || lia..].
    apply IH; [lia..|]. apply Forall_app. split; [apply Forall_fmap, Forall_true; simpl; lia|done].
Qed.
Lemma encoded_size_ok f l r :
  limits_usize l → encoded_size f l = Ok r ↔ encodable l f ∧ r = zlen (wire f).
Proof.
  intros Hl. pose proof Hl as (?&?&?&?&?). unfold encoded_size.
  assert (Forall (λ p : Frame * Z, 0 <= p.2) [(f, 0)]) as Hd by (repeat constructor; simpl; lia).
  assert (stack_nodes [(f, 0%Z)] <= frame_nodes f)%nat as Hf by (unfold stack_nodes; simpl; lia).
  pose proof (encoded_size_loop_total _ l [(f, 0)] 0 0 Hf Hl ltac:(lia) ltac:(lia) Hd) as Ht.
  pose proof (encoded_size_loop_ok _ l [(f, 0)] 0 0 r Hl ltac:(lia) ltac:(lia) Hd Hf) as Hok.
  destruct (encoded_size_loop _ _ _ _ _) as [o|]; [|done]. simpl.
  rewrite Forall_singleton in Hok. unfold stack_nodes, stack_bytes in Hok. simpl in Hok.
  rewrite app_nil_r, Nat.add_0_r in Hok. unfold encodable.
  split.
  - intros ->. destruct Hok as [Hok _]. destruct (Hok eq_refl) as (? & ? & -> & ?).
    split_and!; (done || lia).
  - intros [(? & ? & ?) ->]. destruct Hok as [_ Hok].
    assert (Some o = Some (Ok (zlen (wire f)))) as [= ->]; [|done]. apply Hok. split_and!; (done || lia).
Qed.

Lemma encode_encodable f dst l :
  RespLimits_validate l = Ok tt → limits_usize l → zlen dst + max_frame_bytes l <= USIZE_MAX →
  encodable l f → encode f dst l = (dst ++ wire f, Ok tt).
Proof.
  intros Hv Hl Hc He. unfold encode. rewrite Hv. simpl.
  assert (encoded_size f l = Ok (zlen (wire f))) as -> by (by apply encoded_size_ok).
  simpl. unfold u_add. pose proof He as (_ & _ & ?).
  pose proof (zlen_nonneg dst). pose proof (zlen_nonneg (wire f)).
  rewrite usize_checked_ok by lia. simpl.
  rewrite encode_loop_spec by (simpl; lia). simpl. by rewrite app_nil_r.
Qed.

(** C21. With valid limits and room for the largest frame in the address space,
    [encode] accepts exactly the frames the limits admit: then the output is
    the old buffer followed by the reference serialization, whose length is the
    one the sizing pass reserved.  On any other frame the call fails and the
    buffer is untouched. *)
Theorem encode_exact f dst l :
  RespLimits_validate l = Ok tt → limits_usize l → zlen dst + max_frame_bytes l <= USIZE_MAX →
  (encodable l f ∧ encoded_size f l = Ok (zlen (wire f)) ∧
   encode f dst l = (dst ++ wire f, Ok tt)) ∨
  (¬ encodable l f ∧ ∃ e, encode f dst l = (dst, Err e)).
Proof.
  intros Hv Hl Hc. destruct (encoded_size f l) as [n|e] eqn:En.
  - apply encoded_size_ok in En as [He ->]; [|done]. left.
    split_and!; [done..|]. by apply encode_encodable.
  - right. split.
    + intros He. assert (encoded_size f l = Ok (zlen (wire f))) by (by apply encoded_size_ok). congruence.
    + exists e. unfold encode. by rewrite Hv, En.
Qed.

Lemma encode_exact_witness :
  ∃ f dst l, RespLimits_validate l = Ok tt ∧
    ((encodable l f ∧ encoded_size f l = Ok (zlen (wire f)) ∧
      encode f dst l = (dst ++ wire f, Ok tt)) ∨
     (¬ encodable l f ∧ ∃ e, encode f dst l = (dst, Err e))).
Proof.
  exists (Array (Some [Null; Bulk None])), (lit "x"), RespLimits_default. split; [reflexivity|].
  apply (encode_exact (Array (Some [Null; Bulk None])) (lit "x") RespLimits_default);
    vm_compute; intuition discriminate.
Defined.
