(* ===== verification/RespDecoder.v ===== *)
(** * The incremental RESP decoder

    Models src/resp/decoder.rs.  The scanner is a state machine over the shared
    input buffer; it is written in a state and error monad, so that the fields
    changed before an error keep the values the code leaves in them.  Byte
    offsets are [usize] values kept as [Z] with checked arithmetic. *)

From Stdlib Require Import Strings.Byte Strings.String ZArith Lia.
From S2P Require Import Prelude Float RespEncoder.

(** ** Data *)

Record Payload := { p_start : Z; p_end : Z }.

Inductive Node :=
| NSimple (payload : Payload)
| NError (payload : Payload)
| NInteger (value : Z)
| NBulk (payload : option Payload)
| NArray (length : option Z) (kind : byte)
| NScalar (kind : byte) (payload : Payload)
| NNull
| NBoolean (value : bool).

Record Line := {
  l_kind : byte;
  l_start : Z;
  l_payload_start : Z;
  l_saw_cr : bool
}.

Inductive State :=
| SPrefix
| SLine (line : Line)
| SBulk (payload : Payload) (saw_cr : bool) (kind : byte).

(** [nodes] and [arrays] are vectors whose last element is the head here. *)
Record Decoder := {
  limits : RespLimits;
  cursor : Z;
  previous_len : Z;
  state : State;
  nodes : list Node;
  arrays : list Z;
  nodes_started : Z;
  pending_nodes : Z;
  poisoned : bool
}.

Definition set_cursor (c : Z) (d : Decoder) : Decoder :=
  Build_Decoder (limits d) c (previous_len d) (state d) (nodes d) (arrays d)
    (nodes_started d) (pending_nodes d) (poisoned d).
Definition set_previous_len (n : Z) (d : Decoder) : Decoder :=
  Build_Decoder (limits d) (cursor d) n (state d) (nodes d) (arrays d)
    (nodes_started d) (pending_nodes d) (poisoned d).
Definition set_state (s : State) (d : Decoder) : Decoder :=
  Build_Decoder (limits d) (cursor d) (previous_len d) s (nodes d) (arrays d)
    (nodes_started d) (pending_nodes d) (poisoned d).
Definition push_node (n : Node) (d : Decoder) : Decoder :=
  Build_Decoder (limits d) (cursor d) (previous_len d) (state d) (n :: nodes d) (arrays d)
    (nodes_started d) (pending_nodes d) (poisoned d).
Definition set_arrays (a : list Z) (d : Decoder) : Decoder :=
  Build_Decoder (limits d) (cursor d) (previous_len d) (state d) (nodes d) a
    (nodes_started d) (pending_nodes d) (poisoned d).
Definition set_nodes_started (n : Z) (d : Decoder) : Decoder :=
  Build_Decoder (limits d) (cursor d) (previous_len d) (state d) (nodes d) (arrays d)
    n (pending_nodes d) (poisoned d).
Definition set_pending_nodes (n : Z) (d : Decoder) : Decoder :=
  Build_Decoder (limits d) (cursor d) (previous_len d) (state d) (nodes d) (arrays d)
    (nodes_started d) n (poisoned d).

(** [Decoder::new] after the validation, and the reset after a frame. *)
Definition fresh (limits : RespLimits) : Decoder :=
  Build_Decoder limits 0 0 SPrefix [] [] 0 1 false.

Definition Decoder_new (limits : RespLimits) : result ConfigError Decoder :=
  _ ← RespLimits_validate limits; Ok (fresh limits).

(** ** The scanner monad *)

(** How a computation stops early: an error value, a panic (an index out of
    range), or exhausted fuel. *)
Inductive Halt :=
| Raise (e : ProtocolError)
| Panic
| Diverge.

Definition M (A : Type) : Type := Decoder → Decoder * result Halt A.
#[export] Instance M_ret : MRet M := λ A a d, (d, Ok a).
#[export] Instance M_bind : MBind M := λ A B f m d,
  match m d with
  | (d, Ok a) => f a d
  | (d, Err h) => (d, Err h)
  end.
Definition get : M Decoder := λ d, (d, Ok d).
Definition modify (f : Decoder → Decoder) : M unit := λ d, (f d, Ok tt).
Definition halt {A} (h : Halt) : M A := λ d, (d, Err h).
Definition raise {A} (e : ProtocolError) : M A := halt (Raise e).
Definition lift {A} (r : result ProtocolError A) : M A := λ d, (d, map_err Raise r).

(** ** Helpers *)

Definition checked_add (left right : Z) : result ProtocolError Z :=
  ok_or (PLimitExceeded "max_frame_bytes") (u_add left right).

Definition checked_sub (e : ProtocolError) (left right : Z) : result ProtocolError Z :=
  ok_or e (u_sub left right).

(** [src.get(i)]. *)
Definition src_get (src : bytes) (i : Z) : option byte := src !! Z.to_nat i.

(** [src.get(start..end)]. *)
Definition payload_slice (src : bytes) (p : Payload) : result ProtocolError bytes :=
  if (p_start p <=? p_end p) && (p_end p <=? zlen src)
  then Ok (take (Z.to_nat (p_end p - p_start p)) (drop (Z.to_nat (p_start p)) src))
  else Err BufferChanged.

Definition copy_payload (src : bytes) (p : Payload) : result ProtocolError bytes :=
  payload_slice src p.

Fixpoint parse_integer_digits (digits : bytes) (value : Z) : result ProtocolError Z :=
  match digits with
  | [] => Ok value
  | digit :: digits =>
      if is_digit digit then
        value ← ok_or (Malformed "integer out of range")
                  (v ← i_mul value 10; i_sub v (digit_value digit));
        parse_integer_digits digits value
      else Err (Malformed "invalid integer")
  end.

Definition parse_integer (s : bytes) : result ProtocolError Z :=
  let '(negative, digits) :=
    match s with
    | b :: r =>
        if bool_decide (b = "-"%byte) then (true, r)
        else if bool_decide (b = "+"%byte) then (false, r) else (false, s)
    | [] => (false, s)
    end in
  match digits with
  | [] => Err (Malformed "integer without digits")
  | _ =>
      value ← parse_integer_digits digits 0;
      if (negative : bool) then Ok value
      else ok_or (Malformed "integer out of range") (i64_checked (- value))
  end.

Fixpoint parse_length_digits (digits : bytes) (value : Z) : result ProtocolError Z :=
  match digits with
  | [] => Ok value
  | digit :: digits =>
      if is_digit digit then
        value ← ok_or (Malformed "length out of range")
                  (v ← u_mul value 10; u_add v (digit_value digit));
        parse_length_digits digits value
      else Err (Malformed "invalid length")
  end.

Definition parse_length (s : bytes) : result ProtocolError (option Z) :=
  if bool_decide (s = lit "-1") then Ok None
  else match s with
       | [] => Err (Malformed "length without digits")
       | _ => value ← parse_length_digits s 0; Ok (Some value)
       end.

(** [matches!(kind, ...)] over a set of prefix bytes. *)
Definition kind_in (kind : byte) (set : string) : bool := bool_decide (kind ∈ lit set).

(** ** The scanner *)

Definition require_frame_end (e : Z) : M unit :=
  d ← get;
  if max_frame_bytes (limits d) <? e then raise (PLimitExceeded "max_frame_bytes") else mret ().

(** The [while let] of [finish_node] over the array stack. *)
Fixpoint finish_arrays (arrays : list Z) : list Z * result ProtocolError bool :=
  match arrays with
  | [] => ([], Ok true)
  | remaining :: outer =>
      match checked_sub (Malformed "array already complete") remaining 1 with
      | Err e => (arrays, Err e)
      | Ok remaining =>
          if 0 <? remaining then (remaining :: outer, Ok false) else finish_arrays outer
      end
  end.

Definition finish_node : M bool :=
  _ ← modify (set_state SPrefix);
  d ← get;
  let '(stack, r) := finish_arrays (arrays d) in
  _ ← modify (set_arrays stack);
  lift r.

(** A finished length line of a bulk string, blob error or verbatim string. *)
Definition finish_bulk_length (kind : byte) (length : option Z) : M bool :=
  match length with
  | Some length =>
      d ← get;
      if max_bulk_bytes (limits d) <? length then raise (PLimitExceeded "max_bulk_bytes") else
      stop ← lift (checked_add (cursor d) length);
      limit ← lift (checked_add stop 2);
      _ ← require_frame_end limit;
      _ ← modify (set_state (SBulk {| p_start := cursor d; p_end := stop |} false kind));
      mret false
  | None => _ ← modify (push_node (NBulk None)); finish_node
  end.

(** A finished length line of an aggregate. *)
Definition finish_aggregate_length (kind : byte) (length : option Z) : M bool :=
  _ ← match length with
      | Some length =>
          d ← get;
          pending ← lift (ok_or (PLimitExceeded "max_nodes") (u_add (pending_nodes d) length));
          _ ← modify (set_pending_nodes pending);
          declared ← lift (ok_or (PLimitExceeded "max_nodes") (u_add (nodes_started d) pending));
          _ ← (if max_nodes (limits d) <? declared then raise (PLimitExceeded "max_nodes")
               else mret ());
          minimum ← lift (ok_or (PLimitExceeded "max_frame_bytes") (u_mul pending 3));
          limit ← lift (checked_add (cursor d) minimum);
          require_frame_end limit
      | None => mret ()
      end;
  _ ← modify (push_node (NArray length kind));
  match opt_filter (λ length, 0 <? length) length with
  | Some length =>
      d ← get;
      _ ← modify (set_arrays (length :: arrays d));
      _ ← modify (set_state SPrefix);
      mret false
  | None => finish_node
  end.

Definition finish_length (src : bytes) (kind : byte) (payload : Payload) : M bool :=
  text ← lift (payload_slice src payload);
  length ← lift (parse_length text);
  _ ← (if negb (kind_in kind "$*") && bool_decide (length = None)
       then raise (Malformed "null RESP3 length") else mret ());
  length ← (if kind_in kind "%|" then
              match length with
              | Some n => n ← lift (ok_or (PLimitExceeded "max_nodes") (u_mul n 2)); mret (Some n)
              | None => mret None
              end
            else mret length);
  if kind_in kind "$!=" then finish_bulk_length kind length
  else finish_aggregate_length kind length.

Definition finish_line (src : bytes) (kind : byte) (payload : Payload) : M bool :=
  if bool_decide (kind = "+"%byte) then
    _ ← modify (push_node (NSimple payload)); finish_node
  else if bool_decide (kind = "-"%byte) then
    _ ← modify (push_node (NError payload)); finish_node
  else if bool_decide (kind = ":"%byte) then
    text ← lift (payload_slice src payload);
    value ← lift (parse_integer text);
    _ ← modify (push_node (NInteger value)); finish_node
  else if bool_decide (kind = "_"%byte) then
    if negb (p_start payload =? p_end payload) then raise (Malformed "invalid null") else
    _ ← modify (push_node NNull); finish_node
  else if bool_decide (kind = "#"%byte) then
    text ← lift (payload_slice src payload);
    if bool_decide (text = lit "t") then _ ← modify (push_node (NBoolean true)); finish_node
    else if bool_decide (text = lit "f") then _ ← modify (push_node (NBoolean false)); finish_node
    else raise (Malformed "invalid boolean")
  else if kind_in kind ",(" then
    text ← lift (payload_slice src payload);
    _ ← lift (validate_scalar kind text);
    _ ← modify (push_node (NScalar kind payload)); finish_node
  else if kind_in kind "$*!=%~>|" then finish_length src kind payload
  else raise (Malformed "unknown prefix").

(** The three arms of the scanning loop.  [None] continues the loop, [Some b]
    returns [b].  The limits that hold before the next byte is available are
    separate guards. *)
Definition prefix_guard : M unit :=
  d ← get;
  if 0 <? nodes_started d
  then e ← lift (checked_add (cursor d) 3); require_frame_end e else mret ().

Definition scan_prefix (src : bytes) : M (option bool) :=
  _ ← prefix_guard;
  d ← get;
  match src_get src (cursor d) with
  | None => mret (Some false)
  | Some kind =>
      if negb (kind_in kind "+-:$*_#,(!=%~>|") then raise (Malformed "unknown prefix") else
      if kind_in kind "*%~>|" && (max_depth (limits d) <=? zlen (arrays d))
      then raise (PLimitExceeded "max_depth") else
      started ← lift (ok_or (PLimitExceeded "max_nodes")
                   (opt_filter (λ n, n <=? max_nodes (limits d)) (u_add (nodes_started d) 1)));
      _ ← modify (set_nodes_started started);
      pending ← lift (checked_sub (Malformed "node without parent") (pending_nodes d) 1);
      _ ← modify (set_pending_nodes pending);
      next ← lift (checked_add (cursor d) 1);
      _ ← modify (set_cursor next);
      _ ← modify (set_state (SLine {| l_kind := kind; l_start := cursor d;
                                      l_payload_start := next; l_saw_cr := false |}));
      mret None
  end.

(** The value [scan] returns after a finished line or node. *)
Definition stop_if (done : bool) : option bool := if done then Some true else None.

Definition line_guard (l : Line) : M unit :=
  d ← get;
  minimum_end ← lift (checked_add (cursor d) (if l_saw_cr l then 1 else 2));
  _ ← require_frame_end minimum_end;
  line_len ← lift (checked_sub (Malformed "invalid line offset") minimum_end (l_start l));
  if max_line_bytes (limits d) <? line_len then raise (PLimitExceeded "max_line_bytes")
  else mret ().

Definition scan_line (src : bytes) (l : Line) : M (option bool) :=
  _ ← line_guard l;
  d ← get;
  match src_get src (cursor d) with
  | None => mret (Some false)
  | Some b =>
      next ← lift (checked_add (cursor d) 1);
      _ ← modify (set_cursor next);
      if l_saw_cr l then
        if negb (bool_decide (b = LF)) then raise (Malformed "CR without LF") else
        stop ← lift (checked_sub (Malformed "invalid line offset") next 2);
        stopped ← finish_line src (l_kind l) {| p_start := l_payload_start l; p_end := stop |};
        mret (stop_if stopped)
      else if bool_decide (b = LF) then raise (Malformed "LF without CR")
      else
        _ ← modify (set_state (SLine {| l_kind := l_kind l; l_start := l_start l;
                                        l_payload_start := l_payload_start l;
                                        l_saw_cr := bool_decide (b = CR) |}));
        mret None
  end.

(** The payload of a finished bulk string, with the verbatim check.  The
    subtraction and the index panic outside their range. *)
Definition finish_bulk (src : bytes) (payload : Payload) (kind : byte) : M bool :=
  _ ← (if bool_decide (kind = "$"%byte) then modify (push_node (NBulk (Some payload)))
       else
         _ ← (if bool_decide (kind = "="%byte) then
                match u_sub (p_end payload) (p_start payload) with
                | None => halt Panic
                | Some len =>
                    if len <? 4 then raise (Malformed "invalid verbatim format") else
                    match src_get src (p_start payload + 3) with
                    | None => halt Panic
                    | Some b =>
                        if bool_decide (b = ":"%byte) then mret ()
                        else raise (Malformed "invalid verbatim format")
                    end
                end
              else mret ());
         modify (push_node (NScalar kind payload)));
  finish_node.

(** The payload is skipped without being read; [true] when it is not complete. *)
Definition bulk_skip (src : bytes) (payload : Payload) : M bool :=
  d ← get;
  if cursor d <? p_end payload then
    let c := Z.min (zlen src) (p_end payload) in
    _ ← modify (set_cursor c); mret (c <? p_end payload)
  else mret false.

Definition bulk_terminator (src : bytes) (payload : Payload) (saw_cr : bool) (kind : byte)
    : M (option bool) :=
  d ← get;
  match src_get src (cursor d) with
  | None => mret (Some false)
  | Some b =>
      next ← lift (checked_add (cursor d) 1);
      _ ← modify (set_cursor next);
      if (saw_cr : bool) then
        if negb (bool_decide (b = LF)) then raise (Malformed "invalid bulk terminator") else
        stopped ← finish_bulk src payload kind;
        mret (stop_if stopped)
      else if negb (bool_decide (b = CR)) then raise (Malformed "invalid bulk terminator")
      else _ ← modify (set_state (SBulk payload true kind)); mret None
  end.

Definition scan_bulk (src : bytes) (payload : Payload) (saw_cr : bool) (kind : byte)
    : M (option bool) :=
  short ← bulk_skip src payload;
  if (short : bool) then mret (Some false) else bulk_terminator src payload saw_cr kind.

Definition scan_step (src : bytes) : M (option bool) :=
  d ← get;
  match state d with
  | SPrefix => scan_prefix src
  | SLine line => scan_line src line
  | SBulk payload saw_cr kind => scan_bulk src payload saw_cr kind
  end.

Fixpoint scan (fuel : nat) (src : bytes) : M bool :=
  match fuel with
  | O => halt Diverge
  | S fuel =>
      r ← scan_step src;
      match r with
      | Some b => mret b
      | None => scan fuel src
      end
  end.

(** Every continuing iteration consumes a byte of [src]. *)
Definition scan_fuel (src : bytes) (d : Decoder) : nat := S (Z.to_nat (zlen src - cursor d)).

(** ** Materialization *)

(** [frames.pop()] for each of [n] children; the last frame is the head. *)
Fixpoint pop_children (n : nat) (frames : list Frame)
    : result ProtocolError (list Frame * list Frame) :=
  match n with
  | O => Ok ([], frames)
  | S n =>
      match frames with
      | [] => Err (Malformed "incomplete array")
      | f :: frames => '(children, frames) ← pop_children n frames; Ok (f :: children, frames)
      end
  end.

Definition aggregate_frame (kind : byte) (children : list Frame) : Frame :=
  if bool_decide (kind = "%"%byte) then Map children
  else if bool_decide (kind = "~"%byte) then Set_ children
  else if bool_decide (kind = ">"%byte) then Push children
  else if bool_decide (kind = "|"%byte) then Attribute children
  else Array (Some children).

Definition materialize_node (src : bytes) (frames : list Frame) (node : Node)
    : result ProtocolError (list Frame) :=
  match node with
  | NSimple p => v ← copy_payload src p; Ok (Simple v :: frames)
  | NError p => v ← copy_payload src p; Ok (Error v :: frames)
  | NInteger v => Ok (Integer v :: frames)
  | NBulk None => Ok (Bulk None :: frames)
  | NBulk (Some p) => v ← copy_payload src p; Ok (Bulk (Some v) :: frames)
  | NArray None _ => Ok (Array None :: frames)
  | NNull => Ok (Null :: frames)
  | NBoolean v => Ok (Boolean v :: frames)
  | NScalar kind p =>
      v ← copy_payload src p;
      if bool_decide (kind = ","%byte) then Ok (Double v :: frames)
      else if bool_decide (kind = "("%byte) then Ok (BigNumber v :: frames)
      else if bool_decide (kind = "!"%byte) then Ok (BlobError v :: frames)
      else if bool_decide (kind = "="%byte) then Ok (Verbatim v :: frames)
      else Err (Malformed "unknown scalar")
  | NArray (Some length) kind =>
      '(children, frames) ← pop_children (Z.to_nat length) frames;
      Ok (aggregate_frame kind children :: frames)
  end.

Fixpoint materialize_nodes (src : bytes) (nodes : list Node) (frames : list Frame)
    : result ProtocolError (list Frame) :=
  match nodes with
  | [] => Ok frames
  | node :: nodes => frames ← materialize_node src frames node; materialize_nodes src nodes frames
  end.

Definition materialize (src : bytes) (d : Decoder) : result ProtocolError Frame :=
  frames ← materialize_nodes src (nodes d) [];
  match frames with
  | [] => Err (Malformed "frame without root")
  | [f] => Ok f
  | _ => Err (Malformed "frame with multiple roots")
  end.

(** ** Decoding one frame *)

Definition fail (d : Decoder) : Decoder :=
  Build_Decoder (limits d) (cursor d) (previous_len d) (state d) [] []
    (nodes_started d) (pending_nodes d) true.

(** The decoder, the buffer and the result after the call. *)
Definition decode (d : Decoder) (src : bytes)
    : Decoder * bytes * result Halt (option Frame) :=
  if poisoned d then (d, src, Err (Raise Poisoned)) else
  if zlen src <? previous_len d then (fail d, src, Err (Raise BufferChanged)) else
  let d := set_previous_len (zlen src) d in
  match scan (scan_fuel src d) src d with
  | (d, Ok false) => (d, src, Ok None)
  | (d, Ok true) =>
      match materialize src d with
      | Ok frame => (fresh (limits d), drop (Z.to_nat (cursor d)) src, Ok (Some frame))
      | Err e => (fail d, src, Err (Raise e))
      end
  | (d, Err (Raise e)) => (fail d, src, Err (Raise e))
  | (d, Err h) => (d, src, Err h)
  end.

Example decode_example :
  let d := fresh RespLimits_default in
  let w := lit "*2" ++ CRLF ++ lit "$5" ++ CRLF ++ lit "hello" ++ CRLF ++ lit ":-7" ++ CRLF in
  decode d (w ++ lit "+OK") = (d, lit "+OK", Ok (Some (Array (Some [Bulk (Some (lit "hello")); Integer (-7)]))))
  ∧ let '(d', _, r) := decode d (take 9 w) in r = Ok None ∧
    decode d' (w ++ lit "+OK") = (d, lit "+OK", Ok (Some (Array (Some [Bulk (Some (lit "hello")); Integer (-7)])))).
Proof. vm_compute. auto. Qed.
