(* ===== verification/RespScan.v ===== *)
(** * The decoder invariant and independence of fragmentation

    The state invariant of the scanner of src/resp/decoder.rs, its preservation
    by every arm of the loop, termination of the scan, success of the
    materialization of a completed scan, and the fact that appending input
    resumes a suspended scan or repeats a finished one. *)

From Stdlib Require Import Strings.Byte Strings.String ZArith Lia.
From S2P Require Import Prelude Float RespEncoder RespDecoder.

(** ** Weakest preconditions of scanner computations *)

(** Errors the scanner and the materialization only guard against: none of them
    arises on a buffer that only grows. *)
Definition internal_error (e : ProtocolError) : bool :=
  match e with
  | BufferChanged | Poisoned => true
  | Malformed reason =>
      bool_decide (reason ∈ ["node without parent"; "invalid line offset";
        "array already complete"; "unknown scalar"; "incomplete array";
        "frame without root"; "frame with multiple roots"]%string)
  | PLimitExceeded _ => false
  end.

(** [m] neither panics nor runs out of fuel from [d], raises only protocol
    errors, and establishes [Q] when it returns. *)
Definition wp {A} (m : M A) (Q : Decoder → A → Prop) (d : Decoder) : Prop :=
  match m d with
  | (d', Ok a) => Q d' a
  | (_, Err (Raise e)) => internal_error e = false
  | (_, Err _) => False
  end.

(** The state-independent part of the invariant. *)
Definition payload_in (c : Z) (p : Payload) : Prop := 0 <= p_start p <= p_end p ∧ p_end p <= c.

Definition node_wf (c : Z) (n : Node) : Prop :=
  match n with
  | NSimple p | NError p | NBulk (Some p) => payload_in c p
  | NScalar k p => payload_in c p ∧ kind_in k ",(!=" = true
  | NArray (Some n) _ => 0 <= n
  | _ => True
  end.

Definition arity (n : Node) : Z := match n with NArray (Some n) _ => n | _ => 0 end.

(** Nodes still missing after a prefix of a preorder traversal. *)
Fixpoint need (nodes : list Node) : Z :=
  match nodes with [] => 1 | n :: r => need r - 1 + arity n end.
Fixpoint need_ok (nodes : list Node) : Prop :=
  match nodes with [] => True | _ :: r => 1 <= need r ∧ need_ok r end.

(** Unfinished children of an open aggregate. *)
Definition remaining_wf (r : Z) : Prop := 1 <= r <= USIZE_MAX.

Definition zsum (l : list Z) : Z := foldr Z.add 0 l.

Record core (l : RespLimits) (len : Z) (d : Decoder) : Prop := {
  core_limits : limits d = l;
  core_usize : limits_usize l ∧ 1 <= max_frame_bytes l;
  core_live : poisoned d = false;
  core_cursor : 0 <= cursor d <= len;
  core_frame : cursor d <= max_frame_bytes l;
  core_nodes : Forall (node_wf (cursor d)) (nodes d);
  core_need : need_ok (nodes d);
  core_arrays : Forall remaining_wf (arrays d);
  core_depth : zlen (arrays d) <= max_depth l;
  core_started : nodes_started d + pending_nodes d <= max_nodes l;
  core_previous : previous_len d = len;
  core_progress : nodes_started d = 0 ∨ 0 < cursor d
}.

(** Between nodes, inside a node, after a node is recorded, after the frame. *)
Definition between l len d : Prop :=
  core l len d ∧ nodes_started d = zlen (nodes d) ∧ pending_nodes d = need (nodes d) ∧
  zsum (arrays d) - zlen (arrays d) + 1 = pending_nodes d ∧
  (nodes_started d = 0 → cursor d = 0).
Definition inside l len d : Prop :=
  core l len d ∧ nodes_started d = zlen (nodes d) + 1 ∧ pending_nodes d = need (nodes d) - 1 ∧
  zsum (arrays d) - zlen (arrays d) = pending_nodes d.
Definition recorded l len d : Prop :=
  core l len d ∧ (1 <= nodes_started d ∧ nodes_started d = zlen (nodes d)) ∧ pending_nodes d = need (nodes d) ∧
  zsum (arrays d) - zlen (arrays d) = pending_nodes d.
Definition complete l len d : Prop :=
  core l len d ∧ (1 <= nodes_started d ∧ nodes_started d = zlen (nodes d)) ∧ need (nodes d) = 0.

Definition line_wf (l : RespLimits) (d : Decoder) (line : Line) : Prop :=
  0 <= l_start line ∧ l_payload_start line = l_start line + 1 ∧
  l_payload_start line + (if l_saw_cr line then 1 else 0) <= cursor d ∧
  (kind_in (l_kind line) "*%~>|" = true → zlen (arrays d) < max_depth l).
Definition bulk_wf (l : RespLimits) (d : Decoder) (p : Payload) (saw_cr : bool) (kind : byte)
    : Prop :=
  kind_in kind "$!=" = true ∧ 0 <= p_start p <= p_end p ∧ p_end p + 2 <= max_frame_bytes l ∧
  (if saw_cr then cursor d = p_end p + 1 else p_start p <= cursor d <= p_end p).

(** The invariant of the scanner on an input of length [len]. *)
Definition dinv (l : RespLimits) (len : Z) (d : Decoder) : Prop :=
  match state d with
  | SPrefix => between l len d
  | SLine line => inside l len d ∧ line_wf l d line
  | SBulk p saw_cr kind => inside l len d ∧ bulk_wf l d p saw_cr kind
  end.

(** ** Rules *)

Section wp.
Context {A B : Type}.
Implicit Types (Q : Decoder → A → Prop) (d : Decoder).

Lemma wp_bind (f : A → M B) m R d :
  wp m (λ d a, wp (f a) R d) d → wp (m ≫= f) R d.
Proof. unfold wp, mbind, M_bind. by destruct (m d) as [d' [a|h]]. Qed.
Lemma wp_mono m Q Q' d : wp m Q d → (∀ d a, Q d a → Q' d a) → wp m Q' d.
Proof. unfold wp. destruct (m d) as [d' [a|h]]; auto. Qed.
Lemma wp_ret a Q d : Q d a → wp (mret a) Q d.
Proof. done. Qed.
Lemma wp_get (Q : Decoder → Decoder → Prop) d : Q d d → wp get Q d.
Proof. done. Qed.
Lemma wp_modify g (Q : Decoder → unit → Prop) d : Q (g d) tt → wp (modify g) Q d.
Proof. done. Qed.
Lemma wp_raise e Q d : internal_error e = false → wp (raise e) Q d.
Proof. done. Qed.
Lemma wp_lift r Q d :
  (∀ a, r = Ok a → Q d a) → (∀ e, r = Err e → internal_error e = false) → wp (lift r) Q d.
Proof. unfold wp, lift. destruct r; simpl; auto. Qed.
Lemma wp_lift_ok r a Q d : r = Ok a → Q d a → wp (lift r) Q d.
Proof. by intros ->. Qed.
Lemma wp_ok_or e (o : option A) Q d :
  internal_error e = false → (∀ a, o = Some a → Q d a) → wp (lift (ok_or e o)) Q d.
Proof. unfold wp, lift. destruct o; simpl; auto. Qed.
End wp.

Lemma wp_checked_add a b (Q : Decoder → Z → Prop) d :
  (0 <= a + b <= USIZE_MAX → Q d (a + b)) → wp (lift (checked_add a b)) Q d.
Proof.
  intros HQ. apply wp_ok_or; [done|]. intros z Hz. apply usize_checked_Some in Hz as [-> ?]. auto.
Qed.
Lemma wp_checked_sub e a b (Q : Decoder → Z → Prop) d :
  0 <= a - b <= USIZE_MAX → Q d (a - b) → wp (lift (checked_sub e a b)) Q d.
Proof.
  intros. apply (wp_lift_ok _ (a - b)); [|done]. unfold checked_sub, u_sub. by rewrite usize_checked_ok.
Qed.
Lemma wp_require_frame_end e (Q : Decoder → unit → Prop) d :
  (e <= max_frame_bytes (limits d) → Q d tt) → wp (require_frame_end e) Q d.
Proof.
  intros HQ. unfold require_frame_end. apply wp_bind, wp_get.
  destruct (Z.ltb_spec (max_frame_bytes (limits d)) e); [by apply wp_raise|]. apply wp_ret. auto.
Qed.

(** Runs the rules over a straight-line computation, splitting its tests. *)
Ltac wp_step :=
  lazymatch goal with
  | |- wp (_ ≫= _) _ _ => apply wp_bind
  | |- wp get _ _ => apply wp_get
  | |- wp (mret _) _ _ => apply wp_ret
  | |- wp (modify _) _ _ => apply wp_modify
  | |- wp (raise _) _ _ => apply wp_raise; reflexivity
  | |- wp (lift (checked_add _ _)) _ _ => apply wp_checked_add; intros ?
  | |- wp (require_frame_end _) _ _ => apply wp_require_frame_end; intros ?
  | |- wp (if ?b then _ else _) _ _ => destruct b eqn:?
  | |- wp (match ?o with Some _ => _ | None => _ end) _ _ => destruct o eqn:?
  end.
Ltac wp_run := repeat (wp_step; cbv beta).

Lemma payload_slice_ok src p :
  payload_in (zlen src) p →
  payload_slice src p = Ok (take (Z.to_nat (p_end p - p_start p)) (drop (Z.to_nat (p_start p)) src)).
Proof. intros [? ?]. unfold payload_slice. destruct (_ && _) eqn:E; [done|lia]. Qed.

Lemma parse_integer_error s e : parse_integer s = Err e → internal_error e = false.
Proof.
  assert (∀ digits v e, parse_integer_digits digits v = Err e → internal_error e = false) as Hd.
  { induction digits as [|b digits IH]; intros v e'; simpl; [done|].
    destruct (is_digit b); [|by intros [= <-]].
    destruct (v0 ← i_mul v 10; i_sub v0 (digit_value b)); simpl; [apply IH|by intros [= <-]]. }
  unfold parse_integer. destruct (match s with [] => _ | _ => _ end) as [neg [|b digits]].
  { by intros [= <-]. }
  destruct (parse_integer_digits (b :: digits) 0) as [v|] eqn:E; simpl.
  - destruct neg; [done|]. destruct (i64_checked (- v)); simpl; [done|by intros [= <-]].
  - intros [= <-]. eauto.
Qed.

Lemma parse_length_error s e : parse_length s = Err e → internal_error e = false.
Proof.
  assert (∀ digits v e, parse_length_digits digits v = Err e → internal_error e = false) as Hd.
  { induction digits as [|b digits IH]; intros v e'; simpl; [done|].
    destruct (is_digit b); [|by intros [= <-]].
    destruct (v0 ← u_mul v 10; u_add v0 (digit_value b)); simpl; [apply IH|by intros [= <-]]. }
  unfold parse_length. case_bool_decide; [done|]. destruct s as [|b s]; [by intros [= <-]|].
  destruct (parse_length_digits (b :: s) 0) as [v|] eqn:E; simpl; [done|].
  intros [= <-]. eauto.
Qed.

Lemma parse_length_nonneg s n : parse_length s = Ok (Some n) → 0 <= n.
Proof.
  assert (∀ digits v n, 0 <= v → parse_length_digits digits v = Ok n → 0 <= n) as Hd.
  { induction digits as [|b digits IH]; intros v m Hv; simpl; [by intros [= <-]|].
    destruct (is_digit b); [|done]. intros Hm.
    apply bind_ok in Hm as (w & Hw & Hm). apply ok_or_ok in Hw.
    apply bind_Some in Hw as (u & _ & Hu). apply usize_checked_Some in Hu as [-> ?].
    eapply IH; [|exact Hm]. lia. }
  unfold parse_length. case_bool_decide; [done|]. destruct s as [|b s]; [done|].
  intros (v & Hv & [= <-])%bind_ok. apply (Hd _ 0 _ ltac:(lia) Hv).
Qed.

Lemma zsum_ge l : Forall remaining_wf l → zlen l <= zsum l.
Proof. unfold remaining_wf. induction 1; simpl; autorewrite with zlen; simpl; lia. Qed.

Lemma node_wf_mono c c' n : c <= c' → node_wf c n → node_wf c' n.
Proof.
  intros. destruct n as [| | |[]|[]| | |]; simpl in *; unfold payload_in in *; intuition lia.
Qed.

Lemma core_advance l len d c :
  core l len d → cursor d <= c <= len → c <= max_frame_bytes l → core l len (set_cursor c d).
Proof.
  intros [] ? ?. split; simpl; try (done || lia).
  eapply Forall_impl; [done|]. intros n. apply node_wf_mono. lia.
Qed.

Lemma src_get_lt src i b : src_get src i = Some b → i < zlen src.
Proof. unfold src_get, zlen. intros ?%lookup_lt_Some. lia. Qed.

(** What a finished node leaves: the frame complete, or the next node awaited. *)
Definition finished (l : RespLimits) (len : Z) (d0 d : Decoder) (b : bool) : Prop :=
  cursor d = cursor d0 ∧ if b then complete l len d else dinv l len d.

Lemma finish_arrays_spec arr :
  Forall remaining_wf arr →
  ∃ b, (finish_arrays arr).2 = Ok b ∧ Forall remaining_wf (finish_arrays arr).1 ∧
    zlen (finish_arrays arr).1 <= zlen arr ∧
    zsum (finish_arrays arr).1 - zlen (finish_arrays arr).1 + (if b then 0 else 1)
      = zsum arr - zlen arr ∧
    (b = true → (finish_arrays arr).1 = []).
Proof.
  induction 1 as [|r arr Hr Harr IH]; simpl; [by exists true|]. unfold remaining_wf in Hr.
  unfold checked_sub, u_sub. rewrite usize_checked_ok by lia. simpl.
  destruct (Z.ltb_spec 0 (r - 1)).
  - exists false. simpl. autorewrite with zlen.
    split_and!; [done|constructor; [unfold remaining_wf; lia|done]|lia..|done].
  - destruct IH as (b & ? & ? & ? & ? & ?). exists b. autorewrite with zlen. split_and!; (done || lia).
Qed.

Lemma finish_node_wp l len d :
  recorded l len d → wp finish_node (finished l len d) d.
Proof.
  intros ([] & Hs & Hp & Ha). unfold finish_node. wp_run.
  destruct (finish_arrays_spec (arrays d)) as (b & Hr & Hw & Hl & Hz & Hb); [done|].
  cbn [arrays set_state] in *. destruct (finish_arrays (arrays d)) as [stack r]. cbn [fst snd] in *. subst r.
  wp_run. apply (wp_lift_ok _ b); [done|]. split; [done|].
  assert (core l len (set_arrays stack (set_state SPrefix d))) by (split; simpl; (done || lia)).
  destruct b.
  - rewrite (Hb eq_refl) in *. simpl in *. split_and!; simpl; (done || zlen_lia).
  - split_and!; simpl; (done || lia).
Qed.

(** A leaf node is recorded and finished. *)
Lemma record_leaf_wp l len d n :
  inside l len d → node_wf (cursor d) n → arity n = 0 →
  wp (_ ← modify (push_node n); finish_node) (finished l len d) d.
Proof.
  intros ([] & Hs & Hp & Ha) Hn Hz. pose proof (zsum_ge _ core_arrays0).
  wp_run. apply (finish_node_wp l len (push_node n d)). split_and!; simpl; [|zlen_lia..].
  split; simpl; try done; [by constructor|]. split; [lia|done].
Qed.

Lemma finish_bulk_length_wp l len d kind length :
  inside l len d → kind_in kind "$!=" = true → (∀ n, length = Some n → 0 <= n) →
  wp (finish_bulk_length kind length) (finished l len d) d.
Proof.
  intros Hin Hk Hn. destruct length as [n|]; simpl; [|by apply record_leaf_wp].
  specialize (Hn n eq_refl). wp_run. split; [done|].
  pose proof Hin as ([] & ? & ? & ?). simpl in *. split.
  - destruct Hin as (? & ? & ? & ?). split_and!; done.
  - unfold bulk_wf. simpl. subst l. split_and!; (done || lia).
Qed.

Lemma finish_aggregate_length_wp l len d kind length :
  inside l len d → zlen (arrays d) < max_depth l → (∀ n, length = Some n → 0 <= n) →
  wp (finish_aggregate_length kind length) (finished l len d) d.
Proof.
  intros Hin Hd Hn. destruct length as [n|]; [|wp_run; by apply record_leaf_wp].
  specialize (Hn n eq_refl). pose proof Hin as (Hc & Hs & Hp & Ha).
  pose proof Hc as []. pose proof (zsum_ge _ core_arrays0) as Hz. subst l.
  unfold finish_aggregate_length. wp_run.
  apply wp_ok_or; [done|]. intros p [-> ?]%usize_checked_Some. wp_run.
  apply wp_ok_or; [done|]. intros m [-> ?]%usize_checked_Some. wp_run.
  apply wp_ok_or; [done|]. intros k [-> ?]%usize_checked_Some. wp_run.
  all: simpl in *; destruct (Z.ltb_spec 0 n); try discriminate.
  - match goal with H : Some _ = Some _ |- _ => injection H as <- end. split; [done|]. split_and!; simpl; [|zlen_lia..].
    split; simpl; try done; [by constructor|split; [lia|done]| |zlen_lia..].
    constructor; [unfold remaining_wf; lia|done].
  - assert (n = 0) as -> by lia.
    apply (wp_mono _ (finished (limits d) len (push_node (NArray (Some 0) kind) (set_pending_nodes (pending_nodes d + 0) d)))).
    2:{ done. }
    apply finish_node_wp. split_and!; simpl; [|zlen_lia..].
    split; simpl; try done; [by constructor|split; [lia|done]|lia].
Qed.

Lemma kind_aggregate kind :
  kind_in kind "$*!=%~>|" = true → kind_in kind "$!=" = false → kind_in kind "*%~>|" = true.
Proof. by destruct kind. Qed.

Lemma finish_length_wp l src d kind p :
  inside l (zlen src) d → payload_in (zlen src) p → kind_in kind "$*!=%~>|" = true →
  (kind_in kind "*%~>|" = true → zlen (arrays d) < max_depth l) →
  wp (finish_length src kind p) (finished l (zlen src) d) d.
Proof.
  intros Hin Hp Hk Ha. unfold finish_length.
  assert (∀ len, (∀ n, len = Some n → 0 <= n) →
    wp (if kind_in kind "$!=" then finish_bulk_length kind len else finish_aggregate_length kind len)
       (finished l (zlen src) d) d) as Htail.
  { intros len Hlen. destruct (kind_in kind "$!=") eqn:Hb; [by apply finish_bulk_length_wp|].
    apply finish_aggregate_length_wp; auto using kind_aggregate. }
  wp_run. eapply wp_lift_ok; [by apply payload_slice_ok|]. wp_run.
  apply wp_lift; [|apply parse_length_error]. intros len Hlen.
  assert (∀ n, len = Some n → 0 <= n) as Hn by (intros n ->; by eapply parse_length_nonneg).
  apply wp_bind. destruct (negb _ && _); [by apply wp_raise|]. apply wp_ret, wp_bind.
  destruct (kind_in kind "%|"); [|by apply wp_ret, Htail].
  destruct len as [n|]; [|by apply wp_ret, Htail]. specialize (Hn n eq_refl). apply wp_bind.
  apply wp_ok_or; [done|]. intros m [-> ?]%usize_checked_Some. apply wp_ret, Htail. intros ? [= <-]. lia.
Qed.

(** A finished line, before its node is recorded. *)
Lemma finish_line_wp l src d kind p :
  inside l (zlen src) d → payload_in (cursor d) p →
  (kind_in kind "*%~>|" = true → zlen (arrays d) < max_depth l) →
  wp (finish_line src kind p) (finished l (zlen src) d) d.
Proof.
  intros Hin Hp Ha. unfold finish_line.
  assert (payload_in (zlen src) p) as Hp' by (destruct Hin as ([] & _), Hp; split; lia).
  repeat match goal with |- wp (if ?b then _ else _) _ _ => destruct b eqn:? end;
    try (apply wp_raise; done).
  1,2: by apply record_leaf_wp.
  - apply wp_bind. eapply wp_lift_ok; [by apply payload_slice_ok|]. apply wp_bind, wp_lift.
    + intros v _. by apply record_leaf_wp.
    + apply parse_integer_error.
  - by apply record_leaf_wp.
  - apply wp_bind. eapply wp_lift_ok; [by apply payload_slice_ok|].
    do 2 (destruct (bool_decide (take _ _ = _)); [by apply record_leaf_wp|]). by apply wp_raise.
  - apply wp_bind. eapply wp_lift_ok; [by apply payload_slice_ok|]. apply wp_bind, wp_lift.
    + intros _ _. apply record_leaf_wp; [done| |done]. split; [done|]. by destruct kind.
    + intros e. unfold validate_scalar. destruct (if bool_decide _ then _ else _); [done|by intros [= <-]].
  - by apply finish_length_wp.
Qed.

(** ** One iteration of the scanner *)

(** What an iteration establishes: it continues with the invariant and a larger
    cursor, waits for input with the invariant, or completes the frame. *)
Definition stepped (l : RespLimits) (len : Z) (d0 d : Decoder) (r : option bool) : Prop :=
  cursor d0 <= cursor d ∧
  match r with
  | None => cursor d0 < cursor d ∧ dinv l len d
  | Some false => dinv l len d
  | Some true => complete l len d
  end.

Lemma stop_if_wp l len d0 d m :
  cursor d0 < cursor d → wp m (finished l len d) d →
  wp (stopped ← m; mret (stop_if stopped)) (stepped l len d0) d.
Proof.
  intros Hc Hm. apply wp_bind. apply (wp_mono _ _ _ _ Hm). intros d' [] [Hd' Hf];
    apply wp_ret; split; simpl; (done || lia || (split; [lia|done])).
Qed.

Lemma scan_prefix_wp l src d :
  state d = SPrefix → between l (zlen src) d → wp (scan_prefix src) (stepped l (zlen src) d) d.
Proof.
  intros Hst Hb. pose proof Hb as (Hc & Hs & Hp & Ha & H0). pose proof Hc as [].
  destruct core_usize0 as [Hu ?]. subst l.
  pose proof (zsum_ge _ core_arrays0). pose proof Hu as (?&?&?&?&?).
  unfold scan_prefix. apply wp_bind.
  apply (wp_mono _ (λ d' _, d' = d ∧ cursor d + 1 <= max_frame_bytes (limits d))).
  { unfold prefix_guard. apply wp_bind, wp_get.
    destruct (Z.ltb_spec 0 (nodes_started d)); wp_run; split; (done || zlen_lia). }
  intros d' _ [-> ?]. apply wp_bind, wp_get.
  destruct (src_get src (cursor d)) as [kind|] eqn:Hget;
    [|apply wp_ret; split; [lia|]; unfold dinv; by rewrite Hst].
  apply src_get_lt in Hget. destruct (negb _); [by apply wp_raise|].
  destruct (_ && _) eqn:Hdepth; [by apply wp_raise|]. apply wp_bind.
  apply wp_ok_or; [done|]. intros n [[-> ?]%usize_checked_Some ?]%opt_filter_Some. wp_run.
  apply wp_checked_sub; [zlen_lia|]. wp_run. split; simpl; [lia|]. split; [lia|]. split.
  - split_and!; simpl; [|lia..].
    split; simpl; try (done || lia). eapply Forall_impl; [done|].
    intros ?. apply node_wf_mono. lia.
  - unfold line_wf. simpl. split_and!; [lia..|]. intros Hk. rewrite Hk in Hdepth. simpl in Hdepth. lia.
Qed.

Lemma scan_line_wp l src d line :
  inside l (zlen src) d → line_wf l d line → state d = SLine line →
  wp (scan_line src line) (stepped l (zlen src) d) d.
Proof.
  intros Hin Hl Hst. pose proof Hin as (Hc & Hs & Hp & Ha). pose proof Hc as [].
  destruct core_usize0 as [Hu ?]. subst l. pose proof Hu as (?&?&?&?&?). pose proof Hl as (?&?&?&Hd).
  unfold scan_line, line_guard. wp_run.
  apply wp_checked_sub; [destruct (l_saw_cr line); lia|].
  destruct (_ <? _); [by apply wp_raise|]. apply wp_ret, wp_bind, wp_get.
  destruct (src_get src (cursor d)) as [b|] eqn:Hget;
    [|apply wp_ret; split; [lia|]; unfold dinv; by rewrite Hst].
  apply src_get_lt in Hget. apply wp_bind, wp_checked_add. intros ?. apply wp_bind, wp_modify.
  assert (inside (limits d) (zlen src) (set_cursor (cursor d + 1) d)) as Hin'.
  { split_and!; try done. apply core_advance; [done|lia|]. destruct (l_saw_cr line); lia. }
  destruct (l_saw_cr line) eqn:Hcr.
  - destruct (negb _); [by apply wp_raise|]. apply wp_bind, wp_checked_sub; [lia|].
    apply (stop_if_wp _ _ d); [simpl; lia|]. apply finish_line_wp; [done| |done].
    split; simpl; lia.
  - destruct (bool_decide (b = LF)); [by apply wp_raise|]. wp_run. split; simpl; [lia|].
    split; [lia|]. split; [|unfold line_wf; simpl; split_and!; try done; destruct (bool_decide _); lia].
    destruct Hin' as ([] & ? & ? & ?). by split_and!.
Qed.

Lemma finish_bulk_wp l src d p kind :
  inside l (zlen src) d → payload_in (cursor d) p → kind_in kind "$!=" = true →
  wp (finish_bulk src p kind) (finished l (zlen src) d) d.
Proof.
  intros Hin Hp Hk. pose proof Hin as ([] & _). pose proof Hp as [? ?]. unfold finish_bulk.
  destruct (bool_decide (kind = "$"%byte)) eqn:Hd; [by apply record_leaf_wp|].
  assert (node_wf (cursor d) (NScalar kind p)) as Hn
    by (split; [done|]; revert Hk Hd; by destruct kind).
  apply wp_bind, wp_bind.
  apply (wp_mono _ (λ d' _, d' = d)); last first.
  { intros ? _ ->. by apply (record_leaf_wp _ _ _ (NScalar kind p)). }
  destruct (bool_decide (kind = "="%byte)); [|done].
  unfold u_sub, usize_checked. destruct (_ && _) eqn:Hr.
  2: { pose proof core_usize0 as ((?&?&?&?&?) & ?). lia. }
  destruct (Z.ltb_spec (p_end p - p_start p) 4); [by apply wp_raise|].
  destruct (src_get src (p_start p + 3)) as [b|] eqn:Hg.
  - destruct (bool_decide (b = _)); [by apply wp_ret|by apply wp_raise].
  - unfold src_get in Hg. apply lookup_ge_None in Hg. unfold zlen in *. lia.
Qed.

Lemma scan_bulk_wp l src d p saw_cr kind :
  inside l (zlen src) d → bulk_wf l d p saw_cr kind → state d = SBulk p saw_cr kind →
  wp (scan_bulk src p saw_cr kind) (stepped l (zlen src) d) d.
Proof.
  intros Hin Hb Hst. pose proof Hin as (Hc & Hs & Hp & Ha). pose proof Hc as [].
  destruct core_usize0 as [Hu ?]. subst l. pose proof Hu as (?&?&?&?&?). pose proof Hb as (Hk&?&?&Hcur).
  assert (∀ c, cursor d <= c <= zlen src → c <= max_frame_bytes (limits d) →
    inside (limits d) (zlen src) (set_cursor c d)) as Hadv.
  { intros. split_and!; try done. by apply core_advance. }
  unfold scan_bulk. apply wp_bind.
  apply (wp_mono _ (λ d' short, ∃ c, d' = set_cursor c d ∧ cursor d <= c <= zlen src ∧
    if (short : bool) then c < p_end p ∧ saw_cr = false
    else if saw_cr then c = p_end p + 1 else c = p_end p)).
  { unfold bulk_skip. apply wp_bind, wp_get. destruct (Z.ltb_spec (cursor d) (p_end p)); wp_run.
    - exists (Z.min (zlen src) (p_end p)). destruct saw_cr; [lia|].
      destruct (Z.ltb_spec (Z.min (zlen src) (p_end p)) (p_end p)); split_and!; (done || lia).
    - exists (cursor d). destruct saw_cr; split_and!; try (done || lia); by destruct d. }
  intros d' short (c & -> & Hcc & Hshort).
  assert (bulk_wf (limits d) (set_cursor c d) p saw_cr kind →
    stepped (limits d) (zlen src) d (set_cursor c d) (Some false)) as Hwait.
  { intros Hbw. split; simpl; [lia|]. unfold dinv. simpl. rewrite Hst. split; [|done].
    apply Hadv; [done|]. destruct Hbw as (_ & _ & _ & Hw). simpl in Hw. destruct saw_cr; lia. }
  destruct short.
  { apply wp_ret, Hwait. destruct Hshort as [? ->]. split_and!; simpl; (done || lia). }
  unfold bulk_terminator. apply wp_bind, wp_get. cbn [cursor set_cursor].
  destruct (src_get src c) as [b|] eqn:Hget.
  2: { apply wp_ret, Hwait. destruct saw_cr; split_and!; simpl; (done || lia). }
  apply src_get_lt in Hget. apply wp_bind, wp_checked_add. intros ?. apply wp_bind, wp_modify.
  assert (inside (limits d) (zlen src) (set_cursor (c + 1) d)) as Hin'
    by (apply Hadv; destruct saw_cr; lia).
  change (set_cursor (c + 1) (set_cursor c d)) with (set_cursor (c + 1) d).
  destruct saw_cr.
  - destruct (negb _); [by apply wp_raise|]. apply stop_if_wp; [simpl; lia|].
    apply finish_bulk_wp; [done| |done]. split; simpl; lia.
  - destruct (negb _); [by apply wp_raise|]. wp_run. split; simpl; [lia|]. split; [lia|].
    split; [by destruct Hin' as ([] & ? & ? & ?); split_and!|]. split_and!; simpl; (done || lia).
Qed.

Lemma scan_step_wp l src d :
  dinv l (zlen src) d → wp (scan_step src) (stepped l (zlen src) d) d.
Proof.
  unfold scan_step, dinv. intros Hd. apply wp_bind, wp_get.
  destruct (state d) as [|line|p saw_cr kind] eqn:Hst.
  - by apply scan_prefix_wp.
  - destruct Hd. by apply scan_line_wp.
  - destruct Hd. by apply scan_bulk_wp.
Qed.

(** The scanner returns within its fuel and keeps the invariant. *)
Lemma scan_wp l src fuel d :
  dinv l (zlen src) d → (Z.to_nat (zlen src - cursor d) < fuel)%nat →
  wp (scan fuel src) (λ d' b, if b then complete l (zlen src) d' else dinv l (zlen src) d') d.
Proof.
  revert d. induction fuel as [|fuel IH]; intros d Hd Hf; [lia|]. simpl.
  apply wp_bind. apply (wp_mono _ _ _ _ (scan_step_wp l src d Hd)).
  intros d' [[]|] [? Hs]; [by apply wp_ret..|]. destruct Hs as [? Hd']. apply IH; [done|].
  assert (cursor d' <= zlen src) by (unfold dinv in Hd';
    destruct (state d'); [destruct Hd' as ([] & _)|destruct Hd' as [([] & _) _]..]; lia).
  lia.
Qed.

(** ** Materialization never fails on a completed scan *)

Lemma pop_children_ok n frames :
  (n <= length frames)%nat → pop_children n frames = Ok (take n frames, drop n frames).
Proof.
  revert frames. induction n as [|n IH]; intros [|f frames] Hn; simpl in *; try done; [lia|].
  rewrite IH by lia. done.
Qed.

Lemma materialize_node_ok src n frames c :
  c <= zlen src → node_wf c n → arity n <= zlen frames →
  ∃ frames', materialize_node src frames n = Ok frames' ∧
             zlen frames' = zlen frames - arity n + 1.
Proof.
  intros Hc Hn Ha.
  assert (∀ p, payload_in c p → ∃ v, copy_payload src p = Ok v) as Hp.
  { intros p Hp. eexists. apply payload_slice_ok. destruct Hp. split; lia. }
  destruct n as [p|p|v|[p|]|[m|] k|k p| |v]; simpl in *;
    try (destruct (Hp p) as [v ->]; [tauto|]; simpl);
    try (eexists; split; [done|zlen_lia]).
  - rewrite pop_children_ok by (unfold zlen in *; lia). simpl. eexists. split; [done|].
    unfold zlen in *. simpl. rewrite length_drop. lia.
  - destruct Hn as [_ Hk]. revert Hk.
    destruct k; try done; intros _; simpl; (eexists; split; [done|zlen_lia]).
Qed.

Lemma materialize_nodes_ok src ns frames c :
  c <= zlen src → Forall (node_wf c) ns → need_ok ns → zlen frames = need ns →
  ∃ f, materialize_nodes src ns frames = Ok [f].
Proof.
  intros Hc Hns. revert frames. induction Hns as [|n ns Hn Hns IH]; intros frames Ho Hf; simpl in *.
  - destruct frames as [|f [|]]; unfold zlen in Hf; simpl in Hf; [lia| |lia]. by exists f.
  - destruct Ho as [? Ho].
    destruct (materialize_node_ok src n frames c) as (frames' & -> & Hl); [done..|lia|].
    simpl. apply IH; [done|lia].
Qed.

Lemma materialize_ok l src d :
  complete l (zlen src) d → ∃ f, materialize src d = Ok f.
Proof.
  intros ([] & _ & Hz). unfold materialize.
  destruct (materialize_nodes_ok src (nodes d) [] (cursor d)) as [f ->]; [lia|done..|by rewrite Hz|].
  by exists f.
Qed.

(** ** The decoder between calls *)

Definition decoder_inv (l : RespLimits) (d : Decoder) : Prop := dinv l (previous_len d) d.

Lemma dinv_core l len d : dinv l len d → core l len d.
Proof. unfold dinv. destruct (state d); [by intros (? & _)|by intros [(? & _) _]..]. Qed.

Lemma core_len l len len' d d' :
  core l len d → cursor d <= len' → limits d' = limits d → cursor d' = cursor d → nodes d' = nodes d →
  arrays d' = arrays d → nodes_started d' = nodes_started d → pending_nodes d' = pending_nodes d →
  poisoned d' = poisoned d → previous_len d' = len' → core l len' d'.
Proof. intros [] ? E1 E2 E3 E4 E5 E6 E7 ?.
  split; rewrite ?E1, ?E2, ?E3, ?E4, ?E5, ?E6, ?E7; (done || lia). Qed.

Lemma dinv_len l len len' d :
  dinv l len d → len <= len' → dinv l len' (set_previous_len len' d).
Proof.
  intros Hd Hle. pose proof (dinv_core _ _ _ Hd) as Hc.
  assert (core l len' (set_previous_len len' d)) as Hc'
    by (eapply core_len; [done|destruct Hc; lia|done..]).
  unfold dinv in *. simpl. destruct (state d).
  - destruct Hd as (_ & ?). by split.
  - destruct Hd as [(_ & ?) ?]. by split; [split|].
  - destruct Hd as [(_ & ?) ?]. by split; [split|].
Qed.

Lemma fresh_inv l :
  RespLimits_validate l = Ok tt → limits_usize l → decoder_inv l (fresh l).
Proof.
  unfold RespLimits_validate. intros Hv Hu. pose proof Hu as (?&?&?&?&?).
  destruct (_ || _) eqn:E; [done|]. rewrite !orb_false_iff, !Z.eqb_neq in E.
  split_and!; simpl; try (done || lia). split; simpl; try (done || lia || by constructor); [split; [done|lia]|zlen_lia].
Qed.

(** What a call of [decode] leaves on a buffer that did not shrink. *)
Lemma decode_cases l d src :
  decoder_inv l d → previous_len d <= zlen src →
  match decode d src with
  | (d', src', Ok None) => src' = src ∧ decoder_inv l d' ∧ previous_len d' = zlen src
  | (d', src', Ok (Some f)) =>
      d' = fresh l ∧ ∃ n, 1 <= n <= max_frame_bytes l ∧ n <= zlen src ∧ src' = drop (Z.to_nat n) src
  | (d', src', Err (Raise e)) =>
      src' = src ∧ internal_error e = false ∧ poisoned d' = true ∧ nodes d' = [] ∧ arrays d' = []
  | (_, _, Err _) => False
  end.
Proof.
  intros Hd Hlen. unfold decode. pose proof (dinv_core _ _ _ Hd) as [].
  rewrite core_live0. destruct (Z.ltb_spec (zlen src) (previous_len d)); [lia|].
  apply (dinv_len _ _ (zlen src)) in Hd; [|done].
  pose proof (scan_wp l src (scan_fuel src (set_previous_len (zlen src) d)) _ Hd
    ltac:(unfold scan_fuel; lia)) as Hs.
  unfold wp in Hs. destruct (scan _ _ _) as [d' [[]|[e| |]]]; try done.
  - destruct (materialize_ok _ _ _ Hs) as [f ->]. destruct Hs as ([] & ?). split; [by f_equal|].
    exists (cursor d'). split_and!; (done || lia).
  - pose proof (dinv_core _ _ _ Hs) as []. unfold decoder_inv. by rewrite core_previous1.
Qed.

(** ** Fragmentation *)

Lemma src_get_app a b i x : src_get a i = Some x → src_get (a ++ b) i = Some x.
Proof. apply lookup_app_l_Some. Qed.

Lemma payload_slice_app a b p :
  payload_in (zlen a) p → payload_slice (a ++ b) p = payload_slice a p.
Proof.
  intros Hp. rewrite !payload_slice_ok; [|done|destruct Hp; split; zlen_lia]. f_equal.
  destruct Hp as [? ?]. unfold zlen in *.
  rewrite drop_app_le by lia. rewrite take_app_le; [done|]. rewrite length_drop. lia.
Qed.

Lemma finish_line_app a b k p :
  payload_in (zlen a) p → finish_line (a ++ b) k p = finish_line a k p.
Proof. intros Hp. unfold finish_line, finish_length. by rewrite payload_slice_app. Qed.

Lemma finish_bulk_app a b p k :
  payload_in (zlen a) p → finish_bulk (a ++ b) p k = finish_bulk a p k.
Proof.
  intros [? ?]. unfold finish_bulk. destruct (bool_decide (k = "$"%byte)); [done|].
  destruct (bool_decide (k = "="%byte)); [|done].
  unfold u_sub, usize_checked. destruct (_ && _); [|done].
  destruct (Z.ltb_spec (p_end p - p_start p) 4); [done|].
  destruct (src_get a (p_start p + 3)) as [x|] eqn:E; [by rewrite (src_get_app _ _ _ _ E)|].
  unfold src_get in E. apply lookup_ge_None in E. unfold zlen in *. lia.
Qed.

(** The scanner waits without having looked beyond [a], or behaves on a longer
    input as on [a]. *)
Definition stable {A} (wait : A) (m m' : M A) (d : Decoder) : Prop :=
  (∃ d', m d = (d', Ok wait) ∧ state d' = state d ∧ m' d' = m' d) ∨
  (m' d = m d ∧ ∀ d', m d ≠ (d', Ok wait)).

(** Computations that only read the decoder. *)
Definition reads {A} (m : M A) : Prop := ∀ d, (m d).1 = d.

Lemma reads_bind {A B} (m : M A) (f : A → M B) : reads m → (∀ a, reads (f a)) → reads (m ≫= f).
Proof.
  intros Hm Hf d. specialize (Hm d). unfold mbind, M_bind.
  destruct (m d) as [d' [a|]]; simpl in *; subst; [apply Hf|done].
Qed.
Lemma reads_if {A} (c : bool) (m m' : M A) : reads m → reads m' → reads (if c then m else m').
Proof. by destruct c. Qed.
Ltac reads := repeat first [apply reads_bind; [|intros ?] | apply reads_if]; done.

Lemma prefix_guard_reads : reads prefix_guard.
Proof. unfold prefix_guard, require_frame_end. reads. Qed.
Lemma line_guard_reads line : reads (line_guard line).
Proof. unfold line_guard, require_frame_end. reads. Qed.

(** Computations that never report a wait for input. *)
Definition nowait (m : M (option bool)) : Prop := ∀ d d', m d ≠ (d', Ok (Some false)).

Lemma nowait_bind {A} (m : M A) f : (∀ a, nowait (f a)) → nowait (m ≫= f).
Proof. intros Hf d d'. unfold mbind, M_bind. destruct (m d) as [? [a|]]; [apply Hf|done]. Qed.
Lemma nowait_if (c : bool) m m' : nowait m → nowait m' → nowait (if c then m else m').
Proof. by destruct c. Qed.
Lemma nowait_stop b : nowait (mret (stop_if b)).
Proof. by destruct b. Qed.
Ltac nowait :=
  repeat first [apply nowait_bind; intros ? | apply nowait_if]; (apply nowait_stop || done).

(** A guarded read of the byte at the cursor is stable when its continuation
    is. *)
Lemma guarded_stable (g : M unit) (m m' : Decoder → byte → M (option bool)) a b d :
  reads g →
  (∀ x, nowait (m d x)) → (∀ x, src_get a (cursor d) = Some x → m' d x d = m d x d) →
  stable (Some false)
    (_ ← g; d ← get; match src_get a (cursor d) with None => mret (Some false) | Some x => m d x end)
    (_ ← g; d ← get; match src_get (a ++ b) (cursor d) with None => mret (Some false) | Some x => m' d x end)
    d.
Proof.
  intros Hg Hw Hm. unfold stable, mbind, M_bind, get. specialize (Hg d).
  destruct (g d) as [d' [[]|]] eqn:Eg; simpl in Hg; subst d'; [|by right].
  destruct (src_get a (cursor d)) as [x|] eqn:E.
  - right. rewrite (src_get_app _ _ _ _ E). split; [by apply Hm|apply Hw].
  - left. exists d. split_and!; [done..|]. by rewrite Eg.
Qed.

Lemma scan_prefix_app a b d : stable (Some false) (scan_prefix a) (scan_prefix (a ++ b)) d.
Proof. apply guarded_stable; [apply prefix_guard_reads|intros; nowait|done]. Qed.

Lemma scan_line_app l a b d line :
  inside l (zlen a) d → line_wf l d line →
  stable (Some false) (scan_line a line) (scan_line (a ++ b) line) d.
Proof.
  intros ([] & _) (? & ? & ? & _). apply guarded_stable; [apply line_guard_reads|intros; nowait|].
  intros x Hx%src_get_lt.
  unfold mbind, M_bind, lift, modify. destruct (checked_add (cursor d) 1) as [n|] eqn:En; [|done].
  apply ok_or_ok, usize_checked_Some in En as [-> ?]. simpl. destruct (l_saw_cr line); [|done]. destruct (negb _); [done|].
  destruct (checked_sub _ (cursor d + 1) 2) as [n|] eqn:En; [|done]. simpl.
  apply ok_or_ok, usize_checked_Some in En as [-> ?].
  rewrite finish_line_app; [done|]. split; simpl; lia.
Qed.

Lemma bulk_terminator_app a b d p saw_cr kind :
  0 <= p_start p <= p_end p → p_end p <= cursor d →
  bulk_terminator a p saw_cr kind d = (d, Ok (Some false)) ∨
  (bulk_terminator (a ++ b) p saw_cr kind d = bulk_terminator a p saw_cr kind d ∧
   ∀ d', bulk_terminator a p saw_cr kind d ≠ (d', Ok (Some false))).
Proof.
  intros. destruct (src_get a (cursor d)) as [x|] eqn:E; [right|left]; last first.
  { unfold bulk_terminator, mbind, M_bind, get. by rewrite E. }
  split; last first.
  { intros d'. unfold bulk_terminator, mbind at 1, M_bind at 1, get. rewrite E.
    revert d'. enough (∀ m, nowait m → ∀ d', m d ≠ (d', Ok (Some false))) as Hm by (apply Hm; nowait).
    auto. }
  unfold bulk_terminator, mbind, M_bind, lift, modify, get. rewrite E.
  rewrite (src_get_app _ _ _ _ E). destruct (checked_add (cursor d) 1); [|done]. simpl.
  destruct saw_cr; [|done]. destruct (negb _); [done|].
  apply src_get_lt in E. rewrite finish_bulk_app; [done|]. split; lia.
Qed.

Lemma scan_bulk_app l a b d p saw_cr kind :
  inside l (zlen a) d → bulk_wf l d p saw_cr kind →
  stable (Some false) (scan_bulk a p saw_cr kind) (scan_bulk (a ++ b) p saw_cr kind) d.
Proof.
  intros ([] & _) (? & ? & ? & Hcur). unfold stable, scan_bulk, mbind, M_bind, bulk_skip.
  unfold mbind, M_bind, get, modify. pose proof (zlen_nonneg b).
  destruct (Z.ltb_spec (cursor d) (p_end p)); simpl.
  - rewrite zlen_app. destruct (Z.ltb_spec (Z.min (zlen a) (p_end p)) (p_end p)).
    + left. eexists. split_and!; [done..|]. simpl.
      destruct (Z.ltb_spec (Z.min (zlen a) (p_end p)) (p_end p)); [done|lia].
    + replace (Z.min (zlen a) (p_end p)) with (p_end p) by lia.
      replace (Z.min (zlen a + zlen b) (p_end p)) with (p_end p) by lia.
      rewrite Z.ltb_irrefl.
      destruct (bulk_terminator_app a b (set_cursor (p_end p) d) p saw_cr kind) as [E|E];
        simpl; [lia..| |by right].
      left. eexists. split_and!; [done..|]. simpl. by rewrite Z.ltb_irrefl.
  - destruct (bulk_terminator_app a b d p saw_cr kind) as [E|E]; [lia..| |by right].
    left. exists d. split_and!; [done..|]. destruct (Z.ltb_spec (cursor d) (p_end p)); [lia|done].
Qed.

Lemma scan_step_eq src d :
  scan_step src d = match state d with
                    | SPrefix => scan_prefix src d
                    | SLine line => scan_line src line d
                    | SBulk p saw_cr kind => scan_bulk src p saw_cr kind d
                    end.
Proof. unfold scan_step, mbind, M_bind, get. by destruct (state d). Qed.

Lemma scan_step_app l a b d :
  dinv l (zlen a) d → stable (Some false) (scan_step a) (scan_step (a ++ b)) d.
Proof.
  unfold dinv. intros Hd.
  assert (∀ (m m' : M (option bool)) s, state d = s →
    (∀ d, state d = s → scan_step a d = m d ∧ scan_step (a ++ b) d = m' d) →
    stable (Some false) m m' d → stable (Some false) (scan_step a) (scan_step (a ++ b)) d) as Harm.
  { intros m m' s Hs Hm Hst. destruct (Hm d Hs) as [Ha Hb]. unfold stable in *. rewrite Ha, Hb.
    destruct Hst as [(d' & ? & Hs' & ?)|?]; [left|by right]. exists d'. split_and!; [done..|].
    destruct (Hm d') as [_ ->]; [congruence|done]. }
  destruct (state d) as [|line|p saw_cr kind] eqn:Hst.
  - eapply Harm; [reflexivity| |apply scan_prefix_app].
    intros d' Hd'. by rewrite !scan_step_eq, Hd'.
  - destruct Hd. eapply Harm; [reflexivity| |by apply (scan_line_app l)].
    intros d' Hd'. by rewrite !scan_step_eq, Hd'.
  - destruct Hd. eapply Harm; [reflexivity| |by apply (scan_bulk_app l)].
    intros d' Hd'. by rewrite !scan_step_eq, Hd'.
Qed.

Lemma scan_more fuel k src d d' r :
  scan fuel src d = (d', r) → r ≠ Err Diverge → scan (fuel + k) src d = (d', r).
Proof.
  revert d. induction fuel as [|fuel IH]; intros d; simpl.
  { unfold halt. by intros [= <- <-]. }
  unfold mbind, M_bind. destruct (scan_step src d) as [d1 [[x|]|h]]; [done| |done]. apply IH.
Qed.

(** Scanning a longer input resumes from the saved state, or repeats the result
    already reached. *)
Lemma scan_app l a b fuel fuel' d :
  dinv l (zlen a) d → (fuel <= fuel')%nat →
  let '(d', r) := scan fuel a d in
  match r with
  | Err Diverge => True
  | Ok false => (Z.to_nat (zlen (a ++ b) - cursor d) < fuel')%nat →
      ∃ fuel'', scan fuel' (a ++ b) d = scan fuel'' (a ++ b) d' ∧ 
         (Z.to_nat (zlen (a ++ b) - cursor d') < fuel'')%nat
  | _ => scan fuel' (a ++ b) d = (d', r)
  end.
Proof.
  intros Hd. revert fuel' d Hd. induction fuel as [|fuel IH]; intros fuel' d Hd Hf; [done|].
  destruct fuel' as [|fuel']; [lia|]. cbn [scan]. unfold mbind, M_bind.
  pose proof (scan_step_wp l a d Hd) as Hwp. unfold wp in Hwp.
  destruct (scan_step_app l a b d Hd) as [(d' & Ea & _ & Eb)|[Eb Hw]].
  - rewrite Ea. simpl. intros Hfuel. exists (S fuel'). rewrite Ea in Hwp. destruct Hwp as [? ?].
    split; [|lia]. cbn [scan]. unfold mbind, M_bind. by rewrite Eb.
  - rewrite Eb. destruct (scan_step a d) as [d1 [[[]|]|[]]]; try done.
    + by destruct (Hw d1).
    + destruct Hwp as [? [? Hd1]]. specialize (IH fuel' d1 Hd1 ltac:(lia)).
      destruct (scan fuel a d1) as [d2 [[]|[]]]; try done.
      pose proof (dinv_core _ _ _ Hd1) as []. intros Hf'. apply IH. zlen_lia.
Qed.

(** Two budgets that suffice give the same scan. *)
Lemma scan_fuel_irrelevant l src d n m :
  dinv l (zlen src) d → (Z.to_nat (zlen src - cursor d) < n)%nat →
  (Z.to_nat (zlen src - cursor d) < m)%nat → scan n src d = scan m src d.
Proof.
  assert (∀ n m, (n <= m)%nat → dinv l (zlen src) d → (Z.to_nat (zlen src - cursor d) < n)%nat →
    scan n src d = scan m src d) as Hle.
  { intros n' m' Hle Hd Hn. pose proof (scan_wp l src n' d Hd Hn) as Hw. unfold wp in Hw.
    destruct (scan n' src d) as [d' r] eqn:E. replace m' with (n' + (m' - n'))%nat by lia.
    symmetry. apply scan_more; [done|]. by destruct r as [|[]]. }
  intros. destruct (Nat.le_ge_cases n m); [|symmetry]; by apply Hle.
Qed.

Lemma materialize_node_app a b frames n :
  node_wf (zlen a) n → materialize_node (a ++ b) frames n = materialize_node a frames n.
Proof.
  destruct n as [p|p|v|[p|]|[m|] k|k p| |v]; simpl; try done; unfold copy_payload;
    intros; by rewrite payload_slice_app by tauto.
Qed.

Lemma materialize_app l a b d :
  complete l (zlen a) d → materialize (a ++ b) d = materialize a d.
Proof.
  intros ([] & _). unfold materialize. f_equal.
  assert (Forall (node_wf (zlen a)) (nodes d)) as Hn
    by (eapply Forall_impl; [done|]; intros ?; apply node_wf_mono; lia).
  clear -Hn. generalize (@nil Frame). induction Hn as [|n ns Hn Hns IH]; intros frames; simpl; [done|].
  rewrite materialize_node_app by done. destruct (materialize_node a frames n); simpl; [apply IH|done].
Qed.

(** The scanner does not read the recorded buffer length. *)
Definition oblivious {A} (m : M A) : Prop :=
  ∀ n d, m (set_previous_len n d) = (set_previous_len n (m d).1, (m d).2).

Lemma oblivious_bind {A B} (m : M A) (f : A → M B) :
  oblivious m → (∀ a, oblivious (f a)) → oblivious (m ≫= f).
Proof.
  intros Hm Hf n d. unfold mbind, M_bind. rewrite Hm.
  destruct (m d) as [d' [a|h]]; simpl; [apply Hf|done].
Qed.
Lemma oblivious_get {A} (f : Decoder → M A) :
  (∀ n d, f (set_previous_len n d) = f d) → (∀ d, oblivious (f d)) → oblivious (get ≫= f).
Proof. intros Hf Ho n d. unfold mbind, M_bind, get. rewrite Hf. apply Ho. Qed.
Lemma oblivious_lift {A} (r : result ProtocolError A) : oblivious (lift r).
Proof. done. Qed.
Lemma oblivious_halt {A} h : oblivious (@halt A h).
Proof. done. Qed.
Lemma oblivious_ret {A} (a : A) : oblivious (mret a).
Proof. done. Qed.

Ltac oblivious :=
  repeat lazymatch goal with
  | |- ∀ _, _ => intros ?
  | |- oblivious (lift _) => apply oblivious_lift
  | |- oblivious (raise _) => apply oblivious_halt
  | |- oblivious (halt _) => apply oblivious_halt
  | |- oblivious (mret _) => apply oblivious_ret
  | |- oblivious (modify _) => intros ? ?; reflexivity
  | |- oblivious (get ≫= _) => apply oblivious_get; [intros; reflexivity|]
  | |- oblivious (_ ≫= _) => apply oblivious_bind
  | |- oblivious (match ?x with _ => _ end) => destruct x
  | |- oblivious (require_frame_end _) => unfold require_frame_end
  | |- oblivious finish_node => unfold finish_node
  end.

Lemma finish_line_oblivious src kind p : oblivious (finish_line src kind p).
Proof.
  unfold finish_line, finish_length, finish_bulk_length, finish_aggregate_length. oblivious.
Qed.

Lemma scan_step_oblivious src : oblivious (scan_step src).
Proof.
  unfold scan_step. apply oblivious_get; [done|]. intros d.
  destruct (state d) as [|line|p saw_cr kind].
  - unfold scan_prefix, prefix_guard. oblivious.
  - unfold scan_line, line_guard. oblivious. apply finish_line_oblivious.
  - unfold scan_bulk, bulk_skip, bulk_terminator, finish_bulk. oblivious.
Qed.

Lemma scan_oblivious fuel src : oblivious (scan fuel src).
Proof.
  induction fuel as [|fuel IH]; simpl; [done|]. apply oblivious_bind; [apply scan_step_oblivious|].
  by intros [|].
Qed.

(** The part of [decode] that follows the scan. *)
Lemma decode_eq l d src :
  decoder_inv l d → previous_len d <= zlen src →
  decode d src =
    match scan (scan_fuel src d) src (set_previous_len (zlen src) d) with
    | (d, Ok false) => (d, src, Ok None)
    | (d, Ok true) =>
        match materialize src d with
        | Ok frame => (fresh (limits d), drop (Z.to_nat (cursor d)) src, Ok (Some frame))
        | Err e => (fail d, src, Err (Raise e))
        end
    | (d, Err (Raise e)) => (fail d, src, Err (Raise e))
    | (d, Err h) => (d, src, Err h)
    end.
Proof.
  intros Hd ?. unfold decode. pose proof (dinv_core _ _ _ Hd) as []. rewrite core_live0.
  by destruct (Z.ltb_spec (zlen src) (previous_len d)); [lia|].
Qed.

(** The result of a call after more input was appended: an unfinished frame is
    resumed, a finished one and an error are repeated with the longer rest. *)
Lemma decode_app l d a b :
  decoder_inv l d → previous_len d <= zlen a →
  match decode d a with
  | (d', _, Ok None) => decode d' (a ++ b) = decode d (a ++ b)
  | (d', rest, Ok (Some f)) => decode d (a ++ b) = (d', rest ++ b, Ok (Some f))
  | (_, _, r) => (decode d (a ++ b)).2 = r
  end.
Proof.
  intros Hd Hlen. assert (previous_len d <= zlen (a ++ b)) by zlen_lia.
  pose proof (decode_cases l d a Hd Hlen) as Hcases.
  rewrite (decode_eq l d a), (decode_eq l d (a ++ b)) in * by done.
  assert (dinv l (zlen a) (set_previous_len (zlen a) d)) as Hd1 by (by eapply dinv_len).
  change (set_previous_len (zlen (a ++ b)) d)
    with (set_previous_len (zlen (a ++ b)) (set_previous_len (zlen a) d)).
  change (scan_fuel a d) with (scan_fuel a (set_previous_len (zlen a) d)) in *.
  change (scan_fuel (a ++ b) d) with (scan_fuel (a ++ b) (set_previous_len (zlen a) d)) in *.
  set (d1 := set_previous_len (zlen a) d) in *. clearbody d1. rewrite scan_oblivious.
  pose proof (scan_app l a b (scan_fuel a d1) (scan_fuel (a ++ b) d1) d1 Hd1
    ltac:(unfold scan_fuel; zlen_lia)) as Happ.
  pose proof (scan_wp l a (scan_fuel a d1) d1 Hd1 ltac:(unfold scan_fuel; lia)) as Hwp. unfold wp in Hwp.
  destruct (scan (scan_fuel a d1) a d1) as [d' [[]|[e| |]]] eqn:Es; try done.
  - rewrite Happ. simpl. destruct (materialize_ok _ _ _ Hwp) as [f Hf]. rewrite Hf.
    change (materialize (a ++ b) (set_previous_len (zlen (a ++ b)) d')) with (materialize (a ++ b) d').
    rewrite (materialize_app _ _ _ _ Hwp), Hf. destruct Hwp as ([] & _).
    rewrite drop_app_le; [done|]. unfold zlen in *. lia.
  - destruct Happ as (fuel'' & -> & Hfuel); [unfold scan_fuel; lia|].
    destruct Hcases as (_ & Hd' & Hprev). rewrite (decode_eq l) by (done || zlen_lia).
    assert (dinv l (zlen (a ++ b)) (set_previous_len (zlen (a ++ b)) d')) as Hd2
      by (eapply dinv_len; [done|zlen_lia]).
    rewrite (scan_fuel_irrelevant l (a ++ b) _ (scan_fuel (a ++ b) d') fuel'' Hd2);
      [by rewrite scan_oblivious|unfold scan_fuel; simpl; lia|simpl; lia].
  - by rewrite Happ.
Qed.

(** ** Connections: buffers that grow between calls *)

Lemma decode_poisoned d src : poisoned d = true → decode d src = (d, src, Err (Raise Poisoned)).
Proof. unfold decode. by intros ->. Qed.

(** A decoder and its buffer after any sequence of reads and decode calls. *)
Inductive reachable (l : RespLimits) : Decoder → bytes → Prop :=
| reach_new d : Decoder_new l = Ok d → reachable l d []
| reach_read d buf chunk : reachable l d buf → reachable l d (buf ++ chunk)
| reach_decode d buf d' buf' r :
    reachable l d buf → decode d buf = (d', buf', r) → reachable l d' buf'.

Lemma reachable_valid l d buf : reachable l d buf → RespLimits_validate l = Ok tt.
Proof.
  induction 1 as [d Hd| |]; [|done..]. unfold Decoder_new in Hd.
  by destruct (RespLimits_validate l) as [[]|].
Qed.

Lemma reachable_inv l d buf :
  limits_usize l → reachable l d buf →
  (poisoned d = true ∧ nodes d = [] ∧ arrays d = []) ∨
  (decoder_inv l d ∧ previous_len d <= zlen buf).
Proof.
  intros Hl Hr. pose proof (reachable_valid _ _ _ Hr) as Hv.
  induction Hr as [d Hd|d buf chunk _ IH|d buf d' buf' r _ IH Hdec].
  - right. unfold Decoder_new in Hd. rewrite Hv in Hd. injection Hd as <-. split; [by apply fresh_inv|done].
  - destruct IH as [|[? ?]]; [by left|right]. split; [done|zlen_lia].
  - destruct IH as [(Hp & ? & ?)|[Hd Hlen]].
    { rewrite decode_poisoned in Hdec by done. simplify_eq. auto. }
    pose proof (dinv_core _ _ _ Hd) as [].
    pose proof (decode_cases l d buf Hd Hlen) as Hc. rewrite Hdec in Hc.
    destruct r as [[f|]|[e| |]]; [| | |done..].
    + right. destruct Hc as (-> & n & ? & ? & ->). split; [by apply fresh_inv|simpl; zlen_lia].
    + right. destruct Hc as (-> & ? & ?). split; [done|lia].
    + left. by destruct Hc as (_ & _ & ?).
Qed.

(** Decodes frames until the input is exhausted or an error occurs: the frames,
    the decoder and the remaining buffer, and the error. *)
Fixpoint drain (fuel : nat) (d : Decoder) (buf : bytes)
    : list Frame * (Decoder * bytes) * option Halt :=
  match fuel with
  | O => ([], (d, buf), Some Diverge)
  | S fuel =>
      match decode d buf with
      | (d, buf, Ok (Some f)) => let '(fs, st, e) := drain fuel d buf in (f :: fs, st, e)
      | (d, buf, Ok None) => ([], (d, buf), None)
      | (d, buf, Err h) => ([], (d, buf), Some h)
      end
  end.

(** Every frame takes at least one byte of the buffer. *)
Definition drain_all (d : Decoder) (buf : bytes) := drain (S (length buf)) d buf.

(** Reads the chunks one after the other, decoding as much as possible after
    each read, until an error closes the connection. *)
Fixpoint feed (d : Decoder) (buf : bytes) (chunks : list bytes)
    : list Frame * (Decoder * bytes) * option Halt :=
  match chunks with
  | [] => ([], (d, buf), None)
  | chunk :: chunks =>
      match drain_all d (buf ++ chunk) with
      | (fs, st, Some h) => (fs, st, Some h)
      | (fs, (d, buf), None) => let '(fs', st, e) := feed d buf chunks in (fs ++ fs', st, e)
      end
  end.

Section stream.
Context (l : RespLimits) (Hvalid : RespLimits_validate l = Ok tt) (Husize : limits_usize l).

(** A live decoder whose buffer it may decode. *)
Definition live (d : Decoder) (buf : bytes) : Prop := decoder_inv l d ∧ previous_len d <= zlen buf.

Lemma live_decode d buf d' buf' r :
  live d buf → decode d buf = (d', buf', Ok r) →
  live d' buf' ∧ match r with Some _ => (length buf' < length buf)%nat | None => buf' = buf end.
Proof.
  intros [Hd Hlen] Hdec. pose proof (decode_cases l d buf Hd Hlen) as Hc. rewrite Hdec in Hc.
  destruct r as [f|].
  - destruct Hc as (-> & n & ? & ? & ->). split; [split; [by apply fresh_inv|simpl; zlen_lia]|].
    rewrite length_drop. unfold zlen in *. lia.
  - destruct Hc as (-> & ? & ?). split; [split; [done|lia]|done].
Qed.

Lemma drain_fuel n m d buf :
  live d buf → (length buf < n)%nat → (length buf < m)%nat → drain n d buf = drain m d buf.
Proof.
  revert m d buf. induction n as [|n IH]; intros [|m] d buf Hd Hn Hm; try lia. simpl.
  destruct (decode d buf) as [[d' buf'] [[f|]|h]] eqn:E; [|done..].
  destruct (live_decode _ _ _ _ _ Hd E) as [? ?]. rewrite (IH m); [done|done|lia..].
Qed.

Lemma drain_live n d buf fs d' buf' :
  live d buf → drain n d buf = (fs, (d', buf'), None) →
  live d' buf' ∧ drain_all d' buf' = ([], (d', buf'), None).
Proof.
  revert d buf fs. induction n as [|n IH]; intros d buf fs Hd; simpl; [done|].
  destruct (decode d buf) as [[d1 buf1] [[f|]|h]] eqn:E; [| |done].
  - destruct (live_decode _ _ _ _ _ Hd E) as [? _].
    destruct (drain n d1 buf1) as [[fs1 st1] e1] eqn:E1. intros [= <- -> ->]. eauto.
  - destruct (live_decode _ _ _ _ _ Hd E) as [? ->]. intros [= <- <- <-]. split; [done|].
    unfold drain_all. simpl. destruct Hd as [Hd ?].
    pose proof (decode_app l d buf [] Hd ltac:(done)) as Happ. rewrite E, app_nil_r in Happ.
    by rewrite Happ, E.
Qed.

(** Draining a longer buffer continues where the shorter one stopped. *)
Lemma drain_app n m d a b :
  live d a → (length a < n)%nat → (length (a ++ b) < m)%nat →
  match drain n d a with
  | (fs, _, Some h) => ∃ st, drain m d (a ++ b) = (fs, st, Some h)
  | (fs, (d', rest), None) =>
      drain m d (a ++ b) = let '(fs', st, e) := drain_all d' (rest ++ b) in (fs ++ fs', st, e)
  end.
Proof.
  revert m d a. induction n as [|n IH]; intros [|m] d a Hd Hn Hm; [lia..|]. cbn [drain].
  pose proof Hd as [Hinv Hlen]. pose proof (decode_app l d a b Hinv Hlen) as Happ.
  destruct (decode d a) as [[d1 buf1] [[f|]|h]] eqn:E.
  - destruct (live_decode _ _ _ _ _ Hd E) as [Hd1 ?]. rewrite Happ.
    rewrite length_app in Hm. specialize (IH m d1 buf1 Hd1). rewrite length_app in IH.
    specialize (IH ltac:(lia) ltac:(lia)).
    destruct (drain n d1 buf1) as [[fs [d' rest]] [h|]].
    + destruct IH as [st ->]. by exists st.
    + rewrite IH. by destruct (drain_all d' (rest ++ b)) as [[fs' st] e].
  - destruct (live_decode _ _ _ _ _ Hd E) as [Hd1 ->]. rewrite <- Happ.
    assert (live d1 (a ++ b)) by (destruct Hd1; split; [done|zlen_lia]).
    change (match decode d1 (a ++ b) with
      | (d, buf, Ok (Some f)) => let '(fs, st, e) := drain m d buf in (f :: fs, st, e)
      | (d, buf, Ok None) => ([], (d, buf), None)
      | (d, buf, Err h) => ([], (d, buf), Some h)
      end) with (drain (S m) d1 (a ++ b)).
    rewrite (drain_fuel (S m) (S (length (a ++ b)))) by (done || lia). unfold drain_all.
    by destruct (drain _ d1 (a ++ b)) as [[fs' st] e].
  - simpl in Happ. destruct (decode d (a ++ b)) as [[d2 buf2] r2]. simpl in Happ. subst r2. by eexists.
Qed.

Lemma feed_drain chunks d buf :
  live d buf → drain_all d buf = ([], (d, buf), None) →
  let '(fs, st, e) := feed d buf chunks in
  let '(fs', st', e') := drain_all d (buf ++ concat chunks) in
  fs = fs' ∧ e = e' ∧ (e = None → st = st').
Proof.
  revert d buf. induction chunks as [|c chunks IH]; intros d buf Hd Hidle; simpl.
  { rewrite app_nil_r, Hidle. done. }
  assert (live d (buf ++ c)) as Hd1 by (destruct Hd; split; [done|zlen_lia]).
  rewrite app_assoc. unfold drain_all at 1 2.
  pose proof (drain_app (S (length (buf ++ c))) (S (length ((buf ++ c) ++ concat chunks)))
    d (buf ++ c) (concat chunks) Hd1 ltac:(lia) ltac:(lia)) as Happ.
  destruct (drain (S (length (buf ++ c))) d (buf ++ c)) as [[fs [d' rest]] [h|]] eqn:E.
  - destruct Happ as [st ->]. done.
  - destruct (drain_live _ _ _ _ _ _ Hd1 E) as [Hd' Hidle']. specialize (IH d' rest Hd' Hidle').
    rewrite Happ. destruct (feed d' rest chunks) as [[fs1 st1] e1].
    destruct (drain_all d' (rest ++ concat chunks)) as [[fs2 st2] e2].
    destruct IH as (-> & -> & ?). done.
Qed.
End stream.

Lemma drain_error l n d buf :
  RespLimits_validate l = Ok tt → limits_usize l → live l d buf → (length buf < n)%nat →
  match (drain n d buf).2 with
  | None => True
  | Some (Raise e) => internal_error e = false
  | Some _ => False
  end.
Proof.
  intros Hv Hu. revert d buf. induction n as [|n IH]; intros d buf Hd Hn; [lia|]. simpl.
  pose proof Hd as [Hinv Hlen]. pose proof (decode_cases l d buf Hinv Hlen) as Hc.
  destruct (decode d buf) as [[d1 buf1] [[f|]|h]] eqn:E; simpl; [|done|by destruct h; destruct_and?].
  destruct (live_decode l Hv Hu _ _ _ _ _ Hd E) as [Hd1 ?].
  specialize (IH d1 buf1 Hd1 ltac:(lia)). by destruct (drain n d1 buf1) as [[fs st] e].
Qed.

(** ** Properties *)

(** C17. A decoder created with valid limits and driven by any sequence of reads
    and decode calls never panics and never loops.  Its bookkeeping stays within
    [max_nodes] and [max_depth], a frame consumes between one and
    [max_frame_bytes] bytes from the front of the buffer, a wait or an error
    leaves the buffer untouched, an error poisons the decoder, and the defensive
    errors of the scanner and of the materialization cannot occur: the only
    other error is the report that the decoder is already poisoned. *)
Theorem decoder_safety l d buf :
  limits_usize l → reachable l d buf →
  zlen (nodes d) <= max_nodes l ∧ zlen (arrays d) <= max_depth l ∧
  match decode d buf with
  | (_, buf', Ok (Some _)) =>
      ∃ n, 1 <= n <= max_frame_bytes l ∧ n <= zlen buf ∧ buf' = drop (Z.to_nat n) buf
  | (_, buf', Ok None) => buf' = buf
  | (d', buf', Err (Raise e)) =>
      buf' = buf ∧ poisoned d' = true ∧
      if poisoned d then e = Poisoned else internal_error e = false
  | (_, _, Err _) => False
  end.
Proof.
  intros Hu Hr. pose proof Hu as (?&?&?&?&?).
  destruct (reachable_inv l d buf Hu Hr) as [(Hp & -> & ->)|[Hd Hlen]].
  - rewrite decode_poisoned, Hp by done. split_and!; (done || zlen_lia).
  - pose proof (dinv_core _ _ _ Hd) as []. rewrite core_live0.
    assert (zlen (nodes d) <= max_nodes l).
    { pose proof (zsum_ge _ core_arrays0). unfold decoder_inv, dinv in Hd.
      destruct (state d); [destruct Hd as (_ & ? & ? & ? & _)|destruct Hd as [(_ & ? & ? & ?) _]..]; lia. }
    split_and!; [done..|]. pose proof (decode_cases l d buf Hd Hlen) as Hc.
    destruct (decode d buf) as [[d' buf'] [[f|]|[e| |]]]; try done.
    + by destruct Hc as (_ & ?).
    + by destruct Hc as (? & _).
    + by destruct Hc as (? & ? & ? & _).
Qed.

Lemma decoder_safety_witness :
  ∃ l d buf, reachable l d buf ∧ zlen (nodes d) = 2 ∧ zlen (nodes d) <= max_nodes l.
Proof.
  pose (buf := lit "*2" ++ CRLF ++ lit "$1" ++ CRLF ++ lit "a" ++ CRLF ++ lit "$").
  exists RespLimits_default, (decode (fresh RespLimits_default) buf).1.1, buf.
  assert (reachable RespLimits_default (decode (fresh RespLimits_default) buf).1.1 buf) as Hr.
  { eapply (reach_decode _ (fresh RespLimits_default) buf _ _ (Ok None)).
    - apply (reach_read _ _ [] buf). by apply reach_new.
    - vm_compute. reflexivity. }
  split; [exact Hr|]. split; [vm_compute; reflexivity|].
  refine (proj1 (decoder_safety _ _ _ _ Hr)). vm_compute. intuition discriminate.
Defined.

(** C18. The frames of a byte stream do not depend on how the stream is split
    into reads: decoding after each read, from a fresh decoder, yields the same
    frames and the same outcome as decoding the whole input at once, with the
    same decoder and unconsumed bytes when there is no error.  The outcome is
    never a panic, exhausted fuel or a defensive error. *)
Theorem stream_fragmentation l chunks :
  RespLimits_validate l = Ok tt → limits_usize l →
  let '(fs, st, e) := feed (fresh l) [] chunks in
  let '(fs', st', e') := drain_all (fresh l) (concat chunks) in
  fs = fs' ∧ e = e' ∧ (e = None → st = st') ∧
  match e with
  | None => True
  | Some (Raise x) => internal_error x = false
  | Some _ => False
  end.
Proof.
  intros Hv Hu. assert (live l (fresh l) []) as Hl by (split; [by apply fresh_inv|done]).
  pose proof (feed_drain l Hv Hu chunks (fresh l) [] Hl ltac:(done)) as Hf. simpl in Hf.
  assert (live l (fresh l) (concat chunks)) as Hl' by (split; [by apply fresh_inv|simpl; zlen_lia]).
  pose proof (drain_error l (S (length (concat chunks))) _ _ Hv Hu Hl' ltac:(lia)) as He.
  fold (drain_all (fresh l) (concat chunks)) in He.
  destruct (feed _ _ _) as [[fs st] e], (drain_all _ _) as [[fs' st'] e']. simpl in He.
  destruct Hf as (-> & -> & ?). done.
Qed.

Lemma stream_fragmentation_witness :
  (feed (fresh RespLimits_default) [] [lit "+O"; lit "K" ++ [CR]; [LF] ++ lit ":1"; CRLF ++ lit "$"]).1.1
  = (drain_all (fresh RespLimits_default) (lit "+OK" ++ CRLF ++ lit ":1" ++ CRLF ++ lit "$")).1.1.
Proof.
  pose proof (stream_fragmentation RespLimits_default
    [lit "+O"; lit "K" ++ [CR]; [LF] ++ lit ":1"; CRLF ++ lit "$"] eq_refl
    ltac:(vm_compute; intuition discriminate)) as H.
  change (lit "+OK" ++ CRLF ++ lit ":1" ++ CRLF ++ lit "$")
    with (concat [lit "+O"; lit "K" ++ [CR]; [LF] ++ lit ":1"; CRLF ++ lit "$"]).
  destruct (feed _ _ _) as [[fs st] e], (drain_all _ _) as [[fs' st'] e']. exact (proj1 H).
Defined.
