(* ===== verification/RespRoundtrip.v ===== *)
(** * Round trip of the RESP encoder and decoder

    Forward execution of the scanner of src/resp/decoder.rs on the output of
    src/resp/encoder.rs: every node of an accepted frame is scanned, recorded
    and materialized back, alone, in a pipeline, and under any fragmentation. *)

From Stdlib Require Import Strings.Byte Strings.String ZArith Lia.
From S2P Require Import Prelude Float RespEncoder RespDecoder RespScan.

(** ** Decimal lengths and integers *)

Definition dec_from (v : Z) (ds : bytes) : Z := fold_left (λ v b, v * 10 + digit_value b) ds v.

Lemma dec_from_ge ds v : forallb is_digit ds = true → 0 <= v → v <= dec_from v ds.
Proof.
  revert v. induction ds as [|b ds IH]; intros v; simpl; [lia|].
  intros [Hb Hds]%andb_true_iff Hv. apply digit_value_range in Hb.
  specialize (IH (v * 10 + digit_value b) Hds ltac:(lia)). unfold dec_from in *. simpl. lia.
Qed.

Lemma parse_length_digits_ok ds v :
  forallb is_digit ds = true → 0 <= v → dec_from v ds <= USIZE_MAX →
  parse_length_digits ds v = Ok (dec_from v ds).
Proof.
  revert v. induction ds as [|b ds IH]; intros v; simpl; [done|].
  intros [Hb Hds]%andb_true_iff Hv Hmax. rewrite Hb. apply digit_value_range in Hb.
  pose proof (dec_from_ge ds (v * 10 + digit_value b) Hds ltac:(lia)) as Hge.
  unfold dec_from in *. simpl in *.
  unfold u_mul, u_add. rewrite (usize_checked_ok (v * 10)) by lia. simpl.
  rewrite usize_checked_ok by lia. simpl. apply IH; (done || lia).
Qed.

Lemma parse_integer_digits_ok ds v :
  forallb is_digit ds = true → 0 <= v → I64_MIN <= - dec_from v ds →
  parse_integer_digits ds (- v) = Ok (- dec_from v ds).
Proof.
  revert v. induction ds as [|b ds IH]; intros v; simpl; [done|].
  intros [Hb Hds]%andb_true_iff Hv Hmax. rewrite Hb. apply digit_value_range in Hb.
  pose proof (dec_from_ge ds (v * 10 + digit_value b) Hds ltac:(lia)) as Hge.
  unfold dec_from in *. simpl in *. unfold i_mul, i_sub.
  rewrite (i64_checked_ok (- v * 10)) by (unfold I64_MAX, I64_MIN in *; lia). simpl.
  rewrite i64_checked_ok by (unfold I64_MAX, I64_MIN in *; lia). simpl.
  replace (- v * 10 - digit_value b) with (- (v * 10 + digit_value b)) by lia. apply IH; (done || lia).
Qed.

Lemma digit_not_sign b ds :
  forallb is_digit (b :: ds) = true → b ≠ "-"%byte ∧ b ≠ "+"%byte.
Proof. intros [Hb _]%andb_true_iff. split; intros ->; done. Qed.

Lemma parse_length_udec n : 0 <= n <= USIZE_MAX → parse_length (udec n) = Ok (Some n).
Proof.
  intros Hn. pose proof (udec_digits n ltac:(lia)) as Hd. pose proof (udec_value n ltac:(lia)) as Hv.
  pose proof (udec_nonempty n ltac:(lia)) as Hne. unfold parse_length.
  destruct (udec n) as [|b ds] eqn:E; [done|].
  rewrite bool_decide_false by (intros [= -> ->]; done).
  rewrite parse_length_digits_ok; [|done|lia|].
  - change (dec_from 0 (b :: ds)) with (dec_value (b :: ds)). by rewrite Hv.
  - change (dec_from 0 (b :: ds)) with (dec_value (b :: ds)). lia.
Qed.

Lemma parse_integer_sdec v : I64_MIN <= v <= I64_MAX → parse_integer (sdec v) = Ok v.
Proof.
  intros Hv. unfold sdec.
  pose proof (udec_digits (Z.abs v) ltac:(lia)) as Hd. pose proof (udec_value (Z.abs v) ltac:(lia)) as Hval.
  pose proof (udec_nonempty (Z.abs v) ltac:(lia)) as Hne.
  destruct (Z.ltb_spec v 0).
  - rewrite <- Z.abs_neq by lia. unfold parse_integer. simpl.
    destruct (udec (Z.abs v)) as [|b ds] eqn:E; [done|].
    change 0 with (- 0). rewrite parse_integer_digits_ok; [|done|lia|].
    all: change (dec_from 0 (b :: ds)) with (dec_value (b :: ds)); rewrite Hval.
    + simpl. f_equal. lia.
    + lia.
  - rewrite Z.abs_eq in * by lia. unfold parse_integer.
    destruct (udec v) as [|b ds] eqn:E; [done|]. destruct (digit_not_sign b ds Hd).
    rewrite !bool_decide_false by done.
    change 0 with (- 0) at 1. rewrite parse_integer_digits_ok; [|done|lia|].
    all: change (dec_from 0 (b :: ds)) with (dec_value (b :: ds)); rewrite Hval.
    + simpl. rewrite Z.opp_involutive, i64_checked_ok by lia. done.
    + unfold I64_MIN, I64_MAX in *. lia.
Qed.

Lemma digits_no_crlf ds : forallb is_digit ds = true → has_crlf ds = false.
Proof.
  unfold has_crlf. induction ds as [|b ds IH]; simpl; [done|].
  intros [Hb Hds]%andb_true_iff. rewrite IH by done.
  rewrite !bool_decide_false; [done|intros ->; done..].
Qed.
Lemma udec_no_crlf n : 0 <= n → has_crlf (udec n) = false.
Proof. intros. by apply digits_no_crlf, udec_digits. Qed.
Lemma sdec_no_crlf v : has_crlf (sdec v) = false.
Proof.
  unfold sdec. destruct (Z.ltb_spec v 0); [|apply udec_no_crlf; lia].
  change (has_crlf (udec (- v)) = false). apply udec_no_crlf. lia.
Qed.

Lemma scalar_no_crlf k v : validate_scalar k v = Ok tt → has_crlf v = false.
Proof.
  unfold validate_scalar. destruct (bool_decide (k = "("%byte)).
  - destruct (_ && _) eqn:E; [|done]. intros _. apply andb_true_iff in E as [_ E].
    unfold strip_minus in E. destruct v as [|b r]; [done|]. case_bool_decide; [|by apply digits_no_crlf].
    subst. change (has_crlf r = false). by apply digits_no_crlf.
  - destruct (_ || _) eqn:E; [|done]. intros _.
    rewrite !orb_true_iff, !bool_decide_eq_true, andb_true_iff, negb_true_iff in E.
    destruct E as [[[->| ->]| ->]|[_ E]]; [done..|].
    unfold has_crlf. induction v as [|b v IH]; simpl in *; [done|].
    apply orb_false_iff in E as [Eb E]. rewrite IH by done.
    rewrite !bool_decide_false; [done|intros ->; done..].
Qed.

(** ** Forward execution *)

Section exec.
Context {A B : Type} (f : A → M B) (d : Decoder).

Lemma run_get (g : Decoder → M B) : (get ≫= g) d = g d d.
Proof. done. Qed.
Lemma run_modify g (k : unit → M B) : (modify g ≫= k) d = k tt (g d).
Proof. done. Qed.
Lemma run_ret a : (mret a ≫= f) d = f a d.
Proof. done. Qed.
Lemma run_lift r a : r = Ok a → (lift r ≫= f) d = f a d.
Proof. by intros ->. Qed.
Lemma run_assoc {C} (m : M C) (g : C → M A) : ((m ≫= g) ≫= f) d = (m ≫= λ x, g x ≫= f) d.
Proof. unfold mbind, M_bind. by destruct (m d) as [? [|]]. Qed.
End exec.

Section exec_z.
Context {B : Type} (f : Z → M B) (k : unit → M B) (d : Decoder).
Lemma run_add a b : 0 <= a + b <= USIZE_MAX → (lift (checked_add a b) ≫= f) d = f (a + b) d.
Proof. intros. apply run_lift. unfold checked_add, u_add. by rewrite usize_checked_ok. Qed.
Lemma run_sub e a b : 0 <= a - b <= USIZE_MAX → (lift (checked_sub e a b) ≫= f) d = f (a - b) d.
Proof. intros. apply run_lift. unfold checked_sub, u_sub. by rewrite usize_checked_ok. Qed.
Lemma run_frame_end e : e <= max_frame_bytes (limits d) → (require_frame_end e ≫= k) d = k tt d.
Proof.
  intros. unfold require_frame_end. rewrite run_assoc, run_get.
  by destruct (Z.ltb_spec (max_frame_bytes (limits d)) e); [lia|].
Qed.
Lemma run_frame_end_last e :
  e <= max_frame_bytes (limits d) → require_frame_end e d = (d, Ok tt).
Proof.
  intros. unfold require_frame_end. rewrite run_get.
  by destruct (Z.ltb_spec (max_frame_bytes (limits d)) e); [lia|].
Qed.
Lemma run_unit (m : M unit) : m d = (d, Ok tt) → (m ≫= k) d = k tt d.
Proof. unfold mbind, M_bind. by intros ->. Qed.
End exec_z.

Section run.
Context (l : RespLimits) (Hu : limits_usize l) (src : bytes) (prev : Z).

(** A live decoder on [src]. *)
Definition at_ (c : Z) (st : State) (ns : list Node) (arr : list Z) (s p : Z) : Decoder :=
  Build_Decoder l c prev st ns arr s p false.

(** Continuing iterations of the scanner. *)
Definition step (d d' : Decoder) : Prop := scan_step src d = (d', Ok None).

Lemma step_prefix c k ns arr s p :
  src_get src c = Some k → kind_in k "+-:$*_#,(!=%~>|" = true →
  (kind_in k "*%~>|" = true → zlen arr < max_depth l) →
  0 <= c → c + 3 <= max_frame_bytes l → 0 <= s → s + 1 <= max_nodes l → 1 <= p <= USIZE_MAX →
  step (at_ c SPrefix ns arr s p)
       (at_ (c + 1) (SLine (Build_Line k c (c + 1) false)) ns arr (s + 1) (p - 1)).
Proof.
  intros Hk Hin Hagg ?????. pose proof Hu as (?&?&?&?&?). unfold step. rewrite scan_step_eq. simpl.
  unfold scan_prefix. rewrite run_unit.
  2:{ unfold prefix_guard. rewrite run_get. simpl. destruct (0 <? s); [|done].
      rewrite run_add by lia. by apply run_frame_end_last. }
  rewrite run_get. simpl. rewrite Hk, Hin. simpl.
  replace (kind_in k "*%~>|" && (max_depth l <=? zlen arr)) with false
    by (destruct (kind_in k "*%~>|"); [specialize (Hagg eq_refl)|done]; simpl; lia).
  rewrite (run_lift _ _ _ (s + 1)) by (apply bounded_add_ok; lia). rewrite run_modify. simpl.
  rewrite run_sub by lia. rewrite run_modify, run_add by lia. by rewrite !run_modify.
Qed.

Lemma run_line_guard line d :
  limits d = l → 0 <= l_start line <= cursor d →
  let n := if l_saw_cr line then 1 else 2 in
  cursor d + n <= max_frame_bytes l → cursor d + n - l_start line <= max_line_bytes l →
  line_guard line d = (d, Ok tt).
Proof.
  intros Hl ? n ??. pose proof Hu as (?&?&?&?&?). assert (1 <= n <= 2) by (subst n; destruct (l_saw_cr line); lia).
  unfold line_guard. rewrite run_get, run_add by (fold n; lia). fold n.
  rewrite run_frame_end by (rewrite Hl; lia). rewrite run_sub by lia. rewrite Hl.
  by destruct (Z.ltb_spec (max_line_bytes l) (cursor d + n - l_start line)); [lia|].
Qed.

Lemma step_line c k st ps b ns arr s p :
  src_get src c = Some b → b ≠ LF → 0 <= st <= c →
  c + 2 <= max_frame_bytes l → c + 2 - st <= max_line_bytes l →
  step (at_ c (SLine (Build_Line k st ps false)) ns arr s p)
       (at_ (c + 1) (SLine (Build_Line k st ps (bool_decide (b = CR)))) ns arr s p).
Proof.
  intros Hb Hlf ???. pose proof Hu as (?&?&?&?&?). unfold step. rewrite scan_step_eq. simpl.
  unfold scan_line. rewrite run_unit by (by apply run_line_guard). rewrite run_get. simpl. rewrite Hb.
  rewrite run_add by lia. rewrite run_modify. simpl.
  rewrite bool_decide_false by done. by rewrite run_modify.
Qed.

Lemma step_line_end c k st ps ns arr s p :
  src_get src c = Some LF → 0 <= st < c →
  c + 1 <= max_frame_bytes l → c + 1 - st <= max_line_bytes l →
  scan_step src (at_ c (SLine (Build_Line k st ps true)) ns arr s p) =
  (stopped ← finish_line src k (Build_Payload ps (c - 1)); mret (stop_if stopped))
    (at_ (c + 1) (SLine (Build_Line k st ps true)) ns arr s p).
Proof.
  intros Hb ???. pose proof Hu as (?&?&?&?&?). rewrite scan_step_eq. simpl.
  unfold scan_line. rewrite run_unit by (apply run_line_guard; simpl; (done || lia)).
  rewrite run_get. simpl. rewrite Hb. rewrite run_add by lia. rewrite run_modify. simpl.
  rewrite run_sub by lia. by replace (c + 1 - 2) with (c - 1) by lia.
Qed.

(** [w] stands in [src] at offset [c]. *)
Definition slice_at (c : Z) (w : bytes) : Prop :=
  0 <= c ∧ ∃ pre post, src = pre ++ w ++ post ∧ zlen pre = c.

Lemma slice_at_get c w i : slice_at c w → 0 <= i < zlen w → src_get src (c + i) = w !! Z.to_nat i.
Proof.
  intros (? & pre & post & Hsrc & Hc) Hi. unfold src_get. rewrite Hsrc. unfold zlen in *.
  rewrite lookup_app_r by lia. rewrite lookup_app_l by lia. f_equal. lia.
Qed.

Lemma slice_at_app c w v : slice_at c (w ++ v) → slice_at c w ∧ slice_at (c + zlen w) v.
Proof.
  intros (? & pre & post & Hsrc & Hc). split.
  - split; [done|]. exists pre, (v ++ post). by rewrite Hsrc, <- !app_assoc.
  - split; [zlen_lia|]. exists (pre ++ w), post. rewrite Hsrc, <- !app_assoc. split; [done|]. zlen_lia.
Qed.

Lemma slice_at_cons c b v : slice_at c (b :: v) → src_get src c = Some b ∧ slice_at (c + 1) v.
Proof.
  intros Hs. split.
  - replace c with (c + 0) by lia. rewrite (slice_at_get _ _ _ Hs) by zlen_lia. done.
  - by apply (slice_at_app c [b] v).
Qed.

Lemma slice_at_payload c w : slice_at c w → payload_slice src (Build_Payload c (c + zlen w)) = Ok w.
Proof.
  intros (? & pre & post & Hsrc & Hc). rewrite payload_slice_ok by (rewrite Hsrc; split; simpl; zlen_lia). simpl.
  f_equal. rewrite Hsrc. unfold zlen in *. replace (Z.to_nat c) with (length pre) by lia.
  rewrite drop_app_length. replace (Z.to_nat _) with (length w) by lia. by rewrite take_app_length.
Qed.

(** A whole line: from its prefix byte to the iteration that finishes it. *)
Lemma run_line c k v ns arr s p :
  slice_at c (k :: v ++ CRLF) → has_crlf v = false → kind_in k "+-:$*_#,(!=%~>|" = true →
  (kind_in k "*%~>|" = true → zlen arr < max_depth l) →
  zlen v + 3 <= max_line_bytes l → c + zlen v + 3 <= max_frame_bytes l →
  0 <= s → s + 1 <= max_nodes l → 1 <= p <= USIZE_MAX →
  ∃ d line, rtc step (at_ c SPrefix ns arr s p) d ∧
    scan_step src d =
    (stopped ← finish_line src k (Build_Payload (c + 1) (c + 1 + zlen v)); mret (stop_if stopped))
      (at_ (c + zlen v + 3) (SLine line) ns arr (s + 1) (p - 1)).
Proof.
  intros Hs Hv Hk Hagg Hline Hframe ???. pose proof (zlen_nonneg v) as Hv0. pose proof Hs as [Hc0 _].
  apply slice_at_cons in Hs as [Hget Hs].
  apply slice_at_app in Hs as [Hs Hend].
  apply slice_at_cons in Hend as [Hcr [Hlf _]%slice_at_cons].
  set (ln := λ b, SLine (Build_Line k c (c + 1) b)).
  assert (∀ w u, v = w ++ u → rtc step (at_ (c + 1 + zlen w) (ln false) ns arr (s + 1) (p - 1))
    (at_ (c + 1 + zlen v) (ln false) ns arr (s + 1) (p - 1))) as Hrun.
  { intros w u. revert w. induction u as [|b u IH]; intros w ->.
    { rewrite app_nil_r. apply rtc_refl. }
    eapply rtc_l; [|apply (IH (w ++ [b])); by rewrite <- app_assoc].
    unfold ln. replace (c + 1 + zlen (w ++ [b])) with (c + 1 + zlen w + 1) by zlen_lia.
    unfold has_crlf in Hv. rewrite existsb_app in Hv. simpl in Hv.
    rewrite !orb_false_iff, !bool_decide_eq_false in Hv.
    replace false with (bool_decide (b = CR)) at 2 by (apply bool_decide_false; tauto).
    apply step_line; [|tauto|zlen_lia..].
    rewrite (slice_at_get _ _ (zlen w) Hs) by zlen_lia.
    unfold zlen. rewrite Nat2Z.id, lookup_app_r, Nat.sub_diag by done. done. }
  specialize (Hrun [] v eq_refl). rewrite zlen_nil, Z.add_0_r in Hrun.
  eexists _, _. split.
  - eapply rtc_l; [apply step_prefix; (done || lia)|].
    eapply rtc_r; [exact Hrun|].
    apply (step_line _ _ _ _ CR); [exact Hcr|done|lia..].
  - rewrite bool_decide_true by done. rewrite step_line_end; [|exact Hlf|lia..].
    replace (c + 1 + zlen v + 1 - 1) with (c + 1 + zlen v) by lia.
    by replace (c + 1 + zlen v + 1 + 1) with (c + zlen v + 3) by lia.
Qed.

(** From a node boundary to the end of a node: the iterations that scan it and
    the last one, which finishes the node with [rn] recorded. *)
Definition runs (c : Z) ns arr s p c' (rn : list Node) s' p' : Prop :=
  ∃ d st, rtc step (at_ c SPrefix ns arr s p) d ∧
    scan_step src d =
    (stopped ← finish_node; mret (stop_if stopped)) (at_ c' st (rn ++ ns) arr s' p').

Lemma leaf_runs c k v n ns arr s p :
  slice_at c (k :: v ++ CRLF) → has_crlf v = false → kind_in k "+-:$*_#,(!=%~>|" = true →
  (kind_in k "*%~>|" = true → zlen arr < max_depth l) →
  zlen v + 3 <= max_line_bytes l → c + zlen v + 3 <= max_frame_bytes l →
  0 <= s → s + 1 <= max_nodes l → 1 <= p <= USIZE_MAX →
  (∀ d, finish_line src k (Build_Payload (c + 1) (c + 1 + zlen v)) d = finish_node (push_node n d)) →
  runs c ns arr s p (c + zlen v + 3) [n] (s + 1) (p - 1).
Proof.
  intros Hs Hv Hk Ha Hl Hf ??? Hfin.
  destruct (run_line c k v ns arr s p) as (d & line & Hd & Hend); [done..|].
  exists d, (SLine line). split; [done|]. rewrite Hend. unfold mbind, M_bind. by rewrite Hfin.
Qed.

(** A length line. *)
Lemma finish_line_length k p n d :
  kind_in k "$*!=%~>|" = true → payload_slice src p = Ok (udec (if kind_in k "%|" then n / 2 else n)) →
  0 <= n <= USIZE_MAX → (kind_in k "%|" = true → n mod 2 = 0) →
  finish_line src k p d =
  (if kind_in k "$!=" then finish_bulk_length k (Some n) else finish_aggregate_length k (Some n)) d.
Proof.
  intros Hk Hp Hn He. unfold finish_line.
  assert (finish_length src k p d =
    (if kind_in k "$!=" then finish_bulk_length k (Some n) else finish_aggregate_length k (Some n)) d) as Hfin.
  { unfold finish_length. rewrite (run_lift _ _ _ _ Hp). destruct (kind_in k "%|").
    - pose proof (Z.div_mod n 2 ltac:(lia)) as Hdm. rewrite (He eq_refl) in Hdm.
      rewrite (run_lift _ _ _ (Some (n / 2))) by (apply parse_length_udec; lia).
      rewrite andb_false_r. rewrite run_ret, run_assoc.
      rewrite (run_lift _ _ _ n); [done|]. unfold u_mul. rewrite usize_checked_ok by lia. simpl. f_equal. lia.
    - rewrite (run_lift _ _ _ (Some n)) by (by apply parse_length_udec).
      rewrite andb_false_r. by rewrite !run_ret. }
  rewrite <- Hfin. revert Hk. by destruct k.
Qed.

Lemma step_bulk_cr start v k ns arr s p :
  slice_at start (v ++ CRLF) → start + zlen v + 2 <= max_frame_bytes l →
  step (at_ start (SBulk (Build_Payload start (start + zlen v)) false k) ns arr s p)
       (at_ (start + zlen v + 1) (SBulk (Build_Payload start (start + zlen v)) true k) ns arr s p).
Proof.
  intros Hv Hf. pose proof Hu as (?&?&?&?&?). pose proof Hv as (? & pre & post & Hsrc & Hpre).
  apply slice_at_app in Hv as [_ [Hcr _]%slice_at_cons]. pose proof (zlen_nonneg v).
  set (pl := Build_Payload _ _). unfold step. rewrite scan_step_eq. simpl. unfold scan_bulk.
  transitivity (bulk_terminator src pl false k (at_ (start + zlen v) (SBulk pl false k) ns arr s p)).
  - unfold bulk_skip, mbind, M_bind, get, modify. simpl.
    destruct (Z.ltb_spec start (start + zlen v)); simpl.
    + replace (Z.min (zlen src) (start + zlen v)) with (start + zlen v) by (rewrite Hsrc; zlen_lia).
      by rewrite Z.ltb_irrefl.
    + by replace (start + zlen v) with start by lia.
  - unfold bulk_terminator. rewrite run_get. simpl. rewrite Hcr, run_add, run_modify by lia. done.
Qed.

Lemma step_bulk_lf start v k ns arr s p :
  slice_at start (v ++ CRLF) → start + zlen v + 2 <= max_frame_bytes l →
  scan_step src (at_ (start + zlen v + 1) (SBulk (Build_Payload start (start + zlen v)) true k) ns arr s p) =
  (stopped ← finish_bulk src (Build_Payload start (start + zlen v)) k; mret (stop_if stopped))
  (at_ (start + zlen v + 2) (SBulk (Build_Payload start (start + zlen v)) true k) ns arr s p).
Proof.
  intros Hv Hf. pose proof Hu as (?&?&?&?&?). pose proof Hv as (? & _). pose proof (zlen_nonneg v).
  apply slice_at_app in Hv as [_ [_ [Hlf _]%slice_at_cons]%slice_at_cons].
  rewrite scan_step_eq. simpl. unfold scan_bulk, bulk_skip.
  rewrite run_assoc, run_get. simpl. destruct (Z.ltb_spec (start + zlen v + 1) (start + zlen v)); [lia|].
  rewrite run_ret. unfold bulk_terminator. rewrite run_get. simpl. rewrite Hlf, run_add, run_modify by lia.
  simpl. by replace (start + zlen v + 1 + 1) with (start + zlen v + 2) by lia.
Qed.

Lemma bulk_runs c k v ns arr s p n :
  slice_at c (k :: udec (zlen v) ++ CRLF ++ v ++ CRLF) → kind_in k "$!=" = true →
  zlen v <= max_bulk_bytes l → zlen (udec (zlen v)) + 3 <= max_line_bytes l →
  c + zlen (udec (zlen v)) + zlen v + 5 <= max_frame_bytes l →
  0 <= s → s + 1 <= max_nodes l → 1 <= p <= USIZE_MAX →
  (∀ start, slice_at start v → ∀ d, finish_bulk src (Build_Payload start (start + zlen v)) k d
     = finish_node (push_node (n (Build_Payload start (start + zlen v))) d)) →
  ∃ start, slice_at start v ∧
  runs c ns arr s p (c + zlen (udec (zlen v)) + zlen v + 5)
    [n (Build_Payload start (start + zlen v))] (s + 1) (p - 1).
Proof.
  intros Hs Hk Hbulk Hline Hframe ??? Hfin. pose proof Hu as (?&?&?&?&?).
  pose proof (zlen_nonneg v). pose proof (zlen_nonneg (udec (zlen v))). pose proof Hs as [Hc0 _].
  set (start := c + zlen (udec (zlen v)) + 3).
  assert (slice_at c (k :: udec (zlen v) ++ CRLF) ∧ slice_at start (v ++ CRLF)) as [Hl Hv].
  { rewrite app_assoc, app_comm_cons in Hs. apply slice_at_app in Hs as [? Hs]. split; [done|].
    by replace start with (c + zlen (k :: udec (zlen v) ++ CRLF)) by (unfold start; zlen_lia). }
  destruct (run_line c k (udec (zlen v)) ns arr s p) as (d & line & Hd & Hend);
    [done|apply udec_no_crlf; lia|revert Hk; by destruct k|revert Hk; by destruct k|done|lia..|].
  apply slice_at_cons in Hl as [_ Hl]. apply slice_at_app in Hl as [Hl _].
  unfold mbind, M_bind in Hend.
  rewrite (finish_line_length k _ (zlen v)) in Hend;
    [|revert Hk; by destruct k| |lia|revert Hk; by destruct k].
  2:{ rewrite (slice_at_payload _ _ Hl). revert Hk. by destruct k. }
  rewrite Hk in Hend. unfold finish_bulk_length in Hend. rewrite run_get in Hend. simpl in Hend.
  destruct (Z.ltb_spec (max_bulk_bytes l) (zlen v)); [lia|].
  rewrite run_add, run_add, run_frame_end, run_modify in Hend by (simpl; lia). simpl in Hend.
  fold start in Hend. exists start. pose proof Hv as [Hv0 _]%slice_at_app. split; [done|].
  replace (c + zlen (udec (zlen v)) + zlen v + 5) with (start + zlen v + 2) by (unfold start; lia).
  eexists _, _. split.
  - eapply rtc_trans; [exact Hd|]. eapply rtc_l; [exact Hend|].
    apply rtc_once. by apply step_bulk_cr; [|lia].
  - rewrite step_bulk_lf by (done || lia). unfold mbind, M_bind.
    by rewrite Hfin by done.
Qed.


Lemma finish_aggregate_ok k n d :
  limits d = l → 0 <= n → 0 <= nodes_started d → 0 <= pending_nodes d → 0 <= cursor d →
  nodes_started d + (pending_nodes d + n) <= max_nodes l →
  cursor d + (pending_nodes d + n) * 3 <= max_frame_bytes l →
  let d' := push_node (NArray (Some n) k) (set_pending_nodes (pending_nodes d + n) d) in
  finish_aggregate_length k (Some n) d =
  if 0 <? n then (set_state SPrefix (set_arrays (n :: arrays d) d'), Ok false) else finish_node d'.
Proof.
  intros Hl ??????. pose proof Hu as (?&?&?&?&?). unfold finish_aggregate_length.
  rewrite run_assoc, run_get, run_assoc.
  rewrite (run_lift _ _ _ (pending_nodes d + n)) by (unfold u_add; rewrite usize_checked_ok by lia; done).
  rewrite run_assoc, run_modify, run_assoc.
  rewrite (run_lift _ _ _ (nodes_started d + (pending_nodes d + n)))
    by (unfold u_add; rewrite usize_checked_ok by lia; done).
  rewrite Hl. destruct (Z.ltb_spec (max_nodes l) (nodes_started d + (pending_nodes d + n))); [lia|].
  rewrite run_assoc, run_ret, run_assoc.
  rewrite (run_lift _ _ _ ((pending_nodes d + n) * 3))
    by (unfold u_mul; rewrite usize_checked_ok by lia; done).
  rewrite run_assoc, run_add, run_frame_end, run_modify by (simpl; rewrite ?Hl; lia).
  simpl. by destruct (0 <? n).
Qed.

Lemma aggregate_header c k n ns arr s p :
  let len := if kind_in k "%|" then n / 2 else n in
  slice_at c (k :: udec len ++ CRLF) → kind_in k "*%~>|" = true → (kind_in k "%|" = true → n mod 2 = 0) →
  zlen arr < max_depth l → zlen (udec len) + 3 <= max_line_bytes l →
  0 <= n → 0 <= s → 1 <= p → s + p + n <= max_nodes l →
  c + zlen (udec len) + 3 + (p - 1 + n) * 3 <= max_frame_bytes l →
  let c' := c + zlen (udec len) + 3 in
  if 0 <? n then
    rtc step (at_ c SPrefix ns arr s p)
             (at_ c' SPrefix (NArray (Some n) k :: ns) (n :: arr) (s + 1) (p - 1 + n))
  else runs c ns arr s p c' [NArray (Some n) k] (s + 1) (p - 1).
Proof.
  intros len Hs Hk He Hd Hl ????? c'. pose proof Hu as (?&?&?&?&?).
  assert (0 <= len) by (subst len; destruct (kind_in k "%|"); [apply Z.div_pos|]; lia).
  pose proof (zlen_nonneg (udec len)). pose proof Hs as [Hc0 _].
  destruct (run_line c k (udec len) ns arr s p) as (d & line & Hd' & Hend);
    [done|by apply udec_no_crlf|revert Hk; by destruct k|done|done|lia..|].
  apply slice_at_cons in Hs as [_ Hs]. apply slice_at_app in Hs as [Hs _].
  unfold mbind, M_bind in Hend.
  rewrite (finish_line_length k _ n) in Hend;
    [|revert Hk; by destruct k|by rewrite (slice_at_payload _ _ Hs)|lia|done].
  replace (kind_in k "$!=") with false in Hend by (revert Hk; by destruct k).
  rewrite finish_aggregate_ok in Hend by (simpl; (done || lia)). simpl in Hend.
  destruct (Z.ltb_spec 0 n).
  - eapply rtc_trans; [exact Hd'|]. apply rtc_once. exact Hend.
  - assert (n = 0) as -> by lia. exists d. eexists. split; [exact Hd'|]. rewrite Hend.
    unfold mbind, M_bind. rewrite Z.add_0_r. done.
Qed.

(** ** Trees and forests *)

Lemma finish_node_more c st ns r outer s p :
  2 <= r <= USIZE_MAX →
  finish_node (at_ c st ns (r :: outer) s p) = (at_ c SPrefix ns (r - 1 :: outer) s p, Ok false).
Proof.
  intros. unfold finish_node. rewrite run_modify, run_get. simpl.
  unfold checked_sub, u_sub. rewrite usize_checked_ok by lia. simpl.
  by destruct (Z.ltb_spec 0 (r - 1)); [|lia].
Qed.

Lemma finish_node_last c st ns outer s p :
  finish_node (at_ c st ns (1 :: outer) s p) = finish_node (at_ c st ns outer s p).
Proof. unfold finish_node. rewrite !run_modify, !run_get. simpl. by destruct (finish_arrays outer). Qed.

(** Every node takes at least three bytes. *)
Lemma wire_ge f : 3 <= zlen (wire f).
Proof. pose proof (head_len_pos f) as H. unfold head_len in H. zlen_lia. Qed.
Lemma flat_wire_ge fs : 3 * zlen fs <= zlen (flat_map wire fs).
Proof.
  induction fs as [|f fs IH]; simpl; [done|]. pose proof (wire_ge f). autorewrite with zlen. lia.
Qed.

(** The nodes [rn] materialize to the frames [fs], pushed in order. *)
Definition builds (rn : list Node) (fs : list Frame) : Prop :=
  ∀ N stack, materialize_nodes src (rn ++ N) stack = materialize_nodes src N (fs ++ stack).

(** Executing one frame from a node boundary. *)
Definition tree_runs (f : Frame) : Prop :=
  ∀ c ns arr s p,
    slice_at c (wire f) → tree_ok l (zlen arr) f → 0 <= s → 1 <= p →
    s + Z.of_nat (frame_nodes f) + (p - 1) <= max_nodes l →
    c + zlen (wire f) + 3 * (p - 1) <= max_frame_bytes l →
    ∃ rn, builds rn [f] ∧
      runs c ns arr s p (c + zlen (wire f)) rn (s + Z.of_nat (frame_nodes f)) (p - 1).

Lemma forest_runs fs : Forall tree_runs fs → fs ≠ [] →
  ∀ c ns arr s p,
    slice_at c (flat_map wire fs) → Forall (tree_ok l (zlen arr + 1)) fs →
    0 <= s → zlen fs <= p →
    s + Z.of_nat (sum_list_with frame_nodes fs) + (p - zlen fs) <= max_nodes l →
    c + zlen (flat_map wire fs) + 3 * (p - zlen fs) <= max_frame_bytes l →
    ∃ rn d st, builds rn fs ∧ rtc step (at_ c SPrefix ns (zlen fs :: arr) s p) d ∧
      scan_step src d = (stopped ← finish_node; mret (stop_if stopped))
        (at_ (c + zlen (flat_map wire fs)) st (rn ++ ns) arr
          (s + Z.of_nat (sum_list_with frame_nodes fs)) (p - zlen fs)).
Proof.
  pose proof Hu as (?&?&?&?&?).
  induction 1 as [|f fs Hf Hfs IH]; [done|]. intros _ c ns arr s p Hs Hok Hs0 Hp Hn Hb. simpl in *.
  apply slice_at_app in Hs as [Hs1 Hs2]. apply Forall_cons in Hok as [Hok1 Hok2].
  assert (zlen fs <= Z.of_nat (sum_list_with frame_nodes fs))
    by (pose proof (zlen_nodes fs); unfold zlen; lia).
  pose proof (flat_wire_ge fs). pose proof (wire_ge f). pose proof (frame_nodes_eq f).
  autorewrite with zlen in *. pose proof (zlen_nonneg fs).
  destruct (Hf c ns (zlen fs + 1 :: arr) s p) as (rn & Hbuild & d & st & Hd & Hend);
    [done|by rewrite zlen_cons|lia..|].
  destruct fs as [|f' fs].
  - exists rn, d, st. simpl in *. rewrite zlen_nil in *. simpl in *. split_and!; [done..|].
    rewrite Hend. unfold mbind, M_bind. rewrite finish_node_last.
    by rewrite Z.add_0_r, Nat.add_0_r.
  - assert (f' :: fs ≠ []) as Hne by done. set (fs' := f' :: fs) in *.
    assert (1 <= zlen fs') by (unfold fs'; zlen_lia). clearbody fs'.
    unfold mbind, M_bind in Hend. rewrite finish_node_more in Hend by lia.
    replace (zlen fs' + 1 - 1) with (zlen fs') in Hend by lia.
    destruct (IH Hne (c + zlen (wire f)) (rn ++ ns) arr (s + Z.of_nat (frame_nodes f)) (p - 1))
      as (rn' & d' & st' & Hbuild' & Hd' & Hend'); [done..|lia|lia|lia|lia|].
    exists (rn' ++ rn), d', st'. split_and!.
    + intros N stack. rewrite <- app_assoc, Hbuild', Hbuild. done.
    + eapply rtc_trans; [exact Hd|]. eapply rtc_l; [exact Hend|exact Hd'].
    + rewrite Hend'. f_equal. rewrite <- app_assoc. f_equal; lia.
Qed.


Lemma aggregate_runs k vs c ns arr s p :
  let len := if kind_in k "%|" then zlen vs / 2 else zlen vs in
  let w := k :: udec len ++ CRLF ++ flat_map wire vs in
  Forall tree_runs vs → slice_at c w → kind_in k "*%~>|" = true →
  (kind_in k "%|" = true → zlen vs mod 2 = 0) →
  zlen arr + 1 <= max_depth l → zlen (udec len) + 3 <= max_line_bytes l →
  Forall (tree_ok l (zlen arr + 1)) vs → 0 <= s → 1 <= p →
  s + Z.of_nat (S (sum_list_with frame_nodes vs)) + (p - 1) <= max_nodes l →
  c + zlen w + 3 * (p - 1) <= max_frame_bytes l →
  ∃ rn, builds rn [aggregate_frame k vs] ∧
    runs c ns arr s p (c + zlen w) rn (s + Z.of_nat (S (sum_list_with frame_nodes vs))) (p - 1).
Proof.
  intros len w Hvs Hs Hk He Hd Hl Hok Hs0 Hp Hn Hb.
  assert (zlen w = zlen (udec len) + 3 + zlen (flat_map wire vs)) as Hw by (unfold w; zlen_lia).
  assert (slice_at c (k :: udec len ++ CRLF) ∧ slice_at (c + zlen (udec len) + 3) (flat_map wire vs))
    as [Hs1 Hs2].
  { unfold w in Hs. rewrite app_assoc, app_comm_cons in Hs. apply slice_at_app in Hs as [? Hs].
    split; [done|].
    by replace (c + zlen (udec len) + 3) with (c + zlen (k :: udec len ++ CRLF)) by zlen_lia. }
  assert (zlen vs <= Z.of_nat (sum_list_with frame_nodes vs))
    by (pose proof (zlen_nodes vs); unfold zlen; lia).
  pose proof (flat_wire_ge vs). pose proof (zlen_nonneg vs).
  assert (materialize_node src vs (NArray (Some (zlen vs)) k) = Ok [aggregate_frame k vs]) as Hm.
  { simpl. unfold zlen. rewrite Nat2Z.id, pop_children_ok by done. simpl.
    by rewrite firstn_all, drop_all. }
  pose proof (aggregate_header c k (zlen vs) ns arr s p Hs1 Hk He ltac:(lia) Hl ltac:(lia) Hs0 Hp
    ltac:(lia) ltac:(fold len; lia)) as Hh. fold len in Hh.
  assert (∀ N stack, materialize_nodes src (NArray (Some (zlen vs)) k :: N) (vs ++ stack)
    = materialize_nodes src N (aggregate_frame k vs :: stack)) as Hmat.
  { intros N stack. simpl. unfold zlen. rewrite Nat2Z.id, pop_children_ok by (rewrite length_app; lia).
    simpl. by rewrite take_app_length, drop_app_length. }
  destruct (Z.ltb_spec 0 (zlen vs)) as [Hpos|Hzero].
  - destruct (forest_runs vs Hvs ltac:(by intros ->) (c + zlen (udec len) + 3)
      (NArray (Some (zlen vs)) k :: ns) arr (s + 1) (p - 1 + zlen vs))
      as (rn & d & st & Hbuild & Hd' & Hend); [done..|lia|lia|lia|lia|].
    exists (rn ++ [NArray (Some (zlen vs)) k]). split.
    { intros N stack. rewrite <- app_assoc, Hbuild. apply Hmat. }
    exists d, st. split; [by eapply rtc_trans|]. rewrite Hend. f_equal.
    rewrite <- app_assoc. unfold at_. simpl. f_equal; lia.
  - assert (vs = []) as -> by (destruct vs; [done|revert Hzero; zlen_lia]).
    exists [NArray (Some 0) k]. split; [intros N stack; apply (Hmat N stack)|].
    simpl in *. rewrite zlen_nil in *. rewrite Hw. replace (c + _) with (c + zlen (udec len) + 3) by lia.
    exact Hh.
Qed.

(** Integers in the range of [i64], as every [Frame] of the program has. *)
Fixpoint frame_i64 (f : Frame) : bool :=
  match f with
  | Integer v => (I64_MIN <=? v) && (v <=? I64_MAX)
  | Array (Some vs) | Map vs | Set_ vs | Push vs | Attribute vs => forallb frame_i64 vs
  | _ => true
  end.

Lemma frame_i64_children f c : frame_i64 f = true → c ∈ frame_children f → frame_i64 c = true.
Proof.
  destruct f as [| | | |[]| | | | | | | | | |]; simpl; try (by intros _ ?%not_elem_of_nil);
    rewrite forallb_forall; intros Hf Hc; apply Hf; by apply list_elem_of_In.
Qed.

(** A leaf with a payload copied from its line. *)
Lemma builds_payload c v n f :
  slice_at c v → (∀ frames w, copy_payload src (Build_Payload c (c + zlen v)) = Ok w →
    materialize_node src frames (n (Build_Payload c (c + zlen v))) = Ok (f w :: frames)) →
  builds [n (Build_Payload c (c + zlen v))] [f v].
Proof.
  intros Hs Hn N stack. simpl. rewrite (Hn stack v); [done|]. by apply slice_at_payload.
Qed.

(** A one-line node. *)
Lemma line_tree k v n f c ns arr s p :
  slice_at c (k :: v ++ CRLF) → has_crlf v = false → kind_in k "+-:$*_#,(!=%~>|" = true →
  (kind_in k "*%~>|" = true → zlen arr < max_depth l) → zlen v + 3 <= max_line_bytes l →
  0 <= s → 1 <= p → s + Z.of_nat 1 + (p - 1) <= max_nodes l →
  c + zlen (k :: v ++ CRLF) + 3 * (p - 1) <= max_frame_bytes l →
  (∀ d, payload_slice src (Build_Payload (c + 1) (c + 1 + zlen v)) = Ok v →
     finish_line src k (Build_Payload (c + 1) (c + 1 + zlen v)) d = finish_node (push_node n d)) →
  (slice_at (c + 1) v → builds [n] [f]) →
  ∃ rn, builds rn [f] ∧
    runs c ns arr s p (c + zlen (k :: v ++ CRLF)) rn (s + Z.of_nat 1) (p - 1).
Proof.
  intros Hs Hv Hk Ha Hl Hs0 Hp Hn Hb Hfin Hbuild. pose proof Hu as (?&?&?&?&?).
  pose proof Hs as [_ [Hsv _]%slice_at_app]%slice_at_cons.
  replace (zlen (k :: v ++ CRLF)) with (zlen v + 3) in * by zlen_lia.
  exists [n]. split; [auto|]. rewrite Z.add_assoc. pose proof (zlen_nonneg v).
  apply (leaf_runs c k v); try (done || lia). intros d. apply Hfin. by apply slice_at_payload.
Qed.

(** A node with a length-prefixed payload. *)
Lemma bulk_tree k v n f c ns arr s p :
  let w := k :: udec (zlen v) ++ CRLF ++ v ++ CRLF in
  slice_at c w → kind_in k "$!=" = true → zlen v <= max_bulk_bytes l →
  zlen (udec (zlen v)) + 3 <= max_line_bytes l →
  0 <= s → 1 <= p → s + Z.of_nat 1 + (p - 1) <= max_nodes l →
  c + zlen w + 3 * (p - 1) <= max_frame_bytes l →
  (∀ start, slice_at start v → ∀ d, finish_bulk src (Build_Payload start (start + zlen v)) k d
     = finish_node (push_node (n (Build_Payload start (start + zlen v))) d)) →
  (∀ start, slice_at start v → builds [n (Build_Payload start (start + zlen v))] [f]) →
  ∃ rn, builds rn [f] ∧ runs c ns arr s p (c + zlen w) rn (s + Z.of_nat 1) (p - 1).
Proof.
  intros w Hs Hk Hbk Hl Hs0 Hp Hn Hb Hfin Hbuild. pose proof Hu as (?&?&?&?&?).
  assert (zlen w = zlen (udec (zlen v)) + zlen v + 5) as Hw by (unfold w; zlen_lia). rewrite Hw in *.
  pose proof (zlen_nonneg v). pose proof (zlen_nonneg (udec (zlen v))).
  destruct (bulk_runs c k v ns arr s p n) as (start & Hst & Hr); try (done || lia).
  exists [n (Build_Payload start (start + zlen v))]. split; [auto|].
  by replace (c + (zlen (udec (zlen v)) + zlen v + 5)) with (c + zlen (udec (zlen v)) + zlen v + 5) by lia.
Qed.

Lemma finish_verbatim start v d :
  slice_at start v → zlen v <= max_bulk_bytes l → 4 <= zlen v → v !! 3%nat = Some ":"%byte →
  finish_bulk src (Build_Payload start (start + zlen v)) "="%byte d
  = finish_node (push_node (NScalar "="%byte (Build_Payload start (start + zlen v))) d).
Proof.
  intros Hs ?? Hc. pose proof Hu as (?&?&?&?&?). unfold finish_bulk. simpl.
  unfold u_sub. rewrite usize_checked_ok by lia.
  destruct (Z.ltb_spec (start + zlen v - start) 4); [lia|].
  rewrite (slice_at_get _ _ 3 Hs) by lia. change (Z.to_nat 3) with 3%nat. by rewrite Hc.
Qed.

Lemma tree_runs_all f : frame_i64 f = true → tree_runs f.
Proof.
  induction f as [f IH] using frame_induction. intros Hi c ns arr s p Hs Hok Hs0 Hp Hn Hb.
  apply tree_ok_inv in Hok as [Hnode Hok].
  assert (Forall tree_runs (frame_children f)) as Hch.
  { apply Forall_forall. intros g Hg. apply IH; [done|]. by eapply frame_i64_children. }
  clear IH. destruct f as [v|v|v|[v|]|[vs|]| |b|v|v|v|v|vs|vs|vs|vs]; cbn [frame_children node_ok] in *.
  - destruct Hnode. apply (line_tree "+"%byte v (NSimple (Build_Payload (c + 1) (c + 1 + zlen v)))); try done.
    intros. apply (builds_payload _ _ NSimple Simple); [done|]. intros ?? Hw. simpl. by rewrite Hw.
  - destruct Hnode. apply (line_tree "-"%byte v (NError (Build_Payload (c + 1) (c + 1 + zlen v)))); try done.
    intros. apply (builds_payload _ _ NError Error); [done|]. intros ?? Hw. simpl. by rewrite Hw.
  - apply (line_tree ":"%byte (sdec v) (NInteger v)); try done; [apply sdec_no_crlf|].
    intros d Hv. unfold finish_line. simpl. rewrite (run_lift _ _ _ _ Hv).
    rewrite (run_lift _ _ _ v); [done|]. apply parse_integer_sdec. simpl in Hi. lia.
  - destruct Hnode. apply (bulk_tree "$"%byte v (λ q, NBulk (Some q))); try done.
    intros. apply (builds_payload _ _ (λ q, NBulk (Some q)) (λ w, Bulk (Some w))); [done|].
    intros ?? Hw. simpl. by rewrite Hw.
  - apply (line_tree "$"%byte (lit "-1") (NBulk None)); try done.
    intros d Hv. unfold finish_line, finish_length. simpl. rewrite (run_lift _ _ _ _ Hv). done.
  - destruct Hnode as [Hd Hl].
    change (Array (Some vs)) with (aggregate_frame "*"%byte vs).
    apply (aggregate_runs "*"%byte vs); done.
  - destruct Hnode. apply (line_tree "*"%byte (lit "-1") (NArray None "*"%byte)); try (done || lia).
    intros d Hv. unfold finish_line, finish_length. simpl. rewrite (run_lift _ _ _ _ Hv). done.
  - apply (line_tree "_"%byte [] NNull); try done.
    intros d _. unfold finish_line. simpl. rewrite Z.add_0_r, Z.eqb_refl. done.
  - destruct b.
    + apply (line_tree "#"%byte (lit "t") (NBoolean true)); try done.
      intros d Hv. unfold finish_line. simpl. by rewrite (run_lift _ _ _ _ Hv).
    + apply (line_tree "#"%byte (lit "f") (NBoolean false)); try done.
      intros d Hv. unfold finish_line. simpl. by rewrite (run_lift _ _ _ _ Hv).
  - destruct Hnode as [? Hsc]. pose proof (scalar_no_crlf _ _ Hsc).
    apply (line_tree ","%byte v (NScalar ","%byte (Build_Payload (c + 1) (c + 1 + zlen v)))); try done.
    + intros d Hv. unfold finish_line. simpl. by rewrite (run_lift _ _ _ _ Hv), (run_lift _ _ _ _ Hsc).
    + intros. apply (builds_payload _ _ (NScalar ","%byte) Double); [done|]. intros ?? Hw. simpl. by rewrite Hw.
  - destruct Hnode as [? Hsc]. pose proof (scalar_no_crlf _ _ Hsc).
    apply (line_tree "("%byte v (NScalar "("%byte (Build_Payload (c + 1) (c + 1 + zlen v)))); try done.
    + intros d Hv. unfold finish_line. simpl. by rewrite (run_lift _ _ _ _ Hv), (run_lift _ _ _ _ Hsc).
    + intros. apply (builds_payload _ _ (NScalar "("%byte) BigNumber); [done|]. intros ?? Hw. simpl. by rewrite Hw.
  - destruct Hnode. apply (bulk_tree "!"%byte v (NScalar "!"%byte)); try done.
    intros. apply (builds_payload _ _ (NScalar "!"%byte) BlobError); [done|]. intros ?? Hw. simpl. by rewrite Hw.
  - destruct Hnode as ([? ?] & ? & Hcolon). apply (bulk_tree "="%byte v (NScalar "="%byte)); try done.
    + intros start Hst d. by apply finish_verbatim.
    + intros. apply (builds_payload _ _ (NScalar "="%byte) Verbatim); [done|]. intros ?? Hw. simpl. by rewrite Hw.
  - destruct Hnode as (? & ? & ?). apply (aggregate_runs "%"%byte vs); done.
  - destruct Hnode as (? & ?). apply (aggregate_runs "~"%byte vs); done.
  - destruct Hnode as (? & ?). apply (aggregate_runs ">"%byte vs); done.
  - destruct Hnode as (? & ? & ?). apply (aggregate_runs "|"%byte vs); done.
Qed.

Lemma scan_complete d d' :
  rtc step d d' → ∀ d'', scan_step src d' = (d'', Ok (Some true)) →
  ∃ fuel, scan fuel src d = (d'', Ok true).
Proof.
  intros Hd. induction Hd as [d|d1 d2 d3 H12 _ IH]; intros d'' Hs.
  - exists 1%nat. simpl. unfold mbind, M_bind. by rewrite Hs.
  - destruct (IH d'' Hs) as [fuel Hf]. exists (S fuel). simpl. unfold mbind, M_bind. by rewrite H12.
Qed.
End run.

(** Decoding what the encoder writes. *)
Lemma decode_wire l f rest :
  RespLimits_validate l = Ok tt → limits_usize l → frame_i64 f = true → encodable l f →
  decode (fresh l) (wire f ++ rest) = (fresh l, rest, Ok (Some f)).
Proof.
  intros Hv Hu Hi (Hok & Hnodes & Hbytes). set (src := wire f ++ rest).
  pose proof (fresh_inv l Hv Hu) as Hinv. assert (previous_len (fresh l) <= zlen src) by (simpl; zlen_lia).
  rewrite (decode_eq l) by done. apply (dinv_len _ _ (zlen src)) in Hinv; [|done].
  destruct (tree_runs_all l Hu src (zlen src) f Hi 0 [] [] 0 1) as (rn & Hbuild & d & st & Hd & Hend);
    [|done|lia..|].
  { split; [done|]. by exists [], rest. }
  unfold mbind, M_bind in Hend. rewrite app_nil_r in Hend.
  change (finish_node (at_ l (zlen src) (0 + zlen (wire f)) st rn [] (0 + Z.of_nat (frame_nodes f)) (1 - 1)))
    with (at_ l (zlen src) (0 + zlen (wire f)) SPrefix rn [] (0 + Z.of_nat (frame_nodes f)) (1 - 1),
          @Ok Halt bool true) in Hend. simpl in Hend.
  destruct (scan_complete src _ _ Hd _ Hend) as [fuel Hscan].
  change (at_ l (zlen src) 0 SPrefix [] [] 0 1) with (set_previous_len (zlen src) (fresh l)) in Hscan.
  pose proof (scan_wp l src (scan_fuel src (fresh l)) _ Hinv ltac:(unfold scan_fuel; simpl; lia)) as Hwp.
  unfold wp in Hwp. destruct (scan (scan_fuel src (fresh l)) src _) as [d2 r2] eqn:Hs2.
  apply (scan_more _ (scan_fuel src (fresh l))) in Hscan; [|done].
  apply (scan_more _ fuel) in Hs2; [|by destruct r2 as [|[]]].
  rewrite Nat.add_comm in Hs2. rewrite Hscan in Hs2. injection Hs2 as <- <-.
  unfold materialize. cbn [at_ nodes limits cursor]. rewrite <- (app_nil_r rn), Hbuild.
  replace (Z.to_nat (0 + zlen (wire f))) with (length (wire f)) by (unfold zlen; lia).
  unfold src. rewrite drop_app_length. done.
Qed.

(** ** Properties *)

(** C19. What the encoder writes, the decoder with the same limits reads back:
    for every frame with [i64] integers that [encode] accepts, the appended
    bytes followed by anything decode to that frame, leave exactly the rest in
    the buffer and the decoder as new. *)
Theorem encode_decode l f dst out :
  RespLimits_validate l = Ok tt → limits_usize l → zlen dst + max_frame_bytes l <= USIZE_MAX →
  frame_i64 f = true → encode f dst l = (out, Ok tt) →
  ∃ w, out = dst ++ w ∧ zlen w <= max_frame_bytes l ∧
       ∀ rest, decode (fresh l) (w ++ rest) = (fresh l, rest, Ok (Some f)).
Proof.
  intros Hv Hu Hd Hi He. exists (wire f).
  assert (encodable l f) as Henc.
  { unfold encode in He. rewrite Hv in He. simpl in He.
    destruct (encoded_size f l) as [n|] eqn:En; [|done]. by apply encoded_size_ok in En as [? _]. }
  rewrite (encode_encodable f dst l) in He by done. injection He as <-.
  split_and!; [done|by destruct Henc as (_ & _ & ?)|]. intros rest. by apply decode_wire.
Qed.

Lemma encode_decode_witness :
  ∃ w, (encode (Map [Simple (lit "k"); Array (Some [Integer (-9223372036854775808); Bulk None])])
          (lit "x") RespLimits_default).1 = lit "x" ++ w ∧
       ∀ rest, decode (fresh RespLimits_default) (w ++ rest) =
         (fresh RespLimits_default, rest,
          Ok (Some (Map [Simple (lit "k"); Array (Some [Integer (-9223372036854775808); Bulk None])]))).
Proof.
  pose (f := Map [Simple (lit "k"); Array (Some [Integer (-9223372036854775808); Bulk None])]).
  destruct (encode_decode RespLimits_default f (lit "x") (encode f (lit "x") RespLimits_default).1
    eq_refl ltac:(vm_compute; intuition discriminate) ltac:(vm_compute; discriminate)
    ltac:(vm_compute; reflexivity) ltac:(vm_compute; reflexivity)) as (w & Hw & _ & Hd).
  exists w. split; [exact Hw|exact Hd].
Defined.

Lemma drain_wires l fs n :
  RespLimits_validate l = Ok tt → limits_usize l →
  Forall (λ f, frame_i64 f = true ∧ encodable l f) fs → (length fs < n)%nat →
  drain n (fresh l) (flat_map wire fs) = (fs, (fresh l, []), None).
Proof.
  intros Hv Hu Hfs. revert n. induction Hfs as [|f fs [Hi He] Hfs IH]; intros [|n] Hn; simpl in *; try lia.
  - done.
  - rewrite decode_wire by done. by rewrite IH by lia.
Qed.

(** C20. A pipeline of accepted frames survives transport: however the bytes of
    their encodings are split into reads, decoding after each read yields
    exactly the frames, in order, with nothing left over. *)
Theorem pipeline_roundtrip l fs chunks :
  RespLimits_validate l = Ok tt → limits_usize l →
  Forall (λ f, frame_i64 f = true ∧ encodable l f) fs →
  concat chunks = flat_map wire fs →
  feed (fresh l) [] chunks = (fs, (fresh l, []), None).
Proof.
  intros Hv Hu Hfs Hc. assert (live l (fresh l) []) as Hl by (split; [by apply fresh_inv|done]).
  pose proof (feed_drain l Hv Hu chunks (fresh l) [] Hl ltac:(done)) as Hf. simpl in Hf.
  rewrite Hc in Hf. unfold drain_all in Hf. rewrite drain_wires in Hf; [|done..|].
  - destruct (feed _ _ _) as [[fs' st] e]. destruct Hf as (-> & -> & ->); done.
  - pose proof (flat_wire_ge fs). unfold zlen in *. lia.
Qed.

Lemma pipeline_roundtrip_witness :
  feed (fresh RespLimits_default) [] [lit "+O"; lit "K" ++ [CR]; [LF] ++ lit "_" ++ CRLF]
  = ([Simple (lit "OK"); Null], (fresh RespLimits_default, []), None).
Proof.
  apply (pipeline_roundtrip RespLimits_default [Simple (lit "OK"); Null]);
    [reflexivity|vm_compute; intuition discriminate| |reflexivity].
  repeat apply Forall_cons_2; [..|apply Forall_nil_2]; (split; [reflexivity|]);
    (split; [|vm_compute; intuition discriminate]); apply tree_ok_inv;
    (split; [vm_compute; intuition discriminate|apply Forall_nil_2]).
Defined.
