(* ===== verification/Wire.v ===== *)
(** * Words, checksums and cursors

    The layer shared by the codecs of src/persistence: little-endian words, the
    CRC-32 of src/persistence/format.rs and the bounded cursor over the bytes of
    a record.  The table of the checksum is proved equal to the bitwise
    definition, and the checksum to detect every change of one byte. *)

From Stdlib Require Import Strings.Byte Strings.String ZArith Lia.
From S2P Require Import Prelude.

#[local] Open Scope Z_scope.

(** ** Errors *)

Inductive FormatError :=
| FIo
| FHeader
| FVersion (version : Z)
| FLimit
| FCorrupt (what : string).

(** ** Words *)

(** [to_le_bytes] and [from_le_bytes] of an [n]-byte word. *)
Fixpoint le_bytes (n : nat) (z : Z) : bytes :=
  match n with O => [] | S n => zb z :: le_bytes n (z / 256) end.
Fixpoint le_value (s : bytes) : Z :=
  match s with [] => 0 | b :: s => bz b + 256 * le_value s end.
Definition u32_le (z : Z) : bytes := le_bytes 4 z.
Definition u64_le (z : Z) : bytes := le_bytes 8 z.
(** An [i64] is written in two's complement. *)
Definition i64_le (z : Z) : bytes := le_bytes 8 (wrap64 z).
Definition i64_value (s : bytes) : Z :=
  let z := le_value s in if z <? 2 ^ 63 then z else z - 2 ^ 64.
Definition u32_not (z : Z) : Z := Z.lxor z U32_MAX.

(** ** [checksum] *)

Definition crc_bit (crc : Z) : Z :=
  if negb (Z.land crc 1 =? 0) then Z.lxor (Z.shiftr crc 1) 0xedb88320 else Z.shiftr crc 1.
Definition TABLE : list Z := (λ index, Nat.iter 8 crc_bit index) <$> seqZ 0 256.
Definition crc_byte (crc : Z) (b : byte) : Z :=
  Z.lxor (nth (Z.to_nat (Z.land (Z.lxor crc (bz b)) 255)) TABLE 0) (Z.shiftr crc 8).
Definition checksum (s : bytes) : Z := u32_not (fold_left crc_byte s U32_MAX).

Definition snapshot_digest (previous : Z) (encoded : bytes) : Z :=
  checksum (u32_le previous ++ u32_le (checksum encoded)).

(** ** Input *)

(** [read_exact] on a slice, and the cursor's [take]. *)
Definition read_exact (count : Z) (input : bytes) : option (bytes * bytes) :=
  if count <=? zlen input then Some (take (Z.to_nat count) input, drop (Z.to_nat count) input) else None.
Definition take_bytes (count : Z) (c : bytes) : result FormatError (bytes * bytes) :=
  ok_or (FCorrupt "internal length") (read_exact count c).
Definition take_byte (c : bytes) : result FormatError (Z * bytes) :=
  '(s, c) ← take_bytes 1 c; Ok (le_value s, c).
Definition take_u32 (c : bytes) : result FormatError (Z * bytes) :=
  '(s, c) ← take_bytes 4 c; Ok (le_value s, c).
Definition take_u64 (c : bytes) : result FormatError (Z * bytes) :=
  '(s, c) ← take_bytes 8 c; Ok (le_value s, c).
Definition take_i64 (c : bytes) : result FormatError (Z * bytes) :=
  '(s, c) ← take_bytes 8 c; Ok (i64_value s, c).
Definition take_blob (c : bytes) : result FormatError (bytes * bytes) :=
  '(size, c) ← take_u32 c; take_bytes size c.

Definition encode_blob (value : bytes) : bytes := u32_le (zlen value) ++ value.

(** A counted loop over the cursor. *)
Fixpoint take_loop {S} (n : nat) (step : S → bytes → result FormatError (S * bytes)) (s : S) (c : bytes)
    : result FormatError (S * bytes) :=
  match n with
  | O => Ok (s, c)
  | Datatypes.S n => '(s, c) ← step s c; take_loop n step s c
  end.

(** ** Frames *)

Definition MAX_RECORD_BYTES : Z := 64 * 1024 * 1024.
Record Limits := { max_record_bytes : Z; max_mutations : Z }.
Definition Limits_default : Limits := {| max_record_bytes := MAX_RECORD_BYTES; max_mutations := 100000 |}.

(** A record of [size] bytes: its length, the complement of its length, its checksum
    and its body. *)
Definition frame (size : Z) (body : bytes) : bytes :=
  u32_le size ++ u32_le (u32_not size) ++ u32_le (checksum body) ++ body.

Inductive Framed := NoFrame | IncompleteFrame | Body (body rest : bytes).

(** The reading of a frame: the length and its complement are checked before the
    body is read, the checksum before it is decoded. *)
Definition read_frame (l : Limits) (input : bytes) : result FormatError Framed :=
  match input with
  | [] => Ok NoFrame
  | _ =>
      match read_exact 12 input with
      | None => Ok IncompleteFrame
      | Some (prefix, input) =>
          let size := le_value (take 4 prefix) in
          if negb (u32_not size =? le_value (take 4 (drop 4 prefix))) then Err (FCorrupt "length")
          else if (size =? 0) || (max_record_bytes l <? size) || (MAX_RECORD_BYTES <? size) then Err FLimit
          else
            match read_exact size input with
            | None => Ok IncompleteFrame
            | Some (body, rest) =>
                if negb (checksum body =? le_value (drop 8 prefix)) then Err (FCorrupt "checksum")
                else Ok (Body body rest)
            end
      end
  end.

Lemma Ok_inj {E A} (a b : A) : Ok (E:=E) a = Ok b → a = b.
Proof. congruence. Qed.

Lemma fold_left_snoc {A} (l s : list A) : fold_left (λ l x, l ++ [x]) l s = s ++ l.
Proof.
  revert s. induction l as [|x l IH]; intros s; cbn; [by rewrite app_nil_r|]. by rewrite IH, <- app_assoc.
Qed.

(** ** Facts about words *)

Lemma le_bytes_length n z : length (le_bytes n z) = n.
Proof. revert z. induction n; intros z; cbn; congruence. Qed.
Lemma le_bytes_zlen n z : zlen (le_bytes n z) = Z.of_nat n.
Proof. unfold zlen. by rewrite le_bytes_length. Qed.
Lemma le_value_bytes n z : 0 <= z < 256 ^ Z.of_nat n → le_value (le_bytes n z) = z.
Proof.
  revert z. induction n as [|n IH]; intros z Hz; [cbn in *; lia|]. cbn [le_bytes le_value].
  rewrite Nat2Z.inj_succ, Z.pow_succ_r in Hz by lia. rewrite bz_zb, IH.
  - pose proof (Z_div_mod_eq_full z 256). lia.
  - split; [apply Z.div_pos; lia|]. apply Z.div_lt_upper_bound; lia.
Qed.
Lemma le_value_range s : 0 <= le_value s < 256 ^ zlen s.
Proof.
  induction s as [|b s IH]; [done|]. cbn [le_value]. rewrite zlen_cons, Z.pow_add_r by (pose proof (zlen_nonneg s); lia).
  pose proof (bz_range b). lia.
Qed.
Lemma le_value_inj s t : length s = length t → le_value s = le_value t → s = t.
Proof.
  revert t. induction s as [|a s IH]; intros [|b t] Hl E; try done. cbn in Hl, E.
  pose proof (bz_range a). pose proof (bz_range b). f_equal; [apply bz_inj; lia|apply IH; lia].
Qed.
Lemma i64_value_bytes z : I64_MIN <= z <= I64_MAX → i64_value (i64_le z) = z.
Proof.
  unfold i64_value, i64_le, wrap64, I64_MIN, I64_MAX. intros Hz. pose proof (Z.mod_pos_bound z (2 ^ 64)).
  rewrite le_value_bytes by (change (256 ^ Z.of_nat 8) with (2 ^ 64); lia).
  destruct (Z.ltb_spec z 0).
  - rewrite <- (Z.mod_unique z (2 ^ 64) (-1) (z + 2 ^ 64)) by lia. destruct (Z.ltb_spec (z + 2 ^ 64) (2 ^ 63)); lia.
  - rewrite Z.mod_small by lia. destruct (Z.ltb_spec z (2 ^ 63)); lia.
Qed.

(** ** Facts about the checksum *)

(** The bitwise definition. *)
Definition crc_reference (s : bytes) : Z :=
  u32_not (fold_left (λ crc b, Nat.iter 8 crc_bit (Z.lxor crc (bz b))) s U32_MAX).

Lemma testbit_small a n i : 0 <= n → 0 <= a < 2 ^ n → n <= i → Z.testbit a i = false.
Proof. intros Hn Ha Hi. rewrite <- (Z.mod_small a (2 ^ n)) by done. apply Z.mod_pow2_bits_high. lia. Qed.
Lemma lxor_range a b n : 0 <= n → 0 <= a < 2 ^ n → 0 <= b < 2 ^ n → 0 <= Z.lxor a b < 2 ^ n.
Proof.
  intros Hn Ha Hb. assert (0 <= Z.lxor a b) as H0 by (apply Z.lxor_nonneg; lia). split; [done|].
  apply Z.nle_gt. intros Hle. assert (Z.lxor a b ≠ 0) as Hnz by lia.
  pose proof (Z.bit_log2 (Z.lxor a b) ltac:(lia)) as Hbit. rewrite Z.lxor_spec in Hbit.
  assert (n <= Z.log2 (Z.lxor a b)) by (apply Z.log2_le_pow2; lia).
  by rewrite !(testbit_small _ n) in Hbit by lia.
Qed.

Lemma crc_bit_spec x : crc_bit x = Z.lxor (Z.shiftr x 1) (if Z.testbit x 0 then 0xedb88320 else 0).
Proof.
  unfold crc_bit. change 1 with (Z.ones 1) at 1. rewrite Z.land_ones by lia. change (2 ^ 1) with 2. pose proof (Z.bit0_mod x).
  pose proof (Z.mod_pos_bound x 2). destruct (Z.testbit x 0), (Z.eqb_spec (x mod 2) 0); cbn in *; lia || by rewrite ?Z.lxor_0_r.
Qed.
Lemma crc_bit_range x : 0 <= x < 2 ^ 32 → 0 <= crc_bit x < 2 ^ 32.
Proof.
  intros Hx. rewrite crc_bit_spec. apply lxor_range; [lia| |destruct (Z.testbit x 0); lia].
  rewrite Z.shiftr_div_pow2 by lia. split; [apply Z.div_pos; lia|]. apply Z.div_lt_upper_bound; lia.
Qed.
Lemma crc_bit_inj x y : 0 <= x < 2 ^ 32 → 0 <= y < 2 ^ 32 → crc_bit x = crc_bit y → x = y.
Proof.
  rewrite !crc_bit_spec. intros Hx Hy E.
  assert (∀ z, 0 <= z < 2 ^ 32 → Z.testbit (Z.lxor (Z.shiftr z 1) (if Z.testbit z 0 then 0xedb88320 else 0)) 31 = Z.testbit z 0) as Ht.
  { intros z Hz. rewrite Z.lxor_spec, Z.shiftr_spec, (testbit_small z 32) by lia. by destruct (Z.testbit z 0). }
  assert (Z.testbit x 0 = Z.testbit y 0) as E0 by (rewrite <- (Ht x), <- (Ht y), E by done; done). rewrite E0 in E.
  apply (f_equal (λ z, Z.lxor z (if Z.testbit y 0 then 0xedb88320 else 0))) in E. rewrite !Z.lxor_assoc, !Z.lxor_nilpotent, !Z.lxor_0_r in E.
  apply Z.bits_inj'. intros i Hi. destruct (Z.eq_dec i 0) as [->|Hne]; [done|].
  replace i with (i - 1 + 1) by lia. rewrite <- !(Z.shiftr_spec _ 1) by lia. by rewrite E.
Qed.
Lemma crc_bit_lxor x y : crc_bit (Z.lxor x y) = Z.lxor (crc_bit x) (crc_bit y).
Proof.
  rewrite !crc_bit_spec, Z.shiftr_lxor, Z.lxor_spec. apply Z.bits_inj'. intros i Hi. rewrite !Z.lxor_spec.
  destruct (Z.testbit x 0), (Z.testbit y 0); cbn [xorb]; rewrite ?Z.bits_0; repeat destruct (Z.testbit _ i); done.
Qed.
Lemma crc_bit_shift x : crc_bit (Z.shiftl x 1) = x.
Proof.
  rewrite crc_bit_spec, Z.shiftl_spec_low by lia. rewrite Z.lxor_0_r. apply Z.shiftr_shiftl_l. lia.
Qed.

Lemma crc_iter_lxor n x y : Nat.iter n crc_bit (Z.lxor x y) = Z.lxor (Nat.iter n crc_bit x) (Nat.iter n crc_bit y).
Proof. induction n as [|n IH]; [done|]. rewrite !Nat.iter_succ, IH. apply crc_bit_lxor. Qed.
Lemma crc_iter_shift n x : Nat.iter n crc_bit (Z.shiftl x (Z.of_nat n)) = x.
Proof.
  revert x. induction n as [|n IH]; intros x; [apply Z.shiftl_0_r|]. rewrite Nat.iter_succ_r.
  rewrite Nat2Z.inj_succ, <- Z.add_1_r, <- Z.shiftl_shiftl, crc_bit_shift by lia. apply IH.
Qed.
Lemma crc_iter_range n x : 0 <= x < 2 ^ 32 → 0 <= Nat.iter n crc_bit x < 2 ^ 32.
Proof. intros Hx. induction n as [|n IH]; [done|]. by apply crc_bit_range. Qed.
Lemma crc_iter_inj n x y :
  0 <= x < 2 ^ 32 → 0 <= y < 2 ^ 32 → Nat.iter n crc_bit x = Nat.iter n crc_bit y → x = y.
Proof.
  intros Hx Hy. induction n as [|n IH]; [done|]. intros E. apply IH.
  apply crc_bit_inj; [by apply crc_iter_range..|done].
Qed.

Lemma table_lookup i : 0 <= i < 256 → nth (Z.to_nat i) TABLE 0 = Nat.iter 8 crc_bit i.
Proof.
  intros Hi. unfold TABLE. apply nth_lookup_Some. rewrite list_lookup_fmap, lookup_seqZ_lt by lia. cbn [fmap option_fmap option_map].
  do 2 f_equal. lia.
Qed.
Lemma crc_byte_bits crc b : crc_byte crc b = Nat.iter 8 crc_bit (Z.lxor crc (bz b)).
Proof.
  unfold crc_byte. pose proof (bz_range b). set (x := Z.lxor crc (bz b)).
  assert (Z.shiftr crc 8 = Z.shiftr x 8) as ->.
  { unfold x. rewrite Z.shiftr_lxor, (Z.shiftr_div_pow2 (bz b)), (Z.div_small (bz b)) by lia. by rewrite Z.lxor_0_r. }
  change 255 with (Z.ones 8). rewrite Z.land_ones, table_lookup by (lia || apply Z.mod_pos_bound; lia).
  rewrite <- (crc_iter_shift 8 (Z.shiftr x 8)), <- crc_iter_lxor. f_equal. rewrite <- Z.land_ones by lia.
  apply Z.bits_inj'. intros i Hi. rewrite Z.lxor_spec, Z.land_spec, Z.shiftl_spec by done. change (Z.of_nat 8) with 8.
  destruct (Z.lt_ge_cases i 8).
  - rewrite Z.ones_spec_low, (Z.testbit_neg_r _ (i - 8)) by lia. by destruct (Z.testbit x i).
  - rewrite Z.ones_spec_high, Z.shiftr_spec, andb_false_r by lia. cbn. f_equal. lia.
Qed.

Lemma crc_start_range b crc : 0 <= crc < 2 ^ 32 → 0 <= Z.lxor crc (bz b) < 2 ^ 32.
Proof. intros Hc. pose proof (bz_range b). apply lxor_range; lia. Qed.
Lemma crc_byte_range crc b : 0 <= crc < 2 ^ 32 → 0 <= crc_byte crc b < 2 ^ 32.
Proof. intros Hc. rewrite crc_byte_bits. by apply crc_iter_range, crc_start_range. Qed.
Lemma lxor_cancel_r a b c : Z.lxor a c = Z.lxor b c → a = b.
Proof.
  intros E. apply (f_equal (λ z, Z.lxor z c)) in E. by rewrite !Z.lxor_assoc, !Z.lxor_nilpotent, !Z.lxor_0_r in E.
Qed.
Lemma crc_byte_inj_l crc crc' b :
  0 <= crc < 2 ^ 32 → 0 <= crc' < 2 ^ 32 → crc_byte crc b = crc_byte crc' b → crc = crc'.
Proof.
  intros Hc Hc' E. rewrite !crc_byte_bits in E. apply crc_iter_inj in E; [|by apply crc_start_range..].
  by eapply lxor_cancel_r.
Qed.
Lemma crc_byte_inj_r crc b b' : 0 <= crc < 2 ^ 32 → crc_byte crc b = crc_byte crc b' → b = b'.
Proof.
  intros Hc E. rewrite !crc_byte_bits in E. apply crc_iter_inj in E; [|by apply crc_start_range..].
  rewrite (Z.lxor_comm crc), (Z.lxor_comm crc) in E. apply lxor_cancel_r in E. by apply bz_inj.
Qed.

Lemma crc_fold_range s crc : 0 <= crc < 2 ^ 32 → 0 <= fold_left crc_byte s crc < 2 ^ 32.
Proof. revert crc. induction s; intros crc Hc; cbn; [done|]. by apply IHs, crc_byte_range. Qed.
Lemma crc_fold_inj s crc crc' :
  0 <= crc < 2 ^ 32 → 0 <= crc' < 2 ^ 32 → fold_left crc_byte s crc = fold_left crc_byte s crc' → crc = crc'.
Proof.
  revert crc crc'. induction s as [|b s IH]; intros crc crc' Hc Hc' E; [done|]. cbn in E.
  eapply crc_byte_inj_l; [done..|]. eapply IH; [by apply crc_byte_range..|done].
Qed.
Lemma u32_not_inj a b : u32_not a = u32_not b → a = b.
Proof. apply lxor_cancel_r. Qed.
Lemma u32_not_range z : 0 <= z < 2 ^ 32 → 0 <= u32_not z < 2 ^ 32.
Proof. intros Hz. apply lxor_range; [lia|done|unfold U32_MAX; lia]. Qed.
Lemma checksum_range s : 0 <= checksum s < 2 ^ 32.
Proof. apply u32_not_range, crc_fold_range. unfold U32_MAX. lia. Qed.

(** Changing one byte changes the checksum. *)
Lemma checksum_byte s i b : s !! i ≠ Some b → (i < length s)%nat → checksum (<[i := b]> s) ≠ checksum s.
Proof.
  intros Hne Hi E. apply u32_not_inj in E. destruct (lookup_lt_is_Some_2 s i Hi) as [b' Hb].
  rewrite <- (take_drop_middle s i b' Hb) in E at 2. rewrite insert_take_drop in E by done. rewrite !fold_left_app in E. cbn in E.
  assert (0 <= fold_left crc_byte (take i s) U32_MAX < 2 ^ 32) as Hr by (apply crc_fold_range; unfold U32_MAX; lia).
  apply crc_fold_inj in E; [|by apply crc_byte_range..]. apply crc_byte_inj_r in E; [|done]. congruence.
Qed.


Example checksum_vector : checksum (lit "123456789") = 0xcbf43926.
Proof. vm_compute. reflexivity. Qed.

(** ** Facts about the cursor *)

Lemma read_exact_app s rest : read_exact (zlen s) (s ++ rest) = Some (s, rest).
Proof.
  unfold read_exact. rewrite zlen_app. pose proof (zlen_nonneg rest). destruct (Z.leb_spec (zlen s) (zlen s + zlen rest)); [|lia].
  unfold zlen. by rewrite Nat2Z.id, take_app_length, drop_app_length.
Qed.
Lemma read_exact_short n s : zlen s < n → read_exact n s = None.
Proof. intros H. unfold read_exact. destruct (Z.leb_spec n (zlen s)); [lia|done]. Qed.
Lemma read_exact_Some n s t rest : 0 <= n → read_exact n s = Some (t, rest) → s = t ++ rest ∧ zlen t = n.
Proof.
  unfold read_exact. intros Hn. destruct (Z.leb_spec n (zlen s)) as [Hl|]; [|done]. intros [= <- <-].
  split; [by rewrite take_drop|]. unfold zlen in *. rewrite length_take. lia.
Qed.
Lemma take_bytes_app n s rest : n = zlen s → take_bytes n (s ++ rest) = Ok (s, rest).
Proof. intros ->. unfold take_bytes. by rewrite read_exact_app. Qed.
Lemma take_byte_app b rest : take_byte (b :: rest) = Ok (bz b, rest).
Proof.
  unfold take_byte. change (b :: rest) with ([b] ++ rest). rewrite take_bytes_app by done. cbn. do 2 f_equal. lia.
Qed.
Lemma take_u32_app z rest : 0 <= z <= U32_MAX → take_u32 (u32_le z ++ rest) = Ok (z, rest).
Proof.
  unfold U32_MAX. intros Hz. unfold take_u32, u32_le. rewrite take_bytes_app by by rewrite le_bytes_zlen.
  cbn [mbind result_bind]. rewrite le_value_bytes; [done|]. change (256 ^ Z.of_nat 4) with (2 ^ 32). lia.
Qed.
Lemma take_u64_app z rest : 0 <= z < 2 ^ 64 → take_u64 (u64_le z ++ rest) = Ok (z, rest).
Proof.
  intros Hz. unfold take_u64, u64_le. rewrite take_bytes_app by by rewrite le_bytes_zlen.
  cbn [mbind result_bind]. by rewrite le_value_bytes.
Qed.
Lemma take_i64_app z rest : I64_MIN <= z <= I64_MAX → take_i64 (i64_le z ++ rest) = Ok (z, rest).
Proof.
  intros Hz. unfold take_i64. rewrite take_bytes_app by (unfold i64_le; by rewrite le_bytes_zlen).
  cbn [mbind result_bind]. by rewrite i64_value_bytes.
Qed.
Lemma take_blob_app v rest : zlen v <= U32_MAX → take_blob (encode_blob v ++ rest) = Ok (v, rest).
Proof.
  intros Hv. pose proof (zlen_nonneg v). unfold take_blob, encode_blob. rewrite <- app_assoc, take_u32_app by lia.
  cbn [mbind result_bind]. by rewrite take_bytes_app.
Qed.
Lemma encode_blob_zlen v : zlen (encode_blob v) = 4 + zlen v.
Proof. unfold encode_blob, u32_le. by rewrite zlen_app, le_bytes_zlen. Qed.

(** ** Facts about frames *)

Lemma u32_le_length z : length (u32_le z) = 4%nat.
Proof. apply le_bytes_length. Qed.
Lemma u32_le_value z : 0 <= z <= U32_MAX → le_value (u32_le z) = z.
Proof. unfold U32_MAX. intros Hz. apply le_value_bytes. change (256 ^ Z.of_nat 4) with (2 ^ 32). lia. Qed.

Lemma u64_le_value z : 0 <= z < 2 ^ 64 → le_value (u64_le z) = z.
Proof. intros Hz. by apply le_value_bytes. Qed.

Definition size_ok (l : Limits) (size : Z) : Prop := 1 <= size <= max_record_bytes l ∧ size <= MAX_RECORD_BYTES.

Lemma size_ok_check l size :
  size_ok l size → (size =? 0) || (max_record_bytes l <? size) || (MAX_RECORD_BYTES <? size) = false.
Proof. unfold size_ok. lia. Qed.

(** The prefix of a frame, cut at its fields. *)
Lemma read_frame_fields l (a b c : bytes) input :
  length a = 4%nat → length b = 4%nat → length c = 4%nat →
  read_frame l (a ++ b ++ c ++ input) =
  if negb (u32_not (le_value a) =? le_value b) then Err (FCorrupt "length")
  else if (le_value a =? 0) || (max_record_bytes l <? le_value a) || (MAX_RECORD_BYTES <? le_value a) then Err FLimit
  else match read_exact (le_value a) input with
       | None => Ok IncompleteFrame
       | Some (body, rest) =>
           if negb (checksum body =? le_value c) then Err (FCorrupt "checksum") else Ok (Body body rest)
       end.
Proof.
  intros Ha Hb Hc. unfold read_frame. destruct (a ++ b ++ c ++ input) eqn:E; [by destruct a|]. rewrite <- E.
  replace (a ++ b ++ c ++ input) with ((a ++ b ++ c) ++ input) by by rewrite <- !app_assoc.
  replace 12 with (zlen (a ++ b ++ c)) by (unfold zlen; rewrite !length_app; lia). rewrite read_exact_app.
  cbv zeta. rewrite take_app_le, take_ge by lia. rewrite !drop_app_ge by lia. rewrite Ha. cbn [Nat.sub].
  rewrite drop_0, take_app_le, take_ge by lia.
  assert (drop 8 (a ++ b ++ c) = c) as ->; [|done]. by rewrite !drop_app_ge, Ha, Hb by lia.
Qed.

Lemma read_frame_ok l size body rest :
  size = zlen body → size_ok l size → read_frame l (frame size body ++ rest) = Ok (Body body rest).
Proof.
  intros Hs Hok. unfold frame. rewrite <- !app_assoc. rewrite read_frame_fields by apply u32_le_length.
  pose proof (size_ok_check l size Hok) as Hc. unfold size_ok, MAX_RECORD_BYTES in Hok. assert (size <= U32_MAX) by (unfold U32_MAX; lia).
  pose proof (u32_not_range size) as Hn. pose proof (checksum_range body).
  rewrite !u32_le_value by (unfold U32_MAX in *; lia). rewrite Z.eqb_refl, Hc, Hs, read_exact_app, Z.eqb_refl. done.
Qed.
Lemma frame_zlen size body : zlen (frame size body) = 12 + zlen body.
Proof. unfold frame. rewrite !zlen_app. unfold u32_le. rewrite !le_bytes_zlen. lia. Qed.

(** A strict prefix of a frame is an incomplete frame. *)
Lemma read_frame_prefix l size body n :
  size = zlen body → size_ok l size → (0 < n < length (frame size body))%nat →
  read_frame l (take n (frame size body)) = Ok IncompleteFrame.
Proof.
  intros Hs Hok [Hn0 Hn]. pose proof (frame_zlen size body) as Hl. destruct (Nat.lt_ge_cases n 12) as [H12|H12].
  - destruct (take n (frame size body)) as [|b t] eqn:E.
    { apply (f_equal length) in E. rewrite length_take in E. cbn in E. lia. }
    cbn [read_frame]. rewrite read_exact_short; [done|]. rewrite <- E. unfold zlen. rewrite length_take. lia.
  - unfold frame in *. rewrite !take_app, !u32_le_length. rewrite !take_ge by (rewrite u32_le_length; lia).
    rewrite read_frame_fields by apply u32_le_length.
    pose proof (size_ok_check l size Hok) as Hc. unfold size_ok, MAX_RECORD_BYTES in Hok.
    pose proof (u32_not_range size) as Hr. rewrite !u32_le_value by (unfold U32_MAX in *; lia). rewrite Z.eqb_refl, Hc.
    rewrite read_exact_short; [done|]. unfold zlen in *. rewrite length_take. rewrite !length_app, !u32_le_length in Hn. lia.
Qed.

Lemma le_value_insert s i b : s !! i ≠ Some b → (i < length s)%nat → le_value (<[i := b]> s) ≠ le_value s.
Proof.
  intros Hne Hi E. apply le_value_inj in E; [|by rewrite length_insert]. apply Hne. rewrite <- E. by apply list_lookup_insert_eq.
Qed.

(** A frame with one changed byte is rejected. *)
Lemma read_frame_corrupt l size body i b rest :
  size = zlen body → size_ok l size → (i < length (frame size body))%nat → frame size body !! i ≠ Some b →
  ∃ e, read_frame l (<[i := b]> (frame size body) ++ rest) = Err (FCorrupt e).
Proof.
  intros Hs Hok Hi Hne. pose proof (size_ok_check l size Hok) as Hc. unfold size_ok, MAX_RECORD_BYTES in Hok.
  pose proof (u32_not_range size ltac:(lia)) as Hr. pose proof (checksum_range body) as Hk.
  unfold frame in *. set (a := u32_le size) in *. set (c := u32_le (u32_not size)) in *. set (k := u32_le (checksum body)) in *.
  assert (length a = 4%nat ∧ length c = 4%nat ∧ length k = 4%nat) as (La & Lc & Lk) by (split_and!; apply u32_le_length).
  assert (le_value a = size ∧ le_value c = u32_not size ∧ le_value k = checksum body) as (Va & Vc & Vk)
    by (split_and!; apply u32_le_value; unfold U32_MAX in *; lia).
  rewrite !length_app, La, Lc, Lk in Hi. destruct (Nat.lt_ge_cases i 4) as [H4|H4].
  { rewrite insert_app_l by lia. rewrite <- !app_assoc. rewrite lookup_app_l in Hne by lia.
    rewrite read_frame_fields by (rewrite ?length_insert; done). exists "length"%string.
    destruct (Z.eqb_spec (u32_not (le_value (<[i := b]> a))) (le_value c)) as [E|]; [|done].
    rewrite Vc in E. apply u32_not_inj in E. rewrite <- Va in E. by apply le_value_insert in E; [|done|lia]. }
  rewrite insert_app_r_alt, La by lia. rewrite lookup_app_r, La in Hne by lia. destruct (Nat.lt_ge_cases i 8) as [H8|H8].
  { rewrite insert_app_l by lia. rewrite <- !app_assoc. rewrite lookup_app_l in Hne by lia.
    rewrite read_frame_fields by (rewrite ?length_insert; done). exists "length"%string.
    destruct (Z.eqb_spec (u32_not (le_value a)) (le_value (<[(i - 4)%nat := b]> c))) as [E|]; [|done].
    rewrite Va, <- Vc in E. symmetry in E. by apply le_value_insert in E; [|done|lia]. }
  rewrite insert_app_r_alt, Lc by lia. rewrite lookup_app_r, Lc in Hne by lia. exists "checksum"%string. destruct (Nat.lt_ge_cases i 12) as [H12|H12].
  - rewrite insert_app_l by lia. rewrite <- !app_assoc. rewrite lookup_app_l in Hne by lia.
    rewrite read_frame_fields by (rewrite ?length_insert; done). rewrite Va, Vc, Z.eqb_refl, Hc, Hs, read_exact_app. cbn [negb].
    destruct (Z.eqb_spec (checksum body) (le_value (<[(i - 4 - 4)%nat := b]> k))) as [E|]; [|done].
    rewrite <- Vk in E. symmetry in E. by apply le_value_insert in E; [|done|lia].
  - rewrite insert_app_r_alt, Lk by lia. rewrite <- !app_assoc. rewrite lookup_app_r, Lk in Hne by lia.
    rewrite read_frame_fields by done. rewrite Va, Vc, Z.eqb_refl, Hc, Hs. cbn [negb].
    replace (zlen body) with (zlen (<[(i - 4 - 4 - 4)%nat := b]> body)) by (unfold zlen; by rewrite length_insert).
    rewrite read_exact_app, Vk.
    destruct (Z.eqb_spec (checksum (<[(i - 4 - 4 - 4)%nat := b]> body)) (checksum body)) as [E|]; [|done].
    by apply checksum_byte in E; [|done|lia].
Qed.

(** ** Facts about digests *)

Lemma crc_fold_word s crc :
  0 <= crc < 2 ^ 32 → fold_left crc_byte s crc = Nat.iter (8 * length s) crc_bit (Z.lxor crc (le_value s)).
Proof.
  revert crc. induction s as [|b s IH]; intros crc Hc; [cbn; by rewrite Z.lxor_0_r|].
  cbn [fold_left le_value length]. rewrite IH by by apply crc_byte_range.
  replace (8 * S (length s))%nat with (8 * length s + 8)%nat by lia. rewrite Nat.iter_add, crc_byte_bits. f_equal.
  pose proof (bz_range b). pose proof (le_value_range s) as [Hv _].
  assert (bz b + 256 * le_value s = Z.lxor (bz b) (Z.shiftl (le_value s) 8)) as ->.
  { rewrite Z.shiftl_mul_pow2 by lia. rewrite (Z.mul_comm 256). apply Z.add_nocarry_lxor, Z.bits_inj'. intros i Hi.
    rewrite Z.land_spec, Z.bits_0. destruct (Z.ltb_spec i 8).
    - rewrite Z.mul_pow2_bits_low by lia. apply andb_false_r.
    - rewrite (testbit_small (bz b) 8) by lia. done. }
  rewrite <- Z.lxor_assoc, (crc_iter_lxor 8 (Z.lxor crc (bz b))). f_equal.
  change (Z.shiftl (le_value s) 8) with (Z.shiftl (le_value s) (Z.of_nat 8)). by rewrite crc_iter_shift.
Qed.

Lemma crc_word_inj s t crc :
  0 <= crc < 2 ^ 32 → length s = 4%nat → length t = 4%nat → fold_left crc_byte s crc = fold_left crc_byte t crc → s = t.
Proof.
  intros Hc Hs Ht E. rewrite !crc_fold_word, Hs, Ht in E by done.
  pose proof (le_value_range s) as Hvs. pose proof (le_value_range t) as Hvt.
  unfold zlen in Hvs, Hvt. rewrite Hs in Hvs. rewrite Ht in Hvt. change (256 ^ Z.of_nat 4) with (2 ^ 32) in *.
  apply crc_iter_inj in E; [|by apply lxor_range..]. rewrite (Z.lxor_comm crc), (Z.lxor_comm crc) in E.
  apply lxor_cancel_r in E. apply le_value_inj; congruence.
Qed.

Lemma u32_le_inj a b : 0 <= a < 2 ^ 32 → 0 <= b < 2 ^ 32 → u32_le a = u32_le b → a = b.
Proof.
  intros Ha Hb E. apply (f_equal le_value) in E. unfold u32_le in E.
  rewrite !le_value_bytes in E by (change (256 ^ Z.of_nat 4) with (2 ^ 32); lia). done.
Qed.

Lemma checksum_words w w' v v' :
  length w = 4%nat → length w' = 4%nat → length v = 4%nat → length v' = 4%nat →
  checksum (w ++ v) = checksum (w' ++ v') → (v = v' → w = w') ∧ (w = w' → v = v').
Proof.
  intros Hw Hw' Hv Hv' E%u32_not_inj. rewrite !fold_left_app in E.
  assert (0 <= U32_MAX < 2 ^ 32) as Hc by (unfold U32_MAX; lia). split; intros <-.
  - apply crc_fold_inj in E; [|by apply crc_fold_range..]. by apply crc_word_inj in E.
  - apply crc_word_inj in E; [done|by apply crc_fold_range|done..].
Qed.
Lemma snapshot_digest_eq a s : snapshot_digest a s = checksum (u32_le a ++ u32_le (checksum s)).
Proof. reflexivity. Qed.
(** The digest is exact in each of its two parts. *)
Lemma snapshot_digest_inj_l a b s :
  0 <= a < 2 ^ 32 → 0 <= b < 2 ^ 32 → snapshot_digest a s = snapshot_digest b s → a = b.
Proof.
  intros Ha Hb E. rewrite !snapshot_digest_eq in E. apply u32_le_inj; [done..|].
  by apply (checksum_words _ _ _ _ (u32_le_length _) (u32_le_length _) (u32_le_length _) (u32_le_length _) E).
Qed.
Lemma snapshot_digest_inj_r a s t : snapshot_digest a s = snapshot_digest a t → checksum s = checksum t.
Proof.
  intros E. rewrite !snapshot_digest_eq in E. apply u32_le_inj; [apply checksum_range..|].
  by apply (checksum_words _ _ _ _ (u32_le_length _) (u32_le_length _) (u32_le_length _) (u32_le_length _) E).
Qed.
