(* ===== verification/Score.v ===== *)
(** * Sorted-set scores

    Models src/command/score.rs (parsing, ordering and the RESP2 text of a score)
    and src/command/fpconv.rs (the Grisu2 digit generator).  [u64] arithmetic of
    the generator is wrapped to 64 bits; table indexing out of range is a
    failure. *)

From Stdlib Require Import Strings.Byte Strings.String ZArith Lia.
From S2P Require Import Prelude Float.

(** ** Floating-point operations of the two files *)

(** [as f64] of an integer, and [as i32]/[as i64] of a finite value. *)
Definition f64_of_int (z : Z) : f64 := f64_of_dyadic z 0.
Definition f64_trunc (x : f64) : Z :=
  if f64_sign x then - f64_trunc_abs x else f64_trunc_abs x.
(** [x < 0.0] of a value that is not NaN. *)
Definition f64_negative (x : f64) : bool := f64_sign x && negb (is_zero x).

(** ** [fpconv] *)

Record Fp := { fraction : Z; exponent : Z }.

Definition leading_zeros (z : Z) : Z := if z =? 0 then 64 else 63 - Z.log2 z.

Definition normalize (f : Fp) : Fp :=
  let shift := leading_zeros (fraction f) in
  {| fraction := wrap64 (Z.shiftl (fraction f) shift); exponent := exponent f - shift |}.

Definition multiply (f g : Fp) : Fp :=
  let product := fraction f * fraction g in
  {| fraction := wrap64 (Z.shiftr (product + 2 ^ 63) 64);
     exponent := exponent f + exponent g + 64 |}.

Definition POWERS : list (Z * Z) := [
  (18054884314459144840, -1220); (13451937075301367670, -1193); (10022474136428063862, -1166);
  (14934650266808366570, -1140); (11127181549972568877, -1113); (16580792590934885855, -1087);
  (12353653155963782858, -1060); (18408377700990114895, -1034); (13715310171984221708, -1007);
  (10218702384817765436, -980); (15227053142812498563, -954); (11345038669416679861, -927);
  (16905424996341287883, -901); (12595523146049147757, -874); (9384396036005875287, -847);
  (13983839803942852151, -821); (10418772551374772303, -794); (15525180923007089351, -768);
  (11567161174868858868, -741); (17236413322193710309, -715); (12842128665889583758, -688);
  (9568131466127621947, -661); (14257626930069360058, -635); (10622759856335341974, -608);
  (15829145694278690180, -582); (11793632577567316726, -555); (17573882009934360870, -529);
  (13093562431584567480, -502); (9755464219737475723, -475); (14536774485912137811, -449);
  (10830740992659433045, -422); (16139061738043178685, -396); (12024538023802026127, -369);
  (17917957937422433684, -343); (13349918974505688015, -316); (9946464728195732843, -289);
  (14821387422376473014, -263); (11042794154864902060, -236); (16455045573212060422, -210);
  (12259964326927110867, -183); (18268770466636286478, -157); (13611294676837538539, -130);
  (10141204801825835212, -103); (15111572745182864684, -77); (11258999068426240000, -50);
  (16777216000000000000, -24); (12500000000000000000, 3); (9313225746154785156, 30);
  (13877787807814456755, 56); (10339757656912845936, 83); (15407439555097886824, 109);
  (11479437019748901445, 136); (17105694144590052135, 162); (12744735289059618216, 189);
  (9495567745759798747, 216); (14149498560666738074, 242); (10542197943230523224, 269);
  (15709099088952724970, 295); (11704190886730495818, 322); (17440603504673385349, 348);
  (12994262207056124023, 375); (9681479787123295682, 402); (14426529090290212157, 428);
  (10748601772107342003, 455); (16016664761464807395, 481); (11933345169920330789, 508);
  (17782069995880619868, 534); (13248674568444952270, 561); (9871031767461413346, 588);
  (14708983551653345445, 614); (10959046745042015199, 641); (16330252207878254650, 667);
  (12166986024289022870, 694); (18130221999122236476, 720); (13508068024458167312, 747);
  (10064294952495520794, 774); (14996968138956309548, 800); (11173611982879273257, 827);
  (16649979327439178909, 853); (12405201291620119593, 880); (9242595204427927429, 907);
  (13772540099066387757, 933); (10261342003245940623, 960); (15290591125556738113, 986);
  (11392378155556871081, 1013); (16975966327722178521, 1039); (12648080533535911531, 1066)
].

(** Lowers the last digit towards the value ([digits] last first). *)
Fixpoint round_digits (fuel : nat) (digits : bytes) (delta remainder unit distance : Z)
    : option bytes :=
  if (remainder <? distance) && (unit <=? wrap64 (delta - remainder))
     && ((wrap64 (remainder + unit) <? distance)
         || (wrap64 (remainder + unit - distance) <? wrap64 (distance - remainder)))
  then
    match fuel, digits with
    | S fuel, last :: digits =>
        round_digits fuel (zb (bz last - 1) :: digits) delta (wrap64 (remainder + unit)) unit distance
    | _, _ => None
    end
  else Some digits.

(** The first guess of the power index and the correction loop. *)
Definition power_guess (e : Z) : Z :=
  let approximation :=
    f64_trunc (f64_mul (f64_of_int (- (e + 87))) (from_bits 0x3fd34413509f79fe)) in
  Z.quot (approximation + 348) 8.
Fixpoint power_index (fuel : nat) (e index : Z) : option Z :=
  match fuel with
  | O => None
  | S fuel =>
      if index <? 0 then None else
      '(_, pe) ← POWERS !! Z.to_nat index;
      let exponent := e + pe + 64 in
      if exponent <? -60 then power_index fuel e (index + 1)
      else if -32 <? exponent then power_index fuel e (index - 1)
      else Some index
  end.

Definition push_digit (digit : Z) (digits : bytes) : bytes :=
  if negb (digit =? 0) || negb (bool_decide (digits = [])) then zb (48 + digit) :: digits else digits.

(** The loop over the ten integer digits: a result, or the state the fractional
    loop starts from. *)
Fixpoint integer_digits (remaining : nat) (shift delta distance fractional : Z)
    (integer divisor decimal_power : Z) (digits : bytes)
    : option ((bytes * Z) + bytes) :=
  match remaining with
  | O => Some (inr digits)
  | S remaining =>
      let digits := push_digit (integer / divisor) digits in
      let integer := integer mod divisor in
      let remainder := wrap64 (Z.shiftl integer shift + fractional) in
      if remainder <=? delta then
        digits ← round_digits 10 digits delta remainder (wrap64 (Z.shiftl divisor shift)) distance;
        Some (inl (digits, decimal_power + Z.of_nat remaining))
      else
        integer_digits remaining shift delta distance fractional integer (divisor / 10)
          decimal_power digits
  end.

Fixpoint fraction_digits (fuel : nat) (shift one distance : Z)
    (fractional delta unit remaining decimal_power : Z) (digits : bytes) : option (bytes * Z) :=
  match fuel with
  | O => None
  | S fuel =>
      let fractional := wrap64 (fractional * 10) in
      let delta := wrap64 (delta * 10) in
      let remaining := remaining - 1 in
      let digits := push_digit (Z.shiftr fractional shift) digits in
      let fractional := Z.land fractional (one - 1) in
      if fractional <? delta then
        digits ← round_digits 10 digits delta fractional one (wrap64 (distance * unit));
        Some (digits, decimal_power + remaining)
      else
        fraction_digits fuel shift one distance fractional delta (wrap64 (unit * 10)) remaining
          decimal_power digits
  end.

(** The normalized upper boundary of a value, and the value itself. *)
Definition fp_of (value : f64) : Fp :=
  {| fraction := f64_mantissa value; exponent := f64_exponent value |}.
Definition fp_upper (w : Fp) : Fp :=
  normalize {| fraction := Z.shiftl (fraction w) 1 + 1; exponent := exponent w - 1 |}.

(** Significant digits and the power of ten of a positive finite value. *)
Definition digits (value : f64) : option (bytes * Z) :=
  let w := fp_of value in
  let upper := fp_upper w in
  let shift := if fraction w =? 2 ^ 52 then 2 else 1 in
  let lower := {| fraction := wrap64 (Z.shiftl (Z.shiftl (fraction w) shift - 1)
                                        (exponent w - shift - exponent upper));
                  exponent := exponent upper |} in
  index ← power_index 10 (exponent upper) (power_guess (exponent upper));
  '(pf, pe) ← POWERS !! Z.to_nat index;
  let power := {| fraction := pf; exponent := pe |} in
  let w := multiply (normalize w) power in
  let upper := multiply upper power in
  let lower := multiply lower power in
  let upper_fraction := wrap64 (fraction upper - 1) in
  let lower_fraction := wrap64 (fraction lower + 1) in
  let decimal_power := 348 - index * 8 in
  let distance := wrap64 (upper_fraction - fraction w) in
  let delta := wrap64 (upper_fraction - lower_fraction) in
  let shift := - exponent upper in
  let one := Z.shiftl 1 shift in
  let integer := Z.shiftr upper_fraction shift in
  let fractional := Z.land upper_fraction (one - 1) in
  r ← integer_digits 10 shift delta distance fractional integer 1000000000 decimal_power [];
  match r with
  | inl (ds, p) => Some (rev ds, p)
  | inr ds =>
      '(ds, p) ← fraction_digits 20 shift one distance fractional delta 10 0 decimal_power ds;
      Some (rev ds, p)
  end.

Example digits_examples :
  digits (from_bits 0x3fb999999999999a) = Some (lit "1", -1) ∧
  digits (from_bits 1) = Some (lit "5", -324) ∧
  digits (from_bits 0x400921fb54442d18) = Some (lit "3141592653589793", -15) ∧
  digits (from_bits 0x7fefffffffffffff) = Some (lit "17976931348623157", 292).
Proof. vm_compute. auto. Qed.

(** ** [Score] *)

(** [Score::new]: not a number is rejected, both zeros become [0.0]. *)
Definition Score_new (value : f64) : option f64 :=
  if is_nan value then None else Some (if is_zero value then f64_zero else value).

(** The part before and the part after the first byte that satisfies [p]. *)
Fixpoint split_at (p : byte → bool) (s : bytes) : bytes * option bytes :=
  match s with
  | [] => ([], None)
  | b :: s => if p b then ([], Some s) else let '(l, r) := split_at p s in (b :: l, r)
  end.
Definition is_byte (c d b : byte) : bool := bool_decide (b = c) || bool_decide (b = d).

(** [i64::saturating_add] and friends clamp to the range. *)
Definition sat64 (z : Z) : Z := Z.max I64_MIN (Z.min I64_MAX z).

Definition hex_digit (b : byte) : option Z :=
  let z := bz b in
  if (48 <=? z) && (z <=? 57) then Some (z - 48)
  else if (97 <=? z) && (z <=? 102) then Some (z - 97 + 10)
  else if (65 <=? z) && (z <=? 70) then Some (z - 65 + 10)
  else None.

(** The loop over the hexadecimal mantissa. *)
Record HexScan := {
  h_value : Z; h_kept : Z; h_discarded : Z; h_fractional : Z;
  h_point : bool; h_any : bool; h_sticky : bool
}.
Definition hex_step (h : HexScan) (b : byte) : option HexScan :=
  if bool_decide (b = "."%byte) then
    if h_point h then None
    else Some {| h_value := h_value h; h_kept := h_kept h; h_discarded := h_discarded h;
                 h_fractional := h_fractional h; h_point := true; h_any := h_any h;
                 h_sticky := h_sticky h |}
  else
    digit ← hex_digit b;
    let fractional := h_fractional h + (if h_point h then 1 else 0) in
    let make v k d s :=
      {| h_value := v; h_kept := k; h_discarded := d; h_fractional := fractional;
         h_point := h_point h; h_any := true; h_sticky := s |} in
    Some (if (h_kept h =? 0) && (digit =? 0)
          then make (h_value h) (h_kept h) (h_discarded h) (h_sticky h)
          else if h_kept h <? 16
          then make (Z.lor (Z.shiftl (h_value h) 4) digit) (h_kept h + 1) (h_discarded h) (h_sticky h)
          else make (h_value h) (h_kept h) (h_discarded h + 1)
                 (h_sticky h || negb (digit =? 0))).

Definition hex_mantissa (s : bytes) : option HexScan :=
  try_fold hex_step
    {| h_value := 0; h_kept := 0; h_discarded := 0; h_fractional := 0; h_point := false;
       h_any := false; h_sticky := false |} s.

(** Rounds [value * 2 ^ power], with a sticky tail, to the grid of [f64]. *)
Definition hex_round (value power : Z) (sticky : bool) : option f64 :=
  let highest := sat64 (power + Z.log2 value) in
  if 1023 <? highest then None else
  let grid := Z.max (sat64 (highest - 52)) (-1074) in
  let shift := sat64 (grid - power) in
  let rounded :=
    if shift <=? 0 then wrap64 (Z.shiftl value (- shift))
    else if 64 <? shift then 0
    else
      let half := Z.shiftl 1 (shift - 1) in
      let low := Z.land value (half - 1) in
      let truncated := if shift =? 64 then 0 else Z.shiftr value shift in
      let up := negb (Z.land value half =? 0)
                && (negb (low =? 0) || sticky || Z.odd truncated) in
      truncated + (if up then 1 else 0) in
  if rounded =? 0 then None else
  let scale := if grid <? -1022 then from_bits (Z.shiftl 1 (grid + 1074))
               else from_bits (Z.shiftl (grid + 1023) 52) in
  let result := f64_mul (f64_of_int rounded) scale in
  if is_finite result then Some result else None.

Definition parse_hex (text : bytes) : option f64 :=
  let '(negative, unsigned) := split_sign text in
  let '(mantissa, exponent) := split_at (is_byte "p" "P") (drop 2 unsigned) in
  let exponent := default (lit "0") exponent in
  let '(exponent_negative, exponent_digits) := split_sign exponent in
  if bool_decide (exponent_digits = []) || negb (forallb is_digit exponent_digits) then None else
  let power := fold_left (λ n b, sat64 (sat64 (n * 10) + digit_value b)) exponent_digits 0 in
  let power := if exponent_negative then - power else power in
  h ← hex_mantissa mantissa;
  if negb (h_any h) then None
  else if h_value h =? 0 then Some f64_zero
  else
    let power := sat64 (sat64 (power - h_fractional h * 4) + h_discarded h * 4) in
    result ← hex_round (h_value h) power (h_sticky h);
    Some (if negative then f64_neg result else result).

(** [Score::parse].  Bytes that are not UTF-8 are rejected by both grammars. *)
Definition Score_parse (text : bytes) : option f64 :=
  let unsigned := (split_sign text).2 in
  if bool_decide (take 2 unsigned = lit "0x") || bool_decide (take 2 unsigned = lit "0X") then
    v ← parse_hex text; Score_new v
  else
    number ← parse_f64 text;
    if is_infinite number && negb (eq_ignore_ascii_case unsigned (lit "inf"))
       && negb (eq_ignore_ascii_case unsigned (lit "infinity")) then None
    else if is_zero number
            && existsb (λ b, (49 <=? bz b) && (bz b <=? 57))
                 (split_at (is_byte "e" "E") unsigned).1 then None
    else Score_new number.

(** [Score::to_bytes]; [None] only where [digits] fails. *)
Definition Score_to_bytes (value : f64) : option bytes :=
  if is_zero value then Some (lit "0")
  else if is_infinite value then Some (if f64_negative value then lit "-inf" else lit "inf")
  else if (to_bits (f64_abs value) <=? to_bits (f64_of_int 4611686018427387904)) && f64_integral value
  then Some (sdec (f64_trunc value))
  else
    '(ds, power) ← digits (f64_abs value);
    let length := zlen ds in
    let exponent := power + length - 1 in
    let sign := if f64_negative value then lit "-" else [] in
    let zeros n := replicate (Z.to_nat n) "0"%byte in
    Some (sign ++
      (if (0 <=? power) && (Z.abs exponent <? length + 7) then ds ++ zeros power
       else if (power <? 0) && ((-7 <? power) || (Z.abs exponent <? 4)) then
         let point := length + power in
         if point <=? 0 then lit "0." ++ zeros (- point) ++ ds
         else take (Z.to_nat point) ds ++ lit "." ++ drop (Z.to_nat point) ds
       else
         take 1 ds ++ (if 1 <? length then lit "." ++ drop 1 ds else []) ++ lit "e"
         ++ (if 0 <=? exponent then lit "+" else []) ++ sdec exponent)).

(** [Score] equality and order. *)
Definition Score_eq (x y : f64) : bool := f64_eqb x y.
Definition Score_cmp (x y : f64) : comparison := total_cmp x y.

Example score_examples :
  (v ← Score_parse (lit "3.14"); Score_to_bytes v) = Some (lit "3.14") ∧
  (v ← Score_parse (lit "-0"); Score_to_bytes v) = Some (lit "0") ∧
  (v ← Score_parse (lit "1e21"); Score_to_bytes v) = Some (lit "1e+21") ∧
  (v ← Score_parse (lit "0x1.8p1"); Score_to_bytes v) = Some (lit "3") ∧
  (v ← Score_parse (lit "-1.5e-9"); Score_to_bytes v) = Some (lit "-1.5e-9") ∧
  (v ← Score_parse (lit "+Infinity"); Score_to_bytes v) = Some (lit "inf") ∧
  Score_parse (lit "1e400") = None ∧ Score_parse (lit "1e-400") = None ∧
  Score_parse (lit "nan") = None.
Proof. vm_compute. auto 20. Qed.
(** ** Facts *)

(** The exact value of a finite score in units of [2 ^ -1074]. *)
Definition f64_scaled (x : f64) : Z := f64_signed x * 2 ^ (f64_exponent x + 1074).

(** The same from the magnitude bits. *)
Definition magnitude (u : Z) : Z :=
  if u / 2 ^ 52 =? 0 then u mod 2 ^ 52 else (2 ^ 52 + u mod 2 ^ 52) * 2 ^ (u / 2 ^ 52 - 1).

Lemma magnitude_mono u v : 0 <= u < v → magnitude u < magnitude v.
Proof.
  intros Huv. unfold magnitude.
  pose proof (Z.div_mod u (2 ^ 52) ltac:(lia)) as Hu. pose proof (Z.div_mod v (2 ^ 52) ltac:(lia)) as Hv.
  pose proof (Z.mod_pos_bound u (2 ^ 52) ltac:(lia)). pose proof (Z.mod_pos_bound v (2 ^ 52) ltac:(lia)).
  assert (0 <= u / 2 ^ 52 <= v / 2 ^ 52) by (split; [apply Z.div_pos|apply Z.div_le_mono]; lia).
  set (eu := u / 2 ^ 52) in *. set (ev := v / 2 ^ 52) in *.
  set (fu := u mod 2 ^ 52) in *. set (fv := v mod 2 ^ 52) in *.
  destruct (Z.eqb_spec eu 0) as [Eu|Eu], (Z.eqb_spec ev 0) as [Ev|Ev].
  - lia.
  - assert (1 <= 2 ^ (ev - 1)) by (pose proof (Z.pow_pos_nonneg 2 (ev - 1)); lia). nia.
  - lia.
  - assert (1 <= 2 ^ (eu - 1)) by (pose proof (Z.pow_pos_nonneg 2 (eu - 1)); lia).
    destruct (Z.eq_dec eu ev) as [->|Hne]; [nia|].
    replace (ev - 1) with ((eu - 1) + (ev - eu)) by lia. rewrite Z.pow_add_r by lia.
    assert (2 <= 2 ^ (ev - eu)).
    { replace (ev - eu) with (1 + (ev - eu - 1)) by lia. rewrite Z.pow_add_r by lia.
      pose proof (Z.pow_pos_nonneg 2 (ev - eu - 1)). lia. }
    nia.
Qed.

Lemma magnitude_compare u v :
  0 <= u → 0 <= v → Z.compare (magnitude u) (magnitude v) = Z.compare u v.
Proof.
  intros. destruct (Z.compare_spec u v) as [->|H1|H1].
  - apply Z.compare_refl.
  - apply Z.compare_lt_iff, magnitude_mono. lia.
  - apply Z.compare_gt_iff, magnitude_mono. lia.
Qed.

Lemma magnitude_pos u : 0 < u → 0 < magnitude u.
Proof. intros. apply (magnitude_mono 0). lia. Qed.

Lemma f64_scaled_eq x :
  f64_scaled x = (if f64_sign x then -1 else 1) * magnitude (to_bits x mod 2 ^ 63).
Proof.
  pose proof (to_bits_bound x) as Hb. unfold f64_scaled, f64_signed, f64_mantissa, f64_exponent, magnitude.
  assert (to_bits x mod 2 ^ 63 / 2 ^ 52 = f64_exp x) as ->.
  { unfold f64_exp. change (2 ^ 63) with (2 ^ 52 * 2 ^ 11). 
    rewrite Z.rem_mul_r by lia. rewrite Z.mul_comm, Z.div_add by lia.
    rewrite Z.div_small by (apply Z.mod_pos_bound; lia). lia. }
  assert ((to_bits x mod 2 ^ 63) mod 2 ^ 52 = f64_frac x) as ->.
  { unfold f64_frac. change (2 ^ 63) with (2 ^ 52 * 2 ^ 11). rewrite Z.rem_mul_r by lia.
    rewrite Z.mul_comm, Z.mod_add by lia. apply Z.mod_small, Z.mod_pos_bound. lia. }
  destruct (Z.eqb_spec (f64_exp x) 0); destruct (f64_sign x).
  all: try (replace (-1074 + 1074) with 0 by lia; lia).
  all: replace (f64_exp x - 1075 + 1074) with (f64_exp x - 1) by lia; lia.
Qed.

(** Canonical scores: what [Score::new] lets through. *)
(** What every [Score] satisfies: it is a number, and its zero is positive. *)
Definition score_ok (s : f64) : Prop := is_nan s = false ∧ (is_zero s = true → s = f64_zero).

Lemma Score_new_canonical x a : Score_new x = Some a → score_ok a.
Proof.
  unfold Score_new, score_ok.
  destruct (is_nan x) eqn:Hn; [done|]. destruct (is_zero x) eqn:Hz; intros [= <-].
  - done.
  - split; [done|congruence].
Qed.

Lemma sign_bits x : to_bits x mod 2 ^ 63 = if f64_sign x then to_bits x - 2 ^ 63 else to_bits x.
Proof.
  pose proof (to_bits_bound x). unfold f64_sign. destruct (Z.leb_spec (2 ^ 63) (to_bits x)).
  - symmetry. apply Z.mod_unique with 1; lia.
  - apply Z.mod_small. lia.
Qed.

Lemma Score_eq_iff a b : score_ok a → score_ok b → (Score_eq a b = true ↔ a = b).
Proof.
  intros [Hna Hza] [Hnb Hzb]. unfold Score_eq, f64_eqb. rewrite Hna, Hnb. simpl.
  rewrite orb_true_iff, Z.eqb_eq, andb_true_iff.
  split; [intros [?|[Ha Hb]]|intros ->; auto].
  - by apply f64_ext.
  - by rewrite (Hza Ha), (Hzb Hb).
Qed.

(** Scores are ordered by value: on everything [Score::new] accepts, the
    order of the sorted-set index is the order of the exact numeric values, and
    two scores are equal for [==] exactly when the order does not separate them
    and exactly when they have the same bits. *)
Theorem score_order x y a b :
  Score_new x = Some a → Score_new y = Some b →
  Score_cmp a b = Z.compare (f64_scaled a) (f64_scaled b) ∧
  (Score_eq a b = true ↔ Score_cmp a b = Eq) ∧ (Score_eq a b = true ↔ a = b).
Proof.
  intros Ha%Score_new_canonical Hb%Score_new_canonical. pose proof (Score_eq_iff a b Ha Hb) as Heq.
  destruct Ha as [Hna Hza], Hb as [Hnb Hzb].
  split; [|split; [rewrite Heq; symmetry; apply cmp_eq|done]].
  unfold Score_cmp, total_cmp. rewrite !total_key_eq, !f64_scaled_eq, !sign_bits.
  pose proof (to_bits_bound a) as Ba. pose proof (to_bits_bound b) as Bb.
  assert (∀ c, (is_zero c = true → c = f64_zero) → f64_sign c = true → 2 ^ 63 < to_bits c) as Hneg.
  { intros c Hc Hs. pose proof Hs as Hs'. unfold f64_sign in Hs. apply Z.leb_le in Hs.
    destruct (Z.eq_dec (to_bits c) (2 ^ 63)) as [E|]; [|lia].
    assert (is_zero c = true) as Hz by (unfold is_zero; by rewrite E).
    rewrite (Hc Hz) in Hs'. done. }
  specialize (Hneg a Hza) as Na. specialize (Hneg b Hzb) as Nb.
  unfold f64_sign in *. destruct (Z.leb_spec (2 ^ 63) (to_bits a)), (Z.leb_spec (2 ^ 63) (to_bits b)).
  - replace (-1 * magnitude (to_bits a - 2 ^ 63)) with (- magnitude (to_bits a - 2 ^ 63)) by lia.
    replace (-1 * magnitude (to_bits b - 2 ^ 63)) with (- magnitude (to_bits b - 2 ^ 63)) by lia.
    rewrite Z.compare_opp, magnitude_compare by lia.
    destruct (Z.compare_spec (to_bits b - 2 ^ 63) (to_bits a - 2 ^ 63));
      destruct (Z.compare_spec (2 ^ 63 - 1 - to_bits a) (2 ^ 63 - 1 - to_bits b)); (done || lia).
  - specialize (Na eq_refl). pose proof (magnitude_pos (to_bits a - 2 ^ 63) ltac:(lia)).
    assert (0 <= magnitude (to_bits b)).
    { destruct (Z.eq_dec (to_bits b) 0) as [->|]; [done|]. pose proof (magnitude_pos (to_bits b)). lia. }
    transitivity Lt; [|symmetry]; apply Z.compare_lt_iff; lia.
  - specialize (Nb eq_refl). pose proof (magnitude_pos (to_bits b - 2 ^ 63) ltac:(lia)).
    assert (0 <= magnitude (to_bits a)).
    { destruct (Z.eq_dec (to_bits a) 0) as [->|]; [done|]. pose proof (magnitude_pos (to_bits a)). lia. }
    transitivity Gt; [|symmetry]; apply Z.compare_gt_iff; lia.
  - rewrite !Z.mul_1_l. symmetry. apply magnitude_compare; lia.
Qed.

Lemma score_order_witness :
  Score_cmp (from_bits 0xbff8000000000000) (from_bits 0x3ff0000000000000)
  = Z.compare (f64_scaled (from_bits 0xbff8000000000000)) (f64_scaled (from_bits 0x3ff0000000000000)).
Proof.
  apply (score_order (from_bits 0xbff8000000000000) (from_bits 0x3ff0000000000000)); reflexivity.
Defined.

(** ** The power table *)

Definition power_ok (e : Z) : bool :=
  match power_index 10 e (power_guess e) with
  | Some index =>
      match POWERS !! Z.to_nat index with
      | Some (pf, pe) => (-60 <=? e + pe + 64) && (e + pe + 64 <=? -32) && (2 ^ 63 <=? pf) && (pf <? 2 ^ 64)
      | None => false
      end
  | None => false
  end.

Lemma power_ok_range : forallb power_ok (seqZ (-1137) 2098) = true.
Proof. vm_compute. reflexivity. Qed.

Lemma mantissa_range x : is_finite x = true → is_zero x = false → 1 <= f64_mantissa x < 2 ^ 53.
Proof.
  intros Hf Hz. pose proof (to_bits_bound x) as Hb.
  pose proof (Z.mod_pos_bound (to_bits x) (2 ^ 52) ltac:(lia)) as Hfr. fold (f64_frac x) in Hfr.
  unfold f64_mantissa. destruct (Z.eqb_spec (f64_exp x) 0) as [E|]; [|lia]. split; [|lia].
  destruct (Z.eq_dec (f64_frac x) 0) as [E0|]; [|lia]. exfalso.
  assert (f64_scaled x = 0) as Hs
    by (unfold f64_scaled, f64_signed, f64_mantissa; rewrite E, E0; by destruct (f64_sign x)).
  rewrite f64_scaled_eq in Hs. unfold is_zero in Hz. apply Z.eqb_neq in Hz.
  pose proof (Z.mod_pos_bound (to_bits x) (2 ^ 63) ltac:(lia)).
  pose proof (magnitude_pos (to_bits x mod 2 ^ 63) ltac:(lia)). destruct (f64_sign x); lia.
Qed.

Lemma fp_upper_exponent x :
  is_finite x = true → is_zero x = false → -1137 <= exponent (fp_upper (fp_of x)) < 961.
Proof.
  intros Hf Hz. pose proof (to_bits_bound x) as Hb.
  assert (0 <= f64_exp x < 2047) as He.
  { unfold is_finite in Hf. pose proof (Z.mod_pos_bound (to_bits x / 2 ^ 52) (2 ^ 11) ltac:(lia)).
    unfold f64_exp in *. lia. }
  pose proof (mantissa_range x Hf Hz) as Hm.
  unfold fp_upper, normalize, fp_of. cbn [exponent fraction].
  rewrite Z.shiftl_mul_pow2 by lia.
  assert (-1074 <= f64_exponent x <= 971) by (unfold f64_exponent; destruct (Z.eqb_spec (f64_exp x) 0); lia).
  unfold leading_zeros. destruct (Z.eqb_spec (f64_mantissa x * 2 ^ 1 + 1) 0); [lia|].
  assert (1 <= Z.log2 (f64_mantissa x * 2 ^ 1 + 1) < 54).
  { split; [apply Z.log2_le_pow2; lia|apply Z.log2_lt_pow2; lia]. }
  lia.
Qed.

Lemma power_search e :
  -1137 <= e < 961 →
  ∃ index pf pe, power_index 10 e (power_guess e) = Some index ∧
    POWERS !! Z.to_nat index = Some (pf, pe) ∧ 2 ^ 63 <= pf < 2 ^ 64 ∧ -60 <= e + pe + 64 <= -32.
Proof.
  intros He. pose proof power_ok_range as Hall. rewrite forallb_forall in Hall.
  specialize (Hall e). rewrite <- list_elem_of_In, elem_of_seqZ in Hall.
  specialize (Hall ltac:(lia)). unfold power_ok in Hall.
  destruct (power_index _ _ _) as [index|]; [|done].
  destruct (POWERS !! Z.to_nat index) as [[pf pe]|] eqn:Hp; [|done].
  exists index, pf, pe. rewrite !andb_true_iff in Hall. split_and!; (done || lia).
Qed.

(** For every positive finite score the digit generator finds its cached
    power of ten: the search stays inside the table, stops within its budget,
    and the selected power brings the scaled exponent into the range the digit
    loops require. *)
Theorem fpconv_power x :
  is_finite x = true → is_zero x = false →
  ∃ index pf pe,
    power_index 10 (exponent (fp_upper (fp_of x))) (power_guess (exponent (fp_upper (fp_of x)))) = Some index ∧
    POWERS !! Z.to_nat index = Some (pf, pe) ∧ 2 ^ 63 <= pf < 2 ^ 64 ∧
    -60 <= exponent (multiply (fp_upper (fp_of x)) {| fraction := pf; exponent := pe |}) <= -32.
Proof.
  intros Hf Hz. pose proof (fp_upper_exponent x Hf Hz) as He.
  apply (power_search _ He).
Qed.

Lemma fpconv_power_witness :
  ∃ index, power_index 10 (exponent (fp_upper (fp_of (from_bits 1)))) (power_guess (exponent (fp_upper (fp_of (from_bits 1))))) = Some index.
Proof.
  destruct (fpconv_power (from_bits 1) eq_refl eq_refl) as (index & _ & _ & H & _).
  exists index. exact H.
Defined.

(** ** Digit generation terminates *)

(** The text of a number under construction: digits, the last one [d]. *)
Definition last_digit (d : Z) (ds : bytes) : Prop :=
  ∃ rest, ds = zb (48 + d) :: rest ∧ 0 <= d <= 9 ∧ forallb is_digit rest = true.

Lemma zb_is_digit d : 0 <= d <= 9 → is_digit (zb (48 + d)) = true.
Proof. intros. unfold is_digit. rewrite bz_zb, Z.mod_small; lia. Qed.

Lemma last_digit_digits d ds : last_digit d ds → ds ≠ [] ∧ forallb is_digit ds = true.
Proof. intros (rest & -> & Hd & Hr). split; [done|]. simpl. by rewrite zb_is_digit, Hr. Qed.

Lemma last_digit_pred d ds last rest :
  last_digit d ds → ds = last :: rest → 1 <= d → last_digit (d - 1) (zb (bz last - 1) :: rest).
Proof.
  intros (rest' & -> & Hd & Hr) [= <- <-] H1. exists rest'. split_and!; [|lia..|done].
  rewrite bz_zb, Z.mod_small by lia. do 2 f_equal. lia.
Qed.

(** A digit is pushed unless it is a leading zero. *)
Lemma push_digit_last d ds :
  0 <= d <= 9 → forallb is_digit ds = true → d ≠ 0 ∨ ds ≠ [] → last_digit d (push_digit d ds).
Proof.
  intros Hd Hds Hne. exists ds. unfold push_digit.
  rewrite (proj2 (orb_true_iff _ _)); [done|]. rewrite !negb_true_iff, Z.eqb_neq, bool_decide_eq_false.
  done.
Qed.
Lemma push_digit_digits d ds :
  0 <= d <= 9 → forallb is_digit ds = true → forallb is_digit (push_digit d ds) = true.
Proof.
  intros Hd Hds. unfold push_digit. destruct (_ || _); [|done]. simpl. by rewrite zb_is_digit, Hds.
Qed.

Lemma round_digits_total fuel ds d delta remainder unit distance :
  d <= Z.of_nat fuel → 0 < unit → 0 <= remainder <= delta → delta < 2 ^ 64 →
  delta <= d * unit + remainder → last_digit d ds →
  ∃ r, round_digits fuel ds delta remainder unit distance = Some r ∧ r ≠ [] ∧ forallb is_digit r = true.
Proof.
  revert ds d remainder. induction fuel as [|fuel IH]; intros ds d remainder Hf Hu Hr Hd Hb Hl;
    cbn [round_digits]; unfold wrap64; rewrite (Z.mod_small (delta - remainder)) by lia;
    destruct (_ && _) eqn:E;
    try (eexists; split; [done|]; by apply last_digit_digits in Hl).
  - apply andb_prop in E as [[_ E]%andb_prop _]. apply Z.leb_le in E. nia.
  - apply andb_prop in E as [[_ E]%andb_prop _]. apply Z.leb_le in E.
    assert (1 <= d) by nia. pose proof Hl as (rest & Eds & _). rewrite Eds.
    rewrite Z.mod_small by lia. apply (IH _ (d - 1)); [lia..|nia|].
    by eapply last_digit_pred.
Qed.

Lemma integer_digits_total n shift delta distance fractional integer decimal_power ds :
  0 <= shift → 0 <= delta → 0 <= fractional < 2 ^ shift → 0 <= integer < 10 ^ Z.of_nat n →
  integer * 2 ^ shift + fractional < 2 ^ 64 → delta < integer * 2 ^ shift + fractional →
  forallb is_digit ds = true →
  ∃ r, integer_digits n shift delta distance fractional integer (10 ^ Z.of_nat (pred n)) decimal_power ds
       = Some r ∧
       match r with
       | inl (ds, _) => ds ≠ [] ∧ forallb is_digit ds = true
       | inr ds => delta < fractional ∧ forallb is_digit ds = true
       end.
Proof.
  revert integer ds. induction n as [|n IH]; intros integer ds Hs Hd Hf Hi Hw Hr Hds;
    cbn [integer_digits].
  { eexists. split; [done|]. change (10 ^ Z.of_nat 0) with 1 in Hi.
    replace integer with 0 in Hr by lia. split; [lia|done]. }
  cbn [pred]. set (v := 10 ^ Z.of_nat n).
  assert (0 < v) by (apply Z.pow_pos_nonneg; lia).
  assert (integer < 10 * v) by (unfold v; rewrite Nat2Z.inj_succ, Z.pow_succ_r in Hi by lia; lia).
  pose proof (Z.div_mod integer v ltac:(lia)) as Hdm. pose proof (Z.mod_pos_bound integer v ltac:(lia)).
  assert (0 <= integer / v <= 9).
  { split; [apply Z.div_pos; lia|]. assert (integer / v < 10); [|lia].
    apply Z.div_lt_upper_bound; lia. }
  set (d := integer / v) in *. set (i := integer mod v) in *.
  assert (0 < 2 ^ shift) by (apply Z.pow_pos_nonneg; lia).
  replace (wrap64 (Z.shiftl i shift + fractional)) with (i * 2 ^ shift + fractional)
    by (rewrite Z.shiftl_mul_pow2 by lia; unfold wrap64; rewrite Z.mod_small; nia).
  destruct (Z.leb_spec (i * 2 ^ shift + fractional) delta) as [Hle|Hgt].
  - assert (d ≠ 0) by nia. unfold wrap64. rewrite Z.shiftl_mul_pow2, (Z.mod_small (v * _)) by nia.
    destruct (round_digits_total 10 (push_digit d ds) d delta (i * 2 ^ shift + fractional)
      (v * 2 ^ shift) distance) as (r & -> & Hne & Hrd); [lia|nia..| |].
    { apply push_digit_last; auto. }
    simpl. eexists. split; [done|]. done.
  - pose proof (push_digit_digits d ds ltac:(done) Hds) as Hpd. destruct n as [|n].
    { cbn [integer_digits]. eexists. split; [done|]. change v with 1 in *.
      replace i with 0 in * by lia. split; [lia|done]. }
    replace (v / 10) with (10 ^ Z.of_nat (pred (S n))).
    2:{ unfold v. rewrite Nat2Z.inj_succ, Z.pow_succ_r by lia. rewrite Z.mul_comm, Z.div_mul by lia. done. }
    apply IH; try done. nia.
Qed.

Lemma fraction_digits_total fuel shift distance fractional delta unit remaining decimal_power ds :
  0 <= shift <= 60 → 0 < delta <= fractional → fractional < 2 ^ shift →
  2 ^ shift <= delta * 10 ^ Z.of_nat fuel → forallb is_digit ds = true →
  ∃ ds' p, fraction_digits fuel shift (2 ^ shift) distance fractional delta unit remaining decimal_power ds
           = Some (ds', p) ∧ ds' ≠ [] ∧ forallb is_digit ds' = true.
Proof.
  revert fractional delta unit remaining ds.
  induction fuel as [|fuel IH]; intros fractional delta unit remaining ds Hs Hd Hf Hm Hds;
    cbn [fraction_digits]; [simpl in Hm; lia|].
  assert (2 ^ shift <= 2 ^ 60) by (apply Z.pow_le_mono_r; lia).
  assert (0 < 2 ^ shift) by (apply Z.pow_pos_nonneg; lia).
  assert (wrap64 (fractional * 10) = fractional * 10) as -> by (apply Z.mod_small; lia).
  assert (wrap64 (delta * 10) = delta * 10) as -> by (apply Z.mod_small; lia).
  replace (Z.land (fractional * 10) (2 ^ shift - 1)) with ((fractional * 10) mod 2 ^ shift).
  2:{ rewrite <- Z.land_ones by lia. f_equal. rewrite Z.ones_equiv. lia. }
  rewrite Z.shiftr_div_pow2 by lia.
  pose proof (Z.div_mod (fractional * 10) (2 ^ shift) ltac:(lia)) as Hdm.
  pose proof (Z.mod_pos_bound (fractional * 10) (2 ^ shift) ltac:(lia)).
  set (d := fractional * 10 / 2 ^ shift) in *. set (f := (fractional * 10) mod 2 ^ shift) in *.
  assert (0 <= d <= 9) by nia.
  destruct (Z.ltb_spec f (delta * 10)) as [Hlt|Hge].
  - assert (d ≠ 0) by nia.
    destruct (round_digits_total 10 (push_digit d ds) d (delta * 10) f (2 ^ shift)
      (wrap64 (distance * unit))) as (r & -> & Hr); [lia..|nia| |].
    { apply push_digit_last; auto. }
    simpl. eauto.
  - apply IH; try done; [lia..| |by apply push_digit_digits].
    rewrite Nat2Z.inj_succ, Z.pow_succ_r in Hm by lia. lia.
Qed.

(** The product with a power keeps the boundaries apart. *)
Lemma multiply_gap u l p :
  2 ^ 63 <= u < 2 ^ 64 → 0 <= l → l + 1536 <= u → 2 ^ 63 <= p < 2 ^ 64 →
  let u' := wrap64 (Z.shiftr (u * p + 2 ^ 63) 64) in
  let l' := wrap64 (Z.shiftr (l * p + 2 ^ 63) 64) in
  0 <= l' ∧ l' + 700 <= u' < 2 ^ 64.
Proof.
  intros Hu Hl Hg Hp. cbv zeta. rewrite !Z.shiftr_div_pow2 by lia. unfold wrap64.
  assert (0 <= (l * p + 2 ^ 63) / 2 ^ 64) by (apply Z.div_pos; nia).
  assert ((u * p + 2 ^ 63) / 2 ^ 64 < 2 ^ 64) by (apply Z.div_lt_upper_bound; nia).
  assert ((l * p + 2 ^ 63) / 2 ^ 64 + 700 <= (u * p + 2 ^ 63) / 2 ^ 64).
  { rewrite <- Z.div_add by lia. apply Z.div_le_mono; [lia|]. nia. }
  rewrite !Z.mod_small by lia. lia.
Qed.

Definition fp_lower (w : Fp) : Z :=
  let shift := if fraction w =? 2 ^ 52 then 2 else 1 in
  wrap64 (Z.shiftl (Z.shiftl (fraction w) shift - 1) (exponent w - shift - exponent (fp_upper w))).

Lemma fp_boundaries w :
  1 <= fraction w < 2 ^ 53 →
  2 ^ 63 <= fraction (fp_upper w) < 2 ^ 64 ∧ 0 <= fp_lower w ∧
  fp_lower w + 1536 <= fraction (fp_upper w).
Proof.
  destruct w as [f e]. unfold fp_lower, fp_upper, normalize. cbn [fraction exponent]. intros Hf.
  rewrite !(Z.shiftl_mul_pow2 f) by (destruct (f =? 2 ^ 52); lia).
  unfold leading_zeros. destruct (Z.eqb_spec (f * 2 ^ 1 + 1) 0); [lia|].
  pose proof (Z.log2_spec (f * 2 ^ 1 + 1) ltac:(lia)) as Hlog.
  assert (Z.log2 (f * 2 ^ 1 + 1) < 54) by (apply Z.log2_lt_pow2; lia).
  assert (1 <= Z.log2 (f * 2 ^ 1 + 1)) by (apply Z.log2_le_pow2; lia).
  set (k := Z.log2 (f * 2 ^ 1 + 1)) in *.
  assert (2 ^ 63 = 2 ^ k * 2 ^ (63 - k)) as E63 by (rewrite <- Z.pow_add_r by lia; f_equal; lia).
  rewrite Z.pow_succ_r in Hlog by lia.
  assert (2 ^ 10 <= 2 ^ (63 - k)) by (apply Z.pow_le_mono_r; lia).
  rewrite Z.shiftl_mul_pow2 by lia. unfold wrap64.
  rewrite (Z.mod_small ((f * 2 ^ 1 + 1) * _)) by nia. split; [nia|].
  destruct (Z.eqb_spec f (2 ^ 52)) as [->|Hne].
  - assert (k = 53) as -> by reflexivity.
    replace (e - 2 - (e - 1 - (63 - 53))) with 9 by lia. rewrite Z.shiftl_mul_pow2 by lia.
    rewrite Z.mod_small by lia. lia.
  - replace (e - 1 - (e - 1 - (63 - k))) with (63 - k) by lia.
    rewrite Z.shiftl_mul_pow2 by lia. rewrite Z.mod_small by nia. nia.
Qed.

Lemma digits_rev ds : ds ≠ [] ∧ forallb is_digit ds = true → rev ds ≠ [] ∧ forallb is_digit (rev ds) = true.
Proof.
  intros [Hne Hd]. split; [intros E%(f_equal (@rev byte)); by rewrite rev_involutive in E|].
  rewrite forallb_forall in *. intros b Hb. apply Hd. by apply in_rev.
Qed.

Lemma digits_total x :
  is_finite x = true → is_zero x = false →
  ∃ ds p, digits x = Some (ds, p) ∧ ds ≠ [] ∧ forallb is_digit ds = true.
Proof.
  intros Hfin Hz. pose proof (mantissa_range x Hfin Hz) as Hm.
  destruct (fp_boundaries (fp_of x) Hm) as (Hu & Hl & Hg).
  destruct (power_search _ (fp_upper_exponent x Hfin Hz)) as (index & pf & pe & Hi & Hp & Hpf & He).
  destruct (multiply_gap _ _ pf Hu Hl Hg Hpf) as [Hl' Hg'].
  unfold digits. rewrite Hi. cbn [mbind option_bind]. rewrite Hp. cbn [mbind option_bind].
  unfold multiply. cbn [fraction exponent]. fold (fp_lower (fp_of x)).
  set (u := wrap64 (Z.shiftr (fraction (fp_upper (fp_of x)) * pf + 2 ^ 63) 64)) in *.
  set (l := wrap64 (Z.shiftr (fp_lower (fp_of x) * pf + 2 ^ 63) 64)) in *.
  set (shift := - (exponent (fp_upper (fp_of x)) + pe + 64)).
  assert (32 <= shift <= 60) as Hs by lia. clearbody shift u l.
  assert (wrap64 (u - 1) = u - 1) as -> by (apply Z.mod_small; lia).
  assert (wrap64 (l + 1) = l + 1) as -> by (apply Z.mod_small; lia).
  assert (wrap64 (u - 1 - (l + 1)) = u - 1 - (l + 1)) as -> by (apply Z.mod_small; lia).
  rewrite (Z.shiftl_mul_pow2 1), Z.mul_1_l, (Z.shiftr_div_pow2 (u - 1)) by lia.
  replace (Z.land (u - 1) (2 ^ shift - 1)) with ((u - 1) mod 2 ^ shift).
  2:{ rewrite <- Z.land_ones by lia. f_equal. rewrite Z.ones_equiv. lia. }
  assert (2 ^ 32 <= 2 ^ shift) by (apply Z.pow_le_mono_r; lia).
  pose proof (Z.div_mod (u - 1) (2 ^ shift) ltac:(lia)) as Hdm.
  pose proof (Z.mod_pos_bound (u - 1) (2 ^ shift) ltac:(lia)) as Hmb.
  set (f := (u - 1) mod 2 ^ shift) in *. set (i := (u - 1) / 2 ^ shift) in *.
  assert (0 <= i) by (apply Z.div_pos; lia). assert (i < 2 ^ 32) by nia.
  destruct (integer_digits_total 10 shift (u - 1 - (l + 1))
    (wrap64 (u - 1 - wrap64 (Z.shiftr (fraction (normalize (fp_of x)) * pf + 2 ^ 63) 64))) f i
    (348 - index * 8) []) as (r & Hr & Hcase); [lia..|done|].
  change (10 ^ Z.of_nat (pred 10)) with 1000000000 in Hr. rewrite Hr. cbn [mbind option_bind].
  destruct r as [[ds p]|ds].
  - eexists _, _. split; [done|]. by apply digits_rev.
  - destruct Hcase as [Hlt Hds].
    destruct (fraction_digits_total 20 shift
      (wrap64 (u - 1 - wrap64 (Z.shiftr (fraction (normalize (fp_of x)) * pf + 2 ^ 63) 64))) f
      (u - 1 - (l + 1)) 10 0 (348 - index * 8) ds) as (ds' & p & -> & Hds'); [lia..| |done|].
    { assert (2 ^ shift <= 2 ^ 60) by (apply Z.pow_le_mono_r; lia).
      change (10 ^ Z.of_nat 20) with (10 ^ 20). lia. }
    eexists _, _. split; [done|]. by apply digits_rev.
Qed.

Lemma f64_abs_fields x : f64_exp (f64_abs x) = f64_exp x ∧ f64_frac (f64_abs x) = f64_frac x.
Proof.
  pose proof (Z.mod_pos_bound (to_bits x) (2 ^ 63) ltac:(lia)).
  unfold f64_exp, f64_frac, f64_abs, from_bits. cbn [to_bits].
  rewrite (Z.mod_small (_ mod _)) by lia.
  change (2 ^ 63) with (2 ^ 52 * 2 ^ 11). rewrite Z.rem_mul_r by lia.
  rewrite (Z.add_comm (_ mod _)), (Z.mul_comm (2 ^ 52)), Z.div_add_l by lia.
  pose proof (Z.mod_pos_bound (to_bits x) (2 ^ 52) ltac:(lia)).
  rewrite (Z.div_small (_ mod _)), Z.add_0_r, Z.mod_mod by lia. split; [done|].
  rewrite Z.add_comm, Z.mod_add, Z.mod_mod by lia. done.
Qed.

(** The bytes a score is written with. *)
Definition is_score_byte (b : byte) : bool := is_digit b || bool_decide (b ∈ lit ".-+einf").

Lemma score_bytes_digits ds : forallb is_digit ds = true → forallb is_score_byte ds = true.
Proof.
  rewrite !forallb_forall. intros Hd b Hb. unfold is_score_byte. by rewrite (Hd b Hb).
Qed.
Lemma score_bytes_sdec z : forallb is_score_byte (sdec z) = true.
Proof.
  unfold sdec. destruct (Z.ltb_spec z 0); cbn [forallb];
    rewrite (score_bytes_digits (udec _)); try done; apply udec_digits; lia.
Qed.
Lemma score_bytes_sub ds n :
  forallb is_score_byte ds = true →
  forallb is_score_byte (take n ds) = true ∧ forallb is_score_byte (drop n ds) = true.
Proof.
  intros H. rewrite <- (take_drop n ds), forallb_app in H. by apply andb_prop in H.
Qed.
Lemma score_bytes_zeros n : forallb is_score_byte (replicate n "0"%byte) = true.
Proof. induction n; simpl; [done|]. by rewrite IHn. Qed.

Lemma Score_to_bytes_total x :
  is_nan x = false →
  ∃ text, Score_to_bytes x = Some text ∧ text ≠ [] ∧ forallb is_score_byte text = true.
Proof.
  intros Hn. unfold Score_to_bytes. destruct (is_zero x) eqn:Hz; [by eexists|].
  destruct (is_infinite x) eqn:Hi; [eexists; split; [done|]; by destruct (f64_negative x)|].
  destruct (_ && _).
  { eexists. split; [done|]. split; [|apply score_bytes_sdec]. unfold sdec.
    destruct (Z.ltb_spec (f64_trunc x) 0); [done|]. by apply udec_nonempty. }
  destruct (f64_abs_fields x) as [Ee Ef].
  destruct (digits_total (f64_abs x)) as (ds & p & -> & Hne & Hd).
  { unfold is_finite, is_nan, is_infinite in *. rewrite Ee. destruct (_ =? 2047), (f64_frac x =? 0); done. }
  { unfold is_zero, f64_abs, from_bits in *. cbn [to_bits].
    pose proof (Z.mod_pos_bound (to_bits x) (2 ^ 63) ltac:(lia)).
    rewrite (Z.mod_small (_ mod _) (2 ^ 64)), Z.mod_mod by lia. done. }
  cbn [mbind option_bind]. eexists. split; [done|]. apply score_bytes_digits in Hd.
  split.
  { destruct ds as [|b ds]; [done|]. intros [_ E]%app_eq_nil. revert E.
    repeat case_match; simpl; try done. by intros [? ?]%app_eq_nil. }
  rewrite forallb_app. apply andb_true_intro. split; [by destruct (f64_negative x)|].
  repeat case_match; rewrite ?forallb_app, ?score_bytes_zeros, ?score_bytes_sdec, ?Hd; simpl;
    rewrite ?forallb_app, ?score_bytes_sdec, ?(proj1 (score_bytes_sub ds _ Hd)),
      ?(proj2 (score_bytes_sub ds _ Hd)); done.
Qed.


