(* ===== verification/Memory.v ===== *)
(** * Memory collections

    Models src/storage/memory.rs: descriptors, members, the resolved edits of a
    collection image, its cached byte counts, and the exact top-k search.  The
    sums behind the byte counts are exact; the subtractions of cached counts are
    checked, and [None] stands for their panic. *)

From Stdlib Require Import Strings.Byte Strings.String ZArith Lia.
From S2P Require Import Prelude Float Wire.

(** ** Data *)

(** [SetCondition] of src/command/mod.rs. *)
Inductive SetCondition := Always | Missing | Present.

Inductive Ttl := TtlPersistent | TtlKeep | TtlAfter (milliseconds : Z).

Definition MAX_DIMENSION : Z := 4096.
Definition MAX_MEMBERS : Z := 1024.
Definition MAX_COLLECTION_BYTES : Z := 8388608.
Definition MAX_COMPONENTS : Z := 1048576.
Definition MAX_SEARCH_K : Z := 128.
Definition MAX_EDITS : Z := 64.

Inductive MemoryError :=
| Argument | Dimension | NonFinite | Identity | Deadline | Quota | EditOrder | MissingMember.

Record Descriptor := {
  dimension : Z;
  provider : bytes;
  model : bytes;
  revision : bytes;
  transform : bytes
}.

Inductive Scalar :=
| ScalarBytes (value : bytes)
| ScalarInteger (value : Z)
| ScalarBool (value : bool).

Record Member := {
  m_id : bytes;
  m_namespace : bytes;
  m_content : bytes;
  m_vector : bytes;
  m_deadline : option Z;
  m_metadata : gmap bytes Scalar;
  m_provenance : gmap bytes bytes
}.

Inductive Operation :=
| MCreate (descriptor : Descriptor)
| MInfo
| MPut (descriptor : Descriptor) (member : Member) (ttl : Ttl) (condition : SetCondition)
| MGet (id : bytes)
| MDelete (id : bytes)
| MPttl (id : bytes)
| MExpire (id : bytes) (milliseconds : Z)
| MPersist (id : bytes)
| MSearch (descriptor : Descriptor) (vector : bytes) (k : Z) (namespace : bytes)
    (metadata : gmap bytes Scalar).

#[export] Instance SetCondition_eq_decision : EqDecision SetCondition.
Proof. solve_decision. Defined.
#[export] Instance Descriptor_eq_decision : EqDecision Descriptor.
Proof. solve_decision. Defined.
#[export] Instance Scalar_eq_decision : EqDecision Scalar.
Proof. solve_decision. Defined.
#[export] Instance Member_eq_decision : EqDecision Member.
Proof. solve_decision. Defined.

Definition command_name (o : Operation) : string :=
  match o with
  | MCreate _ => "MEM.CREATE"
  | MInfo => "MEM.INFO"
  | MPut _ _ _ _ => "MEM.PUT"
  | MGet _ => "MEM.GET"
  | MDelete _ => "MEM.DEL"
  | MPttl _ => "MEM.PTTL"
  | MExpire _ _ => "MEM.EXPIRE"
  | MPersist _ => "MEM.PERSIST"
  | MSearch _ _ _ _ _ => "MEM.SEARCH"
  end%string.

Definition Operation_writes_dataset (o : Operation) : bool :=
  match o with
  | MInfo | MGet _ | MPttl _ | MSearch _ _ _ _ _ => false
  | _ => true
  end.

(** ** Validation and sizes *)

Definition bounded (value : bytes) (minimum maximum : Z) : result MemoryError unit :=
  if (minimum <=? zlen value) && (zlen value <=? maximum) then Ok tt else Err Argument.

Definition Descriptor_validate (d : Descriptor) : result MemoryError unit :=
  _ ← guard_ok ((1 <=? dimension d) && (dimension d <=? MAX_DIMENSION)) Dimension;
  _ ← try_map (λ v, bounded v 1 256) [provider d; model d; revision d; transform d];
  Ok tt.

Definition descriptor_text (d : Descriptor) : Z :=
  zlen (provider d) + zlen (model d) + zlen (revision d) + zlen (transform d).
Definition Descriptor_logical_bytes (d : Descriptor) : Z := 256 + descriptor_text d.
Definition Descriptor_encoded_bytes (d : Descriptor) : Z := 26 + descriptor_text d.

Definition Scalar_logical_bytes (s : Scalar) : Z :=
  match s with ScalarBytes v => zlen v | ScalarInteger _ => 8 | ScalarBool _ => 1 end.
Definition Scalar_canonical_bytes (s : Scalar) : Z :=
  match s with ScalarBytes v => zlen v | ScalarInteger v => zlen (sdec v) | ScalarBool _ => 1 end.
Definition Scalar_encoded_bytes (s : Scalar) : Z :=
  match s with ScalarBytes v => 5 + zlen v | ScalarInteger _ => 9 | ScalarBool _ => 2 end.

(** [chunks_exact(4)]. *)
Fixpoint chunks4 (s : bytes) : list bytes :=
  match s with
  | a :: b :: c :: d :: s => [a; b; c; d] :: chunks4 s
  | _ => []
  end.
(** A finite IEEE-754 binary32 value. *)
Definition f32_finite (bits : Z) : bool := negb (Z.land bits 0x7f800000 =? 0x7f800000).

Definition scalar_bounded (s : Scalar) : result MemoryError unit :=
  match s with ScalarBytes v => bounded v 0 4096 | _ => Ok tt end.

(** The loops over metadata and provenance, with the aggregate size. *)
Definition metadata_step (aggregate : Z) (entry : bytes * Scalar) : result MemoryError Z :=
  let '(field, scalar) := entry in
  _ ← bounded field 1 64;
  _ ← scalar_bounded scalar;
  ok_or Argument (n ← u_add aggregate (zlen field); u_add n (Scalar_canonical_bytes scalar)).
Definition provenance_step (aggregate : Z) (entry : bytes * bytes) : result MemoryError Z :=
  let '(field, value) := entry in
  _ ← bounded field 1 64;
  _ ← bounded value 0 4096;
  ok_or Argument (n ← u_add aggregate (zlen field); u_add n (zlen value)).
Definition Member_validate (m : Member) (d : Descriptor) : result MemoryError unit :=
  _ ← Descriptor_validate d;
  _ ← bounded (m_id m) 1 256;
  _ ← bounded (m_namespace m) 0 256;
  _ ← bounded (m_content m) 0 65536;
  _ ← guard_ok (zlen (m_vector m) =? dimension d * 4) Dimension;
  _ ← guard_ok (forallb (λ c, f32_finite (le_value c)) (chunks4 (m_vector m))) NonFinite;
  _ ← guard_ok (match m_deadline m with Some t => 0 <? t | None => true end) Deadline;
  _ ← guard_ok ((Z.of_nat (size (m_metadata m)) <=? 32)
                && (Z.of_nat (size (m_provenance m)) <=? 16)) Argument;
  aggregate ← fold_ok metadata_step 0 (btree_iter (m_metadata m));
  aggregate ← fold_ok provenance_step aggregate (btree_iter (m_provenance m));
  guard_ok (aggregate <=? 32768) Argument.

Definition Member_logical_bytes (m : Member) : Z :=
  256 + zlen (m_id m) + zlen (m_namespace m) + zlen (m_content m) + zlen (m_vector m)
  + zsum_with (λ e, 64 + zlen e.1 + Scalar_logical_bytes e.2) (btree_iter (m_metadata m))
  + zsum_with (λ e, 64 + zlen e.1 + zlen e.2) (btree_iter (m_provenance m)).
Definition Member_encoded_bytes (m : Member) : Z :=
  33 + zlen (m_id m) + zlen (m_namespace m) + zlen (m_content m) + zlen (m_vector m)
  + zsum_with (λ e, 4 + zlen e.1 + Scalar_encoded_bytes e.2) (btree_iter (m_metadata m))
  + zsum_with (λ e, 8 + zlen e.1 + zlen e.2) (btree_iter (m_provenance m)).

(** ** Edits *)

Inductive Edit := Upsert (member : Member) | Remove (id : bytes).

Definition Edit_id (e : Edit) : bytes := match e with Upsert m => m_id m | Remove id => id end.
Definition Edit_encoded_bytes (e : Edit) : Z :=
  match e with Upsert m => 1 + Member_encoded_bytes m | Remove id => 5 + zlen id end.

(** [previous.is_some_and(|id| id >= next)]. *)
Definition not_after (previous : option bytes) (next : bytes) : bool :=
  match previous with Some id => bool_decide (cmp id next ≠ Lt) | None => false end.

Fixpoint validate_edits_loop (d : Descriptor) (previous : option bytes) (edits : list Edit)
    : result MemoryError unit :=
  match edits with
  | [] => Ok tt
  | edit :: edits =>
      _ ← bounded (Edit_id edit) 1 256;
      _ ← guard_ok (negb (not_after previous (Edit_id edit))) EditOrder;
      _ ← match edit with Upsert m => Member_validate m d | Remove _ => Ok tt end;
      validate_edits_loop d (Some (Edit_id edit)) edits
  end.
Definition validate_edits (d : Descriptor) (edits : list Edit) : result MemoryError unit :=
  _ ← Descriptor_validate d; validate_edits_loop d None edits.

(** ** Collections *)

Record Collection := {
  c_descriptor : Descriptor;
  c_members : gmap bytes Member;
  c_logical_bytes : Z;
  c_encoded_bytes : Z
}.

#[export] Instance Collection_eq_decision : EqDecision Collection.
Proof. solve_decision. Defined.

Definition Collection_new (d : Descriptor) : result MemoryError Collection :=
  _ ← Descriptor_validate d;
  Ok {| c_descriptor := d; c_members := ∅; c_logical_bytes := Descriptor_logical_bytes d;
        c_encoded_bytes := Descriptor_encoded_bytes d + 4 |}.

(** [members.len() * dimension] exceeds its bound or overflows. *)
Definition too_much_work (c : Collection) : bool :=
  let n := Z.of_nat (size (c_members c)) in
  (MAX_MEMBERS <? n)
  || match u_mul n (dimension (c_descriptor c)) with
     | Some work => MAX_COMPONENTS <? work
     | None => true
     end.

Definition validate_key (c : Collection) (key : bytes) : result MemoryError unit :=
  _ ← bounded key 1 256;
  guard_ok (negb (too_much_work c
                  || match (n ← u_add (c_logical_bytes c) 128; u_add n (zlen key)) with
                     | Some size => MAX_COLLECTION_BYTES <? size
                     | None => true
                     end)) Quota.

(** Adds the counts of a member and stores it. *)
Definition insert_member (c : Collection) (m : Member) : result MemoryError Collection :=
  logical ← ok_or Quota (u_add (c_logical_bytes c) (Member_logical_bytes m));
  encoded ← ok_or Quota (u_add (c_encoded_bytes c) (Member_encoded_bytes m));
  Ok {| c_descriptor := c_descriptor c; c_members := <[m_id m := m]> (c_members c);
        c_logical_bytes := logical; c_encoded_bytes := encoded |}.

Fixpoint from_members_loop (c : Collection) (previous : option bytes) (members : list Member)
    : result MemoryError Collection :=
  match members with
  | [] => Ok c
  | m :: members =>
      _ ← Member_validate m (c_descriptor c);
      _ ← guard_ok (negb (not_after previous (m_id m))) EditOrder;
      c ← insert_member c m;
      from_members_loop c (Some (m_id m)) members
  end.
Definition from_members (d : Descriptor) (members : list Member) (key : bytes)
    : result MemoryError Collection :=
  c ← Collection_new d;
  c ← from_members_loop c None members;
  _ ← validate_key c key;
  Ok c.

Definition retained_count (c : Collection) : Z := Z.of_nat (size (c_members c)).

Definition live_member (c : Collection) (id : bytes) (unix_ms : Z) : option Member :=
  opt_filter (λ m, match m_deadline m with Some t => unix_ms <? t | None => true end)
    (c_members c !! id).

(** Removing a present member subtracts its counts; [None] is the panic of an
    underflow. *)
Definition remove_member (c : Collection) (id : bytes) : option (Collection * bool) :=
  match c_members c !! id with
  | Some previous =>
      logical ← u_sub (c_logical_bytes c) (Member_logical_bytes previous);
      encoded ← u_sub (c_encoded_bytes c) (Member_encoded_bytes previous);
      Some ({| c_descriptor := c_descriptor c; c_members := delete id (c_members c);
               c_logical_bytes := logical; c_encoded_bytes := encoded |}, true)
  | None => Some (c, false)
  end.

Definition apply_edit (c : Collection) (edit : Edit) : option (result MemoryError Collection) :=
  '(c, present) ← remove_member c (Edit_id edit);
  Some (match edit with
        | Remove _ => if (present : bool) then Ok c else Err MissingMember
        | Upsert m => insert_member c m
        end).

Fixpoint apply_edits_loop (c : Collection) (edits : list Edit)
    : option (result MemoryError Collection) :=
  match edits with
  | [] => Some (Ok c)
  | edit :: edits =>
      r ← apply_edit c edit;
      match r with
      | Ok c => apply_edits_loop c edits
      | Err e => Some (Err e)
      end
  end.

Definition apply_edits (c : Collection) (d : Descriptor) (edits : list Edit) (key : bytes)
    : option (result MemoryError Collection) :=
  if negb (bool_decide (d = c_descriptor c)) then Some (Err Identity)
  else if MAX_EDITS <? zlen edits then Some (Err Argument)
  else match validate_edits d edits with
       | Err e => Some (Err e)
       | Ok _ =>
           r ← apply_edits_loop c edits;
           Some (candidate ← r; _ ← validate_key candidate key; Ok candidate)
       end.

Definition is_expired (m : Member) (unix_ms : Z) : bool :=
  match m_deadline m with Some t => t <=? unix_ms | None => false end.

Definition expired_edits (c : Collection) (unix_ms budget : Z) : list Edit :=
  (λ e, Remove e.1) <$>
    take (Z.to_nat (Z.min budget MAX_EDITS))
      (base.filter (λ e, is_expired e.2 unix_ms = true) (btree_iter (c_members c))).

(** ** Exact top-k search *)

(** [f32::from_le_bytes] of one coordinate, widened. *)
Definition coordinate (c : bytes) : f64 := f64_of_f32_bits (le_value c).

(** The squared distance, accumulated left to right. *)
Definition distance (query stored : bytes) : f64 :=
  fold_left (λ acc '(q, s),
    let delta := f64_sub (coordinate q) (coordinate s) in f64_add acc (f64_mul delta delta))
    (zip (chunks4 query) (chunks4 stored)) f64_zero.

(** A search hit, ordered by distance and then by id. *)
Definition SearchHit : Type := f64 * bytes.

(** A [BinaryHeap] as the list of its elements, largest first. *)
Fixpoint heap_push (h : SearchHit) (heap : list SearchHit) : list SearchHit :=
  match heap with
  | [] => [h]
  | x :: heap' => if decide (cmp_le h x) then x :: heap_push h heap' else h :: heap
  end.

Definition heap_offer (k : Z) (heap : list SearchHit) (candidate : SearchHit) : list SearchHit :=
  if zlen heap <? k then heap_push candidate heap
  else match heap with
       | worst :: rest =>
           if bool_decide (cmp candidate worst = Lt) then heap_push candidate rest else heap
       | [] => heap
       end.

Definition matches (namespace : bytes) (metadata : gmap bytes Scalar) (unix_ms : Z)
    (visible : Member → bool) (m : Member) : bool :=
  negb (is_expired m unix_ms) && visible m && bool_decide (m_namespace m = namespace)
  && forallb (λ e, bool_decide (m_metadata m !! e.1 = Some e.2)) (btree_iter metadata).

Definition validate_search_vector (c : Collection) (vector : bytes) : result MemoryError unit :=
  _ ← guard_ok (zlen vector =? dimension (c_descriptor c) * 4) Dimension;
  guard_ok (forallb (λ x, f32_finite (le_value x)) (chunks4 vector)) NonFinite.

(** [search_with_visibility_stats]: the hits, the visited members and the
    visited components. *)
Definition search_with_visibility_stats (c : Collection) (vector : bytes) (k : Z) (namespace : bytes)
    (metadata : gmap bytes Scalar) (unix_ms : Z) (visible : Member → bool)
    : result MemoryError (list (bytes * f64) * (Z * Z)) :=
  _ ← guard_ok ((1 <=? k) && (k <=? MAX_SEARCH_K)) Argument;
  _ ← bounded namespace 0 256;
  _ ← guard_ok (Z.of_nat (size metadata) <=? 32) Argument;
  _ ← try_map (λ e : bytes * Scalar, _ ← bounded e.1 1 64; scalar_bounded e.2) (btree_iter metadata);
  _ ← validate_search_vector c vector;
  _ ← guard_ok (negb (too_much_work c)) Quota;
  let members := (btree_iter (c_members c)).*2 in
  let '(top, components) :=
    fold_left (λ '(top, components) m,
      if matches namespace metadata unix_ms visible m
      then (heap_offer k top (distance vector (m_vector m), m_id m),
            components + zlen (zip (chunks4 vector) (chunks4 (m_vector m))))
      else (top, components)) members ([], 0) in
  Ok ((λ h, (h.2, h.1)) <$> rev top, (zlen members, components)).

Definition search (c : Collection) (vector : bytes) (k : Z) (namespace : bytes)
    (metadata : gmap bytes Scalar) (unix_ms : Z) : result MemoryError (list (bytes * f64)) :=
  r ← search_with_visibility_stats c vector k namespace metadata unix_ms (λ _, true);
  Ok r.1.
(** ** Well-formed collections *)

(** The counts of a collection are the exact sums, every member is filed under
    its id and valid for the descriptor. *)
Record collection_wf (c : Collection) : Prop := {
  cw_descriptor : Descriptor_validate (c_descriptor c) = Ok tt;
  cw_members : ∀ id m, c_members c !! id = Some m →
    m_id m = id ∧ Member_validate m (c_descriptor c) = Ok tt;
  cw_logical : c_logical_bytes c =
    Descriptor_logical_bytes (c_descriptor c) + map_zsum (λ _, Member_logical_bytes) (c_members c);
  cw_encoded : c_encoded_bytes c =
    Descriptor_encoded_bytes (c_descriptor c) + 4 + map_zsum (λ _, Member_encoded_bytes) (c_members c);
  cw_usize : c_logical_bytes c <= USIZE_MAX ∧ c_encoded_bytes c <= USIZE_MAX
}.

(** Bounds that [validate_key] adds for the key of the collection. *)
Definition within_quota (c : Collection) (key : bytes) : Prop :=
  1 <= zlen key <= 256 ∧ retained_count c <= MAX_MEMBERS ∧
  retained_count c * dimension (c_descriptor c) <= MAX_COMPONENTS ∧
  c_logical_bytes c + 128 + zlen key <= MAX_COLLECTION_BYTES.

(** The abstract effect of an edit on the member map. *)
Definition edit_members (ms : gmap bytes Member) (e : Edit) : gmap bytes Member :=
  match e with Upsert m => <[m_id m := m]> ms | Remove id => delete id ms end.

Lemma zsum_with_nonneg {A} (f : A → Z) l : (∀ x, 0 <= f x) → 0 <= zsum_with f l.
Proof. intros Hf. induction l as [|x l IH]; simpl; [done|]. specialize (Hf x). lia. Qed.

Lemma Member_bytes_nonneg m : 0 <= Member_logical_bytes m ∧ 0 <= Member_encoded_bytes m.
Proof.
  unfold Member_logical_bytes, Member_encoded_bytes.
  assert (∀ s, 0 <= Scalar_logical_bytes s ∧ 0 <= Scalar_encoded_bytes s)
    by (intros []; simpl; split; zlen_lia).
  split.
  - assert (0 <= zsum_with (λ e, 64 + zlen e.1 + Scalar_logical_bytes e.2) (btree_iter (m_metadata m))).
    { apply zsum_with_nonneg. intros [f s]. simpl. specialize (H s). zlen_lia. }
    assert (0 <= zsum_with (λ e, 64 + zlen e.1 + zlen e.2) (btree_iter (m_provenance m))).
    { apply zsum_with_nonneg. intros [f s]. simpl. zlen_lia. }
    zlen_lia.
  - assert (0 <= zsum_with (λ e, 4 + zlen e.1 + Scalar_encoded_bytes e.2) (btree_iter (m_metadata m))).
    { apply zsum_with_nonneg. intros [f s]. simpl. specialize (H s). zlen_lia. }
    assert (0 <= zsum_with (λ e, 8 + zlen e.1 + zlen e.2) (btree_iter (m_provenance m))).
    { apply zsum_with_nonneg. intros [f s]. simpl. zlen_lia. }
    zlen_lia.
Qed.

Lemma bounded_ok v a b u : bounded v a b = Ok u ↔ a <= zlen v <= b.
Proof. unfold bounded. destruct (_ && _) eqn:E, u; split; (done || lia). Qed.

Lemma Descriptor_validate_ok d :
  Descriptor_validate d = Ok tt ↔
  1 <= dimension d <= MAX_DIMENSION ∧ 1 <= zlen (provider d) <= 256 ∧ 1 <= zlen (model d) <= 256 ∧
  1 <= zlen (revision d) <= 256 ∧ 1 <= zlen (transform d) <= 256.
Proof.
  unfold Descriptor_validate. simpl. split.
  - intros Hd. inv_ok. rewrite ?guard_ok_ok, ?bounded_ok in *. lia.
  - intros (? & H1 & H2 & H3 & H4).
    assert (∀ v, 1 <= zlen v <= 256 → bounded v 1 256 = Ok tt) as Hb by (intros; by apply bounded_ok).
    rewrite !Hb by done. unfold guard_ok. destruct (_ && _) eqn:E; [done|lia].
Qed.

Lemma collection_new_wf d c :
  Collection_new d = Ok c → collection_wf c ∧ c_descriptor c = d ∧ c_members c = ∅.
Proof.
  unfold Collection_new. intros Hc. apply bind_ok in Hc as ([] & Hd & [= <-]). split; [|done].
  apply Descriptor_validate_ok in Hd as Hd'.
  split; simpl; [done|by intros ?? ?%lookup_empty_Some|rewrite map_zsum_empty; lia..|].
  unfold Descriptor_logical_bytes, Descriptor_encoded_bytes, descriptor_text.
  unfold USIZE_MAX. lia.
Qed.

Lemma remove_member_wf c id :
  collection_wf c → ∃ c', remove_member c id = Some (c', bool_decide (is_Some (c_members c !! id))) ∧
    collection_wf c' ∧ c_descriptor c' = c_descriptor c ∧ c_members c' = delete id (c_members c).
Proof.
  intros []. unfold remove_member. destruct (c_members c !! id) as [m|] eqn:E.
  - pose proof (map_zsum_delete (λ _, Member_logical_bytes) _ _ _ E) as Hl.
    pose proof (map_zsum_delete (λ _, Member_encoded_bytes) _ _ _ E) as He.
    assert (0 <= map_zsum (λ _, Member_logical_bytes) (delete id (c_members c)))
      by (apply map_zsum_nonneg; intros; apply Member_bytes_nonneg).
    assert (0 <= map_zsum (λ _, Member_encoded_bytes) (delete id (c_members c)))
      by (apply map_zsum_nonneg; intros; apply Member_bytes_nonneg).
    pose proof (Member_bytes_nonneg m) as [? ?].
    unfold Descriptor_logical_bytes, Descriptor_encoded_bytes, descriptor_text in *.
    unfold u_sub. rewrite !usize_checked_ok by zlen_lia. simpl. eexists. split.
    { done. }
    split; [|done]. split; simpl; [done| |unfold Descriptor_logical_bytes, Descriptor_encoded_bytes, descriptor_text; lia..|lia].
    intros id' m' [_ Hm]%lookup_delete_Some. by apply cw_members0.
  - eexists. split; [done|]. rewrite delete_id by done. by split; [split|].
Qed.

Lemma insert_member_wf c m r :
  collection_wf c → Member_validate m (c_descriptor c) = Ok tt → c_members c !! m_id m = None →
  insert_member c m = Ok r →
  collection_wf r ∧ c_descriptor r = c_descriptor c ∧ c_members r = <[m_id m := m]> (c_members c).
Proof.
  intros [] Hm Hnone Hr. unfold insert_member in Hr. inv_ok. subst. split; [|done].
  split; simpl; [done| |rewrite map_zsum_insert by done; lia..|lia].
  intros id' m' [[<- <-]|[_ ?]]%lookup_insert_Some; [done|]. by apply cw_members0.
Qed.

Lemma validate_key_ok c key :
  validate_key c key = Ok tt → 0 <= c_logical_bytes c → within_quota c key.
Proof.
  unfold validate_key, too_much_work, within_quota, retained_count. intros Hk Hl.
  apply bind_ok in Hk as ([] & Hb%bounded_ok & Hk). rewrite guard_ok_ok, negb_true_iff, !orb_false_iff in Hk.
  destruct Hk as [[Hn Hw] Hs]. apply Z.ltb_ge in Hn.
  destruct (u_mul _ _) as [work|] eqn:Ew; [|done]. apply usize_checked_Some in Ew as [-> ?].
  destruct (n ← u_add (c_logical_bytes c) 128; u_add n (zlen key)) as [size|] eqn:Es; [|done].
  apply bind_Some in Es as (n & Hn1 & Hn2).
  apply usize_checked_Some in Hn1 as [-> ?]. apply usize_checked_Some in Hn2 as [-> ?]. lia.
Qed.

Lemma collection_logical_pos c : collection_wf c → 0 <= c_logical_bytes c.
Proof.
  intros []. rewrite cw_logical0. unfold Descriptor_logical_bytes, descriptor_text.
  pose proof (map_zsum_nonneg (λ _ : bytes, Member_logical_bytes) (c_members c)
    ltac:(intros; apply Member_bytes_nonneg)). zlen_lia.
Qed.

(** The bounds of [validate_key] are exact. *)
Lemma validate_key_quota c key : collection_wf c → within_quota c key → validate_key c key = Ok tt.
Proof.
  intros Hc (Hk & Hn & Hw & Hs). pose proof (collection_logical_pos c Hc) as Hl.
  destruct (proj1 (Descriptor_validate_ok _) (cw_descriptor _ Hc)) as [Hd _].
  unfold validate_key. rewrite (proj2 (bounded_ok _ _ _ tt)) by lia. cbn [mbind result_bind].
  assert (MAX_COLLECTION_BYTES <= USIZE_MAX) by done. assert (MAX_COMPONENTS <= USIZE_MAX) by done.
  pose proof (zlen_nonneg key). unfold retained_count in *. unfold too_much_work, u_mul, u_add.
  rewrite !usize_checked_ok by nia. cbn [mbind option_bind]. rewrite usize_checked_ok by lia.
  apply guard_ok_ok. rewrite negb_true_iff, !orb_false_iff, !Z.ltb_ge. lia.
Qed.

Definition edit_valid (d : Descriptor) (e : Edit) : Prop :=
  match e with Upsert m => Member_validate m d = Ok tt | Remove _ => True end.

Lemma validate_edits_loop_ok d previous edits :
  validate_edits_loop d previous edits = Ok tt →
  Forall (edit_valid d) edits ∧ StronglySorted cmp_lt (Edit_id <$> edits) ∧
  ∀ id, previous = Some id → Forall (cmp_lt id) (Edit_id <$> edits).
Proof.
  revert previous. induction edits as [|e edits IH]; intros previous; simpl.
  { intros _. split_and!; [by constructor|by constructor|by constructor]. }
  intros H. apply bind_ok in H as ([] & _ & H). apply bind_ok in H as ([] & Ho & H).
  apply bind_ok in H as ([] & Hm & H). destruct (IH _ H) as (Hv & Hs & Hf).
  specialize (Hf _ eq_refl). rewrite guard_ok_ok, negb_true_iff in Ho. split_and!.
  - constructor; [by destruct e|done].
  - by constructor.
  - intros id ->. simpl in Ho. apply bool_decide_eq_false in Ho. apply dec_stable in Ho.
    constructor; [done|]. eapply Forall_impl; [done|]. intros x Hx. by eapply cmp_trans.
Qed.

(** One edit: it never panics, fails only on a missing member or an overflow,
    and otherwise has its abstract effect. *)
Lemma apply_edit_ok c e :
  collection_wf c → edit_valid (c_descriptor c) e →
  ∃ r, apply_edit c e = Some r ∧
    ∀ c', r = Ok c' → collection_wf c' ∧ c_descriptor c' = c_descriptor c ∧
      c_members c' = edit_members (c_members c) e ∧
      ∀ id, e = Remove id → is_Some (c_members c !! id).
Proof.
  intros Hc He. destruct (remove_member_wf c (Edit_id e) Hc) as (c1 & Hr & Hc1 & Hd1 & Hm1).
  unfold apply_edit. rewrite Hr. simpl. eexists. split; [done|]. intros c' Hc'.
  destruct e as [m|id]; simpl in *.
  - destruct (insert_member_wf c1 m c') as (? & ? & Hm2); try done.
    + by rewrite Hd1.
    + by rewrite Hm1, lookup_delete_eq.
    + rewrite Hm2, Hm1, insert_delete_eq. split_and!; (done || congruence).
  - destruct (bool_decide _) eqn:Hb; [|done]. injection Hc' as <-.
    apply bool_decide_eq_true in Hb. split_and!; [done..|]. by intros ? [= <-].
Qed.

Lemma edit_members_other ms e id : Edit_id e ≠ id → edit_members ms e !! id = ms !! id.
Proof. destruct e; simpl; intros; [by rewrite lookup_insert_ne|by rewrite lookup_delete_ne]. Qed.

Lemma apply_edits_loop_ok c edits :
  collection_wf c → Forall (edit_valid (c_descriptor c)) edits →
  StronglySorted cmp_lt (Edit_id <$> edits) →
  ∃ r, apply_edits_loop c edits = Some r ∧
    ∀ c', r = Ok c' → collection_wf c' ∧ c_descriptor c' = c_descriptor c ∧
      c_members c' = fold_left edit_members edits (c_members c) ∧
      ∀ id, Remove id ∈ edits → is_Some (c_members c !! id).
Proof.
  revert c. induction edits as [|e edits IH]; intros c Hc Hv Hs; simpl.
  { eexists. split; [done|]. intros c' [= <-]. split_and!; [done..|]. by intros ? ?%not_elem_of_nil. }
  inversion Hv as [|? ? Hv1 Hv2]; subst. inversion Hs as [|? ? Hs2 Hs1]; subst.
  destruct (apply_edit_ok c e Hc Hv1) as ([c1|err] & -> & Hr); simpl; [|by eexists].
  destruct (Hr c1 eq_refl) as (Hc1 & Hd1 & Hm1 & Hrm).
  destruct (IH c1 Hc1) as (r & -> & Hr'); [by rewrite Hd1|done|].
  eexists. split; [done|]. intros c' ->. destruct (Hr' c' eq_refl) as (? & ? & Hm' & Hrm').
  split_and!; [done|congruence|by rewrite Hm', Hm1|].
  intros id [<-|Hin]%elem_of_cons; [by apply Hrm|].
  specialize (Hrm' id Hin). rewrite Hm1, edit_members_other in Hrm'; [done|].
  rewrite Forall_fmap, Forall_forall in Hs1. specialize (Hs1 _ Hin). simpl in Hs1.
  intros Heq. unfold cmp_lt in Hs1. by rewrite Heq, cmp_refl in Hs1.
Qed.

(** The shared fact behind [apply_edits_correct]. *)
Lemma apply_edits_ok c d edits key :
  collection_wf c →
  ∃ r, apply_edits c d edits key = Some r ∧
    ∀ c', r = Ok c' →
      collection_wf c' ∧ within_quota c' key ∧ c_descriptor c' = d ∧ c_descriptor c = d ∧
      c_members c' = fold_left edit_members edits (c_members c) ∧
      StronglySorted cmp_lt (Edit_id <$> edits) ∧
      ∀ id, Remove id ∈ edits → is_Some (c_members c !! id).
Proof.
  intros Hc. unfold apply_edits.
  destruct (bool_decide (d = c_descriptor c)) eqn:Hd; simpl; [|by eexists].
  apply bool_decide_eq_true in Hd. subst d. destruct (_ <? _); [by eexists|].
  destruct (validate_edits _ edits) as [[]|e] eqn:Hv; [|by eexists].
  unfold validate_edits in Hv. apply bind_ok in Hv as ([] & _ & Hv).
  destruct (validate_edits_loop_ok _ _ _ Hv) as (Hvs & Hs & _).
  destruct (apply_edits_loop_ok c edits Hc Hvs Hs) as ([c1|e] & -> & Hr); simpl; [|by eexists].
  destruct (Hr c1 eq_refl) as (Hc1 & ? & ? & ?).
  destruct (validate_key c1 key) as [[]|e] eqn:Hk; simpl; [|by eexists].
  eexists. split; [done|]. intros c' [= <-].
  split_and!; try done. apply validate_key_ok; [done|]. by apply collection_logical_pos.
Qed.


Definition sample_descriptor : Descriptor :=
  {| dimension := 1; provider := lit "p"; model := lit "m"; revision := lit "r"; transform := lit "t" |}.
Definition sample_member (name : string) (x : byte) : Member :=
  {| m_id := lit name; m_namespace := []; m_content := lit "c"; m_vector := [x00; x00; x; x3f];
     m_deadline := None; m_metadata := ∅; m_provenance := ∅ |}.


(** ** Restoring an image *)

Lemma insert_member_ok c m :
  collection_wf c → c_logical_bytes c + Member_logical_bytes m <= USIZE_MAX →
  c_encoded_bytes c + Member_encoded_bytes m <= USIZE_MAX → 
  insert_member c m = Ok {| c_descriptor := c_descriptor c;
    c_members := <[m_id m := m]> (c_members c);
    c_logical_bytes := c_logical_bytes c + Member_logical_bytes m;
    c_encoded_bytes := c_encoded_bytes c + Member_encoded_bytes m |}.
Proof.
  intros Hc ??. pose proof (collection_logical_pos c Hc). pose proof (Member_bytes_nonneg m).
  assert (0 <= c_encoded_bytes c).
  { destruct Hc. rewrite cw_encoded0. unfold Descriptor_encoded_bytes, descriptor_text.
    pose proof (map_zsum_nonneg (λ _ : bytes, Member_encoded_bytes) (c_members c)
      ltac:(intros; apply Member_bytes_nonneg)). zlen_lia. }
  unfold insert_member, u_add. by rewrite !usize_checked_ok by lia.
Qed.

Lemma collection_eq c c' :
  collection_wf c → collection_wf c' → c_descriptor c = c_descriptor c' →
  c_members c = c_members c' → c = c'.
Proof.
  intros [] [] Hd Hm. destruct c as [d ms lb eb], c' as [d' ms' lb' eb']. simpl in *. subst. done.
Qed.

Lemma from_members_loop_ok c previous ms :
  collection_wf c →
  Forall (λ m, Member_validate m (c_descriptor c) = Ok tt ∧ c_members c !! m_id m = None) ms →
  StronglySorted cmp_lt (m_id <$> ms) →
  (∀ id, previous = Some id → Forall (cmp_lt id) (m_id <$> ms)) →
  c_logical_bytes c + zsum_with Member_logical_bytes ms <= USIZE_MAX →
  c_encoded_bytes c + zsum_with Member_encoded_bytes ms <= USIZE_MAX →
  ∃ c', from_members_loop c previous ms = Ok c' ∧ collection_wf c' ∧ c_descriptor c' = c_descriptor c ∧
    c_members c' = list_to_map ((λ m, (m_id m, m)) <$> ms) ∪ c_members c.
Proof.
  revert c previous. induction ms as [|m ms IH]; intros c previous Hc Hv Hs Hp Hl He; simpl.
  { exists c. split_and!; try done. by rewrite map_empty_union. }
  inversion Hv as [|? ? [Hm Hn] Hv']; subst. inversion Hs as [|? ? Hs' Hlt]; subst. simpl in *.
  assert (∀ l, 0 <= zsum_with Member_logical_bytes l ∧ 0 <= zsum_with Member_encoded_bytes l) as Hpos
    by (intros l; split; apply zsum_with_nonneg; intros x; apply (Member_bytes_nonneg x)).
  pose proof (Hpos ms). rewrite Hm. simpl.
  assert (guard_ok (negb (not_after previous (m_id m))) EditOrder = Ok tt) as ->.
  { apply guard_ok_ok, negb_true_iff. destruct previous as [id|]; [|done]. simpl.
    specialize (Hp id eq_refl). inversion Hp; subst. apply bool_decide_false. auto. }
  simpl. rewrite insert_member_ok by (done || lia). simpl.
  destruct (insert_member_wf c m _ Hc Hm Hn (insert_member_ok c m Hc ltac:(lia) ltac:(lia)))
    as (Hc1 & Hd1 & Hm1).
  destruct (IH _ (Some (m_id m)) Hc1) as (c' & Hr & Hc' & Hd' & Hm').
  - rewrite Forall_fmap in Hlt. rewrite Forall_forall in Hv', Hlt |- *. intros x Hx.
    destruct (Hv' x Hx) as [? ?]. specialize (Hlt x Hx). rewrite Hd1, Hm1. split; [done|].
    rewrite lookup_insert_ne; [done|]. intros Heq. unfold cmp_lt in Hlt. simpl in Hlt.
    by rewrite Heq, cmp_refl in Hlt.
  - done.
  - by intros ? [= <-].
  - simpl. lia.
  - simpl. lia.
  - exists c'. split_and!; [done..|]. rewrite Hm'. simpl.
    rewrite <- insert_union_r, insert_union_l; [done|].
    apply not_elem_of_list_to_map_1. rewrite <- list_fmap_compose. simpl. intros Hin.
    rewrite Forall_forall in Hlt. specialize (Hlt _ Hin). unfold cmp_lt in Hlt. by rewrite cmp_refl in Hlt.
Qed.

Lemma fmap_id_on {A} (f : A → A) (l : list A) : (∀ x, x ∈ l → f x = x) → f <$> l = l.
Proof.
  induction l as [|x l IH]; intros Hf; [done|]. rewrite fmap_cons, Hf by constructor.
  f_equal. apply IH. intros y Hy. apply Hf. by constructor.
Qed.

Lemma zsum_with_fmap {A B} (f : B → Z) (g : A → B) (l : list A) : zsum_with f (g <$> l) = zsum_with (f ∘ g) l.
Proof. induction l as [|x l IH]; [done|]. rewrite fmap_cons. simpl. f_equal. exact IH. Qed.

Lemma list_to_map_iter {K V} `{Countable K} `{Cmp K} (m : gmap K V) : list_to_map (btree_iter m) = m.
Proof.
  rewrite <- (list_to_map_to_list m) at 2. apply list_to_map_proper; [apply btree_iter_NoDup|].
  apply btree_iter_perm.
Qed.

Lemma iter_members c :
  collection_wf c → (λ m, (m_id m, m)) <$> (btree_iter (c_members c)).*2 = btree_iter (c_members c).
Proof.
  intros []. rewrite <- list_fmap_compose. apply fmap_id_on. intros [id m] Hin%btree_iter_elem.
  simpl. f_equal. by apply cw_members0.
Qed.

Lemma from_members_iter c key :
  collection_wf c → validate_key c key = Ok tt →
  from_members (c_descriptor c) (btree_iter (c_members c)).*2 key = Ok c.
Proof.
  intros Hc Hk. pose proof Hc as []. unfold from_members, Collection_new. rewrite cw_descriptor0. simpl.
  pose proof (collection_new_wf (c_descriptor c) _ ltac:(unfold Collection_new; by rewrite cw_descriptor0))
    as (Hc0 & _ & _).
  set (ms := (btree_iter (c_members c)).*2).
  assert (m_id <$> ms = (btree_iter (c_members c)).*1) as Hids.
  { rewrite <- (iter_members c Hc). unfold ms. by rewrite <- !list_fmap_compose. }
  destruct (from_members_loop_ok _ None ms Hc0) as (c' & -> & Hc' & Hd' & Hm').
  - apply Forall_forall. intros m ([id m'] & -> & Hin)%list_elem_of_fmap. simpl.
    apply btree_iter_elem in Hin. split; [by apply (cw_members0 id)|done].
  - rewrite Hids. apply btree_iter_sorted.
  - done.
  - simpl. unfold ms. rewrite zsum_with_fmap. rewrite map_zsum_iter in cw_logical0.
    unfold compose. lia.
  - simpl. unfold ms. rewrite zsum_with_fmap. rewrite map_zsum_iter in cw_encoded0.
    unfold compose. lia.
  - simpl. assert (c' = c) as ->; [|by rewrite Hk]. apply collection_eq; [done..|].
    rewrite Hm'. simpl. rewrite map_union_empty. unfold ms. rewrite iter_members by done.
    apply list_to_map_iter.
Qed.

(** C32. A collection image survives a round trip through its member list: the
    members in key order rebuild exactly the same collection, counts included,
    whenever the collection is admissible for its key. *)
Theorem from_members_roundtrip c key :
  collection_wf c → validate_key c key = Ok tt →
  from_members (c_descriptor c) (btree_iter (c_members c)).*2 key = Ok c.
Proof. apply from_members_iter. Qed.

Lemma from_members_roundtrip_witness :
  ∃ c, Collection_new sample_descriptor = Ok c ∧ from_members sample_descriptor [] (lit "k") = Ok c.
Proof.
  destruct (Collection_new sample_descriptor) as [c|] eqn:Hc; [|discriminate].
  exists c. split; [reflexivity|]. destruct (collection_new_wf _ _ Hc) as (Hwf & Hd & Hm).
  pose proof (from_members_roundtrip c (lit "k") Hwf) as H. rewrite Hd, Hm in H.
  apply H. injection Hc as <-. vm_compute. reflexivity.
Defined.

(** ** Exact search *)

Lemma StronglySorted_app_2 {A} (R : A → A → Prop) l k :
  StronglySorted R l → StronglySorted R k → (∀ x y, x ∈ l → y ∈ k → R x y) → StronglySorted R (l ++ k).
Proof.
  intros Hl Hk Hlk. induction Hl as [|x l Hl IH Hx]; simpl; [done|]. constructor.
  - apply IH. intros. apply Hlk; [by constructor|done].
  - apply Forall_app. split; [done|]. apply Forall_forall. intros y Hy. apply Hlk; [constructor|done].
Qed.

Lemma StronglySorted_rev {A} (R : A → A → Prop) l :
  StronglySorted (λ x y, R y x) l → StronglySorted R (rev l).
Proof.
  induction 1 as [|x l Hl IH Hx]; simpl; [constructor|]. apply StronglySorted_app_2; [done|by repeat constructor|].
  intros y z Hy ->%list_elem_of_singleton. rewrite Forall_forall in Hx. apply Hx.
  by rewrite (Permutation_rev l).
Qed.

Definition cmp_ge (x y : SearchHit) : Prop := cmp_le y x.

Lemma heap_push_perm h heap : heap_push h heap ≡ₚ h :: heap.
Proof.
  induction heap as [|x heap IH]; simpl; [done|]. case_decide; [|done]. rewrite IH. constructor.
Qed.

Lemma heap_push_sorted h heap : StronglySorted cmp_ge heap → StronglySorted cmp_ge (heap_push h heap).
Proof.
  induction 1 as [|x heap Hs IH Hx]; simpl; [by repeat constructor|].
  case_decide as Hle.
  - constructor; [done|]. rewrite heap_push_perm. by constructor.
  - assert (cmp_ge h x) by (destruct (cmp_le_total h x); [done|done]).
    constructor; [by constructor|]. constructor; [done|]. eapply Forall_impl; [done|].
    intros y Hy. by apply (cmp_le_trans y x h).
Qed.

(** The heap holds the [k] least candidates seen. *)
Definition top_inv (k : Z) (seen heap : list SearchHit) : Prop :=
  StronglySorted cmp_ge heap ∧
  ∃ rest, seen ≡ₚ heap ++ rest ∧ (∀ x y, x ∈ heap → y ∈ rest → cmp_le x y) ∧
    (zlen heap = k ∨ zlen heap < k ∧ rest = []).

Lemma heap_offer_inv k seen heap c :
  1 <= k → top_inv k seen heap → top_inv k (seen ++ [c]) (heap_offer k heap c).
Proof.
  intros Hk (Hs & rest & Hp & Hle & Hlen). unfold heap_offer.
  destruct (Z.ltb_spec (zlen heap) k) as [Hlt|Hge].
  - destruct Hlen as [?|[_ ->]]; [lia|]. split; [by apply heap_push_sorted|]. exists [].
    rewrite app_nil_r in *. split_and!.
    + rewrite heap_push_perm, Hp. by rewrite Permutation_app_comm.
    + by intros ?? _ ?%not_elem_of_nil.
    + unfold zlen in *. rewrite (Permutation_length (heap_push_perm c heap)). simpl.
      destruct (decide (Z.of_nat (length heap) + 1 = k)); [left|right; split; [|done]]; lia.
  - assert (zlen heap = k) as Hk' by (destruct Hlen as [?|[? _]]; lia).
    destruct heap as [|worst heap]; [unfold zlen in *; simpl in *; lia|].
    apply StronglySorted_inv in Hs as [Hs Hw]. rewrite Forall_forall in Hw.
    assert (∀ x, x ∈ worst :: heap → cmp_le x worst) as Hmax.
    { intros x [->|Hx]%elem_of_cons; [by destruct (cmp_le_total worst worst)|by apply Hw]. }
    case_bool_decide as Hc.
    + split; [by apply heap_push_sorted|]. exists (worst :: rest). split_and!.
      * rewrite heap_push_perm, Hp, Permutation_app_comm. simpl. apply Permutation_skip.
        apply Permutation_middle.
      * intros x y Hx Hy. rewrite heap_push_perm in Hx.
        assert (cmp_le x worst) as Hxw.
        { apply elem_of_cons in Hx as [->|Hx]; [unfold cmp_le; by rewrite Hc|]. apply Hmax. by constructor. }
        apply elem_of_cons in Hy as [->|Hy]; [done|].
        eapply cmp_le_trans; [done|]. apply Hle; [by constructor|done].
      * left. rewrite <- Hk'. unfold zlen. by rewrite (Permutation_length (heap_push_perm c heap)).
    + split; [by constructor; [|rewrite Forall_forall]|]. exists (c :: rest). split_and!.
      * rewrite Hp. simpl. apply Permutation_skip. rewrite <- app_assoc.
        by rewrite (Permutation_app_comm rest).
      * intros x y Hx [->|Hy]%elem_of_cons; [|by apply Hle].
        eapply cmp_le_trans; [by apply Hmax|]. unfold cmp_le. rewrite (cmp_opp c worst).
        destruct (cmp c worst); simpl; congruence.
      * by left.
Qed.

Lemma top_inv_result k seen heap :
  0 <= k → top_inv k seen heap → rev heap = take (Z.to_nat k) (merge_sort cmp_le seen).
Proof.
  intros Hk (Hs & rest & Hp & Hle & Hlen).
  assert (merge_sort cmp_le seen = rev heap ++ merge_sort cmp_le rest) as ->.
  { apply (StronglySorted_unique cmp_le).
    - apply StronglySorted_merge_sort; apply _.
    - apply StronglySorted_app_2; [by apply StronglySorted_rev|apply StronglySorted_merge_sort; apply _|].
      intros x y Hx Hy. apply Hle; [by rewrite (Permutation_rev heap)|].
      by rewrite merge_sort_Permutation in Hy.
    - rewrite !merge_sort_Permutation, Hp. f_equiv. apply Permutation_rev. }
  destruct Hlen as [<-|[? ->]].
  - rewrite take_app_le; [|rewrite length_rev; unfold zlen; lia].
    rewrite take_ge; [done|]. rewrite length_rev. unfold zlen. lia.
  - simpl. rewrite app_nil_r, take_ge; [done|]. rewrite length_rev. unfold zlen in *. lia.
Qed.

(** The candidates of a search, in key order. *)
Definition candidates (c : Collection) (vector namespace : bytes) (metadata : gmap bytes Scalar)
    (unix_ms : Z) (visible : Member → bool) : list SearchHit :=
  (λ m, (distance vector (m_vector m), m_id m)) <$>
    base.filter (λ m, matches namespace metadata unix_ms visible m = true) (btree_iter (c_members c)).*2.

Lemma search_fold k vector namespace metadata unix_ms visible ms seen top comps :
  1 <= k → top_inv k seen top →
  ∃ top' comps', fold_left (λ '(top, components) m,
      if matches namespace metadata unix_ms visible m
      then (heap_offer k top (distance vector (m_vector m), m_id m),
            components + zlen (zip (chunks4 vector) (chunks4 (m_vector m))))
      else (top, components)) ms (top, comps) = (top', comps') ∧
    top_inv k (seen ++ ((λ m, (distance vector (m_vector m), m_id m)) <$>
      base.filter (λ m, matches namespace metadata unix_ms visible m = true) ms)) top'.
Proof.
  intros Hk. revert seen top comps. induction ms as [|m ms IH]; intros seen top comps Ht.
  { exists top, comps. split; [done|]. by rewrite app_nil_r. }
  rewrite filter_cons. simpl. destruct (matches _ _ _ _ m) eqn:Hm.
  - destruct (IH _ _ (comps + zlen (zip (chunks4 vector) (chunks4 (m_vector m))))
      (heap_offer_inv k seen top (distance vector (m_vector m), m_id m) Hk Ht)) as (top' & comps' & -> & Ht').
    exists top', comps'. split; [done|]. case_decide; [|congruence]. rewrite fmap_cons.
    by rewrite cons_middle, app_assoc.
  - destruct (IH _ _ comps Ht) as (top' & comps' & -> & Ht'). exists top', comps'. split; [done|].
    by case_decide.
Qed.

(** C24. The bounded-heap search is exact: whenever it accepts its arguments it
    returns the first [k] of all matching, unexpired, visible members in the
    order of their squared distance and then of their ids, and it reports every
    member as visited once. *)
Theorem search_exact c vector k namespace metadata unix_ms visible hits visits components :
  search_with_visibility_stats c vector k namespace metadata unix_ms visible
    = Ok (hits, (visits, components)) →
  1 <= k <= MAX_SEARCH_K ∧ visits = retained_count c ∧
  hits = (λ h, (h.2, h.1)) <$>
    take (Z.to_nat k) (merge_sort cmp_le (candidates c vector namespace metadata unix_ms visible)).
Proof.
  intros Hs. unfold search_with_visibility_stats in Hs.
  apply bind_ok in Hs as ([] & Hk & Hs). rewrite guard_ok_ok in Hk.
  do 5 apply bind_ok in Hs as (? & _ & Hs).
  destruct (search_fold k vector namespace metadata unix_ms visible (btree_iter (c_members c)).*2 [] [] 0)
    as (top' & comps' & Hf & Ht); [lia| |].
  { split; [constructor|]. exists []. split_and!; [done|by intros ?? ?%not_elem_of_nil|].
    right. split; [zlen_lia|done]. }
  rewrite Hf in Hs. injection Hs as <- <- <-. split_and!; [lia|lia| |].
  - unfold retained_count, zlen. rewrite length_fmap. f_equal.
    rewrite (Permutation_length (btree_iter_perm _)). apply length_map_to_list.
  - rewrite (top_inv_result k _ _ ltac:(lia) Ht). done.
Qed.

Definition sample_collection : Collection :=
  {| c_descriptor := sample_descriptor;
     c_members := <[lit "a" := sample_member "a" x80]> {[lit "b" := sample_member "b" x00]};
     c_logical_bytes := 784; c_encoded_bytes := 112 |}.

Lemma search_exact_witness :
  ∃ hits, search sample_collection [x00; x00; x00; x3f] 1 [] ∅ 0 = Ok hits ∧
    hits = (λ h, (h.2, h.1)) <$>
      take 1 (merge_sort cmp_le (candidates sample_collection [x00; x00; x00; x3f] [] ∅ 0 (λ _, true))).
Proof.
  assert (match search_with_visibility_stats sample_collection [x00; x00; x00; x3f] 1 [] ∅ 0 (λ _, true)
          with Ok _ => true | Err _ => false end = true) as Hok by (vm_compute; reflexivity).
  unfold search.
  destruct (search_with_visibility_stats sample_collection [x00; x00; x00; x3f] 1 [] ∅ 0 (λ _, true))
    as [[hits [v n]]|] eqn:Hs; [|discriminate].
  exists hits. split; [reflexivity|].
  exact (proj2 (proj2 (search_exact sample_collection _ 1 _ _ _ _ _ _ _ Hs))).
Defined.
