(* ===== verification/Command.v ===== *)
(** * Commands and replies

    Models src/command/mod.rs, the command types of src/command/collections.rs
    and src/command/sorted_set.rs, src/command/reply.rs, src/command/info.rs and
    the negotiation parsers of src/command/hello.rs. *)

From Stdlib Require Import Strings.Byte Strings.String ZArith Lia.
From S2P Require Import Prelude Float Score RespEncoder Memory.

(** ** Command types *)

(** A [Duration] of whole milliseconds. *)
Inductive SetExpiry := ExpiryPersistent | ExpiryKeep | ExpiryAfter (milliseconds : Z).

Record SetOptions := {
  condition : SetCondition;
  expiry : SetExpiry;
  return_previous : bool
}.

Inductive ExpiryUnit := Seconds | Milliseconds.

Inductive HashCommand :=
| HSet (entries : list (bytes * bytes))
| HGet (field : bytes)
| HDelete (fields : list bytes)
| HExists (field : bytes)
| HLen
| HGetAll.

Inductive ListCommand :=
| LPush (left : bool) (values : list bytes)
| LPop (left : bool)
| LLen
| LRange (start stop : Z).

Inductive SetCommand :=
| SAdd (members : list bytes)
| SRemove (members : list bytes)
| SIsMember (member : bytes)
| SCard
| SMembers.

Inductive SortedSetCommand :=
| ZAdd (entries : list (f64 * bytes))
| ZRemove (members : list bytes)
| ZCard
| ZScore (member : bytes)
| ZRange (start stop : Z) (with_scores : bool).

Inductive Command :=
| CMemory (key : bytes) (operation : Operation)
| CInfo (sections : Z)
| CSortedSet (key : bytes) (operation : SortedSetCommand)
| CSetCollection (key : bytes) (operation : SetCommand)
| CHash (key : bytes) (operation : HashCommand)
| CList (key : bytes) (operation : ListCommand)
| CPing (message : option bytes)
| CEcho (message : bytes)
| CGet (key : bytes)
| CSet (key value : bytes)
| CSetWithOptions (key value : bytes) (options : SetOptions)
| CDel (keys : list bytes)
| CExists (keys : list bytes)
| CIncr (key : bytes)
| CDecr (key : bytes)
| CMGet (keys : list bytes)
| CMSet (entries : list (bytes * bytes))
| CExpire (key : bytes) (value : Z) (unit : ExpiryUnit)
| CTtl (key : bytes) (milliseconds : bool)
| CPersist (key : bytes)
| CSubscribe (channels : list bytes)
| CUnsubscribe (channels : list bytes)
| CPublish (channel message : bytes)
| CMulti
| CExec
| CDiscard
| CWatch (keys : list bytes)
| CUnwatch.

(** [parse_decimal]: the canonical decimal text of an [i64]. *)
Definition is_nonzero_digit (b : byte) : bool := (49 <=? bz b) && (bz b <=? 57).
Definition parse_decimal (value : bytes) : option Z :=
  if bool_decide (value = lit "0") then Some 0
  else
    let digits := strip_minus value in
    if negb (match digits with b :: _ => is_nonzero_digit b | [] => false end)
       || negb (forallb is_digit digits) then None
    else
      let magnitude := dec_value digits in
      i64_checked (if bool_decide (digits = value) then magnitude else - magnitude).

Definition writes_dataset (c : Command) : bool :=
  match c with
  | CMemory _ operation => Operation_writes_dataset operation
  | CSet _ _ | CSetWithOptions _ _ _ | CDel _ | CIncr _ | CDecr _ | CMSet _ | CExpire _ _ _
  | CPersist _ => true
  | CHash _ operation => match operation with HSet _ | HDelete _ => true | _ => false end
  | CList _ operation => match operation with LPush _ _ | LPop _ => true | _ => false end
  | CSetCollection _ operation => match operation with SAdd _ | SRemove _ => true | _ => false end
  | CSortedSet _ operation => match operation with ZAdd _ | ZRemove _ => true | _ => false end
  | CPing _ | CInfo _ | CEcho _ | CGet _ | CExists _ | CMGet _ | CTtl _ _ | CSubscribe _
  | CUnsubscribe _ | CPublish _ _ | CMulti | CExec | CDiscard | CWatch _ | CUnwatch => false
  end.

(** The keys [visit_keys] visits, in order. *)
Definition visit_keys (c : Command) : list bytes :=
  match c with
  | CPing _ | CInfo _ | CEcho _ | CSubscribe _ | CUnsubscribe _ | CPublish _ _ => []
  | CMulti | CExec | CDiscard | CUnwatch => []
  | CWatch keys => keys
  | CGet key | CMemory key _ | CHash key _ | CList key _ | CSetCollection key _ | CSortedSet key _
  | CSet key _ | CSetWithOptions key _ _ | CIncr key | CDecr key | CExpire key _ _ | CTtl key _
  | CPersist key => [key]
  | CDel keys | CExists keys | CMGet keys => keys
  | CMSet entries => entries.*1
  end.

(** ** [INFO] sections *)

Definition SERVER : Z := 1.
Definition CLIENTS : Z := 2.
Definition STATS : Z := 4.
Definition MEMORY : Z := 8.
Definition PERSISTENCE : Z := 16.
Definition CONFIG : Z := 32.
Definition REPLICATION : Z := 64.
Definition ALL : Z := 127.

Definition section_bit (name : bytes) : Z :=
  let named (s : string) := eq_ignore_ascii_case name (lit s) in
  (if named "server" then SERVER
  else if named "clients" then CLIENTS
  else if named "stats" then STATS
  else if named "memory" then MEMORY
  else if named "persistence" then PERSISTENCE
  else if named "config" then CONFIG
  else if named "replication" then REPLICATION
  else if named "all" || named "default" || named "everything" then ALL
  else 0)%string.
Definition from_names (names : list bytes) : Z :=
  match names with
  | [] => ALL
  | _ => fold_left (λ selection name, Z.lor selection (section_bit name)) names 0
  end.
Definition contains (sections section : Z) : bool := negb (Z.land sections section =? 0).
Definition valid_name (name : bytes) : bool := negb (from_names [name] =? 0).

(** ** Replies *)

Inductive ExecutionError :=
| ReadOnly | CrossShard | WrongType | ExecInvalidInteger | IntegerOverflow | InvalidSetExpiry
| InvalidExpiry (name : string)
| OutOfMemory | AofRecordLimit
| ExecMemory (message : string)
| ConnectionOnly.

Definition ExecutionError_to_string (e : ExecutionError) : bytes :=
  match e with
  | ReadOnly => lit "READONLY You can't write against a read only replica."
  | CrossShard => lit "CROSSSLOT Keys in request don't hash to the same slot"
  | WrongType => lit "WRONGTYPE Operation against a key holding the wrong kind of value"
  | ExecInvalidInteger => lit "ERR value is not an integer or out of range"
  | IntegerOverflow => lit "ERR increment or decrement would overflow"
  | InvalidSetExpiry => lit "ERR invalid expire time in 'set' command"
  | InvalidExpiry name => lit "ERR invalid expire time in '" ++ lit name ++ lit "' command"
  | OutOfMemory => lit "OOM dataset memory quota exceeded"
  | AofRecordLimit => lit "ERR AOF record limit exceeded"
  | ExecMemory message => lit message
  | ConnectionOnly => lit "ERR command requires connection context"
  end.

Inductive Reply :=
| RPong
| ROk
| RBulk (value : option bytes)
| RInteger (value : Z)
| RArray (values : list Reply)
| RNullArray
| RError (error : ExecutionError).

Fixpoint Frame_from (reply : Reply) : Frame :=
  match reply with
  | RPong => Simple (lit "PONG")
  | ROk => Simple (lit "OK")
  | RBulk value => Bulk value
  | RInteger value => Integer value
  | RArray values => Array (Some (Frame_from <$> values))
  | RNullArray => Array None
  | RError error => Error (ExecutionError_to_string error)
  end.

Fixpoint resp3 (frame : Frame) : Frame :=
  match frame with
  | Bulk None | Array None => Null
  | Array (Some values) => Array (Some (resp3 <$> values))
  | frame => frame
  end.

Definition typed_resp3 (frame : Frame) (name : bytes) : Frame :=
  match frame with
  | Array (Some values) =>
      if bool_decide (name = lit "hgetall") then Map (resp3 <$> values)
      else if bool_decide (name = lit "smembers") then Set_ (resp3 <$> values)
      else resp3 frame
  | Bulk (Some value) => if bool_decide (name = lit "zscore") then Double value else resp3 frame
  | frame => resp3 frame
  end.

Definition push (frame : Frame) (protocol : Z) : Frame :=
  match frame with
  | Array (Some values) => if protocol =? 3 then Push (resp3 <$> values) else frame
  | frame => frame
  end.

(** [chunks_exact(2)] with the second element of each pair made a double. *)
Fixpoint score_pairs (values : list Frame) : list Frame :=
  match values with
  | member :: score :: values =>
      Array (Some [member; match score with Bulk (Some s) => Double s | other => other end])
      :: score_pairs values
  | _ => []
  end.

Definition command_resp3 (frame : Frame) (command : Command) : Frame :=
  match command with
  | CHash _ HGetAll => typed_resp3 frame (lit "hgetall")
  | CSetCollection _ SMembers => typed_resp3 frame (lit "smembers")
  | CSortedSet _ (ZScore _) => typed_resp3 frame (lit "zscore")
  | CSortedSet _ (ZRange _ _ true) =>
      match frame with
      | Array (Some values) => Array (Some (score_pairs values))
      | frame => resp3 frame
      end
  | _ => resp3 frame
  end.

(** ** Request errors and negotiation *)

Inductive RequestError :=
| InvalidFormat | UnsupportedHelloOptions | UnsupportedProtocolVersion | InvalidProtocolVersion
| UnknownCommand
| WrongArity (name : string)
| Syntax | ReqInvalidInteger | InvalidFloat | ReqInvalidSetExpiry
| ReqInvalidExpiry (name : string)
| ReqMemory (message : string).

Definition is_fatal (e : RequestError) : bool :=
  match e with InvalidFormat => true | _ => false end.

Definition into_frame (e : RequestError) : Frame :=
  Error match e with
        | ReqMemory message => lit message
        | InvalidFormat => lit "ERR invalid request format"
        | UnsupportedHelloOptions => lit "ERR unsupported HELLO options"
        | UnsupportedProtocolVersion => lit "NOPROTO unsupported protocol version"
        | InvalidProtocolVersion => lit "ERR Protocol version is not an integer or out of range"
        | UnknownCommand => lit "ERR unknown command"
        | WrongArity name => lit "ERR wrong number of arguments for '" ++ lit name ++ lit "' command"
        | Syntax => lit "ERR syntax error"
        | ReqInvalidInteger => lit "ERR value is not an integer or out of range"
        | InvalidFloat => lit "ERR value is not a valid float"
        | ReqInvalidSetExpiry => lit "ERR invalid expire time in 'set' command"
        | ReqInvalidExpiry name => lit "ERR invalid expire time in '" ++ lit name ++ lit "' command"
        end.

(** The payloads of an array of non-null bulk strings. *)
Definition bulk_payloads (frames : list Frame) : option (list bytes) :=
  mapM (λ f, match f with Bulk (Some value) => Some value | _ => None end) frames.

(** [bulk_arguments]: a non-empty array of non-null bulk strings. *)
Definition bulk_arguments (frame : Frame) : result RequestError (list bytes) :=
  match frame with
  | Array (Some (f :: frames)) => ok_or InvalidFormat (bulk_payloads (f :: frames))
  | _ => Err InvalidFormat
  end.

Definition parse_auth (frame : Frame) : result RequestError (bytes * bytes) :=
  parts ← bulk_arguments frame;
  match parts with
  | [_; username; password] => Ok (username, password)
  | _ => Err (WrongArity "auth")
  end.

Definition parse_version (version : bytes) : result RequestError Z :=
  if bool_decide (version = lit "2") then Ok 2
  else if bool_decide (version = lit "3") then Ok 3
  else match parse_decimal version with
       | Some _ => Err UnsupportedProtocolVersion
       | None => Err InvalidProtocolVersion
       end.

Definition parse_hello_auth (frame : Frame)
    : result RequestError (option Z * option (bytes * bytes)) :=
  parts ← bulk_arguments frame;
  version ← match parts !! 1%nat with
            | None => Ok None
            | Some version => v ← parse_version version; Ok (Some v)
            end;
  authentication ←
    match drop 2 parts with
    | [] => Ok None
    | option :: rest =>
        if negb (eq_ignore_ascii_case option (lit "AUTH")) then Err UnsupportedHelloOptions
        else match rest with
             | [username; password] => Ok (Some (username, password))
             | _ => Err Syntax
             end
    end;
  Ok (version, authentication).

Definition parse_hello (frame : Frame) : result RequestError (option Z) :=
  parts ← bulk_arguments frame;
  match parts with
  | [] => Err InvalidFormat
  | name :: rest =>
      if negb (eq_ignore_ascii_case name (lit "HELLO")) then Err UnknownCommand
      else match rest with
           | [] => Ok None
           | [version] => v ← parse_version version; Ok (Some v)
           | _ => Err UnsupportedHelloOptions
           end
  end.

(** ** Decimal text *)

Lemma nonzero_digit_iff b : is_nonzero_digit b = true ↔ digit_value b ≠ 0 ∧ is_digit b = true.
Proof. unfold is_nonzero_digit, is_digit, digit_value. lia. Qed.

Lemma parse_decimal_sdec z : I64_MIN <= z <= I64_MAX → parse_decimal (sdec z) = Some z.
Proof.
  intros Hz. unfold parse_decimal, sdec. destruct (Z.ltb_spec z 0) as [Hs|Hs].
  - destruct (udec_head (- z)) as (b & ds & E & Hb); [lia|].
    pose proof (udec_digits (- z) ltac:(lia)). pose proof (udec_value (- z) ltac:(lia)) as Hv.
    rewrite bool_decide_eq_false_2 by done. simpl strip_minus. rewrite bool_decide_eq_false_2.
    2:{ intros E'%(f_equal length). simpl in E'. lia. }
    rewrite H, Hv. rewrite E. replace (is_nonzero_digit b) with true by (symmetry; by apply nonzero_digit_iff).
    simpl. rewrite i64_checked_ok by lia. f_equal. lia.
  - case_bool_decide as E0.
    { f_equal. rewrite <- (udec_value z Hs). by rewrite E0. }
    destruct (Z.eq_dec z 0) as [->|]; [done|].
    destruct (udec_head z) as (b & ds & E & Hb); [lia|].
    assert (strip_minus (udec z) = udec z) as Es.
    { rewrite E. simpl. destruct Hb as [_ Hb]. destruct b; done. }
    pose proof (udec_digits z Hs) as Hd. pose proof (udec_value z Hs) as Hv.
    rewrite Es, Hd, Hv, bool_decide_eq_true_2, E by done.
    replace (is_nonzero_digit b) with true by (symmetry; by apply nonzero_digit_iff).
    simpl. by rewrite i64_checked_ok by lia.
Qed.

Lemma parse_decimal_inv s z : parse_decimal s = Some z → s = sdec z ∧ I64_MIN <= z <= I64_MAX.
Proof.
  unfold parse_decimal. case_bool_decide as E0; [intros [= <-]; subst; by split|].
  destruct (strip_minus s) as [|b ds] eqn:Es; [done|].
  destruct (is_nonzero_digit b) eqn:Eb; [|done]. apply nonzero_digit_iff in Eb as [Hb _].
  destruct (forallb is_digit (b :: ds)) eqn:Ed; simpl; [|done].
  destruct (udec_canonical _ _ _ eq_refl Hb Ed) as [Hpos Ec].
  intros [Ez Hr]%i64_checked_Some. split; [|subst; done]. unfold sdec.
  case_bool_decide as Eq; subst z; [subst s; destruct (Z.ltb_spec (dec_value (b :: ds)) 0); [lia|congruence]|].
  destruct (Z.ltb_spec (- dec_value (b :: ds)) 0); [|lia]. rewrite Z.opp_involutive, Ec, <- Es.
  destruct s as [|c s]; [done|]. by destruct c; rewrite <- Es in Eq.
Qed.

(** C33. [parse_decimal] accepts exactly the texts [i64::to_string] prints: a
    request argument denotes [z] if and only if it is the decimal text of [z]
    and [z] fits in an [i64].  No sign on zero, no leading zero, no [+]. *)
Theorem decimal_canonical s z :
  parse_decimal s = Some z ↔ s = sdec z ∧ I64_MIN <= z <= I64_MAX.
Proof.
  split; [apply parse_decimal_inv|]. intros [-> Hz]. by apply parse_decimal_sdec.
Qed.
