(* ===== verification/Parser.v ===== *)
(** * Request parsing

    Models [parse] of src/command/parser.rs with the option parser of SET, the
    collection commands of src/command/collections.rs, the sorted sets of
    src/command/sorted_set.rs and the memory grammar of src/command/memory.rs.
    The outer [option] of a result is a panic: an [unwrap] or an [unreachable!]
    that the code claims cannot happen. *)

From Stdlib Require Import Strings.Byte Strings.String ZArith Lia.
From S2P Require Import Prelude Float Wire Score RespEncoder Memory Command.

#[local] Open Scope string_scope.
#[local] Open Scope list_scope.
#[local] Open Scope Z_scope.

(** A parsed command, an error, or a panic. *)
Abbreviation parsed := (option (result RequestError Command)).

Definition named (name : bytes) (s : string) : bool := eq_ignore_ascii_case name (lit s).
Arguments named name s%_string_scope.
(** A match arm on the upper-cased name. *)
Definition is_name (name : bytes) (s : string) : bool := bool_decide (name = lit s).
Arguments is_name name s%_string_scope.

(** ** Collections *)

(** Arguments taken in pairs, as the [while let] loops do; a dangling one is an
    error. *)
Fixpoint pairs {E} (e : E) (args : list bytes) : result E (list (bytes * bytes)) :=
  match args with
  | [] => Ok []
  | [_] => Err e
  | a :: b :: args => rest ← pairs e args; Ok ((a, b) :: rest)
  end.

(** [args.next().ok_or(e)]. *)
Definition next_arg (e : RequestError) (args : list bytes) : result RequestError (bytes * list bytes) :=
  match args with [] => Err e | a :: args => Ok (a, args) end.

Definition parse_integer_arg (value : bytes) : result RequestError Z :=
  ok_or ReqInvalidInteger (parse_decimal value).

Definition sorted_set_arity (name : bytes) (n : Z) : option (string * bool) :=
  if is_name name "ZADD" then Some ("zadd", 3 <=? n)
  else if is_name name "ZREM" then Some ("zrem", 2 <=? n)
  else if is_name name "ZCARD" then Some ("zcard", n =? 1)
  else if is_name name "ZSCORE" then Some ("zscore", n =? 2)
  else if is_name name "ZRANGE" then Some ("zrange", 3 <=? n)
  else None.

(** The scores are parsed as the pairs are read. *)
Fixpoint zadd_entries (args : list bytes) : result RequestError (list (f64 * bytes)) :=
  match args with
  | [] => Ok []
  | score :: args =>
      score ← ok_or InvalidFloat (Score_parse score);
      match args with
      | [] => Err Syntax
      | member :: args => rest ← zadd_entries args; Ok ((score, member) :: rest)
      end
  end.

Definition sorted_set_operation (name : bytes) (canonical : string) (args : list bytes)
    : option (result RequestError SortedSetCommand) :=
  if is_name name "ZADD" then
    Some (if negb (zlen args mod 2 =? 0) then Err Syntax
          else entries ← zadd_entries args; Ok (ZAdd entries))
  else if is_name name "ZREM" then Some (Ok (ZRemove args))
  else if is_name name "ZCARD" then Some (Ok ZCard)
  else if is_name name "ZSCORE" then
    Some ('(member, _) ← next_arg (WrongArity canonical) args; Ok (ZScore member))
  else if is_name name "ZRANGE" then
    Some ('(start, args) ← next_arg (WrongArity canonical) args;
          start ← parse_integer_arg start;
          '(stop, args) ← next_arg (WrongArity canonical) args;
          stop ← parse_integer_arg stop;
          with_scores ← match args with
                        | [] => Ok false
                        | [option] => if named option "WITHSCORES" then Ok true else Err Syntax
                        | _ => Err Syntax
                        end;
          Ok (ZRange start stop with_scores))
  else None.

Definition parse_sorted_set (name : bytes) (args : list bytes) : parsed :=
  let name := ascii_upper <$> name in
  match sorted_set_arity name (zlen args) with
  | None => Some (Err UnknownCommand)
  | Some (canonical, valid) =>
      if negb valid then Some (Err (WrongArity canonical)) else
      match args with
      | [] => Some (Err (WrongArity canonical))
      | key :: args =>
          operation ← sorted_set_operation name canonical args;
          Some (operation ← operation; Ok (CSortedSet key operation))
      end
  end.

Definition collection_arity (name : bytes) (n : Z) : option (string * bool) :=
  if is_name name "HSET" then Some ("hset", (3 <=? n) && (n mod 2 =? 1))
  else if is_name name "HGET" then Some ("hget", n =? 2)
  else if is_name name "HDEL" then Some ("hdel", 2 <=? n)
  else if is_name name "HEXISTS" then Some ("hexists", n =? 2)
  else if is_name name "HLEN" then Some ("hlen", n =? 1)
  else if is_name name "HGETALL" then Some ("hgetall", n =? 1)
  else if is_name name "LPUSH" then Some ("lpush", 2 <=? n)
  else if is_name name "RPUSH" then Some ("rpush", 2 <=? n)
  else if is_name name "LPOP" then Some ("lpop", n =? 1)
  else if is_name name "RPOP" then Some ("rpop", n =? 1)
  else if is_name name "LLEN" then Some ("llen", n =? 1)
  else if is_name name "LRANGE" then Some ("lrange", n =? 3)
  else if is_name name "SADD" then Some ("sadd", 2 <=? n)
  else if is_name name "SREM" then Some ("srem", 2 <=? n)
  else if is_name name "SISMEMBER" then Some ("sismember", n =? 2)
  else if is_name name "SCARD" then Some ("scard", n =? 1)
  else if is_name name "SMEMBERS" then Some ("smembers", n =? 1)
  else None.

Definition set_operation (name : bytes) (canonical : string) (args : list bytes)
    : option (result RequestError SetCommand) :=
  if is_name name "SADD" then Some (Ok (SAdd args))
  else if is_name name "SREM" then Some (Ok (SRemove args))
  else if is_name name "SISMEMBER" then
    Some ('(member, _) ← next_arg (WrongArity canonical) args; Ok (SIsMember member))
  else if is_name name "SCARD" then Some (Ok SCard)
  else if is_name name "SMEMBERS" then Some (Ok SMembers)
  else None.

Definition list_operation (name : bytes) (canonical : string) (args : list bytes)
    : option (result RequestError ListCommand) :=
  let left := bool_decide (head name = Some "L"%byte) in
  if is_name name "LPUSH" || is_name name "RPUSH" then Some (Ok (LPush left args))
  else if is_name name "LPOP" || is_name name "RPOP" then Some (Ok (LPop left))
  else if is_name name "LLEN" then Some (Ok LLen)
  else if is_name name "LRANGE" then
    Some ('(start, args) ← next_arg (WrongArity canonical) args;
          start ← parse_integer_arg start;
          '(stop, args) ← next_arg (WrongArity canonical) args;
          stop ← parse_integer_arg stop;
          Ok (LRange start stop))
  else None.

Definition hash_operation (name : bytes) (canonical : string) (args : list bytes)
    : option (result RequestError HashCommand) :=
  if is_name name "HSET" then Some (entries ← pairs (WrongArity canonical) args; Ok (HSet entries))
  else if is_name name "HGET" then
    Some ('(field, _) ← next_arg (WrongArity canonical) args; Ok (HGet field))
  else if is_name name "HDEL" then Some (Ok (HDelete args))
  else if is_name name "HEXISTS" then
    Some ('(field, _) ← next_arg (WrongArity canonical) args; Ok (HExists field))
  else if is_name name "HLEN" then Some (Ok HLen)
  else if is_name name "HGETALL" then Some (Ok HGetAll)
  else None.

Definition parse_collection (name : bytes) (args : list bytes) : parsed :=
  if match name with b :: _ => bool_decide (ascii_lower b = "z"%byte) | [] => false end
  then parse_sorted_set name args
  else
    let name := ascii_upper <$> name in
    match collection_arity name (zlen args) with
    | None => Some (Err UnknownCommand)
    | Some (canonical, valid) =>
        if negb valid then Some (Err (WrongArity canonical)) else
        match args with
        | [] => Some (Err (WrongArity canonical))
        | key :: args =>
            first ← head name;
            if bool_decide (first = "S"%byte) then
              operation ← set_operation name canonical args;
              Some (operation ← operation; Ok (CSetCollection key operation))
            else if bool_decide (first = "L"%byte) || bool_decide (first = "R"%byte) then
              operation ← list_operation name canonical args;
              Some (operation ← operation; Ok (CList key operation))
            else
              operation ← hash_operation name canonical args;
              Some (operation ← operation; Ok (CHash key operation))
        end
    end.

(** ** Options of SET *)

Record SetScan := {
  s_options : SetOptions;
  s_duration : option bytes;
  s_unit : option bool
}.

Definition set_scan (c : SetCondition) (e : SetExpiry) (r : bool) (d : option bytes) (u : option bool)
    : SetScan :=
  {| s_options := {| condition := c; expiry := e; return_previous := r |};
     s_duration := d; s_unit := u |}.

#[export] Instance SetExpiry_eq_decision : EqDecision SetExpiry.
Proof. solve_decision. Defined.

Fixpoint parse_set_loop (args : list bytes) (s : SetScan) : result RequestError SetScan :=
  match args with
  | [] => Ok s
  | option :: args =>
      let c := condition (s_options s) in
      let e := expiry (s_options s) in
      let r := return_previous (s_options s) in
      if named option "NX" && negb (bool_decide (c = Present)) then
        parse_set_loop args (set_scan Missing e r (s_duration s) (s_unit s))
      else if named option "XX" && negb (bool_decide (c = Missing)) then
        parse_set_loop args (set_scan Present e r (s_duration s) (s_unit s))
      else if named option "GET" then
        parse_set_loop args (set_scan c e true (s_duration s) (s_unit s))
      else if named option "KEEPTTL" && bool_decide (s_duration s = None) then
        parse_set_loop args (set_scan c ExpiryKeep r (s_duration s) (s_unit s))
      else if (named option "EX" || named option "PX") && negb (bool_decide (e = ExpiryKeep)) then
        let seconds := named option "EX" in
        if match s_unit s with Some previous => negb (Bool.eqb previous seconds) | None => false end
        then Err Syntax
        else match args with
             | [] => Err Syntax
             | duration :: args =>
                 parse_set_loop args (set_scan c e r (Some duration) (Some seconds))
             end
      else Err Syntax
  end.

Definition parse_set_options (args : list bytes) : result RequestError SetOptions :=
  s ← parse_set_loop args (set_scan Always ExpiryPersistent false None None);
  match s_duration s with
  | None => Ok (s_options s)
  | Some value =>
      value ← parse_integer_arg value;
      millis ← (if bool_decide (s_unit s = Some true)
                then ok_or ReqInvalidSetExpiry (i_mul value 1000) else Ok value);
      if millis <=? 0 then Err ReqInvalidSetExpiry
      else Ok {| condition := condition (s_options s); expiry := ExpiryAfter millis;
                 return_previous := return_previous (s_options s) |}
  end.

(** ** The memory grammar *)

Definition MAX_REQUEST_BYTES : Z := 262144.
Definition ARGUMENT : RequestError := ReqMemory "ERR invalid memory argument".
Definition LIMIT : RequestError := ReqMemory "ERR memory limit exceeded".
Definition VECTOR : RequestError := ReqMemory "ERR memory vector length mismatch".
Definition TTL : RequestError := ReqMemory "ERR invalid memory ttl".

Definition memory_names : list string :=
  ["mem.create"; "mem.info"; "mem.put"; "mem.get"; "mem.del"; "mem.pttl"; "mem.expire";
   "mem.persist"; "mem.search"].
Definition memory_name (raw : bytes) : option string := List.find (named raw) memory_names.

Definition arg_bounded (value : bytes) (minimum maximum : Z) : result RequestError unit :=
  guard_ok ((minimum <=? zlen value) && (zlen value <=? maximum)) LIMIT.

Definition unsigned (raw : bytes) : result RequestError unit :=
  guard_ok (bool_decide (raw = lit "0")
            || (match raw with b :: _ => is_nonzero_digit b | [] => false end
                && forallb is_digit raw)) ARGUMENT.

Definition count_step (maximum value : Z) (digit : byte) : option Z :=
  opt_filter (λ v, v <=? maximum) (v ← u_mul value 10; u_add v (digit_value digit)).
Definition count (raw : bytes) (maximum : Z) : result RequestError Z :=
  _ ← unsigned raw;
  ok_or LIMIT (try_fold (count_step maximum) 0 raw).

(** [checked_ilog10().unwrap_or(0)] and saturating sums. *)
Definition ilog10 (n : Z) : Z := zlen (udec n) - 1.
Definition sat_usize (z : Z) : Z := Z.min z USIZE_MAX.
Definition bulk_size (length : Z) : Z := sat_usize (length + (ilog10 length + 6)).

(** Argument consumption: [next().unwrap()] panics on an exhausted iterator. *)
Definition P (A : Type) : Type := list bytes → option (result RequestError (A * list bytes)).
#[export] Instance P_ret : MRet P := λ A a args, Some (Ok (a, args)).
#[export] Instance P_bind : MBind P := λ A B f m args,
  match m args with
  | Some (Ok (a, args)) => f a args
  | Some (Err e) => Some (Err e)
  | None => None
  end.
Definition next : P bytes := λ args, match args with a :: args => Some (Ok (a, args)) | [] => None end.
Definition remaining : P Z := λ args, Some (Ok (zlen args, args)).
Definition refuse {A} (e : RequestError) : P A := λ args, Some (Err e).
Definition check {A} (r : result RequestError A) : P A :=
  λ args, Some (a ← r; Ok (a, args)).
Definition panic {A} : P A := λ _, None.

Definition identity (dimension : Z) : P Descriptor :=
  provider ← next; _ ← check (arg_bounded provider 1 256);
  model ← next; _ ← check (arg_bounded model 1 256);
  revision ← next; _ ← check (arg_bounded revision 1 256);
  transform ← next; _ ← check (arg_bounded transform 1 256);
  mret {| dimension := dimension; provider := provider; model := model; revision := revision;
          transform := transform |}.

Definition with_dimension (d : Descriptor) (n : Z) : Descriptor :=
  {| dimension := n; provider := provider d; model := model d; revision := revision d;
     transform := transform d |}.

(** The vector argument of PUT and SEARCH. *)
Definition check_vector (vector : bytes) : result RequestError unit :=
  _ ← guard_ok (negb (bool_decide (vector = [])) && (zlen vector mod 4 =? 0)) VECTOR;
  _ ← arg_bounded vector 4 (4096 * 4);
  guard_ok (forallb (λ c, f32_finite (le_value c)) (chunks4 vector))
    (ReqMemory "ERR memory vector contains non-finite value").

(** One metadata entry; [other] is the error of an unknown scalar type. *)
Definition scalar_value (other : RequestError) (scalar_type value : bytes)
    : result RequestError Scalar :=
  if named scalar_type "BYTES" then _ ← arg_bounded value 0 4096; Ok (ScalarBytes value)
  else if named scalar_type "I64" then
    v ← ok_or ARGUMENT (parse_decimal value); Ok (ScalarInteger v)
  else if named scalar_type "BOOL" then
    if bool_decide (value = lit "0") then Ok (ScalarBool false)
    else if bool_decide (value = lit "1") then Ok (ScalarBool true)
    else Err ARGUMENT
  else Err other.

(** [map.insert(field, value).is_some()] is an error. *)
Definition insert_new {V} (m : gmap bytes V) (field : bytes) (value : V)
    : result RequestError (gmap bytes V) :=
  match m !! field with Some _ => Err ARGUMENT | None => Ok (<[field := value]> m) end.

Fixpoint metadata_args (other : RequestError) (n : nat) (m : gmap bytes Scalar)
    : P (gmap bytes Scalar) :=
  match n with
  | O => mret m
  | S n =>
      field ← next; _ ← check (arg_bounded field 1 64);
      scalar_type ← next;
      raw ← next;
      value ← check (scalar_value other scalar_type raw);
      m ← check (insert_new m field value);
      metadata_args other n m
  end.

Fixpoint provenance_args (n : nat) (m : gmap bytes bytes) : P (gmap bytes bytes) :=
  match n with
  | O => mret m
  | S n =>
      field ← next; _ ← check (arg_bounded field 1 64);
      value ← next; _ ← check (arg_bounded value 0 4096);
      m ← check (insert_new m field value);
      provenance_args n m
  end.

Definition parse_create : P Operation :=
  version ← next;
  _ ← check (unsigned version);
  _ ← check (guard_ok (bool_decide (version = lit "1"))
               (ReqMemory "ERR unsupported memory schema version"));
  raw ← next;
  dimension ← check (count raw 4096);
  _ ← check (guard_ok (negb (dimension =? 0)) LIMIT);
  metric ← next;
  _ ← check (guard_ok (named metric "L2SQ") (ReqMemory "ERR unsupported memory metric"));
  descriptor ← identity dimension;
  mret (MCreate descriptor).

Definition parse_ttl (raw : bytes) : result RequestError Ttl :=
  if named raw "KEEP" then Ok TtlKeep
  else match parse_decimal raw with
       | Some value => if value =? -1 then Ok TtlPersistent
                       else if 0 <? value then Ok (TtlAfter value) else Err TTL
       | None => Err TTL
       end.

Definition parse_condition (raw : bytes) : result RequestError SetCondition :=
  if named raw "UPSERT" then Ok Always
  else if named raw "NX" then Ok Missing
  else if named raw "XX" then Ok Present
  else Err ARGUMENT.

Definition parse_put (kind : string) : P Operation :=
  id ← next; _ ← check (arg_bounded id 1 256);
  namespace ← next; _ ← check (arg_bounded namespace 0 256);
  content ← next; _ ← check (arg_bounded content 0 65536);
  descriptor ← identity 1;
  vector ← next;
  _ ← check (check_vector vector);
  let descriptor := with_dimension descriptor (zlen vector / 4) in
  raw ← next;
  ttl ← check (parse_ttl raw);
  raw ← next;
  condition ← check (parse_condition raw);
  raw ← next;
  metadata_count ← check (count raw 32);
  n ← remaining;
  _ ← check (guard_ok (metadata_count * 3 + 1 <=? n) (WrongArity kind));
  metadata ← metadata_args ARGUMENT (Z.to_nat metadata_count) ∅;
  raw ← next;
  provenance_count ← check (count raw 16);
  n ← remaining;
  _ ← check (guard_ok (n =? provenance_count * 2) (WrongArity kind));
  provenance ← provenance_args (Z.to_nat provenance_count) ∅;
  let member := {| m_id := id; m_namespace := namespace; m_content := content; m_vector := vector;
                   m_deadline := None; m_metadata := metadata; m_provenance := provenance |} in
  _ ← check (map_err (λ _, LIMIT) (Member_validate member descriptor));
  mret (MPut descriptor member ttl condition).

Definition parse_search (kind : string) : P Operation :=
  descriptor ← identity 1;
  vector ← next;
  _ ← check (check_vector vector);
  let descriptor := with_dimension descriptor (zlen vector / 4) in
  raw ← next;
  k ← check (count raw USIZE_MAX);
  _ ← check (guard_ok ((1 <=? k) && (k <=? MAX_SEARCH_K)) (ReqMemory "ERR memory k is out of range"));
  namespace ← next; _ ← check (arg_bounded namespace 0 256);
  raw ← next;
  metadata_count ← check (count raw 32);
  n ← remaining;
  _ ← check (guard_ok (n =? metadata_count * 3) (WrongArity kind));
  metadata ← metadata_args (ReqMemory "ERR unsupported memory filter") (Z.to_nat metadata_count) ∅;
  mret (MSearch descriptor vector k namespace metadata).

Definition parse_by_id (kind : string) : P Operation :=
  id ← next; _ ← check (arg_bounded id 1 256);
  if String.eqb kind "mem.get" then mret (MGet id)
  else if String.eqb kind "mem.del" then mret (MDelete id)
  else if String.eqb kind "mem.pttl" then mret (MPttl id)
  else if String.eqb kind "mem.persist" then mret (MPersist id)
  else if String.eqb kind "mem.expire" then
    raw ← next;
    milliseconds ← check (ok_or TTL (parse_decimal raw));
    mret (MExpire id milliseconds)
  else panic.

Definition parse_operation (kind : string) : P Operation :=
  if String.eqb kind "mem.create" then parse_create
  else if String.eqb kind "mem.info" then mret MInfo
  else if String.eqb kind "mem.put" then parse_put kind
  else if String.eqb kind "mem.search" then parse_search kind
  else parse_by_id kind.

Definition memory_arity (kind : string) : Z :=
  if String.eqb kind "mem.create" then 8
  else if String.eqb kind "mem.info" then 1
  else if String.eqb kind "mem.expire" then 3
  else if String.eqb kind "mem.put" then 13
  else if String.eqb kind "mem.search" then 9
  else 2.

Definition memory_request_size (raw : bytes) (args : list bytes) : Z :=
  fold_left (λ size arg, sat_usize (size + bulk_size (zlen arg))) args
    (sat_usize (bulk_size (zlen raw) + (ilog10 (zlen args + 1) + 4))).

Definition parse_memory (raw : bytes) (args : list bytes) : parsed :=
  kind ← memory_name raw;
  if MAX_REQUEST_BYTES <? memory_request_size raw args then Some (Err LIMIT) else
  let arity := memory_arity kind in
  let variadic := String.eqb kind "mem.put" || String.eqb kind "mem.search" in
  if (variadic && (zlen args <? arity)) || (negb variadic && negb (zlen args =? arity))
  then Some (Err (WrongArity kind)) else
  r ← (key ← next; _ ← check (arg_bounded key 1 256);
       operation ← parse_operation kind;
       mret (CMemory key operation)) args;
  Some ('(command, _) ← r; Ok command).

(** ** The dispatcher *)

Definition single_key (canonical : string) (args : list bytes) (c : bytes → Command)
    : result RequestError Command :=
  match args with [key] => Ok (c key) | _ => Err (WrongArity canonical) end.

Definition many_keys (canonical : string) (args : list bytes) (c : list bytes → Command)
    : result RequestError Command :=
  match args with [] => Err (WrongArity canonical) | _ => Ok (c args) end.

Definition parse_expire (canonical : string) (seconds : bool) (args : list bytes)
    : result RequestError Command :=
  match args with
  | [key; argument] =>
      value ← parse_integer_arg argument;
      _ ← (if seconds then ok_or (ReqInvalidExpiry canonical) (i_mul value 1000) else Ok value);
      Ok (CExpire key value (if seconds then Seconds else Milliseconds))
  | _ => Err (WrongArity canonical)
  end.

Definition parse_set (args : list bytes) : result RequestError Command :=
  match args with
  | [key; value] => Ok (CSet key value)
  | key :: value :: options =>
      options ← parse_set_options options; Ok (CSetWithOptions key value options)
  | _ => Err (WrongArity "set")
  end.

Definition parse_command (name : bytes) (args : list bytes) : parsed :=
  if bool_decide (is_Some (memory_name name)) then parse_memory name args
  else if named name "INFO" then Some (Ok (CInfo (from_names args)))
  else if named name "PING" then
    Some (match args with
          | [] => Ok (CPing None)
          | [message] => Ok (CPing (Some message))
          | _ => Err (WrongArity "ping")
          end)
  else if named name "ECHO" then Some (single_key "echo" args CEcho)
  else if named name "GET" then Some (single_key "get" args CGet)
  else if named name "SET" then Some (parse_set args)
  else if named name "DEL" then Some (many_keys "del" args CDel)
  else if named name "EXISTS" then Some (many_keys "exists" args CExists)
  else if named name "MGET" then Some (many_keys "mget" args CMGet)
  else if named name "INCR" then Some (single_key "incr" args CIncr)
  else if named name "DECR" then Some (single_key "decr" args CDecr)
  else if named name "MSET" then
    Some (match args with
          | [] => Err (WrongArity "mset")
          | _ => entries ← pairs (WrongArity "mset") args; Ok (CMSet entries)
          end)
  else if named name "EXPIRE" then Some (parse_expire "expire" true args)
  else if named name "PEXPIRE" then Some (parse_expire "pexpire" false args)
  else if named name "TTL" then Some (single_key "ttl" args (λ key, CTtl key false))
  else if named name "PTTL" then Some (single_key "pttl" args (λ key, CTtl key true))
  else if named name "PERSIST" then Some (single_key "persist" args CPersist)
  else if named name "MULTI" then Some (if bool_decide (args = []) then Ok CMulti else Err (WrongArity "multi"))
  else if named name "EXEC" then Some (if bool_decide (args = []) then Ok CExec else Err (WrongArity "exec"))
  else if named name "DISCARD" then
    Some (if bool_decide (args = []) then Ok CDiscard else Err (WrongArity "discard"))
  else if named name "UNWATCH" then
    Some (if bool_decide (args = []) then Ok CUnwatch else Err (WrongArity "unwatch"))
  else if named name "WATCH" then Some (many_keys "watch" args CWatch)
  else if named name "SUBSCRIBE" then Some (many_keys "subscribe" args CSubscribe)
  else if named name "UNSUBSCRIBE" then Some (Ok (CUnsubscribe args))
  else if named name "PUBLISH" then
    Some (match args with
          | [channel; message] => Ok (CPublish channel message)
          | _ => Err (WrongArity "publish")
          end)
  else parse_collection name args.

Definition parse (frame : Frame) : parsed :=
  match frame with
  | Array (Some frames) =>
      match bulk_payloads frames with
      | Some (name :: arguments) => parse_command name arguments
      | _ => Some (Err InvalidFormat)
      end
  | _ => Some (Err InvalidFormat)
  end.

Example parse_examples :
  let request args := Array (Some ((λ s, Bulk (Some (lit s))) <$> args)) in
  parse (request ["set"; "k"; "v"; "px"; "1500"; "nx"]) =
    Some (Ok (CSetWithOptions (lit "k") (lit "v")
      {| condition := Missing; expiry := ExpiryAfter 1500; return_previous := false |})) ∧
  parse (request ["MGET"]) = Some (Err (WrongArity "mget")) ∧
  parse (request ["lrange"; "l"; "0"; "-1"]) = Some (Ok (CList (lit "l") (LRange 0 (-1)))) ∧
  parse (request ["mem.get"; "c"; "id"]) = Some (Ok (CMemory (lit "c") (MGet (lit "id")))) ∧
  parse (request ["nope"]) = Some (Err UnknownCommand).
Proof. vm_compute. auto 20. Qed.

(** ** What an accepted request guarantees *)

Definition in_i64 (z : Z) : Prop := I64_MIN <= z <= I64_MAX.

Definition id_ok (id : bytes) : Prop := 1 <= zlen id <= 256.
Definition vector_ok (v : bytes) (d : Descriptor) : Prop :=
  zlen v = dimension d * 4 ∧ forallb (λ c, f32_finite (le_value c)) (chunks4 v) = true.

Definition operation_ok (o : Operation) : Prop :=
  match o with
  | MCreate d => Descriptor_validate d = Ok tt
  | MInfo => True
  | MPut d m ttl _ =>
      Member_validate m d = Ok tt ∧ m_deadline m = None ∧
      match ttl with TtlAfter v => 0 < v <= I64_MAX | _ => True end
  | MGet id | MDelete id | MPttl id | MPersist id => id_ok id
  | MExpire id milliseconds => id_ok id ∧ in_i64 milliseconds
  | MSearch d v k namespace metadata =>
      Descriptor_validate d = Ok tt ∧ vector_ok v d ∧ 1 <= k <= MAX_SEARCH_K ∧
      zlen namespace <= 256 ∧ Z.of_nat (size metadata) <= 32
  end.

Definition set_options_ok (o : SetOptions) : Prop :=
  match expiry o with ExpiryAfter ms => 0 < ms <= I64_MAX | _ => True end.

Definition command_ok (c : Command) : Prop :=
  match c with
  | CMemory key operation => id_ok key ∧ operation_ok operation
  | CHash _ (HSet entries) | CMSet entries => entries ≠ []
  | CList _ (LPush _ values) => values ≠ []
  | CHash _ (HDelete l) | CSetCollection _ (SAdd l) | CSetCollection _ (SRemove l)
  | CSortedSet _ (ZRemove l) | CDel l | CExists l | CMGet l | CWatch l | CSubscribe l => l ≠ []
  | CSortedSet _ (ZAdd entries) => entries ≠ [] ∧ Forall (λ e, score_ok e.1) entries
  | CList _ (LRange start stop) | CSortedSet _ (ZRange start stop _) => in_i64 start ∧ in_i64 stop
  | CSetWithOptions _ _ options => set_options_ok options
  | CExpire _ value unit =>
      in_i64 value ∧ in_i64 (match unit with Seconds => value * 1000 | Milliseconds => value end)
  | _ => True
  end.

(** *** Programs over the argument list *)

Definition pwp {A} (p : P A) (args : list bytes) (Q : A → list bytes → Prop) : Prop :=
  match p args with
  | None => False
  | Some (Err _) => True
  | Some (Ok (a, rest)) => Q a rest
  end.

Lemma pwp_bind {A B} (m : P A) (f : A → P B) args Q :
  pwp m args (λ a rest, pwp (f a) rest Q) → pwp (m ≫= f) args Q.
Proof. unfold pwp, mbind, P_bind. by destruct (m args) as [[[a rest]|e]|]. Qed.
Lemma pwp_mono {A} (p : P A) args (Q R : A → list bytes → Prop) :
  pwp p args Q → (∀ a rest, Q a rest → R a rest) → pwp p args R.
Proof. unfold pwp. destruct (p args) as [[[a rest]|e]|]; auto. Qed.
Lemma pwp_ret {A} (a : A) args (Q : A → list bytes → Prop) : Q a args → pwp (mret a) args Q.
Proof. done. Qed.
Lemma pwp_next args (Q : bytes → list bytes → Prop) :
  1 <= zlen args → (∀ a rest, zlen rest = zlen args - 1 → Q a rest) → pwp next args Q.
Proof. destruct args as [|a rest]; intros H HQ; [zlen_lia|]. apply HQ. zlen_lia. Qed.
Lemma pwp_remaining args (Q : Z → list bytes → Prop) : Q (zlen args) args → pwp remaining args Q.
Proof. done. Qed.
Lemma pwp_check {A} (r : result RequestError A) args (Q : A → list bytes → Prop) :
  (∀ a, r = Ok a → Q a args) → pwp (check r) args Q.
Proof. unfold pwp, check. destruct r; simpl; auto. Qed.

Lemma arg_bounded_ok v a b u : arg_bounded v a b = Ok u ↔ a <= zlen v <= b.
Proof. unfold arg_bounded. rewrite guard_ok_ok. lia. Qed.

Lemma try_fold_bound (f : Z → byte → option Z) maximum l b r :
  (∀ v d w, f v d = Some w → 0 <= w <= maximum) → 0 <= b <= maximum → try_fold f b l = Some r →
  0 <= r <= maximum.
Proof.
  intros Hf. revert b. induction l as [|d l IH]; simpl; intros b Hb; [by intros [= <-]|].
  intros (w & Hw & Hl)%bind_Some. eauto.
Qed.
Lemma count_bound raw maximum n : 0 <= maximum → count raw maximum = Ok n → 0 <= n <= maximum.
Proof.
  unfold count. intros Hm H. inv_ok. eapply try_fold_bound; [|split; [reflexivity|done]|done].
  intros v d w Hw. unfold count_step in Hw. inv_ok. lia.
Qed.

(** Runs the next step of a program on the argument list. *)
Ltac pstep :=
  lazymatch goal with
  | |- pwp (_ ≫= _) _ _ => apply pwp_bind
  | |- pwp next _ _ => apply pwp_next; [lia|intros ? ? ?]
  | |- pwp remaining _ _ => apply pwp_remaining
  | |- pwp (check _) _ _ =>
      let H := fresh "Hck" in apply pwp_check; intros ? H;
      lazymatch type of H with
      | guard_ok _ _ = _ => apply guard_ok_ok in H
      | arg_bounded _ _ _ = _ => apply arg_bounded_ok in H
      | count _ _ = _ => apply count_bound in H; [|done]
      | _ => idtac
      end
  | |- pwp (mret _) _ _ => apply pwp_ret
  end.

Definition identity_text_ok (d : Descriptor) : Prop :=
  id_ok (provider d) ∧ id_ok (model d) ∧ id_ok (revision d) ∧ id_ok (transform d).

Lemma descriptor_text_valid d :
  1 <= dimension d <= MAX_DIMENSION → identity_text_ok d → Descriptor_validate d = Ok tt.
Proof. intros Hd (H1 & H2 & H3 & H4). by apply Descriptor_validate_ok. Qed.

Lemma identity_ok dim args (Q : Descriptor → list bytes → Prop) :
  4 <= zlen args →
  (∀ d rest, identity_text_ok d → dimension d = dim → zlen rest = zlen args - 4 → Q d rest) →
  pwp (identity dim) args Q.
Proof.
  intros Hn HQ. unfold identity. repeat pstep. apply HQ; [|done|lia].
  unfold identity_text_ok, id_ok. simpl. lia.
Qed.

Lemma metadata_args_ok (other : RequestError) (n : nat) (m : gmap bytes Scalar) (args : list bytes) (Q : gmap bytes Scalar → list bytes → Prop) :
  Z.of_nat n * 3 <= zlen args →
  (∀ m' rest, (size m' <= size m + n)%nat → zlen rest = zlen args - Z.of_nat n * 3 → Q m' rest) →
  pwp (metadata_args other n m) args Q.
Proof.
  revert m args. induction n as [|n IH]; intros m args Hn HQ; simpl; [apply HQ; lia|].
  repeat pstep. apply IH; [lia|]. unfold insert_new in Hck1. destruct (_ !! _) eqn:El; [done|].
  injection Hck1 as <-. intros m' rest' Hs Hl. apply HQ; [|lia].
  rewrite map_size_insert_None in Hs by done. lia.
Qed.

Lemma provenance_args_ok (n : nat) (m : gmap bytes bytes) (args : list bytes) (Q : gmap bytes bytes → list bytes → Prop) :
  Z.of_nat n * 2 <= zlen args →
  (∀ m' rest, zlen rest = zlen args - Z.of_nat n * 2 → Q m' rest) →
  pwp (provenance_args n m) args Q.
Proof.
  revert m args. induction n as [|n IH]; intros m args Hn HQ; simpl; [apply HQ; lia|].
  repeat pstep. apply IH; [lia|]. intros m' rest' Hl. apply HQ. lia.
Qed.

Lemma check_vector_ok v u :
  check_vector v = Ok u →
  zlen v = zlen v / 4 * 4 ∧ 1 <= zlen v / 4 <= MAX_DIMENSION ∧
  forallb (λ c, f32_finite (le_value c)) (chunks4 v) = true.
Proof.
  unfold check_vector, MAX_DIMENSION. intros H. inv_ok.
  repeat match goal with H : guard_ok _ _ = _ |- _ => apply guard_ok_ok in H end.
  match goal with H : arg_bounded _ _ _ = _ |- _ => apply arg_bounded_ok in H end.
  apply andb_prop in H0 as [_ H0]. apply Z.eqb_eq in H0.
  pose proof (Z.div_mod (zlen v) 4). split_and!; [lia..|done].
Qed.

Lemma parse_ttl_ok raw ttl :
  parse_ttl raw = Ok ttl → match ttl with TtlAfter v => 0 < v <= I64_MAX | _ => True end.
Proof.
  unfold parse_ttl. destruct (named raw "KEEP"); [by intros [= <-]|].
  destruct (parse_decimal raw) as [v|] eqn:E; [|done]. apply parse_decimal_inv in E as [_ Hv].
  destruct (v =? -1); [by intros [= <-]|]. destruct (Z.ltb_spec 0 v); [|done]. intros [= <-]. lia.
Qed.

Lemma parse_create_ok args (Q : Operation → list bytes → Prop) :
  7 <= zlen args → (∀ o rest, operation_ok o → Q o rest) → pwp parse_create args Q.
Proof.
  intros Hn HQ. unfold parse_create. repeat pstep. apply identity_ok; [lia|]. intros d restd Ht Hd Hl.
  pstep. apply HQ. apply descriptor_text_valid; [|done]. unfold MAX_DIMENSION. lia.
Qed.

Lemma parse_put_ok kind args (Q : Operation → list bytes → Prop) :
  12 <= zlen args → (∀ o rest, operation_ok o → Q o rest) → pwp (parse_put kind) args Q.
Proof.
  intros Hn HQ. unfold parse_put. repeat pstep. apply identity_ok; [lia|]. intros d restd Ht Hd Hl.
  repeat pstep. apply metadata_args_ok; [lia|]. intros m' restm Hs Hl'. repeat pstep.
  apply provenance_args_ok; [lia|]. intros p' restp Hl''. repeat pstep. apply HQ.
  match goal with H : map_err _ ?r = Ok ?u |- _ => destruct r as [[]|] eqn:Hv; [|done] end.
  match goal with H : parse_ttl _ = _ |- _ => apply parse_ttl_ok in H end. simpl. auto.
Qed.

Lemma parse_search_ok kind args (Q : Operation → list bytes → Prop) :
  8 <= zlen args → (∀ o rest, operation_ok o → Q o rest) → pwp (parse_search kind) args Q.
Proof.
  intros Hn HQ. unfold parse_search. repeat pstep. apply identity_ok; [lia|]. intros d restd Ht Hd Hl.
  repeat pstep. apply metadata_args_ok; [lia|]. intros m' restm Hs Hl'. repeat pstep. apply HQ.
  match goal with H : check_vector _ = _ |- _ => apply check_vector_ok in H as (? & ? & ?) end.
  rewrite map_size_empty in Hs. simpl. split_and!; [|done|lia..].
  by apply descriptor_text_valid.
Qed.

Lemma parse_by_id_ok kind args (Q : Operation → list bytes → Prop) :
  kind ∈ ["mem.get"; "mem.del"; "mem.pttl"; "mem.persist"] ∧ 1 <= zlen args ∨
  kind = "mem.expire" ∧ 2 <= zlen args →
  (∀ o rest, operation_ok o → Q o rest) → pwp (parse_by_id kind) args Q.
Proof.
  intros Hk HQ. assert (1 <= zlen args) by lia. unfold parse_by_id. do 4 pstep.
  destruct Hk as [[Hk Hn]|[-> Hn]].
  - by repeat first [apply elem_of_cons in Hk as [->|Hk]; [by apply HQ|]|by apply elem_of_nil in Hk].
  - simpl. repeat pstep. apply HQ. simpl. split; [done|].
    apply ok_or_ok in Hck0. by apply parse_decimal_inv in Hck0 as [_ ?].
Qed.

(** *** The grammars *)

Definition parsed_ok (r : parsed) : Prop :=
  match r with None => False | Some (Err _) => True | Some (Ok c) => command_ok c end.

Lemma parse_operation_ok kind args (Q : Operation → list bytes → Prop) :
  kind ∈ memory_names → memory_arity kind - 1 <= zlen args →
  (∀ o rest, operation_ok o → Q o rest) → pwp (parse_operation kind) args Q.
Proof.
  intros Hk Hn HQ. unfold memory_names in Hk.
  repeat first [apply elem_of_cons in Hk as [->|Hk]|by apply elem_of_nil in Hk];
    cbn in Hn; unfold parse_operation; cbn [String.eqb Ascii.eqb Bool.eqb].
  - apply parse_create_ok; [lia|done].
  - by apply pwp_ret, HQ.
  - apply parse_put_ok; [lia|done].
  - apply parse_by_id_ok; [left; split; [set_solver|lia]|done].
  - apply parse_by_id_ok; [left; split; [set_solver|lia]|done].
  - apply parse_by_id_ok; [left; split; [set_solver|lia]|done].
  - apply parse_by_id_ok; [right; split; [done|lia]|done].
  - apply parse_by_id_ok; [left; split; [set_solver|lia]|done].
  - apply parse_search_ok; [lia|done].
Qed.

Lemma parse_memory_ok raw args : is_Some (memory_name raw) → parsed_ok (parse_memory raw args).
Proof.
  intros [kind Hk]. unfold parse_memory. rewrite Hk. simpl.
  destruct (MAX_REQUEST_BYTES <? _); [done|].
  destruct ((_ && _) || _) eqn:Ha; [done|].
  assert (kind ∈ memory_names) as Hin.
  { unfold memory_name in Hk. apply find_some in Hk as [Hk _]. by apply list_elem_of_In. }
  assert (memory_arity kind <= zlen args) as Hn.
  { destruct (String.eqb kind "mem.put" || String.eqb kind "mem.search"); simpl in Ha; lia. }
  assert (1 <= memory_arity kind).
  { unfold memory_arity. repeat destruct (String.eqb kind _); lia. }
  assert (pwp (key ← next; _ ← check (arg_bounded key 1 256);
               operation ← parse_operation kind; mret (CMemory key operation)) args
            (λ c _, command_ok c)) as Hp.
  { repeat pstep. apply parse_operation_ok; [done|lia|]. intros o rest' Ho. pstep. by split. }
  unfold pwp in Hp.
  match type of Hp with match ?r with _ => _ end => destruct r as [[[c rest]|e]|]; done end.
Qed.

Lemma Score_parse_ok text s : Score_parse text = Some s → score_ok s.
Proof.
  unfold Score_parse. intros H. destruct (bool_decide _ || _).
  - apply bind_Some in H as (v & _ & H). by apply Score_new_canonical in H.
  - apply bind_Some in H as (v & _ & H). destruct (_ && _); [done|]. destruct (_ && _); [done|].
    by apply Score_new_canonical in H.
Qed.

Lemma zadd_entries_ok args entries :
  zadd_entries args = Ok entries →
  (args ≠ [] → entries ≠ []) ∧ Forall (λ e, score_ok e.1) entries.
Proof.
  revert entries. induction args as [args IH] using (induction_ltof1 _ length).
  unfold ltof in IH. intros entries. destruct args as [|score [|member args]]; simpl; intros H; inv_ok.
  - subst. by split.
  - subst entries. destruct (IH args) with x0 as [_ Hf]; [simpl; lia|done|].
    split; [done|]. constructor; [|done]. by eapply Score_parse_ok.
Qed.

Lemma pairs_ok {E} (e : E) args entries : pairs e args = Ok entries → args ≠ [] → entries ≠ [].
Proof. destruct args as [|a [|b args]]; simpl; intros H; inv_ok; subst; done. Qed.

Lemma parse_integer_arg_ok s z : parse_integer_arg s = Ok z → in_i64 z.
Proof. intros [_ H]%ok_or_ok%parse_decimal_inv. done. Qed.

(** Splits on the literals a name is compared with, and decides the comparisons
    of two literals. *)
Ltac eval_names :=
  repeat match goal with
  | |- context [is_name (lit ?a) ?b] =>
      let r := eval vm_compute in (is_name (lit a) b) in change (is_name (lit a) b) with r
  end; cbn match.
Ltac on_name :=
  match goal with
  | |- context [is_name ?n ?s] =>
      let E := fresh in
      destruct (is_name n s) eqn:E; [apply bool_decide_eq_true in E; subst n; eval_names|]
  end.

(** Variadic commands: a key and at least one argument. *)
Lemma at_least_two (args : list bytes) (e : RequestError) (c : bytes → list bytes → Command) :
  (∀ key l, l ≠ [] → command_ok (c key l)) →
  parsed_ok (if negb (2 <=? zlen args) then Some (Err e)
             else match args with
                  | [] => Some (Err e)
                  | key :: args => Some (Ok (c key args))
                  end).
Proof.
  intros Hc. destruct args as [|key args]; [done|].
  destruct (Z.leb_spec 2 (zlen (key :: args))); simpl; [|done].
  apply Hc. intros ->. zlen_lia.
Qed.

Lemma parse_sorted_set_ok name args : parsed_ok (parse_sorted_set name args).
Proof.
  unfold parse_sorted_set. generalize (ascii_upper <$> name). clear name. intros name.
  unfold sorted_set_arity, sorted_set_operation.
  on_name. { destruct args as [|key args]; simpl; [done|].
    destruct (Z.leb_spec 3 (zlen (key :: args))) as [Hn|]; simpl; [|done].
    destruct (negb _); [done|]. simpl. destruct (zadd_entries args) eqn:E; simpl; [|done].
    apply zadd_entries_ok in E as [Hne Hf]. split; [|done]. apply Hne. intros ->. zlen_lia. }
  on_name. { by apply (at_least_two args _ (λ k l, CSortedSet k (ZRemove l))). }
  on_name. { by destruct (negb _), args. }
  on_name. { by destruct (negb _), args as [|? [|]]. }
  on_name; [|done]. destruct (negb _), args as [|? [|start [|stop args]]]; try done; simpl.
  - by destruct (parse_integer_arg start).
  - destruct (parse_integer_arg start) eqn:E1; simpl; [|done].
    destruct (parse_integer_arg stop) eqn:E2; simpl; [|done].
    apply parse_integer_arg_ok in E1, E2.
    destruct args as [|o [|]]; simpl; [done| |done]. by destruct (named o _).
Qed.

Lemma parse_collection_ok name args : parsed_ok (parse_collection name args).
Proof.
  unfold parse_collection. destruct (match name with [] => false | _ => _ end).
  { apply parse_sorted_set_ok. }
  generalize (ascii_upper <$> name). clear name. intros name.
  unfold collection_arity, set_operation, list_operation, hash_operation.
  on_name. { destruct args as [|key args]; simpl; [done|].
    destruct (Z.leb_spec 3 (zlen (key :: args))) as [Hn|]; simpl; [|done].
    destruct (negb _); [done|]. simpl. destruct (pairs _ args) eqn:E; simpl; [|done].
    apply pairs_ok in E; [done|]. intros ->. zlen_lia. }
  on_name. { by destruct (negb _), args as [|? [|]]. }
  on_name. { by apply (at_least_two args _ (λ k l, CHash k (HDelete l))). }
  on_name. { by destruct (negb _), args as [|? [|]]. }
  on_name. { by destruct (negb _), args. }
  on_name. { by destruct (negb _), args. }
  on_name. { by apply (at_least_two args _ (λ k l, CList k (LPush true l))). }
  on_name. { by apply (at_least_two args _ (λ k l, CList k (LPush false l))). }
  on_name. { by destruct (negb _), args. }
  on_name. { by destruct (negb _), args. }
  on_name. { by destruct (negb _), args. }
  on_name.
  { destruct (negb _), args as [|? [|start [|stop args]]]; try done; simpl.
    - by destruct (parse_integer_arg start).
    - destruct (parse_integer_arg start) eqn:E1; simpl; [|done].
      destruct (parse_integer_arg stop) eqn:E2; simpl; [|done].
      by apply parse_integer_arg_ok in E1, E2. }
  on_name. { by apply (at_least_two args _ (λ k l, CSetCollection k (SAdd l))). }
  on_name. { by apply (at_least_two args _ (λ k l, CSetCollection k (SRemove l))). }
  on_name. { by destruct (negb _), args as [|? [|]]. }
  on_name. { by destruct (negb _), args. }
  on_name; [by destruct (negb _), args|done].
Qed.

Lemma parse_set_loop_expiry args s s' :
  parse_set_loop args s = Ok s' →
  (∀ ms, expiry (s_options s) ≠ ExpiryAfter ms) → ∀ ms, expiry (s_options s') ≠ ExpiryAfter ms.
Proof.
  revert s. induction args as [args IH] using (induction_ltof1 _ length). unfold ltof in IH.
  intros s. destruct args as [|o args]; simpl; [by intros [= <-]|].
  repeat case_match; try done; intros Hl Hs; eapply IH; try done; simpl; lia || done.
Qed.

Lemma parse_set_options_ok args o : parse_set_options args = Ok o → set_options_ok o.
Proof.
  unfold parse_set_options, set_options_ok. intros (s & Hs & H)%bind_ok.
  pose proof (parse_set_loop_expiry _ _ _ Hs ltac:(done)) as Hp.
  destruct (s_duration s) as [d|]; [|injection H as <-; destruct (expiry _) as [| |ms]; [done..|by destruct (Hp ms)]].
  apply bind_ok in H as (v & Hv & H). apply bind_ok in H as (ms & Hms & H).
  destruct (Z.leb_spec ms 0); [done|]. injection H as <-. simpl.
  apply parse_integer_arg_ok in Hv as [_ Hv]. case_bool_decide.
  - apply ok_or_ok, i64_checked_Some in Hms. lia.
  - injection Hms as ->. lia.
Qed.

Lemma parse_expire_ok canonical seconds args c :
  parse_expire canonical seconds args = Ok c → command_ok c.
Proof.
  unfold parse_expire. destruct args as [|key [|argument [|]]]; try done.
  intros (v & Hv & H)%bind_ok. apply bind_ok in H as (m & Hm & H). injection H as <-.
  apply parse_integer_arg_ok in Hv. split; [done|]. destruct seconds; [|done].
  apply ok_or_ok, i64_checked_Some in Hm. apply Hm.
Qed.

Lemma parse_command_ok name args : parsed_ok (parse_command name args).
Proof.
  unfold parse_command. case_bool_decide; [by apply parse_memory_ok|].
  unfold single_key, many_keys, parse_set.
  repeat match goal with |- parsed_ok (if named _ _ then _ else _) => destruct (named _ _) end.
  all: try (by destruct args as [|? [|? [|]]]); try (by case_bool_decide).
  - destruct args as [|key [|value [|o args]]]; try done.
    destruct (parse_set_options (o :: args)) eqn:E; simpl; [|done]. by apply parse_set_options_ok in E.
  - destruct args as [|a args]; [done|]. destruct (pairs _ _) eqn:E; simpl; [|done].
    by eapply pairs_ok.
  - destruct (parse_expire _ _ _) eqn:E; [|done]. by eapply parse_expire_ok.
  - destruct (parse_expire _ _ _) eqn:E; [|done]. by eapply parse_expire_ok.
  - apply parse_collection_ok.
Qed.

(** C22. Request validation is complete: [parse] never panics (no [unwrap] of an
    absent argument and no [unreachable!] is reached on any frame), and every
    command it accepts satisfies the preconditions the storage relies on:
    non-empty argument lists, [i64] bounds, positive lifetimes, ordered scores,
    valid descriptors, members, vectors and search bounds. *)
Theorem parse_validated frame :
  ∃ r, parse frame = Some r ∧ ∀ c, r = Ok c → command_ok c.
Proof.
  assert (parsed_ok (parse frame)) as H.
  { unfold parse. destruct frame; try done. destruct values as [frames|]; [|done].
    destruct (bulk_payloads frames) as [[|name args]|]; try done. apply parse_command_ok. }
  unfold parsed_ok in H. destruct (parse frame) as [r|]; [|done].
  exists r. split; [done|]. intros c ->. done.
Qed.

(** *** Case of the name *)

Lemma ascii_upper_lower b : ascii_upper (ascii_lower b) = ascii_upper b.
Proof. by destruct b. Qed.
Lemma ascii_lower_idemp b : ascii_lower (ascii_lower b) = ascii_lower b.
Proof. by destruct b. Qed.

Lemma fmap_upper_lower (s : bytes) : ascii_upper <$> (ascii_lower <$> s) = ascii_upper <$> s.
Proof. rewrite <- list_fmap_compose. apply list_fmap_ext. intros. apply ascii_upper_lower. Qed.
Lemma named_case s s' t : ascii_lower <$> s = ascii_lower <$> s' → named s t = named s' t.
Proof. unfold named, eq_ignore_ascii_case. by intros ->. Qed.
Lemma upper_case (s s' : bytes) :
  ascii_lower <$> s = ascii_lower <$> s' → ascii_upper <$> s = ascii_upper <$> s'.
Proof. intros H. by rewrite <- (fmap_upper_lower s), H, fmap_upper_lower. Qed.
Lemma memory_name_case s s' : ascii_lower <$> s = ascii_lower <$> s' → memory_name s = memory_name s'.
Proof.
  intros H. unfold memory_name. induction memory_names as [|t l IH]; simpl; [done|].
  by rewrite (named_case _ _ t H), IH.
Qed.

(** Command names are ASCII case-insensitive, for every command and every
    argument list: two names equal up to case parse to the same command, the
    same error, or the same size-limit verdict. *)
Theorem parse_case_insensitive name name' args :
  eq_ignore_ascii_case name name' = true →
  parse (Array (Some ((λ b, Bulk (Some b)) <$> name :: args))) =
  parse (Array (Some ((λ b, Bulk (Some b)) <$> name' :: args))).
Proof.
  intros H%bool_decide_eq_true.
  assert (parse_command name args = parse_command name' args) as Hc.
  { assert (zlen name = zlen name') as Hl.
    { apply (f_equal length) in H. rewrite !length_fmap in H. unfold zlen. by rewrite H. }
    assert (match name with b :: _ => bool_decide (ascii_lower b = "z"%byte) | [] => false end =
            match name' with b :: _ => bool_decide (ascii_lower b = "z"%byte) | [] => false end) as Hz.
    { destruct name, name'; [done..|]. by injection H as -> ?. }
    unfold parse_command, parse_memory, memory_request_size, parse_collection, parse_sorted_set.
    rewrite (memory_name_case _ _ H), Hl, (upper_case _ _ H), Hz, !(named_case _ _ _ H).
    reflexivity. }
  assert (∀ l, bulk_payloads ((λ b, Bulk (Some b)) <$> l) = Some l) as Hb.
  { intros l. unfold bulk_payloads. by apply mapM_fmap_Some. }
  unfold parse. by rewrite !Hb.
Qed.

Lemma parse_case_insensitive_witness :
  eq_ignore_ascii_case (lit "get") (lit "GeT") = true ∧
  parse (Array (Some ((λ b, Bulk (Some b)) <$> [lit "get"; lit "k"]))) =
  parse (Array (Some ((λ b, Bulk (Some b)) <$> [lit "GeT"; lit "k"]))).
Proof.
  split; [by vm_compute|]. apply (parse_case_insensitive (lit "get") (lit "GeT") [lit "k"]).
  by vm_compute.
Defined.
