(* ===== verification/Store.v ===== *)
(** * The store

    Models src/storage/value.rs, src/storage/clock.rs, src/storage/watch.rs, the
    SortedSet of src/storage/sorted_set.rs and the Store of src/storage/mod.rs
    with the typed operations of src/storage/collections.rs and
    src/storage/sorted_set.rs.

    Operations that can panic (an [expect], an [unwrap] or an arithmetic
    overflow) return an [option].  The clock is an explicit sample: the code runs
    every command on a frozen clock. *)

From Stdlib Require Import Strings.Byte Strings.String ZArith Lia.
From S2P Require Import Prelude Float Score Memory Command.

(** ** Sorted sets *)

Record SortedSet := {
  z_members : gmap bytes f64;
  z_ordered : gset (f64 * bytes)
}.
#[export] Instance SortedSet_eq_decision : EqDecision SortedSet.
Proof. solve_decision. Defined.

Definition SortedSet_default : SortedSet := {| z_members := ∅; z_ordered := ∅ |}.
Definition SortedSet_len (z : SortedSet) : Z := Z.of_nat (size (z_members z)).
Definition SortedSet_is_empty (z : SortedSet) : bool := bool_decide (z_members z = ∅).
Definition SortedSet_get (z : SortedSet) (member : bytes) : option f64 := z_members z !! member.
Definition SortedSet_iter (z : SortedSet) : list (f64 * bytes) := btree_set_iter (z_ordered z).

Definition SortedSet_insert (z : SortedSet) (member : bytes) (score : f64)
    : SortedSet * (bool * bool) :=
  let previous := z_members z !! member in
  if match previous with Some p => Score_eq p score | None => false end then (z, (false, false))
  else
    let ordered := match previous with
                   | Some p => z_ordered z ∖ {[(p, member)]}
                   | None => z_ordered z
                   end in
    ({| z_members := <[member := score]> (z_members z);
        z_ordered := {[(score, member)]} ∪ ordered |},
     (bool_decide (previous = None), true)).

Definition SortedSet_remove (z : SortedSet) (member : bytes) : SortedSet * bool :=
  match z_members z !! member with
  | None => (z, false)
  | Some score =>
      ({| z_members := delete member (z_members z); z_ordered := z_ordered z ∖ {[(score, member)]} |},
       true)
  end.

(** ** Values *)

Inductive Value :=
| VString (value : bytes)
| VHash (fields : gmap bytes bytes)
| VList (values : list bytes)
| VSet (members : gset bytes)
| VSortedSet (members : SortedSet)
| VMemory (collection : Collection).
#[export] Instance Value_eq_decision : EqDecision Value.
Proof. solve_decision. Defined.

Definition as_string (v : Value) : option bytes :=
  match v with VString value => Some value | _ => None end.

(** A checked sum of three parts, or of two. *)
Definition u_add3 (a b c d : Z) : option Z := x ← u_add a b; y ← u_add x c; u_add y d.
Definition u_add2 (a b c : Z) : option Z := x ← u_add a b; u_add x c.

Definition logical_bytes (v : Value) : option Z :=
  match v with
  | VMemory collection => Some (c_logical_bytes collection)
  | VString value => Some (zlen value)
  | VHash fields =>
      if bool_decide (fields = ∅) then None
      else try_fold (λ total e, u_add3 total (zlen e.1) (zlen e.2) 64) 0 (btree_iter fields)
  | VList values =>
      if bool_decide (values = []) then None
      else try_fold (λ total value, u_add2 total (zlen value) 32) 0 values
  | VSet members =>
      if bool_decide (members = ∅) then None
      else try_fold (λ total member, u_add2 total (zlen member) 64) 0 (btree_set_iter members)
  | VSortedSet members =>
      if SortedSet_is_empty members then None
      else try_fold (λ total e, u_add2 total (zlen e.2) 96) 0 (SortedSet_iter members)
  end.

(** ** Time *)

(** A sample of the clock: the monotonic [Instant] in nanoseconds and the Unix
    time in milliseconds. *)
Record Sample := { now : Z; unix_millis : Z }.

(** [Instant::checked_add] of a duration in milliseconds: seconds are an [i64]. *)
Definition INSTANT_MAX : Z := 2 ^ 63 * 1000000000 - 1.
Definition instant_add (at_ milliseconds : Z) : option Z :=
  let r := at_ + milliseconds * 1000000 in
  if r <=? INSTANT_MAX then Some r else None.

(** [saturating_duration_since(now).as_millis()]. *)
Definition remaining_millis (deadline at_ : Z) : Z := Z.max 0 (deadline - at_) / 1000000.

(** ** Watches *)

(** The shared [AtomicBool] of the tokens of a key, with its strong count. *)
Record Flag := { flag_changed : bool; flag_strong : nat }.

(** The registry; the identity stands for the address of its [Arc], the flags
    for the heap the [Weak] pointers point to. *)
Record Registry := {
  r_id : nat;
  r_entries : gmap bytes nat;
  r_flags : gmap nat Flag
}.
Definition Registry_default (id : nat) : Registry := {| r_id := id; r_entries := ∅; r_flags := ∅ |}.

Record WatchToken := {
  t_key : bytes;
  t_changed : nat;
  t_deadline : option Z;
  t_registry : nat
}.

(** [Weak::upgrade]. *)
Definition upgrade (r : Registry) (address : nat) : option Flag :=
  match r_flags r !! address with
  | Some flag => if (0 <? flag_strong flag)%nat then Some flag else None
  | None => None
  end.

Definition invalidate (r : Registry) (key : bytes) : Registry :=
  match r_entries r !! key with
  | None => r
  | Some address =>
      {| r_id := r_id r; r_entries := delete key (r_entries r);
         r_flags := match upgrade r address with
                    | Some flag =>
                        <[address := {| flag_changed := true; flag_strong := flag_strong flag |}]>
                          (r_flags r)
                    | None => r_flags r
                    end |}
  end.

Definition token (r : Registry) (key : bytes) (deadline : option Z) : Registry * WatchToken :=
  let make address := {| t_key := key; t_changed := address; t_deadline := deadline;
                         t_registry := r_id r |} in
  match (address ← r_entries r !! key; flag ← upgrade r address; Some (address, flag)) with
  | Some (address, flag) =>
      ({| r_id := r_id r; r_entries := r_entries r;
          r_flags := <[address := {| flag_changed := flag_changed flag;
                                     flag_strong := S (flag_strong flag) |}]> (r_flags r) |},
       make address)
  | None =>
      let address := fresh (dom (r_flags r)) in
      ({| r_id := r_id r; r_entries := <[key := address]> (r_entries r);
          r_flags := <[address := {| flag_changed := false; flag_strong := 1 |}]> (r_flags r) |},
       make address)
  end.

(** [Drop for WatchToken], followed by the release of its [Arc]. *)
Definition drop_token (r : Registry) (t : WatchToken) : Registry :=
  let address := t_changed t in
  match r_flags r !! address with
  | None => r
  | Some flag =>
      {| r_id := r_id r;
         r_entries :=
           if Nat.eqb (flag_strong flag) 1 && bool_decide (r_entries r !! t_key t = Some address)
           then delete (t_key t) (r_entries r) else r_entries r;
         r_flags := <[address := {| flag_changed := flag_changed flag;
                                    flag_strong := pred (flag_strong flag) |}]> (r_flags r) |}
  end.

Definition invalidated (r : Registry) (t : WatchToken) : bool :=
  match r_flags r !! t_changed t with Some flag => flag_changed flag | None => false end.
Definition token_changed (r : Registry) (t : WatchToken) (at_ : Z) : bool :=
  invalidated r t || match t_deadline t with Some deadline => deadline <=? at_ | None => false end.

(** ** Entries and the store *)

Definition ENTRY_OVERHEAD_BYTES : Z := 128.

Record StoreConfig := { max_dataset_bytes : Z }.
Definition StoreConfig_default : StoreConfig := {| max_dataset_bytes := 64 * 1024 * 1024 |}.
Definition StoreConfig_validate (c : StoreConfig) : result ConfigError unit :=
  guard_ok (negb ((max_dataset_bytes c =? 0) || (ISIZE_MAX <? max_dataset_bytes c)))
    (InvalidServerLimits "SIDER_MAX_DATASET_BYTES must be between 1 and isize::MAX").

Record Entry := {
  e_value : Value;
  expires_at : option Z;
  expires_at_unix_ms : option Z;
  e_generation : Z;
  member_deadlines : gmap bytes Z
}.
#[export] Instance Entry_eq_decision : EqDecision Entry.
Proof. solve_decision. Defined.

Record Store := {
  values : gmap bytes Entry;
  expirations : gset (Z * Z * bytes);
  member_expirations : gset (Z * bytes * bytes);
  generation : Z;
  config : StoreConfig;
  used_bytes : Z;
  watches : Registry
}.

(** The iteration order of a [HashMap]: unspecified, but every entry once. *)
Class HashOrder := {
  hash_iter : ∀ {V}, gmap bytes V → list (bytes * V);
  hash_iter_perm : ∀ {V} (m : gmap bytes V), hash_iter m ≡ₚ map_to_list m
}.

(** [with_config], with the identity of its watch registry. *)
Definition with_config (id : nat) (c : StoreConfig) : result ConfigError Store :=
  _ ← StoreConfig_validate c;
  Ok {| values := ∅; expirations := ∅; member_expirations := ∅; generation := 0; config := c;
        used_bytes := 0; watches := Registry_default id |}.
Definition with_clock (id : nat) : option Store :=
  match with_config id StoreConfig_default with Ok s => Some s | Err _ => None end.

Definition len (s : Store) : Z := Z.of_nat (size (values s)).

Definition entry_bytes (key : bytes) (value : Value) : option Z :=
  n ← logical_bytes value; m ← u_add (zlen key) n; u_add m ENTRY_OVERHEAD_BYTES.

(** Replaces the mutable fields. *)
Definition update (s : Store) (vs : gmap bytes Entry) (es : gset (Z * Z * bytes))
    (ms : gset (Z * bytes * bytes)) (g u : Z) (w : Registry) : Store :=
  {| values := vs; expirations := es; member_expirations := ms; generation := g; config := config s;
     used_bytes := u; watches := w |}.

(** The member events of an entry. *)
Definition member_events (key : bytes) (deadlines : gmap bytes Z) : gset (Z * bytes * bytes) :=
  list_to_set ((λ e, (e.2, key, e.1)) <$> map_to_list deadlines).
Definition key_event (key : bytes) (e : Entry) : gset (Z * Z * bytes) :=
  match expires_at e with Some deadline => {[(deadline, e_generation e, key)]} | None => ∅ end.

Definition remove (s : Store) (key : bytes) : option (Store * option Entry) :=
  match values s !! key with
  | None => Some (s, None)
  | Some entry =>
      size ← entry_bytes key (e_value entry);
      used ← u_sub (used_bytes s) size;
      Some (update s (delete key (values s)) (expirations s ∖ key_event key entry)
              (member_expirations s ∖ member_events key (member_deadlines entry))
              (wrap64 (generation s + 1)) used (invalidate (watches s) key),
            Some entry)
  end.

Definition expired_at (e : Entry) (at_ : Z) : bool :=
  match expires_at e with Some deadline => deadline <=? at_ | None => false end.

Definition expire_key (s : Store) (key : bytes) (at_ : Z) : option Store :=
  match values s !! key with
  | Some entry => if expired_at entry at_ then '(s, _) ← remove s key; Some s else Some s
  | None => Some s
  end.

(** The first [budget] due events, one at a time; an event that does not match
    the entry of its key is dropped. *)
Fixpoint expire_due (s : Store) (at_ : Z) (budget : nat) : option (Store * Z) :=
  match budget with
  | O => Some (s, 0)
  | S budget =>
      match btree_first (expirations s) with
      | Some (deadline, gen, key) =>
          if at_ <? deadline then Some (s, 0) else
          let s := update s (values s) (expirations s ∖ {[(deadline, gen, key)]})
                     (member_expirations s) (generation s) (used_bytes s) (watches s) in
          if match values s !! key with
             | Some entry => (e_generation entry =? gen)
                             && bool_decide (expires_at entry = Some deadline)
             | None => false
             end
          then '(s, _) ← remove s key; '(s, n) ← expire_due s at_ budget; Some (s, n + 1)
          else expire_due s at_ budget
      | None => Some (s, 0)
      end
  end.

Definition install_entry (s : Store) (key : bytes) (entry : Entry) : option Store :=
  let s := update s (values s) (expirations s) (member_expirations s) (generation s) (used_bytes s)
             (invalidate (watches s) key) in
  '(s, _) ← remove s key;
  size ← entry_bytes key (e_value entry);
  used ← u_add (used_bytes s) size;
  let g := wrap64 (generation s + 1) in
  let entry := {| e_value := e_value entry; expires_at := expires_at entry;
                  expires_at_unix_ms := expires_at_unix_ms entry; e_generation := g;
                  member_deadlines := member_deadlines entry |} in
  Some (update s (<[key := entry]> (values s)) (key_event key entry ∪ expirations s)
          (member_events key (member_deadlines entry) ∪ member_expirations s) g used (watches s)).

(** The instant of one member of an image. *)
Definition resolve_deadline (previous : option Entry) (t : Sample) (id : bytes) (absolute : Z)
    : result MemoryError Z :=
  let retained :=
    entry ← previous;
    match e_value entry with
    | VMemory old =>
        if bool_decide (m_deadline <$> c_members old !! id = Some (Some absolute))
        then member_deadlines entry !! id else None
    | _ => None
    end in
  match retained with
  | Some deadline => Ok deadline
  | None =>
      if absolute <=? unix_millis t then Ok (now t)
      else ok_or Deadline (remaining ← usize_checked (absolute - unix_millis t);
                           instant_add (now t) remaining)
  end.

Definition resolve_member_deadlines (s : Store) (t : Sample) (key : bytes) (value : Value)
    : result MemoryError (gmap bytes Z) :=
  match value with
  | VMemory collection =>
      fold_ok (λ deadlines e,
        match m_deadline e.2 with
        | Some absolute =>
            deadline ← resolve_deadline (values s !! key) t e.1 absolute;
            Ok (<[e.1 := deadline]> deadlines)
        | None => Ok deadlines
        end) ∅ (btree_iter (c_members collection))
  | _ => Ok ∅
  end.

Definition insert (s : Store) (t : Sample) (key : bytes) (value : Value) (expiry : option (Z * Z))
    : option Store :=
  match resolve_member_deadlines s t key value with
  | Ok deadlines =>
      install_entry s key
        {| e_value := value; expires_at := fst <$> expiry; expires_at_unix_ms := snd <$> expiry;
           e_generation := 0; member_deadlines := deadlines |}
  | Err _ => None
  end.

(** The value charged for [key], and whether replacing it by [value] is within
    the quota or does not grow the dataset. *)
Definition charged (s : Store) (key : bytes) : Z :=
  default 0 (entry ← values s !! key; entry_bytes key (e_value entry)).
Definition within_limit (s : Store) (proposed : option Z) : bool :=
  match proposed with
  | Some usage => (usage <=? max_dataset_bytes (config s)) || (usage <=? used_bytes s)
  | None => false
  end.
Definition can_replace (s : Store) (key : bytes) (value : Value) : bool :=
  within_limit s (size ← entry_bytes key value; rest ← u_sub (used_bytes s) (charged s key);
                  u_add rest size).

Definition entry_expiry (e : Entry) : option (Z * Z) :=
  match expires_at e, expires_at_unix_ms e with
  | Some a, Some b => Some (a, b)
  | _, _ => None
  end.

Definition deadline (t : Sample) (milliseconds : Z) : option (Z * Z) :=
  absolute ← i_add (unix_millis t) milliseconds;
  millis ← usize_checked milliseconds;
  monotonic ← instant_add (now t) millis;
  Some (monotonic, absolute).

(** ** String commands *)

(** Results of an operation: the new store and the reply. *)
Abbreviation outcome := (option (Store * Reply)).
Definition fail_with (s : Store) (e : ExecutionError) : outcome := Some (s, RError e).

(** Stores [value] if the quota allows it. *)
Definition replace (s : Store) (t : Sample) (key : bytes) (value : Value) (expiry : option (Z * Z))
    (reply : Reply) : outcome :=
  if can_replace s key value then s ← insert s t key value expiry; Some (s, reply)
  else fail_with s OutOfMemory.

Definition get (s : Store) (t : Sample) (key : bytes) : outcome :=
  s ← expire_key s key (now t);
  Some (s, match values s !! key with
           | None => RBulk None
           | Some entry => match as_string (e_value entry) with
                           | Some value => RBulk (Some value)
                           | None => RError WrongType
                           end
           end).

Definition increment (s : Store) (t : Sample) (key : bytes) (delta : Z) : outcome :=
  s ← expire_key s key (now t);
  let previous :=
    match values s !! key with
    | Some entry => match as_string (e_value entry) with
                    | None => Err WrongType
                    | Some value => ok_or ExecInvalidInteger (parse_decimal value)
                    end
    | None => Ok 0
    end in
  match previous with
  | Err e => fail_with s e
  | Ok previous =>
      match i_add previous delta with
      | None => fail_with s IntegerOverflow
      | Some value =>
          replace s t key (VString (sdec value)) (values s !! key ≫= entry_expiry) (RInteger value)
      end
  end.

Definition set_deadline (t : Sample) (options : SetOptions) : option (option (Z * Z)) :=
  match expiry options with
  | ExpiryAfter duration =>
      millis ← opt_filter (λ m, 0 <? m) (i64_checked duration);
      d ← deadline t millis; Some (Some d)
  | _ => Some None
  end.

Definition set (s : Store) (t : Sample) (key value : bytes) (options : SetOptions) : outcome :=
  match set_deadline t options with
  | None => fail_with s InvalidSetExpiry
  | Some deadline =>
      s ← expire_key s key (now t);
      let previous := values s !! key in
      if return_previous options
         && match previous with Some entry => bool_decide (as_string (e_value entry) = None) | None => false end
      then fail_with s WrongType else
      let reply := if return_previous options
                   then RBulk (entry ← previous; as_string (e_value entry)) else ROk in
      if (bool_decide (condition options = Missing) && bool_decide (is_Some previous))
         || (bool_decide (condition options = Present) && bool_decide (previous = None))
      then Some (s, if return_previous options then reply else RBulk None) else
      let expiry := match expiry options with ExpiryKeep => previous ≫= entry_expiry | _ => deadline end in
      replace s t key (VString value) expiry reply
  end.

Definition expire (s : Store) (t : Sample) (key : bytes) (value : Z) (unit : ExpiryUnit) : outcome :=
  let name := (match unit with Seconds => "expire" | Milliseconds => "pexpire" end)%string in
  match (match unit with Seconds => i_mul value 1000 | Milliseconds => Some value end) with
  | None => fail_with s (InvalidExpiry name)
  | Some millis =>
      match (if 0 <? millis then d ← deadline t millis; Some (Some d) else Some None) with
      | None => fail_with s (InvalidExpiry name)
      | Some deadline =>
          s ← expire_key s key (now t);
          match values s !! key with
          | None => Some (s, RInteger 0)
          | Some entry =>
              s ← (if millis <=? 0 then '(s, _) ← remove s key; Some s
                   else insert s t key (e_value entry) deadline);
              Some (s, RInteger 1)
          end
      end
  end.

Definition ttl (s : Store) (t : Sample) (key : bytes) (milliseconds : bool) : outcome :=
  s ← expire_key s key (now t);
  Some (s, RInteger
    match values s !! key with
    | None => -2
    | Some entry =>
        match expires_at entry with
        | None => -1
        | Some deadline =>
            let ttl := remaining_millis deadline (now t) in
            let result := if milliseconds then ttl else (ttl + 500) / 1000 in
            default I64_MAX (i64_checked result)
        end
    end).

Definition persist (s : Store) (t : Sample) (key : bytes) : outcome :=
  s ← expire_key s key (now t);
  match values s !! key with
  | None => Some (s, RInteger 0)
  | Some entry =>
      if bool_decide (expires_at entry = None) then Some (s, RInteger 0)
      else s ← insert s t key (e_value entry) None; Some (s, RInteger 1)
  end.

Fixpoint del (s : Store) (t : Sample) (keys : list bytes) (removed : Z) : option (Store * Z) :=
  match keys with
  | [] => Some (s, removed)
  | key :: keys =>
      s ← expire_key s key (now t);
      '(s, previous) ← remove s key;
      del s t keys (if bool_decide (is_Some previous) then removed + 1 else removed)
  end.

(** Runs [f] on each key after expiring it. *)
Fixpoint read_keys {A} (f : Store → bytes → A) (s : Store) (t : Sample) (keys : list bytes)
    : option (Store * list A) :=
  match keys with
  | [] => Some (s, [])
  | key :: keys =>
      s ← expire_key s key (now t);
      '(s', rest) ← read_keys f s t keys;
      Some (s', f s key :: rest)
  end.
Definition exists_ (s : Store) (t : Sample) (keys : list bytes) : outcome :=
  '(s, found) ← read_keys (λ s key, bool_decide (is_Some (values s !! key))) s t keys;
  Some (s, RInteger (zlen (List.filter id found))).
Definition mget (s : Store) (t : Sample) (keys : list bytes) : outcome :=
  '(s, replies) ←
    read_keys (λ s key, RBulk (entry ← values s !! key; as_string (e_value entry))) s t keys;
  Some (s, RArray replies).

(** [for key in keys { step }]. *)
Fixpoint each {A} (step : Store → A → option Store) (s : Store) (l : list A) : option Store :=
  match l with
  | [] => Some s
  | x :: l => s ← step s x; each step s l
  end.

Definition mset `{HashOrder} (s : Store) (t : Sample) (entries : list (bytes * bytes)) : outcome :=
  let entries := hash_iter (list_to_map (rev entries) : gmap bytes bytes) in
  s ← each (λ s e, expire_key s e.1 (now t)) s entries;
  base ← try_fold (λ base e,
           match values s !! e.1 with
           | Some old => size ← entry_bytes e.1 (e_value old); u_sub base size
           | None => Some base
           end) (used_bytes s) entries;
  let proposed := try_fold (λ usage e, size ← entry_bytes e.1 (VString e.2); u_add usage size)
                    base entries in
  if negb (within_limit s proposed) then fail_with s OutOfMemory else
  s ← each (λ s e, '(s, _) ← remove s e.1; Some s) s entries;
  s ← each (λ s e, insert s t e.1 (VString e.2) None) s entries;
  Some (s, ROk).

(** ** Collection commands *)

(** [range]: inclusive signed indexes to a half-open interval. *)
Definition range (length start stop : Z) : option (Z * Z) :=
  let start := if start <? 0 then start + length else start in
  let stop := if stop <? 0 then stop + length else stop in
  let start := Z.max start 0 in
  let stop := Z.min stop (length - 1) in
  if (stop <? start) || (length <=? start) then None else Some (start, stop + 1).

Definition slice {A} (l : list A) (start stop : Z) : list A :=
  match range (zlen l) start stop with
  | Some (start, stop) => take (Z.to_nat (stop - start)) (drop (Z.to_nat start) l)
  | None => []
  end.

Definition bulks (l : list bytes) : list Reply := (λ b, RBulk (Some b)) <$> l.

(** Removes the key when its collection became empty, stores it otherwise. *)
Definition shrink (s : Store) (t : Sample) (key : bytes) (empty : bool) (value : Value)
    (expiry : option (Z * Z)) (reply : Reply) : outcome :=
  s ← (if empty then '(s, _) ← remove s key; Some s else insert s t key value expiry);
  Some (s, reply).

(** Inserts or removes one by one, counting the successes. *)
Definition set_add (acc : gset bytes * Z) (member : bytes) : gset bytes * Z :=
  ({[member]} ∪ acc.1, if bool_decide (member ∈ acc.1) then acc.2 else acc.2 + 1).
Definition set_remove (acc : gset bytes * Z) (member : bytes) : gset bytes * Z :=
  (acc.1 ∖ {[member]}, if bool_decide (member ∈ acc.1) then acc.2 + 1 else acc.2).

Definition set_collection (s : Store) (t : Sample) (key : bytes) (operation : SetCommand) : outcome :=
  s ← expire_key s key (now t);
  let entry := values s !! key in
  match (match e_value <$> entry with
         | None => Some ∅ | Some (VSet members) => Some members | Some _ => None end) with
  | None => fail_with s WrongType
  | Some members =>
      let expiry := entry ≫= entry_expiry in
      match operation with
      | SCard => Some (s, RInteger (Z.of_nat (size members)))
      | SIsMember member => Some (s, RInteger (if bool_decide (member ∈ members) then 1 else 0))
      | SMembers => Some (s, RArray (bulks (btree_set_iter members)))
      | SAdd incoming =>
          let '(members, added) := fold_left set_add incoming (members, 0) in
          if 0 <? added then replace s t key (VSet members) expiry (RInteger added)
          else Some (s, RInteger added)
      | SRemove incoming =>
          let '(members, removed) := fold_left set_remove incoming (members, 0) in
          if 0 <? removed
          then shrink s t key (bool_decide (members = ∅)) (VSet members) expiry (RInteger removed)
          else Some (s, RInteger removed)
      end
  end.

Definition list_push (front : bool) (values : list bytes) (value : bytes) : list bytes :=
  if front then value :: values else values ++ [value].
(** [pop_back]. *)
Definition pop_back (l : list bytes) : option (bytes * list bytes) :=
  match rev l with x :: r => Some (x, rev r) | [] => None end.
Definition pop_front (l : list bytes) : option (bytes * list bytes) :=
  match l with x :: l => Some (x, l) | [] => None end.

Definition list_command (s : Store) (t : Sample) (key : bytes) (operation : ListCommand) : outcome :=
  s ← expire_key s key (now t);
  let entry := values s !! key in
  match (match e_value <$> entry with
         | None => Some [] | Some (VList values) => Some values | Some _ => None end) with
  | None => fail_with s WrongType
  | Some values =>
      let expiry := entry ≫= entry_expiry in
      match operation with
      | LLen => Some (s, RInteger (zlen values))
      | LRange start stop => Some (s, RArray (bulks (slice values start stop)))
      | LPush front incoming =>
          match incoming with
          | [] => Some (s, RInteger (zlen values))
          | _ =>
              let values := fold_left (list_push front) incoming values in
              replace s t key (VList values) expiry (RInteger (zlen values))
          end
      | LPop front =>
          match (if front then pop_front values else pop_back values) with
          | Some (value, values) =>
              shrink s t key (bool_decide (values = [])) (VList values) expiry (RBulk (Some value))
          | None => Some (s, RBulk None)
          end
      end
  end.

Definition hash_set (acc : gmap bytes bytes * Z) (e : bytes * bytes) : gmap bytes bytes * Z :=
  (<[e.1 := e.2]> acc.1, if bool_decide (acc.1 !! e.1 = None) then acc.2 + 1 else acc.2).
Definition hash_remove (acc : gmap bytes bytes * Z) (field : bytes) : gmap bytes bytes * Z :=
  (delete field acc.1, if bool_decide (is_Some (acc.1 !! field)) then acc.2 + 1 else acc.2).

Definition hash_command (s : Store) (t : Sample) (key : bytes) (operation : HashCommand) : outcome :=
  s ← expire_key s key (now t);
  let entry := values s !! key in
  match (match e_value <$> entry with
         | None => Some ∅ | Some (VHash values) => Some values | Some _ => None end) with
  | None => fail_with s WrongType
  | Some values =>
      let expiry := entry ≫= entry_expiry in
      match operation with
      | HGet field => Some (s, RBulk (values !! field))
      | HExists field => Some (s, RInteger (if bool_decide (is_Some (values !! field)) then 1 else 0))
      | HLen => Some (s, RInteger (Z.of_nat (size values)))
      | HGetAll => Some (s, RArray (bulks (flat_map (λ e, [e.1; e.2]) (btree_iter values))))
      | HSet entries =>
          match entries with
          | [] => Some (s, RInteger 0)
          | _ =>
              let '(values, added) := fold_left hash_set entries (values, 0) in
              replace s t key (VHash values) expiry (RInteger added)
          end
      | HDelete fields =>
          let '(values, removed) := fold_left hash_remove fields (values, 0) in
          if 0 <? removed
          then shrink s t key (bool_decide (values = ∅)) (VHash values) expiry (RInteger removed)
          else Some (s, RInteger removed)
      end
  end.

Definition zset_add (acc : SortedSet * (Z * bool)) (e : f64 * bytes) : SortedSet * (Z * bool) :=
  let '(z, (added, changed)) := acc in
  let '(z, (new, update)) := SortedSet_insert z e.2 e.1 in
  (z, (if new : bool then added + 1 else added, changed || update)).
Definition zset_remove (acc : SortedSet * Z) (member : bytes) : SortedSet * Z :=
  let '(z, present) := SortedSet_remove acc.1 member in
  (z, if present : bool then acc.2 + 1 else acc.2).

(** The members of a range, with their scores when asked; [None] where a score
    has no text. *)
Fixpoint zrange_replies (with_scores : bool) (l : list (f64 * bytes)) : option (list Reply) :=
  match l with
  | [] => Some []
  | (score, member) :: l =>
      text ← (if with_scores then b ← Score_to_bytes score; Some [RBulk (Some b)] else Some []);
      rest ← zrange_replies with_scores l;
      Some (RBulk (Some member) :: text ++ rest)
  end.

Definition sorted_set (s : Store) (t : Sample) (key : bytes) (operation : SortedSetCommand) : outcome :=
  s ← expire_key s key (now t);
  let entry := values s !! key in
  match (match e_value <$> entry with
         | None => Some SortedSet_default | Some (VSortedSet members) => Some members
         | Some _ => None end) with
  | None => fail_with s WrongType
  | Some members =>
      let expiry := entry ≫= entry_expiry in
      match operation with
      | ZCard => Some (s, RInteger (SortedSet_len members))
      | ZScore member =>
          match SortedSet_get members member with
          | Some score => text ← Score_to_bytes score; Some (s, RBulk (Some text))
          | None => Some (s, RBulk None)
          end
      | ZRange start stop with_scores =>
          replies ←
            match range (SortedSet_len members) start stop with
            | Some (start, stop) =>
                zrange_replies with_scores
                  (take (Z.to_nat (stop - start)) (drop (Z.to_nat start) (SortedSet_iter members)))
            | None => Some []
            end;
          Some (s, RArray replies)
      | ZAdd entries =>
          let '(members, (added, changed)) := fold_left zset_add entries (members, (0, false)) in
          if changed : bool
          then replace s t key (VSortedSet members) expiry (RInteger added)
          else Some (s, RInteger added)
      | ZRemove incoming =>
          let '(members, removed) := fold_left zset_remove incoming (members, 0) in
          if 0 <? removed
          then shrink s t key (SortedSet_is_empty members) (VSortedSet members) expiry (RInteger removed)
          else Some (s, RInteger removed)
      end
  end.

(** ** Command execution *)

Definition SetOptions_default : SetOptions :=
  {| condition := Always; expiry := ExpiryPersistent; return_previous := false |}.

Definition execute_inner `{HashOrder} (s : Store) (t : Sample) (command : Command) : outcome :=
  match command with
  | CMemory _ _ => fail_with s (ExecMemory "ERR memory commands require native preparation")
  | CInfo _ => fail_with s ConnectionOnly
  | CHash key operation => hash_command s t key operation
  | CList key operation => list_command s t key operation
  | CSetCollection key operation => set_collection s t key operation
  | CSortedSet key operation => sorted_set s t key operation
  | CPing None => Some (s, RPong)
  | CPing (Some message) | CEcho message => Some (s, RBulk (Some message))
  | CGet key => get s t key
  | CSet key value => set s t key value SetOptions_default
  | CSetWithOptions key value options => set s t key value options
  | CDel keys => '(s, removed) ← del s t keys 0; Some (s, RInteger removed)
  | CExists keys => exists_ s t keys
  | CMGet keys => mget s t keys
  | CMSet entries => mset s t entries
  | CIncr key => increment s t key 1
  | CDecr key => increment s t key (-1)
  | CExpire key value unit => expire s t key value unit
  | CTtl key milliseconds => ttl s t key milliseconds
  | CPersist key => persist s t key
  | CMulti | CExec | CDiscard | CWatch _ | CUnwatch | CSubscribe _ | CUnsubscribe _ | CPublish _ _ =>
      fail_with s ConnectionOnly
  end.

(** ** Observations *)

Definition option_min (a b : option Z) : option Z :=
  match a, b with Some a, Some b => Some (Z.min a b) | Some a, None => Some a | None, b => b end.

(** The earliest pending deadline of a key: its own, or that of a live member. *)
Definition watch_deadline (s : Store) (at_ : Z) (key : bytes) : option Z :=
  entry ← values s !! key;
  fold_left (λ acc d, option_min acc (Some d))
    (List.filter (λ d, at_ <? d) ((btree_iter (member_deadlines entry)).*2)) (expires_at entry).

Definition set_watches (s : Store) (w : Registry) : Store :=
  update s (values s) (expirations s) (member_expirations s) (generation s) (used_bytes s) w.

Fixpoint watch (s : Store) (at_ : Z) (keys : list bytes) : Store * list WatchToken :=
  match keys with
  | [] => (s, [])
  | key :: keys =>
      let '(w, token) := token (watches s) key (watch_deadline s at_ key) in
      let '(s, tokens) := watch (set_watches s w) at_ keys in
      (s, token :: tokens)
  end.

Definition watches_valid_at (s : Store) (tokens : list WatchToken) (at_ : Z) : bool :=
  forallb (λ token, Nat.eqb (r_id (watches s)) (t_registry token)
                    && negb (token_changed (watches s) token at_)) tokens.
