(* ===== verification/StoreInv.v ===== *)
(** * Invariants of the store

    Exact sizes, the accounting invariant [core], the index invariant [indexed]
    of the expiration sets, and the step relation every command decomposes
    into: the removal of a key, or the installation of an entry within the
    quota. *)

From Stdlib Require Import Strings.Byte Strings.String ZArith Lia.
From S2P Require Import Prelude Float Score Memory Command Store.

(** ** Exact sizes *)

Definition value_size (v : Value) : Z :=
  match v with
  | VMemory collection => c_logical_bytes collection
  | VString value => zlen value
  | VHash fields => zsum_with (λ e, zlen e.1 + zlen e.2 + 64) (btree_iter fields)
  | VList values => zsum_with (λ value, zlen value + 32) values
  | VSet members => zsum_with (λ member, zlen member + 64) (btree_set_iter members)
  | VSortedSet members => zsum_with (λ e, zlen e.2 + 96) (SortedSet_iter members)
  end.
Definition entry_size (key : bytes) (v : Value) : Z := zlen key + value_size v + ENTRY_OVERHEAD_BYTES.

(** The two indexes of a sorted set agree, and its scores are ordered and
    canonical. *)
Definition zset_ok (z : SortedSet) : Prop :=
  (∀ s m, (s, m) ∈ z_ordered z ↔ z_members z !! m = Some s) ∧
  (∀ m s, z_members z !! m = Some s → score_ok s).

(** Collections are never empty. *)
Definition value_ok (v : Value) : Prop :=
  match v with
  | VMemory collection => collection_wf collection
  | VString _ => True
  | VHash fields => fields ≠ ∅
  | VList values => values ≠ []
  | VSet members => members ≠ ∅
  | VSortedSet members => z_members members ≠ ∅ ∧ zset_ok members
  end.

(** Checked sums of non-negative parts. *)
Lemma usize_checked_none z : USIZE_MAX < z → usize_checked z = None.
Proof. intros. unfold usize_checked. destruct (_ && _) eqn:E; [lia|done]. Qed.
Lemma u_add_bind a b c :
  0 <= a + b → 0 <= c → (x ← u_add a b; u_add x c) = usize_checked (a + b + c).
Proof.
  intros. change (u_add a b) with (usize_checked (a + b)). destruct (Z.leb_spec (a + b) USIZE_MAX).
  - by rewrite usize_checked_ok by lia.
  - by rewrite !usize_checked_none by lia.
Qed.

Lemma try_fold_sum {A} (f : Z → A → option Z) (g : A → Z) l b :
  (∀ x, 0 <= g x) → (∀ t x, 0 <= t → f t x = usize_checked (t + g x)) → 0 <= b <= USIZE_MAX →
  try_fold f b l = usize_checked (b + zsum_with g l).
Proof.
  intros Hg Hf. revert b. induction l as [|x l IH]; intros b Hb.
  { simpl. by rewrite Z.add_0_r, usize_checked_ok. }
  change (zsum_with g (x :: l)) with (g x + zsum_with g l).
  simpl. rewrite Hf by lia. specialize (Hg x) as Hx.
  assert (0 <= zsum_with g l) by (by apply zsum_with_nonneg).
  destruct (Z.leb_spec (b + g x) USIZE_MAX).
  - rewrite usize_checked_ok by lia. simpl. rewrite IH by lia. f_equal. lia.
  - by rewrite !usize_checked_none by lia.
Qed.

Lemma u_add2_eq a b c : 0 <= a → 0 <= b → 0 <= c → u_add2 a b c = usize_checked (a + (b + c)).
Proof.
  intros. unfold u_add2. rewrite u_add_bind by lia. f_equal. lia.
Qed.
Lemma u_add3_eq a b c d :
  0 <= a → 0 <= b → 0 <= c → 0 <= d → u_add3 a b c d = usize_checked (a + (b + c + d)).
Proof.
  intros. unfold u_add3. change (u_add a b) with (usize_checked (a + b)). destruct (Z.leb_spec (a + b) USIZE_MAX).
  - rewrite usize_checked_ok by lia. simpl. rewrite u_add_bind by lia. f_equal. lia.
  - by rewrite !usize_checked_none by lia.
Qed.

Lemma value_size_nonneg v : value_ok v → 0 <= value_size v.
Proof.
  destruct v; simpl; intros Hv; try (apply zsum_with_nonneg; intros; zlen_lia); [zlen_lia|].
  by apply collection_logical_pos.
Qed.

Lemma usize_checked_cases z :
  0 <= z → usize_checked z = Some z ∨ USIZE_MAX < z ∧ usize_checked z = None.
Proof.
  intros. destruct (Z.leb_spec z USIZE_MAX); [left; by apply usize_checked_ok|].
  right. split; [done|by apply usize_checked_none].
Qed.

Lemma logical_bytes_eq v :
  value_ok v →
  logical_bytes v = Some (value_size v) ∨ USIZE_MAX < value_size v ∧ logical_bytes v = None.
Proof.
  intros Hv. pose proof (value_size_nonneg v Hv) as Hn. apply usize_checked_cases in Hn as Hc.
  destruct v as [s|f|l|m|z|c]; simpl in *; auto.
  - rewrite bool_decide_eq_false_2, (try_fold_sum _ (λ e, zlen e.1 + zlen e.2 + 64)); auto.
    + intros; zlen_lia.
    + intros. rewrite u_add3_eq by zlen_lia. done.
    + done.
  - rewrite bool_decide_eq_false_2, (try_fold_sum _ (λ x, zlen x + 32)); auto.
    + intros; zlen_lia.
    + intros. rewrite u_add2_eq by zlen_lia. done.
    + done.
  - rewrite bool_decide_eq_false_2, (try_fold_sum _ (λ x, zlen x + 64)); auto.
    + intros; zlen_lia.
    + intros. rewrite u_add2_eq by zlen_lia. done.
    + done.
  - destruct Hv as [Hne _]. unfold SortedSet_is_empty.
    rewrite bool_decide_eq_false_2, (try_fold_sum _ (λ e, zlen e.2 + 96)); auto.
    + intros; zlen_lia.
    + intros. rewrite u_add2_eq by zlen_lia. done.
    + done.
Qed.

(** The checked size of an entry is its exact size, when representable. *)
Lemma entry_bytes_eq key v :
  value_ok v → entry_bytes key v = usize_checked (entry_size key v).
Proof.
  intros Hv. unfold entry_bytes, entry_size, ENTRY_OVERHEAD_BYTES.
  pose proof (value_size_nonneg v Hv). pose proof (zlen_nonneg key).
  destruct (logical_bytes_eq v Hv) as [->|[Hb ->]]; simpl.
  - by rewrite u_add_bind by lia.
  - by rewrite usize_checked_none by lia.
Qed.

Lemma entry_size_pos key v : value_ok v → 128 <= entry_size key v.
Proof.
  intros Hv%value_size_nonneg. unfold entry_size, ENTRY_OVERHEAD_BYTES. zlen_lia.
Qed.

(** ** Well-formed stores *)

(** Every member with a deadline has an instant, and no other. *)
Definition deadlines_ok (e : Entry) : Prop :=
  match e_value e with
  | VMemory c => ∀ id, is_Some (member_deadlines e !! id) ↔
                       ∃ m, c_members c !! id = Some m ∧ is_Some (m_deadline m)
  | _ => member_deadlines e = ∅
  end.

(** A memory collection is within the bounds of its key. *)
Definition key_ok (k : bytes) (v : Value) : Prop :=
  match v with VMemory c => within_quota c k | _ => True end.

(** Absolute deadlines are machine integers. *)
Definition i64_deadline (d : option Z) : Prop := match d with Some d => I64_MIN <= d <= I64_MAX | None => True end.
Definition i64_members (v : Value) : Prop :=
  match v with VMemory c => ∀ id m, c_members c !! id = Some m → i64_deadline (m_deadline m) | _ => True end.

Record entry_ok (k : bytes) (e : Entry) : Prop := {
  eo_value : value_ok (e_value e);
  eo_key : key_ok k (e_value e);
  eo_expiry : is_Some (expires_at e) ↔ is_Some (expires_at_unix_ms e);
  eo_deadlines : deadlines_ok e;
  eo_i64 : i64_deadline (expires_at_unix_ms e) ∧ i64_members (e_value e)
}.

(** The accounting invariant.  [base] is the size of entries the store does not
    hold: zero for a live store, the untouched keys for a preparation. *)
Record core (base : Z) (s : Store) : Prop := {
  co_config : 1 <= max_dataset_bytes (config s) <= ISIZE_MAX;
  co_base : 0 <= base;
  co_entries : ∀ k e, values s !! k = Some e → entry_ok k e;
  co_used : used_bytes s = base + map_zsum (λ k e, entry_size k (e_value e)) (values s);
  co_quota : used_bytes s <= max_dataset_bytes (config s);
  co_generation : 0 <= generation s < 2 ^ 64
}.

(** The index invariant: every deadline has exactly one event. *)
Record indexed (s : Store) : Prop := {
  ix_key : ∀ d g k, (d, g, k) ∈ expirations s ↔
    ∃ e, values s !! k = Some e ∧ expires_at e = Some d ∧ e_generation e = g;
  ix_member : ∀ d k id, (d, k, id) ∈ member_expirations s ↔
    ∃ e, values s !! k = Some e ∧ member_deadlines e !! id = Some d
}.

(** ** Steps *)

Definition charge (s : Store) (k : bytes) : Z :=
  match values s !! k with Some e => entry_size k (e_value e) | None => 0 end.

Definition evict (s : Store) (k : bytes) : Store :=
  match values s !! k with
  | Some e =>
      update s (delete k (values s)) (expirations s ∖ key_event k e)
        (member_expirations s ∖ member_events k (member_deadlines e)) (wrap64 (generation s + 1))
        (used_bytes s - entry_size k (e_value e)) (invalidate (watches s) k)
  | None => s
  end.

Definition stamp (e : Entry) (g : Z) : Entry :=
  {| e_value := e_value e; expires_at := expires_at e; expires_at_unix_ms := expires_at_unix_ms e;
     e_generation := g; member_deadlines := member_deadlines e |}.

Definition installed (s : Store) (k : bytes) (e : Entry) : Store :=
  let s := evict (set_watches s (invalidate (watches s) k)) k in
  let g := wrap64 (generation s + 1) in
  update s (<[k := stamp e g]> (values s)) (key_event k (stamp e g) ∪ expirations s)
    (member_events k (member_deadlines e) ∪ member_expirations s) g
    (used_bytes s + entry_size k (e_value e)) (watches s).

(** The two ways a key changes: it is removed, or an entry within the quota is
    installed. *)
Inductive step (k : bytes) (s : Store) : Store → Prop :=
| step_evict : step k s (evict s k)
| step_install e :
    entry_ok k e → used_bytes s - charge s k + entry_size k (e_value e) <= max_dataset_bytes (config s) →
    step k s (installed s k e).
(** At most [n] steps on the listed keys. *)
Definition steps (n : nat) (keys : list bytes) : Store → Store → Prop :=
  bsteps (λ s s', ∃ k, k ∈ keys ∧ step k s s') n.

Lemma charge_bounds base s k : core base s → 0 <= charge s k <= used_bytes s - base.
Proof.
  intros []. rewrite co_used0. unfold charge. 
  assert (∀ k e, values s !! k = Some e → 0 <= entry_size k (e_value e)) as Hn.
  { intros k' e' He'. pose proof (entry_size_pos k' (e_value e') (eo_value _ _ (co_entries0 _ _ He'))). lia. }
  pose proof (map_zsum_nonneg _ _ Hn : 0 <= _). destruct (values s !! k) as [e|] eqn:E; [|lia].
  pose proof (map_zsum_lookup_le _ _ _ _ Hn E) as Hle. cbv beta in Hle. specialize (Hn _ _ E). lia.
Qed.

Lemma evict_values s k : values (evict s k) = delete k (values s).
Proof. unfold evict. destruct (values s !! k) eqn:E; [done|]. by rewrite delete_id. Qed.
Lemma evict_config s k : config (evict s k) = config s.
Proof. unfold evict. by destruct (values s !! k). Qed.
Lemma evict_used s k : used_bytes (evict s k) = used_bytes s - charge s k.
Proof. unfold evict, charge. destruct (values s !! k); simpl; lia. Qed.
Lemma wrap64_range z : 0 <= wrap64 z < 2 ^ 64.
Proof. apply Z.mod_pos_bound. lia. Qed.

Lemma core_evict base s k : core base s → core base (evict s k).
Proof.
  intros Hc. pose proof (charge_bounds base s k Hc) as Hch. destruct Hc.
  split; rewrite ?evict_config, ?evict_used, ?evict_values; try done; [| |lia|].
  - intros k' e' [_ ?]%lookup_delete_Some. eauto.
  - unfold charge. destruct (values s !! k) as [e|] eqn:E.
    + rewrite (map_zsum_delete _ _ _ _ E). lia.
    + rewrite delete_id by done. lia.
  - unfold evict. destruct (values s !! k); simpl; [apply wrap64_range|done].
Qed.

Lemma remove_eq base s k : core base s → remove s k = Some (evict s k, values s !! k).
Proof.
  intros Hc. pose proof (charge_bounds base s k Hc) as Hch. unfold remove, evict, charge in *.
  destruct (values s !! k) as [e|] eqn:E; [|done]. destruct Hc.
  assert (ISIZE_MAX <= USIZE_MAX) by done.
  rewrite entry_bytes_eq, usize_checked_ok by (apply co_entries0 in E as []; done || lia).
  simpl. unfold u_sub. by rewrite usize_checked_ok by lia.
Qed.

Lemma core_watches base s w : core base s → core base (set_watches s w).
Proof. intros []. by split. Qed.

Lemma installed_values s k e :
  ∃ g, values (installed s k e) = <[k := stamp e g]> (values s).
Proof.
  unfold installed. cbn [values update]. rewrite evict_values. eexists. apply insert_delete_eq.
Qed.

Lemma core_installed base s k e :
  core base s → entry_ok k e →
  used_bytes s - charge s k + entry_size k (e_value e) <= max_dataset_bytes (config s) →
  core base (installed s k e).
Proof.
  intros Hc He Hq. pose proof (charge_bounds base s k Hc) as Hch.
  apply (core_watches _ _ (invalidate (watches s) k)) in Hc.
  apply (core_evict _ _ k) in Hc. unfold installed.
  pose proof (evict_used (set_watches s (invalidate (watches s) k)) k) as Hu.
  change (charge (set_watches s _) k) with (charge s k) in Hu.
  change (used_bytes (set_watches s _)) with (used_bytes s) in Hu.
  pose proof (evict_config (set_watches s (invalidate (watches s) k)) k) as Hcf.
  pose proof (evict_values (set_watches s (invalidate (watches s) k)) k) as Hv.
  set (s1 := evict _ k) in *. clearbody s1. destruct Hc. cbn [config set_watches update values] in *.
  split; cbn [values config used_bytes generation update]; try done.
  - intros k' e' [[<- <-]|[_ ?]]%lookup_insert_Some; [|eauto]. by destruct He.
  - rewrite map_zsum_insert by (rewrite Hv; apply lookup_delete_eq). cbn [e_value stamp]. lia.
  - rewrite Hcf, Hu. lia.
  - apply wrap64_range.
Qed.

Lemma core_step base k s s' : core base s → step k s s' → core base s'.
Proof. intros Hc []; [by apply core_evict|by apply core_installed]. Qed.
Lemma core_steps base n K s s' : core base s → steps n K s s' → core base s'.
Proof. intros Hc. induction 1 as [|n s s1 s2 (k & _ & Hk) _ IH]; [done|]. eauto using core_step. Qed.

Lemma install_entry_eq base s k e :
  core base s → entry_ok k e →
  used_bytes s - charge s k + entry_size k (e_value e) <= max_dataset_bytes (config s) →
  install_entry s k e = Some (installed s k e).
Proof.
  intros Hc He Hq. pose proof (charge_bounds base s k Hc) as Hch. unfold install_entry.
  fold (set_watches s (invalidate (watches s) k)).
  pose proof (core_watches _ _ (invalidate (watches s) k) Hc) as Hw.
  rewrite (remove_eq base) by done. cbn [mbind option_bind].
  assert (ISIZE_MAX <= USIZE_MAX) by done. destruct Hc.
  pose proof (entry_size_pos k (e_value e) (eo_value _ _ He)).
  rewrite entry_bytes_eq by apply He. rewrite usize_checked_ok by lia. cbn [mbind option_bind].
  unfold u_add. rewrite evict_used. cbn [used_bytes set_watches update].
  change (charge (set_watches s _) k) with (charge s k).
  rewrite usize_checked_ok by lia. cbn [mbind option_bind]. unfold installed. rewrite evict_used. done.
Qed.

Lemma elem_of_key_event k e d g k' :
  (d, g, k') ∈ key_event k e ↔ expires_at e = Some d ∧ e_generation e = g ∧ k' = k.
Proof.
  unfold key_event. destruct (expires_at e); [rewrite elem_of_singleton|rewrite elem_of_empty]; naive_solver.
Qed.
Lemma elem_of_member_events k ds d k' id :
  (d, k', id) ∈ member_events k ds ↔ ds !! id = Some d ∧ k' = k.
Proof.
  unfold member_events. rewrite elem_of_list_to_set, list_elem_of_fmap. split.
  - intros ([id' d'] & [= -> -> ->] & Hin%elem_of_map_to_list). done.
  - intros [Hd ->]. exists (id, d). split; [done|]. by apply elem_of_map_to_list.
Qed.

Lemma indexed_watches s w : indexed s → indexed (set_watches s w).
Proof. intros []. by split. Qed.

Lemma indexed_evict s k : indexed s → indexed (evict s k).
Proof.
  intros [Hk Hm]. unfold evict. destruct (values s !! k) as [e|] eqn:E; [|done].
  split; cbn [expirations member_expirations values update].
  - intros d g k'. rewrite elem_of_difference, elem_of_key_event, Hk. setoid_rewrite lookup_delete_Some.
    naive_solver.
  - intros d k' id. rewrite elem_of_difference, elem_of_member_events, Hm.
    setoid_rewrite lookup_delete_Some. naive_solver.
Qed.

Lemma indexed_installed s k e : indexed s → indexed (installed s k e).
Proof.
  intros Hi. apply (indexed_watches _ (invalidate (watches s) k)) in Hi.
  pose proof (evict_values (set_watches s (invalidate (watches s) k)) k) as Hv.
  apply (indexed_evict _ k) in Hi. unfold installed. set (s1 := evict _ k) in *. clearbody s1.
  destruct Hi as [Hk Hm].
  assert (values s1 !! k = None) as Hn by (rewrite Hv; apply lookup_delete_eq).
  split; cbn [expirations member_expirations values update].
  - intros d g k'. rewrite elem_of_union, elem_of_key_event, Hk.
    cbn [expires_at e_generation stamp]. setoid_rewrite lookup_insert_Some.
    destruct (decide (k = k')) as [<-|Hne]; [rewrite Hn|]; naive_solver.
  - intros d k' id. rewrite elem_of_union, elem_of_member_events, Hm.
    setoid_rewrite lookup_insert_Some.
    destruct (decide (k = k')) as [<-|Hne]; [rewrite Hn|]; naive_solver.
Qed.

Lemma indexed_steps n K s s' : indexed s → steps n K s s' → indexed s'.
Proof.
  intros Hi. induction 1 as [|n s s1 s2 (k & _ & Hk) _ IH]; [done|]. apply IH.
  destruct Hk; [by apply indexed_evict|by apply indexed_installed].
Qed.

(** Only the keys of a run change, and the configuration never does. *)
Lemma steps_frame n K s s' :
  steps n K s s' → config s' = config s ∧ ∀ k, k ∉ K → values s' !! k = values s !! k.
Proof.
  induction 1 as [|n s s1 s2 (k & Hin & Hk) _ [IHc IHv]]; [done|].
  assert (config s1 = config s ∧ ∀ k', k' ≠ k → values s1 !! k' = values s !! k') as [Hc Hv].
  { destruct Hk as [|e _ _].
    - rewrite evict_config, evict_values. split; [done|]. intros. by rewrite lookup_delete_ne.
    - destruct (installed_values s k e) as [g ->]. unfold installed. cbn [config update].
      rewrite evict_config. split; [done|]. intros. by rewrite lookup_insert_ne. }
  rewrite IHc, Hc. split; [done|]. intros k' Hk'. rewrite IHv, Hv; congruence.
Qed.

Lemma steps_refl n K s : steps n K s s.
Proof. apply bsteps_refl. Qed.
Lemma steps_one K k s s' : k ∈ K → step k s s' → steps 1 K s s'.
Proof. intros ??. apply bsteps_once. eauto. Qed.
Lemma steps_trans n m p K s1 s2 s3 :
  steps n K s1 s2 → steps m K s2 s3 → (n + m <= p)%nat → steps p K s1 s3.
Proof. intros H1 H2 Hp. eapply bsteps_weaken; [exact Hp|]. by eapply bsteps_trans. Qed.
Lemma steps_mono n K K' s s' : (∀ k, k ∈ K → k ∈ K') → steps n K s s' → steps n K' s s'.
Proof.
  intros HK. apply (bsteps_congruence (λ s, s)). intros ?? (k & ? & ?). eauto.
Qed.
#[export] Hint Resolve steps_refl : core.
