(* ===== verification/StoreSpec.v ===== *)
(** * The reference semantics of the commands

    A dataset is the map of the visible keys.  [spec] gives every command its
    meaning on datasets, in closed form where the code has loops; the lemmas
    show that [execute_inner] refines it on any store that satisfies the
    accounting invariant. *)

From Stdlib Require Import Strings.Byte Strings.String ZArith Lia.
From S2P Require Import Prelude Float Score Memory Command Store StoreInv.

(** ** The abstract dataset *)

(** A value without its representation: a sorted set is the map of its scores. *)
Inductive AValue :=
| AString (value : bytes)
| AHash (fields : gmap bytes bytes)
| AList (values : list bytes)
| ASet (members : gset bytes)
| AZSet (scores : gmap bytes f64)
| AMemory (collection : Collection).

Definition abs_value (v : Value) : AValue :=
  match v with
  | VString value => AString value
  | VHash fields => AHash fields
  | VList values => AList values
  | VSet members => ASet members
  | VSortedSet members => AZSet (z_members members)
  | VMemory collection => AMemory collection
  end.

(** A dataset: the visible keys with their values and deadlines. *)
Abbreviation dataset := (gmap bytes (AValue * option (Z * Z))).

Definition abs_entry (e : Entry) : AValue * option (Z * Z) := (abs_value (e_value e), entry_expiry e).
Definition view (s : Store) (t : Sample) : dataset :=
  omap (λ e, if expired_at e (now t) then None else Some (abs_entry e)) (values s).

(** Stores a value, or removes the key of an empty collection. *)
Definition is_empty (v : AValue) : bool :=
  match v with
  | AHash fields => bool_decide (fields = ∅)
  | AList values => bool_decide (values = [])
  | ASet members => bool_decide (members = ∅)
  | AZSet scores => bool_decide (scores = ∅)
  | AString _ | AMemory _ => false
  end.
Definition put (m : dataset) (k : bytes) (v : AValue) (expiry : option (Z * Z)) : dataset :=
  if is_empty v then delete k m else <[k := (v, expiry)]> m.

Definition a_string (m : dataset) (k : bytes) : option bytes :=
  match m !! k with Some (AString v, _) => Some v | _ => None end.
Definition a_expiry (m : dataset) (k : bytes) : option (Z * Z) := m !! k ≫= snd.
Definition zsize {K V} `{Countable K} (m : gmap K V) : Z := Z.of_nat (size m).

(** ** The reference semantics of the commands *)

Definition spec_get (m : dataset) (k : bytes) : Reply :=
  match m !! k with
  | None => RBulk None
  | Some (AString v, _) => RBulk (Some v)
  | Some _ => RError WrongType
  end.

Definition spec_set (t : Sample) (m : dataset) (k v : bytes) (o : SetOptions) : dataset * Reply :=
  match set_deadline t o with
  | None => (m, RError InvalidSetExpiry)
  | Some deadline =>
      let previous := a_string m k in
      if return_previous o && bool_decide (is_Some (m !! k)) && bool_decide (previous = None)
      then (m, RError WrongType) else
      let reply := if return_previous o then RBulk previous else ROk in
      if match condition o with
         | Always => true
         | Missing => bool_decide (m !! k = None)
         | Present => bool_decide (is_Some (m !! k))
         end
      then (<[k := (AString v, match expiry o with ExpiryKeep => a_expiry m k | _ => deadline end)]> m,
            reply)
      else (m, if return_previous o then reply else RBulk None)
  end.

Definition spec_increment (m : dataset) (k : bytes) (delta : Z) : dataset * Reply :=
  let previous :=
    match m !! k with
    | None => Ok 0
    | Some (AString v, _) => ok_or ExecInvalidInteger (parse_decimal v)
    | Some _ => Err WrongType
    end in
  match previous with
  | Err e => (m, RError e)
  | Ok n =>
      if (I64_MIN <=? n + delta) && (n + delta <=? I64_MAX)
      then (<[k := (AString (sdec (n + delta)), a_expiry m k)]> m, RInteger (n + delta))
      else (m, RError IntegerOverflow)
  end.

Definition spec_expire (t : Sample) (m : dataset) (k : bytes) (value : Z) (unit : ExpiryUnit)
    : dataset * Reply :=
  let name := (match unit with Seconds => "expire" | Milliseconds => "pexpire" end)%string in
  match (match unit with Seconds => i_mul value 1000 | Milliseconds => Some value end) with
  | None => (m, RError (InvalidExpiry name))
  | Some millis =>
      if millis <=? 0 then (delete k m, RInteger (if bool_decide (is_Some (m !! k)) then 1 else 0))
      else match deadline t millis with
           | None => (m, RError (InvalidExpiry name))
           | Some d =>
               match m !! k with
               | None => (m, RInteger 0)
               | Some (v, _) => (<[k := (v, Some d)]> m, RInteger 1)
               end
           end
  end.

Definition spec_ttl (t : Sample) (m : dataset) (k : bytes) (milliseconds : bool) : Reply :=
  RInteger match m !! k with
           | None => -2
           | Some (_, None) => -1
           | Some (_, Some (d, _)) =>
               let ttl := (d - now t) / 1000000 in
               Z.min I64_MAX (if milliseconds then ttl else (ttl + 500) / 1000)
           end.

Definition spec_persist (m : dataset) (k : bytes) : dataset * Reply :=
  match m !! k with
  | Some (v, Some _) => (<[k := (v, None)]> m, RInteger 1)
  | _ => (m, RInteger 0)
  end.

(** Without the listed keys. *)
Definition without {K V} `{Countable K} (l : list K) (m : gmap K V) : gmap K V :=
  base.filter (λ e, e.1 ∉ l) m.
(** With the listed bindings, the last one of a key first. *)
Definition with_entries {K V} `{Countable K} (l : list (K * V)) (m : gmap K V) : gmap K V :=
  list_to_map (rev l) ∪ m.

(** The value of a key at a type: the default if it is absent, nothing if it has
    another type. *)
Definition typed {T} (proj : AValue → option T) (none : T) (m : dataset) (k : bytes) : option T :=
  match m !! k with None => Some none | Some (v, _) => proj v end.
Definition a_hash (v : AValue) : option (gmap bytes bytes) := match v with AHash x => Some x | _ => None end.
Definition a_list (v : AValue) : option (list bytes) := match v with AList x => Some x | _ => None end.
Definition a_set (v : AValue) : option (gset bytes) := match v with ASet x => Some x | _ => None end.
Definition a_zset (v : AValue) : option (gmap bytes f64) := match v with AZSet x => Some x | _ => None end.

Definition spec_hash (m : dataset) (k : bytes) (o : HashCommand) : dataset * Reply :=
  match typed a_hash ∅ m k with
  | None => (m, RError WrongType)
  | Some fields =>
      match o with
      | HGet field => (m, RBulk (fields !! field))
      | HExists field => (m, RInteger (if bool_decide (is_Some (fields !! field)) then 1 else 0))
      | HLen => (m, RInteger (zsize fields))
      | HGetAll => (m, RArray (bulks (flat_map (λ e, [e.1; e.2]) (btree_iter fields))))
      | HSet entries =>
          let fields' := with_entries entries fields in
          (put m k (AHash fields') (a_expiry m k), RInteger (zsize fields' - zsize fields))
      | HDelete names =>
          let fields' := without names fields in
          (put m k (AHash fields') (a_expiry m k), RInteger (zsize fields - zsize fields'))
      end
  end.

Definition spec_list (m : dataset) (k : bytes) (o : ListCommand) : dataset * Reply :=
  match typed a_list [] m k with
  | None => (m, RError WrongType)
  | Some l =>
      match o with
      | LLen => (m, RInteger (zlen l))
      | LRange start stop => (m, RArray (bulks (slice l start stop)))
      | LPush front incoming =>
          let l' := if front then rev incoming ++ l else l ++ incoming in
          (put m k (AList l') (a_expiry m k), RInteger (zlen l'))
      | LPop true => (put m k (AList (tail l)) (a_expiry m k), RBulk (head l))
      | LPop false =>
          (put m k (AList (take (pred (length l)) l)) (a_expiry m k), RBulk (last l))
      end
  end.

Definition spec_set_collection (m : dataset) (k : bytes) (o : SetCommand) : dataset * Reply :=
  match typed a_set ∅ m k with
  | None => (m, RError WrongType)
  | Some x =>
      match o with
      | SCard => (m, RInteger (Z.of_nat (size x)))
      | SIsMember member => (m, RInteger (if bool_decide (member ∈ x) then 1 else 0))
      | SMembers => (m, RArray (bulks (btree_set_iter x)))
      | SAdd incoming =>
          let x' := x ∪ list_to_set incoming in
          (put m k (ASet x') (a_expiry m k), RInteger (Z.of_nat (size x') - Z.of_nat (size x)))
      | SRemove incoming =>
          let x' := x ∖ list_to_set incoming in
          (put m k (ASet x') (a_expiry m k), RInteger (Z.of_nat (size x) - Z.of_nat (size x')))
      end
  end.

(** The members of a sorted set by score and then by name. *)
Definition zsorted (scores : gmap bytes f64) : list (f64 * bytes) :=
  merge_sort cmp_le ((λ e, (e.2, e.1)) <$> map_to_list scores).
Definition score_text (s : f64) : bytes := default [] (Score_to_bytes s).

Definition spec_sorted_set (m : dataset) (k : bytes) (o : SortedSetCommand) : dataset * Reply :=
  match typed a_zset ∅ m k with
  | None => (m, RError WrongType)
  | Some z =>
      match o with
      | ZCard => (m, RInteger (zsize z))
      | ZScore member => (m, RBulk (score_text <$> z !! member))
      | ZRange start stop with_scores =>
          (m, RArray (flat_map (λ e, RBulk (Some e.2) ::
                                     if with_scores then [RBulk (Some (score_text e.1))] else [])
                        (slice (zsorted z) start stop)))
      | ZAdd entries =>
          let z' := with_entries ((λ e, (e.2, e.1)) <$> entries) z in
          (put m k (AZSet z') (a_expiry m k), RInteger (zsize z' - zsize z))
      | ZRemove members =>
          let z' := without members z in
          (put m k (AZSet z') (a_expiry m k), RInteger (zsize z - zsize z'))
      end
  end.

Definition spec (t : Sample) (c : Command) (m : dataset) : dataset * Reply :=
  match c with
  | CMemory _ _ => (m, RError (ExecMemory "ERR memory commands require native preparation"))
  | CHash k o => spec_hash m k o
  | CList k o => spec_list m k o
  | CSetCollection k o => spec_set_collection m k o
  | CSortedSet k o => spec_sorted_set m k o
  | CPing None => (m, RPong)
  | CPing (Some message) | CEcho message => (m, RBulk (Some message))
  | CGet k => (m, spec_get m k)
  | CSet k v => spec_set t m k v SetOptions_default
  | CSetWithOptions k v o => spec_set t m k v o
  | CDel keys => (without keys m, RInteger (zsize m - zsize (without keys m)))
  | CExists keys =>
      (m, RInteger (zlen (List.filter (λ k, bool_decide (is_Some (m !! k))) keys)))
  | CMGet keys => (m, RArray ((λ k, RBulk (a_string m k)) <$> keys))
  | CMSet entries => (with_entries ((λ e, (e.1, (AString e.2, None))) <$> entries) m, ROk)
  | CIncr k => spec_increment m k 1
  | CDecr k => spec_increment m k (-1)
  | CExpire k value unit => spec_expire t m k value unit
  | CTtl k milliseconds => (m, spec_ttl t m k milliseconds)
  | CPersist k => spec_persist m k
  | CInfo _ | CMulti | CExec | CDiscard | CWatch _ | CUnwatch | CSubscribe _ | CUnsubscribe _
  | CPublish _ _ => (m, RError ConnectionOnly)
  end.

(** The logical size of a dataset. *)
Definition a_size (v : AValue) : Z :=
  match v with
  | AString value => zlen value
  | AHash fields => zsum_with (λ e, zlen e.1 + zlen e.2 + 64) (btree_iter fields)
  | AList values => zsum_with (λ value, zlen value + 32) values
  | ASet members => zsum_with (λ member, zlen member + 64) (btree_set_iter members)
  | AZSet scores => zsum_with (λ e, zlen e.2 + 96) (zsorted scores)
  | AMemory collection => c_logical_bytes collection
  end.
Definition a_entry_size (k : bytes) (x : AValue * option (Z * Z)) : Z :=
  zlen k + a_size x.1 + ENTRY_OVERHEAD_BYTES.
Definition dataset_size (m : dataset) : Z := map_zsum a_entry_size m.

Lemma zset_iter z : zset_ok z → SortedSet_iter z = zsorted (z_members z).
Proof.
  intros [Ho _]. unfold SortedSet_iter, zsorted, btree_set_iter.
  apply (StronglySorted_unique cmp_le); [apply StronglySorted_merge_sort; apply _..|].
  rewrite !merge_sort_Permutation. apply NoDup_Permutation.
  - apply NoDup_elements.
  - apply NoDup_fmap_2; [|apply NoDup_map_to_list]. by intros [] [] [= -> ->].
  - intros [s m]. rewrite elem_of_elements, Ho, list_elem_of_fmap. split.
    + intros Hm. exists (m, s). split; [done|]. by apply elem_of_map_to_list.
    + intros ([m' s'] & [= -> ->] & Hin). by apply elem_of_map_to_list in Hin.
Qed.

Lemma a_size_abs v : value_ok v → a_size (abs_value v) = value_size v.
Proof. destruct v; cbn; try done. intros [_ Hz]. by rewrite zset_iter. Qed.

(** ** Steps on the abstract dataset *)

Lemma lookup_view s t k :
  view s t !! k = values s !! k ≫= λ e, if expired_at e (now t) then None else Some (abs_entry e).
Proof. unfold view. apply lookup_omap. Qed.

(** The key is absent or visible. *)
Definition live (s : Store) (t : Sample) (k : bytes) : Prop :=
  ∀ e, values s !! k = Some e → expired_at e (now t) = false.

Lemma lookup_view_live s t k : live s t k → view s t !! k = abs_entry <$> values s !! k.
Proof.
  intros Hl. rewrite lookup_view. destruct (values s !! k) as [e|] eqn:E; simpl; [|done].
  by rewrite (Hl e E).
Qed.

Lemma view_evict s t k : view (evict s k) t = delete k (view s t).
Proof. unfold view. rewrite evict_values. apply omap_delete. Qed.

Lemma view_installed s t k e :
  expired_at e (now t) = false → view (installed s k e) t = <[k := abs_entry e]> (view s t).
Proof.
  intros He. unfold view. destruct (installed_values s k e) as [g ->].
  apply (omap_insert_Some _ _ k (stamp e g)). unfold expired_at in *. cbn [expires_at stamp]. by rewrite He.
Qed.

Lemma view_watches s t w : view (set_watches s w) t = view s t.
Proof. done. Qed.

(** Sequencing of a run: the next part starts from the store the first leaves. *)
Definition runs (base : Z) (n : nat) (K : list bytes) (s : Store) {A} (r : option (Store * A))
    (Q : Store → A → Prop) : Prop :=
  ∃ s' a, r = Some (s', a) ∧ steps n K s s' ∧ core base s' ∧ Q s' a.

Lemma expire_key_ok base s t k :
  core base s →
  ∃ s', expire_key s k (now t) = Some s' ∧ steps 1 [k] s s' ∧ core base s' ∧ live s' t k ∧
        view s' t = view s t.
Proof.
  intros Hc. unfold expire_key, live. destruct (values s !! k) as [e|] eqn:E.
  - destruct (expired_at e (now t)) eqn:Ee.
    + rewrite (remove_eq base) by done. cbn. eexists. split; [done|]. split_and!.
      * apply (steps_one _ k); [set_solver|constructor].
      * by apply core_evict.
      * intros e'. by rewrite evict_values, lookup_delete_eq.
      * rewrite view_evict. apply delete_id. rewrite lookup_view, E. simpl. by rewrite Ee.
    + eexists. split; [done|]. split_and!; try done. intros e'. rewrite E. by intros [= <-].
  - eexists. split; [done|]. split_and!; try done. intros e'. by rewrite E.
Qed.

Definition fresh_entry (v : Value) (x : option (Z * Z)) (ds : gmap bytes Z) : Entry :=
  {| e_value := v; expires_at := fst <$> x; expires_at_unix_ms := snd <$> x; e_generation := 0;
     member_deadlines := ds |}.

Lemma bool_decide_ext_if {A} (P Q : Prop) `{Decision P, Decision Q} (x y : A) :
  (P ↔ Q) → (if bool_decide P then x else y) = (if bool_decide Q then x else y).
Proof. intros HPQ. by rewrite (bool_decide_ext P Q HPQ). Qed.

(** The deadlines of an unchanged image are the retained ones. *)
Lemma resolve_retained s t k e :
  values s !! k = Some e → entry_ok k e →
  resolve_member_deadlines s t k (e_value e) = Ok (member_deadlines e).
Proof.
  intros Hk [_ _ _ Hd _]. unfold deadlines_ok in Hd. unfold resolve_member_deadlines.
  destruct (e_value e) as [| | | | |c] eqn:Ev; try by rewrite Hd.
  rewrite Hk. match goal with |- fold_ok ?g _ _ = _ => set (f := g) end.
  assert (∀ l acc, (∀ id m, (id, m) ∈ l → c_members c !! id = Some m) →
    ∃ r, fold_ok f acc l = Ok r ∧
      ∀ id, r !! id = if bool_decide (id ∈ l.*1)
                      then match member_deadlines e !! id with Some d => Some d | None => acc !! id end
                      else acc !! id) as Hl.
  { induction l as [|[id m] l IH]; intros acc Hin; [by eexists|].
    change ((id, m) :: l).*1 with (id :: l.*1).
    pose proof (Hin id m ltac:(left)) as Hm. cbn [fold_ok].
    destruct (m_deadline m) as [a|] eqn:Ea.
    - destruct (proj2 (Hd id)) as [d Hid]; [by exists m; rewrite Ea|].
      assert (f acc (id, m) = Ok (<[id := d]> acc)) as ->.
      { unfold f, resolve_deadline. cbn. rewrite Ea. cbn. rewrite Ev, Hm. cbn.
        by rewrite Ea, bool_decide_eq_true_2, Hid. }
      cbn. destruct (IH (<[id := d]> acc)) as (r & -> & Hr); [set_solver|].
      exists r. split; [done|]. intros id'. rewrite Hr. destruct (decide (id = id')) as [<-|Hne].
      + rewrite Hid, lookup_insert_eq. by do 2 case_bool_decide; set_solver.
      + rewrite lookup_insert_ne by done. apply bool_decide_ext_if. set_solver.
    - assert (member_deadlines e !! id = None) as Hid.
      { apply eq_None_not_Some. rewrite Hd. intros (m' & Hm' & Hs). rewrite Hm in Hm'.
        injection Hm' as <-. rewrite Ea in Hs. by destruct Hs. }
      assert (f acc (id, m) = Ok acc) as -> by (unfold f; cbn; by rewrite Ea).
      cbn. destruct (IH acc) as (r & -> & Hr); [set_solver|].
      exists r. split; [done|]. intros id'. rewrite Hr. destruct (decide (id = id')) as [<-|Hne].
      + rewrite Hid. by do 2 case_bool_decide.
      + apply bool_decide_ext_if. set_solver. }
  destruct (Hl (btree_iter (c_members c)) ∅) as (r & -> & Hr).
  { intros. by apply btree_iter_elem. }
  f_equal. apply map_eq. intros id. rewrite Hr, lookup_empty.
  destruct (member_deadlines e !! id) eqn:E; [|by case_bool_decide].
  rewrite bool_decide_eq_true_2; [done|]. destruct (proj1 (Hd id)) as (m & Hm & _); [by rewrite E|].
  apply list_elem_of_fmap. exists (id, m). split; [done|]. by apply btree_iter_elem.
Qed.

Definition plain (v : Value) : Prop := match v with VMemory _ => False | _ => True end.
Definition live_expiry (t : Sample) (x : option (Z * Z)) : Prop :=
  match x with Some (d, a) => now t < d ∧ I64_MIN <= a <= I64_MAX | None => True end.

Lemma entry_expiry_fresh v x ds : entry_expiry (fresh_entry v x ds) = x.
Proof. by destruct x as [[]|]. Qed.
Lemma abs_entry_fresh v x ds : abs_entry (fresh_entry v x ds) = (abs_value v, x).
Proof. unfold abs_entry. by rewrite entry_expiry_fresh. Qed.
Lemma expired_fresh t v x ds : live_expiry t x → expired_at (fresh_entry v x ds) (now t) = false.
Proof. destruct x as [[d u]|]; [|done]. unfold expired_at. simpl. lia. Qed.
Lemma entry_ok_fresh k v x ds :
  value_ok v → key_ok k v → deadlines_ok (fresh_entry v x ds) → i64_deadline (snd <$> x) → i64_members v →
  entry_ok k (fresh_entry v x ds).
Proof. intros Hv Hk Hd Hx Hm. split; [done|done| |done|done]. simpl. rewrite !fmap_is_Some. done. Qed.
Lemma live_expiry_i64 t x : live_expiry t x → i64_deadline (snd <$> x).
Proof. destruct x as [[d a]|]; [|done]. by intros [_ ?]. Qed.

(** A visible entry has a deadline in the future, and both of its times. *)
Lemma live_entry_expiry s t k e :
  entry_ok k e → live s t k → values s !! k = Some e → live_expiry t (entry_expiry e).
Proof.
  intros [_ _ _ _ [Hi _]] Hl Hk. specialize (Hl e Hk). unfold expired_at in Hl. unfold entry_expiry, live_expiry.
  destruct (expires_at e), (expires_at_unix_ms e); try done. cbn in Hi. lia.
Qed.
Lemma expiry_none k e : entry_ok k e → (entry_expiry e = None ↔ expires_at e = None).
Proof.
  intros [_ _ He _ _]. unfold entry_expiry. destruct (expires_at e), (expires_at_unix_ms e); try done.
  destruct He as [He _]. destruct He; [by eexists|done].
Qed.

Lemma insert_eq base s t k v x ds :
  core base s → resolve_member_deadlines s t k v = Ok ds → entry_ok k (fresh_entry v x ds) →
  used_bytes s - charge s k + entry_size k v <= max_dataset_bytes (config s) →
  insert s t k v x = Some (installed s k (fresh_entry v x ds)).
Proof. intros Hc Hr He Hq. unfold insert. rewrite Hr. by apply (install_entry_eq base). Qed.

Lemma insert_ok base s t k v x ds :
  core base s → resolve_member_deadlines s t k v = Ok ds → entry_ok k (fresh_entry v x ds) →
  live_expiry t x →
  used_bytes s - charge s k + entry_size k v <= max_dataset_bytes (config s) →
  ∃ s', insert s t k v x = Some s' ∧ steps 1 [k] s s' ∧ core base s' ∧
        view s' t = <[k := (abs_value v, x)]> (view s t).
Proof.
  intros Hc Hr He Hx Hq. rewrite (insert_eq base s t k v x ds) by done. eexists. split; [done|].
  split_and!.
  - apply (steps_one _ k); [set_solver|]. by constructor.
  - by apply core_installed.
  - by rewrite view_installed, abs_entry_fresh by by apply expired_fresh.
Qed.

Lemma insert_plain base s t k v x :
  core base s → plain v → value_ok v → live_expiry t x →
  used_bytes s - charge s k + entry_size k v <= max_dataset_bytes (config s) →
  ∃ s', insert s t k v x = Some s' ∧ steps 1 [k] s s' ∧ core base s' ∧
        view s' t = <[k := (abs_value v, x)]> (view s t).
Proof.
  intros Hc Hp Hv Hx Hq. apply (insert_ok base s t k v x ∅); try done; [by destruct v|].
  apply entry_ok_fresh; [done|by destruct v..|by eapply live_expiry_i64|by destruct v].
Qed.

(** Rewriting an entry with its own value: EXPIRE and PERSIST. *)
Lemma insert_same base s t k e x :
  core base s → values s !! k = Some e → live_expiry t x →
  ∃ s', insert s t k (e_value e) x = Some s' ∧ steps 1 [k] s s' ∧ core base s' ∧
        view s' t = <[k := (abs_value (e_value e), x)]> (view s t).
Proof.
  intros Hc Hk Hx. pose proof (co_entries _ _ Hc _ _ Hk) as He.
  apply (insert_ok base s t k (e_value e) x (member_deadlines e)); try done.
  - by apply resolve_retained.
  - apply entry_ok_fresh; [apply He..|by eapply live_expiry_i64|apply He].
  - unfold charge. rewrite Hk. destruct Hc. lia.
Qed.

Lemma charged_eq base s k : core base s → charged s k = charge s k.
Proof.
  intros Hc. pose proof (charge_bounds base s k Hc) as Hb. unfold charged, charge in *.
  destruct (values s !! k) as [e|] eqn:E; simpl; [|done].
  rewrite entry_bytes_eq by apply (eo_value _ _ (co_entries _ _ Hc _ _ E)). destruct Hc.
  assert (ISIZE_MAX <= USIZE_MAX) by done. by rewrite usize_checked_ok by lia.
Qed.

Lemma within_limit_ok base s proposed :
  core base s → within_limit s proposed = true →
  ∃ usage, proposed = Some usage ∧ usage <= max_dataset_bytes (config s).
Proof.
  intros [] Hw. unfold within_limit in Hw. destruct proposed as [usage|]; [|done].
  exists usage. split; [done|]. lia.
Qed.

Lemma can_replace_ok base s k v :
  core base s → value_ok v → can_replace s k v = true →
  used_bytes s - charge s k + entry_size k v <= max_dataset_bytes (config s).
Proof.
  intros Hc Hv Hr. destruct (within_limit_ok base s _ Hc Hr) as (usage & Hu & Hle).
  rewrite entry_bytes_eq, (charged_eq base) in Hu by done. unfold u_sub, u_add in Hu. inv_ok. lia.
Qed.

(** What a live key charges is its size in the dataset. *)
Lemma charge_view base s t k x :
  core base s → live s t k →
  dataset_size (<[k := x]> (view s t)) = dataset_size (view s t) - charge s k + a_entry_size k x.
Proof.
  intros Hc Hl. unfold dataset_size. rewrite <- insert_delete_eq, map_zsum_insert by apply lookup_delete_eq.
  unfold charge. pose proof (lookup_view_live s t k Hl) as Hv.
  destruct (values s !! k) as [e|] eqn:E; cbn in Hv; [|rewrite delete_id by done; lia].
  rewrite (map_zsum_delete _ _ _ _ Hv). unfold a_entry_size at 3. cbn.
  rewrite a_size_abs by apply (eo_value _ _ (co_entries _ _ Hc _ _ E)). unfold entry_size. lia.
Qed.

(** The quota does not hold dataset [m] beside the expired keys that still
    occupy the store. *)
Definition exhausted (t : Sample) (s : Store) (m : dataset) : Prop :=
  max_dataset_bytes (config s) < used_bytes s - dataset_size (view s t) + dataset_size m.

Lemma cannot_replace base s t k v x :
  core base s → value_ok v → live s t k → can_replace s k v = false →
  exhausted t s (<[k := (abs_value v, x)]> (view s t)).
Proof.
  intros Hc Hv Hl Hr. unfold exhausted. rewrite (charge_view base) by done. unfold a_entry_size. cbn.
  rewrite a_size_abs by done. fold (entry_size k v).
  unfold can_replace, within_limit in Hr. rewrite entry_bytes_eq, (charged_eq base) in Hr by done.
  pose proof (charge_bounds base s k Hc). pose proof (entry_size_pos k v Hv). destruct Hc.
  assert (ISIZE_MAX <= USIZE_MAX) by done. unfold entry_size in *.
  destruct (usize_checked_cases (zlen k + value_size v + ENTRY_OVERHEAD_BYTES)) as [E|[? E]]; [lia| |lia].
  rewrite E in Hr. cbn in Hr. unfold u_sub in Hr. rewrite usize_checked_ok in Hr by lia. cbn in Hr.
  unfold u_add in Hr. destruct (usize_checked_cases
    (used_bytes s - charge s k + (zlen k + value_size v + ENTRY_OVERHEAD_BYTES))) as [E'|[? E']]; [lia| |lia].
  rewrite E' in Hr. lia.
Qed.

(** The outcome of a guarded write. *)
Definition wrote (t : Sample) (s : Store) (m : dataset) (reply : Reply) (s' : Store) (r : Reply) : Prop :=
  r = RError OutOfMemory ∧ view s' t = view s t ∧ exhausted t s' m ∨ r = reply ∧ view s' t = m.

Lemma replace_ok base s t k v x reply :
  core base s → live s t k → plain v → value_ok v → live_expiry t x →
  runs base 1 [k] s (replace s t k v x reply)
    (wrote t s (<[k := (abs_value v, x)]> (view s t)) reply).
Proof.
  intros Hc Hl Hp Hv Hx. unfold replace. destruct (can_replace s k v) eqn:Er.
  - apply (can_replace_ok base) in Er; [|done..].
    destruct (insert_plain base s t k v x) as (s' & -> & Hs & Hc' & Hw); [done..|].
    exists s', reply. split_and!; try done. by right.
  - exists s, (RError OutOfMemory). split_and!; try done. left. split_and!; try done.
    by eapply cannot_replace.
Qed.

Lemma shrink_ok base s t k empty v x reply :
  core base s → live_expiry t x →
  (empty = false → plain v ∧ value_ok v ∧ entry_size k v <= charge s k) →
  runs base 1 [k] s (shrink s t k empty v x reply)
    (λ s' r, r = reply ∧
       view s' t = if empty then delete k (view s t) else <[k := (abs_value v, x)]> (view s t)).
Proof.
  intros Hc Hx Hv. unfold shrink. destruct empty.
  - rewrite (remove_eq base) by done. exists (evict s k), reply. split_and!; try done.
    + apply (steps_one _ k); [set_solver|constructor].
    + by apply core_evict.
    + apply view_evict.
  - destruct (Hv eq_refl) as (Hp & Hok & Hle).
    destruct (insert_plain base s t k v x) as (s' & -> & Hs & Hc' & Hw); try done.
    + destruct Hc. lia.
    + exists s', reply. by split_and!.
Qed.

(** ** The commands refine their reference semantics *)

(** A command does exactly what its reference semantics does; or it changes
    nothing that is visible and reports that the quota is exhausted, and then
    the quota does not hold the dataset of the reference semantics. *)
Definition refines (t : Sample) (c : Command) (s s' : Store) (r : Reply) : Prop :=
  r = RError OutOfMemory ∧ view s' t = view s t ∧ exhausted t s' (spec t c (view s t)).1 ∨
  spec t c (view s t) = (view s' t, r).

Lemma runs_ret base n K s {A} (a : A) (Q : Store → A → Prop) :
  core base s → Q s a → runs base n K s (Some (s, a)) Q.
Proof. intros Hc HQ. exists s, a. split_and!; try done. Qed.

Lemma runs_expire base n s t k {A} (f : Store → option (Store * A)) (Q : Store → A → Prop) :
  core base s →
  (∀ s1, core base s1 → live s1 t k → view s1 t = view s t → runs base n [k] s1 (f s1) Q) →
  runs base (S n) [k] s (s1 ← expire_key s k (now t); f s1) Q.
Proof.
  intros Hc Hf. destruct (expire_key_ok base s t k Hc) as (s1 & -> & Hs & Hc1 & Hl & Hv).
  destruct (Hf s1 Hc1 Hl Hv) as (s' & a & Ha & Hs' & Hc' & HQ). exists s', a.
  split_and!; try done. by eapply steps_trans.
Qed.

Lemma runs_mono base n K s {A} (r : option (Store * A)) (Q R : Store → A → Prop) :
  runs base n K s r Q → (∀ s' a, Q s' a → R s' a) → runs base n K s r R.
Proof. intros (s' & a & ? & ? & ? & HQ) HR. exists s', a. split_and!; try done. by apply HR. Qed.

(** A string of the view. *)
Lemma a_string_live s t k :
  live s t k → a_string (view s t) k = (e ← values s !! k; as_string (e_value e)).
Proof.
  intros Hl. unfold a_string. rewrite lookup_view_live by done.
  destruct (values s !! k) as [e|]; simpl; [|done]. by destruct (e_value e).
Qed.
Lemma a_expiry_live s t k :
  live s t k → a_expiry (view s t) k = values s !! k ≫= entry_expiry.
Proof.
  intros Hl. unfold a_expiry. rewrite lookup_view_live by done. by destruct (values s !! k).
Qed.
Lemma a_expiry_future base s t k : core base s → live s t k → live_expiry t (values s !! k ≫= entry_expiry).
Proof.
  intros Hc Hl. destruct (values s !! k) as [e|] eqn:E; simpl; [|done].
  eapply live_entry_expiry; [by eapply co_entries|done..].
Qed.

Lemma get_ok base s t k :
  core base s → runs base 2 [k] s (get s t k) (refines t (CGet k) s).
Proof.
  intros Hc. unfold get. apply runs_expire; [done|]. intros s1 Hc1 Hl Hv.
  apply runs_ret; [done|]. right. simpl. rewrite <- Hv. unfold spec_get.
  rewrite lookup_view_live by done. destruct (values s1 !! k) as [e|]; simpl; [|done].
  by destruct (e_value e).
Qed.

Lemma replace_refines base s t k v x reply c m :
  core base s → live s t k → plain v → value_ok v → live_expiry t x →
  spec t c (view s t) = (m, reply) → m = <[k := (abs_value v, x)]> (view s t) →
  runs base 1 [k] s (replace s t k v x reply) (refines t c s).
Proof.
  intros Hc Hl Hp Hv Hx Hs ->. eapply runs_mono; [by apply replace_ok|].
  intros s' r [(-> & Hw & He)|[-> Hw]]; [left; by rewrite Hs|right]. by rewrite Hs, Hw.
Qed.

Lemma increment_ok base s t k delta c :
  (∀ m, spec t c m = spec_increment m k delta) → core base s →
  runs base 2 [k] s (increment s t k delta) (refines t c s).
Proof.
  intros Hspec Hc. unfold increment. apply runs_expire; [done|]. intros s1 Hc1 Hl Hv.
  unfold refines. rewrite <- Hv. fold (refines t c s1).
  set (previous := match values s1 !! k with Some _ => _ | None => _ end).
  assert (spec t c (view s1 t) =
    match previous with
    | Err e => (view s1 t, RError e)
    | Ok n => match i_add n delta with
              | Some v => (<[k := (AString (sdec v), values s1 !! k ≫= entry_expiry)]> (view s1 t), RInteger v)
              | None => (view s1 t, RError IntegerOverflow)
              end
    end) as Hs.
  { rewrite Hspec. unfold spec_increment, previous, i_add, i64_checked.
    rewrite lookup_view_live, a_expiry_live by done.
    destruct (values s1 !! k) as [e|]; simpl; [|by destruct (_ && _)].
    destruct (e_value e); simpl; try done. destruct (ok_or _ _); [|done]. by destruct (_ && _). }
  destruct previous as [n|e].
  - destruct (i_add n delta) as [v|].
    + eapply replace_refines; try done. by eapply a_expiry_future.
    + apply runs_ret; [done|]. by right.
  - apply runs_ret; [done|]. by right.
Qed.

Lemma deadline_future t ms d : deadline t ms = Some d → 0 < ms → live_expiry t (Some d).
Proof.
  unfold deadline. intros H Hms. inv_ok. subst. unfold instant_add in *. simpl.
  case_match; [|done]. simplify_eq. unfold i_add in *. rewrite i64_checked_Some in *. lia.
Qed.
Lemma set_deadline_future t o x : set_deadline t o = Some x → live_expiry t x.
Proof.
  unfold set_deadline. destruct (expiry o); [by intros [= <-]..|]. intros H. inv_ok. simplify_eq.
  eapply deadline_future; [done|]. lia.
Qed.

Lemma set_ok base s t k v o c :
  (∀ m, spec t c m = spec_set t m k v o) → core base s →
  runs base 2 [k] s (set s t k v o) (refines t c s).
Proof.
  intros Hspec Hc. unfold set. destruct (set_deadline t o) as [x|] eqn:Ex.
  2:{ apply runs_ret; [done|]. right. rewrite Hspec. unfold spec_set. by rewrite Ex. }
  apply runs_expire; [done|]. intros s1 Hc1 Hl Hv.
  unfold refines. rewrite <- Hv. fold (refines t c s1).
  assert (spec t c (view s1 t) = spec_set t (view s1 t) k v o) as Hs by apply Hspec.
  unfold spec_set in Hs. rewrite Ex, a_string_live, a_expiry_live, lookup_view_live in Hs by done.
  pose proof (a_expiry_future base s1 t k Hc1 Hl) as Hfut. apply set_deadline_future in Ex as Hx.
  destruct (values s1 !! k) as [e|] eqn:E; cbn in Hs, Hfut |- *;
    [destruct (as_string (e_value e)) eqn:Ea|];
    destruct (return_previous o), (condition o), (expiry o); cbn in Hs |- *;
    first [apply runs_ret; [done|]; by right|by eapply replace_refines].
Qed.

Lemma expire_ok base s t k value unit c :
  (∀ m, spec t c m = spec_expire t m k value unit) → core base s →
  runs base 2 [k] s (expire s t k value unit) (refines t c s).
Proof.
  intros Hs Hc. unfold expire. set (millis := match unit with Seconds => _ | Milliseconds => _ end).
  unfold spec_expire in Hs. fold millis in Hs.
  destruct millis as [ms|]; [|apply runs_ret; [done|]; right; apply Hs].
  destruct (Z.ltb_spec 0 ms) as [Hpos|Hneg].
  - rewrite (proj2 (Z.leb_gt _ _)) in * by lia.
    destruct (deadline t ms) as [d|] eqn:Ed; cbn; [|apply runs_ret; [done|]; right; apply Hs].
    apply deadline_future in Ed as Hd; [|done].
    apply runs_expire; [done|]. intros s1 Hc1 Hl Hv. unfold refines. rewrite <- Hv.
    specialize (Hs (view s1 t)). rewrite lookup_view_live in Hs by done.
    destruct (values s1 !! k) as [e|] eqn:E; cbn in Hs.
    + destruct (insert_same base s1 t k e (Some d)) as (s' & -> & Hst & Hc' & Hw); [done..|].
      exists s', (RInteger 1). split_and!; try done. right. by rewrite Hs, Hw.
    + apply runs_ret; [done|]. right. by rewrite Hs.
  - rewrite (proj2 (Z.leb_le _ _)) in * by lia. cbn.
    apply runs_expire; [done|]. intros s1 Hc1 Hl Hv. unfold refines. rewrite <- Hv.
    specialize (Hs (view s1 t)). rewrite lookup_view_live in Hs by done.
    destruct (values s1 !! k) as [e|] eqn:E; cbn in Hs.
    + rewrite (remove_eq base) by done. exists (evict s1 k), (RInteger 1). split_and!; try done.
      * apply (steps_one _ k); [set_solver|constructor].
      * by apply core_evict.
      * right. by rewrite Hs, view_evict.
    + apply runs_ret; [done|]. right. rewrite Hs. f_equal. apply delete_id.
      by rewrite lookup_view_live, E.
Qed.

Lemma ttl_ok base s t k ms : core base s → runs base 2 [k] s (ttl s t k ms) (refines t (CTtl k ms) s).
Proof.
  intros Hc. unfold ttl. apply runs_expire; [done|]. intros s1 Hc1 Hl Hv.
  apply runs_ret; [done|]. right. cbn [spec]. rewrite <- Hv. f_equal. unfold spec_ttl. f_equal.
  rewrite lookup_view_live by done. destruct (values s1 !! k) as [e|] eqn:E; cbn; [|done].
  pose proof (Hl e E) as He. pose proof (co_entries _ _ Hc1 _ _ E) as [_ _ Hx _].
  unfold entry_expiry, expired_at in *. destruct (expires_at e) as [d|]; [|by destruct (expires_at_unix_ms e)].
  destruct (expires_at_unix_ms e); [|by destruct (proj1 Hx)]. cbn.
  unfold remaining_millis. rewrite Z.max_r by lia.
  set (ttl := if ms then _ else _).
  assert (0 <= (d - now t) / 1000000) by (apply Z.div_pos; lia).
  assert (0 <= ttl) by (unfold ttl; destruct ms; [done|apply Z.div_pos; lia]).
  unfold i64_checked, I64_MIN. destruct (_ && _) eqn:Eb; cbn; lia.
Qed.

Lemma persist_ok base s t k : core base s → runs base 2 [k] s (persist s t k) (refines t (CPersist k) s).
Proof.
  intros Hc. unfold persist. apply runs_expire; [done|]. intros s1 Hc1 Hl Hv.
  unfold refines. rewrite <- Hv. cbn [spec]. unfold spec_persist. rewrite lookup_view_live by done.
  destruct (values s1 !! k) as [e|] eqn:E; cbn; [|apply runs_ret; [done|]; by right].
  pose proof (expiry_none k e (co_entries _ _ Hc1 _ _ E)) as Hx. case_bool_decide as He.
  - apply runs_ret; [done|]. right. by rewrite (proj2 Hx He).
  - destruct (insert_same base s1 t k e None) as (s' & -> & Hst & Hc' & Hw); [done..|].
    exists s', (RInteger 1). split_and!; try done. right. rewrite Hw.
    destruct (entry_expiry e); [done|]. by destruct He; apply Hx.
Qed.

(** *** Several keys *)

Lemma runs_step base n m p K s s1 {A} (r : option (Store * A)) (Q : Store → A → Prop) :
  steps n K s s1 → runs base m K s1 r Q → (n + m <= p)%nat → runs base p K s r Q.
Proof.
  intros Hs (s' & a & ? & ? & ? & ?) Hp. exists s', a. split_and!; try done. by eapply steps_trans.
Qed.
Lemma runs_weaken base n m K K' s {A} (r : option (Store * A)) (Q : Store → A → Prop) :
  (∀ k, k ∈ K → k ∈ K') → (n <= m)%nat → runs base n K s r Q → runs base m K' s r Q.
Proof.
  intros HK Hn (s' & a & ? & ? & ? & ?). exists s', a. split_and!; try done.
  eapply (steps_trans n 0); [by eapply steps_mono|done|lia].
Qed.

Lemma lookup_without {K V} `{Countable K} (l : list K) (m : gmap K V) k :
  without l m !! k = if bool_decide (k ∈ l) then None else m !! k.
Proof.
  unfold without. case_bool_decide.
  - apply map_lookup_filter_None. right. intros ?? Hn. by apply Hn.
  - destruct (m !! k) eqn:E; [by apply map_lookup_filter_Some|].
    apply map_lookup_filter_None. by left.
Qed.
Lemma without_cons {K V} `{Countable K} k l (m : gmap K V) :
  without (k :: l) m = without l (delete k m).
Proof.
  apply map_eq. intros k'. rewrite !lookup_without. destruct (decide (k = k')) as [<-|Hne].
  - rewrite lookup_delete_eq, bool_decide_eq_true_2 by set_solver. by case_bool_decide.
  - rewrite lookup_delete_ne by done. apply bool_decide_ext_if. set_solver.
Qed.
Lemma zsize_delete {K V} `{Countable K} k (m : gmap K V) :
  zsize (delete k m) = zsize m - (if bool_decide (is_Some (m !! k)) then 1 else 0).
Proof.
  unfold zsize. case_bool_decide as Hk.
  - destruct Hk as [v Hk]. rewrite map_size_delete, Hk.
    pose proof (proj2 (map_size_non_empty_iff m)) as Hne. assert (size m ≠ 0%nat); [|lia].
    apply Hne. intros ->. by rewrite lookup_empty in Hk.
  - rewrite delete_id; [lia|]. by apply eq_None_not_Some.
Qed.

Lemma live_view_some s t k :
  live s t k → is_Some (values s !! k) ↔ is_Some (view s t !! k).
Proof. intros Hl. rewrite lookup_view_live by done. by rewrite fmap_is_Some. Qed.

Lemma del_ok base s t keys n :
  core base s →
  runs base (2 * length keys) keys s (del s t keys n)
    (λ s' r, view s' t = without keys (view s t) ∧
             r = n + (zsize (view s t) - zsize (without keys (view s t)))).
Proof.
  revert s n. induction keys as [|k keys IH]; intros s n Hc; cbn [del].
  { apply runs_ret; [done|]. assert (without [] (view s t) = view s t) as ->; [|split; [done|lia]].
    apply map_eq. intros k. rewrite lookup_without. by rewrite bool_decide_eq_false_2 by set_solver. }
  destruct (expire_key_ok base s t k Hc) as (s1 & -> & Hs & Hc1 & Hl & Hv). cbn [mbind option_bind].
  rewrite (remove_eq base) by done. cbn [mbind option_bind].
  apply (runs_step _ 2 (2 * length keys) _ _ _ (evict s1 k)); [| |cbn; lia].
  { apply (steps_trans 1 1 _ _ _ s1); [by eapply steps_mono; [|done]; set_solver| |done].
    apply (steps_one _ k); [set_solver|constructor]. }
  apply (runs_weaken _ (2 * length keys) _ keys); [set_solver|done|].
  eapply runs_mono; [by apply IH, core_evict|]. intros s' r [Hw ->].
  rewrite view_evict, Hv in Hw |- *. rewrite without_cons. split; [done|].
  rewrite zsize_delete, <- Hv.
  assert (bool_decide (is_Some (values s1 !! k)) = bool_decide (is_Some (view s1 t !! k))) as ->.
  { apply bool_decide_ext. by apply live_view_some. }
  case_bool_decide; lia.
Qed.

Lemma read_keys_ok {A} base s t keys (f : Store → bytes → A) (g : bytes → A) :
  core base s →
  (∀ s1 k, view s1 t = view s t → live s1 t k → f s1 k = g k) →
  runs base (length keys) keys s (read_keys f s t keys) (λ s' l, view s' t = view s t ∧ l = g <$> keys).
Proof.
  revert s. induction keys as [|k keys IH]; intros s Hc Hf; cbn [read_keys].
  { by apply runs_ret. }
  destruct (expire_key_ok base s t k Hc) as (s1 & -> & Hs & Hc1 & Hl & Hv). cbn [mbind option_bind].
  destruct (IH s1 Hc1) as (s' & l & -> & Hs' & Hc' & Hw & ->).
  { intros. apply Hf; [|done]. congruence. }
  exists s', (f s1 k :: (g <$> keys)). split_and!; try done.
  - eapply steps_trans; [eapply steps_mono; [|done]; set_solver..|cbn; lia].
  - congruence.
  - cbn. by rewrite Hf.
Qed.

Lemma exists_ok base s t keys :
  core base s → runs base (length keys) keys s (exists_ s t keys) (refines t (CExists keys) s).
Proof.
  intros Hc. unfold exists_.
  destruct (read_keys_ok base s t keys (λ s key, bool_decide (is_Some (values s !! key)))
    (λ k, bool_decide (is_Some (view s t !! k))) Hc) as (s' & l & -> & Hs & Hc' & Hv & ->).
  { intros s1 k Hv Hl. apply bool_decide_ext. rewrite <- Hv. by apply live_view_some. }
  cbn. exists s'. eexists. split_and!; try done. right. cbn. rewrite Hv. do 3 f_equal.
  clear. induction keys as [|k keys IH]; cbn; [done|].
  case_bool_decide; cbn; [by rewrite !zlen_cons, IH|done].
Qed.

Lemma mget_ok base s t keys :
  core base s → runs base (length keys) keys s (mget s t keys) (refines t (CMGet keys) s).
Proof.
  intros Hc. unfold mget.
  destruct (read_keys_ok base s t keys
    (λ s key, RBulk (entry ← values s !! key; as_string (e_value entry)))
    (λ k, RBulk (a_string (view s t) k)) Hc) as (s' & l & -> & Hs & Hc' & Hv & ->).
  { intros s1 k Hv Hl. rewrite <- Hv. by rewrite a_string_live. }
  cbn. exists s'. eexists. split_and!; try done. right. cbn. by rewrite Hv.
Qed.

(** *** MSET *)

Lemma each_expire base s t {A} (l : list (bytes * A)) :
  core base s →
  ∃ s', each (λ s e, expire_key s e.1 (now t)) s l = Some s' ∧ steps (length l) l.*1 s s' ∧ core base s' ∧
        view s' t = view s t ∧ (∀ k, live s t k ∨ k ∈ l.*1 → live s' t k).
Proof.
  revert s. induction l as [|[k a] l IH]; intros s Hc; cbn [each].
  { exists s. split_and!; try done. intros k [?|?]; [done|set_solver]. }
  destruct (expire_key_ok base s t k Hc) as (s1 & E & Hs & Hc1 & Hl & Hv). cbn [fst]. rewrite E.
  destruct (IH s1 Hc1) as (s' & E' & Hs' & Hc' & Hv' & Hl'). cbn. exists s'. split_and!; try done.
  - eapply steps_trans; [eapply steps_mono; [|done]; set_solver..|cbn; lia].
  - congruence.
  - intros k' Hk'. apply Hl'. destruct (decide (k' = k)) as [->|Hne]; [by left|].
    destruct Hk' as [Hk'|[->|Hin]%elem_of_cons]; [left|done|by right].
    destruct (steps_frame _ _ _ _ Hs) as [_ Hf]. intros e. rewrite Hf by set_solver. apply Hk'.
Qed.

(** Removing a live key leaves the space of the expired ones. *)
Lemma residue_evict base s t k :
  core base s → live s t k →
  used_bytes (evict s k) - dataset_size (view (evict s k) t) = used_bytes s - dataset_size (view s t).
Proof.
  intros Hc Hl. rewrite evict_used, view_evict. unfold charge, dataset_size.
  pose proof (lookup_view_live s t k Hl) as Hv.
  destruct (values s !! k) as [e|] eqn:E; cbn in Hv; [|rewrite delete_id by done; lia].
  rewrite (map_zsum_delete _ _ _ _ Hv). unfold a_entry_size at 2. cbn.
  rewrite a_size_abs by apply (eo_value _ _ (co_entries _ _ Hc _ _ E)). unfold entry_size. lia.
Qed.

Lemma charge_evict s k k' : k ≠ k' → charge (evict s k) k' = charge s k'.
Proof. intros Hne. unfold charge. by rewrite evict_values, lookup_delete_ne. Qed.

Lemma each_remove base s t {A} (l : list (bytes * A)) :
  core base s → NoDup l.*1 → (∀ k, k ∈ l.*1 → live s t k) →
  ∃ s', each (λ s e, '(s, _) ← remove s e.1; Some s) s l = Some s' ∧ steps (length l) l.*1 s s' ∧ core base s' ∧
        view s' t = without l.*1 (view s t) ∧ (∀ k, k ∈ l.*1 → values s' !! k = None) ∧
        used_bytes s' = used_bytes s - zsum_with (λ e, charge s e.1) l ∧
        used_bytes s' - dataset_size (view s' t) = used_bytes s - dataset_size (view s t).
Proof.
  revert s. induction l as [|[k a] l IH]; intros s Hc Hn Hl; cbn [each].
  { exists s. split_and!; try done; [|set_solver|cbn; lia].
    apply map_eq. intros k. rewrite lookup_without. by rewrite bool_decide_eq_false_2 by set_solver. }
  cbn [fst]. rewrite (remove_eq base) by done. cbn [mbind option_bind].
  apply NoDup_cons in Hn as [Hk Hn]. pose proof (core_evict _ _ k Hc) as Hc1.
  destruct (IH (evict s k) Hc1 Hn) as (s' & -> & Hs & Hc' & Hv & Habs & Hu & Hr).
  { intros k' Hk' e. rewrite evict_values. intros [_ ?]%lookup_delete_Some. by eapply Hl; [right|]. }
  exists s'. split_and!; try done.
  - eapply (steps_trans 1 (length l)); [apply (steps_one _ k); [set_solver|constructor]| |cbn; lia].
    eapply steps_mono; [|done]. set_solver.
  - by rewrite Hv, view_evict, <- without_cons.
  - intros k' [->|Hin]%elem_of_cons; [|by apply Habs].
    destruct (steps_frame _ _ _ _ Hs) as [_ Hf]. rewrite Hf, evict_values by done. apply lookup_delete_eq.
  - rewrite Hu, evict_used. cbn.
    assert (zsum_with (λ e, charge (evict s k) e.1) l = zsum_with (λ e, charge s e.1) l) as ->; [|unfold zsum_with; lia].
    clear -Hk. induction l as [|[k' a'] l IH]; cbn; [done|].
    rewrite charge_evict by (intros ->; apply Hk; left).
    unfold zsum_with in IH. rewrite IH; [done|]. intros Hin. apply Hk. by right.
  - rewrite Hr. eapply residue_evict; [done|]. apply Hl. left.
Qed.

Lemma try_fold_charges base s {A} (l : list (bytes * A)) b :
  core base s → 0 <= b - zsum_with (λ e, charge s e.1) l → b <= USIZE_MAX →
  try_fold (λ base e,
    match values s !! e.1 with
    | Some old => size ← entry_bytes e.1 (e_value old); u_sub base size
    | None => Some base
    end) b l = Some (b - zsum_with (λ e, charge s e.1) l).
Proof.
  intros Hc. revert b. induction l as [|[k a] l IH]; intros b Hb Hm; cbn [try_fold]; [cbn; f_equal; lia|].
  change (zsum_with ?g (?x :: l)) with (g x + zsum_with g l) in *. cbn [fst] in *.
  assert (0 <= zsum_with (λ e, charge s e.1) l).
  { apply zsum_with_nonneg. intros x. apply (charge_bounds base s x.1 Hc). }
  pose proof (charge_bounds base s k Hc) as Hk.
  assert (match values s !! k with
          | Some old => size ← entry_bytes k (e_value old); u_sub b size
          | None => Some b
          end = Some (b - charge s k)) as ->.
  { unfold charge in *. destruct (values s !! k) as [e|] eqn:E; [|f_equal; lia].
    rewrite entry_bytes_eq by apply (eo_value _ _ (co_entries _ _ Hc _ _ E)).
    rewrite usize_checked_ok by lia. cbn. unfold u_sub. by rewrite usize_checked_ok by lia. }
  cbn. rewrite IH by lia. f_equal. lia.
Qed.

Lemma installed_used s k e :
  used_bytes (installed s k e) = used_bytes s - charge s k + entry_size k (e_value e).
Proof. unfold installed. cbn [used_bytes update]. by rewrite evict_used. Qed.
Lemma installed_config s k e : config (installed s k e) = config s.
Proof. unfold installed. cbn [config update]. by rewrite evict_config. Qed.

(** The dataset with string values under some keys. *)
Definition with_strings (l : list (bytes * bytes)) (m : dataset) : dataset :=
  ((λ v, (AString v, None)) <$> (list_to_map l : gmap bytes bytes)) ∪ m.

Lemma each_insert base s t (l : list (bytes * bytes)) :
  core base s → NoDup l.*1 → (∀ k, k ∈ l.*1 → values s !! k = None) →
  used_bytes s + zsum_with (λ e, entry_size e.1 (VString e.2)) l <= max_dataset_bytes (config s) →
  ∃ s', each (λ s e, insert s t e.1 (VString e.2) None) s l = Some s' ∧ steps (length l) l.*1 s s' ∧ core base s' ∧
        view s' t = with_strings l (view s t).
Proof.
  revert s. induction l as [|[k v] l IH]; intros s Hc Hn Habs Hq; cbn [each].
  { exists s. split_and!; try done. unfold with_strings. cbn. rewrite fmap_empty. by rewrite (left_id_L ∅ _). }
  change (zsum_with ?g (?x :: l)) with (g x + zsum_with g l) in *. cbn [fst snd] in *.
  apply NoDup_cons in Hn as [Hk Hn].
  assert (charge s k = 0) as Hch by (unfold charge; rewrite (Habs k); [done|left]).
  assert (0 <= zsum_with (λ e, entry_size e.1 (VString e.2)) l).
  { apply zsum_with_nonneg. intros x. pose proof (entry_size_pos x.1 (VString x.2) I). lia. }
  pose proof (entry_ok_fresh k (VString v) None ∅ I I eq_refl I I) as He.
  rewrite (insert_eq base s t k (VString v) None ∅) by (done || lia). cbn [mbind option_bind].
  set (s1 := installed s k (fresh_entry (VString v) None ∅)).
  destruct (IH s1) as (s' & -> & Hs & Hc' & Hv); [|done| | |].
  - apply core_installed; try done. cbn. lia.
  - intros k' Hk'. unfold s1. destruct (installed_values s k (fresh_entry (VString v) None ∅)) as [g ->].
    rewrite lookup_insert_ne by (intros ->; done). apply Habs. by right.
  - unfold s1. rewrite installed_used, installed_config. cbn [e_value fresh_entry]. lia.
  - exists s'. split_and!; try done.
    + eapply steps_trans; [apply (steps_one _ k); [set_solver|]|eapply steps_mono; [|done]; set_solver|cbn; lia].
      constructor; [done|]. cbn. lia.
    + rewrite Hv. unfold s1. rewrite view_installed by done. unfold with_strings. cbn.
      rewrite fmap_insert. apply map_eq. intros k'. destruct (decide (k = k')) as [<-|Hne].
      * rewrite lookup_union_r; [by rewrite lookup_insert_eq, lookup_union_l', lookup_insert_eq by
          (rewrite lookup_insert_eq; eauto)|].
        rewrite lookup_fmap, fmap_None. by apply not_elem_of_list_to_map_1.
      * by rewrite !lookup_union, !lookup_insert_ne by done.
Qed.

Lemma with_strings_spec `{HashOrder} (entries : list (bytes * bytes)) (m : dataset) :
  with_strings (hash_iter (list_to_map (rev entries))) m =
  with_entries ((λ e, (e.1, (AString e.2, None))) <$> entries) m.
Proof.
  unfold with_strings, with_entries. f_equal.
  rewrite (list_to_map_proper (hash_iter _) (map_to_list (list_to_map (rev entries) : gmap bytes bytes))).
  - rewrite list_to_map_to_list, <- list_to_map_fmap. f_equal.
    induction entries as [|e entries IH]; cbn; [done|]. by rewrite fmap_app, IH.
  - rewrite hash_iter_perm. apply NoDup_fst_map_to_list.
  - apply hash_iter_perm.
Qed.

Lemma without_with_strings l m : with_strings l (without l.*1 m) = with_strings l m.
Proof.
  apply map_eq. intros k. unfold with_strings. rewrite !lookup_union, lookup_without.
  case_bool_decide as Hk; [|done].
  assert (is_Some (((λ v, (AString v, None)) <$> (list_to_map l : gmap bytes bytes)) !! k)) as [x ->].
  { rewrite lookup_fmap, fmap_is_Some. destruct ((list_to_map l : gmap bytes bytes) !! k) eqn:E; [by eexists|].
    by apply not_elem_of_list_to_map_2 in E. }
  by destruct (m !! k).
Qed.

Lemma with_strings_cons k v l m :
  k ∉ l.*1 → with_strings ((k, v) :: l) m = <[k := (AString v, None)]> (with_strings l m).
Proof. intros Hk. unfold with_strings. cbn. by rewrite fmap_insert, insert_union_l. Qed.
Lemma with_strings_size l m :
  NoDup l.*1 → (∀ k, k ∈ l.*1 → m !! k = None) →
  dataset_size (with_strings l m) = dataset_size m + zsum_with (λ e, entry_size e.1 (VString e.2)) l.
Proof.
  induction l as [|[k v] l IH]; intros Hn Hm.
  { unfold with_strings. cbn. rewrite fmap_empty, (left_id_L ∅ _). lia. }
  apply NoDup_cons in Hn as [Hk Hn]. cbn [fst] in Hk. rewrite with_strings_cons by done. unfold dataset_size.
  rewrite map_zsum_insert.
  - fold (dataset_size (with_strings l m)). rewrite IH by set_solver.
    change (zsum_with ?g (?x :: l)) with (g x + zsum_with g l).
    unfold a_entry_size at 1, entry_size at 2, dataset_size. cbn [fst snd a_size value_size]. lia.
  - unfold with_strings. rewrite lookup_union_None, lookup_fmap, fmap_None. split; [|apply Hm; left].
    by apply not_elem_of_list_to_map_1.
Qed.

Lemma mset_sum (b : Z) (x : bytes * bytes) :
  0 <= b → (size ← entry_bytes x.1 (VString x.2); u_add b size) = usize_checked (b + entry_size x.1 (VString x.2)).
Proof.
  intros Hb. rewrite entry_bytes_eq by done. pose proof (entry_size_pos x.1 (VString x.2) I). unfold u_add.
  destruct (usize_checked_cases (entry_size x.1 (VString x.2))) as [->|[? ->]]; [lia|done|].
  cbn. by rewrite usize_checked_none by lia.
Qed.

Lemma mset_ok `{HashOrder} base s t entries :
  core base s →
  runs base (3 * length entries) entries.*1 s (mset s t entries) (refines t (CMSet entries) s).
Proof.
  intros Hc. unfold mset. set (l := hash_iter _).
  assert (NoDup l.*1) as Hn by (unfold l; rewrite hash_iter_perm; apply NoDup_fst_map_to_list).
  assert (∀ k, k ∈ l.*1 → k ∈ entries.*1) as Hincl.
  { intros k (e & -> & He)%list_elem_of_fmap. unfold l in He. rewrite hash_iter_perm in He.
    destruct e as [k v]. apply elem_of_map_to_list, elem_of_list_to_map_2, list_elem_of_In, in_rev in He.
    apply list_elem_of_fmap. exists (k, v). split; [done|]. by apply list_elem_of_In. }
  assert (length l <= length entries)%nat as Hlen.
  { pose proof (submseteq_length _ _ (NoDup_submseteq _ _ Hn Hincl)) as Hle. by rewrite !length_fmap in Hle. }
  apply (runs_weaken _ (3 * length l) _ l.*1); [done|lia|].
  destruct (each_expire base s t l Hc) as (s1 & -> & Hs1 & Hc1 & Hv1 & Hl1). cbn [mbind option_bind].
  apply (runs_step _ (length l) (2 * length l) _ _ _ s1); [done| |lia].
  destruct (each_remove base s1 t l Hc1 Hn ltac:(auto)) as (s2 & E2 & Hs2 & Hc2 & Hv2 & Habs & Hu2 & Hres).
  assert (ISIZE_MAX <= USIZE_MAX) by done. destruct (steps_frame _ _ _ _ Hs2) as [Hcf _].
  assert (0 <= used_bytes s2 <= USIZE_MAX).
  { pose proof (charge_bounds base s2 [] Hc2). destruct Hc2. lia. }
  rewrite (try_fold_charges base) by (done || lia || (destruct Hc1; lia)). cbn [mbind option_bind].
  rewrite <- Hu2. rewrite (try_fold_sum _ (λ e, entry_size e.1 (VString e.2))); [| |by apply mset_sum|done].
  2:{ intros x. pose proof (entry_size_pos x.1 (VString x.2) I). lia. }
  pose proof (with_strings_size l (view s2 t) Hn) as Hsz.
  assert (spec t (CMSet entries) (view s t) = (with_strings l (view s2 t), ROk)) as Hspec.
  { cbn [spec]. rewrite Hv2, without_with_strings, Hv1. unfold l. by rewrite with_strings_spec. }
  destruct (negb _) eqn:Ew.
  { apply runs_ret; [done|]. left. split_and!; [done..|]. rewrite Hspec. unfold exhausted. cbn [fst].
    rewrite Hsz by (intros k Hk; rewrite lookup_view, (Habs k Hk); done). 
    destruct (usize_checked_cases (used_bytes s2 + zsum_with (λ e, entry_size e.1 (VString e.2)) l)) as [E|[Hx E]].
    - assert (0 <= zsum_with (λ e, entry_size e.1 (VString e.2)) l); [|lia]. apply zsum_with_nonneg.
      intros x. pose proof (entry_size_pos x.1 (VString x.2) I). lia.
    - rewrite E in Ew. cbn in Ew. lia.
    - destruct Hc1. lia. }
  apply negb_false_iff in Ew. apply (within_limit_ok base) in Ew as (usage & Hu & Hle); [|done].
  apply usize_checked_Some in Hu as [-> Hr]. rewrite E2. cbn [mbind option_bind].
  destruct (each_insert base s2 t l Hc2 Hn Habs) as (s3 & -> & Hs3 & Hc3 & Hv3); [by rewrite Hcf|].
  exists s3, ROk. split_and!; try done; [eapply (steps_trans (length l) (length l)); [done..|lia]|]. right. by rewrite Hspec, Hv3.
Qed.

(** *** Collections *)

Lemma value_ok_nonempty v : value_ok v → is_empty (abs_value v) = false.
Proof. destruct v; simpl; try done; intros Hv; apply bool_decide_eq_false_2; naive_solver. Qed.

(** Writing back the value a key has. *)
Lemma put_same base s t k v :
  core base s → live s t k →
  (match values s !! k with Some e => abs_value (e_value e) = v | None => is_empty v = true end) →
  put (view s t) k v (a_expiry (view s t) k) = view s t.
Proof.
  intros Hc Hl Hv. unfold put. rewrite a_expiry_live by done.
  destruct (values s !! k) as [e|] eqn:E.
  - subst v. rewrite value_ok_nonempty by apply (eo_value _ _ (co_entries _ _ Hc _ _ E)).
    cbn. apply insert_id. by rewrite lookup_view_live, E.
  - rewrite Hv. apply delete_id. by rewrite lookup_view_live, E.
Qed.

Section collection_writes.
Context (base : Z) (s : Store) (t : Sample) (k : bytes) (c : Command) (v : Value) (reply : Reply).
Hypothesis Hc : core base s.
Hypothesis Hl : live s t k.
Hypothesis Hspec :
  spec t c (view s t) = (put (view s t) k (abs_value v) (a_expiry (view s t) k), reply).

Lemma collection_same :
  (match values s !! k with
   | Some e => abs_value (e_value e) = abs_value v | None => is_empty (abs_value v) = true end) →
  runs base 1 [k] s (Some (s, reply)) (refines t c s).
Proof.
  intros Hv. apply runs_ret; [done|]. right. rewrite Hspec. f_equal. by apply (put_same base).
Qed.

Lemma collection_replace :
  plain v → value_ok v →
  runs base 1 [k] s (replace s t k v (values s !! k ≫= entry_expiry) reply) (refines t c s).
Proof.
  intros Hp Hv. eapply replace_refines; [done..| |exact Hspec|]; [by eapply a_expiry_future|].
  unfold put. by rewrite value_ok_nonempty, a_expiry_live.
Qed.

Lemma collection_shrink e empty :
  values s !! k = Some e → plain v → empty = is_empty (abs_value v) → (empty = false → value_ok v) →
  value_size v <= value_size (e_value e) →
  runs base 1 [k] s (shrink s t k empty v (values s !! k ≫= entry_expiry) reply) (refines t c s).
Proof.
  intros Hk Hp -> Hv Hle. eapply runs_mono.
  - apply shrink_ok; [done|by eapply a_expiry_future|]. intros Hem. split_and!; [done|by apply Hv|].
    unfold charge. rewrite Hk. unfold entry_size. lia.
  - intros s' r [-> Hw]. right. rewrite Hspec, Hw. unfold put. by rewrite a_expiry_live.
Qed.
End collection_writes.

Lemma zsum_with_submseteq {A} (f : A → Z) l k :
  (∀ x, 0 <= f x) → l ⊆+ k → zsum_with f l <= zsum_with f k.
Proof.
  intros Hf [k' Hk]%submseteq_Permutation. rewrite (zsum_with_perm _ _ _ Hk). clear Hk.
  induction l as [|x l IH]; cbn.
  - by apply zsum_with_nonneg.
  - unfold zsum_with in *. lia.
Qed.
Lemma zsum_with_subset {A} (f : A → Z) l k :
  (∀ x, 0 <= f x) → NoDup l → l ⊆ k → zsum_with f l <= zsum_with f k.
Proof. intros Hf Hn Hs. apply zsum_with_submseteq; [done|]. by apply NoDup_submseteq. Qed.

(** Folds as set and map operations. *)
Lemma set_add_fold l x n :
  fold_left set_add l (x, n) =
  (x ∪ list_to_set l, n + (Z.of_nat (size (x ∪ list_to_set l : gset bytes)) - Z.of_nat (size x))).
Proof.
  revert x n. induction l as [|b l IH]; intros x n.
  { cbn. rewrite (right_id_L ∅ (∪)). f_equal. lia. }
  cbn [fold_left]. unfold set_add at 2. cbn [fst snd]. rewrite IH.
  assert ({[b]} ∪ x ∪ list_to_set l = x ∪ list_to_set (b :: l)) as -> by set_solver.
  f_equal. case_bool_decide as Hb.
  - assert ({[b]} ∪ x = x) as -> by set_solver. done.
  - rewrite (size_union {[b]} x) by set_solver. rewrite size_singleton. lia.
Qed.
Lemma set_remove_fold l x n :
  fold_left set_remove l (x, n) =
  (x ∖ list_to_set l, n + (Z.of_nat (size x) - Z.of_nat (size (x ∖ list_to_set l : gset bytes)))).
Proof.
  revert x n. induction l as [|b l IH]; intros x n.
  { cbn. rewrite difference_empty_L. f_equal. lia. }
  cbn [fold_left]. unfold set_remove at 2. cbn [fst snd]. rewrite IH.
  assert (x ∖ {[b]} ∖ list_to_set l = x ∖ list_to_set (b :: l)) as -> by set_solver.
  f_equal. case_bool_decide as Hb.
  - rewrite (size_difference x {[b]}) by set_solver. rewrite size_singleton.
    assert (size ({[b]} : gset bytes) <= size x)%nat as Hsz by (apply subseteq_size; set_solver).
    rewrite size_singleton in Hsz. lia.
  - assert (x ∖ {[b]} = x) as -> by set_solver. done.
Qed.

Lemma with_entries_cons {K V} `{Countable K} k (v : V) l (m : gmap K V) :
  with_entries ((k, v) :: l) m = with_entries l (<[k := v]> m).
Proof.
  unfold with_entries. cbn [rev]. rewrite list_to_map_app. apply map_eq. intros k'.
  rewrite !lookup_union. cbn. destruct ((list_to_map (rev l) : gmap K V) !! k') as [w|] eqn:E.
  - destruct (decide (k = k')) as [<-|Hne].
    + rewrite !lookup_insert_eq. by destruct (m !! k).
    + by rewrite !lookup_insert_ne, lookup_empty by done.
  - destruct (decide (k = k')) as [<-|Hne].
    + rewrite !lookup_insert_eq. by destruct (m !! k).
    + by rewrite !lookup_insert_ne, lookup_empty by done.
Qed.
Lemma zsize_insert {K V} `{Countable K} k (v : V) (m : gmap K V) :
  zsize (<[k := v]> m) = zsize m + (if bool_decide (m !! k = None) then 1 else 0).
Proof.
  unfold zsize. case_bool_decide as Hk.
  - rewrite map_size_insert_None by done. lia.
  - rewrite map_size_insert_Some by (by apply not_eq_None_Some). lia.
Qed.

Lemma hash_set_fold l m n :
  fold_left hash_set l (m, n) = (with_entries l m, n + (zsize (with_entries l m) - zsize m)).
Proof.
  revert m n. induction l as [|[f v] l IH]; intros m n.
  { cbn. unfold with_entries. cbn. rewrite (left_id_L ∅ (∪)). f_equal. lia. }
  cbn [fold_left]. unfold hash_set at 2. cbn [fst snd]. rewrite IH, with_entries_cons.
  f_equal. rewrite zsize_insert. case_bool_decide; lia.
Qed.
Lemma without_nil {K V} `{Countable K} (m : gmap K V) : without [] m = m.
Proof.
  apply map_eq. intros k. rewrite lookup_without. by rewrite bool_decide_eq_false_2 by set_solver.
Qed.
Lemma hash_remove_fold l m n :
  fold_left hash_remove l (m, n) = (without l m, n + (zsize m - zsize (without l m))).
Proof.
  revert m n. induction l as [|f l IH]; intros m n.
  { cbn. rewrite without_nil. f_equal. lia. }
  cbn [fold_left]. unfold hash_remove at 2. cbn [fst snd]. rewrite IH, without_cons.
  f_equal. rewrite (zsize_delete f m). case_bool_decide; lia.
Qed.

(** The common frame of the typed commands: the key is expired, then it is
    absent, of the right type, or an error. *)
Lemma typed_ok {T U} (proj : Value → option T) (aproj : AValue → option U) (abs : T → U) (none : T)
    base s t k c (g : Store → T → outcome) :
  (∀ v, aproj (abs_value v) = abs <$> proj v) → core base s →
  (∀ m, typed aproj (abs none) m k = None → spec t c m = (m, RError WrongType)) →
  (∀ s1 x, core base s1 → live s1 t k → typed aproj (abs none) (view s1 t) k = Some (abs x) →
     (match values s1 !! k with Some e => proj (e_value e) = Some x | None => x = none end) →
     runs base 1 [k] s1 (g s1 x) (refines t c s1)) →
  runs base 2 [k] s
    (s ← expire_key s k (now t);
     match (match e_value <$> values s !! k with None => Some none | Some v => proj v end) with
     | None => fail_with s WrongType
     | Some x => g s x
     end) (refines t c s).
Proof.
  intros Hp Hc Hwrong Hg. apply runs_expire; [done|]. intros s1 Hc1 Hl Hv.
  unfold refines. rewrite <- Hv. fold (refines t c s1).
  specialize (Hwrong (view s1 t)). specialize (Hg s1).
  unfold typed in *. rewrite lookup_view_live in * by done.
  destruct (values s1 !! k) as [e|]; cbn in *.
  - rewrite Hp in *. destruct (proj (e_value e)) as [x|]; [by apply Hg|].
    apply runs_ret; [done|]. right. by rewrite Hwrong.
  - by apply Hg.
Qed.

(** A typed value is the stored one. *)
Lemma typed_value {T} (proj : Value → option T) (inj : T → Value) s k x none :
  (∀ v x, proj v = Some x → v = inj x) →
  match values s !! k with Some e => proj (e_value e) = Some x | None => x = none end →
  match values s !! k with Some e => e_value e = inj x | None => x = none end.
Proof. intros Hi. destruct (values s !! k); auto. Qed.

Definition as_set (v : Value) : option (gset bytes) := match v with VSet x => Some x | _ => None end.

Lemma set_collection_ok base s t k o :
  core base s → runs base 2 [k] s (set_collection s t k o) (refines t (CSetCollection k o) s).
Proof.
  intros Hc. unfold set_collection. apply (typed_ok as_set a_set (λ x, x) ∅); [by intros []|done|..].
  { intros m Hm. cbn. unfold spec_set_collection. by rewrite Hm. }
  intros s1 m Hc1 Hl Ht Hx. apply (typed_value _ VSet) in Hx; [|by intros [] ? [= ->]].
  assert (spec t (CSetCollection k o) (view s1 t) = spec_set_collection (view s1 t) k o) as Hs by done.
  unfold spec_set_collection in Hs. rewrite Ht in Hs.
  destruct o as [incoming|incoming|member| |]; try (apply runs_ret; [done|]; by right).
  - rewrite set_add_fold. set (m' := m ∪ list_to_set incoming) in *.
    assert (m ⊆ m') as Hsub by set_solver. pose proof (subseteq_size _ _ Hsub) as Hsz.
    rewrite Z.add_0_l. destruct (Z.ltb_spec 0 (Z.of_nat (size m') - Z.of_nat (size m))) as [Hlt|Hge].
    + apply (collection_replace _ _ _ _ _ (VSet m')); [done..|]. intros E. rewrite E, size_empty in Hlt. lia.
    + apply (collection_same _ _ _ _ _ (VSet m')); [done..|].
      assert (m = m') as <- by (apply set_subseteq_size_eq; [done|lia]).
      destruct (values s1 !! k); cbn; [by rewrite Hx|]. by apply bool_decide_eq_true_2.
  - rewrite set_remove_fold. set (m' := m ∖ list_to_set incoming) in *.
    assert (m' ⊆ m) as Hsub by set_solver. pose proof (subseteq_size _ _ Hsub) as Hsz.
    rewrite Z.add_0_l. destruct (Z.ltb_spec 0 (Z.of_nat (size m) - Z.of_nat (size m'))) as [Hlt|Hge].
    + destruct (values s1 !! k) as [e|] eqn:E; [|rewrite Hx, size_empty in Hlt; lia]. rewrite <- E.
      apply (collection_shrink _ _ _ _ _ (VSet m') _ Hc1 Hl Hs e); try done.
      * intros Hem. by apply bool_decide_eq_false in Hem.
      * rewrite Hx. cbn. apply zsum_with_subset; [intros; zlen_lia|apply btree_set_iter_NoDup|].
        intros y. rewrite !btree_set_iter_elem. apply Hsub.
    + apply (collection_same _ _ _ _ _ (VSet m')); [done..|].
      assert (m' = m) as -> by (apply set_subseteq_size_eq; [done|lia]).
      destruct (values s1 !! k); cbn; [by rewrite Hx|]. by apply bool_decide_eq_true_2.
Qed.

Definition as_hash (v : Value) : option (gmap bytes bytes) := match v with VHash x => Some x | _ => None end.

Lemma with_entries_nonempty {K V} `{Countable K} (l : list (K * V)) (m : gmap K V) :
  l ≠ [] → with_entries l m ≠ ∅.
Proof.
  destruct l as [|[k v] l]; [done|]. intros _ E. rewrite with_entries_cons in E.
  apply (f_equal (lookup k)) in E. revert E. unfold with_entries.
  rewrite lookup_union, lookup_insert_eq, lookup_empty. by destruct (list_to_map _ !! k).
Qed.
Lemma without_subseteq {K V} `{Countable K} (l : list K) (m : gmap K V) : without l m ⊆ m.
Proof. apply map_filter_subseteq. Qed.
Lemma zsize_without {K V} `{Countable K} (l : list K) (m : gmap K V) :
  zsize (without l m) <= zsize m ∧ (zsize m <= zsize (without l m) → without l m = m).
Proof.
  unfold zsize. pose proof (map_subseteq_size _ _ (without_subseteq l m)).
  split; [lia|]. intros. apply map_subseteq_size_eq; [apply without_subseteq|lia].
Qed.

Lemma hash_command_ok base s t k o :
  core base s → runs base 2 [k] s (hash_command s t k o) (refines t (CHash k o) s).
Proof.
  intros Hc. unfold hash_command. apply (typed_ok as_hash a_hash (λ x, x) ∅); [by intros []|done|..].
  { intros m Hm. cbn. unfold spec_hash. by rewrite Hm. }
  intros s1 m Hc1 Hl Ht Hx. apply (typed_value _ VHash) in Hx; [|by intros [] ? [= ->]].
  assert (spec t (CHash k o) (view s1 t) = spec_hash (view s1 t) k o) as Hs by done.
  unfold spec_hash in Hs. rewrite Ht in Hs.
  assert (match values s1 !! k with
          | Some e => abs_value (e_value e) = abs_value (VHash m)
          | None => is_empty (abs_value (VHash m)) = true end) as Hsame.
  { destruct (values s1 !! k); cbn; [by rewrite Hx|]. by apply bool_decide_eq_true_2. }
  destruct o as [entries|field|fields|field| |]; try (apply runs_ret; [done|]; by right).
  - destruct entries as [|e entries].
    + assert (with_entries [] m = m) as E by apply (left_id_L ∅ (∪)). rewrite E, Z.sub_diag in Hs.
      by apply (collection_same _ _ _ _ _ (VHash m)).
    + rewrite hash_set_fold, Z.add_0_l. apply (collection_replace _ _ _ _ _ (VHash _)); [done..|].
      by apply with_entries_nonempty.
  - rewrite hash_remove_fold, Z.add_0_l. destruct (zsize_without fields m) as [Hle Heq].
    destruct (Z.ltb_spec 0 (zsize m - zsize (without fields m))) as [Hlt|Hge].
    + destruct (values s1 !! k) as [e|] eqn:E.
      2:{ rewrite Hx in Hlt, Hle. unfold zsize in Hlt at 1. rewrite map_size_empty in Hlt.
          unfold zsize in Hlt. lia. }
      rewrite <- E. apply (collection_shrink _ _ _ _ _ (VHash _) _ Hc1 Hl Hs e); try done.
      * intros Hem. by apply bool_decide_eq_false in Hem.
      * rewrite Hx. cbn. apply zsum_with_subset.
        -- intros; zlen_lia.
        -- eapply NoDup_fmap_1, btree_iter_NoDup.
        -- intros [f v]. rewrite !btree_iter_elem. apply map_subseteq_spec, without_subseteq.
    + rewrite (Heq ltac:(lia)) in Hs |- *. by apply (collection_same _ _ _ _ _ (VHash m)).
Qed.

Definition as_list (v : Value) : option (list bytes) := match v with VList x => Some x | _ => None end.

Lemma list_push_fold front l values :
  fold_left (list_push front) l values = if front then rev l ++ values else values ++ l.
Proof.
  revert values. induction l as [|x l IH]; intros values; cbn.
  - destruct front; [done|]. by rewrite app_nil_r.
  - rewrite IH. unfold list_push. destruct front; by rewrite <- app_assoc.
Qed.

Lemma pop_back_eq l :
  pop_back l = match last l with Some x => Some (x, take (pred (length l)) l) | None => None end.
Proof.
  unfold pop_back. destruct l as [|x l] using rev_ind; [done|].
  rewrite rev_unit, last_snoc, rev_involutive, length_app, Nat.add_1_r. cbn [pred length].
  by rewrite take_app_length.
Qed.

Lemma list_command_ok base s t k o :
  core base s → runs base 2 [k] s (list_command s t k o) (refines t (CList k o) s).
Proof.
  intros Hc. unfold list_command. apply (typed_ok as_list a_list (λ x, x) []); [by intros []|done|..].
  { intros m Hm. cbn. unfold spec_list. by rewrite Hm. }
  intros s1 l Hc1 Hl Ht Hx. apply (typed_value _ VList) in Hx; [|by intros [] ? [= ->]].
  assert (spec t (CList k o) (view s1 t) = spec_list (view s1 t) k o) as Hs by done.
  unfold spec_list in Hs. rewrite Ht in Hs.
  assert (match values s1 !! k with
          | Some e => abs_value (e_value e) = abs_value (VList l)
          | None => is_empty (abs_value (VList l)) = true end) as Hsame.
  { destruct (values s1 !! k); cbn; [by rewrite Hx|]. by apply bool_decide_eq_true_2. }
  destruct o as [front incoming|front| |start stop]; try (apply runs_ret; [done|]; by right).
  - destruct incoming as [|x incoming].
    + assert ((if front then rev [] ++ l else l ++ []) = l) as E by (destruct front; cbn; by rewrite ?app_nil_r).
      rewrite E in Hs. by apply (collection_same _ _ _ _ _ (VList l)).
    + rewrite list_push_fold. apply (collection_replace _ _ _ _ _ (VList _)); [done..|].
      destruct front; intros E; apply (f_equal length) in E; rewrite length_app in E; cbn in E;
        rewrite ?length_app in E; cbn in E; lia.
  - assert (∀ x l', l ≠ [] → l' ⊆+ l →
      spec t (CList k (LPop front)) (view s1 t) =
        (put (view s1 t) k (AList l') (a_expiry (view s1 t) k), RBulk (Some x)) →
      runs base 1 [k] s1 (shrink s1 t k (bool_decide (l' = [])) (VList l')
        (values s1 !! k ≫= entry_expiry) (RBulk (Some x))) (refines t (CList k (LPop front)) s1)) as Hpop.
    { intros x l' Hne Hsub Hs'. destruct (values s1 !! k) as [e|] eqn:E; [|done]. rewrite <- E.
      apply (collection_shrink _ _ _ _ _ (VList l') _ Hc1 Hl Hs' e); try done.
      - intros Hem. by apply bool_decide_eq_false in Hem.
      - rewrite Hx. cbn. apply zsum_with_submseteq; [|done]. intros; zlen_lia. }
    destruct front.
    + destruct l as [|x l]; cbn [pop_front]; [by apply (collection_same _ _ _ _ _ (VList []))|].
      apply Hpop; [done| |done]. by apply submseteq_cons.
    + rewrite pop_back_eq. destruct (last l) as [x|] eqn:El.
      * apply Hpop; [by intros ->| |done]. apply sublist_submseteq, sublist_take.
      * apply last_None in El as ->. by apply (collection_same _ _ _ _ _ (VList [])).
Qed.

(** *** Sorted sets *)

Lemma SortedSet_insert_ok z m s :
  zset_ok z → score_ok s →
  ∃ z' update, SortedSet_insert z m s = (z', (bool_decide (z_members z !! m = None), update)) ∧
    zset_ok z' ∧ z_members z' = <[m := s]> (z_members z) ∧ (update = false → z' = z).
Proof.
  intros [Ho Hs] Hok. unfold SortedSet_insert. destruct (z_members z !! m) as [p|] eqn:E.
  - destruct (Score_eq p s) eqn:Es.
    + apply Score_eq_iff in Es as ->; [|by eapply Hs|done]. exists z, false.
      rewrite bool_decide_eq_false_2 by done. split_and!; try done. by rewrite insert_id.
    + eexists _, true. split; [done|]. split_and!; try done. split; cbn.
      * intros s' m'. rewrite elem_of_union, elem_of_singleton, elem_of_difference, elem_of_singleton, Ho.
        destruct (decide (m = m')) as [<-|Hne]; [rewrite lookup_insert_eq|rewrite lookup_insert_ne by done];
          naive_solver.
      * intros m' s' [[<- <-]|[_ ?]]%lookup_insert_Some; eauto.
  - eexists _, true. split; [done|]. split_and!; try done. split; cbn.
    * intros s' m'. rewrite elem_of_union, elem_of_singleton, Ho.
      destruct (decide (m = m')) as [<-|Hne]; [rewrite lookup_insert_eq|rewrite lookup_insert_ne by done];
        naive_solver.
    * intros m' s' [[<- <-]|[_ ?]]%lookup_insert_Some; eauto.
Qed.

Lemma zset_add_fold l z n ch :
  zset_ok z → Forall (λ e, score_ok e.1) l →
  ∃ z' ch', fold_left zset_add l (z, (n, ch)) =
      (z', (n + (zsize (z_members z') - zsize (z_members z)), ch')) ∧
    zset_ok z' ∧ z_members z' = with_entries ((λ e, (e.2, e.1)) <$> l) (z_members z) ∧
    (ch' = false → z' = z ∧ ch = false).
Proof.
  revert z n ch. induction l as [|[s m] l IH]; intros z n ch Hz Hl.
  { exists z, ch. cbn. split_and!; try done; [do 2 f_equal; lia|]. symmetry. apply (left_id_L ∅ (∪)). }
  apply Forall_cons in Hl as [Hs Hl]. cbn [fold_left]. unfold zset_add at 2. cbn [fst snd].
  destruct (SortedSet_insert_ok z m s Hz Hs) as (z1 & u & -> & Hz1 & Hm1 & Hu).
  destruct (IH z1 (if bool_decide (z_members z !! m = None) then n + 1 else n) (ch || u) Hz1 Hl)
    as (z' & ch' & -> & Hz' & Hm' & Hch).
  exists z', ch'. split_and!; try done.
  - do 2 f_equal. rewrite Hm1, zsize_insert. case_bool_decide; lia.
  - rewrite Hm', Hm1. cbn. by rewrite with_entries_cons.
  - intros ->. destruct (Hch eq_refl) as [-> [-> ->]%orb_false_iff]. by rewrite Hu.
Qed.

Lemma SortedSet_remove_ok z m :
  zset_ok z →
  ∃ z', SortedSet_remove z m = (z', bool_decide (is_Some (z_members z !! m))) ∧ zset_ok z' ∧
    z_members z' = delete m (z_members z).
Proof.
  intros [Ho Hs]. unfold SortedSet_remove. destruct (z_members z !! m) as [s|] eqn:E.
  - eexists. split; [done|]. split; [|done]. split; cbn.
    + intros s' m'. rewrite elem_of_difference, elem_of_singleton, Ho, lookup_delete_Some. naive_solver.
    + intros m' s' [_ ?]%lookup_delete_Some. eauto.
  - exists z. by rewrite delete_id.
Qed.

Lemma zset_remove_fold l z n :
  zset_ok z →
  ∃ z', fold_left zset_remove l (z, n) = (z', n + (zsize (z_members z) - zsize (z_members z'))) ∧
    zset_ok z' ∧ z_members z' = without l (z_members z).
Proof.
  revert z n. induction l as [|m l IH]; intros z n Hz.
  { exists z. cbn. rewrite without_nil. split_and!; try done. f_equal. lia. }
  cbn [fold_left]. unfold zset_remove at 2. cbn [fst snd].
  destruct (SortedSet_remove_ok z m Hz) as (z1 & -> & Hz1 & Hm1).
  destruct (IH z1 (if bool_decide (is_Some (z_members z !! m)) then n + 1 else n) Hz1)
    as (z' & -> & Hz' & Hm').
  exists z'. split_and!; try done.
  - f_equal. rewrite Hm1, zsize_delete. case_bool_decide; lia.
  - by rewrite Hm', Hm1, without_cons.
Qed.

(** The ordered index lists the members by score and then by name. *)
Lemma zsorted_length scores : zlen (zsorted scores) = zsize scores.
Proof.
  unfold zsorted, zlen, zsize. by rewrite merge_sort_Permutation, length_fmap, length_map_to_list.
Qed.
Lemma zsorted_elem scores s m : (s, m) ∈ zsorted scores ↔ scores !! m = Some s.
Proof.
  unfold zsorted. rewrite merge_sort_Permutation, list_elem_of_fmap. split.
  - intros ([m' s'] & [= -> ->] & Hin). by apply elem_of_map_to_list in Hin.
  - intros Hm. exists (m, s). split; [done|]. by apply elem_of_map_to_list.
Qed.

Lemma score_text_eq s : is_nan s = false → Score_to_bytes s = Some (score_text s).
Proof. intros Hs. destruct (Score_to_bytes_total s Hs) as (x & E & _). unfold score_text. by rewrite E. Qed.

Lemma zrange_replies_ok with_scores l :
  (∀ e, e ∈ l → is_nan e.1 = false) →
  zrange_replies with_scores l =
  Some (flat_map (λ e, RBulk (Some e.2) ::
                       if with_scores then [RBulk (Some (score_text e.1))] else []) l).
Proof.
  induction l as [|[s m] l IH]; intros Hl; cbn [zrange_replies]; [done|].
  rewrite IH by set_solver. destruct with_scores; [|done].
  rewrite (score_text_eq s); [done|]. apply (Hl (s, m)). left.
Qed.

Definition as_zset (v : Value) : option SortedSet := match v with VSortedSet x => Some x | _ => None end.

(** The scores a command carries are scores. *)
Definition command_scores (c : Command) : Prop :=
  match c with CSortedSet _ (ZAdd entries) => Forall (λ e, score_ok e.1) entries | _ => True end.

Lemma sorted_set_ok base s t k o :
  core base s → command_scores (CSortedSet k o) →
  runs base 2 [k] s (sorted_set s t k o) (refines t (CSortedSet k o) s).
Proof.
  intros Hc Hsc. unfold sorted_set.
  apply (typed_ok as_zset a_zset z_members SortedSet_default); [by intros []|done|..].
  { intros m Hm. change (typed a_zset ∅ m k = None) in Hm. cbn [spec]. unfold spec_sorted_set. by rewrite Hm. }
  intros s1 z Hc1 Hl Ht Hx. apply (typed_value _ VSortedSet) in Hx; [|by intros [] ? [= ->]].
  assert (spec t (CSortedSet k o) (view s1 t) = spec_sorted_set (view s1 t) k o) as Hs by done.
  unfold spec_sorted_set in Hs. change (z_members SortedSet_default) with (∅ : gmap bytes f64) in Ht. rewrite Ht in Hs.
  assert (zset_ok z) as Hz.
  { destruct (values s1 !! k) as [e|] eqn:E; [|subst; split; cbn; set_solver].
    pose proof (eo_value _ _ (co_entries _ _ Hc1 _ _ E)) as Hv. rewrite Hx in Hv. apply Hv. }
  assert (match values s1 !! k with
          | Some e => abs_value (e_value e) = abs_value (VSortedSet z)
          | None => is_empty (abs_value (VSortedSet z)) = true end) as Hsame.
  { destruct (values s1 !! k); cbn; [by rewrite Hx|]. subst. by apply bool_decide_eq_true_2. }
  destruct o as [entries|members| |member|start stop with_scores];
    try (apply runs_ret; [done|]; by right).
  - destruct entries as [|e entries].
    { assert (with_entries ((λ e : f64 * bytes, (e.2, e.1)) <$> []) (z_members z) = z_members z) as E
        by apply (left_id_L ∅ (∪)).
      rewrite E, Z.sub_diag in Hs. by apply (collection_same _ _ _ _ _ (VSortedSet z)). }
    destruct (zset_add_fold (e :: entries) z 0 false Hz Hsc) as (z' & ch & -> & Hz' & Hm & Hch).
    rewrite Z.add_0_l. rewrite <- Hm in Hs. destruct ch.
    + apply (collection_replace _ _ _ _ _ (VSortedSet z')); [done..|]. split; [|done]. rewrite Hm.
      by apply with_entries_nonempty.
    + destruct (Hch eq_refl) as [-> _]. by apply (collection_same _ _ _ _ _ (VSortedSet z)).
  - destruct (zset_remove_fold members z 0 Hz) as (z' & -> & Hz' & Hm).
    rewrite Z.add_0_l. rewrite <- Hm in Hs. destruct (zsize_without members (z_members z)) as [Hle Heq].
    rewrite <- Hm in Hle, Heq.
    destruct (Z.ltb_spec 0 (zsize (z_members z) - zsize (z_members z'))) as [Hlt|Hge].
    + destruct (values s1 !! k) as [e|] eqn:E.
      2:{ rewrite Hx in Hlt. unfold zsize in Hlt. cbn in Hlt. rewrite map_size_empty in Hlt. lia. }
      rewrite <- E. apply (collection_shrink _ _ _ _ _ (VSortedSet z') _ Hc1 Hl Hs e); try done.
      * intros Hem. by apply bool_decide_eq_false in Hem.
      * rewrite Hx. cbn. apply zsum_with_subset; [intros; zlen_lia|apply btree_set_iter_NoDup|].
        intros [sc m]. rewrite !zset_iter by done. rewrite !zsorted_elem, Hm.
        apply map_subseteq_spec, without_subseteq.
    + rewrite (Heq ltac:(lia)) in Hs |- *. rewrite Z.sub_diag in *.
      by apply (collection_same _ _ _ _ _ (VSortedSet z)).
  - unfold SortedSet_get. destruct (z_members z !! member) as [sc|] eqn:E; cbn in Hs.
    + rewrite (score_text_eq sc) by (by eapply Hz). apply runs_ret; [done|]. by right.
    + apply runs_ret; [done|]. by right.
  - unfold SortedSet_len. fold (zsize (z_members z)). unfold slice in Hs. rewrite zsorted_length in Hs.
    rewrite zset_iter by done. destruct (range _ start stop) as [[a b]|].
    + rewrite zrange_replies_ok; [apply runs_ret; [done|]; by right|]. intros [sc m] Hin.
      apply elem_of_take in Hin as (i & Hin & _). rewrite lookup_drop in Hin.
      apply list_elem_of_lookup_2, zsorted_elem in Hin. by eapply Hz.
    + apply runs_ret; [done|]. by right.
Qed.

Lemma runs_key base k s {A} (r : option (Store * A)) (Q : Store → A → Prop) :
  runs base 2 [k] s r Q → runs base (3 * length [k]) [k] s r Q.
Proof. apply runs_weaken; [done|cbn; lia]. Qed.

(** Every command terminates without a panic, touches only its keys, keeps the
    accounting invariant, and refines its reference semantics. *)
Lemma execute_inner_ok `{HashOrder} base s t c :
  core base s → command_scores c →
  runs base (3 * length (visit_keys c)) (visit_keys c) s (execute_inner s t c) (refines t c s).
Proof.
  intros Hc Hsc. destruct c; cbn [execute_inner visit_keys].
  all: try (apply runs_ret; [done|]; by right).
  - by apply runs_key, sorted_set_ok.
  - by apply runs_key, set_collection_ok.
  - by apply runs_key, hash_command_ok.
  - by apply runs_key, list_command_ok.
  - destruct message; (apply runs_ret; [done|]; by right).
  - by apply runs_key, get_ok.
  - by apply runs_key, set_ok.
  - by apply runs_key, set_ok.
  - destruct (del_ok base s t keys 0 Hc) as (s' & n & -> & Hs & Hc' & Hv & ->). cbn.
    eexists _, _. split_and!; try done; [eapply (steps_trans _ 0); [done..|lia]|]. right. cbn. by rewrite Hv.
  - eapply runs_weaken; [done| |by apply exists_ok]. lia.
  - by apply runs_key, increment_ok.
  - by apply runs_key, increment_ok.
  - eapply runs_weaken; [done| |by apply mget_ok]. lia.
  - rewrite length_fmap. by apply mset_ok.
  - by apply runs_key, expire_ok.
  - by apply runs_key, ttl_ok.
  - by apply runs_key, persist_ok.
Qed.
