(* ===== verification/Mutation.v ===== *)
(** * Prepared mutations

    Models src/storage/mutation.rs and the batch preparation of
    src/storage/transaction.rs: a command runs on a shadow of its keys with a
    frozen clock, its final entries are recorded as a batch of mutations, and
    the batch is applied to the real store without evaluating anything again.
    Also the expiration batches, the ordered snapshot and its replay. *)

From Stdlib Require Import Strings.Byte Strings.String ZArith Lia.
From S2P Require Import Prelude Float Score Memory Command Store StoreInv StoreSpec.

(** ** Mutations *)

Inductive Mutation :=
| Put (key : bytes) (value : Value) (expires_at_unix_ms : option Z)
| Delete (key : bytes).

Definition Mutation_key (m : Mutation) : bytes := match m with Put key _ _ | Delete key => key end.

Inductive MutationOrigin := Client | Expiration.

Record ResolvedBatch := { origin : MutationOrigin; mutations : list Mutation }.

Record Prepared := {
  p_reply : Reply;
  p_batch : ResolvedBatch;
  p_generation : Z;
  p_entries : list (bytes * option Entry)
}.

Inductive ReplayError :=
| ReplayMemory (e : MemoryError)
| DuplicateKey
| ReplayQuota
| ReplayDeadline.

Definition mutation_of (e : bytes * option Entry) : Mutation :=
  match e.2 with
  | Some entry => Put e.1 (e_value entry) (expires_at_unix_ms entry)
  | None => Delete e.1
  end.

Definition prepared (s : Store) (reply : Reply) (entries : list (bytes * option Entry))
    (o : MutationOrigin) : Prepared :=
  {| p_reply := reply; p_batch := {| origin := o; mutations := mutation_of <$> entries |};
     p_generation := generation s; p_entries := entries |}.

(** The size of each touched key before and after, for replay admission. *)
Definition optional_bytes (key : bytes) (e : option Entry) : result ReplayError Z :=
  match e with Some entry => ok_or ReplayQuota (entry_bytes key (e_value entry)) | None => Ok 0 end.
Definition usage_deltas (p : Prepared) (s : Store) : result ReplayError (list (bytes * Z * Z)) :=
  try_map (λ e, before ← optional_bytes e.1 (values s !! e.1);
                after ← optional_bytes e.1 e.2;
                Ok (e.1, before, after)) (p_entries p).

(** ** Preparation *)

(** Reads are recorded as expirations only. *)
Definition prepare_origin (c : Command) : MutationOrigin :=
  match c with
  | CGet _ | CMGet _ | CExists _ | CTtl _ _ => Expiration
  | CHash _ (HGet _ | HExists _ | HLen | HGetAll) => Expiration
  | CList _ (LLen | LRange _ _) => Expiration
  | CSetCollection _ (SIsMember _ | SCard | SMembers) => Expiration
  | CSortedSet _ (ZScore _ | ZCard | ZRange _ _ _) => Expiration
  | _ => Client
  end.

(** A new store with the counters of [s], which must have a valid
    configuration. *)
Definition empty_shadow (s : Store) : option Store :=
  match with_config (S (r_id (watches s))) (config s) with
  | Ok sh => Some (update sh (values sh) (expirations sh) (member_expirations sh) (generation s)
                     (used_bytes s) (watches sh))
  | Err _ => None
  end.

(** Copies the entry of a key with its events. *)
Definition load_entry (members : bool) (s sh : Store) (key : bytes) : Store :=
  match values s !! key with
  | Some e =>
      update sh (<[key := e]> (values sh)) (key_event key e ∪ expirations sh)
        (if members then member_events key (member_deadlines e) ∪ member_expirations sh
         else member_expirations sh)
        (generation sh) (used_bytes sh) (watches sh)
  | None => sh
  end.

Definition command_keys (c : Command) : list bytes :=
  btree_set_iter (list_to_set (visit_keys c) : gset bytes).

(** The keys whose entry has another generation, with the new entry. *)
Definition changed_entries (s sh : Store) (keys : list bytes) : list (bytes * option Entry) :=
  (λ key, (key, values sh !! key)) <$>
    List.filter (λ key, negb (bool_decide
      (e_generation <$> values s !! key = e_generation <$> values sh !! key))) keys.

Definition prepare `{HashOrder} (s : Store) (t : Sample) (c : Command) : option Prepared :=
  match c with
  | CMemory _ _ =>
      Some (prepared s (RError (ExecMemory "ERR memory commands require native preparation")) [] Client)
  | _ =>
      let keys := command_keys c in
      sh ← empty_shadow s;
      let sh := fold_left (load_entry false s) keys sh in
      '(sh, reply) ← execute_inner sh t c;
      Some (prepared s reply (changed_entries s sh keys) (prepare_origin c))
  end.

(** ** Application *)

Definition apply (s : Store) (p : Prepared) : option (Store * Reply) :=
  if negb (generation s =? p_generation p) then None else
  s ← each (λ s e, '(s, _) ← remove (set_watches s (invalidate (watches s) e.1)) e.1; Some s)
        s (p_entries p);
  s ← each (λ s e, match e.2 with Some entry => install_entry s e.1 entry | None => Some s end)
        s (p_entries p);
  Some (s, p_reply p).

(** The path of [execute] for every command but the memory ones. *)
Definition execute_plain `{HashOrder} (s : Store) (t : Sample) (c : Command) : option (Store * Reply) :=
  p ← prepare s t c; apply s p.

(** ** Expiration batches *)

(** [iter().take_while]. *)
Fixpoint take_while {A} (f : A → bool) (l : list A) : list A :=
  match l with
  | [] => []
  | x :: l => if f x then x :: take_while f l else []
  end.

(** The due members, at most [budget] events in all, grouped by key. *)
Fixpoint expired_members (s : Store) (expired : list bytes) (budget events : Z)
    (removals : gmap bytes (list Edit)) (l : list (Z * bytes * bytes))
    : Z * gmap bytes (list Edit) :=
  match l with
  | [] => (events, removals)
  | (deadline, key, id) :: l =>
      if budget <=? events then (events, removals)
      else if bool_decide (key ∈ expired) then expired_members s expired budget events removals l
      else if bool_decide (values s !! key ≫= (λ e, member_deadlines e !! id) = Some deadline)
      then expired_members s expired budget (events + 1)
             (<[key := default [] (removals !! key) ++ [Remove id]]> removals) l
      else expired_members s expired budget events removals l
  end.

(** The entry of a key without its due members. *)
Definition expire_members (s : Store) (key : bytes) (edits : list Edit)
    : option (bytes * option Entry) :=
  let edits := merge_sort (λ l r, cmp_le (Edit_id l) (Edit_id r)) edits in
  old ← values s !! key;
  match e_value old with
  | VMemory collection =>
      r ← apply_edits collection (c_descriptor collection) edits key;
      match r with
      | Ok candidate =>
          Some (key, Some {| e_value := VMemory candidate; expires_at := expires_at old;
                             expires_at_unix_ms := expires_at_unix_ms old;
                             e_generation := e_generation old;
                             member_deadlines :=
                               foldl (λ ds e, delete (Edit_id e) ds) (member_deadlines old) edits |})
      | Err _ => None
      end
  | _ => None
  end.

Definition prepare_expiration (s : Store) (t : Sample) (budget : Z) : option Prepared :=
  let budget := Z.min budget MAX_EDITS in
  let due := take_while (λ e, e.1.1 <=? now t)
               (take (Z.to_nat budget) (btree_set_iter (expirations s))) in
  let entries :=
    (λ e, (e.2, None)) <$>
      List.filter (λ e,
        match values s !! e.2 with
        | Some entry => (e_generation entry =? e.1.2) && bool_decide (expires_at entry = Some e.1.1)
        | None => false
        end) due in
  let '(events, removals) :=
    expired_members s entries.*1 budget (zlen entries) ∅
      (take_while (λ e, e.1.1 <=? now t) (btree_set_iter (member_expirations s))) in
  rewritten ← mapM (λ e, expire_members s e.1 e.2) (btree_iter removals);
  Some (prepared s (RInteger events) (entries ++ rewritten) Expiration).

(** ** Snapshot and replay *)

Definition snapshot `{HashOrder} (s : Store) : list Mutation :=
  merge_sort (λ l r, cmp_le (Mutation_key l) (Mutation_key r))
    ((λ e, Put e.1 (e_value e.2) (expires_at_unix_ms e.2)) <$> hash_iter (values s)).

(** First pass: distinct keys, and the usage without their entries. *)
Fixpoint replay_release (s : Store) (seen : gset bytes) (used : Z) (l : list Mutation)
    : option (result ReplayError Z) :=
  match l with
  | [] => Some (Ok used)
  | m :: l =>
      let key := Mutation_key m in
      if bool_decide (key ∈ seen) then Some (Err DuplicateKey) else
      match values s !! key with
      | Some old =>
          match entry_bytes key (e_value old) with
          | Some size => used ← u_sub used size; replay_release s ({[key]} ∪ seen) used l
          | None => Some (Err ReplayQuota)
          end
      | None => replay_release s ({[key]} ∪ seen) used l
      end
  end.

(** The instant of an absolute deadline. *)
Definition replay_deadline (t : Sample) (deadline : Z) : result ReplayError Z :=
  if deadline <=? unix_millis t then Ok (now t)
  else ok_or ReplayDeadline (millis ← usize_checked (deadline - unix_millis t);
                             instant_add (now t) millis).

Definition is_memory (v : Value) : bool := match v with VMemory _ => true | _ => false end.

(** Second pass: the new entry of a mutation and the usage with it. *)
Definition replay_entry (s : Store) (t : Sample) (used : Z) (m : Mutation)
    : result ReplayError (Z * (bytes * option Entry)) :=
  match m with
  | Delete key => Ok (used, (key, None))
  | Put key value expiry =>
      if match expiry with
         | Some deadline => (deadline <=? unix_millis t) && negb (is_memory value)
         | None => false
         end
      then Ok (used, (key, None)) else
      _ ← match value with
          | VMemory collection => map_err ReplayMemory (validate_key collection key)
          | _ => Ok tt
          end;
      instant ← match expiry with
                | Some deadline => i ← replay_deadline t deadline; Ok (Some i)
                | None => Ok None
                end;
      size ← ok_or ReplayQuota (entry_bytes key value);
      used ← ok_or ReplayQuota (u_add used size);
      deadlines ← map_err (λ _, ReplayDeadline) (resolve_member_deadlines s t key value);
      Ok (used, (key, Some {| e_value := value; expires_at := instant; expires_at_unix_ms := expiry;
                              e_generation := 0; member_deadlines := deadlines |}))
  end.

Fixpoint replay_entries (s : Store) (t : Sample) (used : Z) (l : list Mutation)
    : result ReplayError (Z * list (bytes * option Entry)) :=
  match l with
  | [] => Ok (used, [])
  | m :: l =>
      '(used, entry) ← replay_entry s t used m;
      '(used, entries) ← replay_entries s t used l;
      Ok (used, entry :: entries)
  end.

Definition prepare_replay (s : Store) (t : Sample) (l : list Mutation) (o : MutationOrigin)
    : option (result ReplayError Prepared) :=
  r ← replay_release s ∅ (used_bytes s) l;
  Some (used ← r;
        '(used, entries) ← replay_entries s t used l;
        if max_dataset_bytes (config s) <? used then Err ReplayQuota
        else Ok (prepared s ROk entries o)).

Definition replay (s : Store) (t : Sample) (l : list Mutation) : option (result ReplayError Store) :=
  r ← prepare_replay s t l Client;
  match r with
  | Ok p => '(s, _) ← apply s p; Some (Ok s)
  | Err e => Some (Err e)
  end.

(** ** Transactions *)

Record OwnerTransaction := { shadow : Store; trace : list WatchToken }.

Definition prepare_candidate `{HashOrder} (tx : OwnerTransaction) (t : Sample) (c : Command)
    : option Prepared := prepare (shadow tx) t c.
Definition accept_candidate (tx : OwnerTransaction) (p : Prepared) : option (OwnerTransaction * Reply) :=
  '(s, reply) ← apply (shadow tx) p;
  Some ({| shadow := s; trace := trace tx |}, reply).
Definition seal (tx : OwnerTransaction) (owner : Store) (replies : list Reply) : Prepared :=
  let entries :=
    (λ token, (t_key token, values (shadow tx) !! t_key token)) <$>
      List.filter (invalidated (watches (shadow tx))) (trace tx) in
  prepared owner (RArray replies) entries Client.

Definition begin_owner_transaction (s : Store) (t : Sample) (keys : gset bytes)
    : option OwnerTransaction :=
  let keys := btree_set_iter keys in
  sh ← empty_shadow s;
  let sh := fold_left (load_entry true s) keys sh in
  let '(sh, trace) := watch sh (now t) keys in
  Some {| shadow := sh; trace := trace |}.

(** UNWATCH inside a transaction only replies. *)
Definition batch_step `{HashOrder} (t : Sample) (tx : OwnerTransaction) (c : Command)
    : option (OwnerTransaction * Reply) :=
  match c with
  | CUnwatch => Some (tx, ROk)
  | _ => p ← prepare_candidate tx t c; accept_candidate tx p
  end.
Fixpoint batch_replies `{HashOrder} (t : Sample) (tx : OwnerTransaction) (l : list Command)
    : option (OwnerTransaction * list Reply) :=
  match l with
  | [] => Some (tx, [])
  | c :: l =>
      '(tx, reply) ← batch_step t tx c;
      '(tx, replies) ← batch_replies t tx l;
      Some (tx, reply :: replies)
  end.

Definition is_memory_command (c : Command) : bool := match c with CMemory _ _ => true | _ => false end.

Definition prepare_batch_at `{HashOrder} (s : Store) (commands : list Command) (t : Sample)
    : option Prepared :=
  if existsb is_memory_command commands then
    Some (prepared s (RError (ExecMemory "ERR memory commands are not supported in MULTI")) [] Client)
  else
    tx ← begin_owner_transaction s t (list_to_set (commands ≫= visit_keys));
    '(tx, replies) ← batch_replies t tx commands;
    Some (seal tx s replies).
