(* ===== verification/StoreExec.v ===== *)
(** * Execution of commands

    The facts behind [prepare] and [apply]: the keys a preparation lists are
    exactly those its shadow changed, and applying the list reproduces the
    shadow on the real store. *)

From Stdlib Require Import Strings.Byte Strings.String ZArith Lia.
From S2P Require Import Prelude Float Score Memory Command Store StoreInv StoreSpec Mutation.

(** ** Generations *)

(** No entry is newer than the counter. *)
Definition gens_ok (s : Store) : Prop :=
  ∀ k e, values s !! k = Some e → 0 <= e_generation e <= generation s.

(** Since [s0], a key kept its entry or has one newer than the counter of [s0]. *)
Definition newer (s0 s : Store) : Prop :=
  ∀ k, values s !! k = values s0 !! k ∨
       ∀ e, values s !! k = Some e → generation s0 < e_generation e.

Lemma wrap64_small z : 0 <= z < 2 ^ 64 → wrap64 z = z.
Proof. intros. unfold wrap64. by apply Z.mod_small. Qed.

Lemma evict_generation s k :
  0 <= generation s → generation s + 1 < 2 ^ 64 →
  generation s <= generation (evict s k) <= generation s + 1.
Proof.
  intros. unfold evict. destruct (values s !! k); cbn; [|lia]. rewrite wrap64_small; lia.
Qed.

Lemma installed_lookup s k e :
  0 <= generation s → generation s + 2 < 2 ^ 64 →
  ∃ g, generation s < g <= generation s + 2 ∧ generation (installed s k e) = g ∧
       values (installed s k e) = <[k := stamp e g]> (values s).
Proof.
  intros. unfold installed. cbn [values generation update]. rewrite evict_values.
  pose proof (evict_generation (set_watches s (invalidate (watches s) k)) k) as Hg.
  change (generation (set_watches s _)) with (generation s) in Hg.
  rewrite wrap64_small by lia. eexists. split_and!; [| |done|]; [lia..|]. apply insert_delete_eq.
Qed.

Lemma gens_evict s k :
  gens_ok s → 0 <= generation s → generation s + 1 < 2 ^ 64 → gens_ok (evict s k).
Proof.
  intros Hg H0 Hm k' e'. rewrite evict_values. intros [_ Hk]%lookup_delete_Some.
  pose proof (evict_generation s k H0 Hm). specialize (Hg _ _ Hk). lia.
Qed.
Lemma gens_installed s k e :
  gens_ok s → 0 <= generation s → generation s + 2 < 2 ^ 64 → gens_ok (installed s k e).
Proof.
  intros Hg H0 Hm k' e'. destruct (installed_lookup s k e H0 Hm) as (g & Hr & Eg & ->). rewrite Eg.
  intros [[-> <-]|[_ Hk]]%lookup_insert_Some; [cbn; lia|]. specialize (Hg _ _ Hk). lia.
Qed.

Lemma steps_newer n K s0 s :
  steps n K s0 s → gens_ok s0 → 0 <= generation s0 → generation s0 + 2 * Z.of_nat n < 2 ^ 64 →
  gens_ok s ∧ newer s0 s ∧ generation s0 <= generation s <= generation s0 + 2 * Z.of_nat n.
Proof.
  induction 1 as [n s0|n s0 s1 s (k & _ & Hk) _ IH]; intros Hg H0 Hm; [split_and!; [done|by left|lia..]|].
  assert (gens_ok s1 ∧ newer s0 s1 ∧ generation s0 <= generation s1 <= generation s0 + 2) as (Hg1 & Hn1 & Hr1).
  { destruct Hk as [|e _ _].
    - pose proof (evict_generation s0 k). split_and!; [apply gens_evict; try done; lia| |lia..].
      intros k'. rewrite evict_values. destruct (decide (k = k')) as [<-|Hne].
      + right. intros e. by rewrite lookup_delete_eq.
      + left. by rewrite lookup_delete_ne.
    - split; [apply gens_installed; try done; lia|].
      destruct (installed_lookup s0 k e) as (g & Hr' & Eg & Ev); [lia..|]. unfold newer. rewrite Ev.
      split; [|lia]. intros k'. destruct (decide (k = k')) as [<-|Hne].
      + right. intros e'. rewrite lookup_insert_eq. intros [= <-]. cbn. lia.
      + left. by rewrite lookup_insert_ne. }
  destruct (IH Hg1) as (Hg' & Hn & Hr'); [lia..|]. split_and!; [done| |lia..].
  intros k'. destruct (Hn k') as [->|Hk']; [apply Hn1|]. right. intros e He. specialize (Hk' e He). lia.
Qed.

(** ** Applying a batch *)

(** What [apply] does to a key before anything is installed. *)
Definition release (s : Store) (k : bytes) : Store :=
  evict (set_watches s (invalidate (watches s) k)) k.

Lemma release_eq base s k :
  core base s → remove (set_watches s (invalidate (watches s) k)) k = Some (release s k, values s !! k).
Proof. intros Hc. by rewrite (remove_eq base) by (by apply core_watches). Qed.

Lemma release_values s k : values (release s k) = delete k (values s).
Proof. unfold release. by rewrite evict_values. Qed.

Lemma invalidate_absent r k : r_entries r !! k = None → invalidate r k = r.
Proof. intros Hk. unfold invalidate. by rewrite Hk. Qed.
Lemma invalidate_entries r k : r_entries (invalidate r k) = delete k (r_entries r).
Proof. unfold invalidate. destruct (r_entries r !! k) eqn:E; [done|]. by rewrite delete_id. Qed.
Lemma release_watches s k : watches (release s k) = invalidate (watches s) k.
Proof.
  unfold release, evict. cbn [values set_watches update]. destruct (values s !! k); [|done]. cbn.
  apply invalidate_absent. rewrite invalidate_entries. apply lookup_delete_eq.
Qed.
Lemma installed_watches s k e : watches (installed s k e) = invalidate (watches s) k.
Proof. apply release_watches. Qed.

(** What every change of the store preserves, with the number of generations it
    may consume. *)
Record keeps (n : Z) (s s' : Store) : Prop := {
  kp_config : config s' = config s;
  kp_indexed : indexed s → indexed s';
  kp_gens : gens_ok s → 0 <= generation s → generation s + n < 2 ^ 64 →
    gens_ok s' ∧ generation s <= generation s' <= generation s + n
}.
Lemma keeps_refl n s : 0 <= n → keeps n s s.
Proof. split; [done..|]. intros. split; [done|lia]. Qed.
Lemma keeps_trans n m p s1 s2 s3 : n + m <= p → 0 <= m → keeps n s1 s2 → keeps m s2 s3 → keeps p s1 s3.
Proof.
  intros Hp Hm [C1 I1 G1] [C2 I2 G2]. split; [congruence|auto|]. intros Hg H0 Hb.
  destruct (G1 Hg H0) as [Hg2 Hb2]; [lia|]. destruct (G2 Hg2) as [Hg3 Hb3]; [lia..|]. split; [done|lia].
Qed.
Lemma keeps_release s k : keeps 1 s (release s k).
Proof.
  split; [unfold release; by rewrite evict_config|intros; by apply indexed_evict, indexed_watches|].
  intros Hg H0 Hm. split; [by apply gens_evict|]. by apply (evict_generation (set_watches s _)).
Qed.
Lemma keeps_installed s k e : keeps 2 s (installed s k e).
Proof.
  split; [apply installed_config|apply indexed_installed|]. intros Hg H0 Hm.
  split; [by apply gens_installed|]. destruct (installed_lookup s k e H0 Hm) as (g & ? & -> & _). lia.
Qed.
Lemma keeps_steps n K s s' : steps n K s s' → keeps (2 * Z.of_nat n) s s'.
Proof.
  intros Hs. split; [by eapply steps_frame|intros; by eapply indexed_steps|].
  intros Hg H0 Hb. by destruct (steps_newer _ _ _ _ Hs Hg H0 Hb) as (? & _ & ?).
Qed.

Lemma charge_release s k k' : k ≠ k' → charge (release s k) k' = charge s k'.
Proof. intros Hne. unfold release. by rewrite charge_evict. Qed.

Lemma zsum_with_ext {A} (f g : A → Z) l : (∀ x, x ∈ l → f x = g x) → zsum_with f l = zsum_with g l.
Proof. unfold zsum_with. induction l; intros Hf; cbn; [done|]. rewrite Hf, IHl; [done|set_solver..]. Qed.

(** Both passes of [apply]. *)
Lemma release_all base s (l : list (bytes * option Entry)) :
  core base s → NoDup l.*1 →
  ∃ s', each (λ s e, '(s, _) ← remove (set_watches s (invalidate (watches s) e.1)) e.1; Some s) s l = Some s' ∧
    core base s' ∧ keeps (zlen l) s s' ∧ watches s' = foldl invalidate (watches s) l.*1 ∧
    (∀ k, values s' !! k = if decide (k ∈ l.*1) then None else values s !! k) ∧
    used_bytes s' = used_bytes s - zsum_with (λ e, charge s e.1) l.
Proof.
  revert s. induction l as [|[k a] l IH]; intros s Hc Hn; cbn [each].
  { exists s. split_and!; try done; [by apply keeps_refl|cbn; lia]. }
  cbn [fst]. rewrite (release_eq base) by done. cbn [mbind option_bind].
  apply NoDup_cons in Hn as [Hk Hn]. cbn [fst] in Hk.
  assert (core base (release s k)) as Hc1 by (by apply core_evict, core_watches).
  destruct (IH _ Hc1 Hn) as (s' & -> & Hc' & Hp & Hw & Hv & Hu). exists s'. split_and!; try done.
  - eapply (keeps_trans 1 (zlen l)); [zlen_lia..|apply keeps_release|done].
  - rewrite Hw, release_watches. done.
  - intros k'. rewrite Hv, release_values. cbn. destruct (decide (k' = k)) as [->|Hne].
    + rewrite lookup_delete_eq. by do 2 case_decide; set_solver.
    + rewrite lookup_delete_ne by done. by do 2 case_decide; set_solver.
  - rewrite Hu. change (zsum_with ?g (?x :: l)) with (g x + zsum_with g l). cbn [fst].
    unfold release. rewrite evict_used. cbn [used_bytes set_watches update].
    rewrite (zsum_with_ext _ (λ e, charge s e.1)); [change (charge (set_watches s _) k) with (charge s k); lia|].
    intros [k' a'] Hin. apply charge_release. intros ->. apply Hk. apply list_elem_of_fmap. by exists (k', a').
Qed.

(** An entry up to its generation. *)
Definition image (e : Entry) : Entry := stamp e 0.
Definition optional_size (e : bytes * option Entry) : Z :=
  match e.2 with Some entry => entry_size e.1 (e_value entry) | None => 0 end.
Definition optional_ok (e : bytes * option Entry) : Prop :=
  match e.2 with Some entry => entry_ok e.1 entry | None => True end.

Lemma optional_size_nonneg l : Forall optional_ok l → 0 <= zsum_with optional_size l.
Proof.
  induction 1 as [|[k [e|]] l He _ IH]; [done|..]; change (zsum_with ?g (?x :: l)) with (g x + zsum_with g l); cbn.
  - pose proof (entry_size_pos k (e_value e) (eo_value _ _ He)). lia.
  - lia.
Qed.

Lemma install_all base s (l : list (bytes * option Entry)) :
  core base s → NoDup l.*1 → Forall optional_ok l →
  (∀ k, k ∈ l.*1 → values s !! k = None ∧ r_entries (watches s) !! k = None) →
  used_bytes s + zsum_with optional_size l <= max_dataset_bytes (config s) →
  ∃ s', each (λ s e, match e.2 with Some entry => install_entry s e.1 entry | None => Some s end) s l = Some s' ∧
    core base s' ∧ keeps (2 * zlen l) s s' ∧ watches s' = watches s ∧
    used_bytes s' = used_bytes s + zsum_with optional_size l ∧
    (∀ k, k ∉ l.*1 → values s' !! k = values s !! k) ∧
    ∀ k, image <$> values s' !! k =
         match (list_to_map l : gmap bytes (option Entry)) !! k with
         | Some oe => image <$> oe
         | None => image <$> values s !! k
         end.
Proof.
  revert s. induction l as [|[k oe] l IH]; intros s Hc Hn Hok Habs Hq; cbn [each].
  { exists s. split_and!; try done; [by apply keeps_refl|cbn; lia]. }
  change (zsum_with ?g (?x :: l)) with (g x + zsum_with g l) in *. cbn [fst snd] in *.
  apply NoDup_cons in Hn as [Hk Hn]. cbn [fst] in Hk. apply Forall_cons in Hok as [He Hok].
  pose proof (optional_size_nonneg l Hok) as Hpos. destruct (Habs k ltac:(left)) as [Hkv Hkw].
  destruct oe as [e|].
  - change (optional_size (k, Some e)) with (entry_size k (e_value e)) in *.
    change (optional_ok (k, Some e)) with (entry_ok k e) in He. assert (charge s k = 0) as Hch by (unfold charge; by rewrite Hkv).
    rewrite (install_entry_eq base) by (done || lia).
    cbn [mbind option_bind]. set (s1 := installed s k e).
    destruct (installed_values s k e) as [g Hv1]. fold s1 in Hv1.
    assert (watches s1 = watches s) as Hw1.
    { unfold s1. rewrite installed_watches. by apply invalidate_absent. }
    destruct (IH s1) as (s' & -> & Hc' & Hp & Hw & Hu & Hf & Hv); try done.
    + apply core_installed; try done. lia.
    + intros k' Hk'. rewrite Hv1, Hw1, lookup_insert_ne by (by intros ->). apply Habs. by right.
    + unfold s1. rewrite installed_used, installed_config. lia.
    + exists s'. split_and!; try done.
      * eapply (keeps_trans 2 (2 * zlen l)); [zlen_lia..|apply keeps_installed|done].
      * congruence.
      * rewrite Hu. unfold s1. rewrite installed_used. lia.
      * intros k' Hk'. rewrite Hf, Hv1, lookup_insert_ne by set_solver. done.
      * intros k'. rewrite Hv, Hv1. cbn. destruct (decide (k = k')) as [<-|Hne].
        -- rewrite !lookup_insert_eq, not_elem_of_list_to_map_1 by done. done.
        -- by rewrite !lookup_insert_ne.
  - change (optional_size (k, None)) with 0 in *.
    cbn [mbind option_bind]. destruct (IH s) as (s' & -> & Hc' & Hp & Hw & Hu & Hf & Hv); try done.
    + intros k' Hk'. apply Habs. by right.
    + exists s'. split_and!; try done.
      * eapply (keeps_trans 0 (2 * zlen l)); [zlen_lia..|by apply keeps_refl|done].
      * intros k' Hk'. apply Hf. set_solver.
      * intros k'. rewrite Hv. cbn. destruct (decide (k = k')) as [<-|Hne].
        -- by rewrite lookup_insert_eq, not_elem_of_list_to_map_1, Hkv by done.
        -- by rewrite lookup_insert_ne.
Qed.

(** Applying a batch of distinct keys whose entries are within the quota. *)
Lemma apply_ok base s p :
  core base s → generation s = p_generation p → NoDup (p_entries p).*1 → Forall optional_ok (p_entries p) →
  used_bytes s - zsum_with (λ e, charge s e.1) (p_entries p) + zsum_with optional_size (p_entries p)
    <= max_dataset_bytes (config s) →
  ∃ s', apply s p = Some (s', p_reply p) ∧ core base s' ∧ keeps (3 * zlen (p_entries p)) s s' ∧
    watches s' = foldl invalidate (watches s) (p_entries p).*1 ∧
    used_bytes s' = used_bytes s - zsum_with (λ e, charge s e.1) (p_entries p) +
                    zsum_with optional_size (p_entries p) ∧
    (∀ k, k ∉ (p_entries p).*1 → values s' !! k = values s !! k) ∧
    ∀ k, image <$> values s' !! k =
         match (list_to_map (p_entries p) : gmap bytes (option Entry)) !! k with
         | Some oe => image <$> oe
         | None => image <$> values s !! k
         end.
Proof.
  intros Hc Hg Hn Hok Hq. unfold apply. rewrite Hg, Z.eqb_refl. cbn [negb].
  destruct (release_all base s _ Hc Hn) as (s1 & -> & Hc1 & Hp1 & Hw1 & Hv1 & Hu1). cbn [mbind option_bind].
  destruct (install_all base s1 _ Hc1 Hn Hok) as (s2 & -> & Hc2 & Hp2 & Hw2 & Hu2 & Hf2 & Hv2).
  - intros k Hk. rewrite Hv1, decide_True by done. split; [done|]. rewrite Hw1.
    clear -Hk. generalize (watches s). induction ((p_entries p).*1) as [|k' l IH]; intros r; [set_solver|].
    cbn. apply elem_of_cons in Hk as [<-|Hk]; [|by apply IH].
    assert (r_entries (invalidate r k) !! k = None) as H by (rewrite invalidate_entries; apply lookup_delete_eq).
    clear IH. revert H. generalize (invalidate r k). induction l as [|k' l IH]; intros r' H; [done|].
    cbn. apply IH. rewrite invalidate_entries. destruct (decide (k' = k)) as [->|Hne].
    + apply lookup_delete_eq.
    + by rewrite lookup_delete_ne.
  - rewrite (kp_config _ _ _ Hp1). lia.
  - exists s2. split_and!; [done..| |congruence|lia| |].
    + eapply (keeps_trans (zlen (p_entries p)) (2 * zlen (p_entries p))); [zlen_lia..|done|done].
    + intros k Hk. by rewrite Hf2, Hv1, decide_False.
    + intros k. rewrite Hv2, Hv1. destruct (list_to_map _ !! k) eqn:E; [done|].
      rewrite decide_False; [done|]. by apply not_elem_of_list_to_map_2.
Qed.

(** ** Sums over changed keys *)

Section changes.
Context {V : Type} (f : bytes → V → Z).
Implicit Types m : gmap bytes V.

Definition at_key (o : option V) (k : bytes) : Z := match o with Some v => f k v | None => 0 end.

Lemma map_zsum_alter m k o :
  map_zsum f (partial_alter (λ _, o) k m) = map_zsum f m - at_key (m !! k) k + at_key o k.
Proof.
  assert (map_zsum f (delete k m) = map_zsum f m - at_key (m !! k) k) as Hd.
  { destruct (m !! k) as [v|] eqn:E; cbn; [by apply map_zsum_delete|]. rewrite delete_id by done. lia. }
  destruct o as [v|].
  - change (partial_alter (λ _, Some v) k m) with (<[k := v]> m).
    rewrite <- insert_delete_eq, map_zsum_insert by apply lookup_delete_eq. rewrite Hd. cbn. lia.
  - change (partial_alter (λ _, None) k m) with (delete k m). rewrite Hd. cbn. lia.
Qed.

Lemma map_zsum_change m m' (l : list bytes) :
  NoDup l → (∀ k, k ∉ l → m !! k = m' !! k) →
  map_zsum f m' = map_zsum f m - zsum_with (λ k, at_key (m !! k) k) l + zsum_with (λ k, at_key (m' !! k) k) l.
Proof.
  intros Hn. revert m. induction Hn as [|k l Hk _ IH]; intros m Hm.
  { rewrite (map_eq m m') by (intros; apply Hm; set_solver). cbn. lia. }
  change (zsum_with ?g (k :: l)) with (g k + zsum_with g l).
  rewrite (IH (partial_alter (λ _, m' !! k) k m)).
  - rewrite map_zsum_alter. 
    rewrite (zsum_with_ext (λ k0, at_key (partial_alter _ k m !! k0) k0) (λ k0, at_key (m !! k0) k0)); [lia|].
    intros k' Hk'. rewrite lookup_partial_alter_ne by (intros ->; done). done.
  - intros k' Hk'. destruct (decide (k = k')) as [<-|Hne].
    + by rewrite lookup_partial_alter_eq.
    + rewrite lookup_partial_alter_ne by done. apply Hm. set_solver.
Qed.
End changes.

Lemma map_zsum_mono {V} (f : bytes → V → Z) (m m' : gmap bytes V) :
  (∀ k v, m' !! k = Some v → 0 <= f k v) → m ⊆ m' → map_zsum f m <= map_zsum f m'.
Proof.
  revert m'. induction m as [|k v m Hk IH] using map_ind; intros m' Hf Hm.
  { rewrite map_zsum_empty. by apply map_zsum_nonneg. }
  assert (m' !! k = Some v) as Hk' by (eapply lookup_weaken; [|done]; apply lookup_insert_eq).
  rewrite map_zsum_insert by done. pose proof (map_zsum_delete f m' k v Hk').
  assert (map_zsum f m <= map_zsum f (delete k m')); [|lia]. apply IH.
  - intros k' v' [_ ?]%lookup_delete_Some. by apply Hf.
  - apply map_subseteq_spec. intros k' v' Hv. apply lookup_delete_Some. split; [congruence|].
    eapply lookup_weaken; [|done]. rewrite lookup_insert_ne by congruence. done.
Qed.

(** ** Locality of the reference semantics *)

Lemma del_count (l : list bytes) (m m' : dataset) :
  (∀ k, k ∈ l → m !! k = m' !! k) →
  zsize m - zsize (without l m) = zsize m' - zsize (without l m').
Proof.
  revert m m'. induction l as [|k l IH]; intros m m' Hm; [rewrite !without_nil; lia|].
  rewrite !without_cons. pose proof (IH (delete k m) (delete k m')) as Hd.
  pose proof (zsize_delete k m) as Hz. pose proof (zsize_delete k m') as Hz'.
  rewrite (Hm k ltac:(left)) in Hz. cut (∀ k', k' ∈ l → delete k m !! k' = delete k m' !! k'); [intros H; specialize (Hd H); lia|].
  intros k' Hk'. destruct (decide (k = k')) as [<-|Hne]; [by rewrite !lookup_delete_eq|].
  rewrite !lookup_delete_ne by done. apply Hm. by right.
Qed.

Lemma list_to_map_dom {V} (l : list (bytes * V)) k :
  k ∉ l.*1 → (list_to_map (rev l) : gmap bytes V) !! k = None.
Proof.
  intros Hk. apply not_elem_of_list_to_map_1. intros ([k' v] & -> & Hin)%list_elem_of_fmap. apply Hk.
  apply list_elem_of_fmap. exists (k', v). split; [done|]. by apply list_elem_of_In, in_rev, list_elem_of_In.
Qed.

Ltac unfold_spec :=
  unfold spec_sorted_set, spec_set_collection, spec_hash, spec_list, spec_set, spec_increment, spec_expire,
    spec_persist, spec_get, spec_ttl, put, typed, a_expiry, a_string in *.

(** A command leaves the other keys alone. *)
Lemma spec_frame t c m k : k ∉ visit_keys c → (spec t c m).1 !! k = m !! k.
Proof.
  destruct c; cbn [visit_keys spec]; intros Hk; try done.
  all: try (apply not_elem_of_cons in Hk as [Hk _]; unfold_spec;
            repeat case_match; cbn; rewrite ?lookup_insert_ne, ?lookup_delete_ne by done; done).
  - by destruct message.
  - cbn. rewrite lookup_without. by rewrite bool_decide_eq_false_2.
  - cbn. unfold with_entries. rewrite lookup_union_r; [done|]. apply list_to_map_dom.
    by rewrite <- list_fmap_compose.
Qed.

(** A command depends on its own keys only. *)
Lemma spec_local t c m m' :
  (∀ k, k ∈ visit_keys c → m !! k = m' !! k) →
  (spec t c m).2 = (spec t c m').2 ∧ ∀ k, k ∈ visit_keys c → (spec t c m).1 !! k = (spec t c m').1 !! k.
Proof.
  destruct c; cbn [visit_keys spec]; intros Hm; try (split; [done|set_solver]).
  all: try (pose proof (Hm key ltac:(left)) as Hk; split; [|intros k' ->%list_elem_of_singleton];
            unfold_spec; rewrite ?Hk; repeat case_match; cbn;
            rewrite ?lookup_insert_eq, ?lookup_delete_eq; congruence).
  - by destruct message; split.
  - split; cbn; [f_equal; by apply del_count|]. intros k Hk. by rewrite !lookup_without, Hm.
  - split; cbn; [|done]. do 2 f_equal. apply filter_ext_in. intros k Hk. rewrite Hm; [done|].
    by apply list_elem_of_In.
  - split; cbn; [|done]. f_equal. apply list_fmap_ext. intros i k Hk. unfold a_string.
    rewrite Hm; [done|]. by eapply list_elem_of_lookup_2.
  - split; cbn; [done|]. intros k Hk. unfold with_entries. by rewrite !lookup_union, Hm.
Qed.

(** ** The shadow of a preparation *)

Lemma load_entries members s keys sh :
  let sh' := fold_left (load_entry members s) keys sh in
  (∀ k, values sh' !! k = if decide (k ∈ keys) then match values s !! k with Some e => Some e | None => values sh !! k end
                          else values sh !! k) ∧
  generation sh' = generation sh ∧ config sh' = config sh ∧ used_bytes sh' = used_bytes sh ∧
  watches sh' = watches sh.
Proof.
  revert sh. induction keys as [|k keys IH]; intros sh; [done|]. cbn [fold_left].
  destruct (IH (load_entry members s sh k)) as (Hv & Hg & Hc & Hu & Hw).
  assert (generation (load_entry members s sh k) = generation sh ∧
          config (load_entry members s sh k) = config sh ∧
          used_bytes (load_entry members s sh k) = used_bytes sh ∧
          watches (load_entry members s sh k) = watches sh) as (? & ? & ? & ?).
  { unfold load_entry. by destruct (values s !! k). }
  split_and!; try congruence. intros k'. rewrite Hv.
  assert (values (load_entry members s sh k) !! k' =
          if decide (k' = k) then match values s !! k with Some e => Some e | None => values sh !! k' end
          else values sh !! k') as ->.
  { unfold load_entry. destruct (values s !! k) as [e|]; cbn; [|by case_decide].
    case_decide; [subst; by rewrite lookup_insert_eq|by rewrite lookup_insert_ne]. }
  destruct (decide (k' = k)) as [->|Hne].
  - rewrite (decide_True (P := k ∈ k :: keys)) by left. case_decide; [|done]. by destruct (values s !! k).
  - do 2 case_decide; set_solver.
Qed.

(** The sizes of the keys of a shadow. *)
Definition loaded (s : Store) : Z := map_zsum (λ k e, entry_size k (e_value e)) (values s).

Record is_shadow (s : Store) (keys : list bytes) (sh : Store) : Prop := {
  sh_values : ∀ k, values sh !! k = if decide (k ∈ keys) then values s !! k else None;
  sh_generation : generation sh = generation s;
  sh_config : config sh = config s;
  sh_used : used_bytes sh = used_bytes s;
  sh_core : core (used_bytes s - loaded sh) sh
}.

Lemma shadow_ok base members s keys :
  core base s →
  ∃ sh0, empty_shadow s = Some sh0 ∧ is_shadow s keys (fold_left (load_entry members s) keys sh0) ∧
         watches (fold_left (load_entry members s) keys sh0) = Registry_default (S (r_id (watches s))).
Proof.
  intros [Hcf0 Hb0 He0 Hu0 Hq0 Hg0]. unfold empty_shadow, with_config, StoreConfig_validate.
  rewrite (proj2 (guard_ok_ok _ _ tt)) by lia. cbn [mbind result_bind]. eexists. split; [done|].
  set (sh0 := update _ _ _ _ _ _ _). destruct (load_entries members s keys sh0) as (Hv & Hg & Hcf & Hu & Hw).
  set (sh := fold_left _ _ _) in *. cbn in Hcf. split; [|done].
  assert (∀ k, values sh !! k = if decide (k ∈ keys) then values s !! k else None) as Hv'.
  { intros k. rewrite Hv. case_decide; [|done]. by destruct (values s !! k). }
  assert (values sh ⊆ values s) as Hsub.
  { apply map_subseteq_spec. intros k e. rewrite Hv'. by case_decide. }
  split; try done. split; rewrite ?Hcf, ?Hu, ?Hg; try done.
  - unfold loaded. cut (map_zsum (λ k e, entry_size k (e_value e)) (values sh) <=
                        map_zsum (λ k e, entry_size k (e_value e)) (values s)); [lia|].
    apply map_zsum_mono; [|done]. intros k e Hk.
    pose proof (entry_size_pos k (e_value e) (eo_value _ _ (He0 _ _ Hk))). lia.
  - intros k e Hk. eapply He0, lookup_weaken; done.
  - unfold loaded. change (used_bytes sh0) with (used_bytes s). lia.
Qed.

Lemma command_keys_elem c k : k ∈ command_keys c ↔ k ∈ visit_keys c.
Proof. unfold command_keys. by rewrite btree_set_iter_elem, elem_of_list_to_set. Qed.
Lemma command_keys_NoDup c : NoDup (command_keys c).
Proof. apply btree_set_iter_NoDup. Qed.

(** ** Committing a shadow *)

(** The entries of some keys of a shadow. *)
Definition entries_of (sh : Store) (l : list bytes) : list (bytes * option Entry) :=
  (λ k, (k, values sh !! k)) <$> l.

Lemma entries_of_keys sh l : (entries_of sh l).*1 = l.
Proof. unfold entries_of. rewrite <- list_fmap_compose. apply list_fmap_id. Qed.
Lemma entries_of_lookup sh l k :
  (list_to_map (entries_of sh l) : gmap bytes (option Entry)) !! k =
  if decide (k ∈ l) then Some (values sh !! k) else None.
Proof.
  induction l as [|k' l IH]; [done|]. cbn. destruct (decide (k' = k)) as [->|Hne].
  - rewrite lookup_insert_eq, decide_True by left. done.
  - rewrite lookup_insert_ne by done. fold (entries_of sh l). rewrite IH. do 2 case_decide; set_solver.
Qed.

(** A shadow after its run, with the list of the keys it changed. *)
Record finished (s : Store) (keys : list bytes) (sh : Store) (l : list bytes) : Prop := {
  fi_core : ∃ sh0, is_shadow s keys sh0 ∧ core (used_bytes s - loaded sh0) sh ∧ config sh = config s;
  fi_outside : ∀ k, k ∉ keys → values sh !! k = None;
  fi_same : ∀ k, k ∈ keys → k ∉ l → values sh !! k = values s !! k;
  fi_keys : ∀ k, k ∈ l → k ∈ keys;
  fi_NoDup : NoDup l
}.

Lemma finished_usage s keys sh l :
  finished s keys sh l →
  used_bytes sh = used_bytes s - zsum_with (λ e, charge s e.1) (entries_of sh l) +
                  zsum_with optional_size (entries_of sh l).
Proof.
  intros [(sh0 & Hs & Hc & _) Hout Hsame Hl Hn]. rewrite (co_used _ _ Hc). unfold entries_of, loaded.
  rewrite !zsum_with_fmap.
  rewrite (map_zsum_change (λ k e, entry_size k (e_value e)) (values sh0) (values sh) l); [|done|].
  2:{ intros k Hk. rewrite (sh_values _ _ _ Hs). case_decide; [by rewrite Hsame|by rewrite Hout]. }
  rewrite (zsum_with_ext (λ k, at_key _ (values sh0 !! k) k) (λ k, charge s k)); [unfold optional_size, compose, at_key; cbn; lia|].
  intros k Hk. rewrite (sh_values _ _ _ Hs), decide_True by auto. done.
Qed.

Lemma commit_ok base s keys sh l o reply :
  core base s → finished s keys sh l →
  ∃ s', apply s (prepared s reply (entries_of sh l) o) = Some (s', reply) ∧ core base s' ∧
    keeps (3 * zlen l) s s' ∧ watches s' = foldl invalidate (watches s) l ∧ used_bytes s' = used_bytes sh ∧
    (∀ k, k ∉ l → values s' !! k = values s !! k) ∧
    ∀ k, image <$> values s' !! k =
         if decide (k ∈ keys) then image <$> values sh !! k else image <$> values s !! k.
Proof.
  intros Hc Hf. pose proof (finished_usage _ _ _ _ Hf) as Hu.
  destruct Hf as [(sh0 & Hs & Hcs & Hcf) Hout Hsame Hl Hn].
  destruct (apply_ok base s (prepared s reply (entries_of sh l) o)) as (s' & Ha & Hc' & Hp & Hw & Hu' & Hfr & Hv);
    cbn [p_entries p_generation p_reply prepared] in *; try done.
  - by rewrite entries_of_keys.
  - apply Forall_fmap, Forall_true. intros k. unfold optional_ok. cbn.
    destruct (values sh !! k) eqn:E; [|done]. by eapply co_entries.
  - rewrite <- Hu, <- Hcf. apply Hcs.
  - exists s'. rewrite entries_of_keys in Hw, Hfr. split_and!; try done.
    + replace (zlen l) with (zlen (entries_of sh l)); [done|]. unfold zlen, entries_of. by rewrite length_fmap.
    + congruence.
    + intros k. rewrite Hv, entries_of_lookup. destruct (decide (k ∈ l)); [by rewrite decide_True by auto|].
      case_decide; [|done]. by rewrite Hsame.
Qed.

(** ** Execution refines the reference semantics *)

Lemma view_image s s' t k :
  image <$> values s !! k = image <$> values s' !! k → view s t !! k = view s' t !! k.
Proof.
  intros Hk. rewrite !lookup_view. destruct (values s !! k) as [e|], (values s' !! k) as [e'|]; try done.
  cbn in Hk. injection Hk as Hv Hx Hu Hd. cbn. unfold expired_at, abs_entry, entry_expiry. by rewrite Hv, Hx, Hu.
Qed.

(** Lifts the run of a shadow to the store it was committed to. *)
Lemma refines_commit t c s keys sh0 sh s' r :
  (∀ k, k ∈ visit_keys c → k ∈ keys) →
  is_shadow s keys sh0 → config sh = config s → config s' = config s → used_bytes s' = used_bytes sh →
  (∀ k, k ∉ keys → values sh !! k = None) →
  (∀ k, image <$> values s' !! k =
        if decide (k ∈ keys) then image <$> values sh !! k else image <$> values s !! k) →
  refines t c sh0 sh r → refines t c s s' r.
Proof.
  intros Hk Hs Hcf Hcf' Hu Hout Hv Hr.
  assert (∀ k, k ∈ keys → view sh0 t !! k = view s t !! k) as Hin0.
  { intros k Hin. apply view_image. by rewrite (sh_values _ _ _ Hs), decide_True. }
  assert (∀ k, k ∈ keys → view s' t !! k = view sh t !! k) as Hin.
  { intros k Hin. apply view_image. by rewrite Hv, decide_True. }
  assert (∀ k, k ∉ keys → view s' t !! k = view s t !! k) as Hin'.
  { intros k Hin'. apply view_image. by rewrite Hv, decide_False. }
  destruct (spec_local t c (view sh0 t) (view s t)) as [Hl2 Hl1]; [auto|].
  assert (∀ k, k ∈ keys → (spec t c (view sh0 t)).1 !! k = (spec t c (view s t)).1 !! k) as Hspec.
  { intros k Hkk. destruct (decide (k ∈ visit_keys c)); [by apply Hl1|]. rewrite !spec_frame by done. by apply Hin0. }
  destruct Hr as [(-> & Hw & He)|Hr]; [left|right].
  - split_and!; [done| |].
    + apply map_eq. intros k. destruct (decide (k ∈ keys)); [by rewrite Hin, Hw, Hin0|by apply Hin'].
    + unfold exhausted in *. rewrite Hcf', <- Hcf, Hu.
      cut (dataset_size (spec t c (view s t)).1 - dataset_size (view s' t) =
           dataset_size (spec t c (view sh0 t)).1 - dataset_size (view sh t)); [lia|].
      unfold dataset_size.
      rewrite (map_zsum_change a_entry_size (view s' t) (spec t c (view s t)).1 (remove_dups keys)),
        (map_zsum_change a_entry_size (view sh t) (spec t c (view sh0 t)).1 (remove_dups keys));
        try apply NoDup_remove_dups.
      * rewrite (zsum_with_ext (λ k, at_key _ (view s' t !! k) k) (λ k, at_key a_entry_size (view sh t !! k) k)),
          (zsum_with_ext (λ k, at_key _ ((spec t c (view s t)).1 !! k) k) (λ k, at_key a_entry_size ((spec t c (view sh0 t)).1 !! k) k));
          [lia|..]; intros k Hkk; rewrite elem_of_remove_dups in Hkk; [by rewrite Hspec|by rewrite Hin].
      * intros k Hkk. rewrite elem_of_remove_dups in Hkk. rewrite spec_frame by auto.
        rewrite !lookup_view, Hout, (sh_values _ _ _ Hs), decide_False by done. done.
      * intros k Hkk. rewrite elem_of_remove_dups in Hkk. rewrite spec_frame by auto. by apply Hin'.
  - rewrite (surjective_pairing (spec t c (view s t))), <- Hl2, Hr. cbn [snd]. f_equal.
    apply map_eq. intros k. destruct (decide (k ∈ keys)) as [Hkk|Hkk].
    + rewrite Hin, <- Hspec, Hr by done. done.
    + rewrite Hin' by done. apply spec_frame. auto.
Qed.

(** The changes a preparation records. *)
Lemma prepare_ok `{HashOrder} base s t c :
  core base s → gens_ok s → generation s + 6 * zlen (visit_keys c) < 2 ^ 64 → command_scores c →
  ∃ sh l r,
    prepare s t c = Some (prepared s r (entries_of sh l) (match c with CMemory _ _ => Client | _ => prepare_origin c end)) ∧
    finished s (command_keys c) sh l ∧
    ∃ sh0, is_shadow s (command_keys c) sh0 ∧ refines t c sh0 sh r.
Proof.
  intros Hc Hg Hb Hsc. destruct (shadow_ok base false s (command_keys c) Hc) as (sh00 & E0 & Hs & _).
  set (sh0 := fold_left _ _ _) in *.
  destruct (execute_inner_ok _ sh0 t c (sh_core _ _ _ Hs) Hsc) as (sh & r & Er & Hst & Hcs & Hr).
  destruct (steps_newer _ _ _ _ Hst) as (Hgs & Hnew & _).
  { intros k e. rewrite (sh_values _ _ _ Hs), (sh_generation _ _ _ Hs). case_decide; [apply Hg|done]. }
  { rewrite (sh_generation _ _ _ Hs). destruct Hc. lia. }
  { rewrite (sh_generation _ _ _ Hs). unfold zlen in Hb. lia. }
  destruct (steps_frame _ _ _ _ Hst) as [Hcf Hfr].
  set (l := List.filter (λ key, negb (bool_decide
      (e_generation <$> values s !! key = e_generation <$> values sh !! key))) (command_keys c)).
  assert (finished s (command_keys c) sh l) as Hfin.
  { split.
    - exists sh0. split_and!; try done. by rewrite Hcf, (sh_config _ _ _ Hs).
    - intros k Hk. rewrite Hfr by (by rewrite <- command_keys_elem).
      by rewrite (sh_values _ _ _ Hs), decide_False.
    - intros k Hk Hkl. destruct (Hnew k) as [->|Hn].
      { by rewrite (sh_values _ _ _ Hs), decide_True. }
      assert (e_generation <$> values s !! k = e_generation <$> values sh !! k) as Hgk.
      { destruct (decide (e_generation <$> values s !! k = e_generation <$> values sh !! k)); [done|].
        destruct Hkl. apply list_elem_of_In, filter_In. rewrite bool_decide_eq_false_2 by done.
        split; [by apply list_elem_of_In|done]. }
      destruct (values s !! k) as [e|] eqn:E, (values sh !! k) as [e'|] eqn:E'; try done. cbn in Hgk.
      specialize (Hn e' eq_refl). rewrite (sh_generation _ _ _ Hs) in Hn. specialize (Hg _ _ E).
      simplify_eq. lia.
    - intros k [Hk _]%list_elem_of_In%filter_In. by apply list_elem_of_In.
    - apply NoDup_ListNoDup, List.NoDup_filter, NoDup_ListNoDup, command_keys_NoDup. }
  exists sh, l, r. split_and!; [|done|by exists sh0].
  unfold prepare. destruct c; try (rewrite E0; cbn [mbind option_bind]; fold sh0; rewrite Er; done).
  cbn in Er. injection Er as <- <-. f_equal. unfold prepared. 
  assert (l = []) as ->; [|done]. unfold l. clear -Hs.
  apply elem_of_nil_inv. intros k [Hk Hn]%list_elem_of_In%filter_In. apply list_elem_of_In in Hk.
  by rewrite (sh_values _ _ _ Hs), decide_True, bool_decide_eq_true_2 in Hn by done.
Qed.

(** A well-formed store. *)
Record store_wf (s : Store) : Prop := {
  wf_core : core 0 s;
  wf_indexed : indexed s;
  wf_gens : gens_ok s
}.

Lemma wf_keeps n s s' :
  store_wf s → core 0 s' → keeps n s s' → generation s + n < 2 ^ 64 → store_wf s'.
Proof.
  intros [Hc Hi Hg] Hc' [_ Ki Kg] Hb. split; [done|auto|]. apply Kg; [done| |done]. destruct Hc. lia.
Qed.

Lemma finished_keys s keys sh l : finished s keys sh l → zlen l <= zlen keys.
Proof.
  intros [_ _ _ Hk Hn]. unfold zlen. apply inj_le. by apply submseteq_length, NoDup_submseteq.
Qed.
Lemma command_keys_length c : zlen (command_keys c) <= zlen (visit_keys c).
Proof.
  unfold zlen. apply inj_le. apply submseteq_length, NoDup_submseteq; [apply command_keys_NoDup|].
  intros k. by rewrite command_keys_elem.
Qed.

(** Every command but the memory ones runs to completion on a well-formed
    store, keeps it well formed, and refines its reference semantics. *)
Lemma execute_plain_ok `{HashOrder} s t c :
  store_wf s → command_scores c → generation s + 6 * zlen (visit_keys c) < 2 ^ 64 →
  ∃ s' r, execute_plain s t c = Some (s', r) ∧ store_wf s' ∧ refines t c s s' r ∧
          keeps (6 * zlen (visit_keys c)) s s'.
Proof.
  intros Hw Hsc Hb. pose proof Hw as [Hc Hi Hg].
  destruct (prepare_ok 0 s t c Hc Hg Hb Hsc) as (sh & l & r & Ep & Hf & sh0 & Hs & Hr).
  unfold execute_plain. rewrite Ep. cbn [mbind option_bind].
  destruct (commit_ok 0 s (command_keys c) sh l (match c with CMemory _ _ => Client | _ => prepare_origin c end) r Hc Hf)
    as (s' & -> & Hc' & Hk & _ & Hu & _ & Hv).
  pose proof (finished_keys _ _ _ _ Hf). pose proof (command_keys_length c). pose proof (zlen_nonneg l).
  assert (keeps (6 * zlen (visit_keys c)) s s') as Hk'.
  { eapply (keeps_trans (3 * zlen l) 0); [| |done|]; [lia..|by apply keeps_refl]. }
  exists s', r. split_and!; try done; [by eapply wf_keeps|].
  destruct (fi_core _ _ _ _ Hf) as (_ & _ & _ & Hcf).
  eapply (refines_commit _ _ _ (command_keys c) sh0 sh); try done.
  - intros k. by rewrite command_keys_elem.
  - apply Hk.
  - apply Hf.
Qed.

(** A new store is well formed. *)
Lemma with_config_wf id c s : 0 <= max_dataset_bytes c → with_config id c = Ok s → store_wf s.
Proof.
  intros Hc. unfold with_config, StoreConfig_validate. destruct (guard_ok _ _) eqn:E; [|done].
  apply guard_ok_ok in E. intros [= <-]. split; [split|split|]; cbn; try done; try lia; set_solver.
Qed.

(** The order of [map_to_list] is one order of a [HashMap]. *)
Definition list_order : HashOrder :=
  {| hash_iter V (m : gmap bytes V) := map_to_list m; hash_iter_perm V m := reflexivity _ |}.

(** An empty store with the default quota. *)
Definition empty_store : Store :=
  {| values := ∅; expirations := ∅; member_expirations := ∅; generation := 0;
     config := StoreConfig_default; used_bytes := 0; watches := Registry_default 0 |}.
Lemma empty_store_wf : store_wf empty_store.
Proof. by apply (with_config_wf 0 StoreConfig_default). Qed.
