(* ===== verification/Replay.v ===== *)
(** * Replay and snapshots

    The laws of [prepare_replay], [replay] and [snapshot] of src/storage/mutation.rs: a
    replayed batch of distinct keys is accepted exactly when its images fit the quota,
    and the snapshot of a store restores its dataset in an empty one. *)

From Stdlib Require Import Strings.Byte Strings.String ZArith Lia.
From S2P Require Import Prelude Float Score Memory Command Store StoreInv StoreSpec Mutation StoreExec.

#[local] Open Scope Z_scope.

(** ** Instants of absolute deadlines *)

(** Every remaining time of an absolute deadline has an instant. *)
Definition clock_ok (t : Sample) : Prop :=
  I64_MIN <= unix_millis t ∧ now t + USIZE_MAX * 1000000 <= INSTANT_MAX.

Definition instant_of (t : Sample) (d : Z) : Z := now t + Z.max 0 (d - unix_millis t) * 1000000.

Lemma instant_add_ok t d :
  clock_ok t → d <= I64_MAX → unix_millis t < d →
  (millis ← usize_checked (d - unix_millis t); instant_add (now t) millis) = Some (instant_of t d).
Proof.
  intros [Hu Hn] Hd Hlt.
  assert (d - unix_millis t <= USIZE_MAX) by (unfold I64_MIN, I64_MAX, USIZE_MAX in *; lia).
  rewrite usize_checked_ok by lia. cbn [mbind option_bind]. unfold instant_add, instant_of.
  rewrite (proj2 (Z.leb_le _ _)) by lia. f_equal. lia.
Qed.

Lemma replay_deadline_ok t d : clock_ok t → d <= I64_MAX → replay_deadline t d = Ok (instant_of t d).
Proof.
  intros Ht Hd. unfold replay_deadline. destruct (Z.leb_spec d (unix_millis t)).
  - unfold instant_of. f_equal. lia.
  - by rewrite instant_add_ok.
Qed.

(** The instant a replayed image keeps from the entry it replaces. *)
Definition retained (previous : option Entry) (id : bytes) (absolute : Z) : option Z :=
  entry ← previous;
  match e_value entry with
  | VMemory old =>
      if bool_decide (m_deadline <$> c_members old !! id = Some (Some absolute))
      then member_deadlines entry !! id else None
  | _ => None
  end.
Definition member_instant (previous : option Entry) (t : Sample) (id : bytes) (absolute : Z) : Z :=
  default (instant_of t absolute) (retained previous id absolute).

Lemma resolve_deadline_ok previous t id a :
  clock_ok t → a <= I64_MAX → resolve_deadline previous t id a = Ok (member_instant previous t id a).
Proof.
  intros Ht Ha. unfold resolve_deadline. fold (retained previous id a). unfold member_instant.
  destruct (retained previous id a); [done|]. cbn. destruct (Z.leb_spec a (unix_millis t)).
  - unfold instant_of. f_equal. lia.
  - by rewrite instant_add_ok.
Qed.

Lemma list_to_map_btree_iter {V} (m : gmap bytes V) : list_to_map (btree_iter m) = m.
Proof.
  rewrite <- (list_to_map_to_list m) at 2. apply list_to_map_proper; [apply btree_iter_NoDup|apply btree_iter_perm].
Qed.

(** The instants of the members of an image, whatever the clock. *)
Lemma resolve_lookup s t k c ds :
  resolve_member_deadlines s t k (VMemory c) = Ok ds →
  ∀ id, match c_members c !! id ≫= m_deadline with
        | Some a => ∃ d, resolve_deadline (values s !! k) t id a = Ok d ∧ ds !! id = Some d
        | None => ds !! id = None
        end.
Proof.
  cbn [resolve_member_deadlines]. match goal with |- fold_ok ?g _ _ = _ → _ => set (f := g) end.
  assert (∀ l acc, NoDup l.*1 → fold_ok f acc l = Ok ds → ∀ id,
    match (list_to_map l : gmap bytes Member) !! id ≫= m_deadline with
    | Some a => ∃ d, resolve_deadline (values s !! k) t id a = Ok d ∧ ds !! id = Some d
    | None => ds !! id = acc !! id
    end) as Hl.
  { induction l as [|[id m] l IH]; intros acc Hn Hf id'; [by injection Hf as ->|].
    apply NoDup_cons in Hn as [Hid Hn]. cbn [fold_ok] in Hf. apply bind_ok in Hf as (acc' & Ha & Hf).
    specialize (IH acc' Hn Hf id'). unfold f in Ha. cbn [fst snd] in *.
    change (list_to_map ((id, m) :: l) : gmap bytes Member) with (<[id := m]> (list_to_map l : gmap bytes Member)).
    destruct (decide (id = id')) as [<-|Hne].
    - rewrite lookup_insert_eq. rewrite not_elem_of_list_to_map_1 in IH by done. cbn in *.
      destruct (m_deadline m) as [a|]; [|by injection Ha as <-].
      apply bind_ok in Ha as (d & Hd & [= <-]). exists d. split; [done|]. by rewrite IH, lookup_insert_eq.
    - rewrite lookup_insert_ne by done. destruct (_ ≫= m_deadline); [done|]. rewrite IH.
      destruct (m_deadline m) as [a|]; [|by injection Ha as <-].
      apply bind_ok in Ha as (d & Hd & [= <-]). by rewrite lookup_insert_ne. }
  intros Hf id. specialize (Hl _ _ (btree_iter_NoDup _) Hf id). by rewrite list_to_map_btree_iter in Hl.
Qed.

Lemma resolve_deadlines_ok s t k c ds x :
  resolve_member_deadlines s t k (VMemory c) = Ok ds → deadlines_ok (fresh_entry (VMemory c) x ds).
Proof.
  intros Hr id. cbn. specialize (resolve_lookup s t k c ds Hr id) as Hl.
  destruct (c_members c !! id) as [m|] eqn:Em; cbn in Hl.
  - destruct (m_deadline m) as [a|] eqn:Ea.
    + destruct Hl as (d & _ & ->). split; [|by eexists]. intros _. exists m. by rewrite Ea.
    + rewrite Hl. split; [by intros []|]. intros (m' & [= <-] & Ha). rewrite Ea in Ha. by destruct Ha.
  - rewrite Hl. split; [by intros []|]. by intros (? & ? & _).
Qed.

Lemma resolve_total s t k v : clock_ok t → i64_members v → ∃ ds, resolve_member_deadlines s t k v = Ok ds.
Proof.
  intros Ht. destruct v as [| | | | |c]; try by eexists. cbn. intros Hi.
  match goal with |- context [fold_ok ?g] => set (f := g) end.
  assert (∀ l acc, (∀ id m, (id, m) ∈ l → c_members c !! id = Some m) → ∃ ds, fold_ok f acc l = Ok ds) as Hl;
    [|apply Hl; intros id m; apply btree_iter_elem].
  induction l as [|[id m] l IH]; intros acc Hin; [by eexists|]. cbn [fold_ok].
  pose proof (Hi id m (Hin id m ltac:(left))) as Hd.
  destruct (m_deadline m) as [a|] eqn:Em; cbn in Hd.
  - assert (f acc (id, m) = Ok (<[id := member_instant (values s !! k) t id a]> acc)) as ->; [|cbn; apply IH; set_solver].
    unfold f. cbn. rewrite Em. by rewrite resolve_deadline_ok by (done || lia).
  - assert (f acc (id, m) = Ok acc) as ->; [|cbn; apply IH; set_solver]. unfold f. cbn. by rewrite Em.
Qed.

(** ** Replaying a batch *)

(** What a mutation of a batch must be: the image of a value some store held. *)
Definition mutation_wf (m : Mutation) : Prop :=
  match m with
  | Put key value expiry => value_ok value ∧ key_ok key value ∧ i64_deadline expiry ∧ i64_members value
  | Delete _ => True
  end.

(** A plain value past its deadline on the wall clock is not restored. *)
Definition dropped (t : Sample) (value : Value) (expiry : option Z) : bool :=
  match expiry with
  | Some deadline => (deadline <=? unix_millis t) && negb (is_memory value)
  | None => false
  end.
Definition replayed_entry (s : Store) (t : Sample) (m : Mutation) : option Entry :=
  match m with
  | Delete _ => None
  | Put key value expiry =>
      if dropped t value expiry then None
      else match resolve_member_deadlines s t key value with
           | Ok ds => Some (fresh_entry value ((λ d, (instant_of t d, d)) <$> expiry) ds)
           | Err _ => None
           end
  end.
Definition replayed (s : Store) (t : Sample) (m : Mutation) : bytes * option Entry :=
  (Mutation_key m, replayed_entry s t m).

Lemma replayed_ok s t m : mutation_wf m → optional_ok (replayed s t m).
Proof.
  unfold optional_ok. destruct m as [k v x|k]; cbn; [|done]. intros (Hv & Hk & Hx & Hm).
  destruct (dropped t v x); [done|]. destruct (resolve_member_deadlines s t k v) as [ds|] eqn:Er; [|done].
  apply entry_ok_fresh; [done..| |by destruct x|done]. destruct v; try by injection Er as <-. by eapply resolve_deadlines_ok.
Qed.

Lemma replay_entry_eq s t used m :
  clock_ok t → mutation_wf m → 0 <= used <= USIZE_MAX →
  replay_entry s t used m =
    let size := optional_size (replayed s t m) in
    if used + size <=? USIZE_MAX then Ok (used + size, replayed s t m) else Err ReplayQuota.
Proof.
  intros Ht Hm Hu. destruct m as [k v x|k]; cbn [replay_entry].
  2:{ cbn. rewrite (proj2 (Z.leb_le _ _)) by lia. by rewrite Z.add_0_r. }
  destruct Hm as (Hv & Hk & Hx & Hms). unfold replayed. cbn [replayed_entry Mutation_key]. fold (dropped t v x).
  destruct (dropped t v x). { cbn. rewrite (proj2 (Z.leb_le _ _)) by lia. by rewrite Z.add_0_r. }
  destruct (resolve_total s t k v Ht Hms) as [ds Er]. rewrite Er.
  assert (match v with VMemory c => map_err ReplayMemory (validate_key c k) | _ => Ok tt end = Ok tt) as ->.
  { destruct v; try done. cbn in *. by rewrite validate_key_quota. }
  assert (match x with Some d => i ← replay_deadline t d; Ok (Some i) | None => Ok None end = Ok (instant_of t <$> x)) as ->.
  { destruct x; [|done]. cbn in Hx. by rewrite replay_deadline_ok by (done || lia). }
  cbn [mbind result_bind]. rewrite entry_bytes_eq by done. unfold optional_size. cbn [snd fst e_value fresh_entry].
  pose proof (entry_size_pos k v Hv). unfold u_add.
  destruct (usize_checked_cases (entry_size k v)) as [->|[Hb ->]]; [lia| |].
  - cbn [ok_or mbind result_bind]. destruct (Z.leb_spec (used + entry_size k v) USIZE_MAX).
    + rewrite usize_checked_ok by lia. cbn. unfold fresh_entry. by destruct x.
    + by rewrite usize_checked_none.
  - rewrite (proj2 (Z.leb_gt _ _)) by lia. done.
Qed.

Lemma replay_entries_eq s t used l :
  clock_ok t → Forall mutation_wf l → 0 <= used <= USIZE_MAX →
  replay_entries s t used l =
    let total := used + zsum_with optional_size (replayed s t <$> l) in
    if total <=? USIZE_MAX then Ok (total, replayed s t <$> l) else Err ReplayQuota.
Proof.
  intros Ht Hl. revert used. induction Hl as [|m l Hm Hl IH]; intros used Hu; cbn [replay_entries].
  { cbn. rewrite (proj2 (Z.leb_le _ _)) by lia. by rewrite Z.add_0_r. }
  rewrite fmap_cons. change (zsum_with ?g (?x :: ?l)) with (g x + zsum_with g l).
  rewrite replay_entry_eq by done. cbn zeta.
  assert (0 <= zsum_with optional_size (replayed s t <$> l)) as Hp.
  { apply optional_size_nonneg, Forall_fmap. eapply Forall_impl; [exact Hl|]. intros m' ?. by apply replayed_ok. }
  assert (0 <= optional_size (replayed s t m)) as Hp1.
  { pose proof (optional_size_nonneg [replayed s t m]) as H. cbn in H. rewrite Z.add_0_r in H. apply H.
    by constructor; [apply replayed_ok|]. }
  destruct (Z.leb_spec (used + optional_size (replayed s t m)) USIZE_MAX).
  - cbn [mbind result_bind]. rewrite IH by lia. cbn zeta. rewrite Z.add_assoc. by destruct (_ <=? _).
  - rewrite (proj2 (Z.leb_gt _ _)) by lia. done.
Qed.

(** The keys of a batch charge no more than the store uses. *)
Lemma charges_bound base s (l : list bytes) :
  core base s → NoDup l → 0 <= zsum_with (charge s) l <= used_bytes s.
Proof.
  intros Hc Hn. split.
  { apply zsum_with_nonneg. intros k. apply (charge_bounds base s k Hc). }
  destruct (release_all base s ((λ k, (k, None)) <$> l)) as (s' & _ & Hc' & _ & _ & _ & Hu); [done|..].
  { rewrite <- list_fmap_compose. by rewrite list_fmap_id. }
  rewrite zsum_with_fmap in Hu. unfold compose in Hu. cbn in Hu.
  assert (0 <= used_bytes s'); [|change (λ x, charge s x) with (charge s) in Hu; lia].
  destruct Hc'. rewrite co_used.
  assert (0 <= map_zsum (λ k e, entry_size k (e_value e)) (values s')); [|lia]. apply map_zsum_nonneg.
  intros k e He. pose proof (entry_size_pos k (e_value e) (eo_value _ _ (co_entries _ _ He))). lia.
Qed.

Lemma replay_release_eq base s seen used l :
  core base s → NoDup (Mutation_key <$> l) → (∀ m, m ∈ l → Mutation_key m ∉ seen) →
  zsum_with (charge s) (Mutation_key <$> l) <= used <= USIZE_MAX →
  replay_release s seen used l = Some (Ok (used - zsum_with (charge s) (Mutation_key <$> l))).
Proof.
  intros Hc. revert seen used. induction l as [|m l IH]; intros seen used Hn Hs Hu; cbn [replay_release].
  { cbn. by rewrite Z.sub_0_r. }
  rewrite fmap_cons in *. change (zsum_with ?g (?x :: ?l)) with (g x + zsum_with g l) in *.
  apply NoDup_cons in Hn as [Hm Hn]. rewrite bool_decide_eq_false_2 by (apply Hs; left).
  pose proof (charges_bound base s _ Hc Hn) as Hb. set (k := Mutation_key m) in *.
  pose proof (charge_bounds base s k Hc) as Hk.
  assert (∀ used', used' = used - charge s k → replay_release s ({[k]} ∪ seen) used' l =
    Some (Ok (used - (charge s k + zsum_with (charge s) (Mutation_key <$> l))))) as Hr.
  { intros ? ->. rewrite IH; [do 2 f_equal; lia|done| |lia].
    intros m' Hm'. apply not_elem_of_union. split; [|apply Hs; by right].
    intros Hk'%elem_of_singleton. apply Hm. rewrite <- Hk'. by apply list_elem_of_fmap_2. }
  destruct (values s !! k) as [e|] eqn:E.
  2:{ apply Hr. assert (charge s k = 0) by (unfold charge; by rewrite E). lia. }
  assert (charge s k = entry_size k (e_value e)) as Ek by (unfold charge; by rewrite E).
  rewrite entry_bytes_eq by apply (eo_value _ _ (co_entries _ _ Hc _ _ E)).
  destruct Hc. assert (ISIZE_MAX <= USIZE_MAX) by done.
  rewrite usize_checked_ok by lia. unfold u_sub. rewrite usize_checked_ok by lia. cbn [mbind option_bind].
  apply Hr. lia.
Qed.

(** The usage of the store once the batch is applied. *)
Definition replay_usage (s : Store) (t : Sample) (l : list Mutation) : Z :=
  used_bytes s - zsum_with (charge s) (Mutation_key <$> l) + zsum_with optional_size (replayed s t <$> l).

(** A batch of distinct keys is refused only for the quota. *)
Lemma prepare_replay_eq base s t l o :
  core base s → clock_ok t → NoDup (Mutation_key <$> l) → Forall mutation_wf l →
  prepare_replay s t l o =
    Some (if replay_usage s t l <=? max_dataset_bytes (config s)
          then Ok (prepared s ROk (replayed s t <$> l) o) else Err ReplayQuota).
Proof.
  intros Hc Ht Hn Hl. pose proof (charges_bound base s _ Hc Hn) as Hb. unfold prepare_replay.
  assert (ISIZE_MAX <= USIZE_MAX) by done. pose proof (co_config _ _ Hc). pose proof (co_quota _ _ Hc).
  rewrite (replay_release_eq base) by (done || lia || set_solver). cbn [mbind option_bind result_bind].
  rewrite replay_entries_eq by (done || lia). cbn zeta. fold (replay_usage s t l).
  destruct (Z.leb_spec (replay_usage s t l) USIZE_MAX); cbn [mbind result_bind].
  - destruct (Z.leb_spec (replay_usage s t l) (max_dataset_bytes (config s))).
    + by rewrite (proj2 (Z.ltb_ge _ _)) by lia.
    + by rewrite (proj2 (Z.ltb_lt _ _)) by lia.
  - by rewrite (proj2 (Z.leb_gt _ _)) by lia.
Qed.

(** ** The persisted dataset *)

(** What survives a restart: the values with their absolute deadlines. *)
Definition content (e : Entry) : Value * option Z := (e_value e, expires_at_unix_ms e).
Definition persisted (s : Store) : gmap bytes (Value * option Z) := content <$> values s.
Definition content_size (m : gmap bytes (Value * option Z)) : Z := map_zsum (λ k c, entry_size k c.1) m.

(** The meaning of a logged batch at a wall-clock time. *)
Definition mutation_effect (t : Sample) (m : Mutation) : option (Value * option Z) :=
  match m with
  | Delete _ => None
  | Put _ value expiry => if dropped t value expiry then None else Some (value, expiry)
  end.
Definition apply_mutations (t : Sample) (m : gmap bytes (Value * option Z)) (l : list Mutation)
    : gmap bytes (Value * option Z) :=
  foldl (λ m mu, partial_alter (λ _, mutation_effect t mu) (Mutation_key mu) m) m l.

Lemma lookup_persisted s k : persisted s !! k = content <$> values s !! k.
Proof. apply lookup_fmap. Qed.

Lemma persisted_image s s' k :
  image <$> values s !! k = image <$> values s' !! k → persisted s !! k = persisted s' !! k.
Proof.
  rewrite !lookup_persisted. destruct (values s !! k) as [e|], (values s' !! k) as [e'|]; cbn; try done.
  intros [= H1 H2 H3 H4]. unfold content. by rewrite H1, H3.
Qed.

Lemma map_zsum_fmap {V W} (f : bytes → W → Z) (g : V → W) (m : gmap bytes V) :
  map_zsum f (g <$> m) = map_zsum (λ k v, f k (g v)) m.
Proof.
  induction m as [|k v m Hk IH] using map_ind; [by rewrite fmap_empty, !map_zsum_empty|].
  rewrite fmap_insert, !map_zsum_insert, IH; [done|done|]. by rewrite lookup_fmap, Hk.
Qed.
Lemma content_size_used s : core 0 s → used_bytes s = content_size (persisted s).
Proof.
  intros Hc. rewrite (co_used _ _ Hc). unfold content_size, persisted. rewrite map_zsum_fmap. done.
Qed.

(** The effect of each mutation in turn. *)
Definition effects (f : Mutation → option (Value * option Z)) (m : gmap bytes (Value * option Z)) (l : list Mutation)
    : gmap bytes (Value * option Z) :=
  foldl (λ m mu, partial_alter (λ _, f mu) (Mutation_key mu) m) m l.
Lemma lookup_effects f m l k :
  NoDup (Mutation_key <$> l) →
  effects f m l !! k =
    match (list_to_map ((λ mu, (Mutation_key mu, f mu)) <$> l) : gmap _ _) !! k with
    | Some o => o
    | None => m !! k
    end.
Proof.
  unfold effects. revert m. induction l as [|mu l IH]; intros m; [done|].
  rewrite fmap_cons. intros [Hk Hn]%NoDup_cons. cbn [foldl]. rewrite (IH _ Hn), fmap_cons.
  cbn [list_to_map foldr uncurry]. destruct (decide (Mutation_key mu = k)) as [<-|Hne].
  - rewrite lookup_insert_eq, not_elem_of_list_to_map_1, lookup_partial_alter_eq; [done|].
    by rewrite <- list_fmap_compose.
  - by rewrite lookup_insert_ne, lookup_partial_alter_ne.
Qed.
Lemma effects_at f m l mu :
  NoDup (Mutation_key <$> l) → mu ∈ l → effects f m l !! Mutation_key mu = f mu.
Proof.
  intros Hn Hmu. rewrite lookup_effects by done. rewrite (elem_of_list_to_map_1 _ (Mutation_key mu) (f mu)); [done|..].
  - by rewrite <- list_fmap_compose.
  - apply list_elem_of_fmap. by exists mu.
Qed.
Lemma effects_other f m l k :
  NoDup (Mutation_key <$> l) → k ∉ Mutation_key <$> l → effects f m l !! k = m !! k.
Proof. intros Hn Hk. rewrite lookup_effects, not_elem_of_list_to_map_1 by (done || by rewrite <- list_fmap_compose). done. Qed.
Lemma lookup_apply_mutations t m l k :
  NoDup (Mutation_key <$> l) →
  apply_mutations t m l !! k =
    match (list_to_map ((λ mu, (Mutation_key mu, mutation_effect t mu)) <$> l) : gmap _ _) !! k with
    | Some o => o
    | None => m !! k
    end.
Proof. apply (lookup_effects (mutation_effect t)). Qed.

Lemma effect_replayed s t mu :
  clock_ok t → mutation_wf mu → content <$> replayed_entry s t mu = mutation_effect t mu.
Proof.
  intros Ht. destruct mu as [k v x|k]; [|done]. intros (_ & _ & _ & Hm). cbn.
  destruct (dropped t v x); [done|]. destruct (resolve_total s t k v Ht Hm) as [ds ->].
  by destruct x.
Qed.

(** The projected usage is the size of the resulting dataset. *)
Lemma replay_usage_eq s t l :
  core 0 s → clock_ok t → NoDup (Mutation_key <$> l) → Forall mutation_wf l →
  replay_usage s t l = content_size (apply_mutations t (persisted s) l).
Proof.
  intros Hc Ht Hn Hl. unfold replay_usage, content_size.
  rewrite (map_zsum_change _ (persisted s) (apply_mutations t (persisted s) l) (Mutation_key <$> l)); [|done|].
  2:{ intros k Hk. rewrite lookup_apply_mutations by done. rewrite not_elem_of_list_to_map_1; [done|].
      by rewrite <- list_fmap_compose. }
  rewrite (content_size_used s Hc), !zsum_with_fmap. unfold content_size. f_equal; [f_equal|].
  - apply zsum_with_ext. intros mu _. unfold compose, charge. rewrite lookup_persisted. by destruct (values s !! _).
  - apply zsum_with_ext. intros mu Hmu. unfold compose. rewrite lookup_apply_mutations by done.
    rewrite (elem_of_list_to_map_1 _ (Mutation_key mu) (mutation_effect t mu)).
    + rewrite Forall_forall in Hl. rewrite <- (effect_replayed s t mu Ht (Hl mu Hmu)).
      unfold optional_size, replayed. cbn. by destruct (replayed_entry s t mu).
    + by rewrite <- list_fmap_compose.
    + apply list_elem_of_fmap. by exists mu.
Qed.

(** Applying what a replay prepared yields the meaning of the batch. *)
Lemma replay_apply_ok s t l o :
  store_wf s → clock_ok t → NoDup (Mutation_key <$> l) → Forall mutation_wf l →
  generation s + 3 * zlen l < 2 ^ 64 → replay_usage s t l <= max_dataset_bytes (config s) →
  ∃ s', apply s (prepared s ROk (replayed s t <$> l) o) = Some (s', ROk) ∧ store_wf s' ∧
        persisted s' = apply_mutations t (persisted s) l ∧ config s' = config s ∧
        generation s' <= generation s + 3 * zlen l.
Proof.
  intros Hw Ht Hn Hl Hg Hq. pose proof Hw as [Hc Hi Hgs].
  assert ((replayed s t <$> l).*1 = Mutation_key <$> l) as Hkeys by (by rewrite <- list_fmap_compose).
  assert (zlen (replayed s t <$> l) = zlen l) as Hlen by (unfold zlen; by rewrite length_fmap).
  destruct (apply_ok 0 s (prepared s ROk (replayed s t <$> l) o)) as (s' & Ha & Hc' & Hk & _ & _ & _ & Hv);
    cbn [p_entries p_generation p_reply prepared] in *; try done.
  - by rewrite Hkeys.
  - apply Forall_fmap. eapply Forall_impl; [exact Hl|]. intros mu ?. by apply replayed_ok.
  - unfold replay_usage in Hq. rewrite !zsum_with_fmap in Hq. rewrite !zsum_with_fmap. exact Hq.
  - exists s'. rewrite Hlen in Hk. split_and!; [done|by eapply wf_keeps| |by destruct Hk|].
    2:{ destruct Hk as [_ _ Hk]. destruct (Hk Hgs) as [_ ?]; [destruct Hc|..]; lia. }
    apply map_eq. intros k. rewrite lookup_apply_mutations by done. specialize (Hv k).
    destruct (decide (k ∈ Mutation_key <$> l)) as [Hin|Hout].
    + apply list_elem_of_fmap in Hin as (mu & -> & Hin).
      rewrite (elem_of_list_to_map_1 _ (Mutation_key mu) (replayed_entry s t mu)) in Hv.
      2:{ by rewrite Hkeys. }
      2:{ apply list_elem_of_fmap. by exists mu. }
      rewrite (elem_of_list_to_map_1 _ (Mutation_key mu) (mutation_effect t mu)).
      * rewrite Forall_forall in Hl. rewrite <- (effect_replayed s t mu Ht (Hl mu Hin)), lookup_persisted.
        destruct (values s' !! _) as [e|], (replayed_entry s t mu) as [e'|]; cbn in Hv |- *; try done.
        injection Hv as H1 H2 H3 H4. unfold content. by rewrite H1, H3.
      * by rewrite <- list_fmap_compose.
      * apply list_elem_of_fmap. by exists mu.
    + rewrite not_elem_of_list_to_map_1 in Hv by (by rewrite Hkeys).
      rewrite not_elem_of_list_to_map_1 by (by rewrite <- list_fmap_compose). by apply persisted_image.
Qed.

(** A repeated key is refused before anything is resolved. *)
Lemma replay_duplicate (base : Z) (s : Store) (seen : gset bytes) (l : list Mutation) :
  core base s → (NoDup (Mutation_key <$> l) → ∃ m, m ∈ l ∧ Mutation_key m ∈ seen) →
  replay_release s seen (used_bytes s - zsum_with (charge s) (elements seen)) l = Some (Err DuplicateKey).
Proof.
  intros Hc. revert seen. induction l as [|m l IH]; intros seen Hd; cbn [replay_release].
  { destruct Hd as (? & ?%not_elem_of_nil & _); [constructor|done]. }
  case_bool_decide as Hm; [done|]. set (k := Mutation_key m) in *.
  assert (NoDup (k :: elements seen)) as Hn.
  { apply NoDup_cons. rewrite elem_of_elements. split; [done|apply NoDup_elements]. }
  pose proof (charges_bound base s _ Hc Hn) as Hb.
  change (zsum_with ?g (?x :: ?l)) with (g x + zsum_with g l) in Hb.
  assert (0 <= zsum_with (charge s) (elements seen)) as Hp by (apply (charges_bound base s _ Hc), NoDup_elements).
  assert (replay_release s ({[k]} ∪ seen) (used_bytes s - zsum_with (charge s) (elements seen) - charge s k) l
          = Some (Err DuplicateKey)) as Hr.
  { rewrite <- IH with (seen := {[k]} ∪ seen).
    - f_equal. rewrite (zsum_with_perm _ _ _ (elements_union_singleton seen k Hm)).
      change (zsum_with ?g (?x :: ?l)) with (g x + zsum_with g l). lia.
    - intros Hnl. destruct (decide (k ∈ Mutation_key <$> l)) as [Hk|Hk].
      + apply list_elem_of_fmap in Hk as (m' & Hk & Hin). exists m'. split; [done|]. rewrite <- Hk. set_solver.
      + destruct Hd as (m' & Hin & Hs); [by apply NoDup_cons|]. exists m'.
        apply elem_of_cons in Hin as [->|Hin]; [done|]. set_solver. }
  pose proof (co_quota _ _ Hc). pose proof (co_config _ _ Hc). assert (ISIZE_MAX <= USIZE_MAX) by done.
  pose proof (charge_bounds base s k Hc) as Hk. unfold charge at 2 in Hr. unfold charge in Hk.
  destruct (values s !! k) as [e|] eqn:E; [|by rewrite Z.sub_0_r in Hr].
  assert (charge s k = entry_size k (e_value e)) as Ek by (unfold charge; by rewrite E).
  pose proof (entry_size_pos k (e_value e) (eo_value _ _ (co_entries _ _ Hc _ _ E))).
  rewrite entry_bytes_eq by apply (eo_value _ _ (co_entries _ _ Hc _ _ E)).
  rewrite usize_checked_ok by lia. unfold u_sub. rewrite usize_checked_ok by lia. done.
Qed.

(** C15. Replaying any batch of well-formed images on a well-formed store never panics.  A batch
    that names a key twice is refused; a batch whose resulting dataset exceeds the quota is
    refused; every other batch yields a well-formed store that holds exactly the dataset the
    batch describes, without the plain values already past their deadlines. *)
Theorem replay_correct s t l :
  store_wf s → clock_ok t → Forall mutation_wf l → generation s + 3 * zlen l < 2 ^ 64 →
  let m := apply_mutations t (persisted s) l in
  ∃ r, replay s t l = Some r ∧
    match r with
    | Ok s' => NoDup (Mutation_key <$> l) ∧ content_size m <= max_dataset_bytes (config s) ∧
               store_wf s' ∧ persisted s' = m ∧ config s' = config s
    | Err e => e = DuplicateKey ∧ ¬ NoDup (Mutation_key <$> l) ∨
               e = ReplayQuota ∧ NoDup (Mutation_key <$> l) ∧ max_dataset_bytes (config s) < content_size m
    end.
Proof.
  intros Hw Ht Hl Hg m. pose proof Hw as [Hc _ _]. unfold replay.
  destruct (decide (NoDup (Mutation_key <$> l))) as [Hn|Hn].
  - rewrite (prepare_replay_eq 0) by done. cbn [mbind option_bind].
    pose proof (replay_usage_eq s t l Hc Ht Hn Hl) as Hu. fold m in Hu. rewrite Hu.
    destruct (Z.leb_spec (content_size m) (max_dataset_bytes (config s))).
    + destruct (replay_apply_ok s t l Client) as (s' & -> & Hw' & Hp & Hcf & _); try done; [lia|].
      eexists. split; [done|]. cbn. done.
    + eexists. split; [done|]. cbn. right. done.
  - unfold prepare_replay.
    pose proof (replay_duplicate 0 s ∅ l Hc) as Hd. rewrite elements_empty in Hd. cbn in Hd.
    rewrite Z.sub_0_r in Hd. rewrite Hd by done. cbn. eexists. split; [done|]. cbn. left. done.
Qed.

(** ** Snapshots *)

Definition put_of (e : bytes * Entry) : Mutation := Put e.1 (e_value e.2) (expires_at_unix_ms e.2).

(** The snapshot lists the entries by key, whatever the order of the hash map. *)
Lemma snapshot_eq `{HashOrder} s : snapshot s = put_of <$> btree_iter (values s).
Proof.
  unfold snapshot. fold put_of.
  assert (∀ l, merge_sort (λ l r, cmp_le (Mutation_key l) (Mutation_key r)) l ≡ₚ l) as Hp
    by (intros; apply merge_sort_Permutation).
  apply (StronglySorted_unique_strong (λ l r, cmp_le (Mutation_key l) (Mutation_key r))).
  - intros m m'. rewrite Hp, !list_elem_of_fmap. intros ([k e] & -> & He) ([k' e'] & -> & He') H1 H2.
    cbn in H1, H2. pose proof (anti_symm cmp_le k k' H1 H2) as <-.
    rewrite hash_iter_perm in He. apply elem_of_map_to_list in He. apply btree_iter_elem in He'. congruence.
  - apply StronglySorted_merge_sort; [intros x y z; cbn; by apply transitivity|intros x y; cbn; apply total; apply _].
  - apply (StronglySorted_fmap put_of (λ l r : bytes * Entry, cmp_le l.1 r.1)); [done|].
    apply StronglySorted_merge_sort; [intros x y z; cbn; by apply transitivity|intros x y; cbn; apply total; apply _].
  - rewrite Hp. apply Permutation_map. by rewrite hash_iter_perm, btree_iter_perm.
Qed.

Lemma put_wf s k e : core 0 s → values s !! k = Some e → mutation_wf (put_of (k, e)).
Proof. intros Hc He. destruct (co_entries _ _ Hc _ _ He) as [? ? _ _ [? ?]]. done. Qed.

(** What is left of a dataset when it is loaded at a wall-clock time. *)
Definition undropped (t : Sample) (m : gmap bytes (Value * option Z)) : gmap bytes (Value * option Z) :=
  base.filter (λ e, dropped t e.2.1 e.2.2 = false) m.

Lemma snapshot_keys `{HashOrder} s : Mutation_key <$> snapshot s = (btree_iter (values s)).*1.
Proof. rewrite snapshot_eq, <- list_fmap_compose. done. Qed.

Lemma lookup_undropped t m k :
  undropped t m !! k = (c ← m !! k; if dropped t c.1 c.2 then None else Some c).
Proof.
  unfold undropped. destruct (m !! k) as [c|] eqn:E; cbn.
  - destruct (dropped t c.1 c.2) eqn:Ed.
    + apply map_lookup_filter_None. right. intros c' Hc. simplify_eq. cbn. by rewrite Ed.
    + by apply map_lookup_filter_Some.
  - apply map_lookup_filter_None. by left.
Qed.

Lemma snapshot_effect `{HashOrder} s t : apply_mutations t ∅ (snapshot s) = undropped t (persisted s).
Proof.
  apply map_eq. intros k. rewrite lookup_apply_mutations by (rewrite snapshot_keys; apply btree_iter_NoDup).
  rewrite lookup_undropped, lookup_persisted, snapshot_eq, <- list_fmap_compose. 
  destruct (values s !! k) as [e|] eqn:E; cbn.
  - rewrite (elem_of_list_to_map_1 _ k (mutation_effect t (put_of (k, e)))); [done| |].
    + rewrite <- list_fmap_compose. apply btree_iter_NoDup.
    + apply list_elem_of_fmap. exists (k, e). split; [done|]. by apply btree_iter_elem.
  - rewrite not_elem_of_list_to_map_1; [done|]. rewrite <- list_fmap_compose.
    intros ([k' e] & -> & Hin%btree_iter_elem)%list_elem_of_fmap. cbn in E. congruence.
Qed.

Lemma content_size_undropped t s : core 0 s → content_size (undropped t (persisted s)) <= used_bytes s.
Proof.
  intros Hc. rewrite content_size_used by done. apply map_zsum_mono; [|apply map_filter_subseteq].
  intros k c. rewrite lookup_persisted. intros (e & He & ->)%fmap_Some_1.
  pose proof (entry_size_pos k (e_value e) (eo_value _ _ (co_entries _ _ Hc _ _ He))). cbn. lia.
Qed.

(** C40. The snapshot of a well-formed store does not depend on the order of the hash map, lists
    its keys in strictly increasing order, and replayed into any empty store whose quota covers the
    usage restores exactly the dataset, without the plain values already past their deadlines. *)
Theorem snapshot_restores (O O' : HashOrder) s s0 t :
  store_wf s → store_wf s0 → values s0 = ∅ → used_bytes s <= max_dataset_bytes (config s0) → clock_ok t →
  generation s0 + 3 * len s < 2 ^ 64 →
  @snapshot O' s = @snapshot O s ∧ StronglySorted cmp_lt (Mutation_key <$> @snapshot O s) ∧
  ∃ s', replay s0 t (@snapshot O s) = Some (Ok s') ∧ store_wf s' ∧
        persisted s' = undropped t (persisted s).
Proof.
  intros Hw Hw0 H0 Hq Ht Hg. split_and!; [by rewrite !snapshot_eq|rewrite snapshot_keys; apply btree_iter_sorted|].
  assert (NoDup (Mutation_key <$> @snapshot O s)) as Hn by (rewrite snapshot_keys; apply btree_iter_NoDup).
  assert (Forall mutation_wf (@snapshot O s)) as Hl.
  { rewrite snapshot_eq. apply Forall_fmap, Forall_forall. intros [k e] Hin%btree_iter_elem.
    by apply (put_wf s); [apply Hw|]. }
  assert (zlen (@snapshot O s) = len s) as Hz.
  { rewrite snapshot_eq. unfold zlen, len. by rewrite length_fmap, btree_iter_perm, length_map_to_list. }
  assert (persisted s0 = ∅) as Hp by (unfold persisted; by rewrite H0, fmap_empty).
  assert (replay_usage s0 t (@snapshot O s) <= max_dataset_bytes (config s0)) as Hu.
  { rewrite replay_usage_eq, Hp, snapshot_effect by (done || apply Hw0).
    pose proof (content_size_undropped t s (wf_core _ Hw)). lia. }
  destruct (replay_apply_ok s0 t (@snapshot O s) Client) as (s' & Ha & Hw' & Hp' & _); [done..|lia|done|].
  exists s'. unfold replay. rewrite (prepare_replay_eq 0), (proj2 (Z.leb_le _ _) Hu) by (done || apply Hw0).
  cbn. rewrite Ha. split_and!; [done..|]. by rewrite Hp', Hp, snapshot_effect.
Qed.

(** ** The log of a command *)

Lemma mutation_of_key e : Mutation_key (mutation_of e) = e.1.
Proof. unfold mutation_of. by destruct e as [k [e|]]. Qed.
Lemma mutation_of_wf e : optional_ok e → mutation_wf (mutation_of e).
Proof. destruct e as [k [e|]]; [|done]. intros [? ? _ _ [? ?]]. done. Qed.
Lemma mutation_of_effect t k o :
  mutation_effect t (mutation_of (k, o)) = (c ← content <$> o; if dropped t c.1 c.2 then None else Some c).
Proof. by destruct o. Qed.

Lemma logged_keys sh l : Mutation_key <$> (mutation_of <$> entries_of sh l) = l.
Proof.
  rewrite <- (entries_of_keys sh l) at 2. rewrite <- list_fmap_compose. apply list_fmap_ext.
  intros i e _. apply mutation_of_key.
Qed.

(** A dataset after a restart that replays the batch of some keys. *)
Definition restarted (t : Sample) (touched : list bytes) (m : gmap bytes (Value * option Z))
    : gmap bytes (Value * option Z) :=
  base.filter (λ e, (bool_decide (e.1 ∈ touched) && dropped t e.2.1 e.2.2) = false) m.

Lemma lookup_restarted t touched m k :
  restarted t touched m !! k = if decide (k ∈ touched) then undropped t m !! k else m !! k.
Proof.
  unfold restarted. destruct (m !! k) as [c|] eqn:E.
  - rewrite lookup_undropped, E. cbn. destruct (bool_decide (k ∈ touched) && dropped t c.1 c.2) eqn:Eb.
    + rewrite (proj2 (map_lookup_filter_None _ _ _)) by (right; intros c' Hc; simplify_eq; cbn; by rewrite Eb).
      apply andb_prop in Eb as [Hk%bool_decide_eq_true ->]. by rewrite decide_True.
    + rewrite (proj2 (map_lookup_filter_Some _ _ _ _)) by done.
      case_decide; [|done]. rewrite bool_decide_eq_true_2 in Eb by done. cbn in Eb. by rewrite Eb.
  - rewrite (proj2 (map_lookup_filter_None _ _ _)) by (by left).
    case_decide; [|done]. by rewrite lookup_undropped, E.
Qed.

(** The effect of a mutation when it is committed. *)
Definition raw_effect (mu : Mutation) : option (Value * option Z) :=
  match mu with Delete _ => None | Put _ value expiry => Some (value, expiry) end.

Lemma apply_restarted t m l :
  NoDup (Mutation_key <$> l) → apply_mutations t m l = restarted t (Mutation_key <$> l) (effects raw_effect m l).
Proof.
  intros Hn. apply map_eq. intros k. rewrite lookup_restarted. case_decide as Hk.
  - apply list_elem_of_fmap in Hk as (mu & -> & Hmu). rewrite lookup_undropped. rewrite (effects_at raw_effect) by done.
    etrans; [by apply (effects_at (mutation_effect t))|]. destruct mu as [k v x|k]; [|done]. by destruct x.
  - rewrite (effects_other raw_effect) by done. by apply (effects_other (mutation_effect t)).
Qed.

(** The recorded batch of a committed shadow is what the commit did. *)
Lemma logged_raw base s keys sh l s' :
  core base s → finished s keys sh l →
  (∀ k, k ∉ l → values s' !! k = values s !! k) →
  (∀ k, image <$> values s' !! k =
        if decide (k ∈ keys) then image <$> values sh !! k else image <$> values s !! k) →
  effects raw_effect (persisted s) (mutation_of <$> entries_of sh l) = persisted s'.
Proof.
  intros Hc Hf Hfr Hv. pose proof (logged_keys sh l) as Hk. assert (NoDup (Mutation_key <$> (mutation_of <$> entries_of sh l))) as Hn
    by (rewrite Hk; apply Hf).
  apply map_eq. intros k. destruct (decide (k ∈ l)) as [Hin|Hin].
  - assert (mutation_of (k, values sh !! k) ∈ mutation_of <$> entries_of sh l) as Hm
      by (apply list_elem_of_fmap_2, list_elem_of_fmap; by exists k).
    pose proof (effects_at raw_effect (persisted s) _ _ Hn Hm) as He. rewrite mutation_of_key in He. cbn [fst] in He. rewrite He.
    rewrite lookup_persisted. specialize (Hv k). rewrite decide_True in Hv by by eapply fi_keys.
    destruct (values s' !! k), (values sh !! k); try done. cbn in Hv |- *. injection Hv as H1 H2 H3 H4. unfold content. by rewrite H1, H3.
  - rewrite effects_other by (done || by rewrite Hk). by rewrite !lookup_persisted, Hfr.
Qed.
Lemma logged_effect base s keys sh l s' t :
  core base s → finished s keys sh l →
  (∀ k, k ∉ l → values s' !! k = values s !! k) →
  (∀ k, image <$> values s' !! k =
        if decide (k ∈ keys) then image <$> values sh !! k else image <$> values s !! k) →
  apply_mutations t (persisted s) (mutation_of <$> entries_of sh l) = restarted t l (persisted s').
Proof.
  intros Hc Hf Hfr Hv. pose proof (logged_keys sh l) as Hk. rewrite apply_restarted by (rewrite Hk; apply Hf).
  by rewrite Hk, (logged_raw base s keys sh l s').
Qed.

Lemma content_size_restarted t l s : core 0 s → content_size (restarted t l (persisted s)) <= used_bytes s.
Proof.
  intros Hc. rewrite content_size_used by done. apply map_zsum_mono; [|apply map_filter_subseteq].
  intros k c. rewrite lookup_persisted. intros (e & He & ->)%fmap_Some_1.
  pose proof (entry_size_pos k (e_value e) (eo_value _ _ (co_entries _ _ Hc _ _ He))). cbn. lia.
Qed.

(** Replaying the recorded batch has the effect of the commit. *)
Lemma replay_logged s keys sh l s' t o :
  store_wf s → finished s keys sh l → clock_ok t → generation s + 3 * zlen l < 2 ^ 64 →
  core 0 s' → config s' = config s →
  (∀ k, k ∉ l → values s' !! k = values s !! k) →
  (∀ k, image <$> values s' !! k =
        if decide (k ∈ keys) then image <$> values sh !! k else image <$> values s !! k) →
  ∃ p s2, prepare_replay s t (mutation_of <$> entries_of sh l) o = Some (Ok p) ∧ apply s p = Some (s2, ROk) ∧
    store_wf s2 ∧ persisted s2 = restarted t l (persisted s').
Proof.
  intros Hw Hf Ht Hg Hc' Hcf Hfr Hv. pose proof Hw as [Hc _ _].
  pose proof (logged_effect 0 s keys sh l s' t Hc Hf Hfr Hv) as He. set (b := mutation_of <$> _) in *.
  assert (Mutation_key <$> b = l) as Hk by apply logged_keys.
  assert (Forall mutation_wf b) as Hb.
  { apply Forall_fmap, Forall_fmap, Forall_true. intros k. apply mutation_of_wf. unfold optional_ok. cbn.
    destruct (values sh !! k) eqn:E; [|done]. destruct (fi_core _ _ _ _ Hf) as (? & _ & Hcs & _). by eapply co_entries. }
  assert (zlen b = zlen l) as Hz by (rewrite <- Hk; unfold zlen; by rewrite length_fmap).
  assert (replay_usage s t b <= max_dataset_bytes (config s)) as Hu.
  { rewrite replay_usage_eq, He by (done || rewrite Hk; apply Hf).
    pose proof (content_size_restarted t l s' Hc'). pose proof (co_quota _ _ Hc'). rewrite <- Hcf. lia. }
  destruct (replay_apply_ok s t b o) as (s2 & Ha & Hw2 & Hp & _); try done; [rewrite Hk; apply Hf|lia|].
  exists (prepared s ROk (replayed s t <$> b) o), s2. split_and!; try done; [|by rewrite Hp, He].
  rewrite (prepare_replay_eq 0) by (done || rewrite Hk; apply Hf). by rewrite (proj2 (Z.leb_le _ _) Hu).
Qed.

(** C13. The batch that a plain command records is a faithful log of it.  Replaying it on the store
    the command ran on, at any later time, never fails and yields the dataset that applying the
    command yields, except that plain values among the touched keys whose deadline has passed on
    the wall clock are gone. *)
Theorem log_faithful `{HashOrder} s t c t' :
  store_wf s → command_scores c → generation s + 6 * zlen (visit_keys c) < 2 ^ 64 → clock_ok t' →
  ∃ p s1 r s2, prepare s t c = Some p ∧ apply s p = Some (s1, r) ∧
    replay s t' (mutations (p_batch p)) = Some (Ok s2) ∧ store_wf s2 ∧
    persisted s2 = restarted t' (p_entries p).*1 (persisted s1).
Proof.
  intros Hw Hsc Hg Ht. pose proof Hw as [Hc _ Hgs].
  destruct (prepare_ok 0 s t c Hc Hgs Hg Hsc) as (sh & l & r & Ep & Hf & _).
  set (o := match c with CMemory _ _ => _ | _ => _ end) in *.
  destruct (commit_ok 0 s (command_keys c) sh l o r Hc Hf) as (s1 & Ha & Hc1 & Hk & _ & _ & Hfr & Hv).
  pose proof (finished_keys _ _ _ _ Hf). pose proof (command_keys_length c). pose proof (zlen_nonneg (visit_keys c)).
  destruct (replay_logged s (command_keys c) sh l s1 t' Client) as (p2 & s2 & Ep2 & Ha2 & Hw2 & Hp2); try done;
    [lia|by destruct Hk|].
  exists (prepared s r (entries_of sh l) o), s1, r, s2. cbn [p_batch mutations prepared p_entries].
  rewrite entries_of_keys. split_and!; try done. unfold replay. rewrite Ep2. cbn. by rewrite Ha2.
Qed.

(** ** Concrete stores *)

Definition epoch_sample : Sample := {| now := 0; unix_millis := 0 |}.
Lemma epoch_sample_ok : clock_ok epoch_sample.
Proof. done. Qed.

Definition stored_command : Command := CSet (lit "k") (lit "v").
Definition stored_store : Store :=
  match execute_plain (H := list_order) empty_store epoch_sample stored_command with
  | Some (s, _) => s
  | None => empty_store
  end.
Lemma stored_store_wf : store_wf stored_store.
Proof.
  destruct (execute_plain_ok (H := list_order) empty_store epoch_sample stored_command) as (s & r & E & Hw & _).
  - apply empty_store_wf.
  - done.
  - done.
  - unfold stored_store. by rewrite E.
Qed.

Lemma replay_correct_witness :
  ∃ r, replay empty_store epoch_sample [Put (lit "k") (VString (lit "v")) (Some 5); Delete (lit "x")] = Some r ∧
       ∃ s, r = Ok s ∧ persisted s !! lit "k" = Some (VString (lit "v"), Some 5).
Proof.
  destruct (replay_correct empty_store epoch_sample [Put (lit "k") (VString (lit "v")) (Some 5); Delete (lit "x")])
    as (r & Hr & Hm).
  - apply empty_store_wf.
  - apply epoch_sample_ok.
  - repeat constructor; done.
  - done.
  - exists r. split; [exact Hr|]. destruct r as [s|e].
    + exists s. split; [done|]. destruct Hm as (_ & _ & _ & -> & _). vm_compute. reflexivity.
    + exfalso. destruct Hm as [[_ Hd]|(_ & _ & Hq)]; [|by vm_compute in Hq].
      apply Hd. apply (bool_decide_unpack _). by vm_compute.
Defined.

Lemma snapshot_restores_witness :
  ∃ s, replay empty_store epoch_sample (@snapshot list_order stored_store) = Some (Ok s) ∧
       persisted s !! lit "k" = Some (VString (lit "v"), None).
Proof.
  destruct (snapshot_restores list_order list_order stored_store empty_store epoch_sample)
    as (_ & _ & s & Hs & _ & Hp).
  - apply stored_store_wf.
  - apply empty_store_wf.
  - done.
  - by vm_compute.
  - apply epoch_sample_ok.
  - by vm_compute.
  - exists s. split; [exact Hs|]. rewrite Hp. vm_compute. reflexivity.
Defined.

Lemma log_faithful_witness :
  ∃ p s1 r s2, prepare (H := list_order) empty_store epoch_sample stored_command = Some p ∧
    apply empty_store p = Some (s1, r) ∧ replay empty_store epoch_sample (mutations (p_batch p)) = Some (Ok s2) ∧
    store_wf s2 ∧ persisted s2 = restarted epoch_sample (p_entries p).*1 (persisted s1).
Proof.
  apply (log_faithful (H := list_order) empty_store epoch_sample stored_command epoch_sample).
  - apply empty_store_wf.
  - done.
  - done.
  - apply epoch_sample_ok.
Defined.
