(* ===== verification/Watch.v ===== *)
(** * WATCH

    The registry of observations as a state machine: tokens are acquired, keys
    are changed and tokens are dropped, in any order.  The registry holds an
    entry exactly for the keys with an unchanged live token, and a token that
    is still valid proves that its key was not touched. *)

From Stdlib Require Import Strings.Byte Strings.String ZArith Lia.
From S2P Require Import Prelude Float Score Memory Command Store StoreInv StoreSpec Mutation StoreExec.

(** ** The registry *)

(** The tokens of an observation. *)
Definition tokens_at (a : nat) (held : list WatchToken) : list WatchToken :=
  base.filter (λ tok, t_changed tok = a) held.

(** The flags count the live tokens, every entry has one, and a token is
    unchanged exactly while its key has the entry it points to. *)
Record registry_ok (r : Registry) (held : list WatchToken) : Prop := {
  ro_flags : ∀ a flag, r_flags r !! a = Some flag → flag_strong flag = length (tokens_at a held);
  ro_entries : ∀ k a, r_entries r !! k = Some a → ∃ tok, tok ∈ held ∧ t_key tok = k ∧ t_changed tok = a;
  ro_tokens : ∀ tok, tok ∈ held → t_registry tok = r_id r ∧
    ∃ flag, r_flags r !! t_changed tok = Some flag ∧
            (flag_changed flag = false ↔ r_entries r !! t_key tok = Some (t_changed tok));
  ro_keys : ∀ tok tok', tok ∈ held → tok' ∈ held → t_changed tok = t_changed tok' → t_key tok = t_key tok'
}.

Lemma registry_default_ok id : registry_ok (Registry_default id) [].
Proof. split; cbn; set_solver. Qed.

Lemma tokens_at_cons a tok held :
  tokens_at a (tok :: held) =
  if decide (t_changed tok = a) then tok :: tokens_at a held else tokens_at a held.
Proof. unfold tokens_at. rewrite filter_cons. done. Qed.
Lemma tokens_at_pos a tok held : tok ∈ held → t_changed tok = a → (0 < length (tokens_at a held))%nat.
Proof.
  intros Hin Ha. assert (tok ∈ tokens_at a held) as H by (by apply list_elem_of_filter).
  destruct (tokens_at a held); [set_solver|cbn; lia].
Qed.

(** A registered flag can be upgraded. *)
Lemma upgrade_entry r held k a :
  registry_ok r held → r_entries r !! k = Some a →
  ∃ flag, upgrade r a = Some flag ∧ r_flags r !! a = Some flag ∧ flag_changed flag = false.
Proof.
  intros [Hf He Ht _] Hk. destruct (He _ _ Hk) as (tok & Hin & <- & <-).
  destruct (Ht _ Hin) as (_ & flag & Hfl & Hch). exists flag. unfold upgrade. rewrite Hfl.
  pose proof (tokens_at_pos (t_changed tok) tok held Hin eq_refl) as Hpos. rewrite <- (Hf _ _ Hfl) in Hpos.
  split_and!; try done; [|by apply Hch]. destruct (Nat.ltb_spec 0 (flag_strong flag)); [done|lia].
Qed.

Lemma invalidate_ok r held k : registry_ok r held → registry_ok (invalidate r k) held.
Proof.
  intros Hr. unfold invalidate. destruct (r_entries r !! k) as [a|] eqn:Ek; [|done].
  destruct (upgrade_entry r held k a Hr Ek) as (flag & -> & Hfl & Hch). destruct Hr as [Hf He Ht Hk].
  split; cbn; try done.
  - intros a' flag' [[<- <-]|[_ H]]%lookup_insert_Some; [exact (Hf _ _ Hfl)|by apply Hf].
  - intros k' a' [_ H]%lookup_delete_Some. by apply He.
  - intros tok Hin. destruct (Ht _ Hin) as (Hid & fl & Hfl' & Hc). split; [done|].
    destruct (He _ _ Ek) as (tok0 & Hin0 & Hk0 & Ha0).
    destruct (decide (t_changed tok = a)) as [Ha|Ha].
    + rewrite Ha, lookup_insert_eq. eexists. split; [done|]. cbn. split; [done|].
      rewrite (Hk tok tok0) by congruence. by rewrite Hk0, lookup_delete_eq.
    + rewrite lookup_insert_ne by done. exists fl. split; [done|]. rewrite Hc.
      destruct (decide (t_key tok = k)) as [->|Hne]; [rewrite lookup_delete_eq, Ek; split; congruence|].
      by rewrite lookup_delete_ne.
Qed.

Lemma token_ok r held key deadline r' tok :
  registry_ok r held → token r key deadline = (r', tok) →
  registry_ok r' (tok :: held) ∧ t_key tok = key ∧ t_deadline tok = deadline ∧ invalidated r' tok = false.
Proof.
  intros Hr Ht. unfold token in Ht. destruct (r_entries r !! key) as [a|] eqn:Ek; cbn in Ht.
  - destruct (upgrade_entry r held key a Hr Ek) as (flag & Eu & Hfl & Hch). rewrite Eu in Ht. cbn in Ht.
    injection Ht as <- <-. unfold invalidated. cbn. rewrite lookup_insert_eq. split_and!; try done.
    destruct Hr as [Hf He Htk Hk]. destruct (He _ _ Ek) as (tok0 & Hin0 & Hk0 & Ha0).
    split; cbn -[tokens_at].
    + intros a' flag'. rewrite tokens_at_cons. cbn [t_changed].
      intros [[<- <-]|[Hne H]]%lookup_insert_Some; [rewrite decide_True by done; cbn; by rewrite (Hf _ _ Hfl)|].
      rewrite decide_False by done. by apply Hf.
    + intros k' a' H. destruct (He _ _ H) as (tk & ? & ? & ?). exists tk. split; [by right|done].
    + intros tk [->|Hin]%elem_of_cons; cbn; (split; [try done; by apply Htk|]).
      * rewrite lookup_insert_eq. eexists. split; [done|]. cbn. by rewrite Hch.
      * destruct (Htk _ Hin) as (_ & fl & Hfl' & Hc). destruct (decide (t_changed tk = a)) as [Ha|Ha].
        -- rewrite Ha, lookup_insert_eq. eexists. split; [done|]. cbn. rewrite Ha in *. simplify_eq. done.
        -- rewrite lookup_insert_ne by done. by exists fl.
    + intros tk tk'. rewrite !elem_of_cons. intros [->|Hin] [->|Hin']; cbn; intros Heq; try done.
      * rewrite <- Hk0. symmetry. apply Hk; congruence.
      * rewrite <- Hk0. apply Hk; congruence.
      * by apply Hk.
  - set (a := fresh (dom (r_flags r))) in *.
    assert (r_flags r !! a = None) as Ha by (apply not_elem_of_dom, is_fresh).
    injection Ht as <- <-. unfold invalidated. cbn. rewrite lookup_insert_eq. split_and!; try done.
    destruct Hr as [Hf He Htk Hk].
    assert (∀ tk, tk ∈ held → t_changed tk ≠ a) as Hne.
    { intros tk Hin Heq. destruct (Htk _ Hin) as (_ & fl & Hfl & _). congruence. }
    split; cbn -[tokens_at].
    + intros a' flag'. rewrite tokens_at_cons. cbn [t_changed].
      intros [[<- <-]|[Hn H]]%lookup_insert_Some.
      * rewrite decide_True by done. cbn. destruct (tokens_at a held) as [|tk l] eqn:E; [done|].
        assert (tk ∈ tokens_at a held) as [? Hin]%list_elem_of_filter by (rewrite E; left). by destruct (Hne tk Hin).
      * rewrite decide_False by done. by apply Hf.
    + intros k' a' [[<- <-]|[_ H]]%lookup_insert_Some; [eexists; split; [left|done]|].
      destruct (He _ _ H) as (tk & ? & ? & ?). exists tk. split; [by right|done].
    + intros tk [->|Hin]%elem_of_cons; cbn; (split; [try done; by apply Htk|]).
      * rewrite !lookup_insert_eq. eexists. by split.
      * destruct (Htk _ Hin) as (_ & fl & Hfl' & Hc). specialize (Hne _ Hin).
        rewrite lookup_insert_ne by done. exists fl. split; [done|]. rewrite Hc.
        destruct (decide (t_key tk = key)) as [->|Hnk]; [rewrite Ek, lookup_insert_eq; split; congruence|].
        by rewrite lookup_insert_ne.
    + intros tk tk'. rewrite !elem_of_cons. intros [->|Hin] [->|Hin']; cbn; intros Heq; try done.
      * by destruct (Hne _ Hin').
      * by destruct (Hne _ Hin).
      * by apply Hk.
Qed.

Lemma drop_token_ok r held tok held' :
  registry_ok r held → held ≡ₚ tok :: held' → registry_ok (drop_token r tok) held'.
Proof.
  intros [Hf He Ht Hk] Hp.
  assert (∀ tk, tk ∈ held ↔ tk = tok ∨ tk ∈ held') as Hel by (intros; by rewrite Hp, elem_of_cons).
  destruct (Ht tok) as (_ & flag & Hfl & Hch); [apply Hel; by left|]. unfold drop_token. rewrite Hfl.
  assert (∀ a, length (tokens_at a held) = ((if decide (t_changed tok = a) then 1 else 0) + length (tokens_at a held'))%nat) as Hlen.
  { intros a. assert (tokens_at a held ≡ₚ tokens_at a (tok :: held')) as -> by (unfold tokens_at; by rewrite Hp).
    rewrite tokens_at_cons. by case_decide. }
  pose proof (Hf _ _ Hfl) as Hs. rewrite Hlen, decide_True in Hs by done.
  assert (flag_strong flag = 1%nat ↔ ∀ tk, tk ∈ held' → t_changed tk ≠ t_changed tok) as Hone.
  { rewrite Hs. split.
    - intros Hl tk Hin Heq. pose proof (tokens_at_pos _ tk held' Hin Heq). lia.
    - intros Hn. destruct (tokens_at (t_changed tok) held') as [|tk l] eqn:E; [done|].
      assert (tk ∈ tokens_at (t_changed tok) held') as [? Hin]%list_elem_of_filter by (rewrite E; left). by destruct (Hn tk Hin). }
  split; cbn.
  - intros a fl [[<- <-]|[Hne H]]%lookup_insert_Some; cbn; [lia|].
    rewrite (Hf _ _ H), Hlen, decide_False by done. done.
  - intros k a Hka.
    assert (r_entries r !! k = Some a ∧ ¬ (flag_strong flag = 1%nat ∧ r_entries r !! t_key tok = Some (t_changed tok) ∧ k = t_key tok))
      as [Hr Hno].
    { destruct (Nat.eqb_spec (flag_strong flag) 1); cbn in Hka; [|naive_solver].
      case_bool_decide; [apply lookup_delete_Some in Hka|]; naive_solver. }
    destruct (He _ _ Hr) as (tk & [->|Hin]%Hel & <- & <-); [|by exists tk].
    destruct (decide (flag_strong flag = 1%nat)) as [E|E]; [by destruct Hno|].
    destruct (tokens_at (t_changed tok) held') as [|tk l] eqn:El; [cbn in Hs; lia|].
    assert (tk ∈ tokens_at (t_changed tok) held') as [? Hin]%list_elem_of_filter by (rewrite El; left).
    exists tk. split_and!; try done. apply Hk; [apply Hel; by right|apply Hel; by left|done].
  - intros tk Hin. destruct (Ht tk) as (Hid & fl & Hfl' & Hc); [apply Hel; by right|]. split; [done|].
    assert ((if Nat.eqb (flag_strong flag) 1 && bool_decide (r_entries r !! t_key tok = Some (t_changed tok))
             then delete (t_key tok) (r_entries r) else r_entries r) !! t_key tk = Some (t_changed tk) ↔
            r_entries r !! t_key tk = Some (t_changed tk)) as Heq.
    { destruct (Nat.eqb_spec (flag_strong flag) 1) as [E|E]; cbn; [|done].
      case_bool_decide as Hkk; [|done]. rewrite lookup_delete_Some. split; [naive_solver|].
      intros H. split; [|done]. intros Hne. apply (proj1 Hone E tk Hin). congruence. }
    destruct (decide (t_changed tk = t_changed tok)) as [Ea|Ea].
    + rewrite Ea in *. simplify_eq. rewrite lookup_insert_eq. eexists. split; [done|]. by rewrite Heq.
    + rewrite lookup_insert_ne by done. exists fl. split; [done|]. by rewrite Heq.
  - intros tk tk' Hin Hin'. apply Hk; apply Hel; by right.
Qed.

(** ** Changes of the store *)

(** A change of the store unregisters every key it touches. *)
Record quiet (s s' : Store) : Prop := {
  q_entries : r_entries (watches s') ⊆ r_entries (watches s);
  q_values : ∀ k, is_Some (r_entries (watches s') !! k) → values s' !! k = values s !! k;
  q_registry : ∀ held, registry_ok (watches s) held → registry_ok (watches s') held
}.

Lemma quiet_refl s : quiet s s.
Proof. by split. Qed.
Lemma quiet_trans s1 s2 s3 : quiet s1 s2 → quiet s2 s3 → quiet s1 s3.
Proof.
  intros [E1 V1 R1] [E2 V2 R2]. split; [by etrans| |auto].
  intros k Hk. rewrite V2, V1; [done| |done]. destruct Hk as [a Hk]. exists a. by eapply lookup_weaken.
Qed.

Lemma quiet_invalidate s vs es ms g u k :
  (∀ k', k' ≠ k → vs !! k' = values s !! k') → quiet s (update s vs es ms g u (invalidate (watches s) k)).
Proof.
  intros Hv. split; cbn.
  - rewrite invalidate_entries. apply delete_subseteq.
  - intros k'. rewrite invalidate_entries. intros [a [Hne _]%lookup_delete_Some]. by apply Hv.
  - intros held. apply invalidate_ok.
Qed.
Lemma quiet_update s es ms g u : quiet s (update s (values s) es ms g u (watches s)).
Proof. by split. Qed.

Lemma remove_quiet s k s' old : remove s k = Some (s', old) → quiet s s'.
Proof.
  unfold remove. destruct (values s !! k) as [e|] eqn:E; [|intros [= <- _]; apply quiet_refl].
  intros H. inv_ok. simplify_eq. apply quiet_invalidate. intros k' Hne. by rewrite lookup_delete_ne.
Qed.

Lemma install_quiet s k e s' : install_entry s k e = Some s' → quiet s s'.
Proof.
  unfold install_entry. intros H. destruct (remove _ k) as [[s1 old]|] eqn:Er; [|done]. cbn in H.
  assert (r_entries (watches s1) !! k = None) as Hn.
  { assert (r_entries (invalidate (watches s) k) !! k = None) as Hi by (rewrite invalidate_entries; apply lookup_delete_eq).
    apply remove_quiet, q_entries in Er. cbn in Er. eapply lookup_weaken_None; done. }
  apply remove_quiet in Er. inv_ok. simplify_eq.
  pose proof (quiet_invalidate s (values s) (expirations s) (member_expirations s) (generation s) (used_bytes s) k
    (λ _ _, eq_refl)) as Hi.
  eapply quiet_trans; [exact (quiet_trans _ _ _ Hi Er)|].
  split; cbn; try done. intros k' Hk'. rewrite lookup_insert_ne; [done|]. intros ->. rewrite Hn in Hk'. by destruct Hk'.
Qed.

Lemma each_quiet {A} (f : Store → A → option Store) s l s' :
  (∀ s x s', f s x = Some s' → quiet s s') → each f s l = Some s' → quiet s s'.
Proof.
  intros Hf. revert s. induction l as [|x l IH]; intros s; cbn [each]; [intros [= <-]; apply quiet_refl|].
  intros H. destruct (f s x) as [s1|] eqn:E; [|done]. eapply quiet_trans; [by eapply Hf|]. by apply IH.
Qed.

Lemma apply_quiet s p s' r : apply s p = Some (s', r) → quiet s s'.
Proof.
  unfold apply. destruct (negb _); [done|]. intros H.
  destruct (each _ s _) as [s1|] eqn:E1; [|done]. cbn in H. destruct (each _ s1 _) as [s2|] eqn:E2; [|done].
  injection H as <- _. eapply quiet_trans; eapply each_quiet; try done; cbn.
  - intros s0 x s0' H. destruct (remove _ _) as [[s3 old]|] eqn:E; [|done]. injection H as <-.
    eapply quiet_trans; [|exact (remove_quiet _ _ _ _ E)]. by apply quiet_invalidate.
  - intros s0 [k [e|]] s0' H; [exact (install_quiet _ _ _ _ H)|]. injection H as <-. apply quiet_refl.
Qed.

Lemma expire_due_quiet s at_ budget s' n : expire_due s at_ budget = Some (s', n) → quiet s s'.
Proof.
  revert s n. induction budget as [|budget IH]; intros s n; cbn [expire_due]; [intros [= <- _]; apply quiet_refl|].
  destruct (btree_first _) as [[[d g] k]|]; [|intros [= <- _]; apply quiet_refl].
  destruct (at_ <? d); [intros [= <- _]; apply quiet_refl|]. set (s1 := update _ _ _ _ _ _ _).
  assert (quiet s s1) as H1 by apply quiet_update. destruct (match values s1 !! k with Some _ => _ | None => _ end).
  - destruct (remove s1 k) as [[s2 old]|] eqn:E; [|done]. cbn.
    destruct (expire_due s2 at_ budget) as [[s3 m]|] eqn:E3; [|done]. intros [= <- _].
    eapply quiet_trans; [done|]. eapply quiet_trans; [exact (remove_quiet _ _ _ _ E)|by eapply IH].
  - intros H. eapply quiet_trans; [done|by eapply IH].
Qed.

(** ** Observers and the store together *)

Lemma invalidated_iff r held tok :
  registry_ok r held → tok ∈ held →
  invalidated r tok = false ↔ r_entries r !! t_key tok = Some (t_changed tok).
Proof.
  intros Hr Hin. destruct (ro_tokens _ _ Hr _ Hin) as (_ & flag & Hfl & <-). unfold invalidated. by rewrite Hfl.
Qed.

Lemma token_keeps r held key deadline r' tok tk :
  registry_ok r held → token r key deadline = (r', tok) → tk ∈ held →
  invalidated r' tk = invalidated r tk.
Proof.
  intros Hr Ht Hin. destruct (ro_tokens _ _ Hr _ Hin) as (_ & flag & Hfl & _).
  unfold token in Ht. destruct (r_entries r !! key ≫= _) as [[a fl]|] eqn:E.
  - injection Ht as <- <-. unfold invalidated. cbn. destruct (decide (a = t_changed tk)) as [->|Hne].
    + rewrite lookup_insert_eq, Hfl. cbn. destruct (r_entries r !! key); [|done]. cbn in E.
      destruct (upgrade r n) eqn:Eu; [|done]. cbn in E. simplify_eq. unfold upgrade in Eu. rewrite Hfl in Eu.
      by destruct (_ <? _)%nat; simplify_eq.
    + by rewrite lookup_insert_ne.
  - injection Ht as <- <-. unfold invalidated. cbn. rewrite lookup_insert_ne; [done|]. intros Heq.
    pose proof (is_fresh (dom (r_flags r))) as Hf. rewrite Heq in Hf. apply Hf, elem_of_dom. by eexists.
Qed.
Lemma drop_keeps r tok tk : invalidated (drop_token r tok) tk = invalidated r tk.
Proof.
  unfold drop_token, invalidated. destruct (r_flags r !! t_changed tok) as [fl|] eqn:E; [|done]. cbn.
  destruct (decide (t_changed tok = t_changed tk)) as [Heq|Hne].
  - by rewrite Heq, lookup_insert_eq, <- Heq, E.
  - by rewrite lookup_insert_ne.
Qed.

Lemma watch_ok s at_ keys held s' toks :
  registry_ok (watches s) held → watch s at_ keys = (s', toks) →
  registry_ok (watches s') (toks ++ held) ∧ values s' = values s ∧ t_key <$> toks = keys ∧
  (∀ tk, tk ∈ held → invalidated (watches s') tk = invalidated (watches s) tk) ∧
  ∀ tk, tk ∈ toks → invalidated (watches s') tk = false ∧ t_deadline tk = watch_deadline s at_ (t_key tk).
Proof.
  revert s held toks. induction keys as [|k keys IH]; intros s held toks Hr; cbn [watch].
  { intros [= <- <-]. split_and!; try done. set_solver. }
  destruct (token _ k _) as [w tok] eqn:Et. destruct (watch _ at_ keys) as [s1 toks1] eqn:Ew. intros [= <- <-].
  destruct (token_ok _ _ _ _ _ _ Hr Et) as (Hr1 & Hk & Hd & Hv).
  destruct (IH (set_watches s w) (tok :: held) _ Hr1 Ew) as (Hr' & Hvs & Hks & Hkeep & Hnew). split_and!.
  - destruct Hr' as [Hf He Ht Hkk].
    assert (∀ x, x ∈ toks1 ++ tok :: held ↔ x ∈ (tok :: toks1) ++ held) as Hel by set_solver.
    split; [|intros; setoid_rewrite <- Hel; auto|intros ?; rewrite <- Hel; auto|intros ??; rewrite <- !Hel; auto].
    intros a fl Hfl. rewrite (Hf _ _ Hfl). unfold tokens_at.
    assert (toks1 ++ tok :: held ≡ₚ (tok :: toks1) ++ held) as Hp by (symmetry; apply Permutation_middle).
    by rewrite Hp.
  - done.
  - cbn. by rewrite Hk, Hks.
  - intros tk Hin. rewrite Hkeep by (by right). by eapply token_keeps.
  - intros tk [->|Hin]%elem_of_cons; [|by apply Hnew]. rewrite Hkeep by left. split; [done|]. by rewrite Hd, Hk.
Qed.

Record World := { w_store : Store; w_held : list WatchToken }.

(** The events of a store with its observers: a batch is applied, keys expire,
    an observer watches keys, an observer drops a token. *)
Inductive world_step : World → World → Prop :=
| world_apply s held p s' r :
    apply s p = Some (s', r) → world_step {| w_store := s; w_held := held |} {| w_store := s'; w_held := held |}
| world_expire s held at_ budget s' n :
    expire_due s at_ budget = Some (s', n) →
    world_step {| w_store := s; w_held := held |} {| w_store := s'; w_held := held |}
| world_watch s held at_ keys s' toks :
    watch s at_ keys = (s', toks) →
    world_step {| w_store := s; w_held := held |} {| w_store := s'; w_held := toks ++ held |}
| world_drop s held tok held' :
    held ≡ₚ tok :: held' →
    world_step {| w_store := s; w_held := held |}
               {| w_store := set_watches s (drop_token (watches s) tok); w_held := held' |}.

Definition world_ok (w : World) : Prop := registry_ok (watches (w_store w)) (w_held w).

Lemma world_step_ok w w' : world_ok w → world_step w w' → world_ok w'.
Proof.
  unfold world_ok. intros Hw Hs. destruct Hs as [s held p s' r H|s held at_ budget s' n H|s held at_ keys s' toks H|s held tok held' H];
    cbn in *.
  - by apply (q_registry _ _ (apply_quiet _ _ _ _ H)).
  - by apply (q_registry _ _ (expire_due_quiet _ _ _ _ _ H)).
  - by eapply watch_ok.
  - by eapply drop_token_ok.
Qed.

(** A token that survives an event unchanged was unchanged before it, and its
    key has the same entry. *)
Lemma world_step_valid w w' tok :
  world_ok w → world_step w w' → tok ∈ w_held w → tok ∈ w_held w' →
  invalidated (watches (w_store w')) tok = false →
  invalidated (watches (w_store w)) tok = false ∧
  values (w_store w') !! t_key tok = values (w_store w) !! t_key tok.
Proof.
  intros Hw Hs Hin Hin' Hv. pose proof (world_step_ok _ _ Hw Hs) as Hw'. unfold world_ok in *.
  assert (∀ s s', quiet s s' → watches s = watches (w_store w) → watches s' = watches (w_store w') →
    invalidated (watches s) tok = false ∧ values s' !! t_key tok = values s !! t_key tok) as Hq.
  { intros s s' [He Hvs _] E E'. rewrite (invalidated_iff _ _ _ Hw' Hin') in Hv.
    rewrite E, (invalidated_iff _ _ _ Hw Hin). rewrite E, E' in He. rewrite E' in Hvs.
    split; [by eapply lookup_weaken|]. apply Hvs. by eexists. }
  destruct Hs as [s held p s' r H|s held at_ budget s' n H|s held at_ keys s' toks H|s held tok' held' H]; cbn in *.
  - apply Hq; [by eapply apply_quiet|done..].
  - apply Hq; [by eapply expire_due_quiet|done..].
  - destruct (watch_ok _ _ _ _ _ _ Hw H) as (_ & -> & _ & Hk & _). by rewrite <- (Hk tok Hin).
  - by rewrite drop_keeps in Hv.
Qed.

(** ** The promise of a valid token *)

Lemma fold_min_mono l a :
  ∃ m, fold_left (λ acc d, option_min acc (Some d)) l (Some a) = Some m ∧ m <= a.
Proof.
  revert a. induction l as [|x l IH]; intros a; cbn; [exists a; split; [done|lia]|].
  destruct (IH (Z.min a x)) as (m & -> & Hm). exists m. split; [done|lia].
Qed.
Lemma fold_min_le l acc d :
  d ∈ l → ∃ m, fold_left (λ acc d, option_min acc (Some d)) l acc = Some m ∧ m <= d.
Proof.
  revert acc. induction l as [|x l IH]; intros acc; [set_solver|].
  intros [->|Hin]%elem_of_cons; cbn [fold_left]; [|by apply IH].
  destruct acc as [a|]; cbn; [destruct (fold_min_mono l (Z.min a x)) as (m & -> & Hm)|
    destruct (fold_min_mono l x) as (m & -> & Hm)]; exists m; (split; [done|lia]).
Qed.

(** A token records no later instant than any deadline that can still change
    what its key shows. *)
Lemma watch_deadline_le s at_ k e d :
  values s !! k = Some e →
  expires_at e = Some d ∨ (∃ id, member_deadlines e !! id = Some d) ∧ at_ < d →
  ∃ m, watch_deadline s at_ k = Some m ∧ m <= d.
Proof.
  intros Hk Hd. unfold watch_deadline. rewrite Hk. cbn. destruct Hd as [->|[[id Hid] Hlt]].
  - apply fold_min_mono.
  - apply fold_min_le, list_elem_of_In, filter_In. split; [|lia]. apply list_elem_of_In, list_elem_of_fmap.
    exists (id, d). split; [done|]. by apply btree_iter_elem.
Qed.

(** The token is held before and after. *)
Definition holding (tok : WatchToken) (w w' : World) : Prop :=
  world_step w w' ∧ tok ∈ w_held w ∧ tok ∈ w_held w'.

Lemma holding_valid tok w w' :
  world_ok w → rtc (holding tok) w w' → invalidated (watches (w_store w')) tok = false →
  invalidated (watches (w_store w)) tok = false ∧
  values (w_store w') !! t_key tok = values (w_store w) !! t_key tok.
Proof.
  intros Hw Hr. revert Hw. induction Hr as [|w w1 w' (Hs & Hin & Hin') _ IH]; intros Hw Hv; [done|].
  destruct (IH (world_step_ok _ _ Hw Hs) Hv) as [Hv1 Hvs].
  destruct (world_step_valid w w1 tok Hw Hs Hin Hin' Hv1) as [? Hvs1]. split; [done|congruence].
Qed.

(** C12. WATCH is sound.  A key is watched at an instant; then any sequence of
    batches, expirations, other observations and drops happens while the token
    is held.  If the token is still valid at a later instant, the key has the
    entry it had, shows the same value, and exactly the same members of it are
    overdue. *)
Theorem watch_sound w at_ keys s1 toks tok w' t t' :
  world_ok w → watch (w_store w) at_ keys = (s1, toks) → tok ∈ toks →
  rtc (holding tok) {| w_store := s1; w_held := toks ++ w_held w |} w' →
  now t = at_ → at_ <= now t' → watches_valid_at (w_store w') [tok] (now t') = true →
  let k := t_key tok in
  values (w_store w') !! k = values (w_store w) !! k ∧
  view (w_store w') t' !! k = view (w_store w) t !! k ∧
  ∀ e id d, values (w_store w) !! k = Some e → member_deadlines e !! id = Some d → d <= now t' → d <= at_.
Proof.
  intros Hw Hwt Hin Hr Ht Hle Hv k. destruct (watch_ok _ _ _ _ _ _ Hw Hwt) as (Hw1 & Hvs & _ & _ & Hnew).
  destruct (Hnew _ Hin) as [_ Hd]. cbn in Hv. apply andb_true_iff in Hv as [Hv _].
  apply andb_true_iff in Hv as [_ Hv]. unfold token_changed in Hv. apply negb_true_iff, orb_false_iff in Hv as [Hinv Hdl].
  destruct (holding_valid tok {| w_store := s1; w_held := toks ++ w_held w |} _ Hw1 Hr Hinv) as [_ Hval]. cbn in Hval. rewrite Hvs in Hval. fold k in Hval, Hd.
  assert (∀ e d, values (w_store w) !! k = Some e →
    expires_at e = Some d ∨ (∃ id, member_deadlines e !! id = Some d) ∧ at_ < d → now t' < d) as Hlate.
  { intros e d He Hed. destruct (watch_deadline_le _ at_ _ _ _ He Hed) as (m & Hm & Hmd).
    rewrite Hd, Hm in Hdl. lia. }
  split_and!; [done| |].
  - rewrite !lookup_view, Hval. destruct (values (w_store w) !! k) as [e|] eqn:E; [|done]. cbn.
    unfold expired_at. destruct (expires_at e) as [d|] eqn:Ed; [|done].
    pose proof (Hlate e d eq_refl (or_introl Ed)).
    by rewrite !(proj2 (Z.leb_gt _ _)) by lia.
  - intros e id d He Hid Hdt. destruct (Z.leb_spec d at_); [done|].
    assert (now t' < d); [|lia]. apply (Hlate e); [done|]. right. split; [by exists id|done].
Qed.

Definition sample_world : World :=
  {| w_store := {| values := ∅; expirations := ∅; member_expirations := ∅; generation := 0;
                   config := StoreConfig_default; used_bytes := 0; watches := Registry_default 0 |};
     w_held := [] |}.
Definition sample_batch : Prepared :=
  {| p_reply := ROk; p_batch := {| origin := Client; mutations := [] |}; p_generation := 0;
     p_entries := [(lit "j", Some {| e_value := VString (lit "v"); expires_at := None; expires_at_unix_ms := None;
                                     e_generation := 0; member_deadlines := ∅ |})] |}.

Definition sample_watched : Store * list WatchToken := watch (w_store sample_world) 0 [lit "k"].
Definition sample_token : WatchToken :=
  default {| t_key := []; t_changed := 0; t_deadline := None; t_registry := 0 |} (head sample_watched.2).
Definition sample_applied : Store :=
  match apply sample_watched.1 sample_batch with Some (s, _) => s | None => w_store sample_world end.

Lemma watch_sound_witness :
  watches_valid_at sample_applied [sample_token] 5 = true ∧ len sample_applied = 1 ∧
  values sample_applied !! lit "k" = None.
Proof.
  assert (watches_valid_at sample_applied [sample_token] 5 = true) as Hv by (vm_compute; reflexivity).
  split_and!; [done|vm_compute; reflexivity|].
  assert (sample_watched.2 = [sample_token]) as Htok by (vm_compute; reflexivity).
  assert (apply sample_watched.1 sample_batch = Some (sample_applied, ROk)) as Ha by (vm_compute; reflexivity).
  change (lit "k") with (t_key sample_token).
  destruct (watch_sound sample_world 0 [lit "k"] sample_watched.1 sample_watched.2 sample_token
    {| w_store := sample_applied; w_held := [sample_token] |}
    {| now := 0; unix_millis := 0 |} {| now := 5; unix_millis := 5 |}) as [Hval _].
  - apply registry_default_ok.
  - apply surjective_pairing.
  - rewrite Htok. left.
  - rewrite Htok. apply rtc_once. split_and!; [by eapply world_apply|cbn; left..].
  - done.
  - done.
  - exact Hv.
  - exact Hval.
Defined.


