(* ===== verification/Batch.v ===== *)
(** * Owner transactions

    EXEC on one owner: the commands run one after the other on a tentative
    store, a trace of observations records the keys they change, and the
    sealed batch is applied at once. *)

From Stdlib Require Import Strings.Byte Strings.String ZArith Lia.
From S2P Require Import Prelude Float Score Memory Command Store StoreInv StoreSpec Mutation StoreExec Watch.

(** The commands of a transaction, one after the other at one instant.  Every
    command refines its own semantics, and an error does not stop the rest. *)
Inductive batch_run (t : Sample) : Store → list Command → list Reply → Store → Prop :=
| batch_nil s : batch_run t s [] [] s
| batch_unwatch s cs rs s' :
    batch_run t s cs rs s' → batch_run t s (CUnwatch :: cs) (ROk :: rs) s'
| batch_command s c cs r rs s1 s' :
    c ≠ CUnwatch → refines t c s s1 r → batch_run t s1 cs rs s' →
    batch_run t s (c :: cs) (r :: rs) s'.

(** ** The tentative store *)

(** The store the tentative one stands for. *)
Definition overlay (s : Store) (keys : list bytes) (sh : Store) : Store :=
  update s (base.filter (λ e, e.1 ∈ keys) (values sh) ∪ base.filter (λ e, e.1 ∉ keys) (values s))
    (expirations s) (member_expirations s) (generation sh) (used_bytes sh) (watches s).

Lemma overlay_values s keys sh k :
  values (overlay s keys sh) !! k = if decide (k ∈ keys) then values sh !! k else values s !! k.
Proof.
  cbn. rewrite lookup_union. destruct (decide (k ∈ keys)) as [Hk|Hk].
  - rewrite (map_lookup_filter_None_2 _ (values s)) by naive_solver.
    rewrite (right_id_L None _). destruct (values sh !! k) as [e|] eqn:E.
    + by apply map_lookup_filter_Some_2.
    + apply map_lookup_filter_None_2. by left.
  - rewrite (map_lookup_filter_None_2 _ (values sh)) by naive_solver.
    rewrite (left_id_L None _). destruct (values s !! k) as [e|] eqn:E.
    + by apply map_lookup_filter_Some_2.
    + apply map_lookup_filter_None_2. by left.
Qed.

(** A tentative store of [s] for some keys, after a number of commands. *)
Record tentative (s : Store) (keys : list bytes) (tx : OwnerTransaction) : Prop := {
  te_core : ∃ sh0, is_shadow s keys sh0 ∧ core (used_bytes s - loaded sh0) (shadow tx);
  te_config : config (shadow tx) = config s;
  te_gens : gens_ok (shadow tx);
  te_registry : registry_ok (watches (shadow tx)) (trace tx);
  te_keys : t_key <$> trace tx = keys;
  te_outside : ∀ k, k ∉ keys → values (shadow tx) !! k = None;
  te_same : ∀ tok, tok ∈ trace tx → invalidated (watches (shadow tx)) tok = false →
    values (shadow tx) !! t_key tok = values s !! t_key tok
}.

Lemma begin_ok (s : Store) (t : Sample) (keys : gset bytes) :
  core 0 s → gens_ok s →
  ∃ tx, begin_owner_transaction s t keys = Some tx ∧ tentative s (btree_set_iter keys) tx ∧
        generation (shadow tx) = generation s ∧ is_shadow s (btree_set_iter keys) (shadow tx).
Proof.
  intros Hc Hg. unfold begin_owner_transaction. set (K := btree_set_iter keys).
  destruct (shadow_ok 0 true s K Hc) as (sh00 & -> & Hs & Hw). cbn [mbind option_bind].
  set (sh0 := fold_left _ _ _) in *. destruct (watch sh0 (now t) K) as [sh toks] eqn:Ew.
  assert (registry_ok (watches sh0) []) as Hr by (rewrite Hw; apply registry_default_ok).
  destruct (watch_ok _ _ _ _ _ _ Hr Ew) as (Hr' & Hv & Hk & _ & Hnew). rewrite app_nil_r in Hr'.
  assert (generation sh = generation sh0 ∧ config sh = config sh0 ∧ used_bytes sh = used_bytes sh0) as (Eg & Ec & Eu).
  { clear -Ew. revert sh toks Ew. generalize sh0. induction K as [|k K IH]; intros s0 sh toks; cbn [watch]; [by intros [= <- <-]|].
    destruct (token _ _ _) as [w tok]. destruct (watch _ _ K) as [s1 toks1] eqn:E. intros [= <- <-].
    by apply IH in E. }
  assert (is_shadow s K sh) as Hsh.
  { destruct Hs as [V G C U [c1 c2 c3 c4 c5 c6]]. split; rewrite ?Hv; try congruence; [done|].
    unfold loaded in *. rewrite Hv in *. split; rewrite ?Hv, ?Ec, ?Eu, ?Eg; try done. }
  eexists. split; [done|]. split_and!; [|by apply Hsh|done]. split; cbn; try done.
  - exists sh. split; [done|]. apply Hsh.
  - apply Hsh.
  - intros k e. rewrite (sh_values _ _ _ Hsh), (sh_generation _ _ _ Hsh). case_decide; [apply Hg|done].
  - intros k Hkk. by rewrite (sh_values _ _ _ Hsh), decide_False.
  - intros tok Hin _. rewrite (sh_values _ _ _ Hsh), decide_True; [done|]. rewrite <- Hk. apply list_elem_of_fmap. by exists tok.
Qed.

Lemma overlay_shadow s keys tx :
  tentative s keys tx → is_shadow (overlay s keys (shadow tx)) keys (shadow tx).
Proof.
  intros [(sh0 & Hs & Hc) Hcf _ _ _ Hout _]. split; try done.
  - intros k. rewrite overlay_values. destruct (decide (k ∈ keys)); [done|by apply Hout].
  - replace (used_bytes (overlay s keys (shadow tx)) - loaded (shadow tx)) with (used_bytes s - loaded sh0); [done|].
    cbn. rewrite (co_used _ _ Hc). unfold loaded. lia.
Qed.

Lemma batch_step_ok `{HashOrder} s keys t tx c :
  tentative s keys tx → (∀ k, k ∈ visit_keys c → k ∈ keys) → command_scores c → c ≠ CUnwatch →
  0 <= generation (shadow tx) → generation (shadow tx) + 6 * zlen (visit_keys c) < 2 ^ 64 →
  ∃ tx' r, batch_step t tx c = Some (tx', r) ∧ tentative s keys tx' ∧
    refines t c (overlay s keys (shadow tx)) (overlay s keys (shadow tx')) r ∧
    generation (shadow tx) <= generation (shadow tx') <= generation (shadow tx) + 6 * zlen (visit_keys c).
Proof.
  intros Ht Hk Hsc Hne H0 Hb. pose proof Ht as [(sh0 & Hs & Hc) Hcf Hg Hr Hks Hout Hsame].
  destruct (prepare_ok _ (shadow tx) t c Hc Hg Hb Hsc) as (sh & l & r & Ep & Hf & sh1 & Hs1 & Href).
  destruct (commit_ok _ (shadow tx) (command_keys c) sh l
    (match c with CMemory _ _ => Client | _ => prepare_origin c end) r Hc Hf)
    as (s' & Ea & Hc' & Hkp & Hw & Hu & Hfr & Hv).
  pose proof (finished_keys _ _ _ _ Hf). pose proof (command_keys_length c). pose proof (zlen_nonneg l).
  destruct (kp_gens _ _ _ Hkp Hg H0) as [Hg' Hgr]; [lia|].
  pose proof (apply_quiet _ _ _ _ Ea) as Hq.
  assert (config s' = config s) as Hcf' by (rewrite (kp_config _ _ _ Hkp); done).
  assert (∀ k, k ∉ keys → values s' !! k = None) as Hout'.
  { intros k Hkk. rewrite Hfr; [by apply Hout|]. intros Hl. apply Hkk, Hk, command_keys_elem. by apply Hf. }
  assert (tentative s keys {| shadow := s'; trace := trace tx |}) as Ht'.
  { split; cbn; try done; [by exists sh0|by apply Hq|]. intros tok Hin Hinv.
    pose proof (q_registry _ _ Hq _ Hr) as Hr'. rewrite (invalidated_iff _ _ _ Hr' Hin) in Hinv.
    rewrite (q_values _ _ Hq) by (by eexists). apply Hsame; [done|]. rewrite (invalidated_iff _ _ _ Hr Hin).
    eapply lookup_weaken; [done|apply Hq]. }
  exists {| shadow := s'; trace := trace tx |}, r. split_and!; [|done| |cbn; lia..].
  { unfold batch_step, prepare_candidate, accept_candidate. destruct c; try done; rewrite Ep; cbn [mbind option_bind];
      rewrite Ea; done. }
  assert (refines t c (shadow tx) s' r) as Hr1.
  { destruct (fi_core _ _ _ _ Hf) as (_ & _ & _ & Hcf1). eapply (refines_commit _ _ _ (command_keys c) sh1 sh); try done.
    - intros k. by rewrite command_keys_elem.
    - apply Hkp.
    - apply Hf. }
  eapply (refines_commit _ _ _ keys (shadow tx) s'); try done; [by apply overlay_shadow|].
  intros k. rewrite !overlay_values. by case_decide.
Qed.

Lemma batch_replies_ok `{HashOrder} s keys t l tx :
  tentative s keys tx → (∀ k, k ∈ l ≫= visit_keys → k ∈ keys) → Forall command_scores l →
  0 <= generation (shadow tx) → generation (shadow tx) + 6 * zlen (l ≫= visit_keys) < 2 ^ 64 →
  ∃ tx' rs, batch_replies t tx l = Some (tx', rs) ∧ tentative s keys tx' ∧
    batch_run t (overlay s keys (shadow tx)) l rs (overlay s keys (shadow tx')).
Proof.
  revert tx. induction l as [|c l IH]; intros tx Ht Hk Hsc H0 Hb; cbn [batch_replies].
  { exists tx, []. split_and!; [done..|constructor]. }
  change (mbind visit_keys (c :: l)) with (visit_keys c ++ mbind visit_keys l) in *.
  apply Forall_cons in Hsc as [Hc Hsc]. rewrite zlen_app in Hb. pose proof (zlen_nonneg (mbind visit_keys l)).
  pose proof (zlen_nonneg (visit_keys c)).
  assert (c = CUnwatch ∨ c ≠ CUnwatch) as [->|Hne] by (destruct c; (by left) || by right).
  - destruct (IH tx Ht) as (tx' & rs & E & Ht' & Hr); [set_solver|done|done|cbn in *; lia|].
    cbn [batch_step mbind option_bind]. rewrite E. exists tx', (ROk :: rs). split_and!; [done..|by constructor].
  - destruct (batch_step_ok s keys t tx c Ht) as (tx1 & r & -> & Ht1 & Hr1 & Hg); [set_solver|done|done|done|lia|].
    destruct (IH tx1 Ht1) as (tx' & rs & E & Ht' & Hr); [set_solver|done|lia|lia|].
    cbn [mbind option_bind]. rewrite E. exists tx', (r :: rs). split_and!; [done..|by econstructor].
Qed.

Lemma overlay_begin s keys sh : is_shadow s keys sh → overlay s keys sh = s.
Proof.
  intros [Hv Hg Hc Hu _].
  assert (values (overlay s keys sh) = values s) as Hvs.
  { apply map_eq. intros k. rewrite overlay_values, Hv. by destruct (decide (k ∈ keys)). }
  unfold overlay in *. cbn in Hvs. rewrite Hvs, Hg, Hu. by destruct s.
Qed.

(** The sealed batch lists exactly the keys whose tokens were invalidated. *)
Lemma seal_finished s keys tx :
  NoDup keys → tentative s keys tx →
  let l := t_key <$> List.filter (invalidated (watches (shadow tx))) (trace tx) in
  finished s keys (shadow tx) l ∧ ∀ rs, seal tx s rs = prepared s (RArray rs) (entries_of (shadow tx) l) Client.
Proof.
  intros Hn [(sh0 & Hs & Hc) Hcf _ _ Hk Hout Hsame] l. split.
  - split; [by exists sh0|done| | |].
    + intros k Hkk Hkl. rewrite <- Hk in Hkk. apply list_elem_of_fmap in Hkk as (tok & -> & Hin).
      apply Hsame; [done|]. destruct (invalidated _ tok) eqn:E; [|done]. destruct Hkl. apply list_elem_of_fmap.
      exists tok. split; [done|]. apply list_elem_of_In, filter_In. split; [by apply list_elem_of_In|done].
    + intros k (tok & -> & [Hin _]%list_elem_of_In%filter_In)%list_elem_of_fmap. rewrite <- Hk.
      apply list_elem_of_fmap. exists tok. split; [done|]. by apply list_elem_of_In.
    + apply (sublist_NoDup _ (t_key <$> trace tx)); [by rewrite Hk|].
      unfold l. clear. induction (trace tx) as [|tok ts IH]; [constructor|]. cbn.
      destruct (invalidated _ tok); cbn; by constructor.
  - intros rs. unfold seal, entries_of, l. by rewrite <- list_fmap_compose.
Qed.


