(* ===== verification/Routing.v ===== *)
(** * Routing

    Models src/storage/routing.rs, src/storage/routing_transaction.rs and
    src/persistence/layout.rs: the stable hash of a key, the owner of a command,
    the owners of a transaction, the quota of an owner, and the plan that splits
    a multi-key command into one command per owner and recombines the replies. *)

From Stdlib Require Import Strings.Byte Strings.String ZArith Lia.
From S2P Require Import Prelude Float Score Memory Command Store StoreInv StoreSpec StoreExec.

#[local] Open Scope string_scope.
#[local] Open Scope list_scope.
#[local] Open Scope Z_scope.

(** ** Keys and owners *)

Definition MAX_SHARDS : Z := 256.

(** [iter().position]: the bytes before the first match and those after it. *)
Fixpoint split_first (c : byte) (s : bytes) : option (bytes * bytes) :=
  match s with
  | [] => None
  | b :: s =>
      if bool_decide (b = c) then Some ([], s)
      else '(before, after) ← split_first c s; Some (b :: before, after)
  end.

Definition hash_tag (key : bytes) : bytes :=
  match split_first "{" key with
  | None => key
  | Some (_, suffix) =>
      match split_first "}" suffix with
      | Some (b :: tag, _) => b :: tag
      | _ => key
      end
  end.

Definition stable_hash (s : bytes) : Z :=
  fold_left (λ hash b, wrap64 (Z.lxor hash (bz b) * 0x100000001b3)) s 0xcbf29ce484222325.

Record ShardRouter := { count : Z }.

Definition ShardRouter_new (n : Z) : result ConfigError ShardRouter :=
  if negb ((1 <=? n) && (n <=? MAX_SHARDS))
  then Err (InvalidServerLimits "SIDER_SHARDS must be between 1 and 256")
  else Ok {| count := n |}.

Definition shard_for (r : ShardRouter) (key : bytes) : Z := stable_hash (hash_tag key) mod count r.

(** The bitmap of owners; an index out of its range is a panic. *)
Definition mark (r : ShardRouter) (bits : list bool) (key : bytes) : option (list bool) :=
  let i := Z.to_nat (shard_for r key) in
  if (i <? length bits)%nat then Some (<[i := true]> bits) else None.

(** The positions of the set bits, from [i] on. *)
Fixpoint set_bits (i : Z) (bits : list bool) : list Z :=
  match bits with
  | [] => []
  | true :: bits => i :: set_bits (i + 1) bits
  | false :: bits => set_bits (i + 1) bits
  end.

Definition transaction_participants (r : ShardRouter) (commands : list Command) (watched : list bytes)
    : option (list Z) :=
  bits ← try_fold (mark r) (replicate (Z.to_nat MAX_SHARDS) false) watched;
  bits ← try_fold (λ bits c, try_fold (mark r) bits (visit_keys c)) bits commands;
  let owners := set_bits 0 (take (Z.to_nat (count r)) bits) in
  Some (match owners with [] => [0] | _ => owners end).

Definition select_key (r : ShardRouter) (selected : option Z) (key : bytes)
    : option Z * bool :=
  let shard := shard_for r key in
  match selected with
  | Some previous => if negb (previous =? shard) then (selected, true) else (Some shard, false)
  | None => (Some shard, false)
  end.

(** The keys of a command, all visited even after an error. *)
Definition select_command (r : ShardRouter) (selected : option Z) (c : Command)
    : option Z * result ExecutionError unit :=
  let '(selected, crossed) :=
    fold_left (λ '(selected, crossed) key,
      let '(selected, err) := select_key r selected key in (selected, crossed || err))
      (visit_keys c) (selected, false) in
  (selected, if crossed then Err CrossShard else Ok tt).

Definition route (r : ShardRouter) (c : Command) : result ExecutionError Z :=
  let '(selected, result) := select_command r None c in
  _ ← result; Ok (default 0 selected).

(** ** The durable layout *)

Definition ROUTING_VERSION : Z := 1.
Record DurableLayout := { shard_count : Z; routing_version : Z }.
#[export] Instance DurableLayout_eq_decision : EqDecision DurableLayout.
Proof. solve_decision. Defined.
Definition DurableLayout_default : DurableLayout :=
  {| shard_count := 1; routing_version := ROUTING_VERSION |}.
Definition DurableLayout_validate (l : DurableLayout) : result ConfigError unit :=
  _ ← ShardRouter_new (shard_count l);
  if negb (routing_version l =? ROUTING_VERSION)
  then Err (InvalidServerLimits "unsupported AOF routing version") else Ok tt.
Definition layout_shard_for (l : DurableLayout) (key : bytes) : result ConfigError Z :=
  _ ← DurableLayout_validate l;
  r ← ShardRouter_new (shard_count l);
  Ok (shard_for r key).
Definition quota (l : DurableLayout) (total_bytes shard : Z) : result ConfigError Z :=
  _ ← DurableLayout_validate l;
  let count := shard_count l in
  if (total_bytes <? count) || (count <=? shard)
  then Err (InvalidServerLimits "total quota must reserve at least one byte per shard")
  else Ok (total_bytes / count + (if shard <? total_bytes mod count then 1 else 0)).

(** ** Plans *)

Record Fragment := { owner : Z; f_command : Command }.

Inductive ReplyPlan :=
| Direct
| Sum (fragments : nat)
| OrderedBulk (positions : list (nat * nat)) (lengths : list nat)
| AllOk (fragments : nat).

Record CommandPlan := { fragments : list Fragment; plan_reply : ReplyPlan; joint_commit : bool }.
Record TransactionPlan := { participants : list Z; plan_commands : list CommandPlan }.
Inductive PlanError := InvalidReply | PlanOverflow.

Definition direct (o : Z) (c : Command) : CommandPlan :=
  {| fragments := [{| owner := o; f_command := c |}]; plan_reply := Direct; joint_commit := false |}.

(** The loops of [assemble]: a fragment's own error is the reply. *)
Fixpoint assemble_sum (total : Z) (replies : list Reply) : result PlanError Reply :=
  match replies with
  | [] => Ok (RInteger total)
  | RInteger value :: replies =>
      if 0 <=? value then total ← ok_or PlanOverflow (i_add total value); assemble_sum total replies
      else Err InvalidReply
  | RError error :: _ => Ok (RError error)
  | _ => Err InvalidReply
  end.
Fixpoint assemble_ok (replies : list Reply) : result PlanError Reply :=
  match replies with
  | [] => Ok ROk
  | ROk :: replies => assemble_ok replies
  | RError error :: _ => Ok (RError error)
  | _ => Err InvalidReply
  end.

Definition is_bulk (r : Reply) : bool := match r with RBulk _ => true | _ => false end.

(** The rows of an ordered reply, or the first error of a fragment. *)
Fixpoint bulk_rows (replies : list (Reply * nat))
    : result PlanError (ExecutionError + list (list (option Reply))) :=
  match replies with
  | [] => Ok (inr [])
  | (RArray values, expected) :: replies =>
      if Nat.eqb (length values) expected && forallb is_bulk values
      then rest ← bulk_rows replies;
           Ok (match rest with inl e => inl e | inr rows => inr ((Some <$> values) :: rows) end)
      else Err InvalidReply
  | (RError error, _) :: _ => Ok (inl error)
  | _ => Err InvalidReply
  end.
(** [Option::take] at a position. *)
Definition take_cell (rows : list (list (option Reply))) (position : nat * nat)
    : option (list (list (option Reply)) * Reply) :=
  row ← rows !! position.1;
  cell ← row !! position.2;
  value ← cell;
  Some (<[position.1 := <[position.2 := None]> row]> rows, value).
Fixpoint take_cells (rows : list (list (option Reply))) (positions : list (nat * nat))
    : result PlanError (list (list (option Reply)) * list Reply) :=
  match positions with
  | [] => Ok (rows, [])
  | p :: positions =>
      '(rows, value) ← ok_or InvalidReply (take_cell rows p);
      '(rows, values) ← take_cells rows positions;
      Ok (rows, value :: values)
  end.

Definition assemble (plan : ReplyPlan) (replies : list Reply) : result PlanError Reply :=
  match plan with
  | Direct => match replies with [reply] => Ok reply | _ => Err InvalidReply end
  | Sum fragments =>
      if Nat.eqb (length replies) fragments then assemble_sum 0 replies else Err InvalidReply
  | AllOk fragments =>
      if Nat.eqb (length replies) fragments then assemble_ok replies else Err InvalidReply
  | OrderedBulk positions lengths =>
      if Nat.eqb (length replies) (length lengths) then
        rows ← bulk_rows (zip replies lengths);
        match rows with
        | inl error => Ok (RError error)
        | inr rows =>
            '(rows, ordered) ← take_cells rows positions;
            if existsb (existsb (λ c, bool_decide (is_Some c))) rows then Err InvalidReply
            else Ok (RArray ordered)
        end
      else Err InvalidReply
  end.

(** Keys grouped by owner, with the owner and the position in its group of every
    occurrence. *)
Fixpoint group_keys (r : ShardRouter) (groups : gmap Z (list bytes)) (keys : list bytes)
    : gmap Z (list bytes) * list (Z * nat) :=
  match keys with
  | [] => (groups, [])
  | key :: keys =>
      let o := shard_for r key in
      let group := default [] (groups !! o) in
      let '(groups, positions) := group_keys r (<[o := group ++ [key]]> groups) keys in
      (groups, (o, length group) :: positions)
  end.

(** [binary_search] on a sorted slice without duplicates. *)
Definition owner_index (owners : list Z) (o : Z) : option nat := fst <$> list_find (o =.) owners.

Definition split_keys (r : ShardRouter) (keys : list bytes) (command : list bytes → Command)
    (joint ordered : bool) : option CommandPlan :=
  let '(groups, owner_positions) := group_keys r ∅ keys in
  let sorted := btree_iter groups in
  positions ← mapM (λ p, i ← owner_index sorted.*1 p.1; Some (i, p.2)) owner_positions;
  Some {| fragments := (λ g, {| owner := g.1; f_command := command g.2 |}) <$> sorted;
          plan_reply := if ordered then OrderedBulk positions ((λ g, length g.2) <$> sorted)
                        else Sum (length sorted);
          joint_commit := joint |}.

Definition split_mset (r : ShardRouter) (entries : list (bytes * bytes)) : CommandPlan :=
  let groups : gmap Z (list (bytes * bytes)) :=
    fold_left (λ groups e,
      let o := shard_for r e.1 in <[o := default [] (groups !! o) ++ [e]]> groups) entries ∅ in
  let fragments := (λ g, {| owner := g.1; f_command := CMSet g.2 |}) <$> btree_iter groups in
  {| fragments := fragments; plan_reply := AllOk (length fragments); joint_commit := true |}.

Definition plan_transaction_command (r : ShardRouter) (c : Command)
    : option (result ExecutionError CommandPlan) :=
  participants ← transaction_participants r [c] [];
  match participants with
  | [o] => Some (Ok (direct o c))
  | _ =>
      match c with
      | CMGet keys => plan ← split_keys r keys CMGet false true; Some (Ok plan)
      | CExists keys => plan ← split_keys r keys CExists false false; Some (Ok plan)
      | CDel keys => plan ← split_keys r keys CDel true false; Some (Ok plan)
      | CMSet entries => Some (Ok (split_mset r entries))
      | _ => Some (Err CrossShard)
      end
  end.

(** [collect] stops at the first error. *)
Fixpoint plan_all (r : ShardRouter) (commands : list Command)
    : option (result ExecutionError (list CommandPlan)) :=
  match commands with
  | [] => Some (Ok [])
  | c :: commands =>
      plan ← plan_transaction_command r c;
      match plan with
      | Err e => Some (Err e)
      | Ok plan => rest ← plan_all r commands; Some (plans ← rest; Ok (plan :: plans))
      end
  end.
Definition plan_transaction (r : ShardRouter) (commands : list Command) (watched : list bytes)
    : option (result ExecutionError TransactionPlan) :=
  participants ← transaction_participants r commands watched;
  plans ← plan_all r commands;
  Some (plans ← plans; Ok {| participants := participants; plan_commands := plans |}).

(** ** Hash tags *)

Lemma split_first_spec c s a b : split_first c s = Some (a, b) ↔ s = a ++ c :: b ∧ c ∉ a.
Proof.
  revert a b. induction s as [|x s IH]; intros a b; cbn [split_first].
  { split; [done|]. intros [E _]. by destruct a. }
  case_bool_decide as Ex; [subst x|].
  - split; [intros [= <- <-]; set_solver|]. intros [E Hn]. destruct a as [|y a]; [by injection E as ->|].
    injection E as <- _. set_solver.
  - rewrite bind_Some. split.
    + intros ([before after] & [-> Hn]%IH & [= <- <-]). set_solver.
    + intros [E Hn]. destruct a as [|y a]; [by injection E|]. injection E as -> ->. exists (a, b). rewrite IH. set_solver.
Qed.

(** ** Owners *)

Definition router_ok (r : ShardRouter) : Prop := 1 <= count r <= MAX_SHARDS.

Lemma ShardRouter_new_ok n r : ShardRouter_new n = Ok r ↔ count r = n ∧ router_ok r.
Proof.
  unfold ShardRouter_new, router_ok. destruct ((1 <=? n) && _) eqn:E; cbn.
  - split; [intros [= <-]; cbn; lia|]. intros [<- _]. by destruct r.
  - split; [done|]. intros [<- H]. lia.
Qed.

Lemma shard_for_range r key : router_ok r → 0 <= shard_for r key < count r.
Proof. intros Hr. apply Z.mod_pos_bound. unfold router_ok in Hr. lia. Qed.

Lemma mark_all r bits keys :
  router_ok r → length bits = Z.to_nat MAX_SHARDS →
  ∃ bits', try_fold (mark r) bits keys = Some bits' ∧ length bits' = Z.to_nat MAX_SHARDS ∧
    ∀ i, bits' !! i = Some true ↔ bits !! i = Some true ∨ ∃ k, k ∈ keys ∧ i = Z.to_nat (shard_for r k).
Proof.
  intros Hr. revert bits. induction keys as [|k keys IH]; intros bits Hl; cbn [try_fold].
  { exists bits. split_and!; [done..|]. set_solver. }
  pose proof (shard_for_range r k Hr). unfold router_ok in Hr.
  assert (mark r bits k = Some (<[Z.to_nat (shard_for r k) := true]> bits)) as ->.
  { unfold mark. destruct (Nat.ltb_spec (Z.to_nat (shard_for r k)) (length bits)); [done|lia]. }
  cbn [mbind option_bind].
  destruct (IH (<[Z.to_nat (shard_for r k) := true]> bits)) as (bits' & E & Hl' & Hb).
  { by rewrite length_insert. }
  exists bits'. split_and!; [exact E|done|]. intros i. rewrite Hb. destruct (decide (i = Z.to_nat (shard_for r k))) as [->|Hne].
  - rewrite list_lookup_insert_eq by lia. set_solver.
  - rewrite list_lookup_insert_ne by done. set_solver.
Qed.

Lemma mark_commands r bits commands :
  try_fold (λ bits c, try_fold (mark r) bits (visit_keys c)) bits commands =
  try_fold (mark r) bits (commands ≫= visit_keys).
Proof.
  revert bits. induction commands as [|c commands IH]; intros bits; [done|].
  change (mbind visit_keys (c :: commands)) with (visit_keys c ++ mbind visit_keys commands). cbn [try_fold].
  generalize (visit_keys c) as l. intros l. revert bits. induction l as [|k l IHl]; intros bits; cbn; [apply IH|].
  destruct (mark r bits k); cbn; [apply IHl|done].
Qed.

Lemma set_bits_elem i bits o :
  o ∈ set_bits i bits ↔ i <= o ∧ bits !! Z.to_nat (o - i) = Some true.
Proof.
  revert i. induction bits as [|b bits IH]; intros i; [cbn; set_solver|].
  assert (o ∈ set_bits (i + 1) bits ↔ i < o ∧ (b :: bits) !! Z.to_nat (o - i) = Some true) as Hi.
  { rewrite IH. split; intros [H1 H2]; (split; [lia|]).
    - replace (Z.to_nat (o - i)) with (S (Z.to_nat (o - (i + 1)))) by lia. done.
    - replace (Z.to_nat (o - i)) with (S (Z.to_nat (o - (i + 1)))) in H2 by lia. done. }
  destruct b; cbn [set_bits].
  - rewrite elem_of_cons, Hi. split.
    + intros [->|H]; [split; [lia|]; by rewrite Z.sub_diag|naive_solver lia].
    + intros [H1 H2]. destruct (Z.eq_dec o i); [by left|]. right. split; [lia|done].
  - rewrite Hi. split; [naive_solver lia|]. intros [H1 H2]. split; [|done].
    destruct (Z.eq_dec o i) as [->|]; [|lia]. by rewrite Z.sub_diag in H2.
Qed.
Lemma set_bits_sorted i bits : StronglySorted Z.lt (set_bits i bits).
Proof.
  revert i. induction bits as [|b bits IH]; intros i; [constructor|].
  destruct b; cbn [set_bits]; [|apply IH]. constructor; [apply IH|].
  apply Forall_forall. intros o Ho. apply set_bits_elem in Ho. lia.
Qed.

(** The owners of some keys; owner zero if there are none. *)
Definition owners_of (r : ShardRouter) (keys : list bytes) (o : Z) : Prop :=
  (∃ k, k ∈ keys ∧ shard_for r k = o) ∨ keys = [] ∧ o = 0.

Lemma participants_ok r commands watched :
  router_ok r →
  ∃ owners, transaction_participants r commands watched = Some owners ∧ StronglySorted Z.lt owners ∧
    ∀ o, o ∈ owners ↔ owners_of r (watched ++ (commands ≫= visit_keys)) o.
Proof.
  intros Hr. unfold transaction_participants.
  destruct (mark_all r (replicate (Z.to_nat MAX_SHARDS) false) watched Hr) as (b1 & -> & Hl1 & Hb1);
    [apply length_replicate|]. cbn [mbind option_bind]. rewrite mark_commands.
  destruct (mark_all r b1 (commands ≫= visit_keys) Hr Hl1) as (b2 & -> & Hl2 & Hb2). cbn [mbind option_bind].
  set (owners := set_bits 0 _).
  assert (∀ o, o ∈ owners ↔ ∃ k, k ∈ watched ++ (commands ≫= visit_keys) ∧ shard_for r k = o) as Ho.
  { intros o. unfold owners. rewrite set_bits_elem, Z.sub_0_r. split.
    - intros [H0 Hb]. assert (b2 !! Z.to_nat o = Some true) as Hb' by (by rewrite lookup_take_Some in Hb; destruct Hb).
      rewrite Hb2, Hb1 in Hb'. destruct Hb' as [[Hb'|(k & Hk & E)]|(k & Hk & E)].
      + apply lookup_replicate in Hb' as [? _]. done.
      + exists k. pose proof (shard_for_range r k Hr). split; [set_solver|lia].
      + exists k. pose proof (shard_for_range r k Hr). split; [set_solver|lia].
    - intros (k & Hk & <-). pose proof (shard_for_range r k Hr). split; [lia|].
      apply lookup_take_Some. split; [|lia]. rewrite Hb2, Hb1. set_solver. }
  pose proof (set_bits_sorted 0 (take (Z.to_nat (count r)) b2)) as Hs. fold owners in Hs.
  assert (owners = [] ↔ watched ++ (commands ≫= visit_keys) = []) as Hnil.
  { split; intros E.
    - destruct (watched ++ _) as [|k l]; [done|]. assert (shard_for r k ∈ owners) as H; [|rewrite E in H; set_solver].
      apply Ho. exists k. split; [left|done].
    - destruct owners as [|o l]; [done|]. destruct (proj1 (Ho o)) as (k & Hk & _); [left|]. rewrite E in Hk. set_solver. }
  destruct owners as [|o l] eqn:Eo.
  - exists [0]. split_and!; [done|repeat constructor|]. intros o. rewrite list_elem_of_singleton. unfold owners_of.
    rewrite (proj1 Hnil eq_refl). set_solver.
  - exists (o :: l). split_and!; [done..|]. intros o'. rewrite Ho. unfold owners_of. split; [auto|].
    intros [H|[E _]]; [done|]. by apply Hnil in E.
Qed.

(** ** The owner of a command *)

Lemma select_keys r keys selected crossed :
  fold_left (λ '(selected, crossed) key,
    let '(selected, err) := select_key r selected key in (selected, crossed || err)) keys (selected, crossed) =
  (match selected with Some o => Some o | None => shard_for r <$> head keys end,
   crossed || existsb (λ k, negb (default (default 0 (shard_for r <$> head keys)) selected =? shard_for r k)) keys).
Proof.
  revert selected crossed. induction keys as [|k keys IH]; intros selected crossed; cbn [fold_left].
  { destruct selected; cbn; by rewrite orb_false_r. }
  destruct selected as [o|]; cbn [select_key].
  - destruct (Z.eqb_spec o (shard_for r k)) as [->|Hne]; cbn [negb]; rewrite IH; cbn.
    + rewrite Z.eqb_refl. cbn. by rewrite orb_false_r.
    + destruct (Z.eqb_spec o (shard_for r k)); [done|]. cbn. f_equal. by rewrite <- orb_assoc.
  - rewrite IH. cbn. by rewrite orb_false_r, Z.eqb_refl.
Qed.

Lemma route_ok r c o :
  route r c = Ok o ↔ (∀ k, k ∈ visit_keys c → shard_for r k = o) ∧ (visit_keys c = [] → o = 0).
Proof.
  unfold route, select_command. rewrite select_keys. cbn [default orb].
  destruct (visit_keys c) as [|k keys]; cbn; [split; [intros [= <-]; set_solver|intros [_ ->]; done]|].
  rewrite Z.eqb_refl. cbn. destruct (existsb _ keys) eqn:E; cbn.
  - split; [done|]. intros [H _]. apply existsb_exists in E as (k' & Hin & Hk').
    rewrite !H in Hk' by (rewrite ?elem_of_cons, ?list_elem_of_In; auto). by rewrite Z.eqb_refl in Hk'.
  - split.
    + intros [= <-]. split; [|done]. intros k' [->|Hk']%elem_of_cons; [done|].
      apply not_true_iff_false in E. destruct (Z.eqb_spec (shard_for r k) (shard_for r k')) as [->|Hne]; [done|].
      exfalso. apply E, existsb_exists. exists k'. split; [by apply list_elem_of_In|]. by apply Z.eqb_neq in Hne as ->.
    + intros [H _]. by rewrite (H k ltac:(left)).
Qed.
Lemma route_err r c e :
  route r c = Err e ↔ e = CrossShard ∧ ∃ k k', k ∈ visit_keys c ∧ k' ∈ visit_keys c ∧ shard_for r k ≠ shard_for r k'.
Proof.
  assert (route r c = Err CrossShard ∨ ∃ o, route r c = Ok o) as Hor.
  { unfold route, select_command. rewrite select_keys. cbn [default orb]. destruct (existsb _ _); eauto. }
  split.
  - intros E. destruct Hor as [E'|[o E']]; [|congruence]. split; [congruence|].
    destruct (visit_keys c) as [|k keys] eqn:Ek.
    { assert (route r c = Ok 0) as E0; [|congruence]. apply route_ok. rewrite Ek. set_solver. }
    destruct (decide (Forall (λ k', shard_for r k' = shard_for r k) keys)) as [Hall|Hex].
    { assert (route r c = Ok (shard_for r k)) as E0; [|congruence]. apply route_ok. rewrite Ek, Forall_forall in *. set_solver. }
    apply not_Forall_Exists in Hex; [|apply _]. apply Exists_exists in Hex as (k' & Hk' & Hne).
    exists k', k. set_solver.
  - intros (-> & k & k' & Hk & Hk' & Hne). destruct Hor as [|[o E]]; [done|]. apply route_ok in E as [E _].
    rewrite !E in Hne by done. done.
Qed.

(** ** Quotas *)

Lemma zsum_with_app {A} (f : A → Z) l k : zsum_with f (l ++ k) = zsum_with f l + zsum_with f k.
Proof. unfold zsum_with. induction l; cbn; lia. Qed.
Lemma try_map_ok {E A B} (f : A → result E B) (g : A → B) l :
  (∀ x, x ∈ l → f x = Ok (g x)) → try_map f l = Ok (g <$> l).
Proof.
  induction l as [|x l IH]; intros H; cbn; [done|]. rewrite H by left. cbn. rewrite IH; [done|]. set_solver.
Qed.

Lemma quota_sum a b n :
  0 <= b <= Z.of_nat n →
  zsum_with (λ i, a + (if i <? b then 1 else 0)) (seqZ 0 (Z.of_nat n)) = a * Z.of_nat n + b.
Proof.
  revert b. induction n as [|n IH]; intros b Hb; [change (0 = a * 0 + b); lia|].
  rewrite seqZ_S, zsum_with_app.
  assert (zsum_with (λ i, a + (if i <? b then 1 else 0)) (seqZ 0 (Z.of_nat n)) =
          zsum_with (λ i, a + (if i <? b `min` Z.of_nat n then 1 else 0)) (seqZ 0 (Z.of_nat n))) as ->.
  { apply zsum_with_ext. intros i Hi%elem_of_seqZ.
    destruct (Z.ltb_spec i b), (Z.ltb_spec i (b `min` Z.of_nat n)); lia. }
  rewrite IH by lia. cbn [zsum_with foldr]. destruct (Z.ltb_spec (0 + Z.of_nat n) b); lia.
Qed.

Lemma quota_ok l total shard :
  DurableLayout_validate l = Ok tt → 0 <= shard < shard_count l → shard_count l <= total →
  quota l total shard = Ok (total / shard_count l + (if shard <? total mod shard_count l then 1 else 0)).
Proof.
  intros H H1 H2. unfold quota. rewrite H. cbn. destruct ((total <? _) || _) eqn:E; [lia|done].
Qed.
Lemma validate_count l : DurableLayout_validate l = Ok tt → 1 <= shard_count l <= MAX_SHARDS.
Proof. unfold DurableLayout_validate, ShardRouter_new. destruct ((1 <=? _) && _) eqn:E1; cbn; [lia|done]. Qed.

(** C36. The quotas of the shards of a valid layout partition the total: they add
    up to it, every shard has at least one byte, and two shards differ by at most
    one. *)
Theorem quota_partition l total :
  DurableLayout_validate l = Ok tt → shard_count l <= total →
  ∃ quotas, try_map (quota l total) (seqZ 0 (shard_count l)) = Ok quotas ∧ zsum_with id quotas = total ∧
    ∀ q, q ∈ quotas → 1 <= q ∧ total / shard_count l <= q <= total / shard_count l + 1.
Proof.
  intros Hv Ht. pose proof (validate_count l Hv) as Hc.
  set (f := λ i, total / shard_count l + (if i <? total mod shard_count l then 1 else 0)).
  exists (f <$> seqZ 0 (shard_count l)).
  assert (1 <= total / shard_count l) by (apply Z.div_le_lower_bound; lia).
  pose proof (Z.mod_pos_bound total (shard_count l)). split_and!.
  - apply try_map_ok. intros i Hi%elem_of_seqZ. apply quota_ok; [done|lia..].
  - rewrite zsum_with_fmap. change (zsum_with f (seqZ 0 (shard_count l)) = total).
    replace (shard_count l) with (Z.of_nat (Z.to_nat (shard_count l))) at 1 by lia. unfold f. rewrite quota_sum by lia.
    pose proof (Z.div_mod total (shard_count l)). lia.
  - intros q (i & -> & _)%list_elem_of_fmap. unfold f. case_match; lia.
Qed.

Lemma quota_partition_witness :
  try_map (quota {| shard_count := 3; routing_version := 1 |} 10) [0; 1; 2] = Ok [4; 3; 3] ∧
  ∃ quotas, try_map (quota {| shard_count := 3; routing_version := 1 |} 10) (seqZ 0 3) = Ok quotas ∧
    zsum_with id quotas = 10 ∧ ∀ q, q ∈ quotas → 1 <= q ∧ 10 / 3 <= q <= 10 / 3 + 1.
Proof.
  split; [reflexivity|]. apply (quota_partition {| shard_count := 3; routing_version := 1 |} 10); [reflexivity|cbn; lia].
Defined.

(** ** The parts of a list *)

Section Parts.
  Context {A} (r : ShardRouter) (f : A → bytes).

Definition part (l : list A) (o : Z) : list A := base.filter (λ x, shard_for r (f x) = o) l.
Definition push (groups : gmap Z (list A)) (x : A) : gmap Z (list A) :=
  let o := shard_for r (f x) in <[o := default [] (groups !! o) ++ [x]]> groups.

Lemma part_cons x l o : part (x :: l) o = if decide (shard_for r (f x) = o) then x :: part l o else part l o.
Proof. done. Qed.
Lemma part_elem l o x : x ∈ part l o ↔ shard_for r (f x) = o ∧ x ∈ l.
Proof. unfold part. by rewrite list_elem_of_filter. Qed.

Lemma push_lookup l groups o :
  fold_left push l groups !! o =
  if decide (part l o = []) then groups !! o else Some (default [] (groups !! o) ++ part l o).
Proof.
  revert groups. induction l as [|x l IH]; intros groups; cbn [fold_left]; [done|].
  rewrite IH, part_cons. unfold push. destruct (decide (shard_for r (f x) = o)) as [->|Hne].
  - rewrite lookup_insert_eq. rewrite (decide_False (P := x :: _ = [])) by done. cbn.
    case_decide as E; [by rewrite E|]. by rewrite <- app_assoc.
  - by rewrite lookup_insert_ne.
Qed.

(** The groups of a list, in the order of their owners. *)
Definition owners (l : list A) : list Z := (btree_iter (fold_left push l ∅)).*1.

Lemma owners_NoDup l : NoDup (owners l).
Proof. apply btree_iter_NoDup. Qed.
Lemma owners_elem l o : o ∈ owners l ↔ ∃ x, x ∈ l ∧ shard_for r (f x) = o.
Proof.
  unfold owners. rewrite list_elem_of_fmap. split.
  - intros ([o' g] & -> & Hg). apply btree_iter_elem in Hg. rewrite push_lookup in Hg. case_decide as E; [done|].
    destruct (part l o') as [|x p] eqn:Ep; [done|]. exists x. cbn. apply and_comm, part_elem. rewrite Ep. left.
  - intros (x & Hx & <-). exists (shard_for r (f x), part l (shard_for r (f x))). split; [done|].
    apply btree_iter_elem. rewrite push_lookup, lookup_empty. cbn. rewrite decide_False; [done|].
    intros E. assert (x ∈ part l (shard_for r (f x))) as H by by apply part_elem. rewrite E in H. set_solver.
Qed.
Lemma groups_parts l : btree_iter (fold_left push l ∅) = (λ o, (o, part l o)) <$> owners l.
Proof.
  unfold owners. rewrite <- list_fmap_compose. symmetry. rewrite <- (list_fmap_id (btree_iter _)) at 2.
  apply list_fmap_ext. intros i [o g] Hi%list_elem_of_lookup_2. cbn. f_equal.
  apply btree_iter_elem in Hi. rewrite push_lookup, lookup_empty in Hi. case_decide; [done|]. by injection Hi.
Qed.

Lemma zsum_with_plus {B} (g h : B → Z) l : zsum_with (λ x, g x + h x) l = zsum_with g l + zsum_with h l.
Proof. unfold zsum_with. induction l; cbn; lia. Qed.
Lemma zsum_with_owner (o v : Z) (l : list Z) :
  NoDup l → zsum_with (λ o', if decide (o = o') then v else 0) l = if decide (o ∈ l) then v else 0.
Proof.
  unfold zsum_with. induction 1 as [|o' l Hn Hl IH]; cbn; [done|]. rewrite IH.
  destruct (decide (o = o')) as [->|]; [rewrite decide_False by done; rewrite decide_True by left; lia|].
  destruct (decide (o ∈ l)), (decide (o ∈ o' :: l)); try lia; set_solver.
Qed.

(** A sum over a list is the sum over its parts. *)
Lemma zsum_parts (w : A → Z) l os :
  NoDup os → (∀ x, x ∈ l → shard_for r (f x) ∈ os) → zsum_with (λ o, zsum_with w (part l o)) os = zsum_with w l.
Proof.
  intros Hn. induction l as [|x l IH]; intros Hl.
  { change (zsum_with (λ _ : Z, 0) os = 0). clear. unfold zsum_with. induction os; cbn; lia. }
  rewrite (zsum_with_ext _ (λ o, (if decide (shard_for r (f x) = o) then w x else 0) + zsum_with w (part l o))).
  2:{ intros o _. rewrite part_cons. case_decide; unfold zsum_with; cbn; lia. }
  rewrite zsum_with_plus, zsum_with_owner, IH, decide_True by (try done; set_solver). done.
Qed.
End Parts.

(** ** The keys of a command, grouped *)

Lemma group_keys_groups r groups keys : (group_keys r groups keys).1 = fold_left (push r id) keys groups.
Proof.
  revert groups. induction keys as [|k keys IH]; intros groups; cbn [group_keys fold_left]; [done|].
  rewrite <- IH. unfold push. by destruct (group_keys _ _ keys).
Qed.

(** The positions of the keys that follow [seen]. *)
Fixpoint positions_after (r : ShardRouter) (seen : Z → nat) (keys : list bytes) : list (Z * nat) :=
  match keys with
  | [] => []
  | k :: keys =>
      let o := shard_for r k in
      (o, seen o) :: positions_after r (λ o', if decide (o' = o) then S (seen o) else seen o') keys
  end.

Lemma positions_after_ext r seen seen' keys :
  (∀ o, seen o = seen' o) → positions_after r seen keys = positions_after r seen' keys.
Proof.
  revert seen seen'. induction keys as [|k keys IH]; intros seen seen' H; cbn; [done|]. rewrite H. f_equal.
  apply IH. intros o. by case_decide.
Qed.
Lemma group_keys_positions r groups keys :
  (group_keys r groups keys).2 = positions_after r (λ o, length (default [] (groups !! o))) keys.
Proof.
  revert groups. induction keys as [|k keys IH]; intros groups; cbn [group_keys positions_after]; [done|].
  specialize (IH (<[shard_for r k := default [] (groups !! shard_for r k) ++ [k]]> groups)).
  destruct (group_keys _ _ keys) as [g p]. cbn in *. f_equal. rewrite IH. apply positions_after_ext.
  intros o. case_decide as E; [subst o; rewrite lookup_insert_eq|by rewrite lookup_insert_ne].
  cbn. rewrite length_app. cbn. lia.
Qed.

Lemma owner_index_Some os o : o ∈ os → ∃ i, owner_index os o = Some i ∧ os !! i = Some o.
Proof.
  intros Ho. unfold owner_index. destruct (list_find_elem_of (o =.) os o Ho) as [[i x] E]; [done|].
  exists i. rewrite E. split; [done|]. by apply list_find_Some in E as (? & <- & _).
Qed.

(** [Option::take] empties every cell once. *)
Definition rows_after (r : ShardRouter) (value : bytes → Reply) (os : list Z) (seen : Z → nat) (keys : list bytes)
    : list (list (option Reply)) :=
  (λ o, replicate (seen o) None ++ (Some ∘ value <$> part r id keys o)) <$> os.

Lemma take_cells_ok r value os seen keys positions :
  NoDup os → (∀ k, k ∈ keys → shard_for r k ∈ os) →
  mapM (λ p, i ← owner_index os p.1; Some (i, p.2)) (positions_after r seen keys) = Some positions →
  take_cells (rows_after r value os seen keys) positions =
  Ok (rows_after r value os (λ o, seen o + length (part r id keys o))%nat [], value <$> keys).
Proof.
  intros Hn. revert seen positions. induction keys as [|k keys IH]; intros seen positions Hk.
  { intros [= <-]. cbn. do 2 f_equal. unfold rows_after. apply list_fmap_ext. intros i o _. cbn. by rewrite Nat.add_0_r. }
  cbn [positions_after mapM]. destruct (owner_index_Some os (shard_for r k) (Hk _ ltac:(left))) as (i & Ei & Hi).
  cbn [fst snd]. rewrite Ei. cbn [mbind option_bind].
  destruct (mapM _ _) as [ps|] eqn:Ep; [|done]. intros [= <-]. cbn [take_cells].
  set (seen' := λ o', if decide (o' = shard_for r k) then S (seen (shard_for r k)) else seen o') in *.
  assert (take_cell (rows_after r value os seen (k :: keys)) (i, seen (shard_for r k)) =
          Some (rows_after r value os seen' keys, value k)) as ->.
  { unfold take_cell, rows_after. cbn [fst snd]. rewrite list_lookup_fmap, Hi. cbn [fmap option_fmap option_map mbind option_bind].
    rewrite part_cons, decide_True by done. rewrite lookup_app_r, length_replicate, Nat.sub_diag by (rewrite length_replicate; lia).
    cbn -[part replicate]. do 2 f_equal. rewrite insert_app_r_alt, length_replicate, Nat.sub_diag by (rewrite length_replicate; lia).
    apply list_eq. intros j. destruct (decide (i = j)) as [<-|Hij].
    - rewrite list_lookup_insert_eq by (rewrite length_fmap; by eapply lookup_lt_Some). rewrite list_lookup_fmap, Hi. cbn.
      unfold seen'. rewrite decide_True by done. f_equal.
      change (replicate (S ?n) None) with (@None Reply :: replicate n None). by rewrite replicate_cons_app, <- app_assoc.
    - rewrite list_lookup_insert_ne, !list_lookup_fmap by done. destruct (os !! j) as [o|] eqn:Ej; [|done]. cbn [fmap option_fmap option_map].
      assert (o ≠ shard_for r k) by (intros ->; apply Hij; by eapply NoDup_lookup).
      unfold seen'. rewrite decide_False, part_cons, decide_False by done. done. }
  cbn [ok_or mbind result_bind]. rewrite (IH seen' ps) by (set_solver || done). cbn -[part rows_after]. do 2 f_equal.
  unfold rows_after. apply list_fmap_ext. intros j o _. cbn -[part]. do 2 f_equal. unfold seen'. rewrite part_cons.
  do 2 case_decide; subst; try done. cbn. lia.
Qed.

(** ** A plan against the reference semantics *)

(** The keys of an owner, and the dataset after the owners have run. *)
Definition owned (r : ShardRouter) (o : Z) (m : dataset) : dataset :=
  base.filter (λ e, shard_for r e.1 = o) m.
Definition gather (r : ShardRouter) (m : dataset) (l : list (Z * dataset)) : dataset :=
  foldr (λ x acc, owned r x.1 x.2 ∪ base.filter (λ e, shard_for r e.1 ≠ x.1) acc) m l.
Definition run_fragment (r : ShardRouter) (t : Sample) (m : dataset) (f : Fragment) : dataset * Reply :=
  spec t (f_command f) (owned r (owner f) m).

Lemma lookup_owned (r : ShardRouter) (o : Z) (m : dataset) (k : bytes) :
  owned r o m !! k = if decide (shard_for r k = o) then m !! k else None.
Proof.
  unfold owned. case_decide as E.
  - destruct (m !! k) as [x|] eqn:Ex; [by apply map_lookup_filter_Some|]. apply map_lookup_filter_None. by left.
  - apply map_lookup_filter_None. right. intros ???. by apply E.
Qed.
Lemma lookup_gather (r : ShardRouter) (m : dataset) (F : Z → dataset) (os : list Z) (k : bytes) :
  gather r m ((λ o, (o, F o)) <$> os) !! k =
  if decide (shard_for r k ∈ os) then F (shard_for r k) !! k else m !! k.
Proof.
  induction os as [|o os IH]; [done|]. cbn [fmap list_fmap gather foldr fst snd].
  rewrite lookup_union, lookup_owned. destruct (decide (shard_for r k = o)) as [<-|Hne].
  - rewrite (decide_True (P := _ ∈ _ :: _)) by left.
    assert (base.filter (λ e, shard_for r e.1 ≠ shard_for r k) (gather r m ((λ o, (o, F o)) <$> os)) !! k = None) as E.
    { apply map_lookup_filter_None. right. intros ?? Hn. by apply Hn. }
    unfold gather in E. rewrite E. by destruct (F _ !! k).
  - rewrite left_id by apply _. unfold gather in IH. transitivity (foldr (λ (x : Z * dataset) acc,
      owned r x.1 x.2 ∪ base.filter (λ e, shard_for r e.1 ≠ x.1) acc) m ((λ o, (o, F o)) <$> os) !! k).
    { destruct (foldr _ _ _ !! k) as [x|] eqn:Ex; [by apply map_lookup_filter_Some|]. apply map_lookup_filter_None. by left. }
    rewrite IH. do 2 case_decide; set_solver.
Qed.

Lemma zlen_filter {A} (p : A → bool) l : zlen (List.filter p l) = zsum_with (λ x, if p x then 1 else 0) l.
Proof. unfold zsum_with, zlen. induction l as [|x l IH]; cbn; [done|]. destruct (p x); cbn; lia. Qed.

Lemma assemble_sum_ok total (l : list Z) :
  0 <= total → (∀ n, n ∈ l → 0 <= n) → total + zsum_with id l <= I64_MAX →
  0 <= zsum_with id l ∧ assemble_sum total (RInteger <$> l) = Ok (RInteger (total + zsum_with id l)).
Proof.
  revert total. induction l as [|n l IH]; intros total H0 Hn Hm; [by rewrite Z.add_0_r|].
  change (zsum_with id (n :: l)) with (n + zsum_with id l) in *. pose proof (Hn n ltac:(left)).
  assert (0 <= zsum_with id l) as Hl.
  { clear -Hn. induction l as [|x l IH]; [done|]. change (0 <= x + zsum_with id l).
    pose proof (Hn x ltac:(set_solver)). cut (0 <= zsum_with id l); [lia|]. apply IH. set_solver. }
  split; [lia|]. cbn. destruct (Z.leb_spec 0 n); [|lia]. unfold i_add, i64_checked.
  rewrite (proj2 (Z.leb_le _ _)), (proj2 (Z.leb_le _ _)) by (unfold I64_MIN in *; lia). cbn.
  destruct (IH (total + n)) as [_ ->]; [lia|set_solver|lia|]. by rewrite Z.add_assoc.
Qed.

(** What a plan owes to the command it splits: one fragment per owner, which stays on
    that owner; the recombined reply and the datasets of the owners are those of the
    command on the whole dataset. *)
Definition plan_correct (r : ShardRouter) (c : Command) (plan : CommandPlan) : Prop :=
  NoDup (owner <$> fragments plan) ∧
  (∀ f, f ∈ fragments plan → route r (f_command f) = Ok (owner f)) ∧
  ∀ t m,
    assemble (plan_reply plan) ((λ f, (run_fragment r t m f).2) <$> fragments plan) = Ok (spec t c m).2 ∧
    gather r m ((λ f, (owner f, (run_fragment r t m f).1)) <$> fragments plan) = (spec t c m).1.

Lemma split_correct {A} r c (f : A → bytes) (l : list A) (command : list A → Command) reply joint :
  (∀ l, visit_keys (command l) = f <$> l) → visit_keys c = f <$> l →
  (∀ t m k, shard_for r k ∈ owners r f l →
     (spec t (command (part r f l (shard_for r k))) (owned r (shard_for r k) m)).1 !! k = (spec t c m).1 !! k) →
  (∀ t m, assemble reply
     ((λ o, (spec t (command (part r f l o)) (owned r o m)).2) <$> owners r f l) = Ok (spec t c m).2) →
  plan_correct r c {| fragments := (λ g, {| owner := g.1; f_command := command g.2 |}) <$>
                                     btree_iter (fold_left (push r f) l ∅);
                      plan_reply := reply; joint_commit := joint |}.
Proof.
  intros Hv Hc Hd Hr. unfold plan_correct. cbn. rewrite groups_parts, <- !list_fmap_compose. split_and!.
  - cbn. rewrite list_fmap_id. apply owners_NoDup.
  - intros g (o & -> & Ho)%list_elem_of_fmap. cbn. apply route_ok. rewrite Hv. split.
    + intros k (x & -> & Hx)%list_elem_of_fmap. by apply part_elem in Hx as [? _].
    + intros E. apply fmap_nil_inv in E. apply owners_elem in Ho as (x & Hx & Ho).
      assert (x ∈ part r f l o) as H by by apply part_elem. rewrite E in H. set_solver.
  - intros t m. rewrite <- !list_fmap_compose. split; [apply Hr|]. apply map_eq. intros k.
    etransitivity; [exact (lookup_gather r m (λ o, (spec t (command (part r f l o)) (owned r o m)).1) (owners r f l) k)|].
    case_decide as Hk; [by apply Hd|].
    symmetry. apply spec_frame. rewrite Hc. intros (x & -> & Hx)%list_elem_of_fmap. apply Hk, owners_elem. eauto.
Qed.

Lemma direct_correct r c o : route r c = Ok o → plan_correct r c (direct o c).
Proof.
  intros Ho. unfold plan_correct. cbn. split_and!; [apply NoDup_singleton| |].
  - by intros f ->%list_elem_of_singleton.
  - intros t m. unfold run_fragment. cbn [owner f_command]. pose proof (proj1 (proj1 (route_ok r c o) Ho)) as Hk.
    destruct (spec_local t c (owned r o m) m) as [E1 E2].
    { intros k Hin. by rewrite lookup_owned, decide_True by auto. }
    split; [by rewrite E1|]. apply map_eq. intros k.
    etransitivity; [exact (lookup_gather r m (λ o, (spec t c (owned r o m)).1) [o] k)|]. case_decide as E.
    + apply list_elem_of_singleton in E as <-. destruct (decide (k ∈ visit_keys c)); [by auto|].
      rewrite !spec_frame by done. by rewrite lookup_owned, decide_True.
    + symmetry. apply spec_frame. intros Hin. apply E. rewrite (Hk k Hin). left.
Qed.

(** ** The commands that split *)

Lemma lookup_part_filter {V} r (l : list (bytes * V)) k :
  (list_to_map (rev (part r fst l (shard_for r k))) : gmap bytes V) !! k = (list_to_map (rev l) : gmap bytes V) !! k.
Proof.
  induction l as [|[k' v] l IH] using rev_ind; [done|]. unfold part in *. rewrite filter_app, !rev_app_distr. cbn.
  case_decide as E; cbn; destruct (decide (k' = k)) as [->|Hne]; rewrite ?lookup_insert_eq, ?lookup_insert_ne by done; done.
Qed.

Definition present (m : dataset) (k : bytes) : Z := if bool_decide (is_Some (m !! k)) then 1 else 0.

Lemma del_sum_NoDup (l : list bytes) (m : dataset) :
  NoDup l → zsize m - zsize (without l m) = zsum_with (present m) l.
Proof.
  intros Hn. revert m. induction Hn as [|k l Hk Hn IH]; intros m; [rewrite without_nil; cbn; lia|].
  change (zsum_with (present m) (k :: l)) with (present m k + zsum_with (present m) l).
  rewrite without_cons. pose proof (zsize_delete k m). pose proof (IH (delete k m)) as Hl.
  rewrite (zsum_with_ext _ (present m)) in Hl; [unfold present at 1; lia|].
  intros k' Hk'. unfold present. by rewrite lookup_delete_ne by set_solver.
Qed.
Lemma del_sum (l : list bytes) (m : dataset) :
  zsize m - zsize (without l m) = zsum_with (present m) (remove_dups l).
Proof.
  rewrite <- del_sum_NoDup by apply NoDup_remove_dups. do 2 f_equal. apply map_eq. intros k.
  rewrite !lookup_without. do 2 case_bool_decide; try done; rewrite elem_of_remove_dups in *; done.
Qed.
Lemma part_remove_dups r (l : list bytes) o : remove_dups (part r id l o) ≡ₚ part r id (remove_dups l) o.
Proof.
  apply NoDup_Permutation; [apply NoDup_remove_dups|apply NoDup_filter, NoDup_remove_dups|].
  intros k. rewrite elem_of_remove_dups, !part_elem, elem_of_remove_dups. done.
Qed.
Lemma present_range m k : 0 <= present m k <= 1.
Proof. unfold present. case_match; lia. Qed.
Lemma present_sum m l : 0 <= zsum_with (present m) l <= zlen l.
Proof.
  unfold zsum_with, zlen. induction l as [|k l IH]; cbn; [lia|]. pose proof (present_range m k). lia.
Qed.

Lemma sum_correct r l os (F : bytes → Z) (part_sum : Z → Z) :
  NoDup os → (∀ k, k ∈ l → shard_for r k ∈ os) →
  (∀ o, part_sum o = zsum_with F (part r id l o)) → (∀ k, 0 <= F k <= 1) → zlen l <= I64_MAX →
  assemble (Sum (length os)) (RInteger <$> (part_sum <$> os)) = Ok (RInteger (zsum_with F l)).
Proof.
  intros Hn Hos Hp HF Hl. cbn [assemble]. rewrite !length_fmap, Nat.eqb_refl.
  assert (∀ l, 0 <= zsum_with F l <= zlen l) as Hb.
  { clear -HF. unfold zsum_with, zlen. induction l as [|k l IH]; cbn; [lia|]. pose proof (HF k). lia. }
  assert (zsum_with id (part_sum <$> os) = zsum_with F l) as E.
  { rewrite zsum_with_fmap, (zsum_with_ext _ (λ o, zsum_with F (part r id l o))) by (intros; apply Hp).
    by apply zsum_parts. }
  pose proof (Hb l). destruct (assemble_sum_ok 0 (part_sum <$> os)) as [_ ->]; [lia| |lia|by rewrite E].
  intros n (o & -> & _)%list_elem_of_fmap. rewrite Hp. apply Hb.
Qed.

Lemma owners_cover r (l : list bytes) k : k ∈ l → shard_for r k ∈ owners r id l.
Proof. intros Hk. apply owners_elem. eauto. Qed.
Lemma zlen_remove_dups (l : list bytes) : zlen (remove_dups l) <= zlen l.
Proof.
  unfold zlen. induction l as [|k l IH]; cbn [remove_dups]; [lia|]. case_decide; cbn [length]; lia.
Qed.
Lemma present_owned r o m l :
  zsum_with (present (owned r o m)) (part r id l o) = zsum_with (present m) (part r id l o).
Proof.
  apply zsum_with_ext. intros k [E _]%part_elem. unfold present. by rewrite lookup_owned, decide_True.
Qed.

Lemma exists_correct r keys joint :
  zlen keys <= I64_MAX →
  plan_correct r (CExists keys)
    {| fragments := (λ g, {| owner := g.1; f_command := CExists g.2 |}) <$> btree_iter (fold_left (push r id) keys ∅);
       plan_reply := Sum (length (btree_iter (fold_left (push r id) keys ∅))); joint_commit := joint |}.
Proof.
  intros Hl. apply (split_correct _ _ id); [by intros; cbn; rewrite list_fmap_id..| |].
  - intros t m k _. cbn. by rewrite lookup_owned, decide_True.
  - intros t m. rewrite groups_parts, length_fmap. cbn [spec snd]. rewrite zlen_filter.
    etransitivity; [|apply (sum_correct r keys (owners r id keys) (present m)
      (λ o, zlen (List.filter (λ k, bool_decide (is_Some (owned r o m !! k))) (part r id keys o))))];
      [by rewrite <- list_fmap_compose|apply owners_NoDup|apply owners_cover| |apply present_range|done].
    intros o. rewrite zlen_filter. apply present_owned.
Qed.
Lemma del_correct r keys joint :
  zlen keys <= I64_MAX →
  plan_correct r (CDel keys)
    {| fragments := (λ g, {| owner := g.1; f_command := CDel g.2 |}) <$> btree_iter (fold_left (push r id) keys ∅);
       plan_reply := Sum (length (btree_iter (fold_left (push r id) keys ∅))); joint_commit := joint |}.
Proof.
  intros Hl. apply (split_correct _ _ id); [by intros; cbn; rewrite list_fmap_id..| |].
  - intros t m k _. cbn. rewrite !lookup_without, lookup_owned, decide_True by done.
    do 2 case_bool_decide; rewrite part_elem in *; naive_solver.
  - intros t m. rewrite groups_parts, length_fmap. cbn [spec snd]. rewrite del_sum.
    pose proof (zlen_remove_dups keys).
    etransitivity; [|apply (sum_correct r (remove_dups keys) (owners r id keys) (present m)
      (λ o, zsize (owned r o m) - zsize (without (part r id keys o) (owned r o m))))];
      [by rewrite <- list_fmap_compose|apply owners_NoDup| | |apply present_range|lia].
    + intros k. rewrite elem_of_remove_dups. apply owners_cover.
    + intros o. rewrite del_sum, (zsum_with_perm _ _ _ (part_remove_dups r keys o)). apply present_owned.
Qed.
Lemma part_fmap {A B} r (f : B → bytes) (g : A → B) l o : part r f (g <$> l) o = g <$> part r (λ x, f (g x)) l o.
Proof.
  induction l as [|x l IH]; [done|]. cbn [fmap list_fmap]. rewrite !part_cons. case_decide; cbn; by rewrite IH.
Qed.
Lemma mset_correct r entries : plan_correct r (CMSet entries) (split_mset r entries).
Proof.
  unfold split_mset. cbn zeta. rewrite length_fmap. apply (split_correct _ _ fst); [by intros..| |].
  - intros t m k _. cbn. unfold with_entries. rewrite !lookup_union, lookup_owned, decide_True by done. f_equal.
    set (g := λ e : bytes * bytes, _). rewrite <- (lookup_part_filter r (g <$> entries)). by rewrite part_fmap.
  - intros t m. change (fold_left _ entries ∅) with (fold_left (push r fst) entries ∅).
    rewrite groups_parts. cbn [assemble spec snd]. rewrite !length_fmap, Nat.eqb_refl.
    induction (owners r fst entries); cbn; done.
Qed.

Lemma positions_elem r seen keys p : p ∈ positions_after r seen keys → ∃ k, k ∈ keys ∧ p.1 = shard_for r k.
Proof.
  revert seen. induction keys as [|k keys IH]; intros seen; cbn; [set_solver|].
  intros [->|(k' & ? & ?)%IH]%elem_of_cons; [exists k|exists k']; set_solver.
Qed.
Lemma positions_total r seen keys :
  is_Some (mapM (λ p, i ← owner_index (owners r id keys) p.1; Some (i, p.2)) (positions_after r seen keys)).
Proof.
  apply mapM_is_Some, Forall_forall. intros p (k & Hk & E)%positions_elem. unfold compose. rewrite E.
  destruct (owner_index_Some (owners r id keys) (shard_for r k)) as (i & -> & _); [by apply owners_cover|]. by eexists.
Qed.

Lemma bulk_rows_ok (values : Z → list (option bytes)) os :
  bulk_rows (zip ((λ o, RArray (RBulk <$> values o)) <$> os) ((λ o, length (values o)) <$> os)) =
  Ok (inr ((λ o, Some <$> (RBulk <$> values o)) <$> os)).
Proof.
  induction os as [|o os IH]; [done|].
  change (bulk_rows ((RArray (RBulk <$> values o), length (values o)) ::
    zip ((λ o, RArray (RBulk <$> values o)) <$> os) ((λ o, length (values o)) <$> os)) =
    Ok (inr ((Some <$> (RBulk <$> values o)) :: ((λ o, Some <$> (RBulk <$> values o)) <$> os)))). cbn [bulk_rows].
  rewrite length_fmap, Nat.eqb_refl. rewrite (proj2 (forallb_forall is_bulk _)).
  2:{ intros x (v & -> & _)%list_elem_of_In%list_elem_of_fmap. done. }
  cbn [andb]. rewrite IH. done.
Qed.

Lemma rows_empty r value os seen : existsb (existsb (λ c, bool_decide (is_Some c))) (rows_after r value os seen []) = false.
Proof.
  induction os as [|o os IH]; [done|]. cbn -[rows_after]. apply orb_false_iff. split; [|apply IH].
  cbn. rewrite app_nil_r. induction (seen o); by cbn.
Qed.

Lemma mget_correct r keys positions joint :
  mapM (λ p, i ← owner_index (owners r id keys) p.1; Some (i, p.2))
    (positions_after r (λ o, O) keys) = Some positions →
  plan_correct r (CMGet keys)
    {| fragments := (λ g, {| owner := g.1; f_command := CMGet g.2 |}) <$> btree_iter (fold_left (push r id) keys ∅);
       plan_reply := OrderedBulk positions ((λ g, length g.2) <$> btree_iter (fold_left (push r id) keys ∅));
       joint_commit := joint |}.
Proof.
  intros Hp. apply (split_correct _ _ id); [by intros; cbn; rewrite list_fmap_id..| |].
  - intros t m k _. cbn. by rewrite lookup_owned, decide_True.
  - intros t m. rewrite groups_parts. cbn [assemble spec snd]. rewrite !length_fmap, Nat.eqb_refl.
    rewrite <- list_fmap_compose. set (values := λ o, a_string m <$> part r id keys o).
    assert ((λ o, RArray ((λ k, RBulk (a_string (owned r o m) k)) <$> part r id keys o)) <$> owners r id keys =
            (λ o, RArray (RBulk <$> values o)) <$> owners r id keys) as ->.
    { apply list_fmap_ext. intros i o _. unfold values. f_equal. rewrite <- list_fmap_compose. apply list_fmap_ext.
      intros j k [E _]%list_elem_of_lookup_2%part_elem. unfold a_string, compose. by rewrite lookup_owned, decide_True. }
    assert (((λ g, length g.2) ∘ (λ o, (o, part r id keys o))) <$> owners r id keys = (λ o, length (values o)) <$> owners r id keys) as ->.
    { apply list_fmap_ext. intros i o _. unfold values. by rewrite length_fmap. }
    rewrite bulk_rows_ok. cbn [mbind result_bind].
    pose proof (take_cells_ok r (λ k, RBulk (a_string m k)) (owners r id keys) (λ _, O) keys positions
      (owners_NoDup _ _ _) (owners_cover r keys) Hp) as Ht.
    replace ((λ o, Some <$> (RBulk <$> values o)) <$> owners r id keys)
      with (rows_after r (λ k, RBulk (a_string m k)) (owners r id keys) (λ _, O) keys).
    { rewrite Ht. cbn -[rows_after]. by rewrite rows_empty. }
    unfold rows_after, values. apply list_fmap_ext. intros i o _. cbn. by rewrite <- !list_fmap_compose.
Qed.

Lemma split_keys_ok r keys command joint ordered :
  ∃ positions,
    mapM (λ p, i ← owner_index (owners r id keys) p.1; Some (i, p.2)) (positions_after r (λ o, O) keys) = Some positions ∧
    split_keys r keys command joint ordered =
    Some {| fragments := (λ g, {| owner := g.1; f_command := command g.2 |}) <$> btree_iter (fold_left (push r id) keys ∅);
            plan_reply := if ordered
                          then OrderedBulk positions ((λ g, length g.2) <$> btree_iter (fold_left (push r id) keys ∅))
                          else Sum (length (btree_iter (fold_left (push r id) keys ∅)));
            joint_commit := joint |}.
Proof.
  destruct (positions_total r (λ o, O) keys) as [positions Hp]. exists positions. split; [done|].
  unfold split_keys. pose proof (group_keys_groups r ∅ keys) as Hg. pose proof (group_keys_positions r ∅ keys) as Hq.
  rewrite (positions_after_ext r _ (λ _, O)) in Hq by (intros; by rewrite lookup_empty).
  destruct (group_keys r ∅ keys) as [groups ps]. cbn in Hg, Hq. subst. unfold owners in Hp. cbn zeta. by rewrite Hp.
Qed.

Lemma participants_route r c :
  router_ok r →
  ∃ os, transaction_participants r [c] [] = Some os ∧
    match os with
    | [o] => route r c = Ok o
    | _ => route r c = Err CrossShard
    end.
Proof.
  intros Hr. destruct (participants_ok r [c] [] Hr) as (os & E & Hs & Ho). exists os. split; [done|].
  change ([] ++ ([c] ≫= visit_keys)) with (visit_keys c ++ []) in Ho. rewrite app_nil_r in Ho. clear E.
  unfold owners_of in Ho. destruct os as [|o [|o' os]].
  - exfalso. destruct (visit_keys c) as [|k keys] eqn:Ek.
    + assert (0 ∈ []) as H by (apply Ho; auto). set_solver.
    + assert (shard_for r k ∈ []) as H; [|set_solver]. apply Ho. left. exists k. split; [left|done].
  - apply route_ok. split.
    + intros k Hk. assert (shard_for r k ∈ [o]) as H by (apply Ho; eauto). by apply list_elem_of_singleton in H.
    + intros Ek. destruct (proj1 (Ho o) ltac:(left)) as [(k & Hk & _)|[_ ?]]; [|done]. rewrite Ek in Hk. set_solver.
  - apply route_err. split; [done|]. inversion_clear Hs as [|? ? _ Hlt]. apply Forall_cons in Hlt as [Hlt _].
    destruct (proj1 (Ho o) ltac:(left)) as [(k & Hk & <-)|[Ek ->]].
    + destruct (proj1 (Ho o') ltac:(set_solver)) as [(k' & Hk' & <-)|[Ek _]]; [exists k, k'; split_and!; [done..|lia]|].
      rewrite Ek in Hk. set_solver.
    + destruct (proj1 (Ho o') ltac:(set_solver)) as [(k' & Hk' & _)|[_ ->]]; [rewrite Ek in Hk'; set_solver|lia].
Qed.

Lemma plan_split_correct r c :
  route r c = Err CrossShard → zlen (visit_keys c) <= I64_MAX →
  ∃ plan,
    match c with
    | CMGet keys => plan ← split_keys r keys CMGet false true; Some (Ok plan)
    | CExists keys => plan ← split_keys r keys CExists false false; Some (Ok plan)
    | CDel keys => plan ← split_keys r keys CDel true false; Some (Ok plan)
    | CMSet entries => Some (Ok (split_mset r entries))
    | _ => Some (Err CrossShard)
    end = Some plan ∧
    match plan with
    | Ok plan => plan_correct r c plan
    | Err e => e = CrossShard ∧ route r c = Err CrossShard
    end.
Proof.
  intros Hr Hl. destruct c; try (exists (Err CrossShard); done).
  - destruct (split_keys_ok r keys CDel true false) as (ps & _ & ->). eexists. split; [done|]. by apply del_correct.
  - destruct (split_keys_ok r keys CExists false false) as (ps & _ & ->). eexists. split; [done|]. by apply exists_correct.
  - destruct (split_keys_ok r keys CMGet false true) as (ps & Hp & ->). eexists. split; [done|]. by apply mget_correct.
  - eexists. split; [done|]. apply mset_correct.
Qed.

Lemma plan_command_ok r c :
  router_ok r → zlen (visit_keys c) <= I64_MAX →
  ∃ plan, plan_transaction_command r c = Some plan ∧
    match plan with
    | Ok plan => plan_correct r c plan
    | Err e => e = CrossShard ∧ route r c = Err CrossShard
    end.
Proof.
  intros Hr Hl. unfold plan_transaction_command. destruct (participants_route r c Hr) as (os & -> & Hos). cbn -[split_keys].
  destruct os as [|o [|o' os]]; [by apply plan_split_correct| |by apply plan_split_correct].
  eexists. split; [done|]. by apply direct_correct.
Qed.

(** C10. Planning a command never panics. A plan splits it into one fragment per
    owner, each of which the router sends to that owner, and running every fragment
    on the keys of its owner and assembling the replies gives the reply and the
    dataset of the command on all the keys; it is refused only if it crosses shards. *)
Theorem plan_command_correct r c :
  router_ok r → zlen (visit_keys c) <= I64_MAX →
  ∃ plan, plan_transaction_command r c = Some plan ∧
    match plan with
    | Ok plan => plan_correct r c plan
    | Err e => e = CrossShard ∧ route r c = Err CrossShard
    end.
Proof. apply plan_command_ok. Qed.

(** Two keys on different owners, one of them twice. *)
Definition sample_router : ShardRouter := {| count := 2 |}.
Definition sample_keys : list bytes := [lit "a"; lit "b"; lit "a"].
Lemma plan_command_correct_witness :
  map (shard_for sample_router) sample_keys = [0; 1; 0] ∧
  ∃ plan, plan_transaction_command sample_router (CMGet sample_keys) = Some plan ∧
    match plan with
    | Ok plan => plan_correct sample_router (CMGet sample_keys) plan
    | Err e => e = CrossShard ∧ route sample_router (CMGet sample_keys) = Err CrossShard
    end.
Proof.
  split; [vm_compute; reflexivity|].
  apply (plan_command_correct sample_router (CMGet sample_keys)); [unfold router_ok; cbn; unfold MAX_SHARDS; lia|].
  vm_compute; discriminate.
Defined.

(** C35. The participants of a transaction are computed without a panic, are listed
    in strictly ascending order, and are the owners of the watched keys and of the
    keys of the commands; a transaction without keys runs on owner zero. *)
Theorem participants_exact r commands watched :
  router_ok r →
  ∃ owners, transaction_participants r commands watched = Some owners ∧ StronglySorted Z.lt owners ∧
    ∀ o, o ∈ owners ↔ owners_of r (watched ++ (commands ≫= visit_keys)) o.
Proof. apply participants_ok. Qed.

Lemma participants_exact_witness :
  ∃ owners, transaction_participants sample_router [CMGet sample_keys] [] = Some owners ∧ StronglySorted Z.lt owners ∧
    ∀ o, o ∈ owners ↔ owners_of sample_router ([] ++ ([CMGet sample_keys] ≫= visit_keys)) o.
Proof. apply participants_exact. unfold router_ok; cbn; unfold MAX_SHARDS; lia. Defined.

(** The vectors of the unit tests, which pin the routing version. *)
Example routing_vectors :
  map stable_hash (lit <$> [EmptyString; "a"; "foobar"]%string) =
    [0xcbf29ce484222325; 0xaf63dc4c8601ec8c; 0x85944171f73967e8] ∧
  hash_tag (lit "a{b}c") = lit "b" ∧ hash_tag (lit "{}{a}") = lit "{}{a}" ∧ hash_tag (lit "{open") = lit "{open".
Proof. vm_compute. done. Qed.
