(* ===== verification/Format.v ===== *)
(** * The AOF format, version 1 of the records

    Models src/persistence/format.rs and src/persistence/role.rs: the headers, the
    encoder with its sizes computed beforehand, the bounded decoder.  Input is a
    slice of bytes; the operating system's I/O errors are not modelled. *)

From Stdlib Require Import Strings.Byte Strings.String ZArith Lia.
From S2P Require Import Prelude Float Score Memory Command Store StoreInv StoreSpec Mutation StoreExec Wire Routing.

#[local] Open Scope Z_scope.

(** ** Headers *)

Inductive Role := Primary | Replica.
Record ReplicationMetadata := { role : Role; epoch : bytes }.

Record Header := {
  h_sequence : Z;
  h_layout : DurableLayout;
  h_format_version : Z;
  h_bytes : Z;
  h_replication : option ReplicationMetadata
}.

Definition MAGIC : bytes := lit "SIDERAOF".
Definition VERSION : Z := 1.
Definition HEADER_BYTES : Z := 24.
Definition LAYOUT_VERSION : Z := 2.
Definition LAYOUT_HEADER_BYTES : Z := 32.
Definition REPLICATION_VERSION : Z := 3.
Definition REPLICATION_HEADER_BYTES : Z := 52.

(** A header followed by its checksum. *)
Definition sealed_header (header : bytes) : bytes := header ++ u32_le (checksum header).

Definition write_header (sequence : Z) : bytes :=
  sealed_header (MAGIC ++ u32_le VERSION ++ u64_le sequence).

Definition role_byte (r : Role) : byte := match r with Primary => x01 | Replica => x02 end.

Definition write_header_with_replication (sequence : Z) (layout : DurableLayout)
    (replication : option ReplicationMetadata) : result FormatError bytes :=
  _ ← map_err (λ _, FCorrupt "shard configuration") (DurableLayout_validate layout);
  let version := match replication with Some _ => REPLICATION_VERSION | None => LAYOUT_VERSION end in
  Ok (sealed_header
        (MAGIC ++ u32_le version ++ u64_le sequence ++ u32_le (shard_count layout)
         ++ u32_le (routing_version layout)
         ++ match replication with
            | Some r => role_byte (role r) :: [x00; x00; x00] ++ epoch r
            | None => []
            end)).
Definition write_header_with_layout (sequence : Z) (layout : DurableLayout) : result FormatError bytes :=
  write_header_with_replication sequence layout None.

(** [header[a..b]] *)
Definition byte_range (a b : nat) (s : bytes) : bytes := take (b - a) (drop a s).

Definition role_of (z : Z) : option Role :=
  if z =? 1 then Some Primary else if z =? 2 then Some Replica else None.

(** The fields of a complete header whose checksum holds. *)
Definition parse_header (version bytes_ : Z) (header : bytes) : result FormatError Header :=
  let layout :=
    if version =? VERSION then DurableLayout_default
    else {| shard_count := le_value (byte_range 20 24 header); routing_version := le_value (byte_range 24 28 header) |} in
  _ ← map_err (λ _, FCorrupt "shard configuration") (DurableLayout_validate layout);
  replication ←
    (if version =? REPLICATION_VERSION then
       if negb (bool_decide (byte_range 29 32 header = [x00; x00; x00]))
       then Err (FCorrupt "replication reserved field")
       else
         r ← ok_or (FCorrupt "replication role") (role_of (le_value (byte_range 28 29 header)));
         Ok (Some {| role := r; epoch := byte_range 32 48 header |})
     else Ok None);
  Ok {| h_sequence := le_value (byte_range 12 20 header); h_layout := layout; h_format_version := version;
        h_bytes := bytes_; h_replication := replication |}.

Definition read_header_with_layout (input : bytes) : result FormatError (Header * bytes) :=
  '(prefix, input) ← ok_or FHeader (read_exact 12 input);
  if negb (bool_decide (take 8 prefix = MAGIC)) then Err FHeader
  else
    let version := le_value (byte_range 8 12 prefix) in
    bytes_ ← ok_or (FVersion version)
      (if version =? VERSION then Some HEADER_BYTES
       else if version =? LAYOUT_VERSION then Some LAYOUT_HEADER_BYTES
       else if version =? REPLICATION_VERSION then Some REPLICATION_HEADER_BYTES
       else None);
    '(tail, input) ← ok_or FHeader (read_exact (bytes_ - 12) input);
    let header := prefix ++ tail in
    let n := Z.to_nat (bytes_ - 4) in
    if negb (checksum (take n header) =? le_value (drop n header)) then Err FHeader
    else h ← parse_header version bytes_ header; Ok (h, input).
Definition read_header (input : bytes) : result FormatError (Z * bytes) :=
  '(h, input) ← read_header_with_layout input; Ok (h_sequence h, input).

(** ** Records *)

Inductive FRecord :=
| Snapshot (mutation : Mutation)
| Seal (sequence entries digest : Z)
| Batch (sequence : Z) (batch : ResolvedBatch).

Inductive Next := End | IncompleteTail | NextRecord (record : FRecord) (rest : bytes).

(** ** Sizes *)

Definition blob_size (value : bytes) : result FormatError Z :=
  if U32_MAX <? zlen value then Err FLimit else ok_or FLimit (u_add (zlen value) 4).

Definition format_value_size (v : Value) : result FormatError Z :=
  match v with
  | VMemory _ => Err (FVersion 2)
  | VString value => blob_size value
  | VSortedSet members =>
      if SortedSet_is_empty members || (U32_MAX <? SortedSet_len members)
      then Err (FCorrupt "sorted member count")
      else fold_ok (λ size e, blob ← blob_size e.2; ok_or FLimit (u_add2 size blob 8)) 4 (SortedSet_iter members)
  | VSet members =>
      if bool_decide (members = ∅) || (U32_MAX <? Z.of_nat (size members))
      then Err (FCorrupt "member count")
      else fold_ok (λ size member, blob ← blob_size member; ok_or FLimit (u_add size blob)) 4
             (btree_set_iter members)
  | VList values =>
      if bool_decide (values = []) || (U32_MAX <? zlen values)
      then Err (FCorrupt "element count")
      else fold_ok (λ size value, blob ← blob_size value; ok_or FLimit (u_add size blob)) 4 values
  | VHash fields =>
      if bool_decide (fields = ∅) || (U32_MAX <? Z.of_nat (size fields))
      then Err (FCorrupt "field count")
      else fold_ok (λ size e,
             field ← blob_size e.1;
             ok_or FLimit (x ← u_add size field;
                           value ← match blob_size e.2 with Ok v => Some v | Err _ => None end;
                           u_add x value)) 4 (btree_iter fields)
  end.

Definition mutation_size (mu : Mutation) : result FormatError Z :=
  extra ← match mu with
          | Put _ value _ => size ← format_value_size value; Ok (u_add size 9)
          | Delete _ => Ok (Some 0)
          end;
  if U32_MAX <? zlen (Mutation_key mu) then Err FLimit
  else ok_or FLimit (size ← u_add (zlen (Mutation_key mu)) 5; extra ← extra; u_add size extra).

(** ** Encoding *)

Definition mutation_tag (mu : Mutation) : result FormatError byte :=
  match mu with
  | Put _ (VString _) _ => Ok x01
  | Delete _ => Ok x02
  | Put _ (VHash _) _ => Ok x03
  | Put _ (VList _) _ => Ok x04
  | Put _ (VSet _) _ => Ok x05
  | Put _ (VSortedSet _) _ => Ok x06
  | Put _ (VMemory _) _ => Err (FVersion 2)
  end.

Definition encode_value (v : Value) : result FormatError bytes :=
  match v with
  | VMemory _ => Err (FVersion 2)
  | VString value => Ok (encode_blob value)
  | VSortedSet members =>
      Ok (u32_le (SortedSet_len members)
          ++ mjoin ((λ e, encode_blob e.2 ++ u64_le (to_bits e.1)) <$> SortedSet_iter members))
  | VSet members =>
      Ok (u32_le (Z.of_nat (size members)) ++ mjoin (encode_blob <$> btree_set_iter members))
  | VList values => Ok (u32_le (zlen values) ++ mjoin (encode_blob <$> values))
  | VHash fields =>
      Ok (u32_le (Z.of_nat (size fields))
          ++ mjoin ((λ e, encode_blob e.1 ++ encode_blob e.2) <$> btree_iter fields))
  end.

Definition encode_deadline (d : option Z) : bytes :=
  (match d with Some _ => x01 | None => x00 end) :: i64_le (default 0 d).

Definition encode_mutation (mu : Mutation) : result FormatError bytes :=
  tag ← mutation_tag mu;
  body ← match mu with
         | Put _ value expires_at_unix_ms =>
             v ← encode_value value; Ok (v ++ encode_deadline expires_at_unix_ms)
         | Delete _ => Ok []
         end;
  Ok (tag :: encode_blob (Mutation_key mu) ++ body).

Definition origin_byte (o : MutationOrigin) : byte :=
  match o with Client => x01 | Expiration => x02 end.

Definition record_size (r : FRecord) (l : Limits) : result FormatError Z :=
  size ← match r with
         | Snapshot mu => size ← mutation_size mu; Ok (u_add 1 size)
         | Seal _ _ _ => Ok (Some 21)
         | Batch _ batch =>
             let n := zlen (mutations batch) in
             if (n =? 0) || (max_mutations l <? n) || (U32_MAX <? n) then Err FLimit
             else Ok (try_fold (λ size mu,
                        extra ← match mutation_size mu with Ok n => Some n | Err _ => None end;
                        u_add size extra) 14 (mutations batch))
         end;
  ok_or FLimit size.

Definition record_body (r : FRecord) : result FormatError bytes :=
  match r with
  | Snapshot mu => m ← encode_mutation mu; Ok (x01 :: m)
  | Seal sequence entries digest =>
      Ok (x02 :: u64_le sequence ++ u64_le entries ++ u32_le digest)
  | Batch sequence batch =>
      ms ← try_map encode_mutation (mutations batch);
      Ok (x03 :: u64_le sequence ++ [origin_byte (origin batch)]
          ++ u32_le (zlen (mutations batch)) ++ mjoin ms)
  end.

Definition encode_record (r : FRecord) (l : Limits) : result FormatError bytes :=
  size ← record_size r l;
  if (max_record_bytes l <? size) || (MAX_RECORD_BYTES <? size) then Err FLimit
  else body ← record_body r; Ok (frame size body).

(** ** Decoding *)

(** A count bounded by the bytes that remain. *)
Definition take_count (what : string) (item : Z) (c : bytes) : result FormatError (Z * bytes) :=
  '(count, c) ← take_u32 c;
  if (count =? 0) || (zlen c / item <? count) then Err (FCorrupt what) else Ok (count, c).

Definition take_zmember (z : SortedSet) (c : bytes) : result FormatError (SortedSet * bytes) :=
  '(member, c) ← take_blob c;
  '(bits, c) ← take_u64 c;
  score ← ok_or (FCorrupt "score NaN") (Score_new (from_bits bits));
  let '(z, (inserted, _)) := SortedSet_insert z member score in
  if negb inserted then Err (FCorrupt "duplicate sorted-set member") else Ok (z, c).
Definition take_set_member (s : gset bytes) (c : bytes) : result FormatError (gset bytes * bytes) :=
  '(member, c) ← take_blob c;
  if bool_decide (member ∈ s) then Err (FCorrupt "duplicate member") else Ok ({[member]} ∪ s, c).
Definition take_element (l : list bytes) (c : bytes) : result FormatError (list bytes * bytes) :=
  '(value, c) ← take_blob c; Ok (l ++ [value], c).
Definition take_field (m : gmap bytes bytes) (c : bytes) : result FormatError (gmap bytes bytes * bytes) :=
  '(field, c) ← take_blob c;
  '(value, c) ← take_blob c;
  match m !! field with
  | Some _ => Err (FCorrupt "duplicate field")
  | None => Ok (<[field := value]> m, c)
  end.

Definition take_value (tag : Z) (c : bytes) : result FormatError (Value * bytes) :=
  if tag =? 1 then '(value, c) ← take_blob c; Ok (VString value, c)
  else if tag =? 6 then
    '(count, c) ← take_count "sorted member count" 12 c;
    '(members, c) ← take_loop (Z.to_nat count) take_zmember SortedSet_default c;
    Ok (VSortedSet members, c)
  else if tag =? 5 then
    '(count, c) ← take_count "member count" 4 c;
    '(members, c) ← take_loop (Z.to_nat count) take_set_member ∅ c;
    Ok (VSet members, c)
  else if tag =? 4 then
    '(count, c) ← take_count "element count" 4 c;
    '(values, c) ← take_loop (Z.to_nat count) take_element [] c;
    Ok (VList values, c)
  else
    '(count, c) ← take_count "field count" 8 c;
    '(fields, c) ← take_loop (Z.to_nat count) take_field ∅ c;
    Ok (VHash fields, c).

Definition take_deadline (c : bytes) : result FormatError (option Z * bytes) :=
  '(expires, c) ← take_byte c;
  '(deadline, c) ← take_i64 c;
  if (expires =? 0) && (deadline =? 0) then Ok (None, c)
  else if expires =? 1 then Ok (Some deadline, c)
  else Err (FCorrupt "deadline").

Definition take_mutation (c : bytes) : result FormatError (Mutation * bytes) :=
  '(tag, c) ← take_byte c;
  '(key, c) ← take_blob c;
  if (tag =? 1) || ((3 <=? tag) && (tag <=? 6)) then
    '(value, c) ← take_value tag c;
    '(deadline, c) ← take_deadline c;
    Ok (Put key value deadline, c)
  else if tag =? 2 then Ok (Delete key, c)
  else Err (FCorrupt "mutation type").

Definition take_origin (c : bytes) : result FormatError (MutationOrigin * bytes) :=
  '(z, c) ← take_byte c;
  if z =? 1 then Ok (Client, c) else if z =? 2 then Ok (Expiration, c) else Err (FCorrupt "source").

Definition take_batch_item (ms : list Mutation) (c : bytes) : result FormatError (list Mutation * bytes) :=
  '(mu, c) ← take_mutation c; Ok (ms ++ [mu], c).

Definition decode_record (l : Limits) (body : bytes) : result FormatError FRecord :=
  '(tag, c) ← take_byte body;
  '(record, c) ←
    (if tag =? 1 then '(mu, c) ← take_mutation c; Ok (Snapshot mu, c)
     else if tag =? 2 then
       '(sequence, c) ← take_u64 c;
       '(entries, c) ← take_u64 c;
       '(digest, c) ← take_u32 c;
       Ok (Seal sequence entries digest, c)
     else if tag =? 3 then
       '(sequence, c) ← take_u64 c;
       '(o, c) ← take_origin c;
       '(count, c) ← take_u32 c;
       if (count =? 0) || (max_mutations l <? count) || (zlen c / 5 <? count) then Err FLimit
       else
         '(ms, c) ← take_loop (Z.to_nat count) take_batch_item [] c;
         Ok (Batch sequence {| origin := o; mutations := ms |}, c)
     else Err (FCorrupt "record type"));
  if bool_decide (c = []) then Ok record else Err (FCorrupt "bytes extras").

Definition read_record (l : Limits) (input : bytes) : result FormatError Next :=
  framed ← read_frame l input;
  match framed with
  | NoFrame => Ok End
  | IncompleteFrame => Ok IncompleteTail
  | Body body rest => r ← decode_record l body; Ok (NextRecord r rest)
  end.

(** ** Sizes are exact *)

Lemma fold_ok_sum {A} (f : Z → A → result FormatError Z) (g : A → Z) (P : A → Prop) l b n :
  (∀ b x b', f b x = Ok b' → b' = b + g x ∧ P x) →
  fold_ok f b l = Ok n → n = b + zsum_with g l ∧ Forall P l.
Proof.
  intros Hf. revert b. induction l as [|x l IH]; intros b; cbn [fold_ok].
  { intros [= ->]. split; [cbn; lia|constructor]. }
  intros (b' & Hb & Hl)%bind_ok. apply Hf in Hb as [-> Hp]. apply IH in Hl as [-> Hl].
  change (zsum_with g (x :: l)) with (g x + zsum_with g l). split; [lia|by constructor].
Qed.
Lemma u_add_Some a b c : u_add a b = Some c → c = a + b.
Proof. intros H. by apply usize_checked_Some in H as [-> _]. Qed.
Lemma blob_size_ok v n : blob_size v = Ok n → n = 4 + zlen v ∧ zlen v <= U32_MAX.
Proof.
  unfold blob_size. destruct (Z.ltb_spec U32_MAX (zlen v)); [done|]. intros E%ok_or_ok%u_add_Some. lia.
Qed.
Lemma mjoin_zlen {A} (enc : A → bytes) l : zlen (mjoin (enc <$> l)) = zsum_with (λ x, zlen (enc x)) l.
Proof.
  induction l as [|x l IH]; [done|]. change (mjoin (enc <$> x :: l)) with (enc x ++ mjoin (enc <$> l)).
  rewrite zlen_app, IH. done.
Qed.

(** What an encodable value satisfies: its length is the announced one, its blobs and
    its count fit their fields. *)
Definition value_fits (v : Value) : Prop :=
  match v with
  | VMemory _ => False
  | VString value => zlen value <= U32_MAX
  | VHash fields =>
      Z.of_nat (size fields) <= U32_MAX ∧
      Forall (λ e, zlen e.1 <= U32_MAX ∧ zlen e.2 <= U32_MAX) (btree_iter fields)
  | VList values => zlen values <= U32_MAX ∧ Forall (λ x, zlen x <= U32_MAX) values
  | VSet members =>
      Z.of_nat (size members) <= U32_MAX ∧ Forall (λ x, zlen x <= U32_MAX) (btree_set_iter members)
  | VSortedSet members =>
      SortedSet_len members <= U32_MAX ∧ Forall (λ e, zlen e.2 <= U32_MAX) (SortedSet_iter members)
  end.

Lemma counted_zlen {A} (enc : A → bytes) (g : A → Z) n l :
  (∀ x, zlen (enc x) = g x) → zlen (u32_le n ++ mjoin (enc <$> l)) = 4 + zsum_with g l.
Proof.
  intros H. rewrite zlen_app, mjoin_zlen. unfold u32_le. rewrite le_bytes_zlen. f_equal.
  apply zsum_with_ext. auto.
Qed.
Lemma blob_step (b : Z) (x : bytes) b' :
  (blob ← blob_size x; ok_or FLimit (u_add b blob)) = Ok b' → b' = b + (4 + zlen x) ∧ zlen x <= U32_MAX.
Proof. by intros (n & [-> Hx]%blob_size_ok & Hb%ok_or_ok%u_add_Some)%bind_ok. Qed.

Lemma format_value_size_ok v n :
  format_value_size v = Ok n → value_fits v ∧ ∃ enc, encode_value v = Ok enc ∧ zlen enc = n.
Proof.
  destruct v as [value|fields|values|members|members|c]; cbn [format_value_size encode_value value_fits]; intros H; [| | | | |done].
  - apply blob_size_ok in H as [-> Hv]. split; [done|]. eexists. split; [done|]. by rewrite encode_blob_zlen.
  - destruct (_ || _) eqn:Ec; [done|].
    apply (fold_ok_sum _ (λ e, (4 + zlen e.1) + (4 + zlen e.2)) (λ e, zlen e.1 <= U32_MAX ∧ zlen e.2 <= U32_MAX)) in H as [-> Hf].
    + split; [split; [lia|done]|]. eexists. split; [done|]. apply counted_zlen. intros e. by rewrite zlen_app, !encode_blob_zlen.
    + intros b e b' (x & [-> Hx]%blob_size_ok & Hb)%bind_ok. apply ok_or_ok, bind_Some in Hb as (y & ->%u_add_Some & Hb).
      apply bind_Some in Hb as (z & Hz & ->%u_add_Some). destruct (blob_size e.2) eqn:E; [|done]. injection Hz as ->.
      apply blob_size_ok in E as [-> ?]. split; [lia|done].
  - destruct (_ || _) eqn:Ec; [done|]. apply (fold_ok_sum _ _ _ _ _ _ blob_step) in H as [-> Hf].
    split; [split; [lia|done]|]. eexists. split; [done|]. apply counted_zlen, encode_blob_zlen.
  - destruct (_ || _) eqn:Ec; [done|]. apply (fold_ok_sum _ _ _ _ _ _ blob_step) in H as [-> Hf].
    split; [split; [lia|done]|]. eexists. split; [done|]. apply counted_zlen, encode_blob_zlen.
  - destruct (_ || _) eqn:Ec; [done|].
    apply (fold_ok_sum _ (λ e, 4 + zlen e.2 + 8) (λ e, zlen e.2 <= U32_MAX)) in H as [-> Hf].
    + split; [split; [lia|done]|]. eexists. split; [done|]. apply counted_zlen. intros e. rewrite zlen_app, encode_blob_zlen.
      unfold u64_le. by rewrite le_bytes_zlen.
    + intros b e b' (x & [-> Hx]%blob_size_ok & Hb%ok_or_ok)%bind_ok. unfold u_add2 in Hb.
      apply bind_Some in Hb as (y & ->%u_add_Some & ->%u_add_Some). split; [lia|done].
Qed.

Lemma encode_deadline_zlen d : zlen (encode_deadline d) = 9.
Proof. unfold encode_deadline, i64_le. rewrite zlen_cons, le_bytes_zlen. done. Qed.

Definition mutation_fits (mu : Mutation) : Prop :=
  zlen (Mutation_key mu) <= U32_MAX ∧ match mu with Put _ v _ => value_fits v | Delete _ => True end.

Lemma mutation_size_ok mu n :
  mutation_size mu = Ok n → mutation_fits mu ∧ ∃ enc, encode_mutation mu = Ok enc ∧ zlen enc = n ∧ 5 <= n.
Proof.
  unfold mutation_size, mutation_fits, encode_mutation. pose proof (zlen_nonneg (Mutation_key mu)).
  intros (extra & He & Hn)%bind_ok. destruct (Z.ltb_spec U32_MAX (zlen (Mutation_key mu))); [done|].
  apply ok_or_ok, bind_Some in Hn as (x & ->%u_add_Some & Hn). apply bind_Some in Hn as (y & -> & ->%u_add_Some).
  destruct mu as [k v d|k]; cbn [Mutation_key] in *.
  - apply bind_ok in He as (size & Hv & E). injection E as E%u_add_Some. subst y.
    apply format_value_size_ok in Hv as (Hf & enc & Henc & Hl). split; [done|]. rewrite Henc.
    pose proof (zlen_nonneg enc). assert (∃ tag, mutation_tag (Put k v d) = Ok tag) as [tag ->] by (destruct v; try done; by eexists).
    eexists. split; [done|]. rewrite zlen_cons, !zlen_app, encode_blob_zlen, encode_deadline_zlen. lia.
  - injection He as <-. split; [done|]. eexists. split; [done|]. rewrite zlen_cons, zlen_app, encode_blob_zlen, zlen_nil. lia.
Qed.

(** ** Decoding an encoding *)

Lemma take_loop_ok {S A} (step : S → bytes → result FormatError (S * bytes)) (upd : S → A → S) (enc : A → bytes) l s rest :
  (∀ l1 x l2 rest, l = l1 ++ x :: l2 →
     step (fold_left upd l1 s) (enc x ++ rest) = Ok (fold_left upd (l1 ++ [x]) s, rest)) →
  take_loop (length l) step s (mjoin (enc <$> l) ++ rest) = Ok (fold_left upd l s, rest).
Proof.
  revert s. induction l as [|x l IH]; intros s Hs; [done|].
  change (mjoin (enc <$> x :: l)) with (enc x ++ mjoin (enc <$> l)). rewrite <- app_assoc. cbn [length take_loop].
  rewrite (Hs [] x l) by done. cbn [mbind result_bind fold_left app]. apply IH. intros l1 y l2 r ->.
  by rewrite (Hs (x :: l1) y l2).
Qed.

Lemma take_count_ok what item n s rest :
  1 <= n <= U32_MAX → 1 <= item → item * n <= zlen s →
  take_count what item (u32_le n ++ s ++ rest) = Ok (n, s ++ rest).
Proof.
  intros Hl Hi Hs. unfold take_count. rewrite take_u32_app by lia. cbn [mbind result_bind].
  rewrite zlen_app. pose proof (zlen_nonneg rest).
  assert (n <= (zlen s + zlen rest) / item) by (apply Z.div_le_lower_bound; lia).
  destruct ((n =? 0) || _) eqn:E; [lia|done].
Qed.

(** A counted list of items of at least [item] bytes. *)
Lemma counted_ok {S A B} what item (step : S → bytes → result FormatError (S * bytes)) (upd : S → A → S)
    (enc : A → bytes) (k : S → B) l n s rest :
  l ≠ [] → n = zlen l → n <= U32_MAX → 1 <= item → (∀ x, item <= zlen (enc x)) →
  (∀ l1 x l2 rest, l = l1 ++ x :: l2 →
     step (fold_left upd l1 s) (enc x ++ rest) = Ok (upd (fold_left upd l1 s) x, rest)) →
  ('(count, c) ← take_count what item (u32_le n ++ mjoin (enc <$> l) ++ rest);
   '(s, c) ← take_loop (Z.to_nat count) step s c; Ok (k s, c)) = Ok (k (fold_left upd l s), rest).
Proof.
  intros Hne -> Hn Hi Henc Hstep. assert (1 <= zlen l) by (destruct l; [done|]; rewrite zlen_cons; pose proof (zlen_nonneg l); lia).
  rewrite take_count_ok; [|lia|done|].
  - cbn [mbind result_bind]. unfold zlen at 1. rewrite Nat2Z.id. rewrite (take_loop_ok step upd enc); [done|].
    intros l1 x l2 r Hl. rewrite fold_left_app. by eapply Hstep.
  - rewrite mjoin_zlen. clear -Hi Henc. induction l as [|x l IH]; [rewrite zlen_nil; change (item * 0 <= 0); lia|]. rewrite zlen_cons.
    change (zsum_with _ (x :: l)) with (zlen (enc x) + zsum_with (λ x, zlen (enc x)) l). pose proof (Henc x). lia.
Qed.

Lemma fold_insert {K V} `{Countable K} (l : list (K * V)) (m : gmap K V) :
  fold_left (λ m e, <[e.1 := e.2]> m) l m = with_entries l m.
Proof.
  revert m. induction l as [|[k v] l IH]; intros m; [symmetry; apply (left_id_L ∅ (∪))|].
  cbn [fold_left fst snd]. by rewrite IH, with_entries_cons.
Qed.
Lemma with_entries_iter {K V} `{Countable K} `{Cmp K} (m : gmap K V) : with_entries (btree_iter m) ∅ = m.
Proof.
  unfold with_entries. rewrite (right_id_L ∅ (∪)). rewrite <- (list_to_map_iter m) at 2. symmetry. apply list_to_map_proper.
  - apply btree_iter_NoDup.
  - apply Permutation_rev.
Qed.
Lemma zset_ext z z' : zset_ok z → zset_ok z' → z_members z = z_members z' → z = z'.
Proof.
  destruct z as [m o], z' as [m' o']. intros [Ho _] [Ho' _] E. cbn in *. subst m'. f_equal. apply set_eq. intros [s k]. by rewrite Ho, Ho'.
Qed.

Lemma take_field_ok (l1 : list (bytes * bytes)) e rest :
  zlen e.1 <= U32_MAX → zlen e.2 <= U32_MAX → e.1 ∉ l1.*1 →
  take_field (fold_left (λ m e, <[e.1 := e.2]> m) l1 ∅) ((encode_blob e.1 ++ encode_blob e.2) ++ rest) =
  Ok (<[e.1 := e.2]> (fold_left (λ m e, <[e.1 := e.2]> m) l1 ∅), rest).
Proof.
  intros H1 H2 Hk. unfold take_field. rewrite <- app_assoc, take_blob_app by done. cbn [mbind result_bind].
  rewrite take_blob_app by done. cbn [mbind result_bind]. rewrite fold_insert. unfold with_entries.
  by rewrite (right_id_L ∅ (∪)), list_to_map_dom.
Qed.
Lemma take_set_member_ok (l1 : list bytes) x rest :
  zlen x <= U32_MAX → x ∉ l1 →
  take_set_member (fold_left (λ s x, {[x]} ∪ s) l1 ∅) (encode_blob x ++ rest) =
  Ok ({[x]} ∪ fold_left (λ s x, {[x]} ∪ s) l1 ∅, rest).
Proof.
  intros Hx Hk. unfold take_set_member. rewrite take_blob_app by done. cbn [mbind result_bind].
  rewrite bool_decide_eq_false_2; [done|]. intros Hin. apply Hk. revert Hin.
  assert (∀ (s : gset bytes), x ∈ fold_left (λ s x, {[x]} ∪ s) l1 s → x ∈ l1 ∨ x ∈ s) as Hf.
  { clear. induction l1 as [|y l1 IH]; cbn; [by right|]. intros s [H|H]%IH; set_solver. }
  intros [H|H]%Hf; [done|set_solver].
Qed.
Lemma fold_set (l : list bytes) s : fold_left (λ s x, {[x]} ∪ s) l s = (list_to_set l ∪ s : gset bytes).
Proof. revert s. induction l as [|x l IH]; intros s; cbn; [set_solver|]. rewrite IH. set_solver. Qed.

Definition zset_put (z : SortedSet) (e : f64 * bytes) : SortedSet := (SortedSet_insert z e.2 e.1).1.
Lemma zset_default_ok : zset_ok SortedSet_default.
Proof. split; [|done]. intros s m. cbn. set_solver. Qed.
Lemma zset_put_fold l z :
  zset_ok z → Forall (λ e, score_ok e.1) l →
  zset_ok (fold_left zset_put l z) ∧
  z_members (fold_left zset_put l z) = with_entries ((λ e, (e.2, e.1)) <$> l) (z_members z).
Proof.
  intros Hz Hl. revert z Hz. induction Hl as [|[s m] l Hs Hl IH]; intros z Hz.
  { split; [done|]. symmetry. apply (left_id_L ∅ (∪)). }
  cbn [fold_left fmap list_fmap fst snd]. rewrite with_entries_cons. unfold zset_put at 2 4. cbn [fst snd].
  destruct (SortedSet_insert_ok z m s Hz Hs) as (z' & u & -> & Hz' & Hm & _). cbn [fst]. rewrite <- Hm. by apply IH.
Qed.
Lemma Score_new_ok s : score_ok s → Score_new s = Some s.
Proof. intros [Hn Hz]. unfold Score_new. rewrite Hn. destruct (is_zero s); [by rewrite Hz|done]. Qed.
Lemma take_zmember_ok z e rest :
  zset_ok z → score_ok e.1 → zlen e.2 <= U32_MAX → z_members z !! e.2 = None →
  take_zmember z ((encode_blob e.2 ++ u64_le (to_bits e.1)) ++ rest) = Ok (zset_put z e, rest).
Proof.
  intros Hz Hs Hl Hn. unfold take_zmember. rewrite <- app_assoc, take_blob_app by done. cbn [mbind result_bind].
  rewrite take_u64_app by apply to_bits_bound. cbn [mbind result_bind].
  rewrite from_to_bits, Score_new_ok by done. cbn [ok_or mbind result_bind]. unfold zset_put.
  destruct (SortedSet_insert_ok z e.2 e.1 Hz Hs) as (z' & u & -> & _). by rewrite bool_decide_eq_true_2.
Qed.

Lemma zset_iter_swap z : zset_ok z → (λ e, (e.2, e.1)) <$> SortedSet_iter z ≡ₚ map_to_list (z_members z).
Proof.
  intros Hz. rewrite zset_iter by done. unfold zsorted. rewrite merge_sort_Permutation, <- list_fmap_compose.
  rewrite (list_fmap_ext _ id); [by rewrite list_fmap_id|]. by intros i [] _.
Qed.
Lemma zset_rebuild z : zset_ok z → fold_left zset_put (SortedSet_iter z) SortedSet_default = z.
Proof.
  intros Hz. destruct (zset_put_fold (SortedSet_iter z) SortedSet_default) as [Ho Hm]; [apply zset_default_ok| |].
  { apply Forall_forall. intros [s m] Hin%btree_set_iter_elem. apply Hz in Hin. by apply Hz in Hin. }
  apply zset_ext; [done..|]. rewrite Hm. unfold with_entries. cbn [z_members SortedSet_default].
  rewrite (right_id_L ∅ (∪)), <- (list_to_map_to_list (z_members z)). symmetry. apply list_to_map_proper; [apply NoDup_fst_map_to_list|].
  by rewrite <- Permutation_rev, zset_iter_swap.
Qed.

Lemma NoDup_app_not_elem {A} (l1 : list A) x l2 : NoDup (l1 ++ x :: l2) → x ∉ l1.
Proof. intros (_ & Hd & _)%NoDup_app Hin. by eapply Hd; [|left]. Qed.

Lemma take_hash_ok what fields rest :
  value_ok (VHash fields) → value_fits (VHash fields) →
  ('(count, c) ← take_count what 8 (u32_le (Z.of_nat (size fields)) ++
      mjoin ((λ e, encode_blob e.1 ++ encode_blob e.2) <$> btree_iter fields) ++ rest);
   '(s, c) ← take_loop (Z.to_nat count) take_field ∅ c; Ok (VHash s, c)) = Ok (VHash fields, rest).
Proof.
  intros Hv [Hn Hf]. rewrite (counted_ok _ _ _ (λ m e, <[e.1 := e.2]> m)).
  - by rewrite fold_insert, with_entries_iter.
  - intros E. apply Hv. by rewrite <- (list_to_map_iter fields), E.
  - unfold zlen. by rewrite btree_iter_perm, length_map_to_list.
  - done.
  - lia.
  - intros e. rewrite zlen_app, !encode_blob_zlen. pose proof (zlen_nonneg e.1). pose proof (zlen_nonneg e.2). lia.
  - intros l1 e l2 r El. rewrite El in Hf. apply Forall_app in Hf as [_ [[? ?] _]%Forall_cons]. apply take_field_ok; [done..|].
    pose proof (btree_iter_NoDup fields) as Hd. rewrite El, fmap_app in Hd. by apply NoDup_app_not_elem in Hd.
Qed.
Lemma take_list_ok what values rest :
  value_ok (VList values) → value_fits (VList values) →
  ('(count, c) ← take_count what 4 (u32_le (zlen values) ++ mjoin (encode_blob <$> values) ++ rest);
   '(s, c) ← take_loop (Z.to_nat count) take_element [] c; Ok (VList s, c)) = Ok (VList values, rest).
Proof.
  intros Hv [Hn Hf]. rewrite (counted_ok _ _ _ (λ l x, l ++ [x])); [|done..|lia| |].
  - by rewrite fold_left_snoc.
  - intros e. rewrite encode_blob_zlen. pose proof (zlen_nonneg e). lia.
  - intros l1 e l2 r El. rewrite El in Hf. apply Forall_app in Hf as [_ [? _]%Forall_cons]. unfold take_element.
    by rewrite take_blob_app.
Qed.
Lemma take_set_ok what members rest :
  value_ok (VSet members) → value_fits (VSet members) →
  ('(count, c) ← take_count what 4 (u32_le (Z.of_nat (size members)) ++
      mjoin (encode_blob <$> btree_set_iter members) ++ rest);
   '(s, c) ← take_loop (Z.to_nat count) take_set_member ∅ c; Ok (VSet s, c)) = Ok (VSet members, rest).
Proof.
  intros Hv [Hn Hf]. rewrite (counted_ok _ _ _ (λ s x, {[x]} ∪ s)).
  - do 3 f_equal. rewrite fold_set, (right_id_L ∅ (∪)). apply set_eq. intros x.
    by rewrite elem_of_list_to_set, btree_set_iter_elem.
  - intros E. apply Hv. apply set_eq. intros x. rewrite <- btree_set_iter_elem, E. set_solver.
  - unfold zlen. by rewrite btree_set_iter_perm.
  - done.
  - lia.
  - intros e. rewrite encode_blob_zlen. pose proof (zlen_nonneg e). lia.
  - intros l1 e l2 r El. rewrite El in Hf. apply Forall_app in Hf as [_ [? _]%Forall_cons]. apply take_set_member_ok; [done|].
    pose proof (btree_set_iter_NoDup members) as Hd. rewrite El in Hd. by apply NoDup_app_not_elem in Hd.
Qed.

(** The members before [e] of a sorted set, read back. *)
Lemma zset_prefix z l1 e l2 :
  zset_ok z → SortedSet_iter z = l1 ++ e :: l2 →
  zset_ok (fold_left zset_put l1 SortedSet_default) ∧ score_ok e.1 ∧
  z_members (fold_left zset_put l1 SortedSet_default) !! e.2 = None.
Proof.
  intros Hz El. assert (Forall (λ e, score_ok e.1) (SortedSet_iter z)) as Hs.
  { apply Forall_forall. intros [s m] Hin%btree_set_iter_elem. apply Hz in Hin. by apply Hz in Hin. }
  rewrite El in Hs. apply Forall_app in Hs as [H1 [He _]%Forall_cons].
  destruct (zset_put_fold l1 SortedSet_default zset_default_ok H1) as [Ho Hm]. split_and!; [done..|].
  rewrite Hm. unfold with_entries. cbn [z_members SortedSet_default]. rewrite (right_id_L ∅ (∪)). apply list_to_map_dom.
  assert (NoDup ((λ e, (e.2, e.1)) <$> SortedSet_iter z).*1) as Hd by (rewrite zset_iter_swap by done; apply NoDup_fst_map_to_list).
  rewrite El, !fmap_app in Hd. by apply NoDup_app_not_elem in Hd.
Qed.
Lemma take_zset_ok what members rest :
  value_ok (VSortedSet members) → value_fits (VSortedSet members) →
  ('(count, c) ← take_count what 12 (u32_le (SortedSet_len members) ++
      mjoin ((λ e, encode_blob e.2 ++ u64_le (to_bits e.1)) <$> SortedSet_iter members) ++ rest);
   '(s, c) ← take_loop (Z.to_nat count) take_zmember SortedSet_default c; Ok (VSortedSet s, c)) =
  Ok (VSortedSet members, rest).
Proof.
  intros [Hne Hz] [Hn Hf]. pose proof (zset_iter_swap members Hz) as Hp. rewrite (counted_ok _ _ _ zset_put).
  - by rewrite zset_rebuild.
  - intros E. apply Hne. rewrite E in Hp. apply Permutation_nil_l in Hp. symmetry in Hp. by apply map_to_list_empty_iff.
  - unfold zlen, SortedSet_len. apply Permutation_length in Hp. rewrite length_fmap in Hp.
    by rewrite Hp, length_map_to_list.
  - done.
  - lia.
  - intros e. rewrite zlen_app, encode_blob_zlen. unfold u64_le. rewrite le_bytes_zlen. pose proof (zlen_nonneg e.2). lia.
  - intros l1 e l2 r El. destruct (zset_prefix members l1 e l2 Hz El) as (? & ? & ?).
    rewrite El in Hf. apply Forall_app in Hf as [_ [? _]%Forall_cons]. by apply take_zmember_ok.
Qed.

Lemma take_value_ok k v d tag enc rest :
  value_ok v → value_fits v → mutation_tag (Put k v d) = Ok tag → encode_value v = Ok enc →
  take_value (bz tag) (enc ++ rest) = Ok (v, rest).
Proof.
  destruct v as [value|fields|values|members|members|c]; intros Hv Hf [= <-] [= <-]; rewrite <- ?app_assoc.
  - change (take_value (bz x01)) with (λ c : bytes, '(value, c) ← take_blob c; Ok (VString value, c)). cbv beta.
    by rewrite take_blob_app.
  - by apply take_hash_ok.
  - by apply take_list_ok.
  - by apply take_set_ok.
  - by apply take_zset_ok.
Qed.

Definition deadline_ok (d : option Z) : Prop := match d with Some d => I64_MIN <= d <= I64_MAX | None => True end.
Lemma take_deadline_ok d rest : deadline_ok d → take_deadline (encode_deadline d ++ rest) = Ok (d, rest).
Proof.
  intros Hd. unfold take_deadline, encode_deadline. rewrite <- app_comm_cons, take_byte_app. cbn [mbind result_bind].
  rewrite take_i64_app by (destruct d; cbn in *; unfold I64_MIN, I64_MAX in *; lia). by destruct d.
Qed.

(** A mutation that a store produces. *)
Definition mutation_ok (mu : Mutation) : Prop :=
  match mu with Put _ v d => value_ok v ∧ deadline_ok d | Delete _ => True end.

Lemma take_mutation_ok mu enc rest :
  mutation_ok mu → mutation_fits mu → encode_mutation mu = Ok enc → take_mutation (enc ++ rest) = Ok (mu, rest).
Proof.
  unfold encode_mutation. intros Hm [Hk Hf] (tag & Ht & (body & Hb & <-%Ok_inj)%bind_ok)%bind_ok.
  unfold take_mutation. rewrite <- app_comm_cons, take_byte_app. cbn [mbind result_bind].
  rewrite <- app_assoc, take_blob_app by done. cbn [mbind result_bind].
  destruct mu as [k v d|k].
  - apply bind_ok in Hb as (e & He & <-%Ok_inj). destruct Hm as [Hv Hd]. rewrite <- app_assoc.
    assert ((bz tag =? 1) || ((3 <=? bz tag) && (bz tag <=? 6)) = true) as -> by (destruct v; by simplify_eq/=).
    rewrite (take_value_ok k v d tag e) by done. cbn [mbind result_bind]. by rewrite take_deadline_ok.
  - injection Hb as <-. by injection Ht as <-.
Qed.

(** ** Round trips *)

Definition record_ok (r : FRecord) : Prop :=
  match r with
  | Snapshot mu => mutation_ok mu
  | Seal sequence entries digest => 0 <= sequence < 2 ^ 64 ∧ 0 <= entries < 2 ^ 64 ∧ 0 <= digest < 2 ^ 32
  | Batch sequence batch => 0 <= sequence < 2 ^ 64 ∧ Forall mutation_ok (mutations batch)
  end.

Lemma try_fold_sizes l b n :
  try_fold (λ size mu, extra ← match mutation_size mu with Ok n => Some n | Err _ => None end; u_add size extra) b l = Some n →
  Forall mutation_fits l ∧ ∃ encs, try_map encode_mutation l = Ok encs ∧ n = b + zlen (mjoin encs) ∧
    5 * zlen l <= zlen (mjoin encs).
Proof.
  revert b. induction l as [|mu l IH]; intros b; cbn [try_fold try_map].
  { intros [= ->]. split; [constructor|]. exists []. split; [done|]. cbn. unfold zlen. cbn. lia. }
  intros (x & (y & Hy & ->%u_add_Some)%bind_Some & Hl)%bind_Some. destruct (mutation_size mu) as [z|] eqn:Em; [|done].
  injection Hy as ->. apply mutation_size_ok in Em as (Hf & enc & -> & <- & ?).
  apply IH in Hl as (Hfl & encs & -> & -> & ?). split; [by constructor|]. exists (enc :: encs). split; [done|].
  change (mjoin (enc :: encs)) with (enc ++ mjoin encs). rewrite zlen_app, zlen_cons. lia.
Qed.

Lemma try_map_fmap {A B} (f : A → result FormatError B) l l' :
  try_map f l = Ok l' → ∀ g, (∀ x y, f x = Ok y → g x = y) → l' = g <$> l.
Proof.
  revert l'. induction l as [|x l IH]; intros l' H g Hg; cbn in *; [by injection H|].
  apply bind_ok in H as (y & Hy & (ys & Hys & <-%Ok_inj)%bind_ok). cbn. f_equal; [by rewrite (Hg x y)|by apply IH].
Qed.

(** The announced size of a record is the length of its body. *)
Lemma record_size_exact r l n :
  record_size r l = Ok n → ∃ body, record_body r = Ok body ∧ zlen body = n ∧ 1 <= n.
Proof.
  unfold record_size. destruct r as [mu|sequence entries digest|sequence batch]; cbn [record_body].
  - intros (x & (y & Hy & [= <-])%bind_ok & Hn%ok_or_ok%u_add_Some)%bind_ok.
    apply mutation_size_ok in Hy as (_ & enc & -> & <- & ?). eexists. split; [done|]. rewrite zlen_cons. lia.
  - intros [= <-]. eexists. split; [done|]. rewrite zlen_cons, !zlen_app. unfold u64_le, u32_le. by rewrite !le_bytes_zlen.
  - destruct (_ || _); [done|]. intros (x & [= <-] & Hn%ok_or_ok)%bind_ok.
    apply try_fold_sizes in Hn as (_ & encs & -> & -> & ?). eexists. split; [done|].
    pose proof (zlen_nonneg (mjoin encs)). rewrite zlen_cons, !zlen_app. unfold u64_le, u32_le. rewrite !le_bytes_zlen, zlen_cons, zlen_nil. lia.
Qed.

Lemma encode_record_ok r l enc :
  encode_record r l = Ok enc →
  ∃ size body, record_size r l = Ok size ∧ record_body r = Ok body ∧ enc = frame size body ∧ size = zlen body ∧ size_ok l size.
Proof.
  unfold encode_record. intros (size & Hs & H)%bind_ok. destruct (record_size_exact r l size Hs) as (body & Hb & Hl & H1).
  destruct (_ || _) eqn:E; [done|]. rewrite Hb in H. apply Ok_inj in H as <-. exists size, body. split_and!; [done..|].
  unfold size_ok. lia.
Qed.

Definition mutation_bytes (mu : Mutation) : bytes := match encode_mutation mu with Ok e => e | Err _ => [] end.

Lemma take_mutations_ok ms encs rest :
  Forall mutation_ok ms → Forall mutation_fits ms → try_map encode_mutation ms = Ok encs →
  take_loop (length ms) take_batch_item [] (mjoin encs ++ rest) = Ok (ms, rest).
Proof.
  intros Hok Hf He.
  assert (Forall (λ mu, encode_mutation mu = Ok (mutation_bytes mu)) ms ∧ encs = mutation_bytes <$> ms) as [Hm ->].
  { clear Hok Hf. revert encs He. induction ms as [|mu ms IH]; intros encs He; [by injection He as <-|].
    cbn in He. apply bind_ok in He as (e & He & (es & Hes & <-%Ok_inj)%bind_ok). destruct (IH es Hes) as [? ->].
    assert (mutation_bytes mu = e) as E by (unfold mutation_bytes; by rewrite He).
    split; [constructor; [by rewrite E|done]|cbn; by rewrite E]. }
  rewrite (take_loop_ok take_batch_item (λ ms mu, ms ++ [mu]) mutation_bytes ms).
  - by rewrite fold_left_snoc.
  - intros l1 mu l2 r ->. apply Forall_app in Hok as [_ [? _]%Forall_cons]. apply Forall_app in Hf as [_ [? _]%Forall_cons].
    apply Forall_app in Hm as [_ [? _]%Forall_cons]. rewrite fold_left_app. unfold take_batch_item.
    by rewrite (take_mutation_ok mu (mutation_bytes mu)).
Qed.

Lemma take_origin_ok o rest : take_origin (origin_byte o :: rest) = Ok (o, rest).
Proof. unfold take_origin. rewrite take_byte_app. by destruct o. Qed.

Lemma decode_record_ok r l size body :
  record_ok r → record_size r l = Ok size → record_body r = Ok body → decode_record l body = Ok r.
Proof.
  unfold record_size, decode_record. destruct r as [mu|sequence entries digest|sequence batch]; cbn [record_body record_ok].
  - intros Hok (x & (y & Hy & _)%bind_ok & _)%bind_ok (enc & He & <-%Ok_inj)%bind_ok.
    apply mutation_size_ok in Hy as (Hf & _). rewrite take_byte_app. cbn -[take_mutation].
    rewrite <- (app_nil_r enc), (take_mutation_ok mu) by done. done.
  - intros (H1 & H2 & H3) _ <-%Ok_inj. rewrite take_byte_app. cbn -[take_u64 take_u32 u64_le u32_le].
    rewrite take_u64_app by done. cbn [mbind result_bind]. rewrite take_u64_app by done. cbn [mbind result_bind].
    rewrite <- (app_nil_r (u32_le digest)), take_u32_app by (unfold U32_MAX; lia). done.
  - intros [Hs Hok] (x & Hx & Hn%ok_or_ok)%bind_ok (encs & He & <-%Ok_inj)%bind_ok.
    destruct (_ || _) eqn:Ec; [done|]. injection Hx as <-. apply try_fold_sizes in Hn as (Hf & encs' & He' & _ & H5).
    rewrite He' in He. injection He as ->. rewrite take_byte_app.
    change (bz x03 =? 1) with false. change (bz x03 =? 2) with false. change (bz x03 =? 3) with true. cbn [mbind result_bind].
    rewrite take_u64_app by done. cbn [mbind result_bind app]. rewrite take_origin_ok. cbn [mbind result_bind].
    rewrite take_u32_app by (pose proof (zlen_nonneg (mutations batch)); lia). cbn [mbind result_bind].
    assert (zlen (mutations batch) <= zlen (mjoin encs) / 5) by (apply Z.div_le_lower_bound; lia).
    destruct ((zlen (mutations batch) =? 0) || _ || (zlen (mjoin encs) / 5 <? _)) eqn:E; [lia|].
    replace (Z.to_nat (zlen (mutations batch))) with (length (mutations batch)) by (unfold zlen; lia).
    rewrite <- (app_nil_r (mjoin encs)), take_mutations_ok by done. cbn. by destruct batch.
Qed.

(** ** Headers *)

Lemma byte_range_mid a b L s x t :
  L = s ++ x ++ t → length s = a → length x = (b - a)%nat → byte_range a b L = x.
Proof. unfold byte_range. intros -> <- <-. by rewrite drop_app_length, take_app_length. Qed.
(** A field of a header, after the prefix [p]. *)
Ltac field p :=
  eapply (byte_range_mid _ _ _ p);
  [rewrite <- ?app_assoc; reflexivity|rewrite ?length_app; cbn; rewrite ?le_bytes_length; done
  |cbn; rewrite ?le_bytes_length; done].

Definition replication_bytes (replication : option ReplicationMetadata) : bytes :=
  match replication with Some r => role_byte (role r) :: [x00; x00; x00] ++ epoch r | None => [] end.
Definition replication_ok (replication : option ReplicationMetadata) : Prop :=
  match replication with Some r => length (epoch r) = 16%nat | None => True end.

(** A sealed header is split at its twelfth byte and at its checksum. *)
Lemma sealed_header_read version body rest total :
  zlen (MAGIC ++ u32_le version ++ body) + 4 = total →
  let h := MAGIC ++ u32_le version ++ body in
  ∃ tail, read_exact 12 (sealed_header h ++ rest) = Some (MAGIC ++ u32_le version, tail ++ rest) ∧
    read_exact (total - 12) (tail ++ rest) = Some (tail, rest) ∧
    (MAGIC ++ u32_le version) ++ tail = sealed_header h ∧
    take (Z.to_nat (total - 4)) (sealed_header h) = h ∧ drop (Z.to_nat (total - 4)) (sealed_header h) = u32_le (checksum h).
Proof.
  intros <- h. exists (body ++ u32_le (checksum h)).
  assert (sealed_header h = (MAGIC ++ u32_le version) ++ body ++ u32_le (checksum h)) as E
    by (unfold sealed_header, h at 1; by rewrite <- !app_assoc). rewrite E. split_and!.
  - rewrite <- (app_assoc (MAGIC ++ _)). change 12 with (zlen MAGIC + 4). replace (zlen MAGIC + 4) with (zlen (MAGIC ++ u32_le version)); [apply read_exact_app|].
    rewrite zlen_app. unfold u32_le. by rewrite le_bytes_zlen.
  - etransitivity; [|apply read_exact_app]. f_equal. rewrite !zlen_app. unfold u32_le. rewrite !le_bytes_zlen.
    change (zlen MAGIC) with 8. lia.
  - done.
  - rewrite <- E. unfold sealed_header. fold h. rewrite Z.add_simpl_r. unfold zlen. rewrite Nat2Z.id. apply take_app_length.
  - rewrite <- E. unfold sealed_header. fold h. rewrite Z.add_simpl_r. unfold zlen. rewrite Nat2Z.id. apply drop_app_length.
Qed.

Lemma validate_ok layout :
  map_err (λ _, FCorrupt "shard configuration") (DurableLayout_validate layout) = Ok tt →
  DurableLayout_validate layout = Ok tt ∧ 0 <= shard_count layout <= U32_MAX ∧ 0 <= routing_version layout <= U32_MAX.
Proof.
  intros H. assert (DurableLayout_validate layout = Ok tt) as Hv by (destruct (DurableLayout_validate layout) as [[]|]; done).
  split; [done|]. pose proof (validate_count layout Hv) as Hc. unfold MAX_SHARDS in Hc. unfold U32_MAX. split; [lia|].
  unfold DurableLayout_validate in Hv. apply bind_ok in Hv as (? & _ & Hv).
  destruct (Z.eqb_spec (routing_version layout) ROUTING_VERSION) as [->|]; [unfold ROUTING_VERSION; lia|done].
Qed.

Lemma parse_header_ok version total sequence layout replication :
  version = (match replication with Some _ => REPLICATION_VERSION | None => LAYOUT_VERSION end) →
  0 <= sequence < 2 ^ 64 → replication_ok replication →
  map_err (λ _, FCorrupt "shard configuration") (DurableLayout_validate layout) = Ok tt →
  parse_header version total
    (sealed_header (MAGIC ++ u32_le version ++ u64_le sequence ++ u32_le (shard_count layout) ++
                    u32_le (routing_version layout) ++ replication_bytes replication)) =
  Ok {| h_sequence := sequence; h_layout := layout; h_format_version := version; h_bytes := total;
        h_replication := replication |}.
Proof.
  intros Hver Hs Hr Hv. destruct (validate_ok layout Hv) as (_ & Hc & Hw).
  set (H := sealed_header _). unfold sealed_header in H. set (k := u32_le (checksum _)) in H.
  assert (byte_range 12 20 H = u64_le sequence) as E1 by (unfold H; field (MAGIC ++ u32_le version)).
  assert (byte_range 20 24 H = u32_le (shard_count layout)) as E2
    by (unfold H; field (MAGIC ++ u32_le version ++ u64_le sequence)).
  assert (byte_range 24 28 H = u32_le (routing_version layout)) as E3
    by (unfold H; field (MAGIC ++ u32_le version ++ u64_le sequence ++ u32_le (shard_count layout))).
  set (p := MAGIC ++ u32_le version ++ u64_le sequence ++ u32_le (shard_count layout) ++ u32_le (routing_version layout)).
  assert (H = p ++ replication_bytes replication ++ k) as EH by (unfold H, p; by rewrite <- !app_assoc).
  unfold parse_header. rewrite E1, E2, E3, !u32_le_value by done. rewrite u64_le_value by done.
  assert ((version =? VERSION) = false) as -> by (subst; by destruct replication).
  assert ({| shard_count := shard_count layout; routing_version := routing_version layout |} = layout) as -> by by destruct layout.
  rewrite Hv. cbn [mbind result_bind]. destruct replication as [[ro ep]|]; subst version; [|done].
  change (REPLICATION_VERSION =? REPLICATION_VERSION) with true. cbn [replication_bytes role epoch replication_ok] in *.
  assert (byte_range 29 32 H = [x00; x00; x00]) as E4 by (rewrite EH; field (p ++ [role_byte ro])).
  assert (byte_range 28 29 H = [role_byte ro]) as E5 by (rewrite EH; field p).
  assert (byte_range 32 48 H = ep) as E6 by (rewrite EH; field (p ++ [role_byte ro; x00; x00; x00])).
  rewrite E4, E5, E6. by destruct ro.
Qed.

Lemma header_version_read version sequence body rest total h :
  0 <= version <= U32_MAX →
  zlen (MAGIC ++ u32_le version ++ u64_le sequence ++ body) + 4 = total →
  (if version =? VERSION then Some HEADER_BYTES
   else if version =? LAYOUT_VERSION then Some LAYOUT_HEADER_BYTES
   else if version =? REPLICATION_VERSION then Some REPLICATION_HEADER_BYTES else None) = Some total →
  parse_header version total (sealed_header (MAGIC ++ u32_le version ++ u64_le sequence ++ body)) = Ok h →
  read_header_with_layout (sealed_header (MAGIC ++ u32_le version ++ u64_le sequence ++ body) ++ rest) = Ok (h, rest).
Proof.
  intros Hv Hl Ht Hp. destruct (sealed_header_read version (u64_le sequence ++ body) rest total Hl) as (tail & E1 & E2 & E3 & E4 & E5).
  unfold read_header_with_layout. rewrite E1. cbn [ok_or mbind result_bind].
  rewrite take_app_length', bool_decide_eq_true_2 by done. cbn [negb].
  assert (byte_range 8 12 (MAGIC ++ u32_le version) = u32_le version) as ->.
  { eapply (byte_range_mid _ _ _ MAGIC _ []); [by rewrite app_nil_r|done|apply le_bytes_length]. }
  rewrite u32_le_value by done. cbv zeta. rewrite Ht. cbn [ok_or mbind result_bind]. rewrite E2. cbn [ok_or mbind result_bind].
  rewrite E3, E4, E5. rewrite u32_le_value by (pose proof (checksum_range (MAGIC ++ u32_le version ++ u64_le sequence ++ body)); unfold U32_MAX; lia).
  rewrite Z.eqb_refl. cbn [negb]. by rewrite Hp.
Qed.

(** A header that the writer accepts is read back, and what follows is left. *)
Lemma header_ok sequence layout replication enc rest :
  0 <= sequence < 2 ^ 64 → replication_ok replication →
  write_header_with_replication sequence layout replication = Ok enc →
  read_header_with_layout (enc ++ rest) =
  Ok ({| h_sequence := sequence; h_layout := layout;
         h_format_version := match replication with Some _ => REPLICATION_VERSION | None => LAYOUT_VERSION end;
         h_bytes := zlen enc; h_replication := replication |}, rest).
Proof.
  intros Hs Hr (u & Hv & <-%Ok_inj)%bind_ok. destruct u. cbv zeta. fold (replication_bytes replication).
  eapply header_version_read; [by destruct replication| | |by apply parse_header_ok].
  - unfold sealed_header. by rewrite (zlen_app _ (u32_le (checksum _))).
  - unfold sealed_header. rewrite !zlen_app. unfold u32_le, u64_le. rewrite !le_bytes_zlen.
    destruct replication as [[ro ep]|]; cbn [replication_bytes replication_ok role epoch] in *; [|done].
    assert (zlen ep = 16) as E by (unfold zlen; lia). by rewrite zlen_cons, zlen_app, E.
Qed.

(** The encoder of version 1 is still read, as a single shard. *)
Lemma legacy_header_read sequence rest :
  0 <= sequence < 2 ^ 64 →
  read_header_with_layout (write_header sequence ++ rest) =
  Ok ({| h_sequence := sequence; h_layout := DurableLayout_default; h_format_version := VERSION;
         h_bytes := HEADER_BYTES; h_replication := None |}, rest).
Proof.
  intros Hs. unfold write_header. replace (MAGIC ++ u32_le VERSION ++ u64_le sequence)
    with (MAGIC ++ u32_le VERSION ++ u64_le sequence ++ []) by by rewrite app_nil_r.
  eapply header_version_read; [done|done|done|]. unfold parse_header. cbn [mbind result_bind].
  assert (byte_range 12 20 (sealed_header (MAGIC ++ u32_le VERSION ++ u64_le sequence ++ [])) = u64_le sequence) as E
    by (unfold sealed_header; rewrite app_nil_r; field (MAGIC ++ u32_le VERSION)).
  rewrite E, u64_le_value by done. done.
Qed.
