(* ===== verification/MemoryFormat.v ===== *)
(** * The AOF format, version 2 of the records

    Models src/persistence/memory_format.rs: the headers 4 and 5, and the codec of
    the records that carry memory collections, as full images or as edits.  The
    mutations of version 1 are embedded unchanged. *)

From Stdlib Require Import Strings.Byte Strings.String ZArith Lia.
From S2P Require Import Prelude Float Wire Score Memory Command Store StoreInv StoreSpec Mutation StoreExec Routing Format.

#[local] Open Scope Z_scope.

(** ** Headers *)

Definition RECORD_VERSION : Z := 2.
Definition MEMORY_HEADER_VERSION : Z := 4.
Definition MEMORY_REPLICATION_HEADER_VERSION : Z := 5.
Definition MEMORY_HEADER_BYTES : Z := 36.
Definition MEMORY_REPLICATION_HEADER_BYTES : Z := 56.

Record MHeader := {
  mh_sequence : Z;
  mh_layout : DurableLayout;
  mh_replication : option ReplicationMetadata
}.

Definition zero_epoch : bytes := replicate 16 x00.

Definition is_primary (r : Role) : bool := match r with Primary => true | Replica => false end.

Definition memory_encode_header (h : MHeader) : result FormatError bytes :=
  _ ← map_err (λ _, FCorrupt "layout") (DurableLayout_validate (mh_layout h));
  if match mh_replication h with
     | Some metadata => is_primary (role metadata) && bool_decide (epoch metadata = zero_epoch)
     | None => false
     end
  then Err (FCorrupt "primary epoch")
  else
    let version := match mh_replication h with
                   | Some _ => MEMORY_REPLICATION_HEADER_VERSION
                   | None => MEMORY_HEADER_VERSION
                   end in
    Ok (sealed_header
          (MAGIC ++ u32_le version ++ u64_le (mh_sequence h) ++ u32_le (shard_count (mh_layout h))
           ++ u32_le (routing_version (mh_layout h)) ++ u32_le RECORD_VERSION
           ++ match mh_replication h with
              | Some metadata => role_byte (role metadata) :: [x00; x00; x00] ++ epoch metadata
              | None => []
              end)).

(** The fields of a complete header whose checksum holds. *)
Definition memory_parse_header (version : Z) (header : bytes) : result FormatError MHeader :=
  let layout := {| shard_count := le_value (byte_range 20 24 header);
                   routing_version := le_value (byte_range 24 28 header) |} in
  _ ← map_err (λ _, FCorrupt "layout") (DurableLayout_validate layout);
  if negb (le_value (byte_range 28 32 header) =? RECORD_VERSION) then Err (FCorrupt "record version")
  else
    replication ←
      (if version =? MEMORY_REPLICATION_HEADER_VERSION then
         if negb (bool_decide (byte_range 33 36 header = [x00; x00; x00]))
         then Err (FCorrupt "reserved header bytes")
         else
           r ← ok_or (FCorrupt "role") (role_of (le_value (byte_range 32 33 header)));
           let e := byte_range 36 52 header in
           if is_primary r && bool_decide (e = zero_epoch) then Err (FCorrupt "primary epoch")
           else Ok (Some {| role := r; epoch := e |})
       else Ok None);
    Ok {| mh_sequence := le_value (byte_range 12 20 header); mh_layout := layout;
          mh_replication := replication |}.

(** A short input is an I/O error here. *)
Definition memory_read_header (input : bytes) : result FormatError (MHeader * bytes) :=
  '(prefix, input) ← ok_or FIo (read_exact 12 input);
  if negb (bool_decide (take 8 prefix = MAGIC)) then Err (FCorrupt "magic")
  else
    let version := le_value (byte_range 8 12 prefix) in
    length ← ok_or (FVersion version)
      (if version =? MEMORY_HEADER_VERSION then Some MEMORY_HEADER_BYTES
       else if version =? MEMORY_REPLICATION_HEADER_VERSION then Some MEMORY_REPLICATION_HEADER_BYTES
       else None);
    '(tail, input) ← ok_or FIo (read_exact (length - 12) input);
    let header := prefix ++ tail in
    let n := Z.to_nat (length - 4) in
    if negb (checksum (take n header) =? le_value (drop n header)) then Err (FCorrupt "header checksum")
    else h ← memory_parse_header version header; Ok (h, input).

(** ** Records *)

Inductive MMutation :=
| Legacy (mutation : Mutation)
| Image (key : bytes) (collection : Collection) (key_deadline : option Z)
| Delta (key : bytes) (descriptor : Descriptor) (edits : list Edit) (key_deadline : option Z).

Definition from_storage (mu : Mutation) : MMutation :=
  match mu with
  | Put key (VMemory collection) expires_at_unix_ms => Image key collection expires_at_unix_ms
  | _ => Legacy mu
  end.
Definition MMutation_key (mu : MMutation) : bytes :=
  match mu with Legacy mu => Mutation_key mu | Image key _ _ | Delta key _ _ _ => key end.

Inductive MRecord :=
| MSnapshot (mutation : MMutation)
| MSeal (sequence entries digest : Z)
| MBatch (sequence : Z) (origin : MutationOrigin) (mutations : list MMutation).

Inductive MNext := MEnd | MIncompleteTail | MNextRecord (record : MRecord) (rest : bytes).

(** The sums that the code leaves unchecked are small: the key and the edits have been
    validated. *)
Definition MMutation_encoded_bytes (mu : MMutation) : result FormatError Z :=
  match mu with
  | Legacy mu => mutation_size mu
  | Image key collection _ =>
      _ ← map_err (λ _, FCorrupt "memory image") (validate_key collection key);
      Ok (5 + zlen key + c_encoded_bytes collection + 9)
  | Delta key descriptor edits _ =>
      if (zlen key =? 0) || (256 <? zlen key) || (MAX_EDITS <? zlen edits)
      then Err (FCorrupt "memory delta bounds")
      else
        _ ← map_err (λ _, FCorrupt "memory delta") (validate_edits descriptor edits);
        fold_ok (λ size edit, ok_or FLimit (u_add size (Edit_encoded_bytes edit)))
          (18 + zlen key + Descriptor_encoded_bytes descriptor) edits
  end.

(** The sizes of a batch, which also refuses a repeated key. *)
Definition batch_size_step (acc : gset bytes * Z) (mu : MMutation) : result FormatError (gset bytes * Z) :=
  if bool_decide (MMutation_key mu ∈ acc.1) then Err (FCorrupt "duplicate batch key")
  else
    n ← MMutation_encoded_bytes mu;
    size ← ok_or FLimit (u_add acc.2 n);
    Ok ({[MMutation_key mu]} ∪ acc.1, size).

Definition memory_record_size (r : MRecord) (l : Limits) : result FormatError Z :=
  match r with
  | MSnapshot (Delta _ _ _ _) => Err (FCorrupt "delta snapshot")
  | MSnapshot mu => n ← MMutation_encoded_bytes mu; ok_or FLimit (u_add n 1)
  | MSeal _ _ _ => Ok 21
  | MBatch _ _ ms =>
      if (zlen ms =? 0) || (max_mutations l <? zlen ms) || (U32_MAX <? zlen ms) then Err FLimit
      else acc ← fold_ok batch_size_step (∅, 14) ms; Ok acc.2
  end.

(** ** Encoding *)

Definition encode_descriptor (d : Descriptor) : bytes :=
  u32_le 1 ++ u32_le (dimension d) ++ [x01; x01]
  ++ mjoin (encode_blob <$> [provider d; model d; revision d; transform d]).

Definition encode_scalar (s : Scalar) : bytes :=
  match s with
  | ScalarBytes value => x01 :: encode_blob value
  | ScalarInteger value => x02 :: i64_le value
  | ScalarBool value => [x03; if value then x01 else x00]
  end.

Definition encode_member (m : Member) (dimension : Z) : bytes :=
  encode_blob (m_id m) ++ encode_blob (m_namespace m) ++ encode_blob (m_content m)
  ++ u32_le dimension ++ m_vector m ++ encode_deadline (m_deadline m)
  ++ u32_le (Z.of_nat (size (m_metadata m)))
  ++ mjoin ((λ e, encode_blob e.1 ++ encode_scalar e.2) <$> btree_iter (m_metadata m))
  ++ u32_le (Z.of_nat (size (m_provenance m)))
  ++ mjoin ((λ e, encode_blob e.1 ++ encode_blob e.2) <$> btree_iter (m_provenance m)).

Definition encode_edit (dimension : Z) (e : Edit) : bytes :=
  match e with
  | Upsert m => x01 :: encode_member m dimension
  | Remove id => x02 :: encode_blob id
  end.

Definition memory_encode_mutation (mu : MMutation) : result FormatError bytes :=
  match mu with
  | Legacy mu => encode_mutation mu
  | Image key collection key_deadline =>
      let d := c_descriptor collection in
      Ok (x07 :: encode_blob key ++ encode_descriptor d ++ u32_le (retained_count collection)
          ++ mjoin ((λ m, encode_member m (dimension d)) <$> (btree_iter (c_members collection)).*2)
          ++ encode_deadline key_deadline)
  | Delta key d edits key_deadline =>
      Ok (x08 :: encode_blob key ++ encode_descriptor d ++ u32_le (zlen edits)
          ++ mjoin (encode_edit (dimension d) <$> edits) ++ encode_deadline key_deadline)
  end.

Definition memory_record_body (r : MRecord) : result FormatError bytes :=
  match r with
  | MSnapshot mu => m ← memory_encode_mutation mu; Ok (x01 :: m)
  | MSeal sequence entries digest =>
      Ok (x02 :: u64_le sequence ++ u64_le entries ++ u32_le digest)
  | MBatch sequence o ms =>
      encs ← try_map memory_encode_mutation ms;
      Ok (x03 :: u64_le sequence ++ [origin_byte o] ++ u32_le (zlen ms) ++ mjoin encs)
  end.

Definition memory_encode (r : MRecord) (l : Limits) : result FormatError bytes :=
  size ← memory_record_size r l;
  if (max_record_bytes l <? size) || (MAX_RECORD_BYTES <? size) then Err FLimit
  else body ← memory_record_body r; Ok (frame size body).

(** ** Decoding *)

Definition take_bounded (minimum maximum : Z) (c : bytes) : result FormatError (bytes * bytes) :=
  '(size, c) ← take_u32 c;
  if (size <? minimum) || (maximum <? size) then Err (FCorrupt "memory blob length")
  else take_bytes size c.

Definition take_memory_deadline (member : bool) (c : bytes) : result FormatError (option Z * bytes) :=
  '(flag, c) ← take_byte c;
  '(value, c) ← take_i64 c;
  if (flag =? 0) && (value =? 0) then Ok (None, c)
  else if (flag =? 1) && (negb member || (0 <? value)) then Ok (Some value, c)
  else Err (FCorrupt "deadline").

Definition take_descriptor (c : bytes) : result FormatError (Descriptor * bytes) :=
  '(schema, c) ← take_u32 c;
  if negb (schema =? 1) then Err (FCorrupt "memory schema version")
  else
    '(dimension, c) ← take_u32 c;
    if negb ((1 <=? dimension) && (dimension <=? 4096)) then Err (FCorrupt "memory dimension")
    else
      '(encoding, c) ← take_byte c;
      if negb (encoding =? 1) then Err (FCorrupt "memory encoding or metric")
      else
        '(metric, c) ← take_byte c;
        if negb (metric =? 1) then Err (FCorrupt "memory encoding or metric")
        else
          '(provider, c) ← take_bounded 1 256 c;
          '(model, c) ← take_bounded 1 256 c;
          '(revision, c) ← take_bounded 1 256 c;
          '(transform, c) ← take_bounded 1 256 c;
          Ok ({| dimension := dimension; provider := provider; model := model; revision := revision;
                 transform := transform |}, c).

Definition take_memory_count (maximum item : Z) (c : bytes) : result FormatError (Z * bytes) :=
  '(count, c) ← take_u32 c;
  if (maximum <? count) || (zlen c / item <? count) then Err (FCorrupt "memory count") else Ok (count, c).

Definition ordered (previous : option bytes) (value : bytes) : result FormatError (option bytes) :=
  if not_after previous value then Err (FCorrupt "memory order or duplicate") else Ok (Some value).

Definition take_scalar (c : bytes) : result FormatError (Scalar * bytes) :=
  '(tag, c) ← take_byte c;
  if tag =? 1 then '(value, c) ← take_bounded 0 4096 c; Ok (ScalarBytes value, c)
  else if tag =? 2 then '(value, c) ← take_i64 c; Ok (ScalarInteger value, c)
  else if tag =? 3 then
    '(value, c) ← take_byte c;
    if value =? 0 then Ok (ScalarBool false, c)
    else if value =? 1 then Ok (ScalarBool true, c)
    else Err (FCorrupt "memory bool")
  else Err (FCorrupt "memory scalar").

Definition take_metadata (acc : option bytes * gmap bytes Scalar) (c : bytes)
    : result FormatError (option bytes * gmap bytes Scalar * bytes) :=
  '(field, c) ← take_bounded 1 64 c;
  previous ← ordered acc.1 field;
  '(scalar, c) ← take_scalar c;
  Ok (previous, <[field := scalar]> acc.2, c).
Definition take_provenance (acc : option bytes * gmap bytes bytes) (c : bytes)
    : result FormatError (option bytes * gmap bytes bytes * bytes) :=
  '(field, c) ← take_bounded 1 64 c;
  previous ← ordered acc.1 field;
  '(value, c) ← take_bounded 0 4096 c;
  Ok (previous, <[field := value]> acc.2, c).

Definition take_member (d : Descriptor) (c : bytes) : result FormatError (Member * bytes) :=
  '(id, c) ← take_bounded 1 256 c;
  '(namespace, c) ← take_bounded 0 256 c;
  '(content, c) ← take_bounded 0 65536 c;
  '(n, c) ← take_u32 c;
  if negb (n =? dimension d) then Err (FCorrupt "memory vector dimension")
  else
    '(vector, c) ← take_bytes (dimension d * 4) c;
    '(deadline, c) ← take_memory_deadline true c;
    '(count, c) ← take_memory_count 32 6 c;
    '(metadata, c) ← take_loop (Z.to_nat count) take_metadata (None, ∅) c;
    '(count, c) ← take_memory_count 16 9 c;
    '(provenance, c) ← take_loop (Z.to_nat count) take_provenance (None, ∅) c;
    let member := {| m_id := id; m_namespace := namespace; m_content := content; m_vector := vector;
                     m_deadline := deadline; m_metadata := metadata.2; m_provenance := provenance.2 |} in
    _ ← map_err (λ _, FCorrupt "memory member") (Member_validate member d);
    Ok (member, c).

Definition take_image_member (d : Descriptor) (acc : option bytes * list Member) (c : bytes)
    : result FormatError (option bytes * list Member * bytes) :=
  '(member, c) ← take_member d c;
  previous ← ordered acc.1 (m_id member);
  Ok (previous, acc.2 ++ [member], c).

Definition take_edit (d : Descriptor) (c : bytes) : result FormatError (Edit * bytes) :=
  '(tag, c) ← take_byte c;
  if tag =? 1 then '(member, c) ← take_member d c; Ok (Upsert member, c)
  else if tag =? 2 then '(id, c) ← take_bounded 1 256 c; Ok (Remove id, c)
  else Err (FCorrupt "memory edit").
Definition take_delta_edit (d : Descriptor) (acc : option bytes * list Edit) (c : bytes)
    : result FormatError (option bytes * list Edit * bytes) :=
  '(edit, c) ← take_edit d c;
  previous ← ordered acc.1 (Edit_id edit);
  Ok (previous, acc.2 ++ [edit], c).

Definition take_image (key : bytes) (d : Descriptor) (c : bytes) : result FormatError (MMutation * bytes) :=
  '(count, c) ← take_memory_count MAX_MEMBERS 38 c;
  if match u_mul count (dimension d) with Some work => MAX_COMPONENTS <? work | None => true end
  then Err (FCorrupt "memory component quota")
  else
    '(members, c) ← take_loop (Z.to_nat count) (take_image_member d) (None, []) c;
    '(key_deadline, c) ← take_memory_deadline false c;
    collection ← map_err (λ _, FCorrupt "memory image quota") (from_members d members.2 key);
    Ok (Image key collection key_deadline, c).
Definition take_delta (key : bytes) (d : Descriptor) (c : bytes) : result FormatError (MMutation * bytes) :=
  '(count, c) ← take_memory_count MAX_EDITS 6 c;
  '(edits, c) ← take_loop (Z.to_nat count) (take_delta_edit d) (None, []) c;
  '(key_deadline, c) ← take_memory_deadline false c;
  Ok (Delta key d edits.2 key_deadline, c).

Definition memory_take_mutation (start : bytes) : result FormatError (MMutation * bytes) :=
  '(tag, c) ← take_byte start;
  if (1 <=? tag) && (tag <=? 6) then '(mu, c) ← take_mutation start; Ok (Legacy mu, c)
  else if negb ((tag =? 7) || (tag =? 8)) then Err (FCorrupt "mutation type")
  else
    '(key, c) ← take_bounded 1 256 c;
    '(d, c) ← take_descriptor c;
    if tag =? 7 then take_image key d c else take_delta key d c.

Definition memory_batch_item (acc : gset bytes * list MMutation) (c : bytes)
    : result FormatError (gset bytes * list MMutation * bytes) :=
  '(mu, c) ← memory_take_mutation c;
  if bool_decide (MMutation_key mu ∈ acc.1) then Err (FCorrupt "duplicate batch key")
  else Ok ({[MMutation_key mu]} ∪ acc.1, acc.2 ++ [mu], c).

Definition memory_decode (l : Limits) (body : bytes) : result FormatError MRecord :=
  '(tag, c) ← take_byte body;
  '(record, c) ←
    (if tag =? 1 then
       '(mu, c) ← memory_take_mutation c;
       match mu with
       | Delta _ _ _ _ => Err (FCorrupt "delta snapshot")
       | _ => Ok (MSnapshot mu, c)
       end
     else if tag =? 2 then
       '(sequence, c) ← take_u64 c;
       '(entries, c) ← take_u64 c;
       '(digest, c) ← take_u32 c;
       Ok (MSeal sequence entries digest, c)
     else if tag =? 3 then
       '(sequence, c) ← take_u64 c;
       '(o, c) ← take_origin c;
       '(count, c) ← take_memory_count (max_mutations l) 5 c;
       if count =? 0 then Err FLimit
       else
         '(acc, c) ← take_loop (Z.to_nat count) memory_batch_item (∅, []) c;
         Ok (MBatch sequence o acc.2, c)
     else Err (FCorrupt "record type"));
  if bool_decide (c = []) then Ok record else Err (FCorrupt "bytes extras").

Definition memory_read_record (l : Limits) (input : bytes) : result FormatError MNext :=
  framed ← read_frame l input;
  match framed with
  | NoFrame => Ok MEnd
  | IncompleteFrame => Ok MIncompleteTail
  | Body body rest => r ← memory_decode l body; Ok (MNextRecord r rest)
  end.

(** ** Decoding the parts of a collection *)

Lemma take_bounded_app minimum maximum v rest :
  minimum <= zlen v <= maximum → maximum <= U32_MAX →
  take_bounded minimum maximum (encode_blob v ++ rest) = Ok (v, rest).
Proof.
  intros Hv Hm. pose proof (zlen_nonneg v). unfold take_bounded, encode_blob. rewrite <- app_assoc, take_u32_app by lia.
  cbn [mbind result_bind]. destruct ((zlen v <? minimum) || _) eqn:E; [lia|]. by rewrite take_bytes_app.
Qed.
Lemma take_memory_deadline_app member d rest :
  deadline_ok d → (∀ t, d = Some t → member = true → 0 < t) →
  take_memory_deadline member (encode_deadline d ++ rest) = Ok (d, rest).
Proof.
  intros Hd Hm. unfold take_memory_deadline, encode_deadline. rewrite <- app_comm_cons, take_byte_app. cbn [mbind result_bind].
  rewrite take_i64_app by (destruct d; cbn in *; unfold I64_MIN, I64_MAX in *; lia). cbn [mbind result_bind].
  destruct d as [t|]; [|done]. cbn. destruct member; cbn; [|done]. specialize (Hm t eq_refl eq_refl).
  by rewrite (proj2 (Z.ltb_lt 0 t)).
Qed.
Lemma take_descriptor_app d rest :
  Descriptor_validate d = Ok tt → take_descriptor (encode_descriptor d ++ rest) = Ok (d, rest).
Proof.
  intros (Hd & H1 & H2 & H3 & H4)%Descriptor_validate_ok. unfold MAX_DIMENSION in Hd. unfold take_descriptor, encode_descriptor.
  rewrite <- !app_assoc, take_u32_app by done. cbn [mbind result_bind Z.eqb negb]. change (1 =? 1) with true. cbn [negb].
  rewrite take_u32_app by (unfold U32_MAX; lia). cbn [mbind result_bind].
  destruct ((1 <=? dimension d) && _) eqn:E; [|lia]. cbn [negb app]. rewrite !take_byte_app. cbn [mbind result_bind].
  change (bz x01 =? 1) with true. cbn [negb]. rewrite take_byte_app. cbn [mbind result_bind]. change (bz x01 =? 1) with true. cbn [negb].
  cbn [mjoin list_join fmap list_fmap]. rewrite <- !app_assoc. cbn [app].
  do 4 (rewrite take_bounded_app by (lia || done); cbn [mbind result_bind]). by destruct d.
Qed.
Lemma take_memory_count_app maximum item n s rest :
  0 <= n <= maximum → n <= U32_MAX → 1 <= item → item * n <= zlen s →
  take_memory_count maximum item (u32_le n ++ s ++ rest) = Ok (n, s ++ rest).
Proof.
  intros Hn Hu Hi Hs. unfold take_memory_count. rewrite take_u32_app by lia. cbn [mbind result_bind].
  rewrite zlen_app. pose proof (zlen_nonneg rest).
  assert (n <= (zlen s + zlen rest) / item) by (apply Z.div_le_lower_bound; lia).
  destruct ((maximum <? n) || _) eqn:E; [lia|done].
Qed.

(** A counted loop whose items are in strictly ascending order. *)
Definition ordered_upd {A S} (id : A → bytes) (upd : S → A → S) (acc : option bytes * S) (x : A) : option bytes * S :=
  (Some (id x), upd acc.2 x).
Lemma ordered_upd_fold {A S} (id : A → bytes) (upd : S → A → S) l s :
  fold_left (ordered_upd id upd) l (None, s) = (id <$> last l, fold_left upd l s).
Proof.
  induction l as [|x l IH] using rev_ind; [done|]. rewrite !fold_left_app, IH. cbn. by rewrite last_snoc.
Qed.
Lemma sorted_not_after {A} (id : A → bytes) l1 x l2 :
  StronglySorted cmp_lt (id <$> (l1 ++ x :: l2)) → not_after (id <$> last l1) (id x) = false.
Proof.
  intros Hs. destruct l1 as [|y l1 _] using rev_ind; [done|]. rewrite last_snoc. cbn. apply bool_decide_eq_false. intros H. apply H.
  rewrite <- app_assoc, fmap_app in Hs. apply StronglySorted_app_1_r in Hs. cbn in Hs. inversion_clear Hs as [|? ? _ Hlt].
  by apply Forall_cons in Hlt as [? _].
Qed.
Lemma ordered_loop {A S} (id : A → bytes) (upd : S → A → S) (enc : A → bytes)
    (step : option bytes * S → bytes → result FormatError (option bytes * S * bytes)) l s rest :
  StronglySorted cmp_lt (id <$> l) →
  (∀ previous s x rest, x ∈ l → not_after previous (id x) = false →
     step (previous, s) (enc x ++ rest) = Ok (Some (id x), upd s x, rest)) →
  take_loop (length l) step (None, s) (mjoin (enc <$> l) ++ rest) = Ok (id <$> last l, fold_left upd l s, rest).
Proof.
  intros Hs Hstep. rewrite (take_loop_ok step (ordered_upd id upd) enc); [by rewrite ordered_upd_fold|].
  intros l1 x l2 r El. rewrite fold_left_app, ordered_upd_fold. cbn [fold_left]. apply Hstep.
  - rewrite El. apply elem_of_app. right. left.
  - rewrite El in Hs. by eapply sorted_not_after.
Qed.

(** ** Members *)

Lemma fold_ok_steps {E A B} (f : B → A → result E B) b l n :
  fold_ok f b l = Ok n → ∀ x, x ∈ l → ∃ b b', f b x = Ok b'.
Proof.
  revert b. induction l as [|y l IH]; intros b H x Hx; [set_solver|]. cbn in H. apply bind_ok in H as (b' & Hb & Hl).
  apply elem_of_cons in Hx as [->|Hx]; [by eauto|]. by eapply IH.
Qed.

Definition scalar_ok (s : Scalar) : Prop :=
  match s with
  | ScalarBytes v => zlen v <= 4096
  | ScalarInteger v => I64_MIN <= v <= I64_MAX
  | ScalarBool _ => True
  end.
(** What the types of a member's fields add to its validation. *)
Definition member_typed (m : Member) : Prop :=
  deadline_ok (m_deadline m) ∧ ∀ f s, m_metadata m !! f = Some (ScalarInteger s) → I64_MIN <= s <= I64_MAX.

Record member_bounds (d : Descriptor) (m : Member) : Prop := {
  mb_id : 1 <= zlen (m_id m) <= 256;
  mb_namespace : 0 <= zlen (m_namespace m) <= 256;
  mb_content : 0 <= zlen (m_content m) <= 65536;
  mb_vector : zlen (m_vector m) = dimension d * 4;
  mb_dimension : 1 <= dimension d <= 4096;
  mb_deadline : ∀ t, m_deadline m = Some t → 0 < t;
  mb_counts : Z.of_nat (size (m_metadata m)) <= 32 ∧ Z.of_nat (size (m_provenance m)) <= 16;
  mb_metadata : ∀ f s, m_metadata m !! f = Some s →
    1 <= zlen f <= 64 ∧ (∀ v, s = ScalarBytes v → zlen v <= 4096);
  mb_provenance : ∀ f v, m_provenance m !! f = Some v → 1 <= zlen f <= 64 ∧ 0 <= zlen v <= 4096
}.

Lemma Member_validate_bounds m d : Member_validate m d = Ok tt → member_bounds d m.
Proof.
  unfold Member_validate. intros H. apply bind_ok in H as ([] & Hd%Descriptor_validate_ok & H).
  apply bind_ok in H as ([] & H1%bounded_ok & H). apply bind_ok in H as ([] & H2%bounded_ok & H).
  apply bind_ok in H as ([] & H3%bounded_ok & H). apply bind_ok in H as ([] & H4%guard_ok_ok%Z.eqb_eq & H).
  apply bind_ok in H as ([] & _ & H). apply bind_ok in H as ([] & H5%guard_ok_ok & H).
  apply bind_ok in H as ([] & H6%guard_ok_ok & H). apply bind_ok in H as (agg & Hm & H). apply bind_ok in H as (agg' & Hp & _).
  unfold MAX_DIMENSION in Hd. split; try done; try lia.
  - intros t Ht. rewrite Ht in H5. lia.
  - intros f s Hs. apply btree_iter_elem in Hs. destruct (fold_ok_steps _ _ _ _ Hm _ Hs) as (b & b' & Hb).
    cbn in Hb. apply bind_ok in Hb as ([] & Hf%bounded_ok & Hb). split; [done|]. intros v ->.
    apply bind_ok in Hb as ([] & Hv%bounded_ok & _). lia.
  - intros f v Hv. apply btree_iter_elem in Hv. destruct (fold_ok_steps _ _ _ _ Hp _ Hv) as (b & b' & Hb).
    cbn in Hb. apply bind_ok in Hb as ([] & Hf%bounded_ok & Hb). by apply bind_ok in Hb as ([] & Hv'%bounded_ok & _).
Qed.

Lemma take_scalar_app s rest : scalar_ok s → take_scalar (encode_scalar s ++ rest) = Ok (s, rest).
Proof.
  destruct s as [v|v|v]; intros Hs; cbn [encode_scalar scalar_ok] in *; unfold take_scalar;
    rewrite <- ?app_comm_cons, take_byte_app; cbn [mbind result_bind].
  - change (bz x01 =? 1) with true. cbn iota. pose proof (zlen_nonneg v). by rewrite take_bounded_app by (lia || done).
  - change (bz x02 =? 1) with false. change (bz x02 =? 2) with true. cbn iota. by rewrite take_i64_app.
  - change (bz x03 =? 1) with false. change (bz x03 =? 2) with false. change (bz x03 =? 3) with true. cbn iota.
    rewrite take_byte_app. by destruct v.
Qed.
Lemma encode_scalar_zlen s : zlen (encode_scalar s) = Scalar_encoded_bytes s.
Proof.
  destruct s; cbn [encode_scalar Scalar_encoded_bytes]; rewrite ?zlen_cons, ?encode_blob_zlen; unfold i64_le; rewrite ?le_bytes_zlen; lia || done.
Qed.

Lemma take_metadata_app d m previous acc f s rest :
  member_bounds d m → member_typed m → m_metadata m !! f = Some s → not_after previous f = false →
  take_metadata (previous, acc) ((encode_blob f ++ encode_scalar s) ++ rest) = Ok (Some f, <[f := s]> acc, rest).
Proof.
  intros Hb [_ Ht] Hs Hn. destruct (mb_metadata _ _ Hb f s Hs) as [Hf Hv]. unfold take_metadata.
  rewrite <- app_assoc, take_bounded_app by done. cbn [mbind result_bind fst snd]. unfold ordered. rewrite Hn. cbn [mbind result_bind].
  rewrite take_scalar_app; [done|]. destruct s; cbn; [by apply Hv|by eapply Ht|done].
Qed.
Lemma take_provenance_app d m previous acc f v rest :
  member_bounds d m → m_provenance m !! f = Some v → not_after previous f = false →
  take_provenance (previous, acc) ((encode_blob f ++ encode_blob v) ++ rest) = Ok (Some f, <[f := v]> acc, rest).
Proof.
  intros Hb Hs Hn. destruct (mb_provenance _ _ Hb f v Hs) as [Hf Hv]. unfold take_provenance.
  rewrite <- app_assoc, take_bounded_app by done. cbn [mbind result_bind fst snd]. unfold ordered. rewrite Hn. cbn [mbind result_bind].
  by rewrite take_bounded_app.
Qed.

Lemma mjoin_lower {A} (enc : A → bytes) item l :
  (∀ x, x ∈ l → item <= zlen (enc x)) → item * zlen l <= zlen (mjoin (enc <$> l)).
Proof.
  rewrite mjoin_zlen. induction l as [|x l IH]; intros H; [rewrite zlen_nil; change (item * 0 <= 0); lia|].
  rewrite zlen_cons. change (zsum_with _ (x :: l)) with (zlen (enc x) + zsum_with (λ x, zlen (enc x)) l).
  pose proof (H x ltac:(left)). assert (item * zlen l <= zsum_with (λ x, zlen (enc x)) l) by (apply IH; set_solver). lia.
Qed.
Lemma btree_iter_zlen {K V} `{Countable K} `{Cmp K} (m : gmap K V) : zlen (btree_iter m) = Z.of_nat (size m).
Proof. unfold zlen. by rewrite btree_iter_perm, length_map_to_list. Qed.
Lemma btree_iter_to_nat {K V} `{Countable K} `{Cmp K} (m : gmap K V) : Z.to_nat (Z.of_nat (size m)) = length (btree_iter m).
Proof. by rewrite Nat2Z.id, btree_iter_perm, length_map_to_list. Qed.

(** The two counted maps of a member. *)
Lemma take_metadata_map d m rest :
  member_bounds d m → member_typed m →
  ('(count, c) ← take_memory_count 32 6 (u32_le (Z.of_nat (size (m_metadata m))) ++
      mjoin ((λ e, encode_blob e.1 ++ encode_scalar e.2) <$> btree_iter (m_metadata m)) ++ rest);
   take_loop (Z.to_nat count) take_metadata (None, ∅) c) =
  Ok (fst <$> last (btree_iter (m_metadata m)), m_metadata m, rest).
Proof.
  intros Hb Ht. pose proof (mb_counts _ _ Hb) as [? _]. rewrite take_memory_count_app.
  - cbn [mbind result_bind]. rewrite btree_iter_to_nat.
    rewrite (ordered_loop fst (λ acc e, <[e.1 := e.2]> acc) (λ e, encode_blob e.1 ++ encode_scalar e.2)).
    + by rewrite fold_insert, with_entries_iter.
    + apply btree_iter_sorted.
    + intros previous s [f v] r Hin%btree_iter_elem Hn. by eapply take_metadata_app.
  - lia.
  - unfold U32_MAX. lia.
  - lia.
  - rewrite <- btree_iter_zlen. apply mjoin_lower. intros [f s] Hin%btree_iter_elem. cbn [fst snd].
    destruct (mb_metadata _ _ Hb f s Hin) as [? _]. rewrite zlen_app, encode_blob_zlen, encode_scalar_zlen.
    destruct s as [v| |]; cbn; [pose proof (zlen_nonneg v)|..]; lia.
Qed.
Lemma take_provenance_map d m rest :
  member_bounds d m →
  ('(count, c) ← take_memory_count 16 9 (u32_le (Z.of_nat (size (m_provenance m))) ++
      mjoin ((λ e, encode_blob e.1 ++ encode_blob e.2) <$> btree_iter (m_provenance m)) ++ rest);
   take_loop (Z.to_nat count) take_provenance (None, ∅) c) =
  Ok (fst <$> last (btree_iter (m_provenance m)), m_provenance m, rest).
Proof.
  intros Hb. pose proof (mb_counts _ _ Hb) as [_ ?]. rewrite take_memory_count_app.
  - cbn [mbind result_bind]. rewrite btree_iter_to_nat.
    rewrite (ordered_loop fst (λ acc e, <[e.1 := e.2]> acc) (λ e, encode_blob e.1 ++ encode_blob e.2)).
    + by rewrite fold_insert, with_entries_iter.
    + apply btree_iter_sorted.
    + intros previous s [f v] r Hin%btree_iter_elem Hn. by eapply take_provenance_app.
  - lia.
  - unfold U32_MAX. lia.
  - lia.
  - rewrite <- btree_iter_zlen. apply mjoin_lower. intros [f s] Hin%btree_iter_elem. cbn [fst snd].
    destruct (mb_provenance _ _ Hb f s Hin) as [? ?]. rewrite zlen_app, !encode_blob_zlen. lia.
Qed.

Lemma take_member_app d m rest :
  Member_validate m d = Ok tt → member_typed m →
  take_member d (encode_member m (dimension d) ++ rest) = Ok (m, rest).
Proof.
  intros Hv Ht. pose proof (Member_validate_bounds m d Hv) as Hb. pose proof Hb as [? ? ? ? ? Hd _ _ _].
  unfold take_member, encode_member. rewrite <- !app_assoc.
  do 3 (rewrite take_bounded_app by done; cbn [mbind result_bind]).
  rewrite take_u32_app by (unfold U32_MAX; lia). cbn [mbind result_bind]. rewrite Z.eqb_refl. cbn [negb].
  rewrite take_bytes_app by done. cbn [mbind result_bind].
  rewrite take_memory_deadline_app by (apply Ht || auto). cbn [mbind result_bind].
  pose proof (take_metadata_map d m (u32_le (Z.of_nat (size (m_provenance m))) ++
    mjoin ((λ e, encode_blob e.1 ++ encode_blob e.2) <$> btree_iter (m_provenance m)) ++ rest) Hb Ht) as Hm.
  apply bind_ok in Hm as ([n c] & -> & Hm). cbn [mbind result_bind]. rewrite Hm. cbn [mbind result_bind snd].
  pose proof (take_provenance_map d m rest Hb) as Hp.
  apply bind_ok in Hp as ([n' c'] & -> & Hp). cbn [mbind result_bind]. rewrite Hp. cbn [mbind result_bind snd].
  assert ({| m_id := m_id m; m_namespace := m_namespace m; m_content := m_content m; m_vector := m_vector m;
             m_deadline := m_deadline m; m_metadata := m_metadata m; m_provenance := m_provenance m |} = m) as -> by by destruct m.
  by rewrite Hv.
Qed.
Lemma encode_member_zlen d m : Member_validate m d = Ok tt → zlen (encode_member m (dimension d)) = Member_encoded_bytes m.
Proof.
  intros Hv. pose proof (Member_validate_bounds m d Hv) as [? ? ? Hvec _ _ _ _ _]. unfold encode_member, Member_encoded_bytes.
  rewrite !zlen_app, !encode_blob_zlen, encode_deadline_zlen, !mjoin_zlen. unfold u32_le. rewrite !le_bytes_zlen.
  rewrite (zsum_with_ext (λ e, zlen (encode_blob e.1 ++ encode_scalar e.2)) (λ e, 4 + zlen e.1 + Scalar_encoded_bytes e.2)).
  2:{ intros e _. rewrite zlen_app, encode_blob_zlen, encode_scalar_zlen. lia. }
  rewrite (zsum_with_ext (λ e, zlen (encode_blob e.1 ++ encode_blob e.2)) (λ e, 8 + zlen e.1 + zlen e.2)).
  2:{ intros e _. rewrite zlen_app, !encode_blob_zlen. lia. }
  lia.
Qed.
Lemma encode_descriptor_zlen d : zlen (encode_descriptor d) = Descriptor_encoded_bytes d.
Proof.
  unfold encode_descriptor, Descriptor_encoded_bytes, descriptor_text. rewrite !zlen_app, mjoin_zlen. unfold u32_le. rewrite !le_bytes_zlen.
  cbn [zsum_with foldr]. rewrite !encode_blob_zlen. change (zlen [x01; x01]) with 2. lia.
Qed.

(** ** Mutations *)

Definition edit_typed (e : Edit) : Prop := match e with Upsert m => member_typed m | Remove _ => True end.
Definition mmutation_ok (mu : MMutation) : Prop :=
  match mu with
  | Legacy mu => mutation_ok mu
  | Image _ c d => collection_wf c ∧ (∀ id m, c_members c !! id = Some m → member_typed m) ∧ deadline_ok d
  | Delta _ _ edits d => Forall edit_typed edits ∧ deadline_ok d
  end.

(** What the encoder owes to the decoder. *)
Definition decodes (mu : MMutation) (n : Z) : Prop :=
  ∃ enc, memory_encode_mutation mu = Ok enc ∧ zlen enc = n ∧ 5 <= n ∧
    ∀ rest, memory_take_mutation (enc ++ rest) = Ok (mu, rest).

Lemma legacy_decodes mu n : mutation_ok mu → mutation_size mu = Ok n → decodes (Legacy mu) n.
Proof.
  intros Hm Hn. apply mutation_size_ok in Hn as (Hf & enc & He & Hl & H5). exists enc. split_and!; [done..|].
  intros rest. unfold memory_take_mutation. pose proof (take_mutation_ok mu enc rest Hm Hf He) as Ht.
  unfold encode_mutation in He. apply bind_ok in He as (tag & Htag & (body & _ & E%Ok_inj)%bind_ok).
  destruct enc as [|b enc]; [done|]. injection E as -> E. rewrite <- app_comm_cons in *. rewrite take_byte_app. cbn [mbind result_bind].
  assert ((1 <=? bz b) && (bz b <=? 6) = true) as -> by (destruct mu as [k [] d|k]; by simplify_eq/=).
  by rewrite Ht.
Qed.

Lemma encoded_items_zlen d (ms : list Member) :
  Forall (λ m, Member_validate m d = Ok tt) ms →
  zlen (mjoin ((λ m, encode_member m (dimension d)) <$> ms)) = zsum_with Member_encoded_bytes ms.
Proof.
  rewrite mjoin_zlen, Forall_forall. intros H. apply zsum_with_ext. intros m Hm. by apply encode_member_zlen, H.
Qed.
Lemma member_encoded_min d m : Member_validate m d = Ok tt → 38 <= Member_encoded_bytes m.
Proof.
  intros Hv. pose proof (Member_validate_bounds m d Hv) as [? ? ? ? ? _ _ _ _]. unfold Member_encoded_bytes.
  assert (0 <= zsum_with (λ e, 4 + zlen e.1 + Scalar_encoded_bytes e.2) (btree_iter (m_metadata m))).
  { apply zsum_with_nonneg. intros [f s]. cbn. pose proof (zlen_nonneg f). destruct s as [v| |]; cbn; [pose proof (zlen_nonneg v)|..]; lia. }
  assert (0 <= zsum_with (λ e, 8 + zlen e.1 + zlen e.2) (btree_iter (m_provenance m))).
  { apply zsum_with_nonneg. intros [f v]. cbn. pose proof (zlen_nonneg f). pose proof (zlen_nonneg v). lia. }
  lia.
Qed.

Lemma collection_members_valid c :
  collection_wf c → Forall (λ m, Member_validate m (c_descriptor c) = Ok tt) (btree_iter (c_members c)).*2.
Proof.
  intros Hc. apply Forall_forall. intros m ([id m'] & -> & Hin%btree_iter_elem)%list_elem_of_fmap. by apply (cw_members c Hc id).
Qed.

Lemma take_image_app key c kd rest :
  mmutation_ok (Image key c kd) → validate_key c key = Ok tt →
  take_image key (c_descriptor c)
    (u32_le (retained_count c) ++ mjoin ((λ m, encode_member m (dimension (c_descriptor c))) <$> (btree_iter (c_members c)).*2)
     ++ encode_deadline kd ++ rest) = Ok (Image key c kd, rest).
Proof.
  intros (Hc & Ht & Hd) Hk. pose proof (collection_members_valid c Hc) as Hms. rewrite Forall_forall in Hms.
  destruct (validate_key_ok c key Hk (collection_logical_pos c Hc)) as (_ & Hn & Hw & _).
  unfold take_image. rewrite take_memory_count_app; cycle 1.
  { unfold retained_count in *. lia. }
  { unfold MAX_MEMBERS, U32_MAX in *. lia. }
  { lia. }
  { unfold retained_count. rewrite <- btree_iter_zlen. replace (zlen (btree_iter (c_members c))) with (zlen (btree_iter (c_members c)).*2)
      by (unfold zlen; by rewrite length_fmap).
    apply mjoin_lower. intros m Hm. rewrite encode_member_zlen by by apply Hms. by eapply member_encoded_min, Hms. }
  cbn [mbind result_bind].
  assert (0 <= retained_count c) by (unfold retained_count; lia).
  pose proof (proj1 (proj1 (Descriptor_validate_ok _) (cw_descriptor c Hc))) as Hdim.
  unfold u_mul. rewrite usize_checked_ok by (unfold MAX_COMPONENTS, USIZE_MAX in *; nia).
  destruct (Z.ltb_spec MAX_COMPONENTS (retained_count c * dimension (c_descriptor c))); [lia|].
  replace (Z.to_nat (retained_count c)) with (length (btree_iter (c_members c)).*2)
    by (unfold retained_count; by rewrite btree_iter_to_nat, length_fmap).
  rewrite (ordered_loop m_id (λ l m, l ++ [m])).
  - cbn [mbind result_bind]. rewrite take_memory_deadline_app by done. cbn [mbind result_bind snd].
    by rewrite fold_left_snoc, from_members_iter.
  - assert (m_id <$> (btree_iter (c_members c)).*2 = (btree_iter (c_members c)).*1) as ->; [|apply btree_iter_sorted].
    rewrite <- (iter_members c Hc) at 2. by rewrite <- !list_fmap_compose.
  - intros previous s m r Hm Hna. unfold take_image_member. rewrite take_member_app; [|by apply Hms|].
    + cbn [mbind result_bind fst snd]. unfold ordered. by rewrite Hna.
    + apply list_elem_of_fmap in Hm as ([id m'] & -> & Hin%btree_iter_elem). by eapply Ht.
Qed.

Lemma image_decodes key c kd n :
  mmutation_ok (Image key c kd) → MMutation_encoded_bytes (Image key c kd) = Ok n → decodes (Image key c kd) n.
Proof.
  intros Hm Hn. pose proof Hm as (Hc & _ & _). cbn in Hn. apply bind_ok in Hn as ([] & Hk & <-%Ok_inj).
  destruct (validate_key c key) as [[]|] eqn:Ek; [|done]. clear Hk.
  destruct (validate_key_ok c key Ek (collection_logical_pos c Hc)) as (Hkey & _).
  eexists. split; [done|]. split_and!.
  - rewrite zlen_cons, !zlen_app, encode_blob_zlen, encode_descriptor_zlen, encode_deadline_zlen.
    rewrite encoded_items_zlen by by apply collection_members_valid. rewrite (cw_encoded c Hc), map_zsum_iter.
    unfold u32_le. rewrite le_bytes_zlen. rewrite zsum_with_fmap. unfold compose. lia.
  - pose proof (map_zsum_nonneg (λ _ : bytes, Member_encoded_bytes) (c_members c) ltac:(intros; apply Member_bytes_nonneg)).
    rewrite (cw_encoded c Hc). unfold Descriptor_encoded_bytes, descriptor_text. zlen_lia.
  - intros rest. rewrite <- app_comm_cons. unfold memory_take_mutation. rewrite take_byte_app. cbn [mbind result_bind].
    change ((1 <=? bz x07) && (bz x07 <=? 6)) with false. change (negb ((bz x07 =? 7) || (bz x07 =? 8))) with false. cbn iota.
    rewrite <- !app_assoc, take_bounded_app by (lia || done). cbn [mbind result_bind].
    rewrite take_descriptor_app by apply Hc. cbn [mbind result_bind]. change (bz x07 =? 7) with true. cbn iota.
    by apply take_image_app.
Qed.

Lemma validate_edits_loop_ids d previous edits :
  validate_edits_loop d previous edits = Ok tt → Forall (λ e, 1 <= zlen (Edit_id e) <= 256) edits.
Proof.
  revert previous. induction edits as [|e edits IH]; intros previous; [constructor|]. cbn.
  intros ([] & He%bounded_ok & H)%bind_ok. apply bind_ok in H as ([] & _ & H). apply bind_ok in H as ([] & _ & H).
  constructor; [done|]. by eapply IH.
Qed.
Lemma encode_edit_zlen d e : edit_valid d e → zlen (encode_edit (dimension d) e) = Edit_encoded_bytes e.
Proof.
  destruct e as [m|id]; intros He; cbn [encode_edit Edit_encoded_bytes]; rewrite zlen_cons.
  - rewrite encode_member_zlen by done. lia.
  - rewrite encode_blob_zlen. lia.
Qed.

Lemma take_delta_app key d edits kd rest :
  mmutation_ok (Delta key d edits kd) → zlen edits <= MAX_EDITS → validate_edits d edits = Ok tt →
  take_delta key d (u32_le (zlen edits) ++ mjoin (encode_edit (dimension d) <$> edits) ++ encode_deadline kd ++ rest) =
  Ok (Delta key d edits kd, rest).
Proof.
  intros [Ht Hd] Hn Hv. unfold validate_edits in Hv. apply bind_ok in Hv as ([] & Hdesc & Hv).
  pose proof (validate_edits_loop_ids _ _ _ Hv) as Hid. apply validate_edits_loop_ok in Hv as (Hve & Hs & _).
  rewrite Forall_forall in Ht, Hid, Hve. pose proof (zlen_nonneg edits). unfold take_delta. rewrite take_memory_count_app; cycle 1.
  { lia. }
  { unfold MAX_EDITS, U32_MAX in *. lia. }
  { lia. }
  { apply mjoin_lower. intros e He. rewrite encode_edit_zlen by by apply Hve. specialize (Hid e He).
    destruct e as [m|id]; cbn in *; [pose proof (member_encoded_min d m (Hve _ He))|]; lia. }
  cbn [mbind result_bind]. replace (Z.to_nat (zlen edits)) with (length edits) by (unfold zlen; lia).
  rewrite (ordered_loop Edit_id (λ l e, l ++ [e])); [|done|].
  - cbn [mbind result_bind]. rewrite take_memory_deadline_app by done. cbn [mbind result_bind snd]. by rewrite fold_left_snoc.
  - intros previous s e r He Hna. unfold take_delta_edit, take_edit. destruct e as [m|id]; cbn [encode_edit];
      rewrite <- app_comm_cons, take_byte_app; cbn [mbind result_bind].
    + change (bz x01 =? 1) with true. cbn iota. rewrite take_member_app by (apply (Hve _ He) || apply (Ht _ He)).
      cbn [mbind result_bind fst snd]. unfold ordered. cbn [Edit_id] in *. by rewrite Hna.
    + change (bz x02 =? 1) with false. change (bz x02 =? 2) with true. cbn iota. rewrite take_bounded_app by (apply (Hid _ He) || done).
      cbn [mbind result_bind fst snd]. unfold ordered. cbn [Edit_id] in *. by rewrite Hna.
Qed.

Lemma delta_decodes key d edits kd n :
  mmutation_ok (Delta key d edits kd) → MMutation_encoded_bytes (Delta key d edits kd) = Ok n → decodes (Delta key d edits kd) n.
Proof.
  intros Hm Hn. cbn in Hn. destruct (_ || _ || _) eqn:Eb; [done|]. apply bind_ok in Hn as ([] & Hv & Hn).
  destruct (validate_edits d edits) as [[]|] eqn:Ev; [|done]. clear Hv.
  pose proof Ev as Hv. unfold validate_edits in Hv. apply bind_ok in Hv as ([] & Hdesc & Hv).
  apply validate_edits_loop_ok in Hv as (Hve & _ & _). rewrite Forall_forall in Hve.
  apply (fold_ok_sum _ Edit_encoded_bytes (λ _, True)) in Hn as [-> _]; [|by intros b x b' ->%ok_or_ok%u_add_Some].
  eexists. split; [done|]. split_and!.
  - rewrite zlen_cons, !zlen_app, encode_blob_zlen, encode_descriptor_zlen, encode_deadline_zlen, mjoin_zlen.
    rewrite (zsum_with_ext _ Edit_encoded_bytes) by (intros e He; by apply encode_edit_zlen, Hve).
    unfold u32_le. rewrite le_bytes_zlen. lia.
  - assert (0 <= zsum_with Edit_encoded_bytes edits).
    { apply zsum_with_nonneg. intros [m|id]; cbn; [pose proof (Member_bytes_nonneg m)|]; zlen_lia. }
    unfold Descriptor_encoded_bytes, descriptor_text. zlen_lia.
  - intros rest. rewrite <- app_comm_cons. unfold memory_take_mutation. rewrite take_byte_app. cbn [mbind result_bind].
    change ((1 <=? bz x08) && (bz x08 <=? 6)) with false. change (negb ((bz x08 =? 7) || (bz x08 =? 8))) with false. cbn iota.
    pose proof (zlen_nonneg key). rewrite <- !app_assoc, take_bounded_app by (lia || done). cbn [mbind result_bind].
    rewrite take_descriptor_app by done. cbn [mbind result_bind]. change (bz x08 =? 7) with false. cbn iota.
    apply take_delta_app; [done|lia|done].
Qed.

Lemma mmutation_decodes mu n : mmutation_ok mu → MMutation_encoded_bytes mu = Ok n → decodes mu n.
Proof.
  destruct mu; [apply legacy_decodes|apply image_decodes|apply delta_decodes].
Qed.

(** ** Records *)

Definition mrecord_ok (r : MRecord) : Prop :=
  match r with
  | MSnapshot mu => mmutation_ok mu
  | MSeal sequence entries digest => 0 <= sequence < 2 ^ 64 ∧ 0 <= entries < 2 ^ 64 ∧ 0 <= digest < 2 ^ 32
  | MBatch sequence _ ms => 0 <= sequence < 2 ^ 64 ∧ Forall mmutation_ok ms
  end.

Definition keys_add (acc : gset bytes) (ms : list MMutation) : gset bytes := list_to_set (MMutation_key <$> ms) ∪ acc.

(** The sizes, the encodings and the distinct keys of a batch. *)
Lemma batch_sizes ms acc n out :
  Forall mmutation_ok ms → fold_ok batch_size_step (acc, n) ms = Ok out →
  ∃ encs, try_map memory_encode_mutation ms = Ok encs ∧ out.2 = n + zlen (mjoin encs) ∧ 5 * zlen ms <= zlen (mjoin encs) ∧
    ∀ l rest, take_loop (length ms) memory_batch_item (acc, l) (mjoin encs ++ rest) = Ok (keys_add acc ms, l ++ ms, rest).
Proof.
  intros Hok. revert acc n. induction Hok as [|mu ms Hmu Hok IH]; intros acc n; cbn [fold_ok try_map].
  { intros [= <-]. exists []. split; [done|]. split; [change (n = n + 0); lia|]. split; [done|]. intros l rest. cbn.
    rewrite app_nil_r. do 3 f_equal. unfold keys_add. set_solver. }
  intros ([acc1 n1] & H1 & H2)%bind_ok. unfold batch_size_step in H1. cbn [fst snd] in H1. case_bool_decide as Hnew; [done|].
  apply bind_ok in H1 as (k & Hk & H1). apply bind_ok in H1 as (k1 & ->%ok_or_ok%u_add_Some & [= <- <-]).
  destruct (mmutation_decodes mu k Hmu Hk) as (enc & -> & <- & ? & Hdec).
  destruct (IH _ _ H2) as (encs & -> & -> & ? & Hloop). exists (enc :: encs). split; [done|].
  change (mjoin (enc :: encs)) with (enc ++ mjoin encs). rewrite zlen_app, zlen_cons. split; [lia|]. split; [lia|].
  intros l rest. cbn [length take_loop]. rewrite <- app_assoc.
  assert (memory_batch_item (acc, l) (enc ++ mjoin encs ++ rest) =
          Ok ({[MMutation_key mu]} ∪ acc, l ++ [mu], mjoin encs ++ rest)) as ->.
  { unfold memory_batch_item. rewrite Hdec. cbn [mbind result_bind fst snd]. by rewrite bool_decide_eq_false_2. }
  cbn [mbind result_bind]. rewrite Hloop, <- app_assoc. do 3 f_equal.
  unfold keys_add. cbn. set_solver.
Qed.

Lemma memory_body_ok r l n :
  mrecord_ok r → memory_record_size r l = Ok n →
  ∃ body, memory_record_body r = Ok body ∧ zlen body = n ∧ 1 <= n ∧ memory_decode l body = Ok r.
Proof.
  unfold memory_decode. destruct r as [mu|sequence entries digest|sequence o ms]; cbn [memory_record_size memory_record_body mrecord_ok].
  - intros Hok H. assert (∀ k d e kd, mu ≠ Delta k d e kd) as Hnd by (intros ? ? ? ? ->; done).
    assert (∃ k, MMutation_encoded_bytes mu = Ok k ∧ n = k + 1) as (k & Hk & ->).
    { destruct mu; [..|by edestruct Hnd]; apply bind_ok in H as (k & Hk & ->%ok_or_ok%u_add_Some); eauto. }
    destruct (mmutation_decodes mu k Hok Hk) as (enc & -> & <- & ? & Hdec). eexists. split; [done|].
    rewrite zlen_cons. split; [done|]. split; [lia|]. rewrite take_byte_app. cbn [mbind result_bind].
    change (bz x01 =? 1) with true. cbn iota. rewrite <- (app_nil_r enc), Hdec. cbn [mbind result_bind].
    destruct mu; [done..|by edestruct Hnd].
  - intros (H1 & H2 & H3) [= <-]. eexists. split; [done|]. split; [|split; [done|]].
    { rewrite zlen_cons, !zlen_app. unfold u64_le, u32_le. by rewrite !le_bytes_zlen. }
    rewrite take_byte_app. cbn [mbind result_bind]. change (bz x02 =? 1) with false. change (bz x02 =? 2) with true. cbn iota.
    rewrite take_u64_app by done. cbn [mbind result_bind]. rewrite take_u64_app by done. cbn [mbind result_bind].
    rewrite <- (app_nil_r (u32_le digest)), take_u32_app by (unfold U32_MAX; lia). done.
  - intros [Hs Hok] H. destruct (_ || _ || _) eqn:Ec; [done|]. apply bind_ok in H as (out & Hout & [= <-]).
    destruct (batch_sizes ms ∅ 14 out Hok Hout) as (encs & -> & -> & H5 & Hloop). eexists. split; [done|].
    pose proof (zlen_nonneg (mjoin encs)). pose proof (zlen_nonneg ms). split; [|split; [lia|]].
    { rewrite zlen_cons, !zlen_app. unfold u64_le, u32_le. rewrite !le_bytes_zlen, zlen_cons, zlen_nil. lia. }
    rewrite take_byte_app. cbn [mbind result_bind].
    change (bz x03 =? 1) with false. change (bz x03 =? 2) with false. change (bz x03 =? 3) with true. cbn iota.
    rewrite take_u64_app by done. cbn [mbind result_bind app]. rewrite take_origin_ok. cbn [mbind result_bind].
    rewrite <- (app_nil_r (mjoin encs)), take_memory_count_app by (lia || rewrite ?app_nil_r; lia). cbn [mbind result_bind].
    destruct (Z.eqb_spec (zlen ms) 0); [lia|]. replace (Z.to_nat (zlen ms)) with (length ms) by (unfold zlen; lia).
    by rewrite Hloop.
Qed.

Lemma memory_encode_ok r l enc :
  mrecord_ok r → memory_encode r l = Ok enc →
  ∃ size body, enc = frame size body ∧ size = zlen body ∧ size_ok l size ∧ memory_decode l body = Ok r.
Proof.
  unfold memory_encode. intros Hr (size & Hs & H)%bind_ok. destruct (memory_body_ok r l size Hr Hs) as (body & Hb & Hl & H1 & Hd).
  destruct (_ || _) eqn:E; [done|]. rewrite Hb in H. apply Ok_inj in H as <-. exists size, body. split_and!; [done..| |done].
  unfold size_ok. lia.
Qed.

(** An edit batch. *)
Definition sample_mrecord : MRecord :=
  MBatch 7 Client [Delta (lit "k") sample_descriptor [Upsert (sample_member "a" x00); Remove (lit "b")] (Some 5);
                   Legacy (Delete (lit "x"))].

(** ** Headers *)

Lemma memory_parse_header_ok version h :
  version = (match mh_replication h with Some _ => MEMORY_REPLICATION_HEADER_VERSION | None => MEMORY_HEADER_VERSION end) →
  0 <= mh_sequence h < 2 ^ 64 → replication_ok (mh_replication h) → DurableLayout_validate (mh_layout h) = Ok tt →
  match mh_replication h with
  | Some metadata => is_primary (role metadata) && bool_decide (epoch metadata = zero_epoch)
  | None => false
  end = false →
  memory_parse_header version
    (sealed_header (MAGIC ++ u32_le version ++ u64_le (mh_sequence h) ++ u32_le (shard_count (mh_layout h)) ++
                    u32_le (routing_version (mh_layout h)) ++ u32_le RECORD_VERSION ++ replication_bytes (mh_replication h))) = Ok h.
Proof.
  destruct h as [sequence layout replication]. cbn [mh_sequence mh_layout mh_replication]. intros Hver Hs Hr Hv Hp.
  destruct (validate_ok layout) as (_ & Hc & Hw); [by rewrite Hv|].
  set (H := sealed_header _). unfold sealed_header in H. set (k := u32_le (checksum _)) in H.
  set (p := MAGIC ++ u32_le version ++ u64_le sequence ++ u32_le (shard_count layout) ++ u32_le (routing_version layout) ++ u32_le RECORD_VERSION).
  assert (H = p ++ replication_bytes replication ++ k) as EH by (unfold H, p; by rewrite <- !app_assoc).
  assert (byte_range 12 20 H = u64_le sequence) as E1 by (unfold H; field (MAGIC ++ u32_le version)).
  assert (byte_range 20 24 H = u32_le (shard_count layout)) as E2
    by (unfold H; field (MAGIC ++ u32_le version ++ u64_le sequence)).
  assert (byte_range 24 28 H = u32_le (routing_version layout)) as E3
    by (unfold H; field (MAGIC ++ u32_le version ++ u64_le sequence ++ u32_le (shard_count layout))).
  assert (byte_range 28 32 H = u32_le RECORD_VERSION) as E4
    by (unfold H; field (MAGIC ++ u32_le version ++ u64_le sequence ++ u32_le (shard_count layout) ++ u32_le (routing_version layout))).
  unfold memory_parse_header. rewrite E1, E2, E3, E4, !u32_le_value, u64_le_value by done.
  assert ({| shard_count := shard_count layout; routing_version := routing_version layout |} = layout) as -> by by destruct layout.
  rewrite Hv. cbn [map_err mbind result_bind]. change (RECORD_VERSION =? RECORD_VERSION) with true. cbn [negb].
  destruct replication as [[ro ep]|]; subst version; [|done].
  change (MEMORY_REPLICATION_HEADER_VERSION =? MEMORY_REPLICATION_HEADER_VERSION) with true.
  cbn [replication_bytes role epoch replication_ok] in *.
  assert (byte_range 33 36 H = [x00; x00; x00]) as E5 by (rewrite EH; field (p ++ [role_byte ro])).
  assert (byte_range 32 33 H = [role_byte ro]) as E6 by (rewrite EH; field p).
  assert (byte_range 36 52 H = ep) as E7 by (rewrite EH; field (p ++ [role_byte ro; x00; x00; x00])).
  rewrite E5, E6, E7. destruct ro; cbn in *; [by rewrite Hp|done].
Qed.

(** A header that the encoder accepts is read back. *)
Lemma memory_header_ok h enc rest :
  0 <= mh_sequence h < 2 ^ 64 → replication_ok (mh_replication h) → memory_encode_header h = Ok enc →
  memory_read_header (enc ++ rest) = Ok (h, rest) ∧
  zlen enc = (match mh_replication h with Some _ => 56 | None => 36 end).
Proof.
  intros Hs Hr He. unfold memory_encode_header in He. apply bind_ok in He as (u & Hv & He).
  assert (DurableLayout_validate (mh_layout h) = Ok tt) as Hval by (destruct (DurableLayout_validate (mh_layout h)) as [[]|]; done).
  destruct (match mh_replication h with Some _ => _ | None => false end) eqn:Ep; [done|]. apply Ok_inj in He as <-.
  fold (replication_bytes (mh_replication h)). cbv zeta. set (version := match mh_replication h with Some _ => _ | None => _ end).
  set (total := match mh_replication h with Some _ => 56 | None => 36 end).
  assert (0 <= version <= U32_MAX) as Hver by (unfold version; destruct (mh_replication h); vm_compute; split; discriminate).
  assert ((if version =? MEMORY_HEADER_VERSION then Some MEMORY_HEADER_BYTES
           else if version =? MEMORY_REPLICATION_HEADER_VERSION then Some MEMORY_REPLICATION_HEADER_BYTES else None) = Some total) as Htot
    by (unfold version, total; destruct (mh_replication h); reflexivity).
  set (body := u32_le (shard_count (mh_layout h)) ++ u32_le (routing_version (mh_layout h)) ++ u32_le RECORD_VERSION ++ replication_bytes (mh_replication h)).
  assert (zlen (MAGIC ++ u32_le version ++ u64_le (mh_sequence h) ++ body) + 4 = total) as Hl.
  { unfold body. rewrite !zlen_app. unfold u32_le, u64_le. rewrite !le_bytes_zlen. unfold total.
    destruct (mh_replication h) as [[ro ep]|]; [|done]. cbn [replication_bytes replication_ok role epoch] in *.
    assert (zlen ep = 16) as E by (unfold zlen; lia). by rewrite zlen_cons, zlen_app, E. }
  split; [|unfold sealed_header; rewrite zlen_app, <- Hl; f_equal; apply le_bytes_zlen].
  destruct (sealed_header_read version (u64_le (mh_sequence h) ++ body) rest total Hl) as (tail & E1 & E2 & E3 & E4 & E5).
  unfold memory_read_header. rewrite E1. cbn [ok_or mbind result_bind].
  rewrite take_app_length', bool_decide_eq_true_2 by done. cbn [negb].
  assert (byte_range 8 12 (MAGIC ++ u32_le version) = u32_le version) as ->.
  { eapply (byte_range_mid _ _ _ MAGIC _ []); [by rewrite app_nil_r|done|apply le_bytes_length]. }
  rewrite u32_le_value by exact Hver. cbv zeta. rewrite Htot.
  cbn [ok_or mbind result_bind]. rewrite E2. cbn [ok_or mbind result_bind]. rewrite E3, E4, E5.
  rewrite u32_le_value by (pose proof (checksum_range (MAGIC ++ u32_le version ++ u64_le (mh_sequence h) ++ body)); unfold U32_MAX; lia).
  rewrite Z.eqb_refl. cbn [negb]. unfold body. by rewrite memory_parse_header_ok.
Qed.
