(* ===== verification/Profile.v ===== *)
(** * AOF profiles

    Models src/persistence/composed_format.rs, the fixed header of the profile whose
    batches span several owners, and src/persistence/profile.rs, the dispatch of the
    three profiles to the codecs of the headers and of the records. *)

From Stdlib Require Import Strings.Byte Strings.String ZArith Lia.
From S2P Require Import Prelude Float Wire Score Memory Command Store StoreInv StoreSpec Mutation StoreExec Routing Format MemoryFormat.

#[local] Open Scope Z_scope.

(** ** The composed header *)

Definition COMPOSED_HEADER_VERSION : Z := 7.
Definition COMPOSED_HEADER_BYTES : Z := 64.
Definition MIXED_OWNER_BATCH : Z := 1.

Inductive RecordVersion := LegacyRecords | MemoryRecords.
#[export] Instance RecordVersion_eq_decision : EqDecision RecordVersion.
Proof. solve_decision. Defined.
Definition record_version_number (v : RecordVersion) : Z :=
  match v with LegacyRecords => 1 | MemoryRecords => 2 end.

Record CHeader := {
  ch_sequence : Z;
  ch_layout : DurableLayout;
  ch_record_version : RecordVersion;
  ch_mixed_owner_batch : bool;
  ch_replication : option ReplicationMetadata
}.

Definition CHeader_validate (h : CHeader) : result FormatError unit :=
  _ ← map_err (λ _, FCorrupt "shard configuration") (DurableLayout_validate (ch_layout h));
  if match ch_replication h with Some metadata => bool_decide (epoch metadata = zero_epoch) | None => false end
  then Err (FCorrupt "replication epoch") else Ok tt.

Definition composed_encode_header (h : CHeader) : result FormatError bytes :=
  _ ← CHeader_validate h;
  let '(r, e) := match ch_replication h with
                 | Some metadata => (role_byte (role metadata), epoch metadata)
                 | None => (x00, zero_epoch)
                 end in
  Ok (sealed_header
        (MAGIC ++ u32_le COMPOSED_HEADER_VERSION ++ u32_le COMPOSED_HEADER_BYTES
         ++ u64_le (ch_sequence h) ++ u32_le (shard_count (ch_layout h))
         ++ u32_le (routing_version (ch_layout h)) ++ u32_le (record_version_number (ch_record_version h))
         ++ u32_le (if ch_mixed_owner_batch h then 1 else 0) ++ [r] ++ [x00; x00; x00] ++ e)).

Definition composed_replication (role_field : Z) (e : bytes) : result FormatError (option ReplicationMetadata) :=
  if role_field =? 0 then
    if bool_decide (e = zero_epoch) then Ok None else Err (FCorrupt "independent epoch")
  else if (role_field =? 1) || (role_field =? 2) then
    if bool_decide (e = zero_epoch) then Err (FCorrupt "replication epoch")
    else Ok (Some {| role := if role_field =? 1 then Primary else Replica; epoch := e |})
  else Err (FCorrupt "role").

Definition composed_read_header (input : bytes) : result FormatError (CHeader * bytes) :=
  '(prefix, input) ← ok_or FHeader (read_exact 12 input);
  if negb (bool_decide (take 8 prefix = MAGIC)) then Err FHeader
  else
    let version := le_value (byte_range 8 12 prefix) in
    if negb (version =? COMPOSED_HEADER_VERSION) then Err (FVersion version)
    else
      '(tail, input) ← ok_or FHeader (read_exact (COMPOSED_HEADER_BYTES - 12) input);
      let header := prefix ++ tail in
      if negb (le_value (byte_range 12 16 header) =? COMPOSED_HEADER_BYTES) then Err (FCorrupt "header length")
      else if negb (checksum (take 60 header) =? le_value (byte_range 60 64 header))
      then Err (FCorrupt "header checksum")
      else
        record_version ←
          (let v := le_value (byte_range 32 36 header) in
           if v =? 1 then Ok LegacyRecords else if v =? 2 then Ok MemoryRecords
           else Err (FCorrupt "record version"));
        let capabilities := le_value (byte_range 36 40 header) in
        if negb (Z.land capabilities (u32_not MIXED_OWNER_BATCH) =? 0) then Err (FCorrupt "required capabilities")
        else if negb (bool_decide (byte_range 41 44 header = [x00; x00; x00]))
        then Err (FCorrupt "reserved header bytes")
        else
          replication ← composed_replication (le_value (byte_range 40 41 header)) (byte_range 44 60 header);
          let h := {| ch_sequence := le_value (byte_range 16 24 header);
                      ch_layout := {| shard_count := le_value (byte_range 24 28 header);
                                      routing_version := le_value (byte_range 28 32 header) |};
                      ch_record_version := record_version;
                      ch_mixed_owner_batch := negb (Z.land capabilities MIXED_OWNER_BATCH =? 0);
                      ch_replication := replication |} in
          _ ← CHeader_validate h;
          Ok (h, input).

(** ** Profiles *)

Inductive Profile := LegacyProfile | MemoryProfile | ComposedLegacyMixed.
#[export] Instance Profile_eq_decision : EqDecision Profile.
Proof. solve_decision. Defined.

Definition Profile_selected (memory : bool) : Profile := if memory then MemoryProfile else LegacyProfile.

Definition profile_write_header (p : Profile) (sequence : Z) (layout : DurableLayout)
    (replication : option ReplicationMetadata) : result FormatError bytes :=
  match p with
  | ComposedLegacyMixed =>
      composed_encode_header {| ch_sequence := sequence; ch_layout := layout; ch_record_version := LegacyRecords;
                                ch_mixed_owner_batch := true; ch_replication := replication |}
  | MemoryProfile =>
      memory_encode_header {| mh_sequence := sequence; mh_layout := layout; mh_replication := replication |}
  | LegacyProfile => write_header_with_replication sequence layout replication
  end.

Definition profile_read_header (p : Profile) (input : bytes) : result FormatError (Header * bytes) :=
  match p with
  | ComposedLegacyMixed =>
      '(h, input) ← composed_read_header input;
      if negb (bool_decide (ch_record_version h = LegacyRecords)) || negb (ch_mixed_owner_batch h)
      then Err (FCorrupt "unsupported composed profile")
      else Ok ({| h_sequence := ch_sequence h; h_layout := ch_layout h;
                  h_format_version := COMPOSED_HEADER_VERSION; h_bytes := COMPOSED_HEADER_BYTES;
                  h_replication := ch_replication h |}, input)
  | LegacyProfile => read_header_with_layout input
  | MemoryProfile =>
      '(h, input) ← memory_read_header input;
      Ok ({| h_sequence := mh_sequence h; h_layout := mh_layout h;
             h_format_version := match mh_replication h with Some _ => 5 | None => 4 end;
             h_bytes := match mh_replication h with Some _ => 56 | None => 36 end;
             h_replication := mh_replication h |}, input)
  end.

Definition legacy (mu : MMutation) : result FormatError Mutation :=
  match mu with
  | Legacy mu => Ok mu
  | Image key collection key_deadline => Ok (Put key (VMemory collection) key_deadline)
  | Delta _ _ _ _ => Err (FVersion 2)
  end.
Definition convert (r : FRecord) : MRecord :=
  match r with
  | Snapshot mu => MSnapshot (from_storage mu)
  | Seal sequence entries digest => MSeal sequence entries digest
  | Batch sequence batch => MBatch sequence (origin batch) (from_storage <$> mutations batch)
  end.

Definition profile_read_record (p : Profile) (l : Limits) (input : bytes) : result FormatError MNext :=
  match p with
  | MemoryProfile => memory_read_record l input
  | _ =>
      next ← read_record l input;
      Ok match next with
         | End => MEnd
         | IncompleteTail => MIncompleteTail
         | NextRecord r rest => MNextRecord (convert r) rest
         end
  end.

Definition profile_encode (p : Profile) (r : MRecord) (l : Limits) : result FormatError bytes :=
  match p with
  | MemoryProfile => memory_encode r l
  | _ =>
      legacy_record ←
        match r with
        | MSnapshot mu => mu ← legacy mu; Ok (Snapshot mu)
        | MSeal sequence entries digest => Ok (Seal sequence entries digest)
        | MBatch sequence o ms =>
            ms ← try_map legacy ms; Ok (Batch sequence {| origin := o; mutations := ms |})
        end;
      encode_record legacy_record l
  end.
Definition profile_encode_legacy (p : Profile) (r : FRecord) (l : Limits) : result FormatError bytes :=
  profile_encode p (convert r) l.

(** ** The codec of the records, as an interface *)

(** What the recovery relies on. *)
Class RecordCodec (encode : MRecord → Limits → result FormatError bytes)
    (read : Limits → bytes → result FormatError MNext) : Prop := {
  codec_end l : read l [] = Ok MEnd;
  codec_nonempty r l enc : mrecord_ok r → encode r l = Ok enc → enc ≠ [];
  codec_read r l enc rest : mrecord_ok r → encode r l = Ok enc → read l (enc ++ rest) = Ok (MNextRecord r rest);
  codec_prefix r l enc n :
    mrecord_ok r → encode r l = Ok enc → (0 < n < length enc)%nat → read l (take n enc) = Ok MIncompleteTail;
  codec_corrupt r l enc i b rest :
    mrecord_ok r → encode r l = Ok enc → (i < length enc)%nat → enc !! i ≠ Some b →
    ∃ what, read l (<[i := b]> enc ++ rest) = Err (FCorrupt what)
}.

Lemma frame_nonempty size body : frame size body ≠ [].
Proof. intros E. pose proof (frame_zlen size body) as H. rewrite E, zlen_nil in H. pose proof (zlen_nonneg body). lia. Qed.

Lemma memory_codec : RecordCodec memory_encode memory_read_record.
Proof.
  split; [done|..]; intros r l enc.
  - intros Hr He. destruct (memory_encode_ok r l enc Hr He) as (size & body & -> & _). apply frame_nonempty.
  - intros rest Hr He. destruct (memory_encode_ok r l enc Hr He) as (size & body & -> & Hl & Hok & Hd).
    unfold memory_read_record. rewrite read_frame_ok by done. cbn [mbind result_bind]. by rewrite Hd.
  - intros n Hr He Hn. destruct (memory_encode_ok r l enc Hr He) as (size & body & -> & Hl & Hok & Hd).
    unfold memory_read_record. by rewrite read_frame_prefix.
  - intros i b rest Hr He Hi Hb. destruct (memory_encode_ok r l enc Hr He) as (size & body & -> & Hl & Hok & Hd).
    unfold memory_read_record. destruct (read_frame_corrupt l size body i b rest) as [what ->]; [done..|]. by exists what.
Qed.

(** The version-1 records behind the common interface. *)
Lemma encode_mutation_not_memory mu n : mutation_size mu = Ok n → from_storage mu = Legacy mu.
Proof. intros H. apply mutation_size_ok in H as [[_ Hf] _]. by destruct mu as [k [] d|k]. Qed.
Lemma encode_record_convert r l enc : encode_record r l = Ok enc →
  convert r = match r with
              | Snapshot mu => MSnapshot (Legacy mu)
              | Seal sequence entries digest => MSeal sequence entries digest
              | Batch sequence batch => MBatch sequence (origin batch) (Legacy <$> mutations batch)
              end.
Proof.
  intros He. apply encode_record_ok in He as (size & body & Hs & _). unfold record_size in Hs.
  destruct r as [mu| |sequence batch]; cbn [convert]; [|done|].
  - apply bind_ok in Hs as (x & (y & Hy & _)%bind_ok & _). f_equal. by eapply encode_mutation_not_memory.
  - apply bind_ok in Hs as (x & Hx & Hn%ok_or_ok). destruct (_ || _); [done|]. injection Hx as <-. f_equal.
    apply list_fmap_ext. intros i mu Hi%list_elem_of_lookup_2. apply try_fold_sizes in Hn as [Hf _].
    rewrite Forall_forall in Hf. destruct (Hf mu Hi) as [_ Hv]. by destruct mu as [k [] d|k].
Qed.

Definition as_legacy (r : MRecord) : result FormatError FRecord :=
  match r with
  | MSnapshot mu => mu ← legacy mu; Ok (Snapshot mu)
  | MSeal sequence entries digest => Ok (Seal sequence entries digest)
  | MBatch sequence o ms =>
      ms ← try_map legacy ms; Ok (Batch sequence {| origin := o; mutations := ms |})
  end.
Definition legacy_encode (r : MRecord) (l : Limits) : result FormatError bytes :=
  r ← as_legacy r; encode_record r l.
Definition legacy_read (l : Limits) (input : bytes) : result FormatError MNext :=
  next ← read_record l input;
  Ok match next with
     | End => MEnd
     | IncompleteTail => MIncompleteTail
     | NextRecord r rest => MNextRecord (convert r) rest
     end.

Lemma legacy_back mu mu' : legacy mu = Ok mu' → from_storage mu' = Legacy mu' → mmutation_ok mu → from_storage mu' = mu ∧ mutation_ok mu'.
Proof. destruct mu as [mu|k c d|k d e kd]; intros [= <-] Hf Hm; [done|]. split; [done|]. by destruct Hm as (? & _ & ?). Qed.
Lemma legacy_back_all ms ms' :
  try_map legacy ms = Ok ms' → from_storage <$> ms' = Legacy <$> ms' → Forall mmutation_ok ms →
  from_storage <$> ms' = ms ∧ Forall mutation_ok ms'.
Proof.
  intros Ht Hf Hm. revert ms' Ht Hf. induction Hm as [|mu ms Hmu Hm IH]; intros ms' Ht Hf; cbn in Ht; [by injection Ht as <-|].
  apply bind_ok in Ht as (mu' & Hl & (ms1 & Hl1 & <-%Ok_inj)%bind_ok). cbn in Hf. injection Hf as Hf1 Hf2.
  destruct (legacy_back mu mu' Hl Hf1 Hmu) as [E ?]. destruct (IH ms1 Hl1 Hf2) as [E1 ?].
  split; [cbn; by rewrite E, E1|by constructor].
Qed.
Lemma legacy_encode_ok r l enc :
  mrecord_ok r → legacy_encode r l = Ok enc →
  ∃ r', record_ok r' ∧ convert r' = r ∧ encode_record r' l = Ok enc.
Proof.
  intros Hr He. unfold legacy_encode in He. apply bind_ok in He as (r' & Hr' & He). exists r'.
  pose proof (encode_record_convert r' l enc He) as Hc.
  destruct r as [mu|sequence entries digest|sequence o ms]; cbn [as_legacy mrecord_ok] in *.
  - apply bind_ok in Hr' as (mu' & Hm & <-%Ok_inj). cbn in Hc. injection Hc as Hc.
    destruct (legacy_back mu mu' Hm Hc Hr) as [E ?]. split_and!; [done| |done]. cbn. by rewrite E.
  - injection Hr' as <-. done.
  - apply bind_ok in Hr' as (ms' & Hm & <-%Ok_inj). cbn in Hc. injection Hc as Hc. destruct Hr as [Hs Hms].
    destruct (legacy_back_all ms ms' Hm Hc Hms) as [E ?]. split_and!; [done| |done]. cbn. by rewrite E.
Qed.

Lemma legacy_codec : RecordCodec legacy_encode legacy_read.
Proof.
  split; [done|..]; intros r l enc.
  - intros Hr He. destruct (legacy_encode_ok r l enc Hr He) as (r' & _ & _ & He').
    apply encode_record_ok in He' as (size & body & _ & _ & -> & _). apply frame_nonempty.
  - intros rest Hr He. destruct (legacy_encode_ok r l enc Hr He) as (r' & Hr' & Hc & He').
    apply encode_record_ok in He' as (size & body & Hs & Hb & -> & Hl & Hok). unfold legacy_read, read_record.
    rewrite read_frame_ok by done. cbn [mbind result_bind]. rewrite (decode_record_ok r' l size) by done. cbn. by rewrite Hc.
  - intros n Hr He Hn. destruct (legacy_encode_ok r l enc Hr He) as (r' & _ & _ & He').
    apply encode_record_ok in He' as (size & body & _ & _ & -> & Hl & Hok). unfold legacy_read, read_record.
    by rewrite read_frame_prefix.
  - intros i b rest Hr He Hi Hb. destruct (legacy_encode_ok r l enc Hr He) as (r' & _ & _ & He').
    apply encode_record_ok in He' as (size & body & _ & _ & -> & Hl & Hok). unfold legacy_read, read_record.
    destruct (read_frame_corrupt l size body i b rest) as [what ->]; [done..|]. by exists what.
Qed.

(** Every profile keeps the promise. *)
#[export] Instance profile_codec p : RecordCodec (profile_encode p) (profile_read_record p).
Proof. destruct p; [exact legacy_codec|exact memory_codec|exact legacy_codec]. Qed.

(** ** Headers of the profiles *)

Definition composed_header (seq n1 n2 n3 n4 : Z) (r : byte) (e : bytes) : bytes :=
  MAGIC ++ u32_le COMPOSED_HEADER_VERSION ++ u32_le COMPOSED_HEADER_BYTES ++ u64_le seq ++ u32_le n1 ++ u32_le n2
  ++ u32_le n3 ++ u32_le n4 ++ [r] ++ [x00; x00; x00] ++ e.

Lemma composed_fields seq n1 n2 n3 n4 r e k :
  length e = 16%nat →
  let H := composed_header seq n1 n2 n3 n4 r e ++ u32_le k in
  byte_range 12 16 H = u32_le COMPOSED_HEADER_BYTES ∧ byte_range 16 24 H = u64_le seq ∧ byte_range 24 28 H = u32_le n1 ∧
  byte_range 28 32 H = u32_le n2 ∧ byte_range 32 36 H = u32_le n3 ∧ byte_range 36 40 H = u32_le n4 ∧
  byte_range 40 41 H = [r] ∧ byte_range 41 44 H = [x00; x00; x00] ∧ byte_range 44 60 H = e ∧ byte_range 60 64 H = u32_le k.
Proof.
  intros He H. unfold H, composed_header.
  set (p1 := MAGIC ++ u32_le COMPOSED_HEADER_VERSION). set (p2 := p1 ++ u32_le COMPOSED_HEADER_BYTES).
  set (p3 := p2 ++ u64_le seq). set (p4 := p3 ++ u32_le n1). set (p5 := p4 ++ u32_le n2). set (p6 := p5 ++ u32_le n3).
  set (p7 := p6 ++ u32_le n4). set (p8 := p7 ++ [r]). set (p9 := p8 ++ [x00; x00; x00]).
  assert (length p9 = 44%nat ∧ length p8 = 41%nat ∧ length p7 = 40%nat ∧ length p6 = 36%nat ∧ length p5 = 32%nat ∧
          length p4 = 28%nat ∧ length p3 = 24%nat ∧ length p2 = 16%nat ∧ length p1 = 12%nat) as Hl.
  { split_and!; unfold p9, p8, p7, p6, p5, p4, p3, p2, p1; rewrite ?length_app; cbn; done. }
  split_and!.
  - eapply (byte_range_mid _ _ _ p1); [unfold p1; rewrite <- ?app_assoc; reflexivity|apply Hl|done].
  - eapply (byte_range_mid _ _ _ p2); [unfold p2, p1; rewrite <- ?app_assoc; reflexivity|apply Hl|done].
  - eapply (byte_range_mid _ _ _ p3); [unfold p3, p2, p1; rewrite <- ?app_assoc; reflexivity|apply Hl|done].
  - eapply (byte_range_mid _ _ _ p4); [unfold p4, p3, p2, p1; rewrite <- ?app_assoc; reflexivity|apply Hl|done].
  - eapply (byte_range_mid _ _ _ p5); [unfold p5, p4, p3, p2, p1; rewrite <- ?app_assoc; reflexivity|apply Hl|done].
  - eapply (byte_range_mid _ _ _ p6); [unfold p6, p5, p4, p3, p2, p1; rewrite <- ?app_assoc; reflexivity|apply Hl|done].
  - eapply (byte_range_mid _ _ _ p7); [unfold p7, p6, p5, p4, p3, p2, p1; rewrite <- ?app_assoc; reflexivity|apply Hl|done].
  - eapply (byte_range_mid _ _ _ p8); [unfold p8, p7, p6, p5, p4, p3, p2, p1; rewrite <- ?app_assoc; reflexivity|apply Hl|done].
  - eapply (byte_range_mid _ _ _ p9); [unfold p9, p8, p7, p6, p5, p4, p3, p2, p1; rewrite <- ?app_assoc; reflexivity|apply Hl|done].
  - eapply (byte_range_mid _ _ _ (p9 ++ e) _ []); [unfold p9, p8, p7, p6, p5, p4, p3, p2, p1; rewrite ?app_nil_r, <- ?app_assoc; reflexivity| |done].
    rewrite length_app, He. destruct Hl as [-> _]. done.
Qed.

Lemma composed_header_ok h enc rest :
  0 <= ch_sequence h < 2 ^ 64 → replication_ok (ch_replication h) → composed_encode_header h = Ok enc →
  composed_read_header (enc ++ rest) = Ok (h, rest) ∧ zlen enc = 64.
Proof.
  intros Hs Hr He. unfold composed_encode_header in He. apply bind_ok in He as ([] & Hv & He).
  destruct (match ch_replication h with Some _ => _ | None => _ end) as [r e] eqn:Ere. apply Ok_inj in He as <-.
  assert (length e = 16%nat) as Hle by (destruct (ch_replication h); by simplify_eq/=).
  pose proof Hv as Hval. unfold CHeader_validate in Hval. apply bind_ok in Hval as ([] & Hlay & Hep).
  destruct (validate_ok _ Hlay) as (_ & Hc & Hw).
  set (n1 := shard_count (ch_layout h)) in *. set (n2 := routing_version (ch_layout h)) in *.
  set (n3 := record_version_number (ch_record_version h)). set (n4 := if ch_mixed_owner_batch h then 1 else 0).
  set (body := u32_le COMPOSED_HEADER_BYTES ++ u64_le (ch_sequence h) ++ u32_le n1 ++ u32_le n2 ++ u32_le n3 ++ u32_le n4 ++ [r] ++ [x00; x00; x00] ++ e).
  assert (zlen (MAGIC ++ u32_le COMPOSED_HEADER_VERSION ++ body) + 4 = 64) as Hl.
  { unfold body. rewrite !zlen_app. unfold u32_le, u64_le. rewrite !le_bytes_zlen. unfold zlen at 4. rewrite Hle. done. }
  split; [|unfold sealed_header; rewrite zlen_app, <- Hl; f_equal; apply le_bytes_zlen].
  destruct (sealed_header_read COMPOSED_HEADER_VERSION body rest 64 Hl) as (tail & E1 & E2 & E3 & E4 & E5).
  unfold composed_read_header. rewrite E1. cbn [ok_or mbind result_bind].
  rewrite take_app_length', bool_decide_eq_true_2 by done. cbn [negb].
  assert (byte_range 8 12 (MAGIC ++ u32_le COMPOSED_HEADER_VERSION) = u32_le COMPOSED_HEADER_VERSION) as ->.
  { eapply (byte_range_mid _ _ _ MAGIC _ []); [by rewrite app_nil_r|done|apply le_bytes_length]. }
  rewrite u32_le_value by done. rewrite Z.eqb_refl. cbn [negb]. change (COMPOSED_HEADER_BYTES - 12) with (64 - 12). rewrite E2.
  cbn [ok_or mbind result_bind]. rewrite E3. clear E1 E2 E3.
  change (Z.to_nat (64 - 4)) with 60%nat in E4. clear E5.
  change (MAGIC ++ u32_le COMPOSED_HEADER_VERSION ++ body) with (composed_header (ch_sequence h) n1 n2 n3 n4 r e) in *.
  set (H := sealed_header (composed_header (ch_sequence h) n1 n2 n3 n4 r e)) in *.
  set (k := checksum (composed_header (ch_sequence h) n1 n2 n3 n4 r e)) in *.
  destruct (composed_fields (ch_sequence h) n1 n2 n3 n4 r e k Hle) as (F1 & F2 & F3 & F4 & F5 & F6 & F7 & F8 & F9 & F10).
  change (composed_header (ch_sequence h) n1 n2 n3 n4 r e ++ u32_le k) with H in *.
  rewrite F1, F2, F3, F4, F5, F6, F7, F8, F9, F10, E4. fold k.
  assert (0 <= n3 <= U32_MAX) as H3 by (unfold n3, U32_MAX; destruct (ch_record_version h); cbn; lia).
  assert (0 <= n4 <= U32_MAX) as H4 by (unfold n4, U32_MAX; destruct (ch_mixed_owner_batch h); lia).
  assert (0 <= k <= U32_MAX) as Hk by (pose proof (checksum_range (composed_header (ch_sequence h) n1 n2 n3 n4 r e)); unfold U32_MAX; lia).
  rewrite !u32_le_value, u64_le_value by done. rewrite !Z.eqb_refl. cbn [negb].
  rewrite bool_decide_eq_true_2 by done. cbn [negb].
  assert ((if n3 =? 1 then Ok LegacyRecords else if n3 =? 2 then Ok MemoryRecords else Err (FCorrupt "record version")) =
          Ok (ch_record_version h)) as -> by (unfold n3; destruct (ch_record_version h); reflexivity).
  cbn [mbind result_bind].
  assert ((Z.land n4 (u32_not MIXED_OWNER_BATCH) =? 0) = true) as -> by (unfold n4; destruct (ch_mixed_owner_batch h); reflexivity).
  assert (negb (Z.land n4 MIXED_OWNER_BATCH =? 0) = ch_mixed_owner_batch h) as -> by (unfold n4; destruct (ch_mixed_owner_batch h); reflexivity).
  assert (composed_replication (le_value [r]) e = Ok (ch_replication h)) as ->.
  { destruct (ch_replication h) as [[ro ep]|]; cbn in Ere; injection Ere as <- <-; [|reflexivity].
    cbn [epoch] in Hep. destruct (bool_decide (ep = zero_epoch)) eqn:Eb; [done|]. unfold composed_replication.
    rewrite Eb. by destruct ro. }
  cbn [negb mbind result_bind]. 
  assert ({| ch_sequence := ch_sequence h; ch_layout := {| shard_count := n1; routing_version := n2 |};
             ch_record_version := ch_record_version h; ch_mixed_owner_batch := ch_mixed_owner_batch h;
             ch_replication := ch_replication h |} = h) as -> by (unfold n1, n2; destruct h as [? [] ? ? ?]; reflexivity).
  by rewrite Hv.
Qed.

Lemma profile_header_ok p sequence layout replication enc rest :
  0 <= sequence < 2 ^ 64 → replication_ok replication →
  profile_write_header p sequence layout replication = Ok enc →
  ∃ version, profile_read_header p (enc ++ rest) =
    Ok ({| h_sequence := sequence; h_layout := layout; h_format_version := version; h_bytes := zlen enc;
           h_replication := replication |}, rest).
Proof.
  intros Hs Hr He. destruct p; cbn [profile_write_header profile_read_header] in *.
  - eexists. by apply header_ok.
  - destruct (memory_header_ok {| mh_sequence := sequence; mh_layout := layout; mh_replication := replication |} enc rest Hs Hr He) as [-> Hl]. eexists. cbn. by rewrite Hl.
  - destruct (composed_header_ok {| ch_sequence := sequence; ch_layout := layout; ch_record_version := LegacyRecords;
      ch_mixed_owner_batch := true; ch_replication := replication |} enc rest Hs Hr He) as [-> Hl]. eexists. cbn. by rewrite Hl.
Qed.

(** C38. For every profile, a header that the writer accepts is read back by the
    profile with its sequence, its layout, its replication metadata and its length, and
    the records that follow are left untouched. *)
Theorem profile_header_roundtrip p sequence layout replication enc rest :
  0 <= sequence < 2 ^ 64 → replication_ok replication →
  profile_write_header p sequence layout replication = Ok enc →
  ∃ version, profile_read_header p (enc ++ rest) =
    Ok ({| h_sequence := sequence; h_layout := layout; h_format_version := version; h_bytes := zlen enc;
           h_replication := replication |}, rest).
Proof. apply profile_header_ok. Qed.

Definition sample_layout : DurableLayout := {| shard_count := 4; routing_version := 1 |}.
Definition sample_metadata : ReplicationMetadata := {| role := Replica; epoch := replicate 16 x05 |}.
Definition sample_header : bytes :=
  match profile_write_header ComposedLegacyMixed 9 sample_layout (Some sample_metadata) with Ok e => e | Err _ => [] end.
Lemma profile_header_roundtrip_witness :
  ∃ version, profile_read_header ComposedLegacyMixed (sample_header ++ [x01]) =
    Ok ({| h_sequence := 9; h_layout := sample_layout; h_format_version := version; h_bytes := zlen sample_header;
           h_replication := Some sample_metadata |}, [x01]).
Proof.
  apply (profile_header_roundtrip ComposedLegacyMixed 9 sample_layout (Some sample_metadata)); [lia|done|vm_compute; reflexivity].
Defined.

(** C25. Every profile reads back the records it encodes, whatever follows them, takes
    every strict prefix of a record for an incomplete tail, and refuses a record with
    one changed byte as corrupt. *)
Theorem profile_record_codec p r l enc :
  mrecord_ok r → profile_encode p r l = Ok enc →
  (∀ rest, profile_read_record p l (enc ++ rest) = Ok (MNextRecord r rest)) ∧
  (∀ n, (0 < n < length enc)%nat → profile_read_record p l (take n enc) = Ok MIncompleteTail) ∧
  (∀ i b rest, (i < length enc)%nat → enc !! i ≠ Some b →
     ∃ what, profile_read_record p l (<[i := b]> enc ++ rest) = Err (FCorrupt what)).
Proof.
  intros Hr He. split_and!.
  - intros rest. by apply (codec_read r).
  - intros n Hn. by apply (codec_prefix r).
  - intros i b rest Hi Hb. by apply (codec_corrupt r).
Qed.

Definition sample_profile_encoding : bytes :=
  match profile_encode MemoryProfile sample_mrecord Limits_default with Ok e => e | Err _ => [] end.
Lemma profile_record_codec_witness :
  profile_read_record MemoryProfile Limits_default (sample_profile_encoding ++ [x09]) = Ok (MNextRecord sample_mrecord [x09]) ∧
  profile_read_record MemoryProfile Limits_default (take 40 sample_profile_encoding) = Ok MIncompleteTail.
Proof.
  destruct (profile_record_codec MemoryProfile sample_mrecord Limits_default sample_profile_encoding) as (H1 & H2 & _).
  - split; [lia|]. repeat constructor; cbn; unfold I64_MIN, I64_MAX; try lia; done.
  - vm_compute. reflexivity.
  - split; [apply H1|]. apply H2. vm_compute. lia.
Defined.
