(* ===== verification/MemoryLifecycle.v ===== *)
(** * The lifecycle of memory collections

    Models src/storage/memory_lifecycle.rs and the memory path of [Store::execute] in
    src/storage/mod.rs: a memory operation runs on a shadow of its key, its result is
    resolved into a record-2 mutation, and the mutations are replayed as full images
    or as edits of the current collection. *)

From Stdlib Require Import Strings.Byte Strings.String ZArith Lia.
From S2P Require Import Prelude Float Wire Score Memory Command Store StoreInv StoreSpec Mutation StoreExec Replay Routing Format MemoryFormat.

#[local] Open Scope Z_scope.

(** ** Replies *)

Definition memory_error (e : MemoryError) : ExecutionError :=
  ExecMemory (match e with
              | Dimension => "ERR memory vector length mismatch"
              | NonFinite => "ERR memory vector contains non-finite value"
              | Deadline => "ERR invalid memory ttl"
              | Identity => "ERR memory model identity mismatch"
              | _ => "ERR memory limit exceeded"
              end)%string.

Definition bulk (value : bytes) : Reply := RBulk (Some value).
Definition descriptor_reply (d : Descriptor) : Reply :=
  RArray [RInteger 1; RInteger (dimension d); bulk (lit "L2SQ"); bulk (provider d); bulk (model d);
          bulk (revision d); bulk (transform d)].
Definition scalar_reply (s : Scalar) : bytes * bytes :=
  match s with
  | ScalarBytes value => (lit "BYTES", value)
  | ScalarInteger value => (lit "I64", sdec value)
  | ScalarBool value => (lit "BOOL", if value then lit "1" else lit "0")
  end.
Definition member_reply (m : Member) : Reply :=
  RArray
    [bulk (m_namespace m); bulk (m_content m); bulk (m_vector m); RInteger (default (-1) (m_deadline m));
     RArray ((λ e, let '(kind, value) := scalar_reply e.2 in RArray [bulk e.1; bulk kind; bulk value])
               <$> btree_iter (m_metadata m));
     RArray ((λ e, RArray [bulk e.1; bulk e.2]) <$> btree_iter (m_provenance m))].

(** ** Operations on the shadow *)

(** The number of visited members and of visited components. *)
Definition SearchStats : Type := Z * Z.
Definition memory_answer : Type := result ExecutionError (Reply * option MMutation).
(** The state is kept on an error; [None] is a panic. *)
Definition memory_outcome : Type := option (Store * option SearchStats * memory_answer).

Definition limit_exceeded : ExecutionError := ExecMemory "ERR memory limit exceeded".

Definition validate_search (d : Descriptor) (vector : bytes) (k : Z) (namespace : bytes) (metadata : gmap bytes Scalar)
    : result ExecutionError unit :=
  _ ← map_err memory_error (Descriptor_validate d);
  _ ← guard_ok (zlen vector =? dimension d * 4) (ExecMemory "ERR memory vector length mismatch");
  _ ← guard_ok (forallb (λ c, f32_finite (le_value c)) (chunks4 vector))
        (ExecMemory "ERR memory vector contains non-finite value");
  _ ← guard_ok ((1 <=? k) && (k <=? MAX_SEARCH_K)) (ExecMemory "ERR memory k is out of range");
  _ ← guard_ok ((zlen namespace <=? 256) && (Z.of_nat (size metadata) <=? 32)) limit_exceeded;
  guard_ok (forallb (λ e, (1 <=? zlen e.1) && (zlen e.1 <=? 64)
                          && match e.2 with ScalarBytes v => zlen v <=? 4096 | _ => true end)
              (btree_iter metadata)) limit_exceeded.

(** The checks that precede the expiration of the key. *)
Definition validate_operation (key : bytes) (o : Operation) : result ExecutionError unit :=
  _ ← guard_ok ((1 <=? zlen key) && (zlen key <=? 256)) limit_exceeded;
  match o with
  | MCreate d => map_err memory_error (Descriptor_validate d)
  | MPut d member _ _ => map_err memory_error (Member_validate member d)
  | MSearch d vector k namespace metadata => validate_search d vector k namespace metadata
  | _ => Ok tt
  end.

Definition memory_create (s : Store) (t : Sample) (key : bytes) (current : option Collection) (d : Descriptor)
    : option (Store * memory_answer) :=
  match current with
  | Some collection =>
      Some (s, if bool_decide (c_descriptor collection = d) then Ok (ROk, None)
               else Err (ExecMemory "ERR memory schema mismatch"))
  | None =>
      match map_err memory_error (collection ← Collection_new d; _ ← validate_key collection key; Ok collection) with
      | Err e => Some (s, Err e)
      | Ok collection =>
          if can_replace s key (VMemory collection)
          then s ← insert s t key (VMemory collection) None; Some (s, Ok (ROk, Some (Image key collection None)))
          else Some (s, Err OutOfMemory)
      end
  end.

(** An operation on a key without a collection. *)
Definition memory_missing (o : Operation) : option SearchStats * memory_answer :=
  match o with
  | MPut _ _ _ _ => (None, Err (ExecMemory "ERR memory collection does not exist"))
  | MInfo | MGet _ => (None, Ok (RBulk None, None))
  | MSearch _ _ _ _ _ => (Some (0, 0), Ok (RArray [], None))
  | MPttl _ => (None, Ok (RInteger (-2), None))
  | _ => (None, Ok (RInteger 0, None))
  end.

(** The identity of the model, then the dimension. *)
Definition check_identity (d stored : Descriptor) : result ExecutionError unit :=
  _ ← guard_ok (bool_decide (provider d = provider stored) && bool_decide (model d = model stored)
                && bool_decide (revision d = revision stored) && bool_decide (transform d = transform stored))
        (ExecMemory "ERR memory model identity mismatch");
  guard_ok (dimension d =? dimension stored) (ExecMemory "ERR memory vector length mismatch").

(** Not past its instant on the monotonic clock. *)
Definition member_visible (entry : Entry) (t : Sample) (id : bytes) : bool :=
  match member_deadlines entry !! id with Some deadline => now t <? deadline | None => true end.

Definition memory_search (t : Sample) (entry : Entry) (collection : Collection) (d : Descriptor) (vector : bytes)
    (k : Z) (namespace : bytes) (metadata : gmap bytes Scalar)
    : result ExecutionError (list (bytes * f64) * SearchStats) :=
  _ ← check_identity d (c_descriptor collection);
  map_err (λ e, match e with Quota => ExecMemory "ERR memory search work limit exceeded" | e => memory_error e end)
    (search_with_visibility_stats collection vector k namespace metadata (unix_millis t)
       (λ m, member_visible entry t (m_id m))).
Definition hit_reply (h : bytes * f64) : Reply := RArray [bulk h.1; bulk (u64_le (to_bits h.2))].

Definition apply_memory_edit (s : Store) (t : Sample) (key : bytes) (collection : Collection) (edit : Edit)
    : option (Store * result ExecutionError MMutation) :=
  r ← apply_edits collection (c_descriptor collection) [edit] key;
  match map_err memory_error r with
  | Err e => Some (s, Err e)
  | Ok candidate =>
      if negb (can_replace s key (VMemory candidate)) then Some (s, Err OutOfMemory)
      else
        match resolve_member_deadlines s t key (VMemory candidate) with
        | Err e => Some (s, Err (memory_error e))
        | Ok _ =>
            let expiry := values s !! key ≫= entry_expiry in
            s ← insert s t key (VMemory candidate) expiry;
            Some (s, Ok (Delta key (c_descriptor collection) [edit] (snd <$> expiry)))
        end
  end.

(** [deadline] with a positive absolute time. *)
Definition member_ttl (t : Sample) (milliseconds : Z) : result ExecutionError Z :=
  ok_or (ExecMemory "ERR invalid memory ttl")
    ('(_, absolute) ← deadline t milliseconds; if 0 <? absolute then Some absolute else None).

Definition with_deadline (m : Member) (d : option Z) : Member :=
  {| m_id := m_id m; m_namespace := m_namespace m; m_content := m_content m; m_vector := m_vector m;
     m_deadline := d; m_metadata := m_metadata m; m_provenance := m_provenance m |}.

(** What an operation on a member does: it replies, or it edits the collection and
    replies [1]; an expired member is removed behind the reply of a read. *)
Inductive MemberAction :=
| Replies (reply : Reply)
| Cleans (reply : Reply) (edit : Edit)
| Edits (edit : Edit).

Definition put_deadline (t : Sample) (live : option Member) (ttl : Ttl) : result ExecutionError (option Z) :=
  match ttl with
  | TtlPersistent => Ok None
  | TtlKeep => Ok (live ≫= m_deadline)
  | TtlAfter milliseconds =>
      if milliseconds <=? 0 then Err (ExecMemory "ERR invalid memory ttl")
      else absolute ← member_ttl t milliseconds; Ok (Some absolute)
  end.

(** The smaller of two optional instants. *)
Definition earliest (a b : option Z) : option Z :=
  match a, b with
  | Some x, Some y => Some (Z.min x y)
  | Some x, None | None, Some x => Some x
  | None, None => None
  end.
Definition member_pttl (t : Sample) (entry : Entry) (id : bytes) : Z :=
  match earliest (expires_at entry) (member_deadlines entry !! id) with
  | Some deadline => Z.min (remaining_millis deadline (now t)) I64_MAX
  | None => -1
  end.

Definition member_action (t : Sample) (entry : Entry) (collection : Collection) (id : bytes) (expired : bool)
    (live : option Member) (o : Operation) : option (result ExecutionError MemberAction) :=
  match o with
  | MPut d member ttl condition =>
      Some (_ ← check_identity d (c_descriptor collection);
            if match condition, live with
               | Missing, Some _ | Present, None => true
               | _, _ => false
               end
            then Ok (Replies (RInteger 0))
            else deadline ← put_deadline t live ttl; Ok (Edits (Upsert (with_deadline member deadline))))
  | MGet _ =>
      Some (Ok match live with
               | Some m => Replies (member_reply m)
               | None => if expired then Cleans (RBulk None) (Remove id) else Replies (RBulk None)
               end)
  | MPttl _ =>
      Some (Ok match live with
               | Some m => Replies (RInteger (member_pttl t entry (m_id m)))
               | None => if expired then Cleans (RInteger (-2)) (Remove id) else Replies (RInteger (-2))
               end)
  | MDelete _ =>
      Some (Ok match live with Some _ => Edits (Remove id) | None => Replies (RInteger 0) end)
  | MExpire _ milliseconds =>
      Some match live with
           | None => Ok (Replies (RInteger 0))
           | Some m =>
               if milliseconds <=? 0 then Ok (Edits (Remove (m_id m)))
               else absolute ← member_ttl t milliseconds; Ok (Edits (Upsert (with_deadline m (Some absolute))))
           end
  | MPersist _ =>
      Some (Ok match live with
               | None => Replies (RInteger 0)
               | Some m =>
                   match m_deadline m with
                   | None => Replies (RInteger 0)
                   | Some _ => Edits (Upsert (with_deadline m None))
                   end
               end)
  | MCreate _ | MInfo | MSearch _ _ _ _ _ => None
  end.

Definition operation_id (o : Operation) : option bytes :=
  match o with
  | MPut _ member _ _ => Some (m_id member)
  | MGet id | MDelete id | MPttl id | MExpire id _ | MPersist id => Some id
  | MCreate _ | MInfo | MSearch _ _ _ _ _ => None
  end.

Definition memory_member (s : Store) (t : Sample) (key : bytes) (entry : Entry) (collection : Collection)
    (o : Operation) : option (Store * memory_answer) :=
  id ← operation_id o;
  if (zlen id =? 0) || (256 <? zlen id) then Some (s, Err limit_exceeded)
  else
    let expired := match member_deadlines entry !! id with Some d => d <=? now t | None => false end in
    let live := if expired then None else c_members collection !! id in
    action ← member_action t entry collection id expired live o;
    match action with
    | Err e => Some (s, Err e)
    | Ok (Replies reply) => Some (s, Ok (reply, None))
    | Ok (Cleans reply edit) =>
        '(s, r) ← apply_memory_edit s t key collection edit; Some (s, resolved ← r; Ok (reply, Some resolved))
    | Ok (Edits edit) =>
        '(s, r) ← apply_memory_edit s t key collection edit; Some (s, resolved ← r; Ok (RInteger 1, Some resolved))
    end.

Definition try_memory_inner (s : Store) (t : Sample) (key : bytes) (o : Operation) : memory_outcome :=
  match validate_operation key o with
  | Err e => Some (s, None, Err e)
  | Ok _ =>
      s ← expire_key s key (now t);
      match values s !! key with
      | Some {| e_value := VMemory collection |} as entry =>
          entry ← entry;
          match o with
          | MCreate d => '(s, r) ← memory_create s t key (Some collection) d; Some (s, None, r)
          | MInfo => Some (s, None, Ok (descriptor_reply (c_descriptor collection), None))
          | MSearch d vector k namespace metadata =>
              Some match memory_search t entry collection d vector k namespace metadata with
                   | Ok (hits, stats) => (s, Some stats, Ok (RArray (hit_reply <$> hits), None))
                   | Err e => (s, None, Err e)
                   end
          | _ => '(s, r) ← memory_member s t key entry collection o; Some (s, None, r)
          end
      | Some _ => Some (s, None, Err WrongType)
      | None =>
          match o with
          | MCreate d => '(s, r) ← memory_create s t key None d; Some (s, None, r)
          | _ => let '(stats, r) := memory_missing o in Some (s, stats, r)
          end
      end
  end.

Definition memory_inner (s : Store) (t : Sample) (key : bytes) (o : Operation)
    : option (Store * option SearchStats * (Reply * option MMutation)) :=
  '(s, stats, r) ← try_memory_inner s t key o;
  Some (s, stats, match r with Ok answer => answer | Err e => (RError e, None) end).

(** ** Preparation *)

Record PreparedMemory := {
  pm_prepared : Prepared;
  pm_resolved : option MMutation;
  pm_search_stats : option SearchStats
}.

(** The batch of the mutation and the snapshot of the entry must both fit. *)
Definition record_fits (limit : Z) (key : bytes) (mu : MMutation) (after : option Entry) : bool :=
  match MMutation_encoded_bytes mu with
  | Ok n => match u_add n 14 with Some size => (size <=? limit) && (size <=? MAX_RECORD_BYTES) | None => false end
  | Err _ => false
  end
  && match after with
     | Some {| e_value := VMemory collection |} =>
         let size := 15 + zlen key + c_encoded_bytes collection in (size <=? limit) && (size <=? MAX_RECORD_BYTES)
     | _ => true
     end.

Definition prepare_memory_with_limit (s : Store) (t : Sample) (key : bytes) (o : Operation) (record_limit : Z)
    : option PreparedMemory :=
  let or := if Operation_writes_dataset o then Client else Expiration in
  sh ← empty_shadow s;
  let sh := load_entry true s sh key in
  '(sh, stats, (reply, resolved)) ← memory_inner sh t key o;
  let after := values sh !! key in
  let changed := negb (bool_decide (e_generation <$> values s !! key = e_generation <$> after)) in
  let entries := if changed then [(key, after)] else [] in
  let resolved := match resolved with
                  | Some mu => Some mu
                  | None => if changed then Some (Legacy (Delete key)) else None
                  end in
  if match resolved with Some mu => negb (record_fits record_limit key mu after) | None => false end
  then Some {| pm_prepared := prepared s (RError AofRecordLimit) [] or; pm_resolved := None; pm_search_stats := None |}
  else Some {| pm_prepared := prepared s reply entries or; pm_resolved := resolved; pm_search_stats := stats |}.
Definition prepare_memory (s : Store) (t : Sample) (key : bytes) (o : Operation) : option PreparedMemory :=
  prepare_memory_with_limit s t key o MAX_RECORD_BYTES.

Definition apply_memory (s : Store) (p : PreparedMemory) : option (Store * Reply) := apply s (pm_prepared p).

Definition execute `{HashOrder} (s : Store) (t : Sample) (c : Command) : option (Store * Reply) :=
  match c with
  | CMemory key o => p ← prepare_memory s t key o; apply_memory s p
  | _ => execute_plain s t c
  end.

(** ** Replay and resolution *)

(** The full image of a replayed mutation. *)
Definition replay_image (s : Store) (mu : MMutation) : option (result ReplayError Mutation) :=
  match mu with
  | Legacy mu => Some (Ok mu)
  | Image key collection key_deadline =>
      Some (_ ← map_err ReplayMemory (validate_key collection key);
            Ok (Put key (VMemory collection) key_deadline))
  | Delta key d edits key_deadline =>
      match values s !! key with
      | Some {| e_value := VMemory collection |} =>
          r ← apply_edits collection d edits key;
          Some (candidate ← map_err ReplayMemory r; Ok (Put key (VMemory candidate) key_deadline))
      | _ => Some (Err (ReplayMemory Identity))
      end
  end.
Fixpoint replay_images (s : Store) (seen : gset bytes) (l : list MMutation)
    : option (result ReplayError (list Mutation)) :=
  match l with
  | [] => Some (Ok [])
  | mu :: l =>
      if bool_decide (MMutation_key mu ∈ seen) then Some (Err DuplicateKey)
      else
        r ← replay_image s mu;
        match r with
        | Err e => Some (Err e)
        | Ok image => rest ← replay_images s ({[MMutation_key mu]} ∪ seen) l; Some (images ← rest; Ok (image :: images))
        end
  end.
Definition prepare_memory_replay (s : Store) (t : Sample) (l : list MMutation) (o : MutationOrigin)
    : option (result ReplayError Prepared) :=
  r ← replay_images s ∅ l;
  match r with
  | Err e => Some (Err e)
  | Ok images => prepare_replay s t images o
  end.
Definition replay_memory (s : Store) (t : Sample) (l : list MMutation) : option (result ReplayError Store) :=
  r ← prepare_memory_replay s t l Client;
  match r with
  | Ok p => '(s, _) ← apply s p; Some (Ok s)
  | Err e => Some (Err e)
  end.

Definition snapshot_memory `{HashOrder} (s : Store) : list MMutation := from_storage <$> snapshot s.

(** The edits from one collection to another, in the order of the ids. *)
Definition resolve_edits (before after : Collection) : list Edit :=
  let removed := base.filter (λ e, c_members after !! e.1 = None) (c_members before) in
  let written := base.filter (λ e, c_members before !! e.1 ≠ Some e.2) (c_members after) in
  let edits : gmap bytes Edit :=
    fold_left (λ m e, <[e.1 := Upsert e.2]> m) (btree_iter written)
      (fold_left (λ m e, <[e.1 := Remove e.1]> m) (btree_iter removed) ∅) in
  (btree_iter edits).*2.
Definition resolve_mutation (s : Store) (mu : Mutation) : MMutation :=
  match mu with
  | Put key (VMemory after) expires_at_unix_ms =>
      match values s !! key with
      | Some {| e_value := VMemory before |} =>
          if bool_decide (c_descriptor before = c_descriptor after)
          then Delta key (c_descriptor after) (resolve_edits before after) expires_at_unix_ms
          else from_storage mu
      | _ => from_storage mu
      end
  | _ => from_storage mu
  end.
Definition resolved_memory_mutations (s : Store) (p : Prepared) : list MMutation :=
  resolve_mutation s <$> mutations (p_batch p).

Definition expired_memory_members (s : Store) (p : Prepared) : Z :=
  match origin (p_batch p) with
  | Client => 0
  | Expiration =>
      zsum_with (λ mu,
        match mu with
        | Put key (VMemory after) _ =>
            match values s !! key with
            | Some {| e_value := VMemory before |} =>
                zlen (List.filter (λ id, negb (bool_decide (is_Some (c_members after !! id))))
                        (btree_iter (c_members before)).*1)
            | _ => 0
            end
        | _ => 0
        end) (mutations (p_batch p))
  end.

(** ** Memory operations on a shadow *)

Definition edit_i64 (e : Edit) : Prop := match e with Upsert m => i64_deadline (m_deadline m) | Remove _ => True end.

(** The image of a memory operation on a live key, and the mutation that records it. *)
Record written (s : Store) (key : bytes) (s' : Store) (mu : MMutation) : Prop := {
  wr_image : ∃ c ds, let e := fresh_entry (VMemory c) (values s !! key ≫= entry_expiry) ds in
    step key s (installed s key e) ∧ s' = installed s key e ∧
    replay_image s mu = Some (Ok (mutation_of (key, Some e)));
  wr_key : MMutation_key mu = key
}.

Definition effect (s : Store) (key : bytes) (s' : Store) (r : memory_answer) : Prop :=
  match r with
  | Ok (_, Some mu) => written s key s' mu
  | _ => s' = s
  end.

Lemma apply_edits_i64 c d edits key c' :
  collection_wf c → apply_edits c d edits key = Some (Ok c') → i64_members (VMemory c) → Forall edit_i64 edits →
  i64_members (VMemory c').
Proof.
  intros Hc Ha Hi He. destruct (apply_edits_ok c d edits key Hc) as (r & Hr & Hok). rewrite Ha in Hr.
  injection Hr as <-. destruct (Hok c' eq_refl) as (_ & _ & _ & _ & Hm & _). cbn. rewrite Hm. clear -Hi He.
  cbn in Hi. revert Hi. generalize (c_members c). induction He as [|e edits He _ IH]; intros ms Hi; [done|].
  cbn. apply IH. intros id m. destruct e as [m'|id']; cbn.
  - intros [[_ <-]|[_ ?]]%lookup_insert_Some; eauto.
  - intros [_ ?]%lookup_delete_Some. eauto.
Qed.

Lemma apply_memory_edit_ok base s t key e c edit :
  core base s → live s t key → values s !! key = Some e → e_value e = VMemory c → edit_i64 edit →
  ∃ s' r, apply_memory_edit s t key c edit = Some (s', r) ∧
          match r with Ok mu => written s key s' mu | Err _ => s' = s end.
Proof.
  intros Hc Hl Hk Hv Hi. pose proof (co_entries _ _ Hc _ _ Hk) as He. pose proof He as [Hw Hq _ _ [_ Hm]].
  rewrite Hv in Hw, Hq, Hm. cbn in Hw, Hq. unfold apply_memory_edit.
  destruct (apply_edits_ok c (c_descriptor c) [edit] key Hw) as (r & Hr & Hok). rewrite Hr. cbn [mbind option_bind].
  destruct r as [c'|err]; cbn [map_err]; [|by exists s, (Err (memory_error err))].
  destruct (Hok c' eq_refl) as (Hw' & Hq' & _).
  destruct (can_replace s key (VMemory c')) eqn:Er; cbn [negb]; [|by exists s, (Err OutOfMemory)].
  destruct (resolve_member_deadlines s t key (VMemory c')) as [ds|err] eqn:Ed; [|by exists s, (Err (memory_error err))].
  apply (can_replace_ok base) in Er; [|done..].
  assert (entry_ok key (fresh_entry (VMemory c') (values s !! key ≫= entry_expiry) ds)) as Hf.
  { apply entry_ok_fresh; [done..|by eapply resolve_deadlines_ok| |].
    - eapply live_expiry_i64. by eapply a_expiry_future.
    - eapply apply_edits_i64; [exact Hw|done..|]. by constructor. }
  rewrite (insert_eq base _ _ _ _ _ ds) by done. cbn [mbind option_bind]. do 2 eexists. split; [done|].
  split; [|done]. exists c', ds. cbn zeta. split_and!; [by constructor|done|].
  cbn [replay_image]. rewrite Hk. destruct e as [v ? ? ? ?]. cbn in Hv. subst v. by rewrite Hr.
Qed.

Lemma member_ttl_i64 t ms a : member_ttl t ms = Ok a → i64_deadline (Some a).
Proof.
  unfold member_ttl, deadline, i_add. intros H. inv_ok. destruct (0 <? _); [|done]. simplify_eq. cbn.
  match goal with H : i64_checked _ = Some _ |- _ => apply i64_checked_Some in H end. lia.
Qed.

Lemma memory_create_ok base s t key d :
  core base s → values s !! key = None →
  ∃ s' r, memory_create s t key None d = Some (s', r) ∧ effect s key s' r.
Proof.
  intros Hc Hk. unfold memory_create.
  destruct (collection ← Collection_new d; _ ← validate_key collection key; Ok collection) as [c|err] eqn:E;
    cbn [map_err]; [|by do 2 eexists].
  apply bind_ok in E as (c' & Hn & ([] & Hv & [= ->])%bind_ok).
  destruct (collection_new_wf d c Hn) as (Hw & _ & Hm).
  destruct (can_replace s key (VMemory c)) eqn:Er; [|by do 2 eexists].
  apply (can_replace_ok base) in Er; [|done..].
  assert (entry_ok key (fresh_entry (VMemory c) None ∅)) as Hf.
  { apply entry_ok_fresh; [done|by apply validate_key_ok, collection_logical_pos| |done|].
    - intros id. cbn. rewrite Hm, lookup_empty. split; [by intros []|by intros (? & ? & _)].
    - intros id m. cbn. by rewrite Hm. }
  rewrite (insert_eq base _ _ _ _ _ ∅) by (try done; cbn; by rewrite Hm). cbn [mbind option_bind].
  do 2 eexists. split; [done|]. cbn. split; [|done]. exists c, ∅. rewrite Hk. cbn.
  split_and!; [by constructor|done|]. by rewrite Hv.
Qed.

(** What a member operation may ask for. *)
Definition action_i64 (a : MemberAction) : Prop :=
  match a with Cleans _ edit | Edits edit => edit_i64 edit | Replies _ => True end.

Lemma member_action_i64 t entry c id expired live o a :
  (∀ m, live = Some m → i64_deadline (m_deadline m)) →
  member_action t entry c id expired live o = Some (Ok a) → action_i64 a.
Proof.
  intros Hl. destruct o; cbn [member_action]; intros Ha; try done.
  - injection Ha as Ha. apply bind_ok in Ha as ([] & _ & Ha).
    match type of Ha with (if ?b then _ else _) = _ => destruct b end; [by injection Ha as <-|].
    apply bind_ok in Ha as (d & Hd & [= <-]). cbn. destruct ttl; cbn in Hd.
    + by injection Hd as <-.
    + injection Hd as <-. destruct live; [by apply Hl|done].
    + destruct (_ <=? _); [done|]. apply bind_ok in Hd as (a & Ha%member_ttl_i64 & [= <-]). done.
  - injection Ha as <-. by repeat case_match.
  - injection Ha as <-. by repeat case_match.
  - injection Ha as <-. by repeat case_match.
  - injection Ha as Ha. destruct live; [|by injection Ha as <-]. destruct (_ <=? _); [by injection Ha as <-|].
    by apply bind_ok in Ha as (a' & Ha%member_ttl_i64 & [= <-]).
  - injection Ha as <-. by repeat case_match.
Qed.

Lemma member_action_some t entry c id expired live o :
  is_Some (operation_id o) → is_Some (member_action t entry c id expired live o).
Proof. destruct o; cbn; intros [? H]; try done; by eexists. Qed.

Lemma memory_member_ok base s t key e c o :
  core base s → live s t key → values s !! key = Some e → e_value e = VMemory c → is_Some (operation_id o) →
  ∃ s' r, memory_member s t key e c o = Some (s', r) ∧ effect s key s' r.
Proof.
  intros Hc Hl Hk Hv [id Hid]. unfold memory_member. rewrite Hid. cbn [mbind option_bind].
  destruct (_ || _); [by do 2 eexists|].
  set (expired := match member_deadlines e !! id with Some _ => _ | None => _ end).
  set (alive := if expired then None else _).
  destruct (member_action_some t e c id expired alive o) as [[a|err] Ha]; [by eexists| |];
    rewrite Ha; cbn [mbind option_bind]; [|by do 2 eexists].
  assert (action_i64 a) as Hi.
  { eapply member_action_i64; [|exact Ha]. intros m Hm. unfold alive in Hm. destruct expired; [done|].
    destruct (co_entries _ _ Hc _ _ Hk) as [_ _ _ _ [_ Hm']]. rewrite Hv in Hm'. by apply (Hm' id). }
  destruct a as [reply|reply edit|edit]; [by do 2 eexists|..].
  all: destruct (apply_memory_edit_ok base s t key e c edit) as (s' & [mu|err] & -> & Hr); try done.
  all: cbn; by do 2 eexists.
Qed.

(** A memory operation first drops its key when it is past its deadline, and then
    leaves it alone or installs an image that its mutation records. *)
Lemma try_memory_inner_ok base s t key o :
  core base s →
  ∃ s1 s' stats r, try_memory_inner s t key o = Some (s', stats, r) ∧ (s1 = s ∨ s1 = evict s key) ∧
                   effect s1 key s' r.
Proof.
  intros Hc. unfold try_memory_inner. destruct (validate_operation key o) as [[]|err].
  2:{ exists s, s. do 2 eexists. split_and!; [done|by left|done]. }
  destruct (expire_key_ok base s t key Hc) as (s1 & E & _ & Hc1 & Hl & _). rewrite E. cbn [mbind option_bind].
  assert (s1 = s ∨ s1 = evict s key) as Hs1.
  { unfold expire_key in E. destruct (values s !! key) as [e|]; [|left; congruence].
    destruct (expired_at e (now t)); [|left; congruence]. rewrite (remove_eq base) in E by done.
    cbn in E. right. congruence. }
  exists s1. destruct (values s1 !! key) as [e|] eqn:Ek.
  - destruct (e_value e) as [| | | | |c] eqn:Ev; destruct e as [v x u g ds]; cbn in Ev; subst v;
      try (do 3 eexists; split_and!; [reflexivity|done|done]).
    set (e := {| e_value := VMemory c; expires_at := x |}) in *. cbn [mbind option_bind].
    assert (∀ o, is_Some (operation_id o) → ∃ s' stats r,
      ('(s, r) ← memory_member s1 t key e c o; Some (s, None (A := SearchStats), r)) = Some (s', stats, r) ∧
      (s1 = s ∨ s1 = evict s key) ∧ effect s1 key s' r) as Hm.
    { intros o' Ho'. destruct (memory_member_ok base s1 t key e c o') as (s' & r & -> & He); try done.
      cbn. by do 3 eexists. }
    destruct o; try (apply Hm; by eexists).
    + cbn. do 3 eexists. split_and!; [done..|]. by case_bool_decide.
    + do 3 eexists. split_and!; [done..|]. done.
    + destruct (memory_search _ _ _ _ _ _ _ _) as [[hits stats]|err]; do 3 eexists; split_and!; try done.
  - destruct o; try (cbn; do 3 eexists; split_and!; [done..|]; done).
    destruct (memory_create_ok base s1 t key descriptor Hc1 Ek) as (s' & r & -> & He). cbn. by do 3 eexists.
Qed.

(** ** Preparation of a memory operation *)

Lemma replay_image_local s s' mu m :
  values s' !! MMutation_key mu = values s !! MMutation_key mu ∨ values s' !! MMutation_key mu = None →
  replay_image s' mu = Some (Ok m) → replay_image s mu = Some (Ok m).
Proof.
  destruct mu as [mu|key c d|key d edits x]; [done..|]. cbn. by intros [->| ->].
Qed.

Lemma finished_shadow s keys sh : is_shadow s keys sh → finished s keys sh [].
Proof.
  intros Hs. split.
  - exists sh. split_and!; [done|apply Hs..].
  - intros k Hk. by rewrite (sh_values _ _ _ Hs), decide_False.
  - intros k Hk _. by rewrite (sh_values _ _ _ Hs), decide_True.
  - by intros k ?%not_elem_of_nil.
  - constructor.
Qed.

(** The key an operation changed, if it did. *)
Lemma finished_single s key sh0 sh :
  is_shadow s [key] sh0 → steps 2 [key] sh0 sh → core (used_bytes s - loaded sh0) sh → finished s [key] sh [key].
Proof.
  intros Hs Hst Hc. destruct (steps_frame _ _ _ _ Hst) as [Hcf Hfr]. split.
  - exists sh0. split_and!; [done..|]. by rewrite Hcf, (sh_config _ _ _ Hs).
  - intros k Hk. by rewrite Hfr, (sh_values _ _ _ Hs), decide_False by done.
  - done.
  - done.
  - apply NoDup_singleton.
Qed.

Lemma effect_steps s key s' r : effect s key s' r → steps 1 [key] s s'.
Proof.
  destruct r as [[reply [mu|]]|]; cbn; try (intros ->; apply steps_refl).
  intros [(c & ds & Hst & -> & _) _]. by apply (steps_one _ key); [left|].
Qed.

(** The outcome of a preparation: nothing recorded and nothing to apply, or one
    mutation that describes the entry to apply. *)
Definition recorded (s : Store) (key : bytes) (sh : Store) (l : list bytes) (resolved : option MMutation) : Prop :=
  match resolved with
  | None => l = []
  | Some mu => l = [key] ∧ MMutation_key mu = key ∧ replay_image s mu = Some (Ok (mutation_of (key, values sh !! key))) ∧
               ∀ e, values sh !! key = Some e → is_memory (e_value e) = true
  end.

Definition memory_origin (o : Operation) : MutationOrigin := if Operation_writes_dataset o then Client else Expiration.

Definition mutation_answer (r : memory_answer) : option MMutation := match r with Ok (_, mu) => mu | Err _ => None end.

(** Either nothing changed, or the key expired, or a new image is recorded. *)
Lemma effect_cases s key s1 s' r :
  gens_ok s → 0 <= generation s → generation s + 6 < 2 ^ 64 →
  (s1 = s ∨ s1 = evict s key) → effect s1 key s' r →
  match mutation_answer r with
  | None => values s' !! key = values s !! key ∨ values s' !! key = None
  | Some mu => MMutation_key mu = key ∧ replay_image s mu = Some (Ok (mutation_of (key, values s' !! key))) ∧
               e_generation <$> values s !! key ≠ e_generation <$> values s' !! key ∧
               ∀ e, values s' !! key = Some e → is_memory (e_value e) = true
  end.
Proof.
  intros Hg H0 Hb Hs1 He.
  assert (generation s <= generation s1 <= generation s + 1) as Hg1.
  { destruct Hs1 as [->| ->]; [lia|]. apply evict_generation; lia. }
  assert (values s1 !! key = values s !! key ∨ values s1 !! key = None) as Hv1.
  { destruct Hs1 as [->| ->]; [by left|right]. by rewrite evict_values, lookup_delete_eq. }
  destruct r as [[reply [mu|]]|err]; cbn in He |- *; [|by subst s'..].
  destruct He as [(c & ds & _ & -> & Hr) Hk]. split; [done|].
  match goal with |- context [installed s1 key ?e] => set (en := e) in * end.
  destruct (installed_lookup s1 key en) as (g & Hgr & _ & Hvs); [lia..|]. rewrite Hvs, lookup_insert_eq. split_and!.
  - eapply replay_image_local; [|exact Hr]. by rewrite Hk.
  - destruct (values s !! key) as [e|] eqn:E; [|done]. specialize (Hg _ _ E). cbn. intros [= Heq]. lia.
  - by intros e [= <-].
Qed.

Lemma prepare_memory_ok base s t key o limit :
  core base s → gens_ok s → generation s + 6 < 2 ^ 64 →
  ∃ p sh l r, prepare_memory_with_limit s t key o limit = Some p ∧
    pm_prepared p = prepared s r (entries_of sh l) (memory_origin o) ∧ finished s [key] sh l ∧
    recorded s key sh l (pm_resolved p).
Proof.
  intros Hc Hg Hb. destruct (shadow_ok base true s [key] Hc) as (sh00 & E0 & Hs & _).
  unfold prepare_memory_with_limit. rewrite E0. cbn [mbind option_bind fold_left] in *.
  set (sh0 := load_entry true s sh00 key) in *.
  assert (values sh0 !! key = values s !! key) as Hk0 by (by rewrite (sh_values _ _ _ Hs), decide_True by left).
  destruct (try_memory_inner_ok _ sh0 t key o (sh_core _ _ _ Hs)) as (s1 & sh & stats & r & Er & Hs1 & He).
  unfold memory_inner. rewrite Er. cbn [mbind option_bind]. fold (memory_origin o).
  assert (steps 2 [key] sh0 sh) as Hst.
  { eapply (steps_trans 1 1); [|by eapply effect_steps|done].
    destruct Hs1 as [->| ->]; [apply steps_refl|apply (steps_one _ key); [left|constructor]]. }
  pose proof (finished_single _ _ _ _ Hs Hst (core_steps _ _ _ _ _ (sh_core _ _ _ Hs) Hst)) as Hfin.
  pose proof (finished_shadow _ _ _ Hs) as Hfin0.
  apply effect_cases with (s := sh0) in He; [|..|done].
  2:{ intros k e. rewrite (sh_values _ _ _ Hs), (sh_generation _ _ _ Hs). case_decide; [apply Hg|done]. }
  2,3: rewrite (sh_generation _ _ _ Hs); destruct Hc; lia.
  rewrite Hk0 in He. set (answer := match r with Ok a => a | Err e => _ end).
  assert (answer.2 = mutation_answer r) as Ha by (unfold answer; by destruct r as [[]|]).
  destruct answer as [reply resolved]. cbn in Ha. subst resolved.
  destruct (mutation_answer r) as [mu|].
  - destruct He as (Hk & Hr & Hne & Hmem). rewrite (bool_decide_eq_false_2 _ Hne). cbn [negb].
    destruct (negb (record_fits _ _ _ _)).
    + eexists _, sh0, [], _. by split_and!.
    + eexists _, sh, [key], _. split_and!; [done..|]. split; [done|]. split; [done|].
      split; [|done]. eapply (replay_image_local s sh0); [|exact Hr]. left. by rewrite Hk.
  - case_bool_decide as Hsame; cbn [negb].
    + eexists _, sh0, [], _. by split_and!.
    + destruct He as [He|He]; [by rewrite He in Hsame|]. destruct (negb (record_fits _ _ _ _)).
      * eexists _, sh0, [], _. by split_and!.
      * eexists _, sh, [key], _. split_and!; [done..|]. cbn. by rewrite He.
Qed.

(** ** Correctness of execution *)

Lemma apply_memory_ok s t key o limit :
  store_wf s → generation s + 6 < 2 ^ 64 →
  ∃ p sh l s1 r, prepare_memory_with_limit s t key o limit = Some p ∧ apply_memory s p = Some (s1, r) ∧
    store_wf s1 ∧ config s1 = config s ∧ finished s [key] sh l ∧ recorded s key sh l (pm_resolved p) ∧
    (∀ k, k ∉ l → values s1 !! k = values s !! k) ∧
    ∀ k, image <$> values s1 !! k = if decide (k ∈ [key]) then image <$> values sh !! k else image <$> values s !! k.
Proof.
  intros Hw Hb. pose proof Hw as [Hc _ Hg].
  destruct (prepare_memory_ok 0 s t key o limit Hc Hg Hb) as (p & sh & l & r & Ep & Epp & Hf & Hrec).
  destruct (commit_ok 0 s [key] sh l (memory_origin o) r Hc Hf) as (s1 & Ha & Hc1 & Hk & _ & _ & Hfr & Hv).
  pose proof (finished_keys _ _ _ _ Hf) as Hlen. change (zlen [key]) with 1 in Hlen. pose proof (zlen_nonneg l).
  exists p, sh, l, s1, r. unfold apply_memory. rewrite Epp.
  split_and!; try done; [eapply wf_keeps; [done..|lia]|apply Hk].
Qed.

Lemma execute_ok `{HashOrder} s t c :
  store_wf s → command_scores c → generation s + 6 * Z.max 1 (zlen (visit_keys c)) < 2 ^ 64 →
  ∃ s' r, execute s t c = Some (s', r) ∧ store_wf s' ∧
    (is_memory_command c = false → refines t c s s' r) ∧
    ∀ k, k ∉ visit_keys c → view s' t !! k = view s t !! k.
Proof.
  intros Hw Hsc Hb.
  assert (∃ s' r, execute_plain s t c = Some (s', r) ∧ store_wf s' ∧ refines t c s s' r ∧
            ∀ k, k ∉ visit_keys c → view s' t !! k = view s t !! k) as Hp.
  { destruct (execute_plain_ok s t c) as (s' & r & ? & ? & Hr & _); [done..|lia|]. exists s', r. split_and!; try done.
    intros k Hk. destruct Hr as [(_ & -> & _)|Hs]; [done|]. pose proof (spec_frame t c (view s t) k Hk) as Hf.
    by rewrite Hs in Hf. }
  destruct c; try (destruct Hp as (s' & r & Hp & Hw' & Hr & Hf); by exists s', r).
  cbn [execute]. destruct (apply_memory_ok s t key operation MAX_RECORD_BYTES) as (p & sh & l & s1 & r & Ep & Ha & Hw1 & _ & _ & _ & _ & Hi);
    [done|lia|]. exists s1, r. unfold prepare_memory. rewrite Ep. cbn [mbind option_bind]. split_and!; try done.
  intros k Hk. apply view_image. rewrite Hi, decide_False; done.
Qed.

(** C9. Every command runs to completion on a well-formed store, the memory commands included,
    and leaves a well-formed store: exact accounting within the quota, exact expiration indexes,
    valid values.  Every other command refines its reference semantics: it has exactly the reply
    and the effect of [spec] on the visible dataset, or reports that the quota cannot hold the
    result and changes nothing that is visible. *)
Theorem execute_refines `{HashOrder} s t c :
  store_wf s → command_scores c → generation s + 6 * Z.max 1 (zlen (visit_keys c)) < 2 ^ 64 →
  ∃ s' r, execute s t c = Some (s', r) ∧ store_wf s' ∧
    (is_memory_command c = false → refines t c s s' r).
Proof. intros Hw Hsc Hb. destruct (execute_ok s t c Hw Hsc Hb) as (s' & r & ? & ? & ? & _). by exists s', r. Qed.

Lemma execute_refines_witness :
  ∃ s' r, execute (H := list_order) empty_store epoch_sample (CMemory (lit "k") (MCreate sample_descriptor)) = Some (s', r) ∧
          store_wf s'.
Proof.
  destruct (execute_refines (H := list_order) empty_store epoch_sample (CMemory (lit "k") (MCreate sample_descriptor)))
    as (s' & r & He & Hw & _).
  - apply empty_store_wf.
  - done.
  - done.
  - by exists s', r.
Defined.

Lemma memory_restarted t key s :
  (∀ e, values s !! key = Some e → is_memory (e_value e) = true) → restarted t [key] (persisted s) = persisted s.
Proof.
  intros Hm. apply map_eq. intros k. rewrite lookup_restarted. case_decide as Hk; [|done].
  apply list_elem_of_singleton in Hk as ->. rewrite lookup_undropped, lookup_persisted.
  destruct (values s !! key) as [e|]; [|done]. cbn. unfold dropped. rewrite Hm by done.
  cbn. destruct (expires_at_unix_ms e); [|done]. by rewrite andb_false_r.
Qed.

(** C14. The record-2 mutation of a memory operation is a faithful log of it.  An operation that
    records nothing changes no key.  Otherwise replaying the recorded image, delta or deletion on
    the store the operation ran on, at any later time, never fails and yields exactly the dataset
    that applying the operation yields. *)
Theorem memory_log_faithful s t key o limit t' :
  store_wf s → generation s + 6 < 2 ^ 64 → clock_ok t' →
  ∃ p s1 r, prepare_memory_with_limit s t key o limit = Some p ∧ apply_memory s p = Some (s1, r) ∧ store_wf s1 ∧
    match pm_resolved p with
    | None => values s1 = values s
    | Some mu => MMutation_key mu = key ∧
        ∃ s2, replay_memory s t' [mu] = Some (Ok s2) ∧ store_wf s2 ∧ persisted s2 = persisted s1
    end.
Proof.
  intros Hw Hb Ht.
  destruct (apply_memory_ok s t key o limit Hw Hb) as (p & sh & l & s1 & r & Ep & Ha & Hw1 & Hcf & Hf & Hrec & Hfr & Hv).
  exists p, s1, r. split_and!; try done. destruct (pm_resolved p) as [mu|]; cbn in Hrec.
  - destruct Hrec as (-> & Hk & Hr & Hmem). split; [done|].
    destruct (replay_logged s [key] sh [key] s1 t' Client) as (p2 & s2 & Ep2 & Ha2 & Hw2 & Hp2); try done.
    { change (zlen [key]) with 1. lia. }
    { apply Hw1. }
    exists s2. split_and!; [|done|].
    + unfold replay_memory, prepare_memory_replay. cbn [replay_images]. rewrite bool_decide_eq_false_2 by set_solver.
      rewrite Hr. cbn [mbind option_bind result_bind]. change [mutation_of (key, values sh !! key)] with
        (mutation_of <$> entries_of sh [key]). rewrite Ep2. cbn. by rewrite Ha2.
    + rewrite Hp2. apply memory_restarted. intros e He. specialize (Hv key). rewrite decide_True, He in Hv by left.
      destruct (values sh !! key) as [e'|]; [|done]. cbn in Hv. injection Hv as Hv _ _ _. rewrite Hv. by apply Hmem.
  - subst l. apply map_eq. intros k. apply Hfr. set_solver.
Qed.

Lemma memory_log_faithful_witness :
  ∃ p s1 r, prepare_memory_with_limit empty_store epoch_sample (lit "k") (MCreate sample_descriptor) MAX_RECORD_BYTES = Some p ∧
    apply_memory empty_store p = Some (s1, r) ∧ store_wf s1 ∧
    match pm_resolved p with
    | None => values s1 = values empty_store
    | Some mu => MMutation_key mu = lit "k" ∧
        ∃ s2, replay_memory empty_store epoch_sample [mu] = Some (Ok s2) ∧ store_wf s2 ∧ persisted s2 = persisted s1
    end.
Proof.
  apply (memory_log_faithful empty_store epoch_sample (lit "k") (MCreate sample_descriptor) MAX_RECORD_BYTES epoch_sample).
  - apply empty_store_wf.
  - done.
  - apply epoch_sample_ok.
Defined.

(** ** Edits that always apply *)

Lemma zsum_with_le {A} (f g : A → Z) l : (∀ x, x ∈ l → f x <= g x) → zsum_with f l <= zsum_with g l.
Proof.
  unfold zsum_with. induction l as [|x l IH]; cbn; intros Hl; [lia|]. pose proof (Hl x ltac:(left)).
  specialize (IH ltac:(intros; apply Hl; by right)). lia.
Qed.
Lemma Member_encoded_le m : Member_encoded_bytes m <= Member_logical_bytes m.
Proof.
  unfold Member_encoded_bytes, Member_logical_bytes.
  assert (zsum_with (λ e, 4 + zlen e.1 + Scalar_encoded_bytes e.2) (btree_iter (m_metadata m)) <=
          zsum_with (λ e, 64 + zlen e.1 + Scalar_logical_bytes e.2) (btree_iter (m_metadata m))).
  { apply zsum_with_le. intros [k v] _. cbn. destruct v; cbn; lia. }
  assert (zsum_with (λ e, 8 + zlen e.1 + zlen e.2) (btree_iter (m_provenance m)) <=
          zsum_with (λ e, 64 + zlen e.1 + zlen e.2) (btree_iter (m_provenance m))); [|lia].
  apply zsum_with_le. intros; cbn; lia.
Qed.
Lemma encoded_le_logical c : collection_wf c → c_encoded_bytes c <= c_logical_bytes c.
Proof.
  intros []. rewrite cw_logical, cw_encoded, !map_zsum_iter. unfold Descriptor_encoded_bytes, Descriptor_logical_bytes.
  assert (zsum_with (λ e : bytes * Member, Member_encoded_bytes e.2) (btree_iter (c_members c)) <=
          zsum_with (λ e, Member_logical_bytes e.2) (btree_iter (c_members c))); [|lia].
  apply zsum_with_le. intros; apply Member_encoded_le.
Qed.

Definition edit_weight (e : Edit) : Z := match e with Upsert m => Member_logical_bytes m | Remove _ => 0 end.

Lemma apply_edit_complete c e :
  collection_wf c → edit_valid (c_descriptor c) e → (∀ id, e = Remove id → is_Some (c_members c !! id)) →
  c_logical_bytes c + edit_weight e <= USIZE_MAX →
  ∃ c', apply_edit c e = Some (Ok c') ∧ c_logical_bytes c' <= c_logical_bytes c + edit_weight e.
Proof.
  intros Hc He Hr Hb. destruct (remove_member_wf c (Edit_id e) Hc) as (c1 & E1 & Hc1 & Hd1 & Hm1).
  assert (c_logical_bytes c1 <= c_logical_bytes c) as Hle.
  { rewrite (cw_logical _ Hc1), (cw_logical _ Hc), Hd1, Hm1. apply Zplus_le_compat_l.
    apply map_zsum_mono; [|apply delete_subseteq]. intros; apply Member_bytes_nonneg. }
  pose proof (encoded_le_logical c1 Hc1). unfold apply_edit. rewrite E1. cbn [mbind option_bind].
  destruct e as [m|id]; cbn in *.
  - pose proof (Member_bytes_nonneg m). pose proof (Member_encoded_le m). pose proof (collection_logical_pos c1 Hc1).
    assert (0 <= c_encoded_bytes c1).
    { rewrite (cw_encoded _ Hc1). unfold Descriptor_encoded_bytes, descriptor_text.
      assert (0 <= map_zsum (λ _, Member_encoded_bytes) (c_members c1))
        by (apply map_zsum_nonneg; intros; apply Member_bytes_nonneg). zlen_lia. }
    unfold insert_member, u_add. rewrite !usize_checked_ok by lia. cbn. eexists. split; [done|]. cbn. lia.
  - rewrite bool_decide_eq_true_2 by by apply Hr. eexists. split; [done|]. lia.
Qed.

Lemma apply_edits_loop_complete c edits :
  collection_wf c → Forall (edit_valid (c_descriptor c)) edits → StronglySorted cmp_lt (Edit_id <$> edits) →
  (∀ id, Remove id ∈ edits → is_Some (c_members c !! id)) →
  c_logical_bytes c + zsum_with edit_weight edits <= USIZE_MAX →
  ∃ c', apply_edits_loop c edits = Some (Ok c').
Proof.
  revert c. induction edits as [|e edits IH]; intros c Hc Hv Hs Hr Hb; [by eexists|].
  change (zsum_with ?g (?x :: ?l)) with (g x + zsum_with g l) in Hb.
  apply Forall_cons in Hv as [Hv1 Hv]. rewrite fmap_cons in Hs. apply StronglySorted_inv in Hs as [Hs Hs1].
  assert (0 <= zsum_with edit_weight edits).
  { apply zsum_with_nonneg. intros []; cbn; [apply Member_bytes_nonneg|lia]. }
  destruct (apply_edit_complete c e) as (c1 & E1 & Hle); [done..| |lia|].
  { intros id ->. apply Hr. left. }
  destruct (apply_edit_ok c e Hc Hv1) as (r & E1' & Hok). rewrite E1 in E1'. injection E1' as <-.
  destruct (Hok c1 eq_refl) as (Hc1 & Hd1 & Hm1 & _).
  cbn [apply_edits_loop]. rewrite E1. cbn [mbind option_bind]. apply IH; [done|by rewrite Hd1|done| |lia].
  intros id Hin. rewrite Hm1, edit_members_other; [apply Hr; by right|].
  rewrite Forall_fmap, Forall_forall in Hs1. specialize (Hs1 _ Hin). cbn in Hs1.
  intros Heq. unfold cmp_lt in Hs1. by rewrite Heq, cmp_refl in Hs1.
Qed.

Lemma validate_edits_loop_complete d previous edits :
  Forall (edit_valid d) edits → Forall (λ e, 1 <= zlen (Edit_id e) <= 256) edits →
  StronglySorted cmp_lt (Edit_id <$> edits) →
  (∀ id, previous = Some id → Forall (cmp_lt id) (Edit_id <$> edits)) →
  validate_edits_loop d previous edits = Ok tt.
Proof.
  revert previous. induction edits as [|e edits IH]; intros previous Hv Hl Hs Hp; [done|]. cbn [validate_edits_loop].
  apply Forall_cons in Hv as [Hv1 Hv]. apply Forall_cons in Hl as [Hl1 Hl].
  rewrite fmap_cons in *. apply StronglySorted_inv in Hs as [Hs Hs1].
  rewrite (proj2 (bounded_ok _ _ _ tt) Hl1). cbn [mbind result_bind].
  assert (not_after previous (Edit_id e) = false) as ->.
  { destruct previous as [id|]; [|done]. specialize (Hp id eq_refl). apply Forall_cons in Hp as [Hp _].
    cbn. apply bool_decide_eq_false. by intros []. }
  cbn. assert (match e with Upsert m => Member_validate m d | Remove _ => Ok tt end = Ok tt) as ->
    by (by destruct e). cbn. apply IH; try done. by intros id [= <-].
Qed.

(** A collection is determined by its descriptor and its members. *)
Lemma collection_ext c c' :
  collection_wf c → collection_wf c' → c_descriptor c = c_descriptor c' → c_members c = c_members c' → c = c'.
Proof.
  intros [] [] Hd Hm. destruct c, c'. cbn in *. subst. congruence.
Qed.

Lemma apply_edits_complete c edits key c' :
  collection_wf c → collection_wf c' → c_descriptor c' = c_descriptor c → within_quota c' key →
  zlen edits <= MAX_EDITS →
  Forall (edit_valid (c_descriptor c)) edits → Forall (λ e, 1 <= zlen (Edit_id e) <= 256) edits →
  StronglySorted cmp_lt (Edit_id <$> edits) → (∀ id, Remove id ∈ edits → is_Some (c_members c !! id)) →
  c_logical_bytes c + zsum_with edit_weight edits <= USIZE_MAX →
  fold_left edit_members edits (c_members c) = c_members c' →
  apply_edits c (c_descriptor c) edits key = Some (Ok c').
Proof.
  intros Hc Hc' Hd Hq Hn Hv Hl Hs Hr Hb Hm. unfold apply_edits.
  rewrite bool_decide_eq_true_2 by done. cbn [negb]. rewrite (proj2 (Z.ltb_ge _ _)) by done.
  unfold validate_edits. rewrite (cw_descriptor _ Hc). cbn [mbind result_bind].
  rewrite validate_edits_loop_complete by done.
  destruct (apply_edits_loop_complete c edits) as [c1 E]; [done..|].
  destruct (apply_edits_loop_ok c edits Hc Hv Hs) as (r & E' & Hok). rewrite E in E'. injection E' as <-.
  destruct (Hok c1 eq_refl) as (Hc1 & Hd1 & Hm1 & _).
  assert (c1 = c') as -> by (apply collection_ext; [done..|congruence|congruence]).
  rewrite E. cbn. by rewrite validate_key_quota.
Qed.

(** ** Resolution of an image into edits *)

Lemma fold_insert_lookup {V W} (g : bytes * V → W) (w : gmap bytes V) (acc : gmap bytes W) id :
  fold_left (λ m e, <[e.1 := g e]> m) (btree_iter w) acc !! id =
  match w !! id with Some v => Some (g (id, v)) | None => acc !! id end.
Proof.
  assert (∀ (l : list (bytes * V)) (acc : gmap bytes W), NoDup l.*1 →
    fold_left (λ m e, <[e.1 := g e]> m) l acc !! id =
    match (list_to_map l : gmap bytes V) !! id with Some v => Some (g (id, v)) | None => acc !! id end) as Hl.
  { induction l as [|[k v] l IH]; intros acc' Hn; [done|]. apply NoDup_cons in Hn as [Hk Hn]. cbn [fold_left].
    rewrite IH by done. change (list_to_map ((k, v) :: l) : gmap bytes V) with (<[k := v]> (list_to_map l : gmap bytes V)).
    destruct (decide (k = id)) as [<-|Hne].
    - rewrite not_elem_of_list_to_map_1 by done. cbn. by rewrite !lookup_insert_eq.
    - cbn. by rewrite !lookup_insert_ne. }
  rewrite Hl by apply btree_iter_NoDup. by rewrite list_to_map_btree_iter.
Qed.

(** The edit of one id. *)
Definition resolved_edit (before after : Collection) (id : bytes) : option Edit :=
  match c_members after !! id with
  | Some m => if bool_decide (c_members before !! id = Some m) then None else Some (Upsert m)
  | None => match c_members before !! id with Some _ => Some (Remove id) | None => None end
  end.

Lemma resolve_edits_map before after :
  ∃ edits : gmap bytes Edit, resolve_edits before after = (btree_iter edits).*2 ∧
    ∀ id, edits !! id = resolved_edit before after id.
Proof.
  eexists. split; [reflexivity|]. intros id. rewrite !fold_insert_lookup, lookup_empty. unfold resolved_edit.
  rewrite !map_lookup_filter. destruct (c_members after !! id) as [m|] eqn:Ea; cbn.
  - case_bool_decide as Hb; cbn.
    + rewrite option_guard_False by (cbn; by intros Hn). destruct (c_members before !! id); [|done]. cbn.
      by rewrite option_guard_False by (by rewrite Ea).
    + by rewrite option_guard_True.
  - destruct (c_members before !! id); [|done]. cbn. by rewrite option_guard_True.
Qed.

Lemma fold_edits_lookup (l : list (bytes * Edit)) ms id :
  NoDup l.*1 → (∀ k e, (k, e) ∈ l → Edit_id e = k) →
  fold_left edit_members l.*2 ms !! id =
  match (list_to_map l : gmap bytes Edit) !! id with
  | Some (Upsert m) => Some m
  | Some (Remove _) => None
  | None => ms !! id
  end.
Proof.
  revert ms. induction l as [|[k e] l IH]; intros ms Hn He; [done|]. apply NoDup_cons in Hn as [Hk Hn].
  change (((k, e) :: l).*2) with (e :: l.*2). cbn [fold_left]. rewrite IH by (done || set_solver).
  change (list_to_map ((k, e) :: l) : gmap bytes Edit) with (<[k := e]> (list_to_map l : gmap bytes Edit)).
  pose proof (He k e ltac:(left)) as Hid. destruct (decide (k = id)) as [<-|Hne].
  - rewrite not_elem_of_list_to_map_1, lookup_insert_eq by done.
    destruct e; cbn in *; subst k; [by rewrite lookup_insert_eq|by rewrite lookup_delete_eq].
  - rewrite lookup_insert_ne, edit_members_other by congruence. done.
Qed.

Lemma map_zsum_le {V W} (f : bytes → V → Z) (g : bytes → W → Z) (m : gmap bytes V) (m' : gmap bytes W) :
  (∀ k w, m' !! k = Some w → 0 <= g k w) →
  (∀ k v, m !! k = Some v → f k v <= 0 ∨ ∃ w, m' !! k = Some w ∧ f k v <= g k w) →
  map_zsum f m <= map_zsum g m'.
Proof.
  revert m'. induction m as [|k v m Hk IH] using map_ind; intros m' Hg Hm.
  { rewrite map_zsum_empty. by apply map_zsum_nonneg. }
  rewrite map_zsum_insert by done. destruct (Hm k v) as [Hz|(w & Hw & Hle)]; [apply lookup_insert_eq|..].
  - cut (map_zsum f m <= map_zsum g m'); [lia|]. apply IH; [done|]. intros k' v' Hv. apply Hm.
    rewrite lookup_insert_ne by congruence. done.
  - pose proof (map_zsum_delete g m' k w Hw). cut (map_zsum f m <= map_zsum g (delete k m')); [lia|]. apply IH.
    + intros k' w' [_ ?]%lookup_delete_Some. by apply Hg.
    + intros k' v' Hv. assert (k ≠ k') by congruence. rewrite lookup_delete_ne by done. apply Hm.
      by rewrite lookup_insert_ne.
Qed.

Lemma member_id_bounds c id m : collection_wf c → c_members c !! id = Some m → m_id m = id ∧ 1 <= zlen id <= 256.
Proof.
  intros Hc Hm. destruct (cw_members _ Hc _ _ Hm) as [<- Hv]. split; [done|].
  unfold Member_validate in Hv. apply bind_ok in Hv as (_ & _ & ([] & Hb%bounded_ok & _)%bind_ok). done.
Qed.

(** The edits between two images turn the first into the second. *)
Lemma resolve_edits_ok before after key :
  collection_wf before → collection_wf after → c_descriptor before = c_descriptor after →
  within_quota before key → within_quota after key → zlen (resolve_edits before after) <= MAX_EDITS →
  apply_edits before (c_descriptor before) (resolve_edits before after) key = Some (Ok after).
Proof.
  intros Hb Ha Hd Hqb Hqa Hn. destruct (resolve_edits_map before after) as (edits & Eed & Hl). rewrite Eed in *.
  assert (∀ k e, edits !! k = Some e → Edit_id e = k ∧ 1 <= zlen k <= 256 ∧ edit_valid (c_descriptor before) e ∧
            match e with Upsert m => c_members after !! k = Some m | Remove _ => is_Some (c_members before !! k) end) as He.
  { intros k e. rewrite Hl. unfold resolved_edit. destruct (c_members after !! k) as [m|] eqn:Em.
    - case_bool_decide; [done|]. intros [= <-]. destruct (member_id_bounds _ _ _ Ha Em). cbn.
      destruct (cw_members _ Ha _ _ Em) as [_ Hv]. rewrite Hd. done.
    - destruct (c_members before !! k) as [m|] eqn:Em'; [|done]. intros [= <-].
      destruct (member_id_bounds _ _ _ Hb Em'). cbn. done. }
  assert (Edit_id <$> (btree_iter edits).*2 = (btree_iter edits).*1) as Hids.
  { rewrite <- list_fmap_compose. apply list_fmap_ext. intros i [k e] Hi. cbn.
    apply list_elem_of_lookup_2, btree_iter_elem in Hi. by apply He in Hi as [? _]. }
  apply apply_edits_complete; try done.
  - apply Forall_fmap, Forall_forall. intros [k e] Hi%btree_iter_elem. by apply He in Hi as (_ & _ & ? & _).
  - apply Forall_fmap, Forall_forall. intros [k e] Hi%btree_iter_elem. cbn. by apply He in Hi as (-> & ? & _).
  - rewrite Hids. apply btree_iter_sorted.
  - intros id ([k e] & Heq & Hi%btree_iter_elem)%list_elem_of_fmap. cbn in Heq. subst e.
    by apply He in Hi as (<- & _ & _ & ?).
  - rewrite zsum_with_fmap. unfold compose.
    assert (map_zsum (λ _, edit_weight) edits <= map_zsum (λ _, Member_logical_bytes) (c_members after)) as Hw.
    { apply map_zsum_le; [intros; apply Member_bytes_nonneg|]. intros k [m|id] Hk; [right|left; cbn; lia].
      apply He in Hk as (_ & _ & _ & ?). by exists m. }
    rewrite map_zsum_iter in Hw. pose proof (cw_logical _ Ha) as Hla. destruct Hqb as (_ & _ & _ & Hqb). destruct Hqa as (_ & _ & _ & Hqa).
    unfold Descriptor_logical_bytes, descriptor_text in Hla.
    assert (MAX_COLLECTION_BYTES <= ISIZE_MAX) by done. assert (ISIZE_MAX * 2 <= USIZE_MAX) by done.
    assert (zsum_with (λ e : bytes * Edit, edit_weight e.2) (btree_iter edits) <= c_logical_bytes after) by zlen_lia.
    pose proof (zlen_nonneg key). lia.
  - apply map_eq. intros id. rewrite fold_edits_lookup, list_to_map_btree_iter; [|apply btree_iter_NoDup|].
    2:{ intros k e Hi%btree_iter_elem. by apply He in Hi as [? _]. }
    rewrite Hl. unfold resolved_edit. destruct (c_members after !! id) as [m|] eqn:Em.
    + case_bool_decide; done.
    + by destruct (c_members before !! id) eqn:Em'.
Qed.

Lemma resolve_mutation_ok s mu :
  store_wf s → mutation_wf mu →
  (∀ key d edits x, resolve_mutation s mu = Delta key d edits x → zlen edits <= MAX_EDITS) →
  MMutation_key (resolve_mutation s mu) = Mutation_key mu ∧
  replay_image s (resolve_mutation s mu) = Some (Ok mu).
Proof.
  intros Hw Hm Hn. destruct mu as [key v x|key]; [|done]. destruct Hm as (Hv & Hk & _ & _).
  destruct v as [| | | | |after]; try done. cbn in Hv, Hk. cbn [resolve_mutation] in *.
  assert (replay_image s (from_storage (Put key (VMemory after) x)) = Some (Ok (Put key (VMemory after) x))) as Himg.
  { cbn. by rewrite validate_key_quota. }
  destruct (values s !! key) as [e|] eqn:E; [|done]. destruct (co_entries _ _ (wf_core _ Hw) _ _ E) as [Hev Hek _ _ _].
  destruct e as [v x' u g ds]. cbn in Hev, Hek. destruct v as [| | | | |before]; try done.
  case_bool_decide as Hd; [|done]. split; [done|]. cbn [replay_image]. rewrite E.
  rewrite <- Hd, resolve_edits_ok; [done..|]. by eapply Hn.
Qed.


(** ** Concrete memory keys *)

Definition run (t : Sample) (c : Command) (s : Store) : option (Store * Reply) := execute (H := list_order) s t c.
Definition memory_command (o : Operation) : Command := CMemory (lit "k") o.
Definition memory_store : Store :=
  match run epoch_sample (memory_command (MCreate sample_descriptor)) empty_store with
  | Some (s, _) => s
  | None => empty_store
  end.
Lemma memory_store_wf : store_wf memory_store.
Proof.
  destruct (apply_memory_ok empty_store epoch_sample (lit "k") (MCreate sample_descriptor) MAX_RECORD_BYTES)
    as (p & _ & _ & s & r & Ep & Ea & Hw & _).
  - apply empty_store_wf.
  - done.
  - unfold memory_store, run, memory_command, execute, prepare_memory. rewrite Ep. cbn [mbind option_bind]. by rewrite Ea.
Qed.
Definition one_member : Collection :=
  {| c_descriptor := sample_descriptor; c_members := {[lit "a" := sample_member "a" x80]};
     c_logical_bytes := 522; c_encoded_bytes := 73 |}.
Lemma one_member_wf : collection_wf one_member ∧ within_quota one_member (lit "k").
Proof.
  split; [split|]; cbn [one_member c_descriptor c_members c_logical_bytes c_encoded_bytes].
  - vm_compute. reflexivity.
  - intros id m [<- <-]%lookup_singleton_Some. split; [reflexivity|]. vm_compute. reflexivity.
  - vm_compute. reflexivity.
  - vm_compute. reflexivity.
  - done.
  - done.
Qed.


(** The wall clock set forward by five seconds. *)
Definition jumped : Sample := {| now := 0; unix_millis := 5000 |}.
Definition replies_at (t : Sample) : option (Reply * Reply * Reply) :=
  '(s, _) ← run epoch_sample (memory_command (MPut sample_descriptor (sample_member "a" x80) (TtlAfter 1000) Always))
              memory_store;
  '(s, got) ← run t (memory_command (MGet (lit "a"))) s;
  '(s, ttl) ← run t (memory_command (MPttl (lit "a"))) s;
  '(s, found) ← run t (memory_command (MSearch sample_descriptor [x00; x00; x80; x3f] 1 [] ∅)) s;
  Some (got, ttl, found).

(** When only the wall clock moves past the absolute deadline of a member, MEM.GET still serves
    the member and MEM.PTTL still reports its full second, but MEM.SEARCH no longer finds it. *)
Theorem search_reads_wall_clock :
  let got := member_reply (with_deadline (sample_member "a" x80) (Some 1000)) in
  replies_at epoch_sample = Some (got, RInteger 1000, RArray [RArray [bulk (lit "a"); bulk (u64_le 0)]]) ∧
  replies_at jumped = Some (got, RInteger 1000, RArray []).
Proof. split; vm_compute; reflexivity. Qed.
