(* ===== verification/Policy.v ===== *)
(** * Authorization

    Models src/security/policy.rs: the grants of the clients and of the internal
    principals, their validation and the decisions.  The base64 codec, the parser of
    timestamps and the one of password hashes are external; the JSON documents are
    taken as already deserialized. *)

From Stdlib Require Import Strings.Byte Strings.String ZArith Lia.
From S2P Require Import Prelude Float Wire Score Memory Command Store StoreInv StoreSpec Mutation StoreExec Replay Routing MemoryLifecycle.

#[local] Open Scope Z_scope.

Inductive SecurityError := PolicyError | PermissionError.

Definition COMMANDS : list bytes := lit <$>
  ["GET"; "MGET"; "EXISTS"; "TTL"; "PTTL"; "HGET"; "HEXISTS"; "HLEN"; "HGETALL"; "LLEN"; "LRANGE"; "SISMEMBER"; "SCARD";
   "SMEMBERS"; "ZCARD"; "ZSCORE"; "ZRANGE"; "SET"; "DEL"; "MSET"; "INCR"; "DECR"; "EXPIRE"; "PEXPIRE"; "PERSIST"; "HSET";
   "HDEL"; "LPUSH"; "RPUSH"; "LPOP"; "RPOP"; "SADD"; "SREM"; "ZADD"; "ZREM"; "PUBLISH"; "SUBSCRIBE"; "MULTI"; "EXEC";
   "DISCARD"; "UNWATCH"; "WATCH"; "INFO"; "PING"; "ECHO"; "MEM.INFO"; "MEM.GET"; "MEM.PTTL"; "MEM.SEARCH"; "MEM.CREATE";
   "MEM.PUT"; "MEM.DEL"; "MEM.EXPIRE"; "MEM.PERSIST"]%string.
Definition WRITES : list bytes := lit <$>
  ["SET"; "DEL"; "MSET"; "INCR"; "DECR"; "EXPIRE"; "PEXPIRE"; "PERSIST"; "HSET"; "HDEL"; "LPUSH"; "RPUSH"; "LPOP"; "RPOP";
   "SADD"; "SREM"; "ZADD"; "ZREM"; "MEM.CREATE"; "MEM.PUT"; "MEM.DEL"; "MEM.EXPIRE"; "MEM.PERSIST"]%string.
Definition SECTIONS : list (bytes * Z) :=
  [(lit "server", SERVER); (lit "clients", CLIENTS); (lit "stats", STATS); (lit "memory", MEMORY);
   (lit "persistence", PERSISTENCE); (lit "config", CONFIG); (lit "replication", REPLICATION)].

Record Scope := { exact : list bytes; prefix : list bytes; all : bool }.
Record Credential := { verifier : bytes; not_before : bytes; expires_at : bytes }.
Record User := {
  user_name : bytes;
  credentials : list Credential;
  commands : gset bytes;
  read_keys : Scope;
  write_keys : Scope;
  publish_channels : Scope;
  subscribe_channels : Scope;
  info_sections : gset bytes
}.
Record ClientPolicy := { cp_version : Z; users : list User }.

Inductive PeerRole := ReplicaRole | BackupRole | MonitorRole | PromotionRole.
#[export] Instance PeerRole_eq_decision : EqDecision PeerRole.
Proof. solve_decision. Defined.
Record Principal := { uri_san : bytes; roles : list PeerRole; upstream_instance : option bytes }.
Record InternalPolicy := {
  ip_version : Z;
  instance_id : bytes;
  principals : list Principal;
  upstream_principal : option bytes
}.

(** The crate [base64] ([STANDARD], and [STANDARD_NO_PAD] for the verifiers), the RFC 3339
    parser of the crate [time] (an instant in nanoseconds, and whether its offset is UTC),
    [PasswordHash::new] of the crate [argon2], and the deserializers that [serde] derives. *)
Class SecurityCodecs := {
  b64_decode : bytes → option bytes;
  b64_encode : bytes → bytes;
  b64_raw_decode : bytes → option bytes;
  b64_raw_encode : bytes → bytes;
  parse_rfc3339 : bytes → option (Z * bool);
  password_hash_ok : bytes → bool;
  client_json : bytes → option ClientPolicy;
  internal_json : bytes → option InternalPolicy
}.

(** The name of a command, as grants spell it. *)
Definition policy_command_name (c : Command) : bytes :=
  match c with
  | CMemory _ operation => lit (command_name operation)
  | CInfo _ => lit "INFO"
  | CPing _ => lit "PING"
  | CEcho _ => lit "ECHO"
  | CGet _ => lit "GET"
  | CSet _ _ | CSetWithOptions _ _ _ => lit "SET"
  | CDel _ => lit "DEL"
  | CExists _ => lit "EXISTS"
  | CIncr _ => lit "INCR"
  | CDecr _ => lit "DECR"
  | CMGet _ => lit "MGET"
  | CMSet _ => lit "MSET"
  | CExpire _ _ Seconds => lit "EXPIRE"
  | CExpire _ _ Milliseconds => lit "PEXPIRE"
  | CTtl _ milliseconds => if milliseconds then lit "PTTL" else lit "TTL"
  | CPersist _ => lit "PERSIST"
  | CSubscribe _ => lit "SUBSCRIBE"
  | CUnsubscribe _ => lit "UNSUBSCRIBE"
  | CPublish _ _ => lit "PUBLISH"
  | CMulti => lit "MULTI"
  | CExec => lit "EXEC"
  | CDiscard => lit "DISCARD"
  | CWatch _ => lit "WATCH"
  | CUnwatch => lit "UNWATCH"
  | CHash _ operation =>
      match operation with
      | HSet _ => lit "HSET" | HGet _ => lit "HGET" | HDelete _ => lit "HDEL" | HExists _ => lit "HEXISTS"
      | HLen => lit "HLEN" | HGetAll => lit "HGETALL"
      end
  | CList _ operation =>
      match operation with
      | LPush front _ => if front then lit "LPUSH" else lit "RPUSH"
      | LPop front => if front then lit "LPOP" else lit "RPOP"
      | LLen => lit "LLEN" | LRange _ _ => lit "LRANGE"
      end
  | CSetCollection _ operation =>
      match operation with
      | SAdd _ => lit "SADD" | SRemove _ => lit "SREM" | SIsMember _ => lit "SISMEMBER" | SCard => lit "SCARD"
      | SMembers => lit "SMEMBERS"
      end
  | CSortedSet _ operation =>
      match operation with
      | ZAdd _ => lit "ZADD" | ZRemove _ => lit "ZREM" | ZCard => lit "ZCARD" | ZScore _ => lit "ZSCORE"
      | ZRange _ _ _ => lit "ZRANGE"
      end
  end.

Section Policy.
Context `{SecurityCodecs}.

(** ** Scopes *)

Definition permits (s : Scope) (value : bytes) : bool :=
  all s
  || existsb (λ rule, match b64_decode rule with Some v => bool_decide (v = value) | None => false end) (exact s)
  || existsb (λ rule, match b64_decode rule with Some v => bool_decide (take (length v) value = v) | None => false end) (prefix s).
Definition Scope_validate (s : Scope) : result SecurityError unit :=
  _ ← fold_ok (λ _ value,
        v ← ok_or PolicyError (b64_decode value);
        guard_ok (bool_decide (b64_encode v = value)) PolicyError) tt (exact s ++ prefix s);
  guard_ok (negb (existsb (λ value, bool_decide (value = [])) (prefix s))) PolicyError.

(** ** Credentials *)

Definition timestamp (text : bytes) : result SecurityError Z :=
  '(value, utc) ← ok_or PolicyError (parse_rfc3339 text);
  if (utc : bool) then Ok value else Err PolicyError.
Definition interval (c : Credential) : result SecurityError (Z * Z) :=
  start ← timestamp (not_before c);
  finish ← timestamp (expires_at c);
  if finish <=? start then Err PolicyError else Ok (start, finish).
Definition valid_at (c : Credential) (now : Z) : bool :=
  match interval c with Ok (start, finish) => (start <=? now) && (now <? finish) | Err _ => false end.
Definition verifier_part (value : bytes) (size : Z) : result SecurityError unit :=
  decoded ← ok_or PolicyError (b64_raw_decode value);
  guard_ok (negb (negb (zlen decoded =? size) || negb (bool_decide (b64_raw_encode decoded = value)))) PolicyError.
Definition Credential_validate (c : Credential) : result SecurityError unit :=
  tail ← ok_or PolicyError (strip_prefix (lit "$argon2id$v=19$m=65536,t=3,p=1$") (verifier c));
  '(salt, output) ← ok_or PolicyError (split_first "$"%byte tail);
  _ ← verifier_part salt 16;
  _ ← verifier_part output 32;
  _ ← guard_ok (password_hash_ok (verifier c)) PolicyError;
  _ ← interval c;
  Ok tt.

(** ** The policy of the clients *)

Definition is_lower (b : byte) : bool := (97 <=? bz b) && (bz b <=? 122).
Definition is_upper (b : byte) : bool := (65 <=? bz b) && (bz b <=? 90).
Definition component (value : bytes) (max : Z) (uppercase : bool) : bool :=
  let allowed := λ b, is_lower b || is_digit b || (uppercase && is_upper b) in
  negb (bool_decide (value = [])) && (zlen value <=? max)
  && match value with b :: _ => allowed b | [] => false end
  && forallb (λ b, allowed b || bool_decide (b ∈ lit "._-")) value.

Definition user_check (names : gset bytes) (u : User) : result SecurityError (gset bytes) :=
  if negb (component (user_name u) 64 true) || bool_decide (user_name u ∈ names)
     || negb ((1 <=? zlen (credentials u)) && (zlen (credentials u) <=? 2))
     || existsb (λ name, negb (bool_decide (name ∈ COMMANDS))) (elements (commands u))
     || existsb (λ name, negb (existsb (λ s, bool_decide (s.1 = name)) SECTIONS)) (elements (info_sections u))
  then Err PolicyError
  else
    _ ← fold_ok (λ _ c, Credential_validate c) tt (credentials u);
    _ ← match credentials u with
        | [x; y] =>
            '(a, b) ← interval x;
            '(c, d) ← interval y;
            guard_ok (negb ((24 * 3600 * 10 ^ 9 <? Z.min b d - Z.max a c) || bool_decide (verifier x = verifier y))) PolicyError
        | _ => Ok tt
        end;
    _ ← fold_ok (λ _ s, Scope_validate s) tt [read_keys u; write_keys u; publish_channels u; subscribe_channels u];
    Ok ({[user_name u]} ∪ names).
Definition ClientPolicy_parse (document : bytes) : result SecurityError ClientPolicy :=
  if 4 * 1024 * 1024 <? zlen document then Err PolicyError
  else
    policy ← ok_or PolicyError (client_json document);
    if negb (cp_version policy =? 1) then Err PolicyError
    else _ ← fold_ok user_check ∅ (users policy); Ok policy.

Definition is_unsubscribe (c : Command) : bool := match c with CUnsubscribe _ => true | _ => false end.
Definition arguments_allowed (user : User) (c : Command) : bool :=
  match c with
  | CPublish channel _ => permits (publish_channels user) channel
  | CSubscribe channels => forallb (permits (subscribe_channels user)) channels
  | CInfo sections =>
      forallb (λ s, negb (contains sections s.2) || bool_decide (s.1 ∈ info_sections user)) SECTIONS
  | _ => true
  end.
(** A name that equals the one of a command up to case is ASCII, so that [from_utf8]
    accepts it. *)
Definition authorize (policy : ClientPolicy) (username name : bytes) (c : Command) : result SecurityError unit :=
  if negb (eq_ignore_ascii_case name (policy_command_name c)) then Err PermissionError
  else
    user ← ok_or PermissionError (List.find (λ u, bool_decide (user_name u = username)) (users policy));
    if is_unsubscribe c then Ok tt
    else
      let name := ascii_upper <$> name in
      if negb (bool_decide (name ∈ COMMANDS)) || negb (bool_decide (name ∈ commands user)) then Err PermissionError
      else
        let scope := if bool_decide (name ∈ WRITES) then write_keys user else read_keys user in
        if negb (forallb (permits scope) (visit_keys c)) then Err PermissionError
        else if arguments_allowed user c then Ok tt else Err PermissionError.

(** ** The policy of the internal principals *)

Definition uri (value : bytes) : option (bytes * bytes) :=
  rest ← strip_prefix (lit "spiffe://sider/") value;
  '(instance, principal) ← split_first "/"%byte rest;
  if component instance 63 false && component principal 63 false then Some (instance, principal) else None.

Fixpoint has_duplicate (l : list PeerRole) : bool :=
  match l with [] => false | r :: l => bool_decide (r ∈ l) || has_duplicate l end.
Definition principal_check (instance : bytes) (names : gset bytes) (q : Principal) : result SecurityError (gset bytes) :=
  if bool_decide (uri (uri_san q) = None) || bool_decide (uri_san q ∈ names) || bool_decide (roles q = [])
     || has_duplicate (roles q)
     || negb (Bool.eqb (bool_decide (ReplicaRole ∈ roles q)) (bool_decide (is_Some (upstream_instance q))))
     || match upstream_instance q with Some value => negb (bool_decide (value = instance)) | None => false end
  then Err PolicyError else Ok ({[uri_san q]} ∪ names).
Definition InternalPolicy_parse (document : bytes) (outgoing : bool) : result SecurityError InternalPolicy :=
  policy ← ok_or PolicyError (internal_json document);
  if negb (ip_version policy =? 1) || negb (component (instance_id policy) 63 false)
     || negb (Bool.eqb outgoing (bool_decide (is_Some (upstream_principal policy))))
     || match upstream_principal policy with Some value => bool_decide (uri value = None) | None => false end
  then Err PolicyError
  else _ ← fold_ok (principal_check (instance_id policy)) ∅ (principals policy); Ok policy.
Definition internal_authorize (policy : InternalPolicy) (uri : bytes) (r : PeerRole) : result SecurityError unit :=
  if existsb (λ q, bool_decide (uri_san q = uri) && bool_decide (r ∈ roles q)) (principals policy) then Ok tt
  else Err PermissionError.
Definition own_identity (policy : InternalPolicy) (uri_san : bytes) : bool :=
  match uri uri_san with Some (id, _) => bool_decide (id = instance_id policy) | None => false end.
Definition upstream_identity (policy : InternalPolicy) (uri_san : bytes) : bool :=
  bool_decide (upstream_principal policy = Some uri_san).
End Policy.

(** ** The tables *)

(** The write scope is for exactly the commands that write the dataset, and every
    command but UNSUBSCRIBE can be granted. *)
Ltac command_cases :=
  match goal with |- context [policy_command_name ?c] => destruct c end;
  cbn [policy_command_name writes_dataset command_name Operation_writes_dataset];
  repeat match goal with
    | |- context [command_name ?x] => is_var x; destruct x
    | |- context [match ?x with _ => _ end] => is_var x; destruct x
    end.
Lemma writes_table c : bool_decide (policy_command_name c ∈ WRITES) = writes_dataset c.
Proof. command_cases; vm_compute; reflexivity. Qed.
Lemma commands_table c : bool_decide (policy_command_name c ∈ COMMANDS) = match c with CUnsubscribe _ => false | _ => true end.
Proof. command_cases; vm_compute; reflexivity. Qed.
Lemma name_upper c : ascii_upper <$> policy_command_name c = policy_command_name c.
Proof. command_cases; vm_compute; reflexivity. Qed.
Lemma upper_lower a b : ascii_lower a = ascii_lower b → ascii_upper a = ascii_upper b.
Proof.
  assert (∀ a, ascii_upper (ascii_lower a) = ascii_upper a) as H by (intros x; destruct x; reflexivity). intros E. by rewrite <- (H a), E, H.
Qed.
Lemma ignore_case_upper name c : eq_ignore_ascii_case name (policy_command_name c) = true → ascii_upper <$> name = policy_command_name c.
Proof.
  intros E%bool_decide_eq_true. rewrite <- name_upper. revert E. generalize (policy_command_name c). induction name as [|x name IH]; intros [|y l]; try done.
  cbn. intros [= E1 E2]. f_equal; [by apply upper_lower|by apply IH].
Qed.

Lemma spec_readonly t c m : writes_dataset c = false → (spec t c m).1 = m.
Proof.
  destruct c; cbn [writes_dataset spec]; try done; intros Hw; try by destruct message.
  all: destruct operation; cbn in Hw; try done; unfold_spec; repeat case_match; done.
Qed.

Section Decisions.
Context `{SecurityCodecs}.

(** ** What a rule means *)

(** A scope covers a value that it lists or that extends one of its prefixes. *)
Definition covers (s : Scope) (value : bytes) : Prop :=
  all s = true ∨ (∃ rule, rule ∈ exact s ∧ b64_decode rule = Some value) ∨
  ∃ rule v, rule ∈ prefix s ∧ b64_decode rule = Some v ∧ v `prefix_of` value.

Lemma permits_covers s value : permits s value = true ↔ covers s value.
Proof.
  unfold permits, covers. rewrite !orb_true_iff, !existsb_elem, <- (assoc or). apply or_iff_compat_l, Morphisms_Prop.or_iff_morphism.
  - apply exist_proper. intros rule. apply and_iff_compat_l. destruct (b64_decode rule); [|naive_solver].
    rewrite bool_decide_eq_true. naive_solver.
  - apply exist_proper. intros rule. destruct (b64_decode rule); [|naive_solver].
    rewrite bool_decide_eq_true, take_prefix. naive_solver.
Qed.

(** The grant that a command needs. *)
Definition granted (u : User) (c : Command) : Prop :=
  policy_command_name c ∈ commands u ∧
  (∀ k, k ∈ visit_keys c → covers (if writes_dataset c then write_keys u else read_keys u) k) ∧
  match c with
  | CPublish channel _ => covers (publish_channels u) channel
  | CSubscribe channels => ∀ channel, channel ∈ channels → covers (subscribe_channels u) channel
  | CInfo sections => ∀ name bit, (name, bit) ∈ SECTIONS → contains sections bit = true → name ∈ info_sections u
  | _ => True
  end.

Lemma forallb_covers s l : forallb (permits s) l = true ↔ ∀ v, v ∈ l → covers s v.
Proof.
  rewrite forallb_forall. setoid_rewrite list_elem_of_In. by setoid_rewrite permits_covers.
Qed.

Lemma sections_granted (sections : Z) (granted : gset bytes) :
  forallb (λ s : bytes * Z, negb (contains sections s.2) || bool_decide (s.1 ∈ granted)) SECTIONS = true ↔
  ∀ name bit, (name, bit) ∈ SECTIONS → contains sections bit = true → name ∈ granted.
Proof.
  rewrite forallb_forall. setoid_rewrite <- list_elem_of_In. split.
  - intros Hs name bit Hin Hc. specialize (Hs _ Hin). cbn in Hs. rewrite Hc in Hs. by apply bool_decide_eq_true in Hs.
  - intros Hs [name bit] Hin. cbn. destruct (contains sections bit) eqn:Hc; [|done]. cbn.
    apply bool_decide_eq_true. by eapply Hs.
Qed.

Lemma arguments_granted u c :
  arguments_allowed u c = true ↔
  match c with
  | CPublish channel _ => covers (publish_channels u) channel
  | CSubscribe channels => ∀ channel, channel ∈ channels → covers (subscribe_channels u) channel
  | CInfo sections => ∀ name bit, (name, bit) ∈ SECTIONS → contains sections bit = true → name ∈ info_sections u
  | _ => True
  end.
Proof. destruct c; cbn [arguments_allowed]; try done; [apply sections_granted|apply forallb_covers|apply permits_covers]. Qed.

Lemma authorize_decision p username name c u :
  List.find (λ u, bool_decide (user_name u = username)) (users p) = Some u →
  authorize p username name c = Ok tt ↔
  eq_ignore_ascii_case name (policy_command_name c) = true ∧ (is_unsubscribe c = true ∨ granted u c).
Proof.
  intros Hu. unfold authorize. rewrite if_ok, Hu. apply and_iff_under. intros En%ignore_case_upper.
  cbn [ok_or mbind result_bind]. cbv zeta. rewrite En, writes_table, commands_table.
  destruct (is_unsubscribe c) eqn:Ec; [naive_solver|]. assert (match c with CUnsubscribe _ => false | _ => true end = true) as -> by by destruct c.
  cbn [negb orb]. unfold granted. rewrite !if_ok, if_tt, bool_decide_eq_true, forallb_covers, arguments_granted. naive_solver.
Qed.

(** ** What a loaded policy satisfies *)

(** A valid scope lists canonical rules only, and none of its prefixes is empty. *)
Definition scope_valid (s : Scope) : Prop :=
  (∀ rule, rule ∈ exact s ++ prefix s → ∃ v, b64_decode rule = Some v ∧ b64_encode v = rule) ∧ [] ∉ prefix s.
Lemma Scope_validate_ok s : Scope_validate s = Ok tt → scope_valid s.
Proof.
  unfold Scope_validate. intros Hs. apply bind_ok in Hs as ([] & Hl & He). split.
  - intros rule Hr. rewrite fold_unit in Hl. apply Hl in Hr. inv_ok. apply guard_ok_ok, bool_decide_eq_true in Hr. eauto.
  - apply guard_ok_ok, negb_true_iff in He. intros Hin. eapply not_true_iff_false; [exact He|].
    apply existsb_elem. exists []. by rewrite bool_decide_eq_true.
Qed.

(** The instants at which both credentials of a rotation are valid. *)
Definition rotation_window (x y : Credential) : Prop :=
  ∃ from, ∀ now, valid_at x now = true → valid_at y now = true → from <= now < from + 24 * 3600 * 10 ^ 9.
Definition scopes (u : User) : list Scope := [read_keys u; write_keys u; publish_channels u; subscribe_channels u].
Record user_valid (u : User) : Prop := {
  uv_name : component (user_name u) 64 true = true;
  uv_count : 1 <= zlen (credentials u) <= 2;
  uv_commands : ∀ name, name ∈ commands u → name ∈ COMMANDS;
  uv_sections : ∀ name, name ∈ info_sections u → name ∈ SECTIONS.*1;
  uv_credentials : ∀ c, c ∈ credentials u → Credential_validate c = Ok tt;
  uv_rotation : ∀ x y, credentials u = [x; y] → rotation_window x y ∧ verifier x ≠ verifier y;
  uv_scopes : ∀ s, s ∈ scopes u → scope_valid s
}.

Lemma rotation_overlap x y a b c d :
  interval x = Ok (a, b) → interval y = Ok (c, d) → Z.min b d - Z.max a c <= 24 * 3600 * 10 ^ 9 → rotation_window x y.
Proof.
  intros Hx Hy Hd. exists (Z.max a c). unfold valid_at. rewrite Hx, Hy. intros now. lia.
Qed.

Lemma user_check_ok names u names' :
  user_check names u = Ok names' → (user_name u ∉ names) ∧ names' = {[user_name u]} ∪ names ∧ user_valid u.
Proof.
  unfold user_check. destruct (_ || _) eqn:Eg; [done|]. rewrite !orb_false_iff, !negb_false_iff, !existsb_none in Eg.
  destruct Eg as ((((En & Hin) & Hz) & Hcm) & Hse). apply bool_decide_eq_false in Hin.
  intros Hu. apply bind_ok in Hu as ([] & Hcr & Hu). apply bind_ok in Hu as ([] & Hro & Hu).
  apply bind_ok in Hu as ([] & Hsc & [= <-]). rewrite fold_unit in Hcr. rewrite fold_unit in Hsc.
  split_and!; [done..|]. constructor; try done; [lia|..].
  - intros name Hn. specialize (Hcm name (proj2 (elem_of_elements _ _) Hn)). by apply negb_false_iff, bool_decide_eq_true in Hcm.
  - intros name Hn. specialize (Hse name (proj2 (elem_of_elements _ _) Hn)). apply negb_false_iff, existsb_elem in Hse as (e & He & E).
    apply bool_decide_eq_true in E as <-. by apply list_elem_of_fmap_2.
  - intros x y E. rewrite E in Hro. apply bind_ok in Hro as ([a b] & Hx & Hro). apply bind_ok in Hro as ([c d] & Hy & Hro).
    apply guard_ok_ok, negb_true_iff, orb_false_iff in Hro as [Hd Hv]. apply bool_decide_eq_false in Hv.
    split; [|done]. apply (rotation_overlap x y a b c d Hx Hy). lia.
  - intros s Hs. by apply Scope_validate_ok, Hsc.
Qed.

Lemma parse_checked d p :
  ClientPolicy_parse d = Ok p → NoDup (user_name <$> users p) ∧ ∀ u, u ∈ users p → user_valid u.
Proof.
  unfold ClientPolicy_parse. destruct (_ <? _); [done|]. intros Hp. apply bind_ok in Hp as (q & _ & Hp).
  destruct (negb _); [done|]. apply bind_ok in Hp as (names & Hl & [= ->]).
  apply (names_checked _ user_name user_valid user_check_ok) in Hl as [Hd Hv]. split; [done|]. intros u Hu. by apply Hv.
Qed.

Lemma find_user l u :
  NoDup (user_name <$> l) → u ∈ l → List.find (λ v, bool_decide (user_name v = user_name u)) l = Some u.
Proof.
  induction l as [|v l IH]; cbn; [set_solver|]. intros [Hn Hd]%NoDup_cons [->|Hu]%elem_of_cons.
  - by rewrite bool_decide_eq_true_2.
  - rewrite bool_decide_eq_false_2; [by apply IH|]. intros E. apply Hn. rewrite E. by apply list_elem_of_fmap_2.
Qed.

(** C0. On a policy that was loaded, a user may run exactly the commands it is granted: the
    spelled name is the one of the parsed command, and the command is UNSUBSCRIBE or one the user
    lists, whose keys are all covered by the scope of writes or of reads that the command needs,
    and whose channels or sections are covered as well. *)
Theorem authorize_exact d p u name c :
  ClientPolicy_parse d = Ok p → u ∈ users p →
  authorize p (user_name u) name c = Ok tt ↔
  eq_ignore_ascii_case name (policy_command_name c) = true ∧ (is_unsubscribe c = true ∨ granted u c).
Proof. intros [Hd _]%parse_checked Hu. by apply authorize_decision, find_user. Qed.

(** C0. A policy that loads is unambiguous: users are distinct and valid, so that the instants at
    which both credentials of a rotation are accepted fit in a day; in every scope two rules of
    the same meaning are the same text, and no prefix is empty, so that only [all] grants
    everything. *)
Theorem policy_unambiguous d p :
  ClientPolicy_parse d = Ok p → b64_encode [] = [] →
  NoDup (user_name <$> users p) ∧
  ∀ u, u ∈ users p → user_valid u ∧
    ∀ s rule v, s ∈ scopes u → rule ∈ exact s ++ prefix s → b64_decode rule = Some v →
      (rule ∈ prefix s → v ≠ []) ∧ ∀ rule', rule' ∈ exact s ++ prefix s → b64_decode rule' = Some v → rule' = rule.
Proof.
  intros [Hd Hv]%parse_checked He. split; [done|]. intros u Hu. split; [by apply Hv|].
  intros s rule v Hin Hr Ev. destruct (uv_scopes u (Hv u Hu) s Hin) as [Hc Hp].
  assert (∀ rule v, rule ∈ exact s ++ prefix s → b64_decode rule = Some v → b64_encode v = rule) as Hcanon.
  { intros rule' v' Hr' Ev'. destruct (Hc rule' Hr') as (w & E1 & E2). congruence. }
  split.
  - intros Hx ->. apply Hp. by rewrite <- (Hcanon rule [] Hr Ev), He in Hx.
  - intros rule' Hr' Ev'. rewrite <- (Hcanon rule v), <- (Hcanon rule' v); done.
Qed.

(** ** What an authorized command can see and change *)

Lemma authorize_granted p username name c :
  authorize p username name c = Ok tt →
  ∃ u, u ∈ users p ∧ user_name u = username ∧ (is_unsubscribe c = true ∨ granted u c).
Proof.
  destruct (List.find (λ u, bool_decide (user_name u = username)) (users p)) as [u|] eqn:Hu.
  - intros Ha. pose proof Hu as [Hin Hn]%find_some. exists u. split_and!; [by apply list_elem_of_In|by apply bool_decide_eq_true in Hn|].
    by apply (authorize_decision p username name c u Hu) in Ha as [_ ?].
  - unfold authorize. rewrite Hu. by destruct (negb _).
Qed.

Definition command_scope (u : User) (c : Command) : Scope := if writes_dataset c then write_keys u else read_keys u.

Lemma granted_keys u c k :
  is_unsubscribe c = true ∨ granted u c → permits (command_scope u c) k = false → k ∉ visit_keys c.
Proof.
  intros [Hx|(_ & Hg & _)] Hk Hin; [by destruct c; set_solver|]. apply Hg, permits_covers in Hin.
  unfold command_scope in Hk. congruence.
Qed.

(** C0. An authorized command is confined to the grants of its user.  It runs to completion and
    keeps the store well-formed; the visible entry of every key outside the scope it was checked
    against is unchanged.  A command that is not a memory operation changes nothing when it is
    not a write, and its reply and effect depend on the keys inside that scope only: two stores
    that agree there answer alike and agree there afterwards, unless one of them is out of
    memory. *)
Theorem authorized_confined `{HashOrder} p username name c s s2 t :
  authorize p username name c = Ok tt → store_wf s → store_wf s2 → command_scores c →
  generation s + 6 * Z.max 1 (zlen (visit_keys c)) < 2 ^ 64 →
  generation s2 + 6 * Z.max 1 (zlen (visit_keys c)) < 2 ^ 64 →
  ∃ u s' r, u ∈ users p ∧ user_name u = username ∧
    execute s t c = Some (s', r) ∧ store_wf s' ∧
    (∀ k, permits (command_scope u c) k = false → view s' t !! k = view s t !! k) ∧
    (is_memory_command c = false → writes_dataset c = false → view s' t = view s t) ∧
    (is_memory_command c = false →
     (∀ k, permits (command_scope u c) k = true → view s t !! k = view s2 t !! k) →
     ∃ s2' r2, execute s2 t c = Some (s2', r2) ∧
       (r = RError OutOfMemory ∨ r2 = RError OutOfMemory ∨
        r = r2 ∧ ∀ k, permits (command_scope u c) k = true → view s' t !! k = view s2' t !! k)).
Proof.
  intros (u & Hu & Hn & Hg)%authorize_granted Hw Hw2 Hsc Hb Hb2.
  destruct (execute_ok s t c Hw Hsc Hb) as (s' & r & He & Hw' & Hr & Hf).
  destruct (execute_ok s2 t c Hw2 Hsc Hb2) as (s2' & r2 & He2 & _ & Hr2 & Hf2).
  exists u, s', r. split_and!; try done.
  - intros k Hk. by apply Hf, (granted_keys u c).
  - intros Hm Hro. destruct (Hr Hm) as [(_ & Hv & _)|Hs]; [done|].
    pose proof (spec_readonly t c (view s t) Hro) as E. by rewrite Hs in E.
  - intros Hm Hag. exists s2', r2. split; [done|].
    destruct (Hr Hm) as [(? & _)|Hs]; [by left|]. destruct (Hr2 Hm) as [(? & _)|Hs2]; [by right; left|]. right; right.
    assert (∀ k, k ∈ visit_keys c → view s t !! k = view s2 t !! k) as Hk.
    { intros k Hk. apply Hag. destruct (permits _ k) eqn:E; [done|]. by apply (granted_keys u c) in E. }
    destruct (spec_local t c _ _ Hk) as [E1 E2]. rewrite Hs, Hs2 in E1. split; [done|]. intros k Hp.
    destruct (decide (k ∈ visit_keys c)) as [Hin|Hin]; [specialize (E2 k Hin); by rewrite Hs, Hs2 in E2|].
    rewrite Hf, Hf2 by done. by apply Hag.
Qed.

(** ** Internal principals *)

Lemma component_slash value n upper : component value n upper = true → "/"%byte ∉ value.
Proof.
  unfold component. rewrite !andb_true_iff, forallb_forall. intros [_ Ha] Hin%list_elem_of_In.
  apply Ha in Hin. by destruct upper.
Qed.

Lemma uri_spec value i q :
  uri value = Some (i, q) ↔
  value = lit "spiffe://sider/" ++ i ++ "/"%byte :: q ∧ component i 63 false = true ∧ component q 63 false = true.
Proof.
  unfold uri. rewrite bind_Some. setoid_rewrite bind_Some. split.
  - intros (rest & Hr%strip_prefix_spec & [i' q'] & [E _]%split_first_spec & Hc).
    destruct (component i' 63 false && component q' 63 false) eqn:Ec; [|done]. injection Hc as -> ->.
    apply andb_prop in Ec. by rewrite Hr, E.
  - intros (-> & Hi & Hq). exists (i ++ "/"%byte :: q). split; [apply strip_prefix_app|]. exists (i, q).
    split; [apply split_first_spec; split; [done|by eapply component_slash]|]. by rewrite Hi, Hq.
Qed.

Definition principal_valid (instance : bytes) (q : Principal) : Prop :=
  is_Some (uri (uri_san q)) ∧ roles q ≠ [] ∧ (ReplicaRole ∈ roles q ↔ upstream_instance q = Some instance).

Lemma principal_check_ok instance names q names' :
  principal_check instance names q = Ok names' →
  (uri_san q ∉ names) ∧ names' = {[uri_san q]} ∪ names ∧ principal_valid instance q.
Proof.
  unfold principal_check. destruct (_ || _) eqn:Eg; [done|]. rewrite !orb_false_iff, negb_false_iff in Eg.
  destruct Eg as (((((Eu & Hn) & Hr) & _) & He) & Hi). intros [= <-]. apply bool_decide_eq_false in Eu, Hn, Hr.
  split_and!; [done..|]. split_and!; [by apply not_eq_None_Some|done|].
  apply eqb_prop in He. transitivity (is_Some (upstream_instance q)).
  { by rewrite <- (bool_decide_eq_true (ReplicaRole ∈ roles q)), He, bool_decide_eq_true. }
  split.
  - intros [v Ev]. rewrite Ev in *. by apply negb_false_iff, bool_decide_eq_true in Hi as ->.
  - intros ->. by eexists.
Qed.

(** C0. In an internal policy that was loaded every principal has its own identity, and
    exactly the listed roles are authorized.  A replica is authorized only by a principal bound
    to this instance.  The server recognizes as its own exactly the identities of its instance,
    and as its upstream the one configured identity, which only an outgoing policy has. *)
Theorem peer_identity d outgoing p name :
  InternalPolicy_parse d outgoing = Ok p →
  NoDup (uri_san <$> principals p) ∧
  (∀ r, internal_authorize p name r = Ok tt ↔ ∃ q, q ∈ principals p ∧ uri_san q = name ∧ r ∈ roles q) ∧
  (internal_authorize p name ReplicaRole = Ok tt →
   ∃ q, q ∈ principals p ∧ uri_san q = name ∧ upstream_instance q = Some (instance_id p)) ∧
  (own_identity p name = true ↔
   ∃ q, component q 63 false = true ∧ name = lit "spiffe://sider/" ++ instance_id p ++ "/"%byte :: q) ∧
  (upstream_identity p name = true → outgoing = true ∧ is_Some (uri name)).
Proof.
  unfold InternalPolicy_parse. intros Hp. apply bind_ok in Hp as (q & _ & Hp). destruct (_ || _) eqn:Eg; [done|].
  apply bind_ok in Hp as (names & Hl & [= ->]). rewrite !orb_false_iff, !negb_false_iff in Eg. destruct Eg as (((_ & Hc) & Ho) & Hu).
  apply (names_checked _ uri_san (principal_valid (instance_id p)) (principal_check_ok _)) in Hl as [Hd Hv].
  assert (∀ r, internal_authorize p name r = Ok tt ↔ ∃ q, q ∈ principals p ∧ uri_san q = name ∧ r ∈ roles q) as Ha.
  { intros r. unfold internal_authorize. rewrite if_tt, existsb_elem. apply exist_proper. intros q.
    by rewrite andb_true_iff, !bool_decide_eq_true. }
  split_and!; [done..| | |].
  - rewrite Ha. intros (q & Hin & En & Hr). exists q. split_and!; [done..|]. by apply (Hv q Hin).
  - unfold own_identity. split.
    + destruct (uri name) as [[i q]|] eqn:Eu; [|done]. intros ->%bool_decide_eq_true. apply uri_spec in Eu as (-> & _ & ?). eauto.
    + intros (q & Hq & En). assert (uri name = Some (instance_id p, q)) as -> by (by apply uri_spec). by apply bool_decide_eq_true.
  - unfold upstream_identity. intros E%bool_decide_eq_true. rewrite E in *. cbn in Ho. apply eqb_prop in Ho as ->.
    split; [done|]. apply bool_decide_eq_false in Hu. by apply not_eq_None_Some.
Qed.
End Decisions.

(** ** Sample policies *)

Definition sample_credential : Credential := {|
  verifier := lit "$argon2id$v=19$m=65536,t=3,p=1$aaaabbbbccccdddd$aaaabbbbccccddddaaaabbbbccccdddd";
  not_before := lit "1";
  expires_at := lit "111"
|}.
Definition nothing : Scope := {| exact := []; prefix := []; all := false |}.
Definition sample_user : User := {|
  user_name := lit "reader";
  credentials := [sample_credential];
  commands := {[lit "GET"; lit "SET"]};
  read_keys := {| exact := []; prefix := [lit "app:"]; all := false |};
  write_keys := {| exact := [lit "app:counter"]; prefix := []; all := false |};
  publish_channels := nothing;
  subscribe_channels := nothing;
  info_sections := ∅
|}.
Definition sample_policy : ClientPolicy := {| cp_version := 1; users := [sample_user] |}.
Definition sample_principal : Principal := {|
  uri_san := lit "spiffe://sider/east/replica";
  roles := [ReplicaRole; MonitorRole];
  upstream_instance := Some (lit "east")
|}.
Definition sample_internal : InternalPolicy := {|
  ip_version := 1;
  instance_id := lit "east";
  principals := [sample_principal];
  upstream_principal := None
|}.
(** Codecs that leave the rules as they are and read a time as the length of its text. *)
Definition sample_codecs : SecurityCodecs := {|
  b64_decode := Some;
  b64_encode := λ v, v;
  b64_raw_decode := Some;
  b64_raw_encode := λ v, v;
  parse_rfc3339 := λ text, Some (zlen text, true);
  password_hash_ok := λ _, true;
  client_json := λ _, Some sample_policy;
  internal_json := λ _, Some sample_internal
|}.

Lemma sample_policy_loads : ClientPolicy_parse (H := sample_codecs) [] = Ok sample_policy.
Proof. vm_compute. reflexivity. Qed.

Lemma authorize_exact_witness :
  authorize (H := sample_codecs) sample_policy (lit "reader") (lit "get") (CGet (lit "app:x")) = Ok tt ↔
  eq_ignore_ascii_case (lit "get") (lit "GET") = true ∧ (false = true ∨ granted (H := sample_codecs) sample_user (CGet (lit "app:x"))).
Proof.
  apply (authorize_exact (H := sample_codecs) [] sample_policy sample_user (lit "get") (CGet (lit "app:x"))).
  - apply sample_policy_loads.
  - left.
Defined.

Lemma policy_unambiguous_witness : NoDup (user_name <$> users sample_policy).
Proof. apply (policy_unambiguous (H := sample_codecs) [] sample_policy sample_policy_loads eq_refl). Defined.

Lemma authorized_confined_witness :
  ∃ u s' r, u ∈ users sample_policy ∧ user_name u = lit "reader" ∧
    execute (H := list_order) empty_store epoch_sample (CSet (lit "app:counter") (lit "1")) = Some (s', r) ∧ store_wf s'.
Proof.
  destruct (authorized_confined (H := sample_codecs) (H0 := list_order) sample_policy (lit "reader") (lit "SET")
              (CSet (lit "app:counter") (lit "1")) empty_store empty_store epoch_sample) as (u & s' & r & Hu & Hn & He & Hw & _).
  - vm_compute. reflexivity.
  - apply empty_store_wf.
  - apply empty_store_wf.
  - done.
  - done.
  - done.
  - exact (ex_intro _ u (ex_intro _ s' (ex_intro _ r (conj Hu (conj Hn (conj He Hw)))))).
Defined.

Lemma peer_identity_witness : NoDup (uri_san <$> principals sample_internal).
Proof.
  apply (peer_identity (H := sample_codecs) [] false sample_internal (lit "spiffe://sider/east/replica")). vm_compute. reflexivity.
Defined.
