(* ===== verification/Pubsub.v ===== *)
(** * Publication and subscription

    Models src/pubsub.rs: the registry of channels and subscribers behind its mutex, the
    bounded queue of each subscriber, evictions, the reload of a policy, and the reply of EXEC.
    The queues are the bounded channels of the crate [tokio], taken as an interface
    ([Mpsc], [MpscLaws]); the text of INFO is an argument of [complete_exec]. *)

From Stdlib Require Import Strings.Byte Strings.String ZArith Lia.
From S2P Require Import Prelude RespEncoder Wire Memory Command Policy.

#[local] Open Scope Z_scope.

(** ** Data *)

Record Message := { m_channel : bytes; m_payload : bytes }.
Definition Message_into_frame (m : Message) : Frame :=
  Array (Some [Bulk (Some (lit "message")); Bulk (Some (m_channel m)); Bulk (Some (m_payload m))]).

Inductive PubSubError := ChannelLimit | Closed.
Definition PubSubError_to_string (e : PubSubError) : bytes :=
  match e with
  | ChannelLimit => lit "ERR pubsub channel limit exceeded"
  | Closed => lit "subscriber closed or notification queue full"
  end.

(** The bounded queues of [tokio::sync::mpsc]: creation, the attempts to send and to receive,
    and the capacity a queue was created with. *)
Class Mpsc := {
  chan : Type;
  mpsc_channel : Z → chan;
  try_send : chan → Message → option chan;
  try_recv : chan → option (Message * chan);
  max_capacity : chan → Z
}.
(** Their documented behaviour: a queue holds its messages in order, box_accepts one while it is
    below its capacity, and gives them back from the front. *)
Class MpscLaws `{Mpsc} := {
  queued : chan → list Message;
  channel_empty n : queued (mpsc_channel n) = [];
  channel_capacity n : max_capacity (mpsc_channel n) = n;
  queued_bounded q : 0 < max_capacity q → zlen (queued q) <= max_capacity q;
  try_send_full q m : max_capacity q <= zlen (queued q) → try_send q m = None;
  try_send_room q m : zlen (queued q) < max_capacity q →
    ∃ q', try_send q m = Some q' ∧ queued q' = queued q ++ [m] ∧ max_capacity q' = max_capacity q;
  try_recv_empty q : queued q = [] → try_recv q = None;
  try_recv_cons q m l : queued q = m :: l →
    ∃ q', try_recv q = Some (m, q') ∧ queued q' = l ∧ max_capacity q' = max_capacity q
}.

(** The metrics that the registry sets: three gauges and three saturating counters. *)
Record HubMetrics := {
  g_channels : Z;
  g_subscribers : Z;
  g_subscriptions : Z;
  n_evictions : Z;
  n_deliveries : Z;
  n_error_replies : Z
}.
Definition saturating_add (a b : Z) : Z := Z.min (a + b) (2 ^ 64 - 1).

(** What an [Entry] shares with its [Subscription]: the queue, the eviction flag and the wake
    permit. *)
Record Pipe `{Mpsc} := { p_queue : chan; p_evicted : bool; p_woken : bool }.
(** The registry: [subscribers] maps an identifier to the channels of its [Entry], [pipes] to
    what the entry and the guard of the connection share. *)
Record Hub `{Mpsc} := {
  metrics : HubMetrics;
  subscriptions : Z;
  active_subscribers : Z;
  next_id : Z;
  subscribers : gmap Z (gset bytes);
  hub_channels : gmap bytes (gset Z);
  pipes : gmap Z Pipe
}.
Record Subscription := { s_id : Z; s_max_channels : Z; s_resp3 : bool }.

Section Hub.
Context `{Mpsc}.

Definition with_pipe (h : Hub) (id : Z) (f : Pipe → Pipe) : Hub := {|
  metrics := metrics h; subscriptions := subscriptions h; active_subscribers := active_subscribers h;
  next_id := next_id h; subscribers := subscribers h; hub_channels := hub_channels h;
  pipes := alter f id (pipes h)
|}.
Definition with_metrics (h : Hub) (m : HubMetrics) : Hub := {|
  metrics := m; subscriptions := subscriptions h; active_subscribers := active_subscribers h;
  next_id := next_id h; subscribers := subscribers h; hub_channels := hub_channels h; pipes := pipes h
|}.
Definition with_registry (h : Hub) (total active : Z) (entries : gmap Z (gset bytes)) (members : gmap bytes (gset Z)) : Hub := {|
  metrics := metrics h; subscriptions := total; active_subscribers := active;
  next_id := next_id h; subscribers := entries; hub_channels := members; pipes := pipes h
|}.

(** [notify_one], and [send_replace(true)] on the eviction flag. *)
Definition wake (p : Pipe) : Pipe := {| p_queue := p_queue p; p_evicted := p_evicted p; p_woken := true |}.
Definition mark_evicted (p : Pipe) : Pipe := {| p_queue := p_queue p; p_evicted := true; p_woken := p_woken p |}.
Definition requeue (q : chan) (p : Pipe) : Pipe := {| p_queue := q; p_evicted := p_evicted p; p_woken := p_woken p |}.

Definition count_evictions (m : HubMetrics) (n : Z) : HubMetrics := {|
  g_channels := g_channels m; g_subscribers := g_subscribers m; g_subscriptions := g_subscriptions m;
  n_evictions := saturating_add (n_evictions m) n; n_deliveries := n_deliveries m; n_error_replies := n_error_replies m
|}.
Definition count_deliveries (m : HubMetrics) (n : Z) : HubMetrics := {|
  g_channels := g_channels m; g_subscribers := g_subscribers m; g_subscriptions := g_subscriptions m;
  n_evictions := n_evictions m; n_deliveries := saturating_add (n_deliveries m) n; n_error_replies := n_error_replies m
|}.
Definition count_errors (m : HubMetrics) (n : Z) : HubMetrics := {|
  g_channels := g_channels m; g_subscribers := g_subscribers m; g_subscriptions := g_subscriptions m;
  n_evictions := n_evictions m; n_deliveries := n_deliveries m; n_error_replies := saturating_add (n_error_replies m) n
|}.
Definition gauges (h : Hub) : Hub := with_metrics h {|
  g_channels := zlen (map_to_list (hub_channels h));
  g_subscribers := active_subscribers h;
  g_subscriptions := subscriptions h;
  n_evictions := n_evictions (metrics h);
  n_deliveries := n_deliveries (metrics h);
  n_error_replies := n_error_replies (metrics h)
|}.

Definition hub_default : Hub := {|
  metrics := {| g_channels := 0; g_subscribers := 0; g_subscriptions := 0; n_evictions := 0; n_deliveries := 0; n_error_replies := 0 |};
  subscriptions := 0; active_subscribers := 0; next_id := 0; subscribers := ∅; hub_channels := ∅; pipes := ∅
|}.

(** ** The registry *)

Definition card {A} `{Countable A} (s : gset A) : Z := zlen (elements s).
Definition from_bool (b : bool) : Z := if b then 1 else 0.

(** [members.remove(&id)], and the removal of a channel without members. *)
Definition leave (members : gmap bytes (gset Z)) (id : Z) (channel : bytes) : gmap bytes (gset Z) :=
  match members !! channel with
  | Some ids => if bool_decide (ids ∖ {[id]} = ∅) then delete channel members else <[channel := ids ∖ {[id]}]> members
  | None => members
  end.
Definition hub_remove (h : Hub) (id : Z) : option Hub :=
  match subscribers h !! id with
  | None => Some h
  | Some channels =>
      total ← u_sub (subscriptions h) (card channels);
      active ← u_sub (active_subscribers h) (from_bool (negb (bool_decide (channels = ∅))));
      let h := with_registry h total active (delete id (subscribers h))
                 (foldl (λ members, leave members id) (hub_channels h) (btree_set_iter channels)) in
      Some (gauges (with_pipe h id (λ p, wake (mark_evicted p))))
  end.

(** One member of a publication: the registry and whether the message was sent. *)
Definition publish_one (h : Hub) (m : Message) (id : Z) : option (Hub * bool) :=
  match (_ ← subscribers h !! id; p ← pipes h !! id; try_send (p_queue p) m) with
  | Some q => Some (with_pipe h id (λ p, wake (requeue q p)), true)
  | None => h ← hub_remove (with_metrics h (count_evictions (metrics h) 1)) id; Some (h, false)
  end.
Fixpoint publish_loop (h : Hub) (m : Message) (ids : list Z) (accepted : Z) : option (Hub * Z) :=
  match ids with
  | [] => Some (h, accepted)
  | id :: ids => '(h, sent) ← publish_one h m id; publish_loop h m ids (accepted + from_bool sent)
  end.
Definition publish (h : Hub) (m : Message) : option (Hub * Z) :=
  '(h, accepted) ← publish_loop h m (btree_set_iter (default ∅ (hub_channels h !! m_channel m))) 0;
  Some (with_metrics h (count_deliveries (metrics h) accepted), accepted).

Definition connect (h : Hub) (max_channels capacity : Z) : Hub * result PubSubError Subscription :=
  let id := next_id h in
  match u_add id 1 with
  | None => (h, Err Closed)
  | Some next =>
      ({| metrics := metrics h; subscriptions := subscriptions h; active_subscribers := active_subscribers h;
          next_id := next; subscribers := <[id := ∅]> (subscribers h); hub_channels := hub_channels h;
          pipes := <[id := {| p_queue := mpsc_channel capacity; p_evicted := false; p_woken := false |}]> (pipes h) |},
       Ok {| s_id := id; s_max_channels := max_channels; s_resp3 := false |})
  end.
(** [drop] of a subscription: the entry goes, and the receiver with it. *)
Definition disconnect (h : Hub) (s : Subscription) : option Hub :=
  h ← hub_remove h (s_id s);
  Some {| metrics := metrics h; subscriptions := subscriptions h; active_subscribers := active_subscribers h;
          next_id := next_id h; subscribers := subscribers h; hub_channels := hub_channels h;
          pipes := delete (s_id s) (pipes h) |}.

(** ** Receiving *)

(** [while let Ok(message) = receiver.try_recv()]: a queue holds at most its capacity. *)
Fixpoint receive_loop (fuel : nat) (q : chan) : list Message * chan :=
  match fuel with
  | O => ([], q)
  | S fuel => match try_recv q with Some (m, q) => let '(l, q) := receive_loop fuel q in (m :: l, q) | None => ([], q) end
  end.
Definition receive_all (h : Hub) (id : Z) : Hub * list Message :=
  match pipes h !! id with
  | Some p =>
      let '(l, q) := receive_loop (Z.to_nat (max_capacity (p_queue p))) (p_queue p) in
      (with_pipe h id (requeue q), l)
  | None => (h, [])
  end.
Definition drain (h : Hub) (id : Z) : Hub * list Frame := let '(h, l) := receive_all h id in (h, Message_into_frame <$> l).
Definition try_message (h : Hub) (s : Subscription) : Hub * option Message :=
  match (p ← pipes h !! s_id s; try_recv (p_queue p)) with
  | Some (m, q) => (with_pipe h (s_id s) (requeue q), Some m)
  | None => (h, None)
  end.
Definition active (h : Hub) (s : Subscription) : bool :=
  match subscribers h !! s_id s with Some channels => negb (bool_decide (channels = ∅)) | None => false end.
Definition is_evicted (h : Hub) (s : Subscription) : bool :=
  match pipes h !! s_id s with Some p => p_evicted p | None => false end.

(** ** Subscribing *)

Definition confirmation (kind : bytes) (channel : option bytes) (count : Z) : Frame :=
  Array (Some [Bulk (Some kind); Bulk channel; Integer count]).

Definition subscribe_one (h : Hub) (id : Z) (channel : bytes) : option (result PubSubError (Hub * Frame)) :=
  match subscribers h !! id with
  | None => Some (Err Closed)
  | Some channels =>
      let inserted := negb (bool_decide (channel ∈ channels)) in
      let channels := {[channel]} ∪ channels in
      total ← u_add (subscriptions h) (from_bool inserted);
      active ← u_add (active_subscribers h) (from_bool (inserted && (card channels =? 1)));
      Some (Ok (with_registry h total active (<[id := channels]> (subscribers h))
                  (<[channel := {[id]} ∪ default ∅ (hub_channels h !! channel)]> (hub_channels h)),
                confirmation (lit "subscribe") (Some channel) (card channels)))
  end.
Definition unsubscribe_one (h : Hub) (id : Z) (channel : bytes) : option (result PubSubError (Hub * Frame)) :=
  match subscribers h !! id with
  | None => Some (Err Closed)
  | Some channels =>
      let removed := bool_decide (channel ∈ channels) in
      let channels := channels ∖ {[channel]} in
      total ← u_sub (subscriptions h) (from_bool removed);
      active ← u_sub (active_subscribers h) (from_bool (removed && bool_decide (channels = ∅)));
      Some (Ok (with_registry h total active (<[id := channels]> (subscribers h)) (leave (hub_channels h) id channel),
                confirmation (lit "unsubscribe") (Some channel) (card channels)))
  end.
(** The loop over the channels: an error leaves what was done before it. *)
Fixpoint each_channel (one : Hub → bytes → option (result PubSubError (Hub * Frame))) (h : Hub) (l : list bytes)
    : option (Hub * result PubSubError (list Frame)) :=
  match l with
  | [] => Some (h, Ok [])
  | channel :: l =>
      r ← one h channel;
      match r with
      | Err e => Some (h, Err e)
      | Ok (h, frame) => '(h, r) ← each_channel one h l; Some (h, frames ← r; Ok (frame :: frames))
      end
  end.
Definition subscribe_locked (h : Hub) (s : Subscription) (channels : list bytes) (drain_messages : bool)
    : option (Hub * result PubSubError (list Frame)) :=
  match subscribers h !! s_id s with
  | None => Some (h, Err Closed)
  | Some entry =>
      if s_max_channels s <? card (list_to_set channels ∪ entry) then Some (h, Err ChannelLimit)
      else
        let '(h, responses) := if drain_messages then drain h (s_id s) else (h, []) in
        '(h, r) ← each_channel (λ h, subscribe_one h (s_id s)) h channels;
        match r with Err e => Some (h, Err e) | Ok frames => Some (gauges h, Ok (responses ++ frames)) end
  end.
Definition unsubscribe_locked (h : Hub) (s : Subscription) (channels : list bytes) (drain_messages : bool)
    : option (Hub * result PubSubError (list Frame)) :=
  match subscribers h !! s_id s with
  | None => Some (h, Err Closed)
  | Some entry =>
      let channels := if bool_decide (channels = []) then btree_set_iter entry else channels in
      let '(h, responses) := if drain_messages then drain h (s_id s) else (h, []) in
      let responses :=
        if bool_decide (channels = []) then responses ++ [confirmation (lit "unsubscribe") None 0] else responses in
      '(h, r) ← each_channel (λ h, unsubscribe_one h (s_id s)) h channels;
      match r with Err e => Some (h, Err e) | Ok frames => Some (gauges h, Ok (responses ++ frames)) end
  end.
Definition subscribe (h : Hub) (s : Subscription) (channels : list bytes) : option (Hub * result PubSubError (list Frame)) :=
  subscribe_locked h s channels true.
Definition unsubscribe (h : Hub) (s : Subscription) (channels : list bytes) : option (Hub * result PubSubError (list Frame)) :=
  unsubscribe_locked h s channels true.

(** ** Reload of a policy *)

Section Revalidate.
Context `{SecurityCodecs}.

Definition may_subscribe (policy : ClientPolicy) (username channel : bytes) : bool :=
  match authorize policy username (lit "SUBSCRIBE") (CSubscribe [channel]) with Ok _ => true | Err _ => false end.
(** The retained messages go back to the queue until one is refused. *)
Fixpoint resend (h : Hub) (id : Z) (l : list Message) : Hub :=
  match l with
  | [] => h
  | m :: l =>
      match (p ← pipes h !! id; try_send (p_queue p) m) with
      | Some q => resend (with_pipe h id (λ p, wake (requeue q p))) id l
      | None => h
      end
  end.
Definition revalidate (h : Hub) (s : Subscription) (policy : ClientPolicy) (username : bytes) : option Hub :=
  let revoked :=
    List.filter (λ channel, negb (may_subscribe policy username channel))
      (btree_set_iter (default ∅ (subscribers h !! s_id s))) in
  let '(h, l) := receive_all h (s_id s) in
  let retained := List.filter (λ m, may_subscribe policy username (m_channel m)) l in
  h ← (if bool_decide (revoked = []) then Some h
       else '(h, _) ← unsubscribe_locked h s revoked false; Some h);
  Some (if bool_decide (is_Some (subscribers h !! s_id s)) then resend h (s_id s) retained else h).
End Revalidate.

(** ** The reply of EXEC *)

Fixpoint errors (frame : Frame) : Z :=
  match frame with
  | Error _ => 1
  | Array (Some values) => foldl saturating_add 0 (errors <$> values)
  | _ => 0
  end.

Section CompleteExec.
Context (render : Hub → Z → bytes).

Definition acknowledge (protocol : Z) (r : result PubSubError (list Frame)) : list Frame :=
  match r with
  | Ok acks => (λ frame, push frame protocol) <$> acks
  | Err error => [Error (PubSubError_to_string error)]
  end.
(** The frames of one command of the batch. *)
Definition exec_frames (h : Hub) (s : Subscription) (limits : RespLimits) (c : Command) (reply : Reply)
    : option (Hub * list Frame) :=
  let protocol := if s_resp3 s then 3 else 2 in
  let plain := if s_resp3 s then command_resp3 (Frame_from reply) c else Frame_from reply in
  match c with
  | CInfo sections => Some (h, [Bulk (Some (render h sections))])
  | CSubscribe channels => '(h, r) ← subscribe_locked h s channels false; Some (h, acknowledge protocol r)
  | CUnsubscribe channels => '(h, r) ← unsubscribe_locked h s channels false; Some (h, acknowledge protocol r)
  | CPublish channel message =>
      let message := {| m_channel := channel; m_payload := message |} in
      match (encode (Message_into_frame message) [] limits).2 with
      | Err _ => Some (h, [Error (lit "ERR pubsub message exceeds response limit")])
      | Ok _ => '(h, accepted) ← publish h message; Some (h, [Integer accepted])
      end
  | CPing payload =>
      if active h s && negb (s_resp3 s) then Some (h, [Array (Some [Bulk (Some (lit "pong")); Bulk (Some (default [] payload))])])
      else Some (h, [plain])
  | _ => Some (h, [plain])
  end.
Fixpoint exec_loop (h : Hub) (s : Subscription) (limits : RespLimits) (l : list (Command * Reply)) : option (Hub * list Frame) :=
  match l with
  | [] => Some (h, [])
  | (c, reply) :: l =>
      '(h, frames) ← exec_frames h s limits c reply;
      '(h, rest) ← exec_loop h s limits l;
      Some (h, frames ++ rest)
  end.

(** Encodes every frame under one array, then replaces its header by the logical count. *)
Definition encode_exec (command_count : Z) (frames : list Frame) (limits : RespLimits) : option (result EncodeError bytes) :=
  let physical_count := zlen frames in
  if physical_count <? command_count then None
  else
    match encode (Array (Some frames)) [] limits with
    | (_, Err e) => Some (Err e)
    | (output, Ok _) =>
        let physical_header := lit "*" ++ udec physical_count ++ CRLF in
        let logical_header := lit "*" ++ udec command_count ++ CRLF in
        if zlen output <? zlen physical_header then None
        else Some (Ok (logical_header ++ drop (length physical_header) output))
    end.

Definition complete_exec (h : Hub) (s : Subscription) (commands : list Command) (limits : RespLimits) (reply : Reply)
    : option (Hub * result EncodeError bytes) :=
  match reply with
  | RArray replies =>
      '(h, frames) ← exec_loop h s limits (zip commands replies);
      let protocol := if s_resp3 s then 3 else 2 in
      let '(h, own) := drain h (s_id s) in
      let frames := frames ++ ((λ frame, push frame protocol) <$> own) in
      let h := with_metrics h (foldl (λ m frame, count_errors m (errors frame)) (metrics h) frames) in
      r ← encode_exec (zlen commands) frames limits;
      Some (h, r)
  | _ => None
  end.
End CompleteExec.
End Hub.
