(* ===== verification/PubsubSpec.v ===== *)
(** * What the registry of channels promises

    The members of the channels mirror the channels of the subscribers and the counters are
    exact ([channels_ok], [hub_ok]).  Every operation of Pubsub.v refines a step on independent
    mailboxes ([spec_hub_step]), along any run ([hub_refines]); a connection receives an ordered
    stream ([delivery_order]); the reply of EXEC has the shape of [exec_reply]. *)

From Stdlib Require Import Strings.Byte Strings.String ZArith Lia.
From S2P Require Import Prelude RespEncoder Wire Memory Command StoreExec Policy Pubsub.

#[local] Open Scope Z_scope.

(** ** Consistency of the registry *)

Definition mem (members : gmap bytes (gset Z)) (channel : bytes) : gset Z := default ∅ (members !! channel).
Definition chans_of (entries : gmap Z (gset bytes)) (id : Z) : gset bytes := default ∅ (entries !! id).
Definition is_active (channels : gset bytes) : Z := from_bool (negb (bool_decide (channels = ∅))).

Record channels_ok (entries : gmap Z (gset bytes)) (members : gmap bytes (gset Z)) (total active : Z) : Prop := {
  ro_members : ∀ channel id, id ∈ mem members channel ↔ channel ∈ chans_of entries id;
  ro_nonempty : ∀ channel, members !! channel ≠ Some ∅;
  ro_total : total = map_zsum (λ _, card) entries;
  ro_active : active = map_zsum (λ _, is_active) entries
}.

Lemma card_size {A} `{Countable A} (s : gset A) : card s = Z.of_nat (size s).
Proof. done. Qed.
Lemma card_nonneg {A} `{Countable A} (s : gset A) : 0 <= card s.
Proof. rewrite card_size. lia. Qed.
Lemma is_active_bounds s : 0 <= is_active s <= card s.
Proof.
  unfold is_active. rewrite card_size. case_bool_decide as E; cbn; [lia|].
  assert (size s ≠ 0)%nat by (intros Hs%size_empty_iff; set_solver). lia.
Qed.
Lemma card_union (s : gset bytes) x :
  card ({[x]} ∪ s) = card s + from_bool (negb (bool_decide (x ∈ s))).
Proof.
  rewrite !card_size. case_bool_decide as E; cbn; [replace ({[x]} ∪ s) with s by set_solver; lia|].
  rewrite size_union by set_solver. rewrite size_singleton. lia.
Qed.
Lemma card_diff (s : gset bytes) x :
  card (s ∖ {[x]}) = card s - from_bool (bool_decide (x ∈ s)).
Proof.
  rewrite !card_size. case_bool_decide as E; cbn; [|replace (s ∖ {[x]}) with s by set_solver; lia].
  rewrite size_difference by set_solver. rewrite size_singleton.
  assert (size s ≠ 0)%nat by (intros Hs%size_empty_iff; set_solver). lia.
Qed.

Lemma mem_leave members id channel channel' :
  mem (leave members id channel) channel' = if decide (channel = channel') then mem members channel ∖ {[id]} else mem members channel'.
Proof.
  unfold leave, mem. destruct (members !! channel) as [ids|] eqn:E.
  - case_bool_decide as Ei; case_decide as Ec; subst; rewrite ?lookup_delete_eq, ?lookup_insert_eq, ?lookup_delete_ne, ?lookup_insert_ne, ?E by done; done.
  - case_decide; subst; [rewrite E; set_solver|done].
Qed.
Lemma leave_nonempty members id channel :
  (∀ c, members !! c ≠ Some ∅) → ∀ c, leave members id channel !! c ≠ Some ∅.
Proof.
  intros Hn c. unfold leave. destruct (members !! channel) as [ids|] eqn:E; [|done].
  case_bool_decide as Ei; destruct (decide (channel = c)) as [->|Hc];
    rewrite ?lookup_delete_eq, ?lookup_insert_eq, ?lookup_delete_ne, ?lookup_insert_ne by done; try done. congruence.
Qed.
Lemma mem_leave_all l members id channel id' :
  id' ∈ mem (foldl (λ m, leave m id) members l) channel ↔ id' ∈ mem members channel ∧ ¬ (id' = id ∧ channel ∈ l).
Proof.
  revert members. induction l as [|x l IH]; intros members; cbn; [set_solver|]. rewrite IH, mem_leave.
  case_decide; subst; set_solver.
Qed.
Lemma leave_all_nonempty l members id :
  (∀ c, members !! c ≠ Some ∅) → ∀ c, foldl (λ m, leave m id) members l !! c ≠ Some ∅.
Proof. revert members. induction l as [|x l IH]; intros members Hn; cbn; [done|]. by apply IH, leave_nonempty. Qed.

Lemma map_zsum_set {V} (f : V → Z) (m : gmap Z V) k v v' :
  m !! k = Some v → map_zsum (λ _, f) (<[k := v']> m) = map_zsum (λ _, f) m - f v + f v'.
Proof.
  intros Hk. rewrite <- insert_delete_eq, map_zsum_insert by apply lookup_delete_eq. rewrite (map_zsum_delete (λ _, f) m k v Hk). cbv beta. lia.
Qed.
Lemma map_zsum_ge {V} (f : V → Z) (m : gmap Z V) k v : (∀ v, 0 <= f v) → m !! k = Some v → f v <= map_zsum (λ _, f) m.
Proof.
  intros Hf Hk. pose proof (map_zsum_delete (λ _, f) m k v Hk) as E.
  assert (0 <= map_zsum (λ _, f) (delete k m)) by (apply map_zsum_nonneg; auto). cbv beta in E. lia.
Qed.

Lemma registry_bounds entries members total active : channels_ok entries members total active → 0 <= active <= total.
Proof.
  intros [_ _ -> ->]. split; [apply map_zsum_nonneg; intros; apply is_active_bounds|].
  induction entries as [|k v m Hk IH] using map_ind; [by rewrite !map_zsum_empty|].
  rewrite !map_zsum_insert by done. pose proof (is_active_bounds v). lia.
Qed.

Lemma registry_remove entries members total active id channels :
  channels_ok entries members total active → entries !! id = Some channels →
  card channels <= total ∧ is_active channels <= active ∧
  channels_ok (delete id entries) (foldl (λ m, leave m id) members (btree_set_iter channels))
    (total - card channels) (active - is_active channels).
Proof.
  intros [Hm Hn -> ->] Hid. split_and!.
  - apply (map_zsum_ge card _ id); [apply card_nonneg|done].
  - apply (map_zsum_ge is_active _ id); [intros; apply is_active_bounds|done].
  - split.
    + intros channel id'. rewrite mem_leave_all, btree_set_iter_elem, Hm. unfold chans_of.
      destruct (decide (id = id')) as [->|Hne]; [rewrite lookup_delete_eq, Hid|rewrite lookup_delete_ne by done]; set_solver.
    + by apply leave_all_nonempty.
    + by rewrite (map_zsum_delete (λ _, card) _ _ _ Hid).
    + by rewrite (map_zsum_delete (λ _, is_active) _ _ _ Hid).
Qed.

Lemma registry_subscribe entries members total active id channels channel :
  channels_ok entries members total active → entries !! id = Some channels →
  channels_ok (<[id := {[channel]} ∪ channels]> entries) (<[channel := {[id]} ∪ mem members channel]> members)
    (total + from_bool (negb (bool_decide (channel ∈ channels))))
    (active + from_bool (negb (bool_decide (channel ∈ channels)) && (card ({[channel]} ∪ channels) =? 1))).
Proof.
  intros [Hm Hn -> ->] Hid. split.
  - intros c id'. specialize (Hm c id'). unfold mem, chans_of in *. destruct (decide (id = id')) as [->|Hne].
    + rewrite (lookup_insert_eq entries). rewrite Hid in Hm. destruct (decide (c = channel)) as [->|Hc];
        [rewrite lookup_insert_eq|rewrite lookup_insert_ne by done]; set_solver.
    + rewrite (lookup_insert_ne entries) by done. destruct (decide (c = channel)) as [->|Hc];
        [rewrite lookup_insert_eq|rewrite lookup_insert_ne by done]; set_solver.
  - intros c. destruct (decide (c = channel)) as [->|Hc]; [rewrite lookup_insert_eq|rewrite lookup_insert_ne by done; apply Hn].
    intros [= E]. set_solver.
  - rewrite (map_zsum_set card _ _ _ _ Hid), card_union. lia.
  - rewrite (map_zsum_set is_active _ _ _ _ Hid). unfold is_active. rewrite card_union.
    rewrite (bool_decide_eq_false_2 ({[channel]} ∪ channels = ∅)) by set_solver. pose proof (card_nonneg channels).
    destruct (bool_decide_reflect (channel ∈ channels)) as [E|E]; cbn [negb andb from_bool].
    + rewrite bool_decide_eq_false_2 by set_solver. cbn [negb from_bool]. lia.
    + case_bool_decide as Ee; cbn [negb from_bool].
      * subst channels. assert (card (∅ : gset bytes) = 0) as -> by done. change (0 + 1 =? 1) with true. cbn [from_bool]. lia.
      * assert (size channels ≠ 0)%nat by (intros Hs%size_empty_iff; set_solver). rewrite card_size in *.
        replace (Z.of_nat (size channels) + 1 =? 1) with false by lia. cbn [from_bool]. lia.
Qed.

Lemma registry_unsubscribe entries members total active id channels channel :
  channels_ok entries members total active → entries !! id = Some channels →
  from_bool (bool_decide (channel ∈ channels)) <= total ∧
  from_bool (bool_decide (channel ∈ channels) && bool_decide (channels ∖ {[channel]} = ∅)) <= active ∧
  channels_ok (<[id := channels ∖ {[channel]}]> entries) (leave members id channel)
    (total - from_bool (bool_decide (channel ∈ channels)))
    (active - from_bool (bool_decide (channel ∈ channels) && bool_decide (channels ∖ {[channel]} = ∅))).
Proof.
  intros [Hm Hn -> ->] Hid.
  pose proof (map_zsum_ge card entries id channels card_nonneg Hid) as Ht.
  pose proof (map_zsum_ge is_active entries id channels (λ s, proj1 (is_active_bounds s)) Hid) as Ha.
  pose proof (card_diff channels channel) as Hd. pose proof (card_nonneg (channels ∖ {[channel]})).
  assert (is_active (channels ∖ {[channel]}) =
    is_active channels - from_bool (bool_decide (channel ∈ channels) && bool_decide (channels ∖ {[channel]} = ∅))) as Hact.
  { unfold is_active. destruct (bool_decide_reflect (channel ∈ channels)) as [E|E]; cbn [andb].
    - rewrite (bool_decide_eq_false_2 (channels = ∅)) by set_solver. case_bool_decide; cbn; lia.
    - replace (channels ∖ {[channel]}) with channels by set_solver. cbn. lia. }
  pose proof (is_active_bounds (channels ∖ {[channel]})).
  split_and!; [lia..|]. split.
  - intros c id'. rewrite mem_leave. specialize (Hm c id'). unfold chans_of in *. destruct (decide (id = id')) as [->|Hne].
    + rewrite lookup_insert_eq. rewrite Hid in Hm. cbn in *. destruct (decide (channel = c)) as [->|Hc]; set_solver.
    + rewrite lookup_insert_ne by done. destruct (decide (channel = c)) as [->|Hc]; set_solver.
  - by apply leave_nonempty.
  - rewrite (map_zsum_set card _ _ _ _ Hid). lia.
  - rewrite (map_zsum_set is_active _ _ _ _ Hid). lia.
Qed.

(** ** Mailboxes: what the registry promises *)

(** A connection of the specification: its channels while it has an entry, its pending messages
    in order, and what it was told. *)
Record Mailbox := {
  b_channels : option (gset bytes);
  b_queue : list Message;
  b_capacity : Z;
  b_evicted : bool;
  b_woken : bool
}.

(** A publication reaches a mailbox that subscribes to the channel: the message is appended, or
    the mailbox, being full, loses its entry and is told so. *)
Definition listens (m : Message) (b : Mailbox) : bool :=
  match b_channels b with Some channels => bool_decide (m_channel m ∈ channels) | None => false end.
Definition box_accepts (m : Message) (b : Mailbox) : bool := listens m b && (zlen (b_queue b) <? b_capacity b).
Definition closed (b : Mailbox) : Mailbox :=
  match b_channels b with
  | Some _ => {| b_channels := None; b_queue := b_queue b; b_capacity := b_capacity b; b_evicted := true; b_woken := true |}
  | None => b
  end.
Definition appended (m : Message) (b : Mailbox) : Mailbox :=
  {| b_channels := b_channels b; b_queue := b_queue b ++ [m]; b_capacity := b_capacity b; b_evicted := b_evicted b; b_woken := true |}.
Definition deliver (m : Message) (b : Mailbox) : Mailbox :=
  if listens m b then if zlen (b_queue b) <? b_capacity b then appended m b else closed b else b.
Definition with_queue (l : list Message) (b : Mailbox) : Mailbox :=
  {| b_channels := b_channels b; b_queue := l; b_capacity := b_capacity b; b_evicted := b_evicted b; b_woken := b_woken b |}.
Definition with_channels (channels : gset bytes) (b : Mailbox) : Mailbox :=
  {| b_channels := Some channels; b_queue := b_queue b; b_capacity := b_capacity b; b_evicted := b_evicted b; b_woken := b_woken b |}.

Section Refinement.
Context `{MpscLaws}.

Definition mailbox (channels : option (gset bytes)) (p : Pipe) : Mailbox := {|
  b_channels := channels; b_queue := queued (p_queue p); b_capacity := max_capacity (p_queue p);
  b_evicted := p_evicted p; b_woken := p_woken p
|}.
Definition boxes (h : Hub) : gmap Z Mailbox := map_imap (λ id p, Some (mailbox (subscribers h !! id) p)) (pipes h).

Record hub_core (h : Hub) : Prop := {
  ho_registry : channels_ok (subscribers h) (hub_channels h) (subscriptions h) (active_subscribers h);
  ho_total : subscriptions h <= USIZE_MAX;
  ho_entries : ∀ id, is_Some (subscribers h !! id) → is_Some (pipes h !! id);
  ho_pipes : ∀ id p, pipes h !! id = Some p →
    id < next_id h ∧ 0 < max_capacity (p_queue p) ∧ (is_Some (subscribers h !! id) ↔ p_evicted p = false);
  ho_next : 0 <= next_id h
}.
Definition gauges_exact (h : Hub) : Prop :=
  g_channels (metrics h) = zlen (map_to_list (hub_channels h)) ∧
  g_subscribers (metrics h) = active_subscribers h ∧ g_subscriptions (metrics h) = subscriptions h.
Definition hub_ok (h : Hub) : Prop := hub_core h ∧ gauges_exact h.

Lemma lookup_boxes h id : boxes h !! id = mailbox (subscribers h !! id) <$> pipes h !! id.
Proof. unfold boxes. rewrite map_lookup_imap. by destruct (pipes h !! id). Qed.

(** Changes of a pipe that keep the entry. *)
Lemma hub_core_pipe h id f g :
  hub_core h →
  (∀ p, pipes h !! id = Some p → mailbox (subscribers h !! id) (f p) = g (mailbox (subscribers h !! id) p) ∧
        p_evicted (f p) = p_evicted p ∧ max_capacity (p_queue (f p)) = max_capacity (p_queue p)) →
  hub_core (with_pipe h id f) ∧ boxes (with_pipe h id f) = alter g id (boxes h).
Proof.
  intros Hh Hf. split.
  - destruct Hh as [? ? He Hp ?]. constructor; cbn; try done.
    + intros id' Hid. rewrite lookup_alter. destruct (He id' Hid) as [p Hid']. destruct (decide (id = id')) as [->|]; rewrite Hid'; by eexists.
    + intros id' p. rewrite lookup_alter. destruct (decide (id = id')) as [->|Hne]; [|apply Hp].
      intros (q & Hq & ->)%fmap_Some. destruct (Hf q Hq) as (_ & -> & ->). by apply Hp.
  - apply map_eq. intros id'. rewrite lookup_alter, !lookup_boxes. cbn. rewrite lookup_alter.
    destruct (decide (id = id')) as [->|Hne]; [|done]. destruct (pipes h !! id') as [p|] eqn:E; [|done]. cbn.
    f_equal. by apply Hf.
Qed.

Lemma hub_ok_metrics h m :
  hub_ok h → g_channels m = g_channels (metrics h) → g_subscribers m = g_subscribers (metrics h) →
  g_subscriptions m = g_subscriptions (metrics h) → hub_ok (with_metrics h m).
Proof. intros [[] (? & ? & ?)] E1 E2 E3. split; [by constructor|]. unfold gauges_exact. cbn. by rewrite E1, E2, E3. Qed.

Lemma hub_remove_ok h id :
  hub_ok h →
  ∃ h', hub_remove h id = Some h' ∧ hub_ok h' ∧ boxes h' = alter closed id (boxes h) ∧ next_id h' = next_id h ∧
        subscriptions h' <= subscriptions h.
Proof.
  intros Hh. unfold hub_remove. destruct (subscribers h !! id) as [channels|] eqn:Eid.
  - destruct Hh as [[Hr Ht He Hp Hn] _]. pose proof (registry_bounds _ _ _ _ Hr) as Hb.
    destruct (registry_remove _ _ _ _ _ _ Hr Eid) as (Hl & Ha & Hr'). pose proof (card_nonneg channels).
    pose proof (is_active_bounds channels). fold (is_active channels). unfold u_sub.
    rewrite !usize_checked_ok by lia. cbn [mbind option_bind]. eexists. split; [done|]. split_and!; [| |done|cbn; lia].
    + split; [|done]. constructor; cbn; try done; [lia|..].
      * intros id'. rewrite lookup_alter. destruct (decide (id = id')) as [->|Hne].
        -- by rewrite lookup_delete_eq; intros [? ?].
        -- rewrite lookup_delete_ne by done. apply He.
      * intros id' p. rewrite lookup_alter. destruct (decide (id = id')) as [->|Hne].
        -- intros (q & Hq & ->)%fmap_Some. destruct (Hp id' q Hq) as (? & ? & _). cbn. split_and!; [done..|].
           rewrite lookup_delete_eq. by split; [intros [? ?]|].
        -- rewrite lookup_delete_ne by done. apply Hp.
    + apply map_eq. intros id'. rewrite lookup_alter, !lookup_boxes. cbn. rewrite lookup_alter.
      destruct (decide (id = id')) as [->|Hne]; [|by rewrite lookup_delete_ne].
      rewrite lookup_delete_eq, Eid. by destruct (pipes h !! id').
  - exists h. split_and!; try done. apply map_eq. intros id'. rewrite lookup_alter. destruct (decide (id = id')) as [->|]; [|done].
    rewrite lookup_boxes, Eid. by destruct (pipes h !! id').
Qed.

(** ** Publication *)

Lemma publish_one_ok h m id b :
  hub_ok h → boxes h !! id = Some b → listens m b = true →
  ∃ h', publish_one h m id = Some (h', box_accepts m b) ∧ hub_ok h' ∧ boxes h' = <[id := deliver m b]> (boxes h) ∧
        next_id h' = next_id h ∧ subscriptions h' <= subscriptions h.
Proof.
  intros Hh Hb Hl. unfold box_accepts, deliver, publish_one. rewrite Hl. cbn [andb].
  pose proof Hb as Hp. rewrite lookup_boxes in Hp. apply fmap_Some in Hp as (p & Hp & ->).
  assert (is_Some (subscribers h !! id)) as [channels Hc].
  { unfold listens in Hl. cbn in Hl. by destruct (subscribers h !! id). }
  rewrite Hc, Hp. cbn [mbind option_bind b_queue b_capacity mailbox].
  destruct (Z.ltb_spec (zlen (queued (p_queue p))) (max_capacity (p_queue p))) as [Hr|Hr].
  - destruct (try_send_room (p_queue p) m Hr) as (q & -> & Eq & Ec). eexists. split; [done|].
    destruct (hub_core_pipe h id (λ p, wake (requeue q p)) (λ _, appended m (mailbox (Some channels) p))) as [Hh' Hbx]; [apply Hh|..].
    { intros p' [= <-]%(eq_trans (eq_sym Hp)). rewrite Hc. split_and!; [|done..]. unfold mailbox, appended. cbn. by rewrite Eq, Ec. }
    split_and!; [split; [done|apply Hh]| |done|cbn; lia]. rewrite Hbx. apply map_eq. intros id'. rewrite lookup_alter, lookup_insert.
    destruct (decide (id = id')) as [->|]; [|done]. by rewrite Hb.
  - rewrite try_send_full by done.
    destruct (hub_remove_ok (with_metrics h (count_evictions (metrics h) 1)) id) as (h' & -> & Hh' & Hbx & Hn & Ht).
    { by apply hub_ok_metrics. }
    exists h'. split_and!; try done. rewrite Hbx. apply map_eq. intros id'. change (boxes (with_metrics h _)) with (boxes h).
    rewrite lookup_alter, lookup_insert. destruct (decide (id = id')) as [->|]; [|done]. rewrite Hb, Hc. done.
Qed.

Lemma publish_loop_ok ids h m acc :
  hub_ok h → NoDup ids → (∀ id, id ∈ ids → ∃ b, boxes h !! id = Some b ∧ listens m b = true) →
  ∃ h', publish_loop h m ids acc =
          Some (h', acc + zsum_with (λ id, from_bool (match boxes h !! id with Some b => box_accepts m b | None => false end)) ids) ∧
        hub_ok h' ∧ next_id h' = next_id h ∧ subscriptions h' <= subscriptions h ∧
        ∀ id, boxes h' !! id = if decide (id ∈ ids) then deliver m <$> boxes h !! id else boxes h !! id.
Proof.
  revert h acc. induction ids as [|id ids IH]; intros h acc Hh Hd Hl; cbn [publish_loop].
  - exists h. cbn. rewrite Z.add_0_r. split_and!; [done..|lia|]. intros id. by rewrite decide_False by set_solver.
  - apply NoDup_cons in Hd as [Hn Hd]. destruct (Hl id) as (b & Hb & Hlb); [left|].
    destruct (publish_one_ok h m id b Hh Hb Hlb) as (h1 & -> & Hh1 & Hb1 & Hn1 & Ht1). cbn [mbind option_bind].
    assert (∀ id', id' ∈ ids → boxes h1 !! id' = boxes h !! id') as Hsame.
    { intros id' Hin. rewrite Hb1, lookup_insert_ne; [done|]. set_solver. }
    destruct (IH h1 (acc + from_bool (box_accepts m b)) Hh1 Hd) as (h2 & -> & Hh2 & Hn2 & Ht2 & Hb2).
    { intros id' Hin. rewrite Hsame by done. apply Hl. by right. }
    exists h2. split_and!; [|done|congruence|lia|].
    + do 2 f_equal. cbn. rewrite Hb. rewrite (zsum_with_ext _ (λ id, from_bool match boxes h !! id with Some b => box_accepts m b | None => false end)).
      { unfold zsum_with. lia. }
      intros id' Hin. by rewrite Hsame.
    + intros id'. rewrite Hb2, Hb1. destruct (decide (id = id')) as [->|Hne].
      * rewrite decide_False, lookup_insert_eq, decide_True, Hb by (done || left). done.
      * rewrite lookup_insert_ne by done. repeat case_decide; try done; set_solver.
Qed.

Lemma map_zsum_zero {V} (f : V → Z) (m : gmap Z V) : (∀ k v, m !! k = Some v → f v = 0) → map_zsum (λ _, f) m = 0.
Proof.
  induction m as [|k v m Hk IH] using map_ind; intros Hz; [done|]. rewrite map_zsum_insert by done.
  rewrite (Hz k v) by apply lookup_insert_eq. rewrite IH; [done|]. intros k' v' Hk'. apply (Hz k').
  rewrite lookup_insert_ne; [done|]. congruence.
Qed.
Lemma map_zsum_support {V} (f : V → Z) (m : gmap Z V) l :
  NoDup l → (∀ k v, m !! k = Some v → k ∉ l → f v = 0) →
  map_zsum (λ _, f) m = zsum_with (λ k, match m !! k with Some v => f v | None => 0 end) l.
Proof.
  revert m. induction l as [|k l IH]; intros m Hd Hz; [apply map_zsum_zero; intros; by eapply Hz, not_elem_of_nil|].
  apply NoDup_cons in Hd as [Hn Hd].
  cbn [zsum_with foldr]. fold (zsum_with (λ k, match m !! k with Some v => f v | None => 0 end) l). rewrite (zsum_with_ext _ (λ k', match delete k m !! k' with Some v => f v | None => 0 end) l).
  - rewrite <- IH; [|done|].
    + destruct (m !! k) as [v|] eqn:E; [rewrite (map_zsum_delete (λ _, f) m k v E); cbv beta; lia|]. by rewrite delete_id.
    + intros k' v [Hne Hk']%lookup_delete_Some Hin. apply (Hz k' v Hk'). set_solver.
  - intros k' Hin. rewrite lookup_delete_ne; [done|]. set_solver.
Qed.

Lemma listens_member h m id b :
  hub_ok h → boxes h !! id = Some b → listens m b = true ↔ id ∈ mem (hub_channels h) (m_channel m).
Proof.
  intros Hh Hb. rewrite (ro_members _ _ _ _ (ho_registry h (proj1 Hh))). rewrite lookup_boxes in Hb.
  apply fmap_Some in Hb as (p & _ & ->). unfold listens, chans_of. cbn. destruct (subscribers h !! id); cbn; [apply bool_decide_eq_true|set_solver].
Qed.

Lemma member_box h m id : hub_ok h → id ∈ mem (hub_channels h) (m_channel m) → ∃ b, boxes h !! id = Some b ∧ listens m b = true.
Proof.
  intros Hh Hid. assert (is_Some (boxes h !! id)) as [b Hb].
  { rewrite lookup_boxes. apply (ro_members _ _ _ _ (ho_registry h (proj1 Hh))) in Hid. unfold chans_of in Hid.
    destruct (subscribers h !! id) as [channels|] eqn:E; [|set_solver]. destruct (ho_entries h (proj1 Hh) id) as [p ->]; by eexists. }
  exists b. split; [done|]. by apply (listens_member h m id b).
Qed.

Lemma hub_publish_ok h m :
  hub_ok h →
  ∃ h', publish h m = Some (h', map_zsum (λ _ b, from_bool (box_accepts m b)) (boxes h)) ∧
        hub_ok h' ∧ boxes h' = deliver m <$> boxes h ∧ next_id h' = next_id h ∧ subscriptions h' <= subscriptions h.
Proof.
  intros Hh. unfold publish. fold (mem (hub_channels h) (m_channel m)). set (ids := btree_set_iter _).
  destruct (publish_loop_ok ids h m 0) as (h' & -> & Hh' & Hn & Ht & Hb); [done|apply btree_set_iter_NoDup|..].
  { intros id Hid%btree_set_iter_elem. by apply member_box. }
  cbn [mbind option_bind]. eexists. split; [|split_and!].
  - do 2 f_equal. cbn. rewrite (map_zsum_support (λ b, from_bool (box_accepts m b)) (boxes h) ids).
    + apply zsum_with_ext. intros id _. by destruct (boxes h !! id).
    + apply btree_set_iter_NoDup.
    + intros id b Hid Hin. unfold box_accepts. destruct (listens m b) eqn:El; [|done].
      apply (listens_member h m id b Hh Hid) in El. destruct Hin. by apply btree_set_iter_elem.
  - by apply hub_ok_metrics.
  - apply map_eq. intros id. change (boxes (with_metrics h' _)) with (boxes h'). rewrite Hb, lookup_fmap.
    case_decide as Hin; [done|]. destruct (boxes h !! id) as [b|] eqn:Eb; [|done]. cbn. unfold deliver.
    destruct (listens m b) eqn:El; [|done]. apply (listens_member h m id b Hh Eb) in El. destruct Hin. by apply btree_set_iter_elem.
  - done.
  - done.
Qed.

(** ** Receiving *)

Lemma receive_loop_ok fuel q :
  zlen (queued q) <= Z.of_nat fuel →
  ∃ q', receive_loop fuel q = (queued q, q') ∧ queued q' = [] ∧ max_capacity q' = max_capacity q.
Proof.
  revert q. induction fuel as [|fuel IH]; intros q Hf; cbn [receive_loop].
  - destruct (queued q) as [|m l] eqn:E; [by exists q|]. rewrite zlen_cons in Hf. pose proof (zlen_nonneg l). lia.
  - destruct (queued q) as [|m l] eqn:E; [rewrite try_recv_empty by done; by exists q|].
    destruct (try_recv_cons q m l E) as (q1 & -> & <- & <-). destruct (IH q1) as (q2 & -> & E2 & E3).
    { rewrite zlen_cons in Hf. lia. } by exists q2.
Qed.

Definition pending (h : Hub) (id : Z) : list Message := default [] (b_queue <$> boxes h !! id).

(** Steps that touch the pipes only. *)
Definition same_registry (h h' : Hub) : Prop :=
  subscribers h' = subscribers h ∧ hub_channels h' = hub_channels h ∧ subscriptions h' = subscriptions h ∧
  active_subscribers h' = active_subscribers h ∧ next_id h' = next_id h ∧ metrics h' = metrics h.

Lemma receive_all_ok h id :
  hub_core h →
  ∃ h', receive_all h id = (h', pending h id) ∧ hub_core h' ∧ boxes h' = alter (with_queue []) id (boxes h) ∧ same_registry h h'.
Proof.
  intros Hh. unfold receive_all, pending. rewrite lookup_boxes. destruct (pipes h !! id) as [p|] eqn:Ep.
  - destruct (ho_pipes h Hh id p Ep) as (_ & Hc & _).
    destruct (receive_loop_ok (Z.to_nat (max_capacity (p_queue p))) (p_queue p)) as (q & -> & Eq & Ec).
    { pose proof (queued_bounded (p_queue p) Hc). lia. }
    destruct (hub_core_pipe h id (requeue q) (with_queue [])) as [Hh' Hb]; [done|..].
    { intros p' [= <-]%(eq_trans (eq_sym Ep)). split_and!; try done. unfold mailbox, with_queue. cbn. by rewrite Eq, Ec. }
    eexists. by split_and!.
  - exists h. split_and!; try done. symmetry. apply alter_id. intros b. by rewrite lookup_boxes, Ep.
Qed.

Lemma drain_ok h id :
  hub_core h →
  ∃ h', drain h id = (h', Message_into_frame <$> pending h id) ∧ hub_core h' ∧ boxes h' = alter (with_queue []) id (boxes h) ∧
        same_registry h h'.
Proof. intros Hh. unfold drain. destruct (receive_all_ok h id Hh) as (h' & -> & ?). by exists h'. Qed.

Lemma try_message_ok h s :
  hub_core h →
  ∃ h', try_message h s = (h', head (pending h (s_id s))) ∧ hub_core h' ∧
        boxes h' = alter (λ b, with_queue (tail (b_queue b)) b) (s_id s) (boxes h) ∧ same_registry h h'.
Proof.
  intros Hh. unfold try_message, pending. rewrite lookup_boxes. destruct (pipes h !! s_id s) as [p|] eqn:Ep; cbn [mbind option_bind fmap option_fmap option_map].
  - destruct (queued (p_queue p)) as [|m l] eqn:Eq.
    + rewrite try_recv_empty by done. exists h. cbn. rewrite Eq. split_and!; try done. symmetry. apply alter_id.
      intros b. rewrite lookup_boxes, Ep. intros [= <-]. unfold with_queue, mailbox. cbn. by rewrite Eq.
    + destruct (try_recv_cons (p_queue p) m l Eq) as (q & -> & E2 & E3). cbn. rewrite Eq.
      destruct (hub_core_pipe h (s_id s) (requeue q) (λ b, with_queue (tail (b_queue b)) b)) as [Hh' Hb]; [done|..].
      { intros p' [= <-]%(eq_trans (eq_sym Ep)). split_and!; try done. unfold mailbox, with_queue. cbn. by rewrite Eq, E2, E3. }
      eexists. by split_and!.
  - exists h. split_and!; try done. symmetry. apply alter_id. intros b. by rewrite lookup_boxes, Ep.
Qed.

(** ** Subscribing *)

(** The acknowledgements: one per channel, with the number of channels that then remain. *)
Fixpoint subscribe_acks (channels : gset bytes) (l : list bytes) : list Frame :=
  match l with
  | [] => []
  | c :: l => confirmation (lit "subscribe") (Some c) (card ({[c]} ∪ channels)) :: subscribe_acks ({[c]} ∪ channels) l
  end.
Fixpoint unsubscribe_acks (channels : gset bytes) (l : list bytes) : list Frame :=
  match l with
  | [] => []
  | c :: l => confirmation (lit "unsubscribe") (Some c) (card (channels ∖ {[c]})) :: unsubscribe_acks (channels ∖ {[c]}) l
  end.

Lemma hub_core_registry h id channels channels' members total active :
  hub_core h → subscribers h !! id = Some channels →
  channels_ok (<[id := channels']> (subscribers h)) members total active → total <= USIZE_MAX →
  hub_core (with_registry h total active (<[id := channels']> (subscribers h)) members) ∧
  boxes (with_registry h total active (<[id := channels']> (subscribers h)) members) = alter (with_channels channels') id (boxes h).
Proof.
  intros [_ _ He Hp Hn] Hid Hr Ht. split.
  - constructor; cbn; try done.
    + intros id'. destruct (decide (id = id')) as [->|]; [|rewrite lookup_insert_ne by done; apply He].
      intros _. apply He. by eexists.
    + intros id' p Hp'. specialize (Hp id' p Hp'). destruct (decide (id = id')) as [->|]; [|by rewrite lookup_insert_ne].
      rewrite lookup_insert_eq. rewrite Hid in Hp. by destruct Hp as (? & ? & <-).
  - apply map_eq. intros id'. rewrite lookup_alter, !lookup_boxes. cbn.
    destruct (decide (id = id')) as [->|]; [rewrite lookup_insert_eq|by rewrite lookup_insert_ne]. by destruct (pipes h !! id').
Qed.

Lemma subscribe_one_ok h id channels c :
  hub_core h → subscribers h !! id = Some channels → subscriptions h + 1 <= USIZE_MAX →
  ∃ h', subscribe_one h id c = Some (Ok (h', confirmation (lit "subscribe") (Some c) (card ({[c]} ∪ channels)))) ∧ hub_core h' ∧
        boxes h' = alter (with_channels ({[c]} ∪ channels)) id (boxes h) ∧ next_id h' = next_id h ∧
        subscriptions h' <= subscriptions h + 1 ∧ subscribers h' !! id = Some ({[c]} ∪ channels).
Proof.
  intros Hh Hid Hb. pose proof (ho_registry h Hh) as Hr.
  pose proof (registry_bounds _ _ _ _ Hr) as Hbd. pose proof (registry_subscribe _ _ _ _ id channels c Hr Hid) as Hr'.
  pose proof (registry_bounds _ _ _ _ Hr') as Hbd'. unfold subscribe_one. rewrite Hid. cbv zeta. fold (mem (hub_channels h) c).
  assert (from_bool (negb (bool_decide (c ∈ channels))) <= 1) by (by destruct (negb _)). unfold u_add.
  rewrite !usize_checked_ok by lia. cbn [mbind option_bind].
  destruct (hub_core_registry h id channels _ _ _ _ Hh Hid Hr') as [Hh1 Hb1]; [lia|].
  eexists. split; [done|]. split_and!; try done; [cbn; lia|apply lookup_insert_eq].
Qed.
Lemma unsubscribe_one_ok h id channels c :
  hub_core h → subscribers h !! id = Some channels →
  ∃ h', unsubscribe_one h id c = Some (Ok (h', confirmation (lit "unsubscribe") (Some c) (card (channels ∖ {[c]})))) ∧ hub_core h' ∧
        boxes h' = alter (with_channels (channels ∖ {[c]})) id (boxes h) ∧ next_id h' = next_id h ∧
        subscriptions h' <= subscriptions h ∧ subscribers h' !! id = Some (channels ∖ {[c]}).
Proof.
  intros Hh Hid. pose proof (ho_registry h Hh) as Hr. pose proof (ho_total h Hh) as Ht.
  pose proof (registry_bounds _ _ _ _ Hr) as Hbd. destruct (registry_unsubscribe _ _ _ _ id channels c Hr Hid) as (H1 & H2 & Hr').
  pose proof (registry_bounds _ _ _ _ Hr') as Hbd'. unfold unsubscribe_one. rewrite Hid. cbv zeta.
  assert (∀ b, 0 <= from_bool b) as Hfb by (by intros []). pose proof (Hfb (bool_decide (c ∈ channels))).
  pose proof (Hfb (bool_decide (c ∈ channels) && bool_decide (channels ∖ {[c]} = ∅))).
  unfold u_sub. rewrite !usize_checked_ok by lia. cbn [mbind option_bind].
  destruct (hub_core_registry h id channels _ _ _ _ Hh Hid Hr') as [Hh1 Hb1]; [lia|].
  eexists. split; [done|]. split_and!; try done; [cbn; lia|apply lookup_insert_eq].
Qed.

Lemma with_channels_id h id channels : subscribers h !! id = Some channels → alter (with_channels channels) id (boxes h) = boxes h.
Proof. intros Hid. apply alter_id. intros b. rewrite lookup_boxes. intros (p & _ & ->)%fmap_Some. by rewrite Hid. Qed.

Lemma each_subscribe_ok l h id channels :
  hub_core h → subscribers h !! id = Some channels → subscriptions h + zlen l <= USIZE_MAX →
  ∃ h', each_channel (λ h, subscribe_one h id) h l = Some (h', Ok (subscribe_acks channels l)) ∧ hub_core h' ∧
        boxes h' = alter (with_channels (list_to_set l ∪ channels)) id (boxes h) ∧ next_id h' = next_id h ∧
        subscriptions h' <= subscriptions h + zlen l.
Proof.
  revert h channels. induction l as [|c l IH]; intros h channels Hh Hid Hb; cbn [each_channel subscribe_acks].
  - exists h. split_and!; try done; [|change (zlen (@nil bytes)) with 0; lia].
    cbn. rewrite union_empty_l_L. by rewrite with_channels_id.
  - rewrite zlen_cons in *. pose proof (zlen_nonneg l).
    destruct (subscribe_one_ok h id channels c Hh Hid) as (h1 & -> & Hh1 & Hb1 & Hn1 & Ht1 & Hs1); [lia|].
    cbn [mbind option_bind]. destruct (IH h1 _ Hh1 Hs1) as (h2 & -> & Hh2 & Hb2 & Hn2 & Ht2); [lia|].
    cbn [mbind option_bind result_bind]. exists h2. split_and!; [done..| |congruence|lia].
    rewrite Hb2, Hb1, alter_alter_eq. apply alter_ext. intros b _. unfold with_channels. cbn. do 2 f_equal. set_solver.
Qed.
Lemma each_unsubscribe_ok l h id channels :
  hub_core h → subscribers h !! id = Some channels →
  ∃ h', each_channel (λ h, unsubscribe_one h id) h l = Some (h', Ok (unsubscribe_acks channels l)) ∧ hub_core h' ∧
        boxes h' = alter (with_channels (channels ∖ list_to_set l)) id (boxes h) ∧ next_id h' = next_id h ∧
        subscriptions h' <= subscriptions h ∧ is_Some (subscribers h' !! id).
Proof.
  revert h channels. induction l as [|c l IH]; intros h channels Hh Hid; cbn [each_channel unsubscribe_acks].
  - exists h. split_and!; try done. cbn. rewrite difference_empty_L. by rewrite with_channels_id.
  - destruct (unsubscribe_one_ok h id channels c Hh Hid) as (h1 & -> & Hh1 & Hb1 & Hn1 & Ht1 & Hs1).
    cbn [mbind option_bind]. destruct (IH h1 _ Hh1 Hs1) as (h2 & -> & Hh2 & Hb2 & Hn2 & Ht2 & Hs2).
    cbn [mbind option_bind result_bind]. exists h2. split_and!; [done..| |congruence|lia|done].
    rewrite Hb2, Hb1, alter_alter_eq. apply alter_ext. intros b _. unfold with_channels. cbn. do 2 f_equal. set_solver.
Qed.

(** ** The operations of a connection, on its mailbox *)

Definition spec_subscribe (limit : Z) (l : list bytes) (drained : bool) (b : Mailbox) : Mailbox * result PubSubError (list Frame) :=
  match b_channels b with
  | None => (b, Err Closed)
  | Some channels =>
      if limit <? card (list_to_set l ∪ channels) then (b, Err ChannelLimit)
      else
        (with_channels (list_to_set l ∪ channels) (if drained then with_queue [] b else b),
         Ok ((if drained then Message_into_frame <$> b_queue b else []) ++ subscribe_acks channels l))
  end.
(** Without arguments, the channels are all those of the connection, in order. *)
Definition spec_unsubscribe (l : list bytes) (drained : bool) (b : Mailbox) : Mailbox * result PubSubError (list Frame) :=
  match b_channels b with
  | None => (b, Err Closed)
  | Some channels =>
      let l := if bool_decide (l = []) then btree_set_iter channels else l in
      (with_channels (channels ∖ list_to_set l) (if drained then with_queue [] b else b),
       Ok ((if drained then Message_into_frame <$> b_queue b else [])
           ++ (if bool_decide (l = []) then [confirmation (lit "unsubscribe") None 0] else []) ++ unsubscribe_acks channels l))
  end.
(** What remains after a reload: the channels and the messages that are still allowed. *)
Definition spec_revalidate (allowed : bytes → bool) (b : Mailbox) : Mailbox :=
  match b_channels b with
  | None => with_queue [] b
  | Some channels =>
      let l := List.filter (λ m, allowed (m_channel m)) (b_queue b) in
      {| b_channels := Some (filter (λ c, allowed c = true) channels); b_queue := l; b_capacity := b_capacity b;
         b_evicted := b_evicted b; b_woken := b_woken b || negb (bool_decide (l = [])) |}
  end.
Definition on_box {E A} (closed : E) (id : Z) (f : Mailbox → Mailbox * result E A) (bs : gmap Z Mailbox) : gmap Z Mailbox * result E A :=
  match bs !! id with Some b => (<[id := (f b).1]> bs, (f b).2) | None => (bs, Err closed) end.

Lemma insert_alter (bs : gmap Z Mailbox) id b f : bs !! id = Some b → alter f id bs = <[id := f b]> bs.
Proof. intros Hb. apply map_eq. intros id'. rewrite lookup_alter, lookup_insert. case_decide; [subst; by rewrite Hb|done]. Qed.

Lemma gauges_ok h : hub_core h → hub_ok (gauges h) ∧ boxes (gauges h) = boxes h.
Proof. intros []. split; [|done]. split; [by constructor|done]. Qed.

(** The state after the optional drain at the start of a subscription. *)
Lemma optional_drain_ok h id channels p (drained : bool) :
  hub_core h → subscribers h !! id = Some channels → pipes h !! id = Some p →
  ∃ h', (if drained then drain h id else (h, [])) =
          (h', if drained then Message_into_frame <$> b_queue (mailbox (Some channels) p) else []) ∧ hub_core h' ∧
        boxes h' = alter (λ b, if drained then with_queue [] b else b) id (boxes h) ∧ subscribers h' !! id = Some channels ∧
        subscriptions h' = subscriptions h ∧ next_id h' = next_id h.
Proof.
  intros Hh Hid Hp. destruct drained.
  - destruct (drain_ok h id Hh) as (h' & -> & Hh' & Hb & Hs & _ & Ht & _ & Hn & _). exists h'. unfold pending. rewrite lookup_boxes, Hp, Hid.
    split_and!; try done. by rewrite Hs.
  - exists h. split_and!; try done. symmetry. by apply alter_id.
Qed.

Lemma entry_box h id channels :
  hub_core h → subscribers h !! id = Some channels → ∃ p, pipes h !! id = Some p ∧ boxes h !! id = Some (mailbox (Some channels) p).
Proof.
  intros Hh Hid. destruct (ho_entries h Hh id) as [p Hp]; [by eexists|]. exists p. by rewrite lookup_boxes, Hp, Hid.
Qed.
Lemma no_entry_box {E A} (e : E) h id (f : Mailbox → Mailbox * result E A) :
  subscribers h !! id = None → (∀ b, b_channels b = None → f b = (b, Err e)) → on_box e id f (boxes h) = (boxes h, Err e).
Proof.
  intros Hid Hf. unfold on_box. destruct (boxes h !! id) as [b|] eqn:Eb; [|done].
  assert (b_channels b = None) as Hb. { rewrite lookup_boxes in Eb. apply fmap_Some in Eb as (p & _ & ->). by rewrite Hid. }
  rewrite (Hf b Hb). cbn. by rewrite insert_id.
Qed.

Lemma subscribe_locked_ok h s l drained :
  hub_ok h → subscriptions h + zlen l <= USIZE_MAX →
  ∃ h' r, subscribe_locked h s l drained = Some (h', r) ∧ hub_ok h' ∧
    on_box Closed (s_id s) (spec_subscribe (s_max_channels s) l drained) (boxes h) = (boxes h', r) ∧
    next_id h' = next_id h ∧ subscriptions h' <= subscriptions h + zlen l.
Proof.
  intros Hh Hb. pose proof (zlen_nonneg l). unfold subscribe_locked. destruct (subscribers h !! s_id s) as [channels|] eqn:Hid.
  - destruct (entry_box h (s_id s) channels (proj1 Hh) Hid) as (p & Hp & Hbox). unfold on_box, spec_subscribe. rewrite Hbox. cbn [b_channels mailbox].
    destruct (Z.ltb_spec (s_max_channels s) (card (list_to_set l ∪ channels))).
    + exists h, (Err ChannelLimit). split_and!; try done; [|lia]. cbn. by rewrite insert_id.
    + destruct (optional_drain_ok h (s_id s) channels p drained (proj1 Hh) Hid Hp) as (h1 & -> & Hh1 & Hb1 & Hs1 & Ht1 & Hn1).
      destruct (each_subscribe_ok l h1 (s_id s) channels Hh1 Hs1) as (h2 & -> & Hh2 & Hb2 & Hn2 & Ht2); [lia|].
      cbn [mbind option_bind]. destruct (gauges_ok h2 Hh2) as [Hg Eg]. do 2 eexists. split_and!; [done..| | |].
      * rewrite Eg, Hb2, Hb1, alter_alter_eq. by rewrite (insert_alter _ _ _ _ Hbox).
      * cbn. congruence.
      * cbn. lia.
  - exists h, (Err Closed). split_and!; try done; [|lia]. apply no_entry_box; [done|]. intros b Eb. unfold spec_subscribe. by rewrite Eb.
Qed.

Lemma unsubscribe_locked_ok h s l drained :
  hub_ok h →
  ∃ h' r, unsubscribe_locked h s l drained = Some (h', r) ∧ hub_ok h' ∧
    on_box Closed (s_id s) (spec_unsubscribe l drained) (boxes h) = (boxes h', r) ∧
    next_id h' = next_id h ∧ subscriptions h' <= subscriptions h ∧
    (is_Some (subscribers h !! s_id s) → is_Some (subscribers h' !! s_id s)).
Proof.
  intros Hh. unfold unsubscribe_locked. destruct (subscribers h !! s_id s) as [channels|] eqn:Hid.
  - destruct (entry_box h (s_id s) channels (proj1 Hh) Hid) as (p & Hp & Hbox). unfold on_box, spec_unsubscribe. rewrite Hbox. cbn [b_channels mailbox].
    set (l' := if bool_decide (l = []) then btree_set_iter channels else l).
    destruct (optional_drain_ok h (s_id s) channels p drained (proj1 Hh) Hid Hp) as (h1 & -> & Hh1 & Hb1 & Hs1 & Ht1 & Hn1).
    destruct (each_unsubscribe_ok l' h1 (s_id s) channels Hh1 Hs1) as (h2 & -> & Hh2 & Hb2 & Hn2 & Ht2 & Hs2).
    cbn [mbind option_bind]. destruct (gauges_ok h2 Hh2) as [Hg Eg]. do 2 eexists. split_and!; [done..| | | |done].
    * rewrite Eg, Hb2, Hb1, alter_alter_eq. rewrite (insert_alter _ _ _ _ Hbox). cbn. case_bool_decide; [by rewrite <- app_assoc|done].
    * cbn. congruence.
    * cbn. lia.
  - exists h, (Err Closed). split_and!; try done. apply no_entry_box; [done|]. intros b Eb. unfold spec_unsubscribe. by rewrite Eb.
Qed.

(** ** Reload, connection and disconnection *)

Lemma resend_ok l h id b :
  hub_core h → boxes h !! id = Some b → zlen (b_queue b ++ l) <= b_capacity b →
  hub_core (resend h id l) ∧ same_registry h (resend h id l) ∧
  boxes (resend h id l) = <[id := {| b_channels := b_channels b; b_queue := b_queue b ++ l; b_capacity := b_capacity b;
                                     b_evicted := b_evicted b; b_woken := b_woken b || negb (bool_decide (l = [])) |}]> (boxes h).
Proof.
  revert h b. induction l as [|m l IH]; intros h b Hh Hb Hc; cbn [resend].
  - split_and!; try done. rewrite app_nil_r, orb_false_r. rewrite insert_id; [done|]. rewrite Hb. by destruct b.
  - pose proof Hb as Hp. rewrite lookup_boxes in Hp. apply fmap_Some in Hp as (p & Hp & Eb).
    rewrite Hp. cbn [mbind option_bind]. rewrite zlen_app, zlen_cons in Hc. pose proof (zlen_nonneg l).
    destruct (try_send_room (p_queue p) m) as (q & -> & Eq & Ec); [subst b; cbn in Hc; lia|].
    destruct (hub_core_pipe h id (λ p, wake (requeue q p)) (appended m)) as [Hh1 Hb1]; [done|..].
    { intros p' [= <-]%(eq_trans (eq_sym Hp)). split_and!; [|done..]. unfold mailbox, appended. cbn. by rewrite Eq, Ec. }
    rewrite (insert_alter _ _ _ _ Hb) in Hb1.
    destruct (IH _ (appended m b) Hh1) as (Hh2 & Hr & Hb2); [by rewrite Hb1, lookup_insert_eq|cbn; rewrite !zlen_app, zlen_cons, zlen_nil; lia|].
    split_and!; [done|done|]. rewrite Hb2, Hb1, insert_insert_eq. unfold appended. cbn. rewrite <- app_assoc, orb_true_r. done.
Qed.

Lemma filter_revoked (allowed : bytes → bool) (channels : gset bytes) :
  channels ∖ list_to_set (List.filter (λ c, negb (allowed c)) (btree_set_iter channels)) = filter (λ c, allowed c = true) channels.
Proof.
  apply set_eq. intros c. rewrite elem_of_difference, elem_of_list_to_set, list_elem_of_In, filter_In, <- list_elem_of_In,
    btree_set_iter_elem, elem_of_filter. destruct (allowed c); cbn; naive_solver.
Qed.

Lemma filter_zlen {A} (f : A → bool) l : zlen (List.filter f l) <= zlen l.
Proof. induction l as [|x l IH]; cbn; [done|]. destruct (f x); rewrite ?zlen_cons; lia. Qed.

Lemma hub_ok_same h h' : hub_ok h → hub_core h' → same_registry h h' → hub_ok h'.
Proof. intros [_ (G1 & G2 & G3)] Hh' (_ & E2 & E3 & E4 & _ & E6). split; [done|]. unfold gauges_exact. by rewrite E6, E2, E3, E4. Qed.

(** The optional removal of the revoked channels. *)
Lemma revoke_ok h s channels revoked b :
  hub_ok h → boxes h !! s_id s = Some b → b_channels b = Some channels →
  ∃ h', (if bool_decide (revoked = []) then Some h else '(h, _) ← unsubscribe_locked h s revoked false; Some h) = Some h' ∧ hub_ok h' ∧
    boxes h' = <[s_id s := with_channels (channels ∖ list_to_set revoked) b]> (boxes h) ∧
    next_id h' = next_id h ∧ subscriptions h' <= subscriptions h ∧ is_Some (subscribers h' !! s_id s).
Proof.
  intros Hh Hb Hc. assert (is_Some (subscribers h !! s_id s)) as Hs.
  { rewrite lookup_boxes in Hb. apply fmap_Some in Hb as (p & _ & ->). by eexists. }
  destruct (bool_decide_reflect (revoked = [])) as [->|Hr].
  - exists h. split_and!; try done. rewrite insert_id; [done|]. rewrite Hb. destruct b; cbn in *. subst. unfold with_channels. cbn.
    do 3 f_equal. set_solver.
  - destruct (unsubscribe_locked_ok h s revoked false Hh) as (h' & r & -> & Hh' & Hbx & Hn & Ht & He). cbn [mbind option_bind].
    exists h'. split_and!; try done; [|by apply He]. unfold on_box, spec_unsubscribe in Hbx. rewrite Hb, Hc in Hbx. cbn in Hbx.
    rewrite (bool_decide_eq_false_2 (revoked = [])) in Hbx by done. by injection Hbx as <- _.
Qed.

Lemma revalidate_ok `{SecurityCodecs} h s policy username :
  hub_ok h →
  ∃ h', revalidate h s policy username = Some h' ∧ hub_ok h' ∧
    boxes h' = alter (spec_revalidate (may_subscribe policy username)) (s_id s) (boxes h) ∧
    next_id h' = next_id h ∧ subscriptions h' <= subscriptions h.
Proof.
  intros Hh. unfold revalidate. destruct (receive_all_ok h (s_id s) (proj1 Hh)) as (h1 & -> & Hh1 & Hb1 & Hs1).
  pose proof (hub_ok_same _ _ Hh Hh1 Hs1) as Hok1. destruct Hs1 as (E1 & _ & E3 & _ & E5 & _).
  destruct (subscribers h !! s_id s) as [channels|] eqn:Hid.
  - destruct (entry_box h (s_id s) channels (proj1 Hh) Hid) as (p & Hp & Hbox).
    change (default ∅ (Some channels)) with channels. unfold pending. rewrite Hbox.
    change (default [] (b_queue <$> Some (mailbox (Some channels) p))) with (queued (p_queue p)).
    set (revoked := List.filter (λ channel, negb (may_subscribe policy username channel)) (btree_set_iter channels)).
    set (retained := List.filter (λ m, may_subscribe policy username (m_channel m)) (queued (p_queue p))).
    rewrite (insert_alter _ _ _ _ Hbox) in Hb1.
    destruct (revoke_ok h1 s channels revoked (with_queue [] (mailbox (Some channels) p)) Hok1) as (h2 & -> & Hh2 & Hb2 & Hn2 & Ht2 & He2);
      [by rewrite Hb1, lookup_insert_eq|done|].
    cbn [mbind option_bind]. rewrite bool_decide_eq_true_2 by done.
    destruct (resend_ok retained h2 (s_id s) (with_channels (channels ∖ list_to_set revoked) (with_queue [] (mailbox (Some channels) p))) (proj1 Hh2))
      as (Hh3 & Hs3 & Hb3).
    { by rewrite Hb2, lookup_insert_eq. }
    { cbn. destruct (ho_pipes h (proj1 Hh) (s_id s) p Hp) as (_ & Hc & _). pose proof (queued_bounded (p_queue p) Hc).
      pose proof (filter_zlen (λ m, may_subscribe policy username (m_channel m)) (queued (p_queue p))). unfold retained. cbn. lia. }
    pose proof (hub_ok_same _ _ Hh2 Hh3 Hs3) as Hok3. destruct Hs3 as (_ & _ & T3 & _ & N3 & _).
    eexists. split; [done|]. split_and!; [done| |congruence|lia].
    rewrite Hb3, Hb2, Hb1, !insert_insert_eq, (insert_alter _ _ _ _ Hbox). unfold spec_revalidate. cbn. by rewrite <- filter_revoked.
  - change (default ∅ (@None (gset bytes))) with (∅ : gset bytes). change (btree_set_iter ∅) with (@nil bytes). cbn [List.filter]. rewrite bool_decide_eq_true_2 by done.
    cbn [mbind option_bind]. rewrite E1, Hid. rewrite bool_decide_eq_false_2 by (by intros [? ?]).
    exists h1. split_and!; try done; [|lia]. rewrite Hb1. apply alter_ext. intros b. rewrite lookup_boxes, Hid.
    by intros (p & _ & ->)%fmap_Some.
Qed.

Definition fresh_box (capacity : Z) : Mailbox :=
  {| b_channels := Some ∅; b_queue := []; b_capacity := capacity; b_evicted := false; b_woken := false |}.

Lemma connect_ok h limit capacity :
  hub_ok h → 0 < capacity →
  ∃ h', connect h limit capacity =
          (h', if next_id h + 1 <=? USIZE_MAX then Ok {| s_id := next_id h; s_max_channels := limit; s_resp3 := false |} else Err Closed) ∧
    hub_ok h' ∧ subscriptions h' = subscriptions h ∧
    (next_id h', boxes h') = if next_id h + 1 <=? USIZE_MAX then (next_id h + 1, <[next_id h := fresh_box capacity]> (boxes h)) else (next_id h, boxes h).
Proof.
  intros [[Hr Ht He Hp Hn] Hg] Hc. unfold connect, u_add. destruct (Z.leb_spec (next_id h + 1) USIZE_MAX).
  - rewrite usize_checked_ok by lia. eexists. split; [done|].
    assert (pipes h !! next_id h = None) as Hnp.
    { destruct (pipes h !! next_id h) as [p|] eqn:E; [|done]. apply Hp in E. lia. }
    assert (subscribers h !! next_id h = None) as Hns.
    { apply eq_None_not_Some. intros Hs%He. rewrite Hnp in Hs. by destruct Hs. }
    split_and!; [|done|].
    + split; [|done]. constructor; cbn; try done; [| | |lia].
      * destruct Hr as [Hm Hne -> ->]. split; [|done|..].
        -- intros channel id. rewrite Hm. unfold chans_of. destruct (decide (next_id h = id)) as [<-|];
             [rewrite lookup_insert_eq, Hns|rewrite lookup_insert_ne by done]; done.
        -- rewrite map_zsum_insert by done. done.
        -- rewrite map_zsum_insert by done. done.
      * intros id. destruct (decide (next_id h = id)) as [<-|]; [rewrite !lookup_insert_eq|rewrite !lookup_insert_ne by done; apply He]. by eexists.
      * intros id p. destruct (decide (next_id h = id)) as [<-|].
        -- rewrite !lookup_insert_eq. intros [= <-]. cbn. rewrite channel_capacity. split_and!; [lia|done|]. by split; [|by eexists].
        -- rewrite !lookup_insert_ne by done. intros Hq%Hp. split_and!; [lia|apply Hq..].
    + cbn. f_equal. apply map_eq. intros id. rewrite lookup_boxes. cbn. destruct (decide (next_id h = id)) as [<-|].
      * rewrite !lookup_insert_eq. cbn. unfold mailbox, fresh_box. cbn. by rewrite channel_empty, channel_capacity.
      * rewrite !lookup_insert_ne by done. by rewrite lookup_boxes.
  - assert (usize_checked (next_id h + 1) = None) as ->.
    { destruct (usize_checked (next_id h + 1)) eqn:E; [|done]. apply usize_checked_Some in E. lia. }
    exists h. by split_and!.
Qed.

Lemma disconnect_ok h s :
  hub_ok h →
  ∃ h', disconnect h s = Some h' ∧ hub_ok h' ∧ boxes h' = delete (s_id s) (boxes h) ∧ next_id h' = next_id h ∧ subscriptions h' <= subscriptions h.
Proof.
  intros Hh. unfold disconnect. destruct (hub_remove_ok h (s_id s) Hh) as (h1 & -> & Hh1 & Hb1 & Hn1 & Ht1). cbn [mbind option_bind].
  assert (subscribers h1 !! s_id s = None) as Hnone.
  { apply eq_None_not_Some. intros [channels Hs]. destruct (entry_box h1 (s_id s) channels (proj1 Hh1) Hs) as (p & _ & Hbox).
    rewrite Hb1, lookup_alter, decide_True in Hbox by done. apply fmap_Some in Hbox as (b & _ & E). unfold closed in E.
    destruct (b_channels b) eqn:Eb; [done|]. apply (f_equal b_channels) in E. cbn in E. congruence. }
  eexists. split; [done|]. destruct Hh1 as [[Hr Ht He Hp Hn] Hg]. split_and!; [|apply map_eq; intros id|done|done].
  - split; [|done]. constructor; cbn; try done.
    + intros id Hs. destruct (decide (s_id s = id)) as [<-|]; [rewrite Hnone in Hs; by destruct Hs|]. rewrite lookup_delete_ne by done. by apply He.
    + intros id p [_ Hq]%lookup_delete_Some. by apply Hp.
  - rewrite lookup_boxes. cbn. destruct (decide (s_id s = id)) as [<-|]; [by rewrite !lookup_delete_eq|].
    rewrite !lookup_delete_ne by done. rewrite <- lookup_boxes, Hb1, lookup_alter_ne; done.
Qed.

(** ** Runs of the registry *)

Section Runs.
Context `{SecurityCodecs}.

Inductive HubEvent :=
| EConnect (limit capacity : Z)
| EPublish (m : Message)
| ESubscribe (s : Subscription) (l : list bytes)
| EUnsubscribe (s : Subscription) (l : list bytes)
| EReceive (s : Subscription)
| ERevalidate (s : Subscription) (policy : ClientPolicy) (username : bytes)
| EDisconnect (s : Subscription).
Inductive HubAnswer :=
| AConnected (r : result PubSubError Subscription)
| ACount (accepted : Z)
| AFrames (r : result PubSubError (list Frame))
| AMessage (m : option Message)
| ADone.

(** One critical section of the registry. *)
Definition hub_step (h : Hub) (e : HubEvent) : option (Hub * HubAnswer) :=
  match e with
  | EConnect limit capacity => let '(h, r) := connect h limit capacity in Some (h, AConnected r)
  | EPublish m => '(h, n) ← publish h m; Some (h, ACount n)
  | ESubscribe s l => '(h, r) ← subscribe h s l; Some (h, AFrames r)
  | EUnsubscribe s l => '(h, r) ← unsubscribe h s l; Some (h, AFrames r)
  | EReceive s => let '(h, m) := try_message h s in Some (h, AMessage m)
  | ERevalidate s policy username => h ← revalidate h s policy username; Some (h, ADone)
  | EDisconnect s => h ← disconnect h s; Some (h, ADone)
  end.
Fixpoint hub_run (h : Hub) (l : list HubEvent) : option (Hub * list HubAnswer) :=
  match l with
  | [] => Some (h, [])
  | e :: l => '(h, a) ← hub_step h e; '(h, answers) ← hub_run h l; Some (h, a :: answers)
  end.

(** The same step on independent mailboxes, with the next identifier. *)
Definition spec_hub_step (st : Z * gmap Z Mailbox) (e : HubEvent) : (Z * gmap Z Mailbox) * HubAnswer :=
  let '(next, bs) := st in
  match e with
  | EConnect limit capacity =>
      if next + 1 <=? USIZE_MAX
      then ((next + 1, <[next := fresh_box capacity]> bs), AConnected (Ok {| s_id := next; s_max_channels := limit; s_resp3 := false |}))
      else ((next, bs), AConnected (Err Closed))
  | EPublish m => ((next, deliver m <$> bs), ACount (map_zsum (λ _ b, from_bool (box_accepts m b)) bs))
  | ESubscribe s l => let '(bs, r) := on_box Closed (s_id s) (spec_subscribe (s_max_channels s) l true) bs in ((next, bs), AFrames r)
  | EUnsubscribe s l => let '(bs, r) := on_box Closed (s_id s) (spec_unsubscribe l true) bs in ((next, bs), AFrames r)
  | EReceive s =>
      ((next, alter (λ b, with_queue (tail (b_queue b)) b) (s_id s) bs), AMessage (head (default [] (b_queue <$> bs !! s_id s))))
  | ERevalidate s policy username => ((next, alter (spec_revalidate (may_subscribe policy username)) (s_id s) bs), ADone)
  | EDisconnect s => ((next, delete (s_id s) bs), ADone)
  end.
Fixpoint spec_hub_run (st : Z * gmap Z Mailbox) (l : list HubEvent) : (Z * gmap Z Mailbox) * list HubAnswer :=
  match l with
  | [] => (st, [])
  | e :: l => let '(st, a) := spec_hub_step st e in let '(st, answers) := spec_hub_run st l in (st, a :: answers)
  end.

(** What an event needs: a queue with room for a message, and a count of subscriptions that fits
    a machine word. *)
Definition new_subscriptions (e : HubEvent) : Z := match e with ESubscribe _ l => zlen l | _ => 0 end.
Definition hub_event_ok (e : HubEvent) : Prop := match e with EConnect _ capacity => 0 < capacity | _ => True end.

Lemma hub_step_ok h e :
  hub_ok h → hub_event_ok e → subscriptions h + new_subscriptions e <= USIZE_MAX →
  ∃ h' a, hub_step h e = Some (h', a) ∧ hub_ok h' ∧ spec_hub_step (next_id h, boxes h) e = ((next_id h', boxes h'), a) ∧
    subscriptions h' <= subscriptions h + new_subscriptions e.
Proof.
  intros Hh He Hb. destruct e; cbn [hub_step spec_hub_step new_subscriptions hub_event_ok] in *.
  - destruct (connect_ok h limit capacity Hh He) as (h' & -> & Hh' & Ht & E). do 2 eexists. split_and!; [done..| |lia].
    destruct (_ <=? _); by injection E as -> ->.
  - destruct (hub_publish_ok h m Hh) as (h' & -> & Hh' & E1 & E2 & Ht). do 2 eexists. split_and!; [done..| |lia]. by rewrite E1, E2.
  - unfold subscribe. destruct (subscribe_locked_ok h s l true Hh Hb) as (h' & r & -> & Hh' & E1 & E2 & Ht).
    do 2 eexists. split_and!; [done..| |lia]. by rewrite E1, E2.
  - unfold unsubscribe. destruct (unsubscribe_locked_ok h s l true Hh) as (h' & r & -> & Hh' & E1 & E2 & Ht & _).
    do 2 eexists. split_and!; [done..| |lia]. by rewrite E1, E2.
  - destruct (try_message_ok h s (proj1 Hh)) as (h' & -> & Hh' & E & Hs). pose proof (hub_ok_same _ _ Hh Hh' Hs) as Hok.
    destruct Hs as (_ & _ & Ht & _ & Hn & _). do 2 eexists. split_and!; [done..| |lia]. by rewrite E, Hn.
  - destruct (revalidate_ok h s policy username Hh) as (h' & -> & Hh' & E1 & E2 & Ht).
    do 2 eexists. split_and!; [done..| |lia]. by rewrite E1, E2.
  - destruct (disconnect_ok h s Hh) as (h' & -> & Hh' & E1 & E2 & Ht). do 2 eexists. split_and!; [done..| |lia]. by rewrite E1, E2.
Qed.

Lemma hub_run_ok l h :
  hub_ok h → Forall hub_event_ok l → subscriptions h + zsum_with new_subscriptions l <= USIZE_MAX →
  ∃ h' answers, hub_run h l = Some (h', answers) ∧ hub_ok h' ∧
    spec_hub_run (next_id h, boxes h) l = ((next_id h', boxes h'), answers).
Proof.
  revert h. induction l as [|e l IH]; intros h Hh Hl Hb; cbn [hub_run spec_hub_run]; [by do 2 eexists|].
  apply Forall_cons in Hl as [He Hl]. cbn in Hb.
  assert (0 <= zsum_with new_subscriptions l) as Hz.
  { apply zsum_with_nonneg. intros []; cbn; try lia. apply zlen_nonneg. }
  unfold zsum_with in *. destruct (hub_step_ok h e Hh He) as (h1 & a & -> & Hh1 & -> & Ht); [lia|].
  destruct (IH h1 Hh1 Hl) as (h2 & answers & E & Hh2 & E2); [lia|]. cbn [mbind option_bind]. rewrite E, E2.
  do 2 eexists. by split_and!.
Qed.

Lemma hub_default_ok : hub_ok hub_default ∧ boxes hub_default = ∅.
Proof.
  split; [|done]. split; [|done]. constructor; [split| | | |]; try done.
  intros id [x Hx]. cbn in Hx. by rewrite lookup_empty in Hx.
Qed.

(** C0. The registry never panics, keeps its invariant, and is indistinguishable from independent
    mailboxes: whatever the connections do, every operation returns, the members of the channels
    mirror the channels of the subscribers, the counters and gauges are exact, and replies and
    queues are those of the mailboxes, where a publication is appended to every open mailbox that
    listens to its channel and closes the full ones. *)
Theorem hub_refines l :
  Forall hub_event_ok l → zsum_with new_subscriptions l <= USIZE_MAX →
  ∃ h' answers, hub_run hub_default l = Some (h', answers) ∧ hub_ok h' ∧
    spec_hub_run (0, ∅) l = ((next_id h', boxes h'), answers).
Proof.
  intros Hl Hb. destruct hub_default_ok as [Hh Eb]. rewrite <- Eb. by apply hub_run_ok.
Qed.

(** ** Order of delivery *)

(** The messages that a step hands to a connection, and the ones it publishes to it. *)
Definition taken (id : Z) (bs : gmap Z Mailbox) (e : HubEvent) : list Message :=
  match bs !! id with
  | None => []
  | Some b =>
      match e with
      | EReceive s => if decide (s_id s = id) then take 1 (b_queue b) else []
      | ESubscribe s l =>
          if decide (s_id s = id) then
            match (spec_subscribe (s_max_channels s) l true b).2 with Ok _ => b_queue b | Err _ => [] end
          else []
      | EUnsubscribe s l => if decide (s_id s = id) then match b_channels b with Some _ => b_queue b | None => [] end else []
      | _ => []
      end
  end.
Definition published (id : Z) (bs : gmap Z Mailbox) (e : HubEvent) : list Message :=
  match e, bs !! id with EPublish m, Some b => if listens m b then [m] else [] | _, _ => [] end.
Fixpoint along (what : gmap Z Mailbox → HubEvent → list Message) (st : Z * gmap Z Mailbox) (l : list HubEvent) : list Message :=
  match l with [] => [] | e :: l => what st.2 e ++ along what (spec_hub_step st e).1 l end.
(** The connection stays, and no reload touches it. *)
Definition undisturbed (id : Z) (e : HubEvent) : Prop :=
  match e with ERevalidate s _ _ | EDisconnect s => s_id s ≠ id | _ => True end.

Lemma step_stream next bs id b e :
  bs !! id = Some b → id < next → undisturbed id e →
  ∃ b', (spec_hub_step (next, bs) e).1.2 !! id = Some b' ∧ next <= (spec_hub_step (next, bs) e).1.1 ∧
    (is_Some (b_channels b') → is_Some (b_channels b) ∧ taken id bs e ++ b_queue b' = b_queue b ++ published id bs e).
Proof.
  intros Hb Hid Hu. unfold taken, published. rewrite Hb. destruct e; cbn [spec_hub_step undisturbed] in *.
  - exists b. destruct (_ <=? _); cbn; rewrite ?lookup_insert_ne by lia; (split_and!; [done|lia|]); by rewrite app_nil_r.
  - exists (deliver m b). cbn [fst snd]. rewrite lookup_fmap, Hb. split_and!; [done..|]. unfold deliver, closed. destruct (listens m b) eqn:El.
    + destruct (_ <? _); [by cbn|]. unfold listens in El. by destruct (b_channels b); [intros [? ?]|].
    + by rewrite app_nil_r.
  - unfold on_box. destruct (decide (s_id s = id)) as [->|Hne].
    + rewrite Hb. cbn. rewrite lookup_insert_eq. eexists. split_and!; [done..|]. unfold spec_subscribe.
      destruct (b_channels b) eqn:Ec; [|by cbn; rewrite Ec; intros [? ?]]. destruct (_ <? _); cbn; rewrite ?app_nil_r; [by rewrite Ec|done].
    + exists b. rewrite app_nil_r. destruct (bs !! s_id s); cbn; rewrite ?lookup_insert_ne by done; done.
  - unfold on_box. destruct (decide (s_id s = id)) as [->|Hne].
    + rewrite Hb. cbn. rewrite lookup_insert_eq. eexists. split_and!; [done..|]. unfold spec_unsubscribe.
      destruct (b_channels b) eqn:Ec; cbn; rewrite ?app_nil_r; [done|]. rewrite Ec. by intros [? ?].
    + exists b. rewrite app_nil_r. destruct (bs !! s_id s); cbn; rewrite ?lookup_insert_ne by done; done.
  - cbn. rewrite lookup_alter. destruct (decide (s_id s = id)) as [->|Hne].
    + rewrite Hb. eexists. split_and!; [done..|]. cbn. intros Hs. split; [done|]. rewrite app_nil_r. by destruct (b_queue b).
    + exists b. by rewrite app_nil_r.
  - exists b. cbn. rewrite lookup_alter_ne, app_nil_r by done. done.
  - exists b. cbn. rewrite lookup_delete_ne, app_nil_r by done. done.
Qed.

Lemma run_stream l next bs id b :
  bs !! id = Some b → id < next → Forall (undisturbed id) l →
  ∃ b', (spec_hub_run (next, bs) l).1.2 !! id = Some b' ∧
    (is_Some (b_channels b') → is_Some (b_channels b) ∧
     along (taken id) (next, bs) l ++ b_queue b' = b_queue b ++ along (published id) (next, bs) l).
Proof.
  revert next bs b. induction l as [|e l IH]; intros next bs b Hb Hn Hl; cbn [spec_hub_run along].
  - exists b. cbn. by rewrite app_nil_r.
  - apply Forall_cons in Hl as [He Hl]. destruct (step_stream next bs id b e Hb Hn He) as (b1 & Hb1 & Hn1 & Hs1).
    destruct (spec_hub_step (next, bs) e) as [[next1 bs1] a]. cbn in Hb1, Hn1. destruct (IH next1 bs1 b1 Hb1) as (b2 & Hb2 & Hs2); [lia|done|].
    destruct (spec_hub_run (next1, bs1) l) as [st answers]. exists b2. split; [done|]. intros Ho.
    destruct (Hs2 Ho) as [Ho1 E2]. destruct (Hs1 Ho1) as [Ho0 E1]. split; [done|]. cbn [fst snd].
    rewrite <- app_assoc, E2, !app_assoc, E1. done.
Qed.

(** C0. A connection sees a faithful, ordered stream: as long as it is not evicted, dropped or
    cut by a reload, the messages handed to it followed by those still pending are exactly the
    ones that were pending before, followed by every message published to a channel while it was
    subscribed to it, in the order of publication, none lost and none repeated. *)
Theorem delivery_order h l id :
  hub_ok h → Forall hub_event_ok l → Forall (undisturbed id) l → subscriptions h + zsum_with new_subscriptions l <= USIZE_MAX →
  is_Some (pipes h !! id) →
  ∃ h' answers, hub_run h l = Some (h', answers) ∧ hub_ok h' ∧
    (is_Some (subscribers h' !! id) →
     along (taken id) (next_id h, boxes h) l ++ pending h' id = pending h id ++ along (published id) (next_id h, boxes h) l).
Proof.
  intros Hh Hl Hu Hb [p Hp]. destruct (hub_run_ok l h Hh Hl Hb) as (h' & answers & E & Hh' & Es).
  exists h', answers. split_and!; [done..|]. intros Ho.
  assert (boxes h !! id = Some (mailbox (subscribers h !! id) p)) as Hbox by (by rewrite lookup_boxes, Hp).
  destruct (run_stream l (next_id h) (boxes h) id _ Hbox) as (b' & Hb' & Hst); [by apply (ho_pipes h (proj1 Hh) id p)|done|].
  rewrite Es in Hb'. cbn in Hb'. unfold pending. rewrite Hbox, Hb'. apply Hst.
  rewrite lookup_boxes in Hb'. apply fmap_Some in Hb' as (p' & _ & ->). done.
Qed.
End Runs.

(** ** The reply of EXEC *)

Lemma encode_exec_ok n frames l :
  RespLimits_validate l = Ok tt → limits_usize l → n <= zlen frames →
  encodable l (Array (Some frames)) ∧ encode_exec n frames l = Some (Ok (lit "*" ++ udec n ++ CRLF ++ flat_map wire frames)) ∨
  ¬ encodable l (Array (Some frames)) ∧ ∃ e, encode_exec n frames l = Some (Err e).
Proof.
  intros Hv Hl Hn. unfold encode_exec. replace (zlen frames <? n) with false by lia.
  destruct (encoded_size (Array (Some frames)) l) as [size|e] eqn:En.
  - apply encoded_size_ok in En as [He ->]; [|done]. left. split; [done|].
    rewrite (encode_encodable (Array (Some frames)) [] l Hv Hl) by (done || (rewrite zlen_nil; destruct Hl; lia)).
    set (header := lit "*" ++ udec (zlen frames) ++ CRLF).
    assert ([] ++ wire (Array (Some frames)) = header ++ flat_map wire frames) as ->.
    { unfold header. cbn. by rewrite <- !app_assoc. }
    rewrite zlen_app. pose proof (zlen_nonneg (flat_map wire frames)).
    replace (zlen header + zlen (flat_map wire frames) <? zlen header) with false by lia.
    rewrite drop_app_length. by rewrite <- !app_assoc.
  - right. split.
    + intros He. assert (encoded_size (Array (Some frames)) l = Ok (zlen (wire (Array (Some frames))))) by (by apply encoded_size_ok).
      congruence.
    + exists e. unfold encode. by rewrite Hv, En.
Qed.

Section Exec.
Context (render : Hub → Z → bytes).

Definition command_channels (c : Command) : Z := match c with CSubscribe l => zlen l | _ => 0 end.
Definition names_channel (c : Command) : Prop := match c with CSubscribe l => l ≠ [] | _ => True end.
(** A command whose reply does not depend on the registry. *)
Definition plain_command (c : Command) : Prop :=
  match c with CInfo _ | CSubscribe _ | CUnsubscribe _ | CPublish _ _ | CPing _ => False | _ => True end.

Lemma subscribe_replies limit id l drained bs h' protocol r :
  l ≠ [] → on_box Closed id (spec_subscribe limit l drained) bs = (h', r) → acknowledge protocol r ≠ [].
Proof.
  intros Hl. unfold on_box, spec_subscribe. destruct (bs !! id) as [b|]; [|by intros [= _ <-]].
  destruct (b_channels b); [|by intros [= _ <-]]. destruct (_ <? _); cbn; intros [= _ <-]; [done|]. cbn.
  intros E%fmap_nil_inv. apply app_nil in E as [_ E]. by destruct l.
Qed.
Lemma unsubscribe_replies id l drained bs h' protocol r :
  on_box Closed id (spec_unsubscribe l drained) bs = (h', r) → acknowledge protocol r ≠ [].
Proof.
  unfold on_box, spec_unsubscribe. destruct (bs !! id) as [b|]; [|by intros [= _ <-]].
  destruct (b_channels b); [|by intros [= _ <-]]. cbn. intros [= _ <-]. cbn. intros E%fmap_nil_inv. apply app_nil in E as [_ E].
  destruct (if bool_decide (l = []) then _ else _); by cbn in E.
Qed.

Lemma exec_frames_ok h s limits c reply :
  hub_ok h → subscriptions h + command_channels c <= USIZE_MAX → names_channel c →
  ∃ h' frames, exec_frames render h s limits c reply = Some (h', frames) ∧ hub_ok h' ∧ frames ≠ [] ∧
    subscriptions h' <= subscriptions h + command_channels c ∧
    (plain_command c → s_resp3 s = false → h' = h ∧ frames = [Frame_from reply]).
Proof.
  intros Hh Hb Hn. unfold exec_frames. destruct c; cbn [command_channels names_channel plain_command] in *;
    try (do 2 eexists; split_and!; [done|done|done|lia|]; intros _ ->; done).
  - do 2 eexists. split_and!; [done..|lia|done].
  - destruct (_ && _); do 2 eexists; (split_and!; [done..|lia|done]).
  - destruct (subscribe_locked_ok h s channels false Hh Hb) as (h' & r & -> & Hh' & Eb & _ & Ht).
    do 2 eexists. split_and!; [done..| |lia|done]. by eapply subscribe_replies.
  - destruct (unsubscribe_locked_ok h s channels false Hh) as (h' & r & -> & Hh' & Eb & _ & Ht & _).
    do 2 eexists. split_and!; [done..| |lia|done]. by eapply unsubscribe_replies.
  - destruct (encode _ _ _).2; [|do 2 eexists; split_and!; [done..|lia|done]].
    destruct (hub_publish_ok h {| m_channel := channel; m_payload := message |} Hh) as (h' & -> & Hh' & _ & _ & Ht).
    do 2 eexists. split_and!; [done..|lia|done].
Qed.

Lemma exec_loop_ok commands replies h s limits :
  hub_ok h → subscriptions h + zsum_with command_channels commands <= USIZE_MAX → Forall names_channel commands →
  zlen replies = zlen commands →
  ∃ h' frames, exec_loop render h s limits (zip commands replies) = Some (h', frames) ∧ hub_ok h' ∧ zlen commands <= zlen frames ∧
    (Forall plain_command commands → s_resp3 s = false → h' = h ∧ frames = Frame_from <$> replies).
Proof.
  revert h replies. induction commands as [|c commands IH]; intros h replies Hh Hb Hn Hlen.
  - destruct replies as [|]; [|rewrite zlen_cons, zlen_nil in Hlen; pose proof (zlen_nonneg replies); lia]. exists h, []. by split_and!.
  - destruct replies as [|reply replies]; [rewrite zlen_cons, zlen_nil in Hlen; pose proof (zlen_nonneg commands); lia|].
    rewrite !zlen_cons in Hlen. apply Forall_cons in Hn as [Hc Hn]. cbn [zip zip_with exec_loop]. cbn in Hb.
    assert (0 <= zsum_with command_channels commands) as Hz.
    { apply zsum_with_nonneg. intros []; cbn; try lia. apply zlen_nonneg. }
    unfold zsum_with in *. destruct (exec_frames_ok h s limits c reply Hh) as (h1 & f1 & -> & Hh1 & Hf1 & Ht1 & Hp1); [lia|done|].
    cbn [mbind option_bind]. destruct (IH h1 replies Hh1) as (h2 & f2 & E & Hh2 & Hf2 & Hp2); [lia|done|lia|]. fold (zip commands replies).
    rewrite E. cbn [mbind option_bind]. do 2 eexists. split_and!; [done..| |].
    + rewrite zlen_cons, zlen_app. destruct f1 as [|f f1]; [done|]. rewrite zlen_cons. pose proof (zlen_nonneg f1). lia.
    + intros [Hpc Hps]%Forall_cons Hr. destruct (Hp1 Hpc Hr) as [-> ->]. by destruct (Hp2 Hps Hr) as [-> ->].
Qed.

(** C0. The reply of EXEC on the wire: completing a transaction never panics and keeps the
    registry consistent.  The reply is one array whose header counts the commands, whose body
    holds the frames of each command in order and then the pending messages of the connection,
    which were drained; it is refused exactly when the limits refuse the physical array.  A
    transaction without registry commands replies with the frames of its replies. *)
Theorem exec_reply h s commands limits replies :
  hub_ok h → RespLimits_validate limits = Ok tt → limits_usize limits →
  zlen replies = zlen commands → Forall names_channel commands →
  subscriptions h + zsum_with command_channels commands <= USIZE_MAX →
  ∃ h1 frames h' r,
    let all := frames ++ ((λ m, push (Message_into_frame m) (if s_resp3 s then 3 else 2)) <$> pending h1 (s_id s)) in
    complete_exec render h s commands limits (RArray replies) = Some (h', r) ∧ hub_ok h' ∧
    exec_loop render h s limits (zip commands replies) = Some (h1, frames) ∧ zlen commands <= zlen frames ∧
    boxes h' = alter (with_queue []) (s_id s) (boxes h1) ∧
    (encodable limits (Array (Some all)) ∧ r = Ok (lit "*" ++ udec (zlen commands) ++ CRLF ++ flat_map wire all) ∨
     ¬ encodable limits (Array (Some all)) ∧ ∃ e, r = Err e) ∧
    (Forall plain_command commands → s_resp3 s = false → h1 = h ∧ frames = Frame_from <$> replies).
Proof.
  intros Hh Hv Hl Hlen Hn Hb. unfold complete_exec.
  destruct (exec_loop_ok commands replies h s limits Hh Hb Hn Hlen) as (h1 & frames & E1 & Hh1 & Hf & Hp).
  destruct (drain_ok h1 (s_id s) (proj1 Hh1)) as (h2 & E2 & Hh2 & Hb2 & Hs2). pose proof (hub_ok_same _ _ Hh1 Hh2 Hs2) as Hok2.
  rewrite E1. cbn [mbind option_bind]. rewrite E2. rewrite <- list_fmap_compose. unfold compose.
  set (all := frames ++ _). set (m := foldl _ _ all).
  assert (hub_ok (with_metrics h2 m)) as Hok.
  { assert (∀ l m0, let m := foldl (λ m frame, count_errors m (errors frame)) m0 l in
      g_channels m = g_channels m0 ∧ g_subscribers m = g_subscribers m0 ∧ g_subscriptions m = g_subscriptions m0) as Hm.
    { induction l as [|f l IH]; intros m0; cbn; [done|]. apply (IH (count_errors m0 (errors f))). }
    destruct (Hm all (metrics h2)) as (? & ? & ?). by apply hub_ok_metrics. }
  assert (zlen commands <= zlen all) as Hc.
  { unfold all. rewrite zlen_app. match goal with |- _ <= _ + ?x => assert (0 <= x) by apply zlen_nonneg end. lia. }
  destruct (encode_exec_ok (zlen commands) all limits Hv Hl Hc) as [[He ->]|[He [e ->]]]; cbn [mbind option_bind];
    (do 4 eexists; split_and!; [done..| | |done]); [done|by left|done|right; eauto].
Qed.
End Exec.
End Refinement.

(** ** A sample run *)

(** Queues as lists: a queue holds the first messages of its list, up to its capacity. *)
Definition list_queue (q : Z * list Message) : list Message := take (Z.to_nat q.1) q.2.
#[export] Instance list_mpsc : Mpsc := {|
  chan := Z * list Message;
  mpsc_channel n := (n, []);
  try_send q m := if zlen (list_queue q) <? q.1 then Some (q.1, list_queue q ++ [m]) else None;
  try_recv q := match list_queue q with m :: l => Some (m, (q.1, l)) | [] => None end;
  max_capacity := fst
|}.
#[export] Program Instance list_mpsc_laws : MpscLaws := {| queued := list_queue |}.
Next Obligation. intros n. cbn. apply take_nil. Qed.
Next Obligation. done. Qed.
Next Obligation. intros [n l] Hn. unfold zlen, list_queue. cbn in *. rewrite length_take. lia. Qed.
Next Obligation. intros q m Hq. cbn in *. by rewrite (proj2 (Z.ltb_ge _ _) Hq). Qed.
Next Obligation.
  intros q m Hq. cbn in *. rewrite (proj2 (Z.ltb_lt _ _) Hq). eexists. split_and!; try done.
  unfold list_queue at 1. cbn. apply take_ge. rewrite length_app. unfold zlen in Hq. cbn. lia.
Qed.
Next Obligation. intros q Hq. cbn in *. by rewrite Hq. Qed.
Next Obligation.
  intros q m l Hq. cbn in *. rewrite Hq. eexists. split_and!; try done. unfold list_queue at 1. cbn. apply take_ge.
  unfold list_queue in Hq. apply (f_equal length) in Hq. rewrite length_take in Hq. cbn in Hq. lia.
Qed.

Definition sample_subscription : Subscription := {| s_id := 0; s_max_channels := 2; s_resp3 := false |}.
Definition news : Message := {| m_channel := lit "news"; m_payload := lit "hello" |}.
Definition sample_run : list HubEvent :=
  [EConnect 2 1; ESubscribe sample_subscription [lit "news"]; EPublish news; EReceive sample_subscription].

Lemma hub_refines_witness :
  ∃ h' answers, hub_run (H1 := sample_codecs) hub_default sample_run = Some (h', answers) ∧ hub_ok h' ∧
    spec_hub_run (H1 := sample_codecs) (0, ∅) sample_run = ((next_id h', boxes h'), answers).
Proof.
  apply (hub_refines (H1 := sample_codecs) sample_run).
  - repeat constructor.
  - vm_compute. discriminate.
Defined.

(** A connection that listens, with a queue of one message. *)
Definition sample_hub : Hub := match hub_run (H1 := sample_codecs) hub_default (take 2 sample_run) with Some (h, _) => h | None => hub_default end.
Lemma sample_hub_ok : hub_ok sample_hub.
Proof.
  destruct hub_default_ok as [Hh _].
  destruct (hub_run_ok (H0 := list_mpsc_laws) (H1 := sample_codecs) (take 2 sample_run) hub_default Hh) as (h' & answers & E & Hh' & _).
  - repeat constructor.
  - vm_compute. discriminate.
  - unfold sample_hub. by rewrite E.
Qed.

Lemma delivery_order_witness :
  ∃ h' answers, hub_run (H1 := sample_codecs) sample_hub (drop 2 sample_run) = Some (h', answers) ∧ hub_ok h' ∧
    (is_Some (subscribers h' !! 0) →
     along (H1 := sample_codecs) (taken 0) (next_id sample_hub, boxes sample_hub) (drop 2 sample_run) ++ pending h' 0 =
     pending sample_hub 0 ++ along (H1 := sample_codecs) (published 0) (next_id sample_hub, boxes sample_hub) (drop 2 sample_run)).
Proof.
  apply (delivery_order (H1 := sample_codecs) sample_hub (drop 2 sample_run) 0).
  - apply sample_hub_ok.
  - repeat constructor.
  - repeat constructor.
  - vm_compute. discriminate.
  - vm_compute. by eexists.
Defined.

Lemma exec_reply_witness :
  ∃ h' r, complete_exec (λ _ _, []) sample_hub sample_subscription [CPublish (lit "news") (lit "hello"); CGet (lit "k")]
            RespLimits_default (RArray [RNullArray; RBulk None]) = Some (h', r) ∧ hub_ok h'.
Proof.
  destruct (exec_reply (λ _ _, []) sample_hub sample_subscription [CPublish (lit "news") (lit "hello"); CGet (lit "k")]
              RespLimits_default [RNullArray; RBulk None]) as (h1 & frames & h' & r & E & Hh & _).
  - apply sample_hub_ok.
  - reflexivity.
  - vm_compute. intuition discriminate.
  - reflexivity.
  - repeat constructor.
  - vm_compute. discriminate.
  - exact (ex_intro _ h' (ex_intro _ r (conj E Hh))).
Defined.
