(* ===== verification/Expire.v ===== *)
(** * Background expiration

    The batch that the worker prepares every tick ([prepare_expiration] of
    src/storage/mutation.rs, defined in Mutation.v): due keys are deleted and due
    members are removed from their collections, within a budget. *)

From Stdlib Require Import Strings.Byte Strings.String ZArith Lia.
From S2P Require Import Prelude Float Score Memory Command Store StoreInv StoreSpec Mutation StoreExec Replay Routing MemoryLifecycle.

#[local] Open Scope Z_scope.

(** ** Removing members *)

Definition without (ids : list bytes) (c c' : Collection) : Prop :=
  collection_wf c' ∧ c_descriptor c' = c_descriptor c ∧ c_logical_bytes c' <= c_logical_bytes c ∧
  ∀ id, c_members c' !! id = if decide (id ∈ ids) then None else c_members c !! id.

Lemma fold_removes (ids : list bytes) (ms : gmap bytes Member) id :
  fold_left edit_members (Remove <$> ids) ms !! id = if decide (id ∈ ids) then None else ms !! id.
Proof.
  revert ms. induction ids as [|i ids IH]; intros ms; [done|]. cbn. rewrite IH. destruct (decide (id = i)) as [->|Hne].
  - rewrite (decide_True (P := i ∈ i :: ids)) by left. case_decide; [done|]. apply lookup_delete_eq.
  - rewrite lookup_delete_ne by done. destruct (decide (id ∈ ids)).
    + rewrite decide_True; [done|by right].
    + rewrite decide_False; [done|]. by intros [?|?]%elem_of_cons.
Qed.

(** Removing held members in the order of their ids always succeeds. *)
Lemma removals_apply c (ids : list bytes) key :
  collection_wf c → within_quota c key → zlen ids <= MAX_EDITS → StronglySorted cmp_lt ids →
  (∀ id, id ∈ ids → is_Some (c_members c !! id)) →
  ∃ c', apply_edits c (c_descriptor c) (Remove <$> ids) key = Some (Ok c') ∧ without ids c c' ∧ within_quota c' key.
Proof.
  intros Hc Hq Hn Hs Hin. set (edits := Remove <$> ids).
  assert (Edit_id <$> edits = ids) as Eid by (unfold edits; rewrite <- list_fmap_compose; apply list_fmap_id).
  assert (Forall (edit_valid (c_descriptor c)) edits) as Hv by (apply Forall_fmap, Forall_true; done).
  assert (∀ id, Remove id ∈ edits → is_Some (c_members c !! id)) as Hr
    by (intros id (i & [= ->] & ?)%list_elem_of_fmap; by apply Hin).
  assert (c_logical_bytes c + zsum_with edit_weight edits <= USIZE_MAX) as Hb.
  { assert (zsum_with edit_weight edits = 0) as ->; [|pose proof (cw_usize _ Hc); lia].
    unfold edits. rewrite zsum_with_fmap. unfold zsum_with. clear. induction ids as [|i ids IH]; [done|]. cbn in *. lia. }
  destruct (apply_edits_loop_complete c edits) as [c' E]; [done|done|by rewrite Eid|done..|].
  destruct (apply_edits_loop_ok c edits Hc Hv) as (r & E' & Hok); [by rewrite Eid|]. rewrite E in E'. injection E' as <-.
  destruct (Hok c' eq_refl) as (Hc' & Hd & Hm & _).
  assert (∀ id, c_members c' !! id = if decide (id ∈ ids) then None else c_members c !! id) as Hl by (intros id; rewrite Hm; apply fold_removes).
  assert (c_members c' ⊆ c_members c) as Hsub by (apply map_subseteq_spec; intros id m; rewrite Hl; by case_decide).
  assert (c_logical_bytes c' <= c_logical_bytes c) as Hle.
  { rewrite (cw_logical _ Hc'), (cw_logical _ Hc), Hd. apply Zplus_le_compat_l. apply map_zsum_mono; [|done]. intros; apply Member_bytes_nonneg. }
  assert (within_quota c' key) as Hq'.
  { destruct Hq as (Hk & Hq1 & Hq2 & Hq3). unfold within_quota, retained_count in *. rewrite Hd. pose proof (map_subseteq_size _ _ Hsub).
    assert (0 <= dimension (c_descriptor c)) by (pose proof (cw_descriptor _ Hc) as Hx; unfold Descriptor_validate in Hx; apply bind_ok in Hx as ([] & Hx%guard_ok_ok & _); lia).
    split_and!; [lia..|nia|lia]. }
  exists c'. split; [|done]. apply apply_edits_complete; try done; [unfold zlen, edits; by rewrite length_fmap| |by rewrite Eid].
  apply Forall_fmap, Forall_forall. intros id Hid. destruct (Hin id Hid) as [m Hm']. cbn. by destruct (member_id_bounds _ _ _ Hc Hm').
Qed.

(** ** The due events *)

Lemma take_while_sub {A} (f : A → bool) l x : x ∈ take_while f l → x ∈ l ∧ f x = true.
Proof.
  induction l as [|y l IH]; cbn; [by intros ?%not_elem_of_nil|]. destruct (f y) eqn:E; [|by intros ?%not_elem_of_nil].
  intros [->|Hx]%elem_of_cons; [split; [left|done]|]. destruct (IH Hx). split; [by right|done].
Qed.
Lemma take_while_NoDup {A} (f : A → bool) l : NoDup l → NoDup (take_while f l).
Proof.
  induction 1 as [|x l Hx Hl IH]; cbn; [constructor|]. destruct (f x); constructor; [|done]. by intros [? _]%take_while_sub.
Qed.

Lemma take_while_length {A} (f : A → bool) l : (length (take_while f l) <= length l)%nat.
Proof. induction l as [|x l IH]; cbn; [lia|]. destruct (f x); cbn; lia. Qed.

Definition member_due (s : Store) (key id : bytes) : option Z := values s !! key ≫= (λ e, member_deadlines e !! id).

(** The removals collected from the events seen so far. *)
Record removals_ok (s : Store) (expired : list bytes) (seen : list (Z * bytes * bytes)) (n : Z)
    (removals : gmap bytes (list Edit)) : Prop := {
  rm_sum : map_zsum (λ _ edits, zlen edits) removals = n;
  rm_edits : ∀ key edits, removals !! key = Some edits →
    (key ∉ expired) ∧ edits ≠ [] ∧ ∃ ids, edits = Remove <$> ids ∧ NoDup ids ∧
      ∀ id, id ∈ ids → ∃ d, (d, key, id) ∈ seen ∧ member_due s key id = Some d
}.

Lemma removals_more s expired seen n removals x :
  removals_ok s expired seen n removals → removals_ok s expired (seen ++ [x]) n removals.
Proof.
  intros [Hs He]. split; [done|]. intros key edits Hk. destruct (He key edits Hk) as (? & ? & ids & ? & ? & Hd).
  do 2 (split; [done|]). exists ids. do 2 (split; [done|]). intros id Hid. destruct (Hd id Hid) as (d & ? & ?).
  exists d. split; [|done]. apply elem_of_app. by left.
Qed.
Lemma removals_push s expired seen n removals d key id :
  removals_ok s expired seen n removals → (d, key, id) ∉ seen → key ∉ expired → member_due s key id = Some d →
  removals_ok s expired (seen ++ [(d, key, id)]) (n + 1) (<[key := default [] (removals !! key) ++ [Remove id]]> removals).
Proof.
  intros [Hs He] Hseen Hexp Hd. split.
  - change (<[key := ?v]> removals) with (partial_alter (λ _, Some v) key removals). rewrite map_zsum_alter, Hs.
    unfold at_key. destruct (removals !! key) as [edits|]; cbn [default Datatypes.id]; rewrite zlen_app; change (zlen [Remove id]) with 1; [lia|].
    change (zlen (@nil Edit)) with 0. lia.
  - intros k edits. destruct (decide (k = key)) as [->|Hne].
    2:{ rewrite lookup_insert_ne by done. apply (removals_more s expired seen n removals (d, key, id)). by split. }
    rewrite lookup_insert_eq. intros [= <-]. split; [done|]. split; [by destruct (default [] _)|].
    assert (∃ ids, default [] (removals !! key) = Remove <$> ids ∧ NoDup ids ∧
              ∀ id, id ∈ ids → ∃ d, (d, key, id) ∈ seen ∧ member_due s key id = Some d) as (ids & -> & Hn & Hids).
    { destruct (removals !! key) as [edits|] eqn:Ek; cbn; [by destruct (He key edits Ek) as (_ & _ & ?)|].
      exists []. split_and!; [done|constructor|]. by intros ? ?%not_elem_of_nil. }
    exists (ids ++ [id]). rewrite fmap_app. split; [done|]. split.
    + apply NoDup_app. split; [done|]. split; [|apply NoDup_singleton]. intros i Hi ->%list_elem_of_singleton.
      destruct (Hids id Hi) as (d' & Hin & Hd'). rewrite Hd in Hd'. injection Hd' as <-. done.
    + intros i [Hi| ->%list_elem_of_singleton]%elem_of_app.
      * destruct (Hids i Hi) as (d' & ? & ?). exists d'. split; [|done]. apply elem_of_app. by left.
      * exists d. split; [|done]. apply elem_of_app. right. by apply list_elem_of_singleton.
Qed.

Lemma expired_members_ok s expired budget events0 l seen events removals :
  NoDup (seen ++ l) → removals_ok s expired seen (events - events0) removals → events <= budget →
  let '(events', removals') := expired_members s expired budget events removals l in
  events <= events' <= budget ∧ ∃ seen', (∀ x, x ∈ seen' → x ∈ seen ++ l) ∧ removals_ok s expired seen' (events' - events0) removals'.
Proof.
  revert seen events removals. induction l as [|[[d key] id] l IH]; intros seen events removals Hn Hr Hb; cbn [expired_members].
  { split; [lia|]. exists seen. rewrite app_nil_r. done. }
  destruct (Z.leb_spec budget events) as [|Hlt]; [split; [lia|]; exists seen; split; [|done]; intros; apply elem_of_app; by left|].
  assert (∀ removals' events', removals_ok s expired (seen ++ [(d, key, id)]) (events' - events0) removals' → events <= events' <= budget →
    let '(events'', removals'') := expired_members s expired budget events' removals' l in
    events <= events'' <= budget ∧ ∃ seen', (∀ x, x ∈ seen' → x ∈ seen ++ (d, key, id) :: l) ∧
      removals_ok s expired seen' (events'' - events0) removals'') as Hstep.
  { intros removals' events' Hr' Hb'. specialize (IH (seen ++ [(d, key, id)]) events' removals').
    destruct (expired_members s expired budget events' removals' l) as [ev rem].
    destruct IH as (H1 & seen' & H2 & H3); [by rewrite <- app_assoc|done|lia|]. split; [lia|]. exists seen'. split; [|done].
    intros x Hx%H2. by rewrite <- app_assoc in Hx. }
  case_bool_decide as He; [apply Hstep; [by apply removals_more|lia]|].
  case_bool_decide as Hd; [|apply Hstep; [by apply removals_more|lia]].
  apply Hstep; [|lia]. replace (events + 1 - events0) with (events - events0 + 1) by lia. apply removals_push; [done| |done|done].
  apply NoDup_app in Hn as (_ & Hn & _). intros Hx. apply (Hn _ Hx). left.
Qed.

(** ** The rewritten entries *)

(** An entry without some of its members that have a deadline. *)
Record shed (key : bytes) (ids : list bytes) (e e' : Entry) : Prop := {
  sd_value : ∃ c c', e_value e = VMemory c ∧ e_value e' = VMemory c' ∧ without ids c c';
  sd_expiry : expires_at e' = expires_at e ∧ expires_at_unix_ms e' = expires_at_unix_ms e;
  sd_deadlines : ∀ id, member_deadlines e' !! id = if decide (id ∈ ids) then None else member_deadlines e !! id;
  sd_ok : entry_ok key e';
  sd_size : entry_size key (e_value e') <= entry_size key (e_value e)
}.

Lemma strictly_sorted (l : list bytes) : StronglySorted cmp_le l → NoDup l → StronglySorted cmp_lt l.
Proof.
  induction 1 as [|x l Hl IH Hx]; [constructor|]. intros [Hn Hnd]%NoDup_cons. constructor; [by apply IH|].
  apply Forall_forall. intros y Hy. rewrite Forall_forall in Hx. destruct (proj1 (cmp_le_lteq x y) (Hx y Hy)) as [?| ->]; done.
Qed.

Lemma sorted_removes ids :
  NoDup ids → ∃ ids', merge_sort (λ l r, cmp_le (Edit_id l) (Edit_id r)) (Remove <$> ids) = Remove <$> ids' ∧
    ids' ≡ₚ ids ∧ StronglySorted cmp_lt ids'.
Proof.
  intros Hn. set (L := merge_sort _ _). assert (L ≡ₚ Remove <$> ids) as Hp by apply merge_sort_Permutation.
  assert (Forall (λ e, e = Remove (Edit_id e)) L) as Hr.
  { apply Forall_forall. intros e He. rewrite Hp in He. by apply list_elem_of_fmap in He as (i & -> & _). }
  assert (L = Remove <$> (Edit_id <$> L)) as El.
  { rewrite <- list_fmap_compose. clear -Hr. induction Hr as [|e l He _ IH]; [done|]. cbn. by rewrite <- He, <- IH. }
  assert (Edit_id <$> L ≡ₚ ids) as Hi.
  { rewrite Hp, <- list_fmap_compose. change (Edit_id ∘ Remove) with (@Datatypes.id bytes). by rewrite list_fmap_id. }
  exists (Edit_id <$> L). split_and!; [done|done|]. apply strictly_sorted; [|by rewrite Hi].
  apply (StronglySorted_fmap Edit_id (λ l r, cmp_le (Edit_id l) (Edit_id r))); [done|].
  apply StronglySorted_merge_sort; [intros x y z; cbn; by apply transitivity|intros x y; cbn; apply total; apply _].
Qed.

Lemma fold_deletes (ids : list bytes) (ds : gmap bytes Z) id :
  foldl (λ ds e, delete (Edit_id e) ds) ds (Remove <$> ids) !! id = if decide (id ∈ ids) then None else ds !! id.
Proof.
  revert ds. induction ids as [|i ids IH]; intros ds; [done|]. cbn. rewrite IH. destruct (decide (id = i)) as [->|Hne].
  - rewrite (decide_True (P := i ∈ i :: ids)) by left. case_decide; [done|]. apply lookup_delete_eq.
  - rewrite lookup_delete_ne by done. destruct (decide (id ∈ ids)).
    + rewrite decide_True; [done|by right].
    + rewrite decide_False; [done|]. by intros [?|?]%elem_of_cons.
Qed.

Lemma expire_members_ok s key e ids :
  values s !! key = Some e → entry_ok key e → ids ≠ [] → NoDup ids → zlen ids <= MAX_EDITS →
  (∀ id, id ∈ ids → is_Some (member_deadlines e !! id)) →
  ∃ e', expire_members s key (Remove <$> ids) = Some (key, Some e') ∧ shed key ids e e'.
Proof.
  intros Hk [Hv Hko Hx Hd [Hi1 Hi2]] Hne Hn Hlen Hdue. destruct (sorted_removes ids Hn) as (ids' & Es & Hp & Hs).
  unfold expire_members. rewrite Es, Hk. cbn [mbind option_bind].
  unfold deadlines_ok in Hd. destruct (e_value e) as [| | | | |c] eqn:Ev; try (destruct ids as [|i ids]; [done|]; exfalso;
    destruct (Hdue i ltac:(left)) as [? Hx']; by rewrite Hd, lookup_empty in Hx').
  destruct (removals_apply c ids' key Hv Hko) as (c' & -> & (Hc' & Hdc & Hle & Hm) & Hq); [unfold zlen; by rewrite Hp|done| |].
  { intros id. rewrite Hp. intros Hid. destruct (proj1 (Hd id) (Hdue id Hid)) as (m & -> & _). by eexists. }
  cbn [mbind option_bind]. eexists. split; [done|].
  assert (∀ A (id : bytes) (x y : A), (if decide (id ∈ ids') then x else y) = if decide (id ∈ ids) then x else y) as Hdec.
  { intros A id x y. destruct (decide (id ∈ ids)) as [Hi|Hi]; [apply decide_True|apply decide_False]; by rewrite Hp. }
  assert (∀ id, foldl (λ ds e, delete (Edit_id e) ds) (member_deadlines e) (Remove <$> ids') !! id =
            if decide (id ∈ ids) then None else member_deadlines e !! id) as Hds by (intros id; by rewrite fold_deletes, Hdec).
  split; cbn [e_value expires_at expires_at_unix_ms member_deadlines]; [|done|done| |rewrite Ev; unfold entry_size, value_size; lia].
  - exists c, c'. split_and!; [done..|]. split_and!; [done..|]. intros id. by rewrite Hm, Hdec.
  - split; cbn [e_value expires_at expires_at_unix_ms member_deadlines]; [done|done|done| |split; [done|]].
    + unfold deadlines_ok. cbn [e_value member_deadlines]. intros id. rewrite Hds, Hm, Hdec.
      case_decide; [split; [by intros []|by intros (? & ? & _)]|apply Hd].
    + cbn in Hi2 |- *. intros id m. rewrite Hm. case_decide; [done|]. apply Hi2.
Qed.

(** ** The batch *)

Lemma mapM_exists {A B} (f : A → option B) (P : A → B → Prop) l :
  (∀ x, x ∈ l → ∃ y, f x = Some y ∧ P x y) → ∃ k, mapM f l = Some k ∧ Forall2 P l k.
Proof.
  induction l as [|x l IH]; intros H; [by exists []|]. destruct (H x ltac:(left)) as (y & Hy & HP).
  destruct IH as (k & Hk & HPk); [intros; apply H; by right|]. exists (y :: k). cbn. rewrite Hy. cbn. rewrite Hk. cbn. by split; [|constructor].
Qed.

Definition due (t : Sample) (d : Z) : bool := d <=? now t.
(** What is due in an entry: the entry itself and its members. *)
Definition due_members (t : Sample) (e : Entry) : Z := map_zsum (λ _ d, if due t d then 1 else 0) (member_deadlines e).
Definition due_weight (t : Sample) (e : Entry) : Z := (if expired_at e (now t) then 1 else 0) + due_members t e.
Definition due_events (s : Store) (t : Sample) : Z := map_zsum (λ _ e, due_weight t e) (values s).

(** What the batch does to an entry that it names. *)
Definition expiration_of (s : Store) (t : Sample) (x : bytes * option Entry) : Prop :=
  ∃ e, values s !! x.1 = Some e ∧
    match x.2 with
    | None => expired_at e (now t) = true
    | Some e' => ∃ ids, ids ≠ [] ∧ NoDup ids ∧ shed x.1 ids e e' ∧
                   ∀ id, id ∈ ids → ∃ d, member_deadlines e !! id = Some d ∧ due t d = true
    end.
Definition removed (s : Store) (x : bytes * option Entry) : Z :=
  match x.2 with
  | None => 1
  | Some e' => match values s !! x.1 with
               | Some e => Z.of_nat (size (member_deadlines e)) - Z.of_nat (size (member_deadlines e'))
               | None => 0
               end
  end.

Lemma due_key s t d g k :
  store_wf s → (d, g, k) ∈ btree_set_iter (expirations s) → due t d = true →
  ∃ e, values s !! k = Some e ∧ expired_at e (now t) = true ∧
    ((e_generation e =? g) && bool_decide (expires_at e = Some d)) = true.
Proof.
  intros [_ Hi _] Hin%btree_set_iter_elem Hd. apply (ix_key _ Hi) in Hin as (e & He & Hx & <-). exists e. split; [done|].
  unfold expired_at. rewrite Hx. split; [done|]. by rewrite Z.eqb_refl, bool_decide_eq_true_2.
Qed.

Lemma size_shed key ids e e' :
  shed key ids e e' → NoDup ids → (∀ id, id ∈ ids → is_Some (member_deadlines e !! id)) →
  Z.of_nat (size (member_deadlines e)) - Z.of_nat (size (member_deadlines e')) = zlen ids.
Proof.
  intros [_ _ Hd _ _] Hn Hin.
  assert (member_deadlines e' = base.filter (λ x, x.1 ∉ ids) (member_deadlines e)) as ->.
  { apply map_eq. intros id. rewrite Hd. destruct (member_deadlines e !! id) as [d|] eqn:E.
    - case_decide; symmetry; [apply map_lookup_filter_None; right; intros ? _; cbn; tauto|by apply map_lookup_filter_Some].
    - case_decide; symmetry; apply map_lookup_filter_None; by left. }
  clear Hd e'. revert Hin Hn. generalize (member_deadlines e). intros m. induction ids as [|i ids IH] in m |- *; intros Hin Hn.
  { rewrite map_filter_id; [change (zlen (@nil bytes)) with 0; lia|]. intros; cbn. apply not_elem_of_nil. }
  apply NoDup_cons in Hn as [Hi Hn]. destruct (Hin i ltac:(left)) as [d Hd].
  assert (base.filter (λ x, x.1 ∉ i :: ids) m = base.filter (λ x : bytes * Z, x.1 ∉ ids) (delete i m)) as ->.
  { apply map_eq. intros j. apply option_eq. intros x. rewrite !map_lookup_filter_Some, lookup_delete_Some. cbn. set_solver. }
  rewrite zlen_cons, <- (IH (delete i m)); [|intros j Hj; rewrite lookup_delete_ne by congruence; apply Hin; by right|done].
  rewrite map_size_delete_Some by eauto. assert (0 < size m)%nat; [|lia].
  apply Nat.neq_0_lt_0. apply map_size_non_empty_iff. intros ->. by rewrite lookup_empty in Hd.
Qed.

(** The keys to delete. *)
Definition due_deletions (s : Store) (t : Sample) (budget : Z) : list (Z * Z * bytes) :=
  List.filter (λ e, match values s !! e.2 with
                    | Some entry => (e_generation entry =? e.1.2) && bool_decide (expires_at entry = Some e.1.1)
                    | None => false
                    end)
    (take_while (λ e, e.1.1 <=? now t) (take (Z.to_nat budget) (btree_set_iter (expirations s)))).
Lemma due_deletions_ok s t budget :
  0 <= budget →
  NoDup (due_deletions s t budget).*2 ∧ zlen (due_deletions s t budget) <= budget ∧
  ∀ x, x ∈ due_deletions s t budget →
    ∃ e, values s !! x.2 = Some e ∧ expired_at e (now t) = true ∧ expires_at e = Some x.1.1 ∧ e_generation e = x.1.2.
Proof.
  intros Hb. unfold due_deletions. set (keys := take_while _ (take _ _)). set (deleted := List.filter _ keys).
  assert (∀ x, x ∈ deleted → ∃ e, values s !! x.2 = Some e ∧ expired_at e (now t) = true ∧ expires_at e = Some x.1.1 ∧ e_generation e = x.1.2) as Hdel.
  { intros [[d g] k] [Hin Hf]%list_elem_of_In%filter_In. apply list_elem_of_In in Hin. apply take_while_sub in Hin as [Hin Hd].
    cbn in Hf, Hd |- *. destruct (values s !! k) as [e|] eqn:Ek; [|done]. exists e. split; [done|].
    apply andb_prop in Hf as [Hg%Z.eqb_eq Hx%bool_decide_eq_true]. unfold expired_at. by rewrite Hx. }
  split; [|split; [|done]].
  - apply NoDup_fmap_2_strong.
    + intros [[d g] k] [[d' g'] k'] H1 H2 Heq. cbn in Heq. subst k'. destruct (Hdel _ H1) as (e & He & _ & Hx & Hg). cbn in *.
      destruct (Hdel _ H2) as (e' & He' & _ & Hx' & Hg'). cbn in *. congruence.
    + apply NoDup_ListNoDup, List.NoDup_filter, NoDup_ListNoDup, take_while_NoDup.
      eapply sublist_NoDup; [apply btree_set_iter_NoDup|apply sublist_take].
  - unfold deleted, zlen. etrans; [apply inj_le, filter_length_le|].
    assert (length keys <= Z.to_nat budget)%nat; [|lia]. etrans; [apply take_while_length|]. rewrite length_take. lia.
Qed.

(** The entries to rewrite. *)
Lemma rewritten_ok s t expired seen n removals :
  store_wf s → removals_ok s expired seen n removals → n <= MAX_EDITS → (∀ x, x ∈ seen → due t x.1.1 = true) →
  ∃ rewritten, mapM (λ e, expire_members s e.1 e.2) (btree_iter removals) = Some rewritten ∧
    rewritten.*1 = (btree_iter removals).*1 ∧ Forall (expiration_of s t) rewritten ∧ zsum_with (removed s) rewritten = n.
Proof.
  intros Hw [Hsum Hrem] Hn Hseen.
  destruct (mapM_exists (λ e, expire_members s e.1 e.2)
    (λ x y, y.1 = x.1 ∧ expiration_of s t y ∧ removed s y = zlen x.2) (btree_iter removals)) as (rewritten & -> & Hrw).
  { intros [k edits] Hx%btree_iter_elem. cbn. destruct (Hrem k edits Hx) as (_ & Hne & ids & -> & Hnd & Hids).
    assert (ids ≠ []) as Hne' by (by intros ->). destruct ids as [|i ids]; [done|]. set (l := i :: ids) in *.
    destruct (Hids i ltac:(left)) as (d & _ & Hd). unfold member_due in Hd. destruct (values s !! k) as [e|] eqn:Hk; [|done].
    assert (∀ id, id ∈ l → ∃ d, member_deadlines e !! id = Some d ∧ due t d = true) as Hdue.
    { intros id Hid. destruct (Hids id Hid) as (d' & Hin & Hd'). unfold member_due in Hd'. rewrite Hk in Hd'. exists d'. split; [done|].
      by apply Hseen in Hin. }
    assert (∀ id, id ∈ l → is_Some (member_deadlines e !! id)) as Hsome by (intros id (d' & ? & _)%Hdue; by eexists).
    assert (zlen (Remove <$> l) = zlen l) as El by (unfold zlen; by rewrite length_fmap).
    destruct (expire_members_ok s k e l) as (e' & He' & Hshed); [done|by eapply co_entries; [apply Hw|]|done|done| |done|].
    { pose proof (map_zsum_lookup_le (λ _ edits, zlen edits) removals k _ ltac:(intros; apply zlen_nonneg) Hx) as Hz.
      rewrite Hsum in Hz. cbv beta in Hz. lia. }
    exists (k, Some e'). rewrite He'. split; [done|]. split; [done|]. split; [exists e; split; [done|by exists l]|].
    unfold removed. cbn [fst snd]. by rewrite Hk, (size_shed k l e e'). }
  exists rewritten. split; [done|]. split_and!.
  - clear -Hrw. induction Hrw as [|x y l k [E _] _ IH]; [done|]. cbn. by rewrite E, IH.
  - clear -Hrw. induction Hrw as [|x y l k (_ & ? & _) _ IH]; by constructor.
  - rewrite <- Hsum, (map_zsum_iter (λ _ edits, zlen edits)). clear -Hrw. unfold zsum_with.
    induction Hrw as [|x y l k (_ & _ & E) _ IH]; [done|]. cbn. lia.
Qed.

Lemma prepare_expiration_ok s t budget :
  store_wf s → 0 <= budget →
  ∃ events entries, prepare_expiration s t budget = Some (prepared s (RInteger events) entries Expiration) ∧
    0 <= events <= Z.min budget MAX_EDITS ∧ NoDup entries.*1 ∧ Forall (expiration_of s t) entries ∧
    zsum_with (removed s) entries = events.
Proof.
  intros Hw Hb. unfold prepare_expiration. set (b := Z.min budget MAX_EDITS). assert (0 <= b <= MAX_EDITS) as Hbb by (unfold b, MAX_EDITS; lia).
  fold (due_deletions s t b). destruct (due_deletions_ok s t b) as (Hn & Hlen & Hdel); [lia|].
  set (deleted := due_deletions s t b) in *. set (entries := (λ e, (e.2, None)) <$> deleted).
  assert (entries.*1 = deleted.*2) as Ek by (unfold entries; rewrite <- list_fmap_compose; done).
  assert (zlen entries = zlen deleted) as Ez by (unfold zlen, entries; by rewrite length_fmap).
  set (members := take_while _ (btree_set_iter (member_expirations s))).
  pose proof (expired_members_ok s entries.*1 b (zlen entries) members [] (zlen entries) ∅) as Hm.
  destruct (expired_members _ _ _ _ _ members) as [events removals]. rewrite Z.sub_diag in Hm. pose proof (zlen_nonneg entries).
  destruct Hm as (Hev & seen & Hseen & Hrem); [|split; [apply map_zsum_empty|intros k es; by rewrite lookup_empty]|lia|].
  { apply take_while_NoDup, btree_set_iter_NoDup. }
  destruct (rewritten_ok s t _ _ _ _ Hw Hrem) as (rewritten & -> & Ekr & Hre & Hsum); [lia|by intros x [_ ?]%Hseen%take_while_sub|].
  cbn [mbind option_bind]. exists events, (entries ++ rewritten). split; [done|]. split; [lia|]. split; [|split].
  - rewrite fmap_app, Ekr, Ek. apply NoDup_app. split_and!; [done| |apply btree_iter_NoDup].
    intros k Hk ([k' edits] & -> & Hx%btree_iter_elem)%list_elem_of_fmap. apply (rm_edits _ _ _ _ _ Hrem) in Hx as (Hx & _). by rewrite Ek in Hx.
  - apply Forall_app. split; [|done]. apply Forall_fmap, Forall_forall. intros x Hx. destruct (Hdel x Hx) as (e & He & Hexp & _). by exists e.
  - rewrite zsum_with_app, Hsum. assert (zsum_with (removed s) entries = zlen entries) as ->; [|lia].
    unfold entries. clear. induction deleted as [|x l IH]; [done|]. rewrite fmap_cons, zlen_cons, <- IH. unfold zsum_with. cbn. lia.
Qed.

(** ** Progress *)

Lemma first_due {B C} `{Countable B, Countable C, CmpLaws B, CmpLaws C} (events : gset (Z * B * C)) x :
  x ∈ events → ∃ first rest, btree_set_iter events = first :: rest ∧ first ∈ events ∧ first.1.1 <= x.1.1.
Proof.
  intros Hx. pose proof (btree_set_iter_sorted events) as Hs. apply btree_set_iter_elem in Hx.
  destruct (btree_set_iter events) as [|first rest] eqn:E; [by apply not_elem_of_nil in Hx|].
  exists first, rest. split; [done|]. split; [apply btree_set_iter_elem; rewrite E; left|].
  apply elem_of_cons in Hx as [->|Hx]; [lia|]. apply StronglySorted_inv in Hs as [_ Hs]. rewrite Forall_forall in Hs.
  specialize (Hs x Hx). destruct first as [[d0 b0] c0], x as [[d b] c]. unfold cmp_le, cmp, cmp_prod in Hs. cbn in *.
  unfold cmp, cmp_prod, cmp_Z in Hs. cbn in Hs. destruct (Z.compare_spec d0 d); lia || done.
Qed.

Lemma expired_members_first s expired budget d key id l :
  key ∉ expired → member_due s key id = Some d → 0 < budget → NoDup ((d, key, id) :: l) →
  0 < (expired_members s expired budget 0 ∅ ((d, key, id) :: l)).1.
Proof.
  intros Hk Hd Hb Hn. pose proof (expired_members_ok s expired budget 0 l [(d, key, id)] 1 (<[key := [Remove id]]> ∅)) as H.
  cbn [expired_members]. rewrite (proj2 (Z.leb_gt _ _)) by done. rewrite bool_decide_eq_false_2 by done.
  rewrite bool_decide_eq_true_2 by done. rewrite lookup_empty. cbn [default app]. change (0 + 1) with 1.
  destruct (expired_members _ _ _ _ _ l) as [events removals]. destruct H as (H & _); [done| |lia|cbn; lia].
  change [(d, key, id)] with ([] ++ [(d, key, id)]).
  pose proof (removals_push s expired [] 0 ∅ d key id) as Hp. rewrite lookup_empty in Hp.
  apply Hp; [|by apply not_elem_of_nil|done|done]. split; [apply map_zsum_empty|]. intros k es. by rewrite lookup_empty.
Qed.

Lemma prepare_expiration_progress s t budget events entries :
  store_wf s → 0 < budget → prepare_expiration s t budget = Some (prepared s (RInteger events) entries Expiration) →
  (∃ k e, values s !! k = Some e ∧
     (expired_at e (now t) = true ∨ ∃ id d, member_deadlines e !! id = Some d ∧ due t d = true)) →
  0 < events.
Proof.
  intros Hw Hb Hp (k & e & Hk & Hdue). pose proof Hw as [_ Hi _]. unfold prepare_expiration in Hp.
  set (b := Z.min budget MAX_EDITS) in *. assert (0 < b) as Hb' by (unfold b, MAX_EDITS; lia).
  fold (due_deletions s t b) in Hp. set (deleted := due_deletions s t b) in *. set (del := (λ e, (e.2, None)) <$> deleted) in *.
  set (members := take_while _ (btree_set_iter (member_expirations s))) in *.
  assert (events = (expired_members s del.*1 b (zlen del) ∅ members).1) as ->.
  { destruct (expired_members _ _ _ _ _ _) as [ev rem]. destruct (mapM _ _); [|done]. by injection Hp. }
  clear Hp. assert (NoDup members) as Hn by apply take_while_NoDup, btree_set_iter_NoDup.
  destruct (due_deletions_ok s t b ltac:(lia)) as (_ & Hlen & _). fold deleted in Hlen.
  destruct deleted as [|x deleted'] eqn:Ed.
  - cbn in del. subst del. change (zlen (@nil (bytes * option Entry))) with 0.
    assert (∃ first rest, members = first :: rest ∧ first ∈ member_expirations s) as ([[d key] id] & rest & Em & Hin).
    { destruct Hdue as [Hx|(id & d & Hid & Hd)].
      - exfalso. unfold expired_at in Hx. destruct (expires_at e) as [d|] eqn:Ex; [|done].
        destruct (first_due (expirations s) (d, e_generation e, k)) as ([[d0 g0] k0] & rest & El & Hin & Hle); [apply (ix_key _ Hi); eauto|].
        unfold deleted, due_deletions in Ed. rewrite El in Ed. destruct (Z.to_nat b) as [|n] eqn:En; [lia|]. cbn in Ed, Hle.
        rewrite (proj2 (Z.leb_le d0 (now t))) in Ed by lia. cbn in Ed.
        apply (ix_key _ Hi) in Hin as (e0 & He0 & Hx0 & <-). rewrite He0, Z.eqb_refl, bool_decide_eq_true_2 in Ed by done. done.
      - destruct (first_due (member_expirations s) (d, k, id)) as ([[d0 k0] id0] & rest & El & Hin & Hle); [apply (ix_member _ Hi); eauto|].
        unfold members. rewrite El. cbn in Hle |- *. unfold due in Hd. rewrite (proj2 (Z.leb_le d0 (now t))) by lia. by eexists _, _. }
    rewrite Em in *. apply (ix_member _ Hi) in Hin as (e0 & He0 & Hd0).
    apply expired_members_first; [apply not_elem_of_nil|unfold member_due; by rewrite He0|done|done].
  - pose proof (expired_members_ok s del.*1 b (zlen del) members [] (zlen del) ∅) as Hm.
    destruct (expired_members _ _ _ _ _ _) as [ev rem]. cbn [fst]. rewrite Z.sub_diag in Hm.
    assert (1 <= zlen del <= b) as Hd1 by (unfold del, zlen in *; rewrite length_fmap; cbn in *; lia).
    destruct Hm as (Hm & _); [done|split; [apply map_zsum_empty|intros ? ?; by rewrite lookup_empty]|lia|lia].
Qed.

(** ** Expiration is exact *)

Lemma zsum_const {A} (f : A → Z) c l : (∀ x, x ∈ l → f x = c) → zsum_with f l = c * zlen l.
Proof.
  intros H. induction l as [|x l IH]; [change (zlen (@nil A)) with 0; cbn; lia|]. rewrite zlen_cons. unfold zsum_with in *. cbn.
  rewrite (H x ltac:(left)), IH by (intros; apply H; by right). lia.
Qed.

Lemma shed_due t key ids e e' :
  shed key ids e e' → NoDup ids → (∀ id, id ∈ ids → ∃ d, member_deadlines e !! id = Some d ∧ due t d = true) →
  due_members t e' = due_members t e - zlen ids.
Proof.
  intros [_ _ Hd _ _] Hn Hin. unfold due_members.
  rewrite (map_zsum_change _ (member_deadlines e) (member_deadlines e') ids Hn) by (intros k Hk; by rewrite Hd, decide_False).
  rewrite (zsum_const _ 1), (zsum_const _ 0); [lia|..].
  - intros id Hid. by rewrite Hd, decide_True.
  - intros id Hid. destruct (Hin id Hid) as (d & -> & Hx). cbn. by rewrite Hx.
Qed.

Lemma due_weight_nonneg t e : 0 <= due_weight t e.
Proof.
  unfold due_weight, due_members. assert (0 <= map_zsum (λ _ d, if due t d then 1 else 0) (member_deadlines e)); [|by destruct (expired_at e (now t)); lia].
  apply map_zsum_nonneg. intros; by destruct (due _ _).
Qed.

(** What a touched entry loses. *)
Lemma expiration_of_due s t x :
  store_wf s → expiration_of s t x →
  1 <= removed s x ∧ removed s x <= at_key (λ _ e, due_weight t e) (values s !! x.1) x.1 - at_key (λ _ e, due_weight t e) x.2 x.1 ∧
  optional_ok x ∧ optional_size x <= charge s x.1.
Proof.
  destruct x as [k o]. intros Hw (e & Hk & Ho). cbn in *. unfold charge, removed, optional_ok, optional_size, at_key. cbn. rewrite Hk. destruct o as [e'|].
  - destruct Ho as (ids & Hne & Hn & Hs & Hd). rewrite (size_shed k ids e e' Hs Hn); [|intros id (d & ? & _)%Hd; by eexists].
    unfold due_weight. rewrite (shed_due t k ids e e' Hs Hn Hd). pose proof Hs as [_ [Hx _] _ Hok Hsz].
    unfold expired_at. rewrite Hx. split_and!; [|lia|done|done]. destruct ids; [done|]. zlen_lia.
  - unfold due_weight. rewrite Ho. assert (0 <= due_members t e); [|split_and!; [lia|lia|done|]].
    + apply map_zsum_nonneg. intros; by destruct (due _ _).
    + pose proof (entry_size_pos k (e_value e) (eo_value _ _ (co_entries _ _ (wf_core _ Hw) _ _ Hk))). lia.
Qed.

Lemma shed_image k ids e e1 e2 : entry_ok k e2 → image e2 = image e1 → shed k ids e e1 → shed k ids e e2.
Proof.
  intros Hok Hi [Hv Hx Hd _ Hs]. unfold image, stamp in Hi. injection Hi as E1 E2 E3 E4.
  split; rewrite ?E1, ?E2, ?E3, ?E4; done.
Qed.
Lemma due_weight_image t e : due_weight t (image e) = due_weight t e.
Proof. done. Qed.
Lemma due_events_image s t : due_events s t = map_zsum (λ _ e, due_weight t e) (image <$> values s).
Proof. unfold due_events. by rewrite map_zsum_fmap. Qed.

Lemma map_zsum_pos {V} (f : bytes → V → Z) (m : gmap bytes V) :
  0 < map_zsum f m → ∃ k v, m !! k = Some v ∧ 0 < f k v.
Proof.
  induction m as [|k v m Hk IH] using map_ind; [rewrite map_zsum_empty; lia|]. rewrite map_zsum_insert by done. intros H.
  destruct (decide (0 < f k v)) as [Hp|Hp]; [exists k, v; by rewrite lookup_insert_eq|]. destruct IH as (k' & v' & Hk' & Hp'); [lia|].
  exists k', v'. split; [|done]. rewrite lookup_insert_ne; [done|congruence].
Qed.
Lemma due_events_pos s t :
  0 < due_events s t → ∃ k e, values s !! k = Some e ∧
    (expired_at e (now t) = true ∨ ∃ id d, member_deadlines e !! id = Some d ∧ due t d = true).
Proof.
  intros (k & e & Hk & Hp)%map_zsum_pos. exists k, e. split; [done|]. unfold due_weight in Hp.
  destruct (expired_at e (now t)); [by left|right]. destruct (map_zsum_pos (λ _ d, if due t d then 1 else 0) (member_deadlines e)) as (id & d & Hd & Hq); [exact Hp|].
  exists id, d. split; [done|]. by destruct (due t d).
Qed.

(** What happens to each key: nothing, its deletion, or the removal of due members. *)
Definition expired_to (t : Sample) (k : bytes) (o o' : option Entry) : Prop :=
  image <$> o' = image <$> o ∨
  ∃ e, o = Some e ∧
    (expired_at e (now t) = true ∧ o' = None ∨
     ∃ ids e', o' = Some e' ∧ ids ≠ [] ∧ shed k ids e e' ∧ ∀ id, id ∈ ids → ∃ d, member_deadlines e !! id = Some d ∧ due t d = true).

(** C16. A tick of the background expiration on a well-formed store prepares a batch
    and applies it without a panic, and leaves a well-formed store.  It only deletes
    keys whose deadline has passed and only removes members whose deadline has passed;
    everything else, the deadlines of the survivors included, is kept.  It reports the
    number of what it removed, at most the budget and 64; that many less things are
    due afterwards, and when anything is due it removes something. *)
Theorem expiration_exact s t budget :
  store_wf s → 0 <= budget → generation s + 192 < 2 ^ 64 →
  ∃ p events s', prepare_expiration s t budget = Some p ∧ apply s p = Some (s', RInteger events) ∧ store_wf s' ∧
    0 <= events <= Z.min budget MAX_EDITS ∧ (∀ k, expired_to t k (values s !! k) (values s' !! k)) ∧
    due_events s' t + events <= due_events s t ∧ (0 < budget → 0 < due_events s t → 0 < events).
Proof.
  intros Hw Hb Hg. destruct (prepare_expiration_ok s t budget Hw Hb) as (events & entries & Ep & Hev & Hn & Hx & Hsum).
  rewrite Forall_forall in Hx. assert (∀ x, x ∈ entries → _) as Hdue by (intros x Hin; exact (expiration_of_due s t x Hw (Hx x Hin))).
  assert (zlen entries <= 64) as Hlen.
  { assert (zsum_with (λ _, 1) entries <= zsum_with (removed s) entries) as Hz by (apply zsum_with_le; intros x Hin; apply Hdue, Hin).
    rewrite (zsum_const _ 1) in Hz by done. unfold MAX_EDITS in Hev. lia. }
  pose proof Hw as [Hc Hi Hgs].
  destruct (apply_ok 0 s (prepared s (RInteger events) entries Expiration) Hc) as (s' & Ha & Hc' & Hk & _ & _ & Hfr & Hv); cbn [p_entries prepared] in *; [done|done| | |].
  { apply Forall_forall. intros x Hin. apply Hdue, Hin. }
  { assert (zsum_with optional_size entries <= zsum_with (λ e, charge s e.1) entries); [|pose proof (co_quota _ _ Hc); lia].
    apply zsum_with_le. intros x Hin. apply Hdue, Hin. }
  eexists _, events, s'. split; [done|]. split; [done|]. split; [by eapply wf_keeps; [| |exact Hk|lia]|]. split; [done|]. split; [|split].
  - intros k. specialize (Hv k). destruct (list_to_map entries !! k) as [o|] eqn:Eo; [right|by left].
    apply elem_of_list_to_map_2 in Eo. destruct (Hx _ Eo) as (e & He & Ho). cbn in He, Ho. exists e. split; [done|].
    destruct o as [e1|]; [right|left; split; [done|by destruct (values s' !! k)]].
    destruct Ho as (ids & Hne & Hnd & Hs & Hd). destruct (values s' !! k) as [e2|] eqn:E2; [|done]. cbn [fmap option_fmap option_map] in Hv. assert (image e2 = image e1) as Hv' by congruence.
    exists ids, e2. split_and!; [done..| |done]. eapply shed_image; [by eapply co_entries|exact Hv'|done].
  - rewrite !due_events_image, (map_zsum_change _ (image <$> values s) (image <$> values s') entries.*1 Hn).
    2:{ intros k Hk'. by rewrite !lookup_fmap, Hfr. }
    rewrite !zsum_with_fmap, <- Hsum.
    assert (zsum_with (λ x, removed s x + at_key (λ _ e, due_weight t e) ((image <$> values s') !! x.1) x.1) entries <=
            zsum_with (λ x, at_key (λ _ e, due_weight t e) ((image <$> values s) !! x.1) x.1) entries) as Hz.
    { apply zsum_with_le. intros x Hin. destruct (Hdue x Hin) as (_ & Hr & _). rewrite !lookup_fmap, Hv.
      rewrite (elem_of_list_to_map_1 entries x.1 x.2) by (done || by destruct x). unfold at_key in *.
      destruct (values s !! x.1), x.2; cbn [fmap option_fmap option_map] in *; rewrite ?due_weight_image; lia. }
    rewrite zsum_with_plus in Hz. unfold compose. lia.
  - intros Hb0 Hd. apply (prepare_expiration_progress s t budget events entries Hw Hb0 Ep). by apply due_events_pos.
Qed.

Definition expiring_store : Store :=
  match execute_plain (H := list_order) stored_store epoch_sample (CExpire (lit "k") 5 Milliseconds) with
  | Some (s, _) => s
  | None => stored_store
  end.
Lemma expiring_store_wf : store_wf expiring_store.
Proof.
  destruct (execute_plain_ok (H := list_order) stored_store epoch_sample (CExpire (lit "k") 5 Milliseconds)) as (s & r & E & Hw & _).
  - apply stored_store_wf.
  - done.
  - by vm_compute.
  - unfold expiring_store. by rewrite E.
Qed.
(** Six milliseconds later. *)
Definition late_sample : Sample := {| now := 6000000; unix_millis := 6 |}.

Lemma expiration_exact_witness :
  ∃ p s', prepare_expiration expiring_store late_sample 64 = Some p ∧ apply expiring_store p = Some (s', RInteger 1) ∧
    store_wf s' ∧ due_events expiring_store late_sample = 1 ∧ due_events s' late_sample = 0.
Proof.
  assert (due_events expiring_store late_sample = 1) as E1 by (vm_compute; reflexivity).
  destruct (expiration_exact expiring_store late_sample 64) as (p & events & s' & Hp & Ha & Hw & _ & _ & Hd & Hpos).
  - apply expiring_store_wf.
  - lia.
  - by vm_compute.
  - assert (0 <= due_events s' late_sample) as H0 by (apply map_zsum_nonneg; intros; apply due_weight_nonneg).
    assert (events = 1) as -> by lia. exists p, s'. split; [exact Hp|]. split; [exact Ha|]. split; [exact Hw|]. split; [exact E1|lia].
Defined.
