(* ===== verification/Decoded.v ===== *)
(** * What the decoders let through

    Soundness of the record decoders of src/persistence/format.rs and
    src/persistence/memory_format.rs: on any input whatsoever, a record that is
    decoded contains only mutations a store could have logged. *)

From Stdlib Require Import Strings.Byte Strings.String ZArith Lia.
From S2P Require Import Prelude Float Wire Score Memory Command Store StoreInv StoreSpec Mutation StoreExec Replay Routing Format MemoryFormat Profile MemoryLifecycle.

#[local] Open Scope Z_scope.

(** ** Words and loops *)

Lemma i64_value_range s : zlen s = 8 → I64_MIN <= i64_value s <= I64_MAX.
Proof.
  intros Hs. pose proof (le_value_range s) as Hr. rewrite Hs in Hr. change (256 ^ 8) with (2 ^ 64) in Hr.
  unfold i64_value, I64_MIN, I64_MAX. destruct (Z.ltb_spec (le_value s) (2 ^ 63)); lia.
Qed.
Lemma take_bytes_sound n c s rest : 0 <= n → take_bytes n c = Ok (s, rest) → c = s ++ rest ∧ zlen s = n.
Proof. intros Hn Hc%ok_or_ok. by apply read_exact_Some in Hc. Qed.
Lemma take_i64_sound c z rest : take_i64 c = Ok (z, rest) → I64_MIN <= z <= I64_MAX.
Proof.
  intros ([s c'] & Hs & [= <- _])%bind_ok. apply take_bytes_sound in Hs as [_ Hl]; [|lia]. by apply i64_value_range.
Qed.
Lemma take_u32_sound c z rest : take_u32 c = Ok (z, rest) → 0 <= z <= U32_MAX.
Proof.
  intros ([s c'] & Hs & [= <- _])%bind_ok. apply take_bytes_sound in Hs as [_ Hl]; [|lia].
  pose proof (le_value_range s) as Hr. rewrite Hl in Hr. change (256 ^ 4) with (2 ^ 32) in Hr. unfold U32_MAX. lia.
Qed.
Lemma take_u64_sound c z rest : take_u64 c = Ok (z, rest) → 0 <= z < 2 ^ 64.
Proof.
  intros ([s c'] & Hs & [= <- _])%bind_ok. apply take_bytes_sound in Hs as [_ Hl]; [|lia].
  pose proof (le_value_range s) as Hr. by rewrite Hl in Hr.
Qed.

(** An invariant of the body of a loop, and what each round establishes. *)
Lemma take_loop_inv {S} (I : S → Prop) n (step : S → bytes → result FormatError (S * bytes)) s c s' c' :
  (∀ s c s' c', I s → step s c = Ok (s', c') → I s') → I s → take_loop n step s c = Ok (s', c') → I s'.
Proof.
  intros Hstep. revert s c. induction n as [|n IH]; intros s c Hs Ht; cbn in Ht; [by simplify_eq|].
  apply bind_ok in Ht as ([s1 c1] & H1 & Ht). eapply IH; [|done]. by eapply Hstep.
Qed.
Lemma take_loop_some {S} (I Q : S → Prop) n (step : S → bytes → result FormatError (S * bytes)) s c s' c' :
  (∀ s c s' c', I s → step s c = Ok (s', c') → I s' ∧ Q s') → I s → (0 < n)%nat → take_loop n step s c = Ok (s', c') →
  I s' ∧ Q s'.
Proof.
  intros Hstep Hs Hn Ht. destruct n as [|n]; [lia|]. cbn in Ht. apply bind_ok in Ht as ([s1 c1] & H1 & Ht).
  eapply (take_loop_inv (λ s, I s ∧ Q s)); [|by eapply Hstep|done]. intros s2 c2 s3 c3 [HI _] H3. by eapply Hstep.
Qed.

(** ** Version 1 *)

Lemma take_count_sound what item c n rest : take_count what item c = Ok (n, rest) → (0 < Z.to_nat n)%nat.
Proof.
  intros ([z c'] & Hz%take_u32_sound & Hn)%bind_ok. destruct (_ || _) eqn:E; [done|]. simplify_eq. lia.
Qed.

Lemma take_zmember_sound z c z' c' :
  zset_ok z → take_zmember z c = Ok (z', c') → zset_ok z' ∧ z_members z' ≠ ∅.
Proof.
  intros Hz ([member c1] & _ & ([bits c2] & _ & (score & Hs%ok_or_ok%Score_new_canonical & Ht)%bind_ok)%bind_ok)%bind_ok.
  destruct (SortedSet_insert_ok z member score Hz Hs) as (z1 & u & E & Hz1 & Hm & _). rewrite E in Ht.
  destruct (negb _); [done|]. simplify_eq. split; [done|]. rewrite Hm. apply insert_non_empty.
Qed.

Lemma take_value_sound tag c v rest : take_value tag c = Ok (v, rest) → value_ok v ∧ is_memory v = false.
Proof.
  unfold take_value. destruct (tag =? 1); [intros ([x c1] & _ & [= <- _])%bind_ok; done|].
  destruct (tag =? 6).
  { intros ([n c1] & Hn%take_count_sound & ([z c2] & Hl & [= <- _])%bind_ok)%bind_ok. split; [|done].
    apply (take_loop_some zset_ok (λ z, z_members z ≠ ∅)) in Hl; [cbn; tauto| |apply zset_default_ok|done].
    intros. by eapply take_zmember_sound. }
  destruct (tag =? 5).
  { intros ([n c1] & Hn%take_count_sound & ([z c2] & Hl & [= <- _])%bind_ok)%bind_ok. split; [|done].
    apply (take_loop_some (λ _, True) (λ z, z ≠ ∅)) in Hl; [cbn; tauto| |done|done].
    intros s c3 s' c4 _ ([m c5] & _ & Ht)%bind_ok. case_bool_decide; [done|]. simplify_eq. split; [done|set_solver]. }
  destruct (tag =? 4).
  { intros ([n c1] & Hn%take_count_sound & ([z c2] & Hl & [= <- _])%bind_ok)%bind_ok. split; [|done].
    apply (take_loop_some (λ _, True) (λ z, z ≠ [])) in Hl; [cbn; tauto| |done|done].
    intros s c3 s' c4 _ ([m c5] & _ & Ht)%bind_ok. simplify_eq. split; [done|]. by destruct s. }
  intros ([n c1] & Hn%take_count_sound & ([z c2] & Hl & [= <- _])%bind_ok)%bind_ok. split; [|done].
  apply (take_loop_some (λ _, True) (λ z, z ≠ ∅)) in Hl; [cbn; tauto| |done|done].
  intros s c3 s' c4 _ ([f c5] & _ & ([m c6] & _ & Ht)%bind_ok)%bind_ok. destruct (s !! f); [done|]. simplify_eq.
  split; [done|]. apply insert_non_empty.
Qed.

Lemma take_deadline_sound c d rest : take_deadline c = Ok (d, rest) → i64_deadline d.
Proof.
  intros ([flag c1] & _ & ([z c2] & Hz%take_i64_sound & Hd)%bind_ok)%bind_ok.
  destruct (_ && _); [by simplify_eq|]. destruct (flag =? 1); [|done]. by simplify_eq.
Qed.

Lemma take_mutation_sound c mu rest : take_mutation c = Ok (mu, rest) → mutation_wf mu.
Proof.
  intros ([tag c1] & _ & ([key c2] & _ & Ht)%bind_ok)%bind_ok. destruct (_ || _).
  - apply bind_ok in Ht as ([v c3] & [Hv Hm]%take_value_sound & ([d c4] & Hd%take_deadline_sound & [= <- _])%bind_ok).
    cbn. by destruct v.
  - destruct (tag =? 2); [|done]. by simplify_eq.
Qed.

Lemma decode_record_sound l body r :
  decode_record l body = Ok r →
  match r with
  | Snapshot mu => mutation_wf mu
  | Seal _ _ _ => True
  | Batch sequence batch => 0 <= sequence < 2 ^ 64 ∧ Forall mutation_wf (mutations batch)
  end.
Proof.
  intros ([tag c] & _ & ([r' c'] & Hr & Hc)%bind_ok)%bind_ok. case_bool_decide; [|done]. simplify_eq.
  destruct (tag =? 1); [apply bind_ok in Hr as ([mu c1] & Hm%take_mutation_sound & [= <- _]); done|].
  destruct (tag =? 2).
  { apply bind_ok in Hr as ([a c1] & _ & ([b c2] & _ & ([d c3] & _ & [= <- _])%bind_ok)%bind_ok). done. }
  destruct (tag =? 3); [|done].
  apply bind_ok in Hr as ([sq c1] & Hs%take_u64_sound & ([o c2] & _ & ([n c3] & _ & Hl)%bind_ok)%bind_ok).
  destruct (_ || _); [done|]. apply bind_ok in Hl as ([ms c4] & Hl & [= <- _]). split; [done|]. cbn.
  eapply (take_loop_inv (Forall mutation_wf)); [|done|exact Hl].
  intros s c5 s' c6 Hs' ([mu c7] & Hm%take_mutation_sound & [= <- _])%bind_ok. apply Forall_app. split; [done|by constructor].
Qed.

(** ** Version 2 *)

Lemma take_memory_deadline_sound member c d rest : take_memory_deadline member c = Ok (d, rest) → i64_deadline d.
Proof.
  intros ([flag c1] & _ & ([z c2] & Hz%take_i64_sound & Hd)%bind_ok)%bind_ok.
  destruct (_ && _); [by simplify_eq|]. destruct (_ && _); [|done]. by simplify_eq.
Qed.

Lemma take_member_sound d c m rest :
  take_member d c = Ok (m, rest) → i64_deadline (m_deadline m) ∧ Member_validate m d = Ok tt.
Proof.
  intros ([id c1] & _ & ([ns c2] & _ & ([ct c3] & _ & ([n c4] & _ & Ht)%bind_ok)%bind_ok)%bind_ok)%bind_ok.
  destruct (negb _); [done|].
  apply bind_ok in Ht as ([v c5] & _ & ([dl c6] & Hd%take_memory_deadline_sound & ([k c7] & _ & ([md c8] & _ & Ht)%bind_ok)%bind_ok)%bind_ok).
  apply bind_ok in Ht as ([k' c9] & _ & ([pv c10] & _ & ([] & Hv & [= <- _])%bind_ok)%bind_ok).
  split; [done|]. by destruct (Member_validate _ d) as [[]|].
Qed.

(** Members in strictly increasing order build a well-formed collection. *)
Lemma from_members_loop_sound c previous ms c' :
  collection_wf c → i64_members (VMemory c) → Forall (λ m, i64_deadline (m_deadline m)) ms →
  (∀ id, is_Some (c_members c !! id) → ∃ p, previous = Some p ∧ cmp_le id p) →
  from_members_loop c previous ms = Ok c' → collection_wf c' ∧ i64_members (VMemory c').
Proof.
  intros Hc Hi Hms. revert c previous Hc Hi. induction Hms as [|m ms Hm Hms IH]; intros c previous Hc Hi Hp Hl; cbn in Hl.
  { by simplify_eq. }
  apply bind_ok in Hl as ([] & Hv & ([] & Ho%guard_ok_ok & (c1 & Hc1 & Hl)%bind_ok)%bind_ok).
  assert (c_members c !! m_id m = None) as Hn.
  { destruct (c_members c !! m_id m) eqn:E; [|done]. destruct (Hp (m_id m)) as (p & -> & Hle); [by rewrite E|].
    cbn in Ho. case_bool_decide as Hlt; [done|]. exfalso. apply Hle.
    by rewrite cmp_opp, Hlt. }
  destruct (insert_member_wf c m c1 Hc Hv Hn Hc1) as (Hw1 & _ & Hm1). eapply IH; [done| | |exact Hl].
  - cbn. rewrite Hm1. intros id m' [[_ <-]|[_ Hx]]%lookup_insert_Some; [done|]. by eapply Hi.
  - intros id. rewrite Hm1. intros Hs. exists (m_id m). split; [done|].
    destruct (decide (id = m_id m)) as [->|Hne]; [by rewrite cmp_le_lteq; right|].
    rewrite lookup_insert_ne in Hs by done. destruct (Hp id Hs) as (p & -> & Hle). cbn in Ho. case_bool_decide as Hlt; [done|].
    eapply cmp_le_trans; [done|]. apply cmp_le_lteq. by left.
Qed.
Lemma from_members_sound d ms key c :
  Forall (λ m, i64_deadline (m_deadline m)) ms → from_members d ms key = Ok c →
  collection_wf c ∧ within_quota c key ∧ i64_members (VMemory c).
Proof.
  intros Hms (c0 & (Hw & _ & Hm)%collection_new_wf & (c1 & Hl & ([] & Hk & [= <-])%bind_ok)%bind_ok)%bind_ok.
  destruct (from_members_loop_sound c0 None ms c1 Hw) as [Hw1 Hi1]; try done.
  - cbn. by rewrite Hm.
  - intros id. rewrite Hm. by intros [? ?].
  - split_and!; try done. apply validate_key_ok; [done|]. by apply collection_logical_pos.
Qed.

(** What a decoded mutation is. *)
Definition mmutation_wf (mu : MMutation) : Prop :=
  match mu with
  | Legacy mu => mutation_wf mu
  | Image key c expiry => mutation_wf (Put key (VMemory c) expiry)
  | Delta _ _ edits expiry => Forall edit_i64 edits ∧ i64_deadline expiry
  end.

Lemma take_image_sound key d c mu rest : take_image key d c = Ok (mu, rest) → mmutation_wf mu.
Proof.
  intros ([n c1] & _ & Ht)%bind_ok. destruct (match u_mul n (dimension d) with Some _ => _ | None => _ end); [done|].
  apply bind_ok in Ht as ([ms c2] & Hl & ([kd c3] & Hd%take_memory_deadline_sound & (cl & Hf & [= <- _])%bind_ok)%bind_ok).
  destruct (from_members d ms.2 key) as [cl'|] eqn:E; [|done]. cbn in Hf. injection Hf as ->.
  apply from_members_sound in E as (Hw & Hq & Hi); [exact (conj Hw (conj Hq (conj Hd Hi)))|].
  revert Hl. apply (take_loop_inv (λ a, Forall (λ m, i64_deadline (m_deadline m)) a.2)); [|by constructor].
  intros s c4 s' c5 Hs ([m c6] & [Hm _]%take_member_sound & (p & _ & [= <- _])%bind_ok)%bind_ok. cbn.
  apply Forall_app. split; [done|by constructor].
Qed.
Lemma take_delta_sound key d c mu rest : take_delta key d c = Ok (mu, rest) → mmutation_wf mu.
Proof.
  intros ([n c1] & _ & ([es c2] & Hl & ([kd c3] & Hd%take_memory_deadline_sound & [= <- _])%bind_ok)%bind_ok)%bind_ok.
  split; [|done]. revert Hl. apply (take_loop_inv (λ a, Forall edit_i64 a.2)); [|by constructor].
  intros s c4 s' c5 Hs ([e c6] & He & (p & _ & [= <- _])%bind_ok)%bind_ok. cbn.
  apply Forall_app. split; [done|]. constructor; [|done].
  apply bind_ok in He as ([tag c7] & _ & He). destruct (tag =? 1).
  { by apply bind_ok in He as ([m c8] & [Hm _]%take_member_sound & [= <- _]). }
  destruct (tag =? 2); [|done]. by apply bind_ok in He as ([id c8] & _ & [= <- _]).
Qed.
Lemma memory_take_mutation_sound c mu rest : memory_take_mutation c = Ok (mu, rest) → mmutation_wf mu.
Proof.
  intros ([tag c1] & _ & Ht)%bind_ok. destruct ((1 <=? tag) && (tag <=? 6)).
  { by apply bind_ok in Ht as ([mu' c2] & Hm%take_mutation_sound & [= <- _]). }
  destruct (negb _); [done|]. apply bind_ok in Ht as ([key c2] & _ & ([d c3] & _ & Ht)%bind_ok).
  destruct (tag =? 7); [by eapply take_image_sound|by eapply take_delta_sound].
Qed.

(** ** Records of any profile *)

Definition mrecord_wf (r : MRecord) : Prop :=
  match r with
  | MSnapshot mu => mmutation_wf mu
  | MSeal _ _ _ => True
  | MBatch sequence _ ms => 0 <= sequence < 2 ^ 64 ∧ Forall mmutation_wf ms
  end.

Lemma memory_decode_sound l body r : memory_decode l body = Ok r → mrecord_wf r.
Proof.
  intros ([tag c] & _ & ([r' c'] & Hr & Hc)%bind_ok)%bind_ok. case_bool_decide; [|done]. simplify_eq.
  destruct (tag =? 1).
  { apply bind_ok in Hr as ([mu c1] & Hm%memory_take_mutation_sound & Hr). destruct mu; by simplify_eq. }
  destruct (tag =? 2).
  { apply bind_ok in Hr as ([a c1] & _ & ([b c2] & _ & ([d c3] & _ & [= <- _])%bind_ok)%bind_ok). done. }
  destruct (tag =? 3); [|done].
  apply bind_ok in Hr as ([sq c1] & Hs%take_u64_sound & ([o c2] & _ & ([n c3] & _ & Hl)%bind_ok)%bind_ok).
  destruct (n =? 0); [done|]. apply bind_ok in Hl as ([ms c4] & Hl & [= <- _]). split; [done|].
  revert Hl. apply (take_loop_inv (λ a, Forall mmutation_wf a.2)); [|by constructor].
  intros s c5 s' c6 Hs' ([mu c7] & Hm%memory_take_mutation_sound & Hx)%bind_ok. case_bool_decide; [done|]. injection Hx as <- <-. cbn.
  apply Forall_app. split; [done|by constructor].
Qed.

Lemma from_storage_wf mu : mutation_wf mu → mmutation_wf (from_storage mu).
Proof. by destruct mu as [k [] d|k]. Qed.

Lemma profile_read_sound p l input r rest : profile_read_record p l input = Ok (MNextRecord r rest) → mrecord_wf r.
Proof.
  assert (∀ r, match r with
               | Snapshot mu => mutation_wf mu
               | Seal _ _ _ => True
               | Batch sequence batch => 0 <= sequence < 2 ^ 64 ∧ Forall mutation_wf (mutations batch)
               end → mrecord_wf (convert r)) as Hconv.
  { intros [mu| |sq b]; cbn; [apply from_storage_wf|done|]. intros [Hs Hb]. split; [done|].
    apply Forall_fmap. eapply Forall_impl; [exact Hb|apply from_storage_wf]. }
  destruct p; cbn [profile_read_record].
  2:{ unfold memory_read_record. intros ([| |body rest'] & _ & Hr)%bind_ok; try done.
      apply bind_ok in Hr as (r' & Hd%memory_decode_sound & [= <- _]). done. }
  all: intros (next & Hn & Hr)%bind_ok; destruct next as [| |r' rest']; try done; injection Hr as <- <-; apply Hconv;
    apply bind_ok in Hn as ([| |body rest''] & _ & Hn); try done;
    apply bind_ok in Hn as (r'' & Hd%decode_record_sound & [= <- _]); done.
Qed.

(** ** Progress *)

Definition record_weight (r : MRecord) : Z :=
  match r with MSnapshot _ => 1 | MSeal _ _ _ => 0 | MBatch _ _ ms => zlen ms end.

Lemma read_frame_split l input body rest :
  read_frame l input = Ok (Body body rest) → ∃ prefix, input = prefix ++ body ++ rest ∧ zlen prefix = 12.
Proof.
  unfold read_frame. destruct input as [|b input]; [done|]. set (i := b :: input).
  destruct (read_exact 12 i) as [[prefix input']|] eqn:E; [|done]. apply read_exact_Some in E as [E Hp]; [|lia].
  cbv zeta. destruct (negb _); [done|]. destruct (_ || _) eqn:Ez; [done|].
  destruct (read_exact _ input') as [[body' rest']|] eqn:E'; [|done].
  apply read_exact_Some in E' as [-> _]; [|pose proof (le_value_range (take 4 prefix)); lia].
  destruct (negb _); [done|]. intros [= <- <-]. by exists prefix.
Qed.

Lemma take_loop_length {S A} (f : S → list A) n (step : S → bytes → result FormatError (S * bytes)) s c s' c' :
  (∀ s c s' c', step s c = Ok (s', c') → zlen (f s') = zlen (f s) + 1) →
  take_loop n step s c = Ok (s', c') → zlen (f s') = zlen (f s) + Z.of_nat n.
Proof.
  intros Hstep. revert s c. induction n as [|n IH]; intros s c Ht; cbn in Ht; [simplify_eq; lia|].
  apply bind_ok in Ht as ([s1 c1] & H1%Hstep & Ht%IH). lia.
Qed.

Lemma suffix_zlen {A} (s t : list A) : zlen t <= zlen (s ++ t).
Proof. rewrite zlen_app. pose proof (zlen_nonneg s). lia. Qed.
Lemma take_byte_shrinks c z rest : take_byte c = Ok (z, rest) → zlen c = zlen rest + 1.
Proof.
  intros ([s c'] & Hs & [= _ <-])%bind_ok. apply take_bytes_sound in Hs as [-> Hl]; [|lia]. rewrite zlen_app. lia.
Qed.
Lemma take_u64_shrinks c z rest : take_u64 c = Ok (z, rest) → zlen rest <= zlen c.
Proof.
  intros ([s c'] & Hs & [= _ <-])%bind_ok. apply take_bytes_sound in Hs as [-> Hl]; [|lia]. apply suffix_zlen.
Qed.
Lemma take_u32_shrinks c z rest : take_u32 c = Ok (z, rest) → zlen rest <= zlen c.
Proof.
  intros ([s c'] & Hs & [= _ <-])%bind_ok. apply take_bytes_sound in Hs as [-> Hl]; [|lia]. apply suffix_zlen.
Qed.
Lemma take_origin_shrinks c o rest : take_origin c = Ok (o, rest) → zlen rest <= zlen c.
Proof.
  intros ([z c'] & Hz%take_byte_shrinks & Ho)%bind_ok. destruct (z =? 1); [simplify_eq; lia|].
  destruct (z =? 2); [simplify_eq; lia|done].
Qed.
Lemma count_fits z n : 0 <= z → z / 5 >= n → n <= z.
Proof. intros Hz Hn. pose proof (Z.div_le_upper_bound z 5 z). lia. Qed.

Lemma decode_record_weight l body r : decode_record l body = Ok r → record_weight (convert r) <= zlen body.
Proof.
  intros ([tag c] & Hb%take_byte_shrinks & ([r' c'] & Hr & Hc)%bind_ok)%bind_ok. case_bool_decide; [|done]. simplify_eq.
  pose proof (zlen_nonneg c). destruct (tag =? 1); [apply bind_ok in Hr as ([mu c1] & _ & [= <- _]); cbn; lia|].
  destruct (tag =? 2).
  { apply bind_ok in Hr as ([a c1] & _ & ([b c2] & _ & ([d c3] & _ & [= <- _])%bind_ok)%bind_ok). cbn. lia. }
  destruct (tag =? 3); [|done].
  apply bind_ok in Hr as ([sq c1] & H1%take_u64_shrinks & ([o c2] & H2%take_origin_shrinks & ([n c3] & H3 & Hl)%bind_ok)%bind_ok).
  pose proof (take_u32_sound _ _ _ H3) as Hn. apply take_u32_shrinks in H3.
  destruct (_ || _) eqn:E; [done|]. apply bind_ok in Hl as ([ms c4] & Hl & [= <- _]). cbn.
  apply (take_loop_length id) in Hl.
  2:{ intros s c5 s' c6 ([mu c7] & _ & [= <- _])%bind_ok. unfold id. rewrite zlen_app. done. }
  unfold id, zlen in Hl. unfold zlen at 1. rewrite length_fmap. cbn in Hl.
  pose proof (count_fits (zlen c3) n ltac:(apply zlen_nonneg) ltac:(lia)). lia.
Qed.
Lemma memory_decode_weight l body r : memory_decode l body = Ok r → record_weight r <= zlen body.
Proof.
  intros ([tag c] & Hb%take_byte_shrinks & ([r' c'] & Hr & Hc)%bind_ok)%bind_ok. case_bool_decide; [|done]. simplify_eq.
  pose proof (zlen_nonneg c). destruct (tag =? 1).
  { apply bind_ok in Hr as ([mu c1] & _ & Hr). destruct mu; simplify_eq; cbn; lia. }
  destruct (tag =? 2).
  { apply bind_ok in Hr as ([a c1] & _ & ([b c2] & _ & ([d c3] & _ & [= <- _])%bind_ok)%bind_ok). cbn. lia. }
  destruct (tag =? 3); [|done].
  apply bind_ok in Hr as ([sq c1] & H1%take_u64_shrinks & ([o c2] & H2%take_origin_shrinks & ([n c3] & H3 & Hl)%bind_ok)%bind_ok).
  apply bind_ok in H3 as ([n' c3'] & Hn & H3). pose proof (take_u32_sound _ _ _ Hn) as Hn'. apply take_u32_shrinks in Hn.
  destruct (_ || _) eqn:E; [done|]. injection H3 as <- <-.
  destruct (n' =? 0); [done|]. apply bind_ok in Hl as ([ms c4] & Hl & [= <- _]). cbn.
  apply (take_loop_length snd) in Hl.
  2:{ intros s c5 s' c6 ([mu c7] & _ & Hx)%bind_ok. case_bool_decide; [done|]. injection Hx as <- <-. cbn. by rewrite zlen_app. }
  unfold zlen in Hl at 2. cbn in Hl.
  pose proof (count_fits (zlen c3') n' ltac:(apply zlen_nonneg) ltac:(lia)). lia.
Qed.

(** A record takes a prefix of the input that pays for its mutations. *)
Lemma profile_read_progress p l input r rest :
  profile_read_record p l input = Ok (MNextRecord r rest) →
  ∃ consumed, input = consumed ++ rest ∧ record_weight r + 12 <= zlen consumed.
Proof.
  assert (∀ body, read_frame l input = Ok (Body body rest) → record_weight r <= zlen body →
            ∃ consumed, input = consumed ++ rest ∧ record_weight r + 12 <= zlen consumed) as Hf.
  { intros body (prefix & -> & Hp)%read_frame_split Hw. exists (prefix ++ body). rewrite <- app_assoc. split; [done|].
    rewrite zlen_app. lia. }
  destruct p; cbn [profile_read_record].
  2:{ unfold memory_read_record. intros ([| |body rest'] & Hb & Hr)%bind_ok; try done.
      apply bind_ok in Hr as (r' & Hd%memory_decode_weight & [= <- <-]). by apply (Hf body). }
  all: intros (next & Hn & Hr)%bind_ok; destruct next as [| |r' rest']; try done; injection Hr as <- <-;
    apply bind_ok in Hn as ([| |body rest''] & Hb & Hn); try done;
    apply bind_ok in Hn as (r'' & Hd%decode_record_weight & [= <- <-]); by apply (Hf body).
Qed.
