(* ===== verification/Protocol.v ===== *)
(** * The replication transport

    Models src/replication/protocol.rs: the messages between two servers, their
    checksummed frames and the handshake.  The three transports share the frame and
    differ in the records they carry; snapshot entries and batches are the records of
    the append-only file. *)

From Stdlib Require Import Strings.Byte Strings.String ZArith Lia.
From S2P Require Import Prelude Float Wire Score Memory Command Store StoreInv StoreSpec Mutation StoreExec Routing Format MemoryFormat Profile.

#[local] Open Scope Z_scope.

(** ** Messages *)

Definition TRANSPORT_VERSION : Z := 1.
Definition MEMORY_VERSION : Z := 2.
Definition COMPOSED_VERSION : Z := 3.
Definition FRAME_MAGIC : bytes := lit "SIDERREP".
Definition FRAME_HEADER_BYTES : Z := 24.
Definition MAX_FRAME_BYTES : Z := MAX_RECORD_BYTES + 128.

Inductive RepError :=
| RepIo
| RepTimeout
| RepLimit
| RepInvalid (what : string)
| RepVersion (version : Z)
| RepRecord (e : FormatError).

Record RepLimits := { max_frame_bytes : Z; record_limits : Limits }.
Definition RepLimits_default : RepLimits := {| max_frame_bytes := MAX_FRAME_BYTES; record_limits := Limits_default |}.
Definition RepLimits_validate (l : RepLimits) : result RepError unit :=
  guard_ok (negb (negb ((FRAME_HEADER_BYTES + 1 <=? max_frame_bytes l) && (max_frame_bytes l <=? MAX_FRAME_BYTES))
                  || (max_record_bytes (record_limits l) =? 0)
                  || (MAX_RECORD_BYTES <? max_record_bytes (record_limits l))
                  || (max_mutations (record_limits l) =? 0))) RepLimit.

(** A position within the epoch of a primary. *)
Record Cursor := { cursor_epoch : bytes; cursor_sequence : Z }.

Record Hello := {
  sider_version : bytes;
  record_version : Z;
  hello_shard_count : Z;
  hello_routing_version : Z;
  hello_max_record_bytes : Z;
  hello_max_mutations : Z;
  max_snapshot_bytes : Z;
  hello_cursor : option Cursor
}.
Record ComposedHello := { hello_base : Hello; aof_header_version : Z; required_capabilities : Z }.

Inductive Reject :=
| IncompatibleVersion | IncompatibleLayout | ResourceLimit | FullRequired | InvalidSequence | RejectUnavailable.

Definition Hello_accepts (receiver source : Hello) : result Reject unit :=
  _ ← guard_ok (bool_decide (sider_version receiver = sider_version source)
                && (record_version receiver =? record_version source)) IncompatibleVersion;
  _ ← guard_ok ((hello_shard_count receiver =? hello_shard_count source)
                && (hello_routing_version receiver =? hello_routing_version source)) IncompatibleLayout;
  guard_ok (negb ((hello_max_record_bytes receiver <? hello_max_record_bytes source)
                  || (hello_max_mutations receiver <? hello_max_mutations source)
                  || (max_snapshot_bytes receiver <? max_snapshot_bytes source))) ResourceLimit.

(** The only profile that transport 3 carries. *)
Definition composed_profile (record header capabilities : Z) : bool :=
  (record =? record_version_number LegacyRecords) && (header =? COMPOSED_HEADER_VERSION)
  && (capabilities =? MIXED_OWNER_BATCH).
Definition ComposedHello_accepts (receiver source : ComposedHello) : result Reject unit :=
  _ ← guard_ok (forallb (λ peer, composed_profile (record_version (hello_base peer)) (aof_header_version peer)
                                   (required_capabilities peer)) [receiver; source]) IncompatibleVersion;
  _ ← Hello_accepts (hello_base receiver) (hello_base source);
  guard_ok ((aof_header_version receiver =? aof_header_version source)
            && (required_capabilities receiver =? required_capabilities source)) IncompatibleVersion.

Inductive Message :=
| MsgHello (hello : Hello)
| MsgComposedHello (hello : ComposedHello)
| MsgExport (version : bytes) (max_record max_snapshot : Z)
| MsgMemoryExport (version : bytes) (record max_record max_snapshot : Z)
| MsgComposedExport (version : bytes) (record header capabilities max_record max_snapshot : Z)
| MsgMemorySnapshotEntry (mu : MMutation)
| MsgMemoryBatch (sequence : Z) (o : MutationOrigin) (ms : list MMutation)
| MsgContinue (cursor : Cursor)
| MsgFullStart (cursor : Cursor) (entries : Z)
| MsgSnapshotEntry (mu : Mutation)
| MsgFullEnd (cursor : Cursor) (entries digest : Z)
| MsgBatch (sequence : Z) (batch : ResolvedBatch)
| MsgAck (cursor : Cursor)
| MsgHeartbeat (cursor : Cursor)
| MsgReject (reason : Reject)
| MsgStatusRequest
| MsgPromote
| MsgPromoted (cursor : Cursor)
| MsgStatus (readonly : bool) (cursor : Cursor) (upstream_sequence : option Z) (connected : bool)
    (backlog_bytes full_syncs partial_syncs : Z).

(** ** Encoding *)

Definition write_cursor (c : Cursor) : bytes := cursor_epoch c ++ u64_le (cursor_sequence c).
Definition bool_byte (b : bool) : byte := if b then x01 else x00.
Definition is_ascii_graphic (b : byte) : bool := (33 <=? bz b) && (bz b <=? 126).
(** A version text: one to 32 graphic characters, written after its length. *)
Definition version_ok (v : bytes) : bool := (1 <=? zlen v) && (zlen v <=? 32) && forallb is_ascii_graphic v.
Definition short_blob (v : bytes) : bytes := zb (zlen v) :: v.

Definition encode_hello (h : Hello) : result RepError bytes :=
  _ ← guard_ok (version_ok (sider_version h) && negb (hello_shard_count h =? 0) && negb (hello_routing_version h =? 0)
                && negb (record_version h =? 0) && negb (hello_max_record_bytes h =? 0)
                && negb (hello_max_mutations h =? 0) && negb (max_snapshot_bytes h =? 0)) (RepInvalid "handshake");
  Ok (short_blob (sider_version h) ++ u32_le (record_version h) ++ u32_le (hello_shard_count h)
      ++ u32_le (hello_routing_version h) ++ u32_le (hello_max_record_bytes h) ++ u32_le (hello_max_mutations h)
      ++ u64_le (max_snapshot_bytes h)
      ++ match hello_cursor h with Some c => x01 :: write_cursor c | None => [x00] end).

Definition reject_byte (r : Reject) : byte :=
  match r with
  | IncompatibleVersion => x01 | IncompatibleLayout => x02 | ResourceLimit => x03
  | FullRequired => x04 | InvalidSequence => x05 | RejectUnavailable => x06
  end.

(** The budget of a record inside a frame. *)
Definition frame_record_limits (l : RepLimits) : Limits :=
  {| max_record_bytes := Z.min (max_record_bytes (record_limits l)) (Z.max 0 (max_frame_bytes l - (FRAME_HEADER_BYTES + 12)));
     max_mutations := max_mutations (record_limits l) |}.

(** An entry of a snapshot is an image. *)
Definition is_image (mu : MMutation) : bool :=
  match mu with Image _ _ _ | Legacy (Put _ _ _) => true | _ => false end.
Definition is_put (mu : Mutation) : bool := match mu with Put _ _ _ => true | Delete _ => false end.

Definition encode_body (m : Message) (l : Limits) (version : Z) : result RepError (Z * bytes) :=
  match m with
  | MsgMemorySnapshotEntry mu =>
      if is_image mu && (version =? MEMORY_VERSION)
      then body ← map_err RepRecord (memory_encode (MSnapshot mu) l); Ok (4, body)
      else Err (RepInvalid "record-2 message requires transport 2")
  | MsgMemoryBatch sequence o ms =>
      if version =? MEMORY_VERSION
      then body ← map_err RepRecord (memory_encode (MBatch sequence o ms) l); Ok (6, body)
      else Err (RepInvalid "record-2 message requires transport 2")
  | MsgMemoryExport v record max_record max_snapshot =>
      if version =? MEMORY_VERSION
      then _ ← guard_ok (version_ok v && (record =? RECORD_VERSION) && negb (max_record =? 0) && negb (max_snapshot =? 0))
                 (RepInvalid "export request");
           Ok (10, short_blob v ++ u32_le record ++ u32_le max_record ++ u64_le max_snapshot)
      else Err (RepInvalid "record-2 message requires transport 2")
  | MsgComposedExport v record header capabilities max_record max_snapshot =>
      if version =? COMPOSED_VERSION
      then _ ← guard_ok (version_ok v && composed_profile record header capabilities && negb (max_record =? 0)
                         && negb (max_snapshot =? 0)) (RepInvalid "composed export request");
           Ok (10, short_blob v ++ u32_le record ++ u32_le header ++ u32_le capabilities ++ u32_le max_record
                   ++ u64_le max_snapshot)
      else Err (RepInvalid "composed export requires transport 3")
  | MsgComposedHello h =>
      if version =? COMPOSED_VERSION
      then _ ← guard_ok (composed_profile (record_version (hello_base h)) (aof_header_version h) (required_capabilities h))
                 (RepInvalid "composed profile");
           body ← encode_hello (hello_base h);
           Ok (1, body ++ u32_le (aof_header_version h) ++ u32_le (required_capabilities h))
      else Err (RepInvalid "composed hello requires transport 3")
  | MsgHello h =>
      if negb (version =? COMPOSED_VERSION)
      then _ ← guard_ok (negb ((version =? MEMORY_VERSION) && negb (record_version h =? RECORD_VERSION)))
                 (RepInvalid "record version");
           body ← encode_hello h; Ok (1, body)
      else Err (RepInvalid "transport 3 requires composed hello")
  | MsgContinue c => Ok (2, write_cursor c)
  | MsgFullStart c entries => Ok (3, write_cursor c ++ u64_le entries)
  | MsgSnapshotEntry mu =>
      if is_put mu && negb (version =? MEMORY_VERSION)
      then body ← map_err RepRecord (encode_record (Snapshot mu) l); Ok (4, body)
      else Err (RepInvalid "removal within snapshot")
  | MsgFullEnd c entries digest => Ok (5, write_cursor c ++ u64_le entries ++ u32_le digest)
  | MsgBatch sequence batch =>
      if negb (version =? MEMORY_VERSION)
      then body ← map_err RepRecord (encode_record (Batch sequence batch) l); Ok (6, body)
      else Err (RepInvalid "legacy batch requires transport 1 or 3")
  | MsgAck c => Ok (7, write_cursor c)
  | MsgHeartbeat c => Ok (8, write_cursor c)
  | MsgReject r => Ok (9, [reject_byte r])
  | MsgExport v max_record max_snapshot =>
      if negb (version =? TRANSPORT_VERSION) then Err (RepInvalid "legacy export requires transport 1")
      else _ ← guard_ok (version_ok v && negb (max_record =? 0) && negb (max_snapshot =? 0)) (RepInvalid "export request");
           Ok (10, short_blob v ++ u32_le max_record ++ u64_le max_snapshot)
  | MsgStatusRequest => Ok (11, [x00])
  | MsgPromote => Ok (12, [x00])
  | MsgPromoted c => Ok (13, write_cursor c)
  | MsgStatus readonly c upstream connected backlog full partial =>
      Ok (14, bool_byte readonly :: write_cursor c
              ++ bool_byte (bool_decide (is_Some upstream)) :: u64_le (default 0 upstream)
              ++ bool_byte connected :: u64_le backlog ++ u64_le full ++ u64_le partial)
  end.

(** The first twenty bytes of a frame, then the digest of them and of the body. *)
Definition frame_prefix (version kind size : Z) : bytes :=
  FRAME_MAGIC ++ le_bytes 2 version ++ [zb kind; x00] ++ u32_le size ++ u32_le (u32_not size).
Definition encode_profile (m : Message) (l : RepLimits) (version : Z) : result RepError bytes :=
  _ ← RepLimits_validate l;
  '(kind, body) ← encode_body m (frame_record_limits l) version;
  size ← ok_or RepLimit (u_add (zlen body) FRAME_HEADER_BYTES);
  if (max_frame_bytes l <? size) || (U32_MAX <? zlen body) then Err RepLimit
  else let prefix := frame_prefix version kind (zlen body) in
       Ok (prefix ++ u32_le (snapshot_digest (checksum prefix) body) ++ body).
Definition rep_encode (m : Message) (l : RepLimits) : result RepError bytes := encode_profile m l TRANSPORT_VERSION.
Definition rep_encode_memory (m : Message) (l : RepLimits) : result RepError bytes := encode_profile m l MEMORY_VERSION.
Definition rep_encode_composed (m : Message) (l : RepLimits) : result RepError bytes := encode_profile m l COMPOSED_VERSION.

(** ** Decoding *)

(** The lengths a kind may have. *)
Definition kind_size_ok (kind len expected_version : Z) : bool :=
  if kind =? 1 then len <=? (if expected_version =? COMPOSED_VERSION then 94 else 86)
  else if (kind =? 2) || (kind =? 7) || (kind =? 8) then len =? 24
  else if kind =? 3 then len =? 32
  else if kind =? 5 then len =? 36
  else if kind =? 9 then len =? 1
  else if kind =? 10 then
    len <=? (if expected_version =? COMPOSED_VERSION then 57 else if expected_version =? MEMORY_VERSION then 49 else 45)
  else if (kind =? 11) || (kind =? 12) then len =? 1
  else if kind =? 13 then len =? 24
  else if kind =? 14 then len =? 59
  else true.

(** The checks of [header], which precede the allocation of the body. *)
Definition frame_header (h : bytes) (l : RepLimits) (expected_version : Z) : result RepError (Z * Z) :=
  _ ← RepLimits_validate l;
  _ ← guard_ok ((zlen h =? FRAME_HEADER_BYTES) && bool_decide (byte_range 0 8 h = FRAME_MAGIC)
                && bool_decide (byte_range 11 12 h = [x00])) (RepInvalid "header");
  let version := le_value (byte_range 8 10 h) in
  if negb (version =? expected_version) then Err (RepVersion version)
  else
    let kind := le_value (byte_range 10 11 h) in
    _ ← guard_ok ((1 <=? kind) && (kind <=? 14)) (RepInvalid "message type");
    let len := le_value (byte_range 12 16 h) in
    _ ← guard_ok (u32_not len =? le_value (byte_range 16 20 h)) (RepInvalid "length");
    _ ← guard_ok (negb ((len =? 0) || (max_frame_bytes l - FRAME_HEADER_BYTES <? len))) RepLimit;
    _ ← guard_ok (kind_size_ok kind len expected_version) (RepInvalid "message type length");
    Ok (kind, len).

Definition payload_error {A} (r : result FormatError A) : result RepError A :=
  map_err (λ _, RepInvalid "incomplete payload") r.
Definition fields_take (n : Z) (c : bytes) : result RepError (bytes * bytes) := payload_error (take_bytes n c).
Definition fields_byte (c : bytes) : result RepError (Z * bytes) := payload_error (take_byte c).
Definition fields_u32 (c : bytes) : result RepError (Z * bytes) := payload_error (take_u32 c).
Definition fields_u64 (c : bytes) : result RepError (Z * bytes) := payload_error (take_u64 c).
Definition fields_boolean (c : bytes) : result RepError (bool * bytes) :=
  '(b, c) ← fields_byte c;
  if b =? 0 then Ok (false, c) else if b =? 1 then Ok (true, c) else Err (RepInvalid "boolean flag").
Definition fields_cursor (c : bytes) : result RepError (Cursor * bytes) :=
  '(epoch, c) ← fields_take 16 c;
  '(sequence, c) ← fields_u64 c;
  Ok ({| cursor_epoch := epoch; cursor_sequence := sequence |}, c).

Definition fields_hello (c : bytes) : result RepError (Hello * bytes) :=
  '(size, c) ← fields_byte c;
  '(version, c) ← fields_take size c;
  '(record, c) ← fields_u32 c;
  '(shards, c) ← fields_u32 c;
  '(routing, c) ← fields_u32 c;
  '(max_record, c) ← fields_u32 c;
  '(max_mutations, c) ← fields_u32 c;
  '(max_snapshot, c) ← fields_u64 c;
  '(flag, c) ← fields_byte c;
  '(cursor, c) ← (if flag =? 0 then Ok (None, c)
                  else if flag =? 1 then '(cursor, c) ← fields_cursor c; Ok (Some cursor, c)
                  else Err (RepInvalid "cursor flag"));
  Ok ({| sider_version := version; record_version := record; hello_shard_count := shards;
         hello_routing_version := routing; hello_max_record_bytes := max_record; hello_max_mutations := max_mutations;
         max_snapshot_bytes := max_snapshot; hello_cursor := cursor |}, c).

Definition reject_of (z : Z) : option Reject :=
  if z =? 1 then Some IncompatibleVersion else if z =? 2 then Some IncompatibleLayout
  else if z =? 3 then Some ResourceLimit else if z =? 4 then Some FullRequired
  else if z =? 5 then Some InvalidSequence else if z =? 6 then Some RejectUnavailable else None.

Definition fields_status (c : bytes) : result RepError (Message * bytes) :=
  '(readonly, c) ← fields_boolean c;
  '(cursor, c) ← fields_cursor c;
  '(has_upstream, c) ← fields_boolean c;
  '(sequence, c) ← fields_u64 c;
  _ ← guard_ok (negb (negb has_upstream && negb (sequence =? 0))) (RepInvalid "missing upstream position");
  '(connected, c) ← fields_boolean c;
  '(backlog, c) ← fields_u64 c;
  '(full, c) ← fields_u64 c;
  '(partial, c) ← fields_u64 c;
  Ok (MsgStatus readonly cursor (if (has_upstream : bool) then Some sequence else None) connected backlog full partial, c).

(** A hello or an export request, before it is checked by encoding it again. *)
Definition fields_request (kind version : Z) (c : bytes) : result RepError (Message * bytes) :=
  if kind =? 1 then
    '(hello, c) ← fields_hello c;
    if version =? COMPOSED_VERSION then
      '(header, c) ← fields_u32 c;
      '(capabilities, c) ← fields_u32 c;
      Ok (MsgComposedHello {| hello_base := hello; aof_header_version := header; required_capabilities := capabilities |}, c)
    else Ok (MsgHello hello, c)
  else
    '(length, c) ← fields_byte c;
    '(v, c) ← fields_take length c;
    if version =? COMPOSED_VERSION then
      '(record, c) ← fields_u32 c;
      '(header, c) ← fields_u32 c;
      '(capabilities, c) ← fields_u32 c;
      '(max_record, c) ← fields_u32 c;
      '(max_snapshot, c) ← fields_u64 c;
      Ok (MsgComposedExport v record header capabilities max_record max_snapshot, c)
    else if version =? MEMORY_VERSION then
      '(record, c) ← fields_u32 c;
      '(max_record, c) ← fields_u32 c;
      '(max_snapshot, c) ← fields_u64 c;
      Ok (MsgMemoryExport v record max_record max_snapshot, c)
    else
      '(max_record, c) ← fields_u32 c;
      '(max_snapshot, c) ← fields_u64 c;
      Ok (MsgExport v max_record max_snapshot, c).

Definition decode_fields (kind : Z) (body : bytes) (l : RepLimits) (version : Z) : result RepError (Message * bytes) :=
  if (kind =? 1) || (kind =? 10) then
    '(m, c) ← fields_request kind version body;
    _ ← encode_profile m l version;
    Ok (m, c)
  else if kind =? 2 then '(cursor, c) ← fields_cursor body; Ok (MsgContinue cursor, c)
  else if kind =? 3 then
    '(cursor, c) ← fields_cursor body; '(entries, c) ← fields_u64 c; Ok (MsgFullStart cursor entries, c)
  else if kind =? 5 then
    '(cursor, c) ← fields_cursor body; '(entries, c) ← fields_u64 c; '(digest, c) ← fields_u32 c;
    Ok (MsgFullEnd cursor entries digest, c)
  else if kind =? 7 then '(cursor, c) ← fields_cursor body; Ok (MsgAck cursor, c)
  else if kind =? 8 then '(cursor, c) ← fields_cursor body; Ok (MsgHeartbeat cursor, c)
  else if kind =? 9 then
    '(b, c) ← fields_byte body; r ← ok_or (RepInvalid "rejection reason") (reject_of b); Ok (MsgReject r, c)
  else if (kind =? 11) || (kind =? 12) then
    '(b, c) ← fields_byte body;
    _ ← guard_ok (b =? 0) (RepInvalid "administrative request");
    Ok (if kind =? 11 then MsgStatusRequest else MsgPromote, c)
  else if kind =? 13 then '(cursor, c) ← fields_cursor body; Ok (MsgPromoted cursor, c)
  else if kind =? 14 then fields_status body
  else Err (RepInvalid "message type").

(** A snapshot entry or a batch: one record of the append-only file. *)
Definition decode_data (kind : Z) (body : bytes) (l : RepLimits) (version : Z) : result RepError Message :=
  _ ← guard_ok ((12 <=? zlen body) && (le_value (take 4 body) =? zlen body - 12)) (RepInvalid "record length");
  if version =? MEMORY_VERSION then
    next ← map_err RepRecord (memory_read_record (record_limits l) body);
    match next with
    | MNextRecord r rest =>
        _ ← guard_ok (bool_decide (rest = [])) (RepInvalid "bytes after record");
        match r with
        | MSnapshot mu =>
            if (kind =? 4) && is_image mu then Ok (MsgMemorySnapshotEntry mu) else Err (RepInvalid "incompatible record")
        | MBatch sequence o ms =>
            if kind =? 6 then Ok (MsgMemoryBatch sequence o ms) else Err (RepInvalid "incompatible record")
        | MSeal _ _ _ => Err (RepInvalid "incompatible record")
        end
    | _ => Err (RepInvalid "incomplete record")
    end
  else
    next ← map_err RepRecord (read_record (record_limits l) body);
    match next with
    | NextRecord r rest =>
        _ ← guard_ok (bool_decide (rest = [])) (RepInvalid "bytes after record");
        match r with
        | Snapshot mu =>
            if (kind =? 4) && is_put mu then Ok (MsgSnapshotEntry mu)
            else Err (RepInvalid "incompatible or incomplete record")
        | Batch sequence batch =>
            if kind =? 6 then Ok (MsgBatch sequence batch) else Err (RepInvalid "incompatible or incomplete record")
        | Seal _ _ _ => Err (RepInvalid "incompatible or incomplete record")
        end
    | _ => Err (RepInvalid "incompatible or incomplete record")
    end.

Definition decode_profile (frame : bytes) (l : RepLimits) (version : Z) : result RepError Message :=
  _ ← guard_ok (FRAME_HEADER_BYTES <=? zlen frame) (RepInvalid "incomplete header");
  '(kind, len) ← frame_header (byte_range 0 24 frame) l version;
  _ ← guard_ok (zlen frame =? FRAME_HEADER_BYTES + len) (RepInvalid "payload length");
  let body := drop 24 frame in
  _ ← guard_ok (snapshot_digest (checksum (byte_range 0 20 frame)) body =? le_value (byte_range 20 24 frame))
        (RepInvalid "checksum");
  if (kind =? 4) || (kind =? 6) then decode_data kind body l version
  else
    '(m, rest) ← decode_fields kind body l version;
    _ ← guard_ok (bool_decide (rest = [])) (RepInvalid "bytes after message");
    Ok m.
Definition rep_decode (frame : bytes) (l : RepLimits) : result RepError Message := decode_profile frame l TRANSPORT_VERSION.
Definition rep_decode_memory (frame : bytes) (l : RepLimits) : result RepError Message := decode_profile frame l MEMORY_VERSION.
Definition rep_decode_composed (frame : bytes) (l : RepLimits) : result RepError Message :=
  decode_profile frame l COMPOSED_VERSION.

(** Reads one frame from a stream: the checked header, the admission of its kind, then
    the body.  Returns the frame, the message and the admission with what follows. *)
Definition read_admitted_profile {A} (input : bytes) (l : RepLimits) (admits : Z → result RepError A) (version : Z)
    : result RepError (bytes * Message * A * bytes) :=
  _ ← RepLimits_validate l;
  '(prefix, input) ← ok_or RepIo (read_exact FRAME_HEADER_BYTES input);
  '(kind, size) ← frame_header prefix l version;
  admission ← admits kind;
  '(body, rest) ← ok_or RepIo (read_exact size input);
  m ← decode_profile (prefix ++ body) l version;
  Ok (prefix ++ body, m, admission, rest).
Definition read_authorized_profile (input : bytes) (l : RepLimits) (authorize_kind : Z → bool) (version : Z)
    : result RepError (bytes * Message * bytes) :=
  '(frame, m, _, rest) ←
    read_admitted_profile input l (λ kind, if authorize_kind kind then Ok tt else Err (RepInvalid "permission denied")) version;
  Ok (frame, m, rest).

(** ** Round trip *)

(** The machine ranges of the fields. *)
Definition u32_range (z : Z) : Prop := 0 <= z <= U32_MAX.
Definition u64_range (z : Z) : Prop := 0 <= z < 2 ^ 64.
Definition cursor_ok (c : Cursor) : Prop := length (cursor_epoch c) = 16%nat ∧ u64_range (cursor_sequence c).
Definition hello_ok (h : Hello) : Prop :=
  u32_range (record_version h) ∧ u32_range (hello_shard_count h) ∧ u32_range (hello_routing_version h) ∧
  u32_range (hello_max_record_bytes h) ∧ u32_range (hello_max_mutations h) ∧ u64_range (max_snapshot_bytes h) ∧
  match hello_cursor h with Some c => cursor_ok c | None => True end.
Definition message_ok (m : Message) : Prop :=
  match m with
  | MsgHello h => hello_ok h
  | MsgComposedHello h =>
      hello_ok (hello_base h) ∧ u32_range (aof_header_version h) ∧ u32_range (required_capabilities h)
  | MsgExport _ a b => u32_range a ∧ u64_range b
  | MsgMemoryExport _ r a b => u32_range r ∧ u32_range a ∧ u64_range b
  | MsgComposedExport _ r h c a b => u32_range r ∧ u32_range h ∧ u32_range c ∧ u32_range a ∧ u64_range b
  | MsgMemorySnapshotEntry mu => mmutation_ok mu
  | MsgMemoryBatch sequence _ ms => u64_range sequence ∧ Forall mmutation_ok ms
  | MsgSnapshotEntry mu => mutation_ok mu
  | MsgBatch sequence batch => u64_range sequence ∧ Forall mutation_ok (mutations batch)
  | MsgContinue c | MsgAck c | MsgHeartbeat c | MsgPromoted c => cursor_ok c
  | MsgFullStart c n => cursor_ok c ∧ u64_range n
  | MsgFullEnd c n d => cursor_ok c ∧ u64_range n ∧ u32_range d
  | MsgStatus _ c u _ a b d =>
      cursor_ok c ∧ match u with Some s => u64_range s | None => True end ∧ u64_range a ∧ u64_range b ∧ u64_range d
  | MsgReject _ | MsgStatusRequest | MsgPromote => True
  end.

Lemma fields_take_app s rest : fields_take (zlen s) (s ++ rest) = Ok (s, rest).
Proof. unfold fields_take. by rewrite take_bytes_app. Qed.
Lemma fields_byte_app b rest : fields_byte (b :: rest) = Ok (bz b, rest).
Proof. unfold fields_byte. by rewrite take_byte_app. Qed.
Lemma fields_u32_app z rest : u32_range z → fields_u32 (u32_le z ++ rest) = Ok (z, rest).
Proof. intros. unfold fields_u32. by rewrite take_u32_app. Qed.
Lemma fields_u64_app z rest : u64_range z → fields_u64 (u64_le z ++ rest) = Ok (z, rest).
Proof. intros. unfold fields_u64. by rewrite take_u64_app. Qed.
Lemma fields_boolean_app b rest : fields_boolean (bool_byte b :: rest) = Ok (b, rest).
Proof. unfold fields_boolean. rewrite fields_byte_app. by destruct b. Qed.
Lemma fields_cursor_app c rest : cursor_ok c → fields_cursor (write_cursor c ++ rest) = Ok (c, rest).
Proof.
  intros [He Hs]. unfold fields_cursor, write_cursor. rewrite <- app_assoc.
  assert (zlen (cursor_epoch c) = 16) as <- by (unfold zlen; lia).
  rewrite fields_take_app. cbn [mbind result_bind]. rewrite fields_u64_app by done. by destruct c.
Qed.
Lemma short_blob_app v rest :
  version_ok v = true →
  ∃ n, short_blob v ++ rest = n :: v ++ rest ∧ bz n = zlen v ∧ zlen v <= 32.
Proof.
  intros Hv. unfold version_ok in Hv. exists (zb (zlen v)). split; [done|].
  rewrite bz_zb, Z.mod_small; lia.
Qed.

(** One field after the other. *)
Ltac next_field :=
  first [ rewrite fields_u32_app by done | rewrite fields_u64_app by done | rewrite fields_boolean_app
        | rewrite fields_cursor_app by done | rewrite fields_byte_app | rewrite fields_take_app ];
  cbn [mbind result_bind].

Lemma fields_hello_app h body rest :
  hello_ok h → encode_hello h = Ok body → fields_hello (body ++ rest) = Ok (h, rest) ∧ zlen body <= 86 ∧ 1 <= zlen body.
Proof.
  unfold encode_hello. intros (H1 & H2 & H3 & H4 & H5 & H6 & H7) ([] & Hg%guard_ok_ok & <-%Ok_inj)%bind_ok.
  assert (version_ok (sider_version h) = true) as Hv by (destruct (version_ok _); done).
  split.
  - rewrite <- !app_assoc. destruct (short_blob_app (sider_version h) (u32_le (record_version h) ++ u32_le (hello_shard_count h)
      ++ u32_le (hello_routing_version h) ++ u32_le (hello_max_record_bytes h) ++ u32_le (hello_max_mutations h)
      ++ u64_le (max_snapshot_bytes h)
      ++ match hello_cursor h with Some c => x01 :: write_cursor c | None => [x00] end ++ rest) Hv) as (n & -> & Hn & _).
    unfold fields_hello. next_field. rewrite Hn. do 7 next_field.
    destruct (hello_cursor h) as [c|] eqn:Ec; cbn [app]; next_field; cbn [Z.eqb].
    + change (bz x01 =? 0) with false. change (bz x01 =? 1) with true. cbv iota. next_field. destruct h; cbn in *; by subst.
    + change (bz x00 =? 0) with true. cbv iota. cbn [mbind result_bind]. destruct h; cbn in *; by subst.
  - assert (zlen (match hello_cursor h with Some c => x01 :: write_cursor c | None => [x00] end) <= 25).
    { destruct (hello_cursor h) as [c|]; [|done]. destruct H7 as [He _]. unfold write_cursor. rewrite zlen_cons, zlen_app.
      unfold u64_le. rewrite le_bytes_zlen. unfold zlen. lia. }
    unfold version_ok in Hv. unfold short_blob, u32_le, u64_le. rewrite !zlen_app, zlen_cons, !le_bytes_zlen.
    pose proof (zlen_nonneg (match hello_cursor h with Some c => x01 :: write_cursor c | None => [x00] end)). lia.
Qed.

(** A record that fits a smaller budget is encoded the same in a larger one. *)
Lemma encode_record_mono r l l' enc :
  max_mutations l = max_mutations l' → max_record_bytes l <= max_record_bytes l' →
  encode_record r l = Ok enc → encode_record r l' = Ok enc.
Proof.
  unfold encode_record. intros Hm Hb (size & Hs & He)%bind_ok.
  assert (record_size r l' = Ok size) as -> by (unfold record_size in *; by rewrite <- Hm).
  cbn [mbind result_bind]. destruct ((max_record_bytes l <? size) || (MAX_RECORD_BYTES <? size)) eqn:E; [done|].
  destruct ((max_record_bytes l' <? size) || (MAX_RECORD_BYTES <? size)) eqn:E'; [lia|done].
Qed.
Lemma memory_encode_mono r l l' enc :
  max_mutations l = max_mutations l' → max_record_bytes l <= max_record_bytes l' →
  memory_encode r l = Ok enc → memory_encode r l' = Ok enc.
Proof.
  unfold memory_encode. intros Hm Hb (size & Hs & He)%bind_ok.
  assert (memory_record_size r l' = Ok size) as -> by (unfold memory_record_size in *; by rewrite <- Hm).
  cbn [mbind result_bind]. destruct ((max_record_bytes l <? size) || (MAX_RECORD_BYTES <? size)) eqn:E; [done|].
  destruct ((max_record_bytes l' <? size) || (MAX_RECORD_BYTES <? size)) eqn:E'; [lia|done].
Qed.

Lemma frame_start size body : 0 <= size <= U32_MAX → le_value (take 4 (frame size body)) = size.
Proof.
  intros Hs. change (take 4 (frame size body)) with (u32_le size). apply le_value_bytes.
  change (256 ^ Z.of_nat 4) with (2 ^ 32). unfold U32_MAX in Hs. lia.
Qed.

Lemma data_guard body size enc :
  enc = frame size body → size = zlen body → 0 <= size <= U32_MAX →
  (12 <=? zlen enc) && (le_value (take 4 enc) =? zlen enc - 12) = true.
Proof.
  intros -> Hs Hr. rewrite frame_start, frame_zlen by done. pose proof (zlen_nonneg body). lia.
Qed.

Lemma size_ok_u32 l size : size_ok l size → 0 <= size <= U32_MAX.
Proof. unfold size_ok, MAX_RECORD_BYTES, U32_MAX. lia. Qed.

Lemma decode_legacy_data r l version kind body m :
  record_ok r → version ≠ MEMORY_VERSION →
  encode_record r (frame_record_limits l) = Ok body →
  match r with
  | Snapshot mu => kind = 4 ∧ is_put mu = true ∧ m = MsgSnapshotEntry mu
  | Batch sequence batch => kind = 6 ∧ m = MsgBatch sequence batch
  | Seal _ _ _ => False
  end →
  decode_data kind body l version = Ok m ∧ 12 < zlen body.
Proof.
  intros Hr Hv He Hm. apply (encode_record_mono _ _ (record_limits l)) in He; [|done|cbn; lia].
  apply encode_record_ok in He as (size & b & Hs & Hb & Eb & Hsz & Hok).
  pose proof (size_ok_u32 _ _ Hok) as Hu. split.
  2:{ rewrite Eb, frame_zlen. unfold size_ok in Hok. lia. }
  unfold decode_data. rewrite (data_guard b size body) by done. cbn [guard_ok mbind result_bind].
  rewrite (proj2 (Z.eqb_neq _ _) Hv). unfold read_record. rewrite Eb, <- (app_nil_r (frame size b)).
  rewrite read_frame_ok by done. cbn [mbind result_bind map_err].
  rewrite (decode_record_ok r _ size b) by done. cbn [mbind result_bind map_err].
  destruct r as [mu| |sequence batch]; [destruct Hm as (-> & Hp & ->)|done|destruct Hm as (-> & ->)]; cbn.
  - by rewrite Hp.
  - done.
Qed.

Lemma decode_memory_data r l kind body m :
  mrecord_ok r →
  memory_encode r (frame_record_limits l) = Ok body →
  match r with
  | MSnapshot mu => kind = 4 ∧ is_image mu = true ∧ m = MsgMemorySnapshotEntry mu
  | MBatch sequence o ms => kind = 6 ∧ m = MsgMemoryBatch sequence o ms
  | MSeal _ _ _ => False
  end →
  decode_data kind body l MEMORY_VERSION = Ok m ∧ 12 < zlen body.
Proof.
  intros Hr He Hm. apply (memory_encode_mono _ _ (record_limits l)) in He; [|done|cbn; lia].
  apply memory_encode_ok in He as (size & b & Eb & Hsz & Hok & Hd); [|done].
  pose proof (size_ok_u32 _ _ Hok) as Hu. split.
  2:{ rewrite Eb, frame_zlen. unfold size_ok in Hok. lia. }
  unfold decode_data. rewrite (data_guard b size body) by done. cbn [guard_ok mbind result_bind].
  rewrite Z.eqb_refl. unfold memory_read_record. rewrite Eb, <- (app_nil_r (frame size b)).
  rewrite read_frame_ok by done. cbn [mbind result_bind map_err].
  rewrite Hd. cbn [mbind result_bind map_err].
  destruct r as [mu| |sequence o ms]; [destruct Hm as (-> & Hp & ->)|done|destruct Hm as (-> & ->)]; cbn.
  - by rewrite Hp.
  - done.
Qed.

Lemma cursor_zlen c : cursor_ok c → zlen (write_cursor c) = 24.
Proof. intros [He _]. unfold write_cursor, u64_le. rewrite zlen_app, le_bytes_zlen. unfold zlen. lia. Qed.
Lemma version_zlen v : version_ok v = true → zlen (short_blob v) = 1 + zlen v ∧ 1 <= zlen v <= 32.
Proof. unfold version_ok, short_blob. rewrite zlen_cons. intros. lia. Qed.
Lemma fields_u32_end z : u32_range z → fields_u32 (u32_le z) = Ok (z, []).
Proof. intros. rewrite <- (app_nil_r (u32_le z)). by apply fields_u32_app. Qed.
Lemma fields_u64_end z : u64_range z → fields_u64 (u64_le z) = Ok (z, []).
Proof. intros. rewrite <- (app_nil_r (u64_le z)). by apply fields_u64_app. Qed.
Lemma fields_cursor_end c : cursor_ok c → fields_cursor (write_cursor c) = Ok (c, []).
Proof. intros. rewrite <- (app_nil_r (write_cursor c)). by apply fields_cursor_app. Qed.

(** What a body owes to its frame and to the decoder. *)
Definition body_ok (m : Message) (l : RepLimits) (version kind : Z) (body : bytes) : Prop :=
  1 <= kind <= 14 ∧ 1 <= zlen body ∧ kind_size_ok kind (zlen body) version = true ∧
  if (kind =? 4) || (kind =? 6) then decode_data kind body l version = Ok m
  else decode_fields kind body l version = Ok (m, []).

Lemma data_body_ok m l version kind body :
  kind = 4 ∨ kind = 6 → decode_data kind body l version = Ok m ∧ 12 < zlen body → body_ok m l version kind body.
Proof.
  intros Hk [Hd Hz]. split; [lia|]. split; [lia|]. by destruct Hk as [->| ->].
Qed.

Lemma plain_body_ok m l version kind body n :
  zlen body = n → 1 <= n → 1 <= kind <= 14 → kind_size_ok kind n version = true → kind ≠ 4 → kind ≠ 6 →
  decode_fields kind body l version = Ok (m, []) → body_ok m l version kind body.
Proof.
  intros <- Hn Hk Hs H4 H6 Hd. split_and!; try done; try lia.
  by rewrite (proj2 (Z.eqb_neq _ _) H4), (proj2 (Z.eqb_neq _ _) H6).
Qed.

Ltac last_field :=
  first [ rewrite fields_u32_end by done | rewrite fields_u64_end by done | rewrite fields_cursor_end by done | next_field ];
  cbn [mbind result_bind].
Ltac body_length :=
  unfold u64_le, u32_le; rewrite ?zlen_cons, ?zlen_app, ?zlen_cons, ?zlen_app, ?zlen_cons, ?zlen_app, ?cursor_zlen, ?le_bytes_zlen by done;
  try reflexivity.

Definition is_plain_message (m : Message) : bool :=
  match m with
  | MsgContinue _ | MsgFullStart _ _ | MsgFullEnd _ _ _ | MsgAck _ | MsgHeartbeat _ | MsgReject _ | MsgStatusRequest
  | MsgPromote | MsgPromoted _ | MsgStatus _ _ _ _ _ _ _ => true
  | _ => false
  end.

Lemma plain_message_ok m l version kind body :
  is_plain_message m = true → message_ok m → encode_body m (frame_record_limits l) version = Ok (kind, body) →
  body_ok m l version kind body.
Proof.
  intros Hp Hm He. destruct m; try done; cbn [encode_body] in He; apply Ok_inj, pair_equal_spec in He as [<- <-]; cbn [message_ok] in Hm.
  - apply (plain_body_ok _ _ _ _ _ 24); try done; [body_length|]. unfold decode_fields. cbn [Z.eqb orb Pos.eqb]. by last_field.
  - destruct Hm as [Hc Hn]. apply (plain_body_ok _ _ _ _ _ 32); try done; [body_length|].
    unfold decode_fields. cbn [Z.eqb orb Pos.eqb]. next_field. by last_field.
  - destruct Hm as (Hc & Hn & Hd). apply (plain_body_ok _ _ _ _ _ 36); try done; [body_length|].
    unfold decode_fields. cbn [Z.eqb orb Pos.eqb]. do 2 next_field. by last_field.
  - apply (plain_body_ok _ _ _ _ _ 24); try done; [body_length|]. unfold decode_fields. cbn [Z.eqb orb Pos.eqb]. by last_field.
  - apply (plain_body_ok _ _ _ _ _ 24); try done; [body_length|]. unfold decode_fields. cbn [Z.eqb orb Pos.eqb]. by last_field.
  - by destruct reason.
  - done.
  - done.
  - apply (plain_body_ok _ _ _ _ _ 24); try done; [body_length|]. unfold decode_fields. cbn [Z.eqb orb Pos.eqb]. by last_field.
  - destruct Hm as (Hc & Hu & Ha & Hb & Hd). apply (plain_body_ok _ _ _ _ _ 59); try done; [body_length|].
    unfold decode_fields. cbn [Z.eqb orb Pos.eqb]. unfold fields_status. do 2 next_field.
    destruct upstream_sequence as [u|]; [rewrite bool_decide_eq_true_2 by done|rewrite bool_decide_eq_false_2 by (by intros [])];
      cbn [default from_option]; do 2 next_field; cbn [negb andb guard_ok mbind result_bind Z.eqb]; do 3 next_field; by last_field.
Qed.

(** Handshakes and export requests are read back and then accepted by the encoder. *)
Lemma request_ok m l version kind body frame n :
  encode_profile m l version = Ok frame → kind = 1 ∨ kind = 10 →
  zlen body = n → 1 <= n → kind_size_ok kind n version = true →
  fields_request kind version body = Ok (m, []) → body_ok m l version kind body.
Proof.
  intros He Hk Hn H1 Hs Hf. apply (plain_body_ok _ _ _ _ _ n); try done; try lia.
  unfold decode_fields. assert ((kind =? 1) || (kind =? 10) = true) as -> by lia.
  rewrite Hf. cbn [mbind result_bind]. by rewrite He.
Qed.

Lemma hello_body_ok h l version kind body frame :
  hello_ok h → encode_profile (MsgHello h) l version = Ok frame →
  encode_body (MsgHello h) (frame_record_limits l) version = Ok (kind, body) → body_ok (MsgHello h) l version kind body.
Proof.
  intros Hh Hf He. cbn [encode_body] in He. destruct (version =? COMPOSED_VERSION) eqn:Ev; [done|]. cbn [negb] in He.
  apply bind_ok in He as ([] & _ & (b & Hb & He)%bind_ok). apply Ok_inj, pair_equal_spec in He as [<- <-].
  destruct (fields_hello_app h b [] Hh Hb) as (Hd & Hz & Hz1). rewrite app_nil_r in Hd.
  apply (request_ok _ _ _ _ _ frame (zlen b)); try done; [by left|..].
  - unfold kind_size_ok. cbn [Z.eqb Pos.eqb]. rewrite Ev. lia.
  - unfold fields_request. cbn [Z.eqb Pos.eqb]. rewrite Hd. cbn [mbind result_bind]. by rewrite Ev.
Qed.

Lemma composed_hello_body_ok h l version kind body frame :
  message_ok (MsgComposedHello h) → encode_profile (MsgComposedHello h) l version = Ok frame →
  encode_body (MsgComposedHello h) (frame_record_limits l) version = Ok (kind, body) →
  body_ok (MsgComposedHello h) l version kind body.
Proof.
  intros (Hh & Ha & Hc) Hf He. cbn [encode_body] in He. destruct (version =? COMPOSED_VERSION) eqn:Ev; [|done].
  apply bind_ok in He as ([] & _ & (b & Hb & He)%bind_ok). apply Ok_inj, pair_equal_spec in He as [<- <-].
  destruct (fields_hello_app (hello_base h) b (u32_le (aof_header_version h) ++ u32_le (required_capabilities h)) Hh Hb)
    as (Hd & Hz & Hz1).
  apply (request_ok _ _ _ _ _ frame (zlen b + 8)); try done; [by left| |lia|..].
  - body_length; lia.
  - unfold kind_size_ok. cbn [Z.eqb Pos.eqb]. rewrite Ev. lia.
  - unfold fields_request. cbn [Z.eqb Pos.eqb]. rewrite Hd. cbn [mbind result_bind]. rewrite Ev.
    next_field. last_field. by destruct h.
Qed.

Definition is_export (m : Message) : bool :=
  match m with MsgExport _ _ _ | MsgMemoryExport _ _ _ _ | MsgComposedExport _ _ _ _ _ _ => true | _ => false end.

Lemma export_body_ok m l version kind body frame :
  is_export m = true → message_ok m → encode_profile m l version = Ok frame →
  encode_body m (frame_record_limits l) version = Ok (kind, body) → body_ok m l version kind body.
Proof.
  intros Hx Hm Hf He. destruct m as [| |v a b|v r a b|v r h c a b| | | | | | | | | | | | | |]; try done; cbn [encode_body] in He.
  - destruct (version =? TRANSPORT_VERSION) eqn:Ev; [|done]. cbn [negb] in He. apply Z.eqb_eq in Ev as ->.
    apply bind_ok in He as ([] & Hg%guard_ok_ok & He). apply Ok_inj, pair_equal_spec in He as [<- <-].
    assert (version_ok v = true) as Hv by (destruct (version_ok v); done). destruct Hm as [Ha Hb].
    destruct (version_zlen v Hv) as [Hz Hz1].
    apply (request_ok _ _ _ _ _ frame (13 + zlen v)); try done; [by right| |lia|..].
    + body_length; lia.
    + unfold kind_size_ok. cbn. lia.
    + destruct (short_blob_app v (u32_le a ++ u64_le b) Hv) as (n & -> & Hn & _).
      unfold fields_request. cbn [Z.eqb Pos.eqb]. next_field. rewrite Hn. do 2 next_field. by last_field.
  - destruct (version =? MEMORY_VERSION) eqn:Ev; [|done]. apply Z.eqb_eq in Ev as ->.
    apply bind_ok in He as ([] & Hg%guard_ok_ok & He). apply Ok_inj, pair_equal_spec in He as [<- <-].
    assert (version_ok v = true) as Hv by (destruct (version_ok v); done). destruct Hm as (Hr & Ha & Hb).
    destruct (version_zlen v Hv) as [Hz Hz1].
    apply (request_ok _ _ _ _ _ frame (17 + zlen v)); try done; [by right| |lia|..].
    + body_length; lia.
    + unfold kind_size_ok. cbn. lia.
    + destruct (short_blob_app v (u32_le r ++ u32_le a ++ u64_le b) Hv) as (n & -> & Hn & _).
      unfold fields_request. cbn [Z.eqb Pos.eqb]. next_field. rewrite Hn. do 3 next_field. by last_field.
  - destruct (version =? COMPOSED_VERSION) eqn:Ev; [|done]. apply Z.eqb_eq in Ev as ->.
    apply bind_ok in He as ([] & Hg%guard_ok_ok & He). apply Ok_inj, pair_equal_spec in He as [<- <-].
    assert (version_ok v = true) as Hv by (destruct (version_ok v); done). destruct Hm as (Hr & Hh & Hc & Ha & Hb).
    destruct (version_zlen v Hv) as [Hz Hz1].
    apply (request_ok _ _ _ _ _ frame (25 + zlen v)); try done; [by right| |lia|..].
    + body_length; lia.
    + unfold kind_size_ok. cbn. lia.
    + destruct (short_blob_app v (u32_le r ++ u32_le h ++ u32_le c ++ u32_le a ++ u64_le b) Hv) as (n & -> & Hn & _).
      unfold fields_request. cbn [Z.eqb Pos.eqb]. next_field. rewrite Hn. do 5 next_field. by last_field.
Qed.

Lemma encode_body_ok m l version kind body frame :
  message_ok m → encode_profile m l version = Ok frame →
  encode_body m (frame_record_limits l) version = Ok (kind, body) → body_ok m l version kind body.
Proof.
  intros Hm Hf He. destruct (is_plain_message m) eqn:Hp; [by apply plain_message_ok|].
  destruct (is_export m) eqn:Hx; [by eapply export_body_ok|].
  destruct m as [h|h| | | |mu|sequence o ms| | |mu| |sequence batch| | | | | | |]; try done.
  - by eapply hello_body_ok.
  - by eapply composed_hello_body_ok.
  - cbn [encode_body] in He. destruct (is_image mu) eqn:Ei; [|done]. destruct (version =? MEMORY_VERSION) eqn:Ev; [|done].
    apply Z.eqb_eq in Ev as ->. apply bind_ok in He as (b & Hb & He). apply Ok_inj, pair_equal_spec in He as [<- <-].
    apply data_body_ok; [by left|]. inv_ok. eapply (decode_memory_data (MSnapshot mu)); try done. congruence.
  - cbn [encode_body] in He. destruct (version =? MEMORY_VERSION) eqn:Ev; [|done].
    apply Z.eqb_eq in Ev as ->. apply bind_ok in He as (b & Hb & He). apply Ok_inj, pair_equal_spec in He as [<- <-].
    apply data_body_ok; [by right|]. inv_ok. eapply (decode_memory_data (MBatch sequence o ms)); try done. congruence.
  - cbn [encode_body] in He. destruct (is_put mu) eqn:Ei; [|done]. destruct (version =? MEMORY_VERSION) eqn:Ev; [done|].
    apply Z.eqb_neq in Ev. apply bind_ok in He as (b & Hb & He). apply Ok_inj, pair_equal_spec in He as [<- <-].
    apply data_body_ok; [by left|]. inv_ok. eapply (decode_legacy_data (Snapshot mu)); try done. congruence.
  - cbn [encode_body] in He. destruct (version =? MEMORY_VERSION) eqn:Ev; [done|].
    apply Z.eqb_neq in Ev. apply bind_ok in He as (b & Hb & He). apply Ok_inj, pair_equal_spec in He as [<- <-].
    apply data_body_ok; [by right|]. inv_ok. eapply (decode_legacy_data (Batch sequence batch)); try done. congruence.
Qed.
(** ** Frames *)

Lemma frame_prefix_length version kind size : length (frame_prefix version kind size) = 20%nat.
Proof. done. Qed.

Lemma encode_profile_inv m l version frame :
  encode_profile m l version = Ok frame →
  ∃ kind body, RepLimits_validate l = Ok tt ∧ encode_body m (frame_record_limits l) version = Ok (kind, body) ∧
    zlen body + 24 <= max_frame_bytes l ∧ zlen body <= U32_MAX ∧
    frame = frame_prefix version kind (zlen body)
            ++ u32_le (snapshot_digest (checksum (frame_prefix version kind (zlen body))) body) ++ body.
Proof.
  unfold encode_profile. intros ([] & Hl & ([kind body] & Hb & (size & Hs%ok_or_ok & He)%bind_ok)%bind_ok)%bind_ok.
  apply usize_checked_Some in Hs as [-> Hs]. destruct (_ || _) eqn:E; [done|]. apply Ok_inj in He as <-.
  exists kind, body. unfold FRAME_HEADER_BYTES in *. split_and!; (done || lia).
Qed.

Lemma frame_header_ok kind size version l rest :
  RepLimits_validate l = Ok tt → 0 <= version <= 65535 → 1 <= kind <= 14 → 1 <= size → size + 24 <= max_frame_bytes l →
  size <= U32_MAX → kind_size_ok kind size version = true → length rest = 4%nat →
  ∀ version', frame_header (frame_prefix version kind size ++ rest) l version' =
    if version =? version' then Ok (kind, size) else Err (RepVersion version).
Proof.
  intros Hl Hv Hk Hs Hm Hu Hok Hr version'. unfold frame_header. rewrite Hl. cbn [mbind result_bind].
  set (h := frame_prefix version kind size ++ rest).
  assert (zlen h = 24) as -> by (unfold h; rewrite zlen_app; unfold zlen; rewrite Hr; done).
  assert (byte_range 0 8 h = FRAME_MAGIC) as -> by done. assert (byte_range 11 12 h = [x00]) as -> by done.
  rewrite !bool_decide_eq_true_2 by done. cbn [Z.eqb andb FRAME_HEADER_BYTES Pos.eqb guard_ok mbind result_bind].
  assert (le_value (byte_range 8 10 h) = version) as ->.
  { change (byte_range 8 10 h) with (le_bytes 2 version). apply le_value_bytes. change (256 ^ Z.of_nat 2) with 65536. lia. }
  destruct (version =? version') eqn:Ev; cbn [negb]; [|done]. apply Z.eqb_eq in Ev as <-.
  assert (le_value (byte_range 10 11 h) = kind) as ->.
  { change (byte_range 10 11 h) with [zb kind]. cbn [le_value]. rewrite bz_zb, Z.mod_small; lia. }
  assert (le_value (byte_range 12 16 h) = size) as ->.
  { change (byte_range 12 16 h) with (le_bytes 4 size). apply le_value_bytes.
    change (256 ^ Z.of_nat 4) with (2 ^ 32). unfold U32_MAX in Hu. lia. }
  assert (le_value (byte_range 16 20 h) = u32_not size) as ->.
  { change (byte_range 16 20 h) with (le_bytes 4 (u32_not size)). apply le_value_bytes.
    change (256 ^ Z.of_nat 4) with (2 ^ 32). apply u32_not_range. unfold U32_MAX in Hu. lia. }
  assert ((1 <=? kind) && (kind <=? 14) = true) as -> by lia. rewrite Z.eqb_refl. cbn [guard_ok mbind result_bind].
  assert ((size =? 0) || (max_frame_bytes l - FRAME_HEADER_BYTES <? size) = false) as -> by (unfold FRAME_HEADER_BYTES; lia).
  cbn [negb guard_ok mbind result_bind]. by rewrite Hok.
Qed.

Lemma decode_cut p d body l version :
  length p = 20%nat → length d = 4%nat →
  decode_profile (p ++ d ++ body) l version =
  ('(kind, len) ← frame_header (p ++ d) l version;
   _ ← guard_ok (zlen body =? len) (RepInvalid "payload length");
   _ ← guard_ok (snapshot_digest (checksum p) body =? le_value d) (RepInvalid "checksum");
   if (kind =? 4) || (kind =? 6) then decode_data kind body l version
   else
     '(m, rest) ← decode_fields kind body l version;
     _ ← guard_ok (bool_decide (rest = [])) (RepInvalid "bytes after message");
     Ok m).
Proof.
  intros Hp Hd. unfold decode_profile.
  assert (zlen (p ++ d ++ body) = 24 + zlen body) as -> by (rewrite !zlen_app; unfold zlen; lia).
  pose proof (zlen_nonneg body) as Hz. unfold FRAME_HEADER_BYTES. assert ((24 <=? 24 + zlen body) = true) as -> by lia.
  assert (byte_range 0 24 (p ++ d ++ body) = p ++ d) as ->
    by (rewrite app_assoc; apply (take_app_length' (p ++ d)); rewrite length_app; lia).
  assert (drop 24 (p ++ d ++ body) = body) as -> by (rewrite app_assoc; apply drop_app_length'; rewrite length_app; lia).
  assert (byte_range 0 20 (p ++ d ++ body) = p) as -> by (apply (take_app_length' p); lia).
  assert (byte_range 20 24 (p ++ d ++ body) = d) as ->
    by (unfold byte_range; rewrite drop_app_length' by lia; apply (take_app_length' d); lia).
  cbn [guard_ok mbind result_bind]. destruct (frame_header (p ++ d) l version) as [[kind len]|e]; [|done].
  cbn [mbind result_bind]. assert ((24 + zlen body =? 24 + len) = (zlen body =? len)) as -> by lia. done.
Qed.

Lemma decode_digest p d body l version m :
  length p = 20%nat → length d = 4%nat → decode_profile (p ++ d ++ body) l version = Ok m →
  snapshot_digest (checksum p) body = le_value d.
Proof.
  intros Hp Hd. rewrite decode_cut by done.
  intros ([kind len] & _ & ([] & _ & ([] & Hg%guard_ok_ok & _)%bind_ok)%bind_ok)%bind_ok. lia.
Qed.

Lemma digest_value a s : le_value (u32_le (snapshot_digest a s)) = snapshot_digest a s.
Proof. rewrite snapshot_digest_eq. apply u32_le_value. pose proof (checksum_range (u32_le a ++ u32_le (checksum s))). unfold U32_MAX. lia. Qed.

Lemma decode_frame m l version frame :
  message_ok m → 0 <= version <= 65535 → encode_profile m l version = Ok frame →
  ∃ h kind body, frame = h ++ body ∧ length h = 24%nat ∧ encode_body m (frame_record_limits l) version = Ok (kind, body) ∧
    zlen frame <= max_frame_bytes l ∧ RepLimits_validate l = Ok tt ∧
    (∀ v, frame_header h l v = if version =? v then Ok (kind, zlen body) else Err (RepVersion version)) ∧
    (∀ v, decode_profile frame l v = if version =? v then Ok m else Err (RepVersion version)).
Proof.
  intros Hm Hv Hf. destruct (encode_profile_inv _ _ _ _ Hf) as (kind & body & Hl & Hb & Hz & Hu & ->).
  destruct (encode_body_ok _ _ _ _ _ _ Hm Hf Hb) as (Hk & H1 & Hs & Hd).
  set (p := frame_prefix version kind (zlen body)). set (d := u32_le (snapshot_digest (checksum p) body)).
  assert (length p = 20%nat ∧ length d = 4%nat) as [Hp Hdl] by (split; [apply frame_prefix_length|apply u32_le_length]).
  assert (∀ v, frame_header (p ++ d) l v = if version =? v then Ok (kind, zlen body) else Err (RepVersion version)) as Hh
    by (by apply frame_header_ok).
  exists (p ++ d), kind, body. rewrite <- app_assoc. split_and!; try done.
  - rewrite !zlen_app. unfold zlen in *. lia.
  - intros v. rewrite decode_cut, Hh by done. destruct (Z.eqb_spec version v) as [<-|]; [|done]. cbn [mbind result_bind].
    unfold d. rewrite digest_value, !Z.eqb_refl. cbn [guard_ok mbind result_bind].
    destruct ((kind =? 4) || (kind =? 6)); [done|]. rewrite Hd. cbn [mbind result_bind]. by rewrite bool_decide_eq_true_2.
Qed.

(** C29. A frame carries its message: whatever the transport, the frame of a message
    is within the budget, its own transport decodes it to the message and any other
    refuses the version it reads, and a stream reader takes exactly the frame and
    leaves what follows, provided the kind is authorised. *)
Theorem frame_roundtrip m l version frame rest authorize :
  message_ok m → 0 <= version <= 65535 → encode_profile m l version = Ok frame →
  zlen frame <= max_frame_bytes l ∧
  (∀ v, decode_profile frame l v = if version =? v then Ok m else Err (RepVersion version)) ∧
  ∃ kind body, encode_body m (frame_record_limits l) version = Ok (kind, body) ∧
    read_authorized_profile (frame ++ rest) l authorize version =
    if authorize kind then Ok (frame, m, rest) else Err (RepInvalid "permission denied").
Proof.
  intros Hm Hv Hf. destruct (decode_frame _ _ _ _ Hm Hv Hf) as (h & kind & body & E & Hh & Hb & Hz & Hl & Hr & Hd).
  split; [done|]. split; [done|]. exists kind, body. split; [done|]. unfold read_authorized_profile, read_admitted_profile. rewrite Hl, E, <- app_assoc.
  assert (FRAME_HEADER_BYTES = zlen h) as -> by (unfold zlen; by rewrite Hh).
  cbn [mbind result_bind]. rewrite read_exact_app. cbn [ok_or mbind result_bind]. rewrite Hr, Z.eqb_refl. cbn [mbind result_bind].
  destruct (authorize kind); [|done]. cbn [mbind result_bind]. rewrite read_exact_app. cbn [ok_or mbind result_bind].
  by rewrite <- E, Hd, Z.eqb_refl.
Qed.

(** C30. A corrupted frame is never delivered: with any one byte changed, no transport
    decodes a frame. *)
Theorem frame_corruption m l version frame i b :
  encode_profile m l version = Ok frame → (i < length frame)%nat → frame !! i ≠ Some b →
  ∀ v, ∃ e, decode_profile (<[i := b]> frame) l v = Err e.
Proof.
  intros Hf Hi Hne v. destruct (decode_profile (<[i:=b]> frame) l v) as [m'|e] eqn:Hd; [exfalso|by eexists].
  destruct (encode_profile_inv _ _ _ _ Hf) as (kind & body & _ & _ & _ & _ & ->).
  set (p := frame_prefix version kind (zlen body)) in *. set (d := u32_le (snapshot_digest (checksum p) body)) in *.
  assert (length p = 20%nat) as Hp by apply frame_prefix_length. assert (length d = 4%nat) as Hdl by apply u32_le_length.
  destruct (Nat.lt_ge_cases i 20) as [H|H].
  { rewrite insert_app_l in Hd by lia. rewrite lookup_app_l in Hne by lia.
    apply decode_digest in Hd; [|by rewrite ?length_insert..]. unfold d in Hd. rewrite digest_value in Hd.
    apply snapshot_digest_inj_l in Hd; [|apply checksum_range..]. revert Hd. apply checksum_byte; [done|lia]. }
  rewrite insert_app_r_alt in Hd by lia. rewrite lookup_app_r in Hne by lia. destruct (Nat.lt_ge_cases (i - length p) 4) as [H'|H'].
  { rewrite insert_app_l in Hd by lia. rewrite lookup_app_l in Hne by lia.
    apply decode_digest in Hd; [|by rewrite ?length_insert..]. rewrite <- digest_value in Hd. fold d in Hd. symmetry in Hd.
    revert Hd. apply le_value_insert; [done|lia]. }
  rewrite insert_app_r_alt in Hd by lia. rewrite lookup_app_r in Hne by lia. rewrite !length_app in Hi.
  apply decode_digest in Hd; [|done..]. unfold d at 2 in Hd. rewrite digest_value in Hd. apply snapshot_digest_inj_r in Hd.
  revert Hd. apply checksum_byte; [done|lia].
Qed.

Definition sample_message : Message :=
  MsgBatch 8 {| origin := Expiration; mutations := [Put (lit "a") (VString (lit "b")) (Some 5); Delete (lit "k")] |}.
Definition sample_frame : bytes :=
  match rep_encode sample_message RepLimits_default with Ok frame => frame | Err _ => [] end.
Lemma sample_encodes : encode_profile sample_message RepLimits_default TRANSPORT_VERSION = Ok sample_frame.
Proof. vm_compute. reflexivity. Qed.

Lemma frame_roundtrip_witness :
  message_ok sample_message ∧
  ∃ kind body, encode_body sample_message (frame_record_limits RepLimits_default) TRANSPORT_VERSION = Ok (kind, body) ∧
    read_authorized_profile (sample_frame ++ CRLF) RepLimits_default (λ k, k =? 6) TRANSPORT_VERSION =
    if kind =? 6 then Ok (sample_frame, sample_message, CRLF) else Err (RepInvalid "permission denied").
Proof.
  assert (message_ok sample_message) as Hm.
  { split; [unfold u64_range; lia|]. unfold I64_MAX, I64_MIN. repeat constructor; cbn; unfold I64_MAX, I64_MIN; lia. }
  split; [done|].
  apply (frame_roundtrip sample_message RepLimits_default TRANSPORT_VERSION sample_frame CRLF (λ k, k =? 6) Hm);
    [unfold TRANSPORT_VERSION; lia|apply sample_encodes].
Defined.

Lemma frame_corruption_witness :
  sample_frame !! 30%nat = Some xff ∧ ∃ e, decode_profile (<[30%nat := x01]> sample_frame) RepLimits_default 1 = Err e.
Proof.
  assert (sample_frame !! 30%nat = Some xff) as E by (vm_compute; reflexivity). split; [done|].
  apply (frame_corruption sample_message RepLimits_default TRANSPORT_VERSION sample_frame 30 x01);
    [apply sample_encodes|by eapply lookup_lt_Some|by rewrite E].
Defined.
