(* ===== verification/Journal.v ===== *)
(** * The replication journal

    Models src/replication/journal.rs: the bounded history of published batches and
    its subscribers.  Operations that hold the mutex are atomic; a subscriber is a
    small state machine whose steps interleave with them.  Sequences are [u64] and
    sizes [usize], both of 64 bits. *)

From Stdlib Require Import Strings.Byte Strings.String ZArith Lia.
From stdpp Require Import relations.
From S2P Require Import Prelude Wire Protocol.

#[local] Open Scope Z_scope.

(** ** The notification channel *)

(** What the journal relies on of [tokio::sync::watch]: a receiver that saw the current
    value has no change to report, and it has one after any number of sends. *)
Class Watch (V : Type) := {
  watch_initial : V;
  watch_send : V → V;
  watch_changed : V → V → bool;
  watch_unchanged v : watch_changed v v = false;
  watch_sent v n : watch_changed (Nat.iter (S n) watch_send v) v = true
}.

(** ** The journal *)

Record JLimits := { jl_max_bytes : Z; jl_max_batches : Z; jl_max_frame_bytes : Z }.

Inductive JError := JLimit | JEpoch | JSequence | JLagged | JClosed.

Record JEntry := { je_cursor : Cursor; je_frame : bytes }.

Record JStatus := { js_head : Cursor; oldest_sequence : option Z; js_bytes : Z; js_batches : Z }.

Inductive Phase := Idle | Marked | Waiting | Failed (e : JError).

Section Journal.
Context {V : Type} {W : Watch V}.

Record JState := {
  j_head : Cursor;
  j_entries : list JEntry;
  j_bytes : Z;
  j_closed : bool;
  j_changed : V
}.

Definition Journal_new (head : Cursor) (l : JLimits) : result JError JState :=
  if (jl_max_bytes l =? 0) || (ISIZE_MAX <? jl_max_bytes l) || (jl_max_batches l =? 0)
     || (jl_max_frame_bytes l =? 0) || (jl_max_bytes l <? jl_max_frame_bytes l)
  then Err JLimit
  else Ok {| j_head := head; j_entries := []; j_bytes := 0; j_closed := false; j_changed := watch_initial |}.

(** The retention loop of [publish]; [None] is a panic. *)
Fixpoint evict_oldest (l : JLimits) (size : Z) (used : Z) (entries : list JEntry) : option (Z * list JEntry) :=
  room ← u_sub (jl_max_bytes l) size;
  if (room <? used) || (jl_max_batches l <=? zlen entries) then
    match entries with
    | [] => None
    | removed :: entries => used ← u_sub used (zlen (je_frame removed)); evict_oldest l size used entries
    end
  else Some (used, entries).

Definition publish (l : JLimits) (j : JState) (sequence : Z) (frame : bytes) : option (JState * result JError unit) :=
  if bool_decide (frame = []) || (jl_max_frame_bytes l <? zlen frame) then Some (j, Err JLimit)
  else if j_closed j then Some (j, Err JClosed)
  else if negb (bool_decide (u_add (cursor_sequence (j_head j)) 1 = Some sequence)) then Some (j, Err JSequence)
  else
    '(used, entries) ← evict_oldest l (zlen frame) (j_bytes j) (j_entries j);
    let head := {| cursor_epoch := cursor_epoch (j_head j); cursor_sequence := sequence |} in
    used ← u_add used (zlen frame);
    Some ({| j_head := head; j_entries := entries ++ [{| je_cursor := head; je_frame := frame |}]; j_bytes := used;
             j_closed := false; j_changed := watch_send (j_changed j) |}, Ok tt).

Definition Journal_status (j : JState) : result JError JStatus :=
  if j_closed j then Err JClosed
  else Ok {| js_head := j_head j; oldest_sequence := (λ e, cursor_sequence (je_cursor e)) <$> head (j_entries j);
             js_bytes := j_bytes j; js_batches := zlen (j_entries j) |}.

Definition close (j : JState) : JState :=
  {| j_head := j_head j; j_entries := []; j_bytes := 0; j_closed := true; j_changed := watch_send (j_changed j) |}.

(** The entry after a position. *)
Definition journal_next (j : JState) (c : Cursor) : result JError (option JEntry) :=
  if j_closed j then Err JClosed
  else if negb (bool_decide (cursor_epoch c = cursor_epoch (j_head j))) then Err JEpoch
  else if cursor_sequence (j_head j) <? cursor_sequence c then Err JSequence
  else if cursor_sequence c =? cursor_sequence (j_head j) then Ok None
  else
    sequence ← ok_or JSequence (u_add (cursor_sequence c) 1);
    oldest ← ok_or JLagged ((λ e, cursor_sequence (je_cursor e)) <$> head (j_entries j));
    index ← ok_or JLagged (u_sub sequence oldest);
    e ← ok_or JLagged (j_entries j !! Z.to_nat index);
    Ok (Some e).

(** ** Subscribers *)

(** The steps of [Subscriber::next]: it marks the current notification as seen, reads
    the journal under the lock and then returns an entry, fails, or waits for a newer
    notification.  [received] is what it returned so far, [from] where it started. *)
Record Subscriber := {
  sub_cursor : Cursor;
  sub_seen : V;
  sub_phase : Phase;
  sub_from : Cursor;
  sub_received : list JEntry
}.

Definition subscribe (j : JState) (c : Cursor) : result JError Subscriber :=
  _ ← journal_next j c;
  Ok {| sub_cursor := c; sub_seen := j_changed j; sub_phase := Idle; sub_from := c; sub_received := [] |}.

Definition sub_at (s : Subscriber) (p : Phase) : Subscriber :=
  {| sub_cursor := sub_cursor s; sub_seen := sub_seen s; sub_phase := p; sub_from := sub_from s;
     sub_received := sub_received s |}.
Definition sub_step (j : JState) (s : Subscriber) : option Subscriber :=
  match sub_phase s with
  | Idle =>
      Some {| sub_cursor := sub_cursor s; sub_seen := j_changed j; sub_phase := Marked; sub_from := sub_from s;
              sub_received := sub_received s |}
  | Marked =>
      Some match journal_next j (sub_cursor s) with
           | Ok (Some e) =>
               {| sub_cursor := je_cursor e; sub_seen := sub_seen s; sub_phase := Idle; sub_from := sub_from s;
                  sub_received := sub_received s ++ [e] |}
           | Ok None => sub_at s Waiting
           | Err e => sub_at s (Failed e)
           end
  | Waiting => if watch_changed (j_changed j) (sub_seen s) then Some (sub_at s Idle) else None
  | Failed _ => None
  end.

(** ** The system *)

(** A journal with every entry published so far and its subscribers.  A subscriber may
    also be cancelled while it waits, and ask again. *)
Record System := { sys_journal : JState; sys_history : list JEntry; sys_subs : list Subscriber }.

Inductive sys_step (l : JLimits) : System → System → Prop :=
| step_publish s sequence frame j r :
    publish l (sys_journal s) sequence frame = Some (j, r) →
    sys_step l s {| sys_journal := j;
                    sys_history := match r with
                                   | Ok _ => sys_history s ++ [{| je_cursor := j_head j; je_frame := frame |}]
                                   | Err _ => sys_history s
                                   end;
                    sys_subs := sys_subs s |}
| step_close s :
    sys_step l s {| sys_journal := close (sys_journal s); sys_history := sys_history s; sys_subs := sys_subs s |}
| step_subscribe s c sub :
    subscribe (sys_journal s) c = Ok sub →
    sys_step l s {| sys_journal := sys_journal s; sys_history := sys_history s; sys_subs := sys_subs s ++ [sub] |}
| step_subscriber s i sub sub' :
    sys_subs s !! i = Some sub → sub_step (sys_journal s) sub = Some sub' →
    sys_step l s {| sys_journal := sys_journal s; sys_history := sys_history s; sys_subs := <[i := sub']> (sys_subs s) |}
| step_cancel s i sub :
    sys_subs s !! i = Some sub → sub_phase sub = Waiting →
    sys_step l s {| sys_journal := sys_journal s; sys_history := sys_history s;
                    sys_subs := <[i := sub_at sub Idle]> (sys_subs s) |}.

(** ** The invariant *)

Definition at_sequence (base : Cursor) (n : Z) : Cursor :=
  {| cursor_epoch := cursor_epoch base; cursor_sequence := cursor_sequence base + n |}.
Definition retained_bytes (entries : list JEntry) : Z := zsum_with (λ e, zlen (je_frame e)) entries.

Record journal_inv (l : JLimits) (base : Cursor) (j : JState) (h : list JEntry) : Prop := {
  ji_range : 0 <= cursor_sequence base ∧ cursor_sequence base + zlen h <= USIZE_MAX;
  ji_head : j_head j = at_sequence base (zlen h);
  ji_numbered : ∀ i e, h !! i = Some e → je_cursor e = at_sequence base (Z.of_nat i + 1);
  ji_retained : ∃ dropped, h = dropped ++ j_entries j;
  ji_bytes : j_bytes j = retained_bytes (j_entries j);
  ji_bounds : j_bytes j <= jl_max_bytes l ∧ zlen (j_entries j) <= jl_max_batches l
}.

Definition limits_ok (l : JLimits) : Prop :=
  1 <= jl_max_bytes l <= ISIZE_MAX ∧ 1 <= jl_max_batches l ∧ 1 <= jl_max_frame_bytes l <= jl_max_bytes l.

(** What a subscriber owes: it received exactly the entries after its start, and a
    subscriber that waits without a pending notification has nothing to receive. *)
Record sub_inv (base : Cursor) (j : JState) (h : list JEntry) (s : Subscriber) : Prop := {
  si_cursors : ∃ a b : nat, sub_from s = at_sequence base (Z.of_nat a) ∧ sub_cursor s = at_sequence base (Z.of_nat b) ∧
                 (a <= b <= length h)%nat ∧ sub_received s = drop a (take b h);
  si_seen : ∃ n, j_changed j = Nat.iter n watch_send (sub_seen s) ∧
              (n = O → sub_phase s = Waiting → sub_cursor s = j_head j ∧ j_closed j = false)
}.

Definition sys_inv (l : JLimits) (base : Cursor) (s : System) : Prop :=
  journal_inv l base (sys_journal s) (sys_history s) ∧ Forall (sub_inv base (sys_journal s) (sys_history s)) (sys_subs s).
Definition sys_initial (j : JState) : System := {| sys_journal := j; sys_history := []; sys_subs := [] |}.

Lemma zlen_snoc {A} (l : list A) x : zlen (l ++ [x]) = zlen l + 1.
Proof. by rewrite zlen_app. Qed.
Lemma retained_bytes_nonneg entries : 0 <= retained_bytes entries.
Proof. unfold retained_bytes, zsum_with. induction entries as [|e es IH]; cbn in *; [lia|]. pose proof (zlen_nonneg (je_frame e)). lia. Qed.
Lemma retained_bytes_snoc entries e : retained_bytes (entries ++ [e]) = retained_bytes entries + zlen (je_frame e).
Proof. unfold retained_bytes, zsum_with. induction entries as [|d es IH]; cbn in *; lia. Qed.

(** The retention loop finds room by dropping the oldest entries, no more than needed. *)
Lemma evict_oldest_ok l size entries :
  limits_ok l → 1 <= size <= jl_max_bytes l → retained_bytes entries <= jl_max_bytes l →
  ∃ dropped kept, entries = dropped ++ kept ∧ evict_oldest l size (retained_bytes entries) entries = Some (retained_bytes kept, kept) ∧
    retained_bytes kept + size <= jl_max_bytes l ∧ zlen kept < jl_max_batches l ∧
    ∀ e d, dropped = d ++ [e] → jl_max_bytes l < retained_bytes (e :: kept) + size ∨ jl_max_batches l <= zlen (e :: kept).
Proof.
  intros (Hb & Hc & Hf) Hs. unfold ISIZE_MAX in Hb.
  assert (u_sub (jl_max_bytes l) size = Some (jl_max_bytes l - size)) as Hr by (apply usize_checked_ok; unfold USIZE_MAX; lia).
  induction entries as [|e es IH]; intros Hu.
  - exists [], []. split; [done|]. unfold evict_oldest. rewrite Hr. cbn [mbind option_bind].
    change (retained_bytes []) with 0 in *. change (zlen (@nil JEntry)) with 0.
    destruct ((jl_max_bytes l - size <? 0) || (jl_max_batches l <=? 0)) eqn:E; [lia|]. split_and!; try done; try lia.
    by intros e [|].
  - pose proof (retained_bytes_nonneg es) as Hn. pose proof (zlen_nonneg (je_frame e)) as Hz.
    assert (retained_bytes (e :: es) = zlen (je_frame e) + retained_bytes es) as He by done.
    cbn [evict_oldest]. rewrite Hr. cbn [mbind option_bind].
    destruct ((jl_max_bytes l - size <? retained_bytes (e :: es)) || (jl_max_batches l <=? zlen (e :: es))) eqn:E.
    + assert (u_sub (retained_bytes (e :: es)) (zlen (je_frame e)) = Some (retained_bytes es)) as ->.
      { rewrite He. unfold u_sub. rewrite usize_checked_ok by (unfold USIZE_MAX; lia). f_equal. lia. }
      cbn [mbind option_bind]. destruct IH as (d & k & -> & -> & H1 & H2 & H3); [lia|].
      exists (e :: d), k. split_and!; try done. intros e' d' Hd. destruct d as [|x d _] using rev_ind.
      * destruct d' as [|? [|]]; try done. cbn in Hd. injection Hd as <-. cbn [app] in E. lia.
      * rewrite app_comm_cons in Hd. apply app_inj_tail in Hd as [_ <-]. by eapply H3.
    + exists [], (e :: es). split_and!; try done; try lia. by intros e' [|].
Qed.

Lemma limits_new head l j : Journal_new head l = Ok j → 0 <= jl_max_bytes l → 0 <= jl_max_batches l → 0 <= jl_max_frame_bytes l →
  limits_ok l ∧ j_head j = head ∧ j_entries j = [] ∧ j_bytes j = 0 ∧ j_closed j = false.
Proof.
  unfold Journal_new. destruct (_ || _) eqn:E; [done|]. intros [= <-] H1 H2 H3. unfold limits_ok. cbn. split_and!; (done || lia).
Qed.

Lemma numbered_snoc base (h : list JEntry) e :
  (∀ i e, h !! i = Some e → je_cursor e = at_sequence base (Z.of_nat i + 1)) →
  je_cursor e = at_sequence base (zlen h + 1) →
  ∀ i e', (h ++ [e]) !! i = Some e' → je_cursor e' = at_sequence base (Z.of_nat i + 1).
Proof.
  intros Hn He i e' [Hi|[Hi Hi']]%lookup_app_Some; [by apply Hn|].
  destruct (i - length h)%nat eqn:Ei; [|done]. injection Hi' as <-. rewrite He. unfold zlen. repeat f_equal. lia.
Qed.

(** What [publish] answers, and the journal it leaves. *)
Lemma publish_ok l base j h sequence frame :
  limits_ok l → journal_inv l base j h →
  (∃ e, publish l j sequence frame = Some (j, Err e)) ∨
  (∃ j', publish l j sequence frame = Some (j', Ok tt) ∧ sequence = cursor_sequence base + zlen h + 1 ∧
     frame ≠ [] ∧ zlen frame <= jl_max_frame_bytes l ∧ j_closed j = false ∧ j_closed j' = false ∧
     j_changed j' = watch_send (j_changed j) ∧ j_head j' = at_sequence base (zlen h + 1) ∧
     journal_inv l base j' (h ++ [{| je_cursor := j_head j'; je_frame := frame |}])).
Proof.
  intros Hl Hj. destruct Hj as [Hr Hh Hn [dropped Hd] Hb [Hb1 Hb2]]. unfold publish.
  case_bool_decide as Hne; [left; by eexists|]. cbn [orb].
  destruct (Z.ltb_spec (jl_max_frame_bytes l) (zlen frame)); [left; by eexists|].
  destruct (j_closed j) eqn:Hc; [left; by eexists|]. case_bool_decide as Hs; [|left; by eexists]. cbn [negb]. right.
  rewrite Hh in Hs. apply usize_checked_Some in Hs as [-> Hs]. cbn [at_sequence cursor_sequence] in *.
  assert (1 <= zlen frame) by (destruct frame; [done|]; rewrite zlen_cons; pose proof (zlen_nonneg frame); lia).
  destruct (evict_oldest_ok l (zlen frame) (j_entries j) Hl) as (d & k & Hk & He & Hk1 & Hk2 & _); [unfold limits_ok in Hl; lia|lia|].
  rewrite Hb, He. cbn [mbind option_bind]. pose proof (retained_bytes_nonneg k).
  unfold u_add. rewrite (usize_checked_ok (retained_bytes k + zlen frame)) by (unfold limits_ok, ISIZE_MAX in Hl; unfold USIZE_MAX; lia).
  cbn [mbind option_bind]. eexists. split; [done|]. cbn [j_closed j_changed j_head].
  assert ({| cursor_epoch := cursor_epoch (j_head j); cursor_sequence := cursor_sequence base + zlen h + 1 |}
          = at_sequence base (zlen h + 1)) as Ec by (rewrite Hh; unfold at_sequence; cbn; f_equal; lia).
  rewrite Ec. split_and!; try done; try lia. split; cbn.
  - rewrite zlen_snoc. lia.
  - by rewrite zlen_snoc.
  - by apply numbered_snoc.
  - exists (dropped ++ d). by rewrite Hd, Hk, <- !app_assoc.
  - rewrite retained_bytes_snoc. done.
  - rewrite zlen_snoc. lia.
Qed.

Lemma cursor_eq (c d : Cursor) : cursor_epoch c = cursor_epoch d → cursor_sequence c = cursor_sequence d → c = d.
Proof. destruct c, d. cbn. congruence. Qed.

Section Retention.
Context (l : JLimits) (base : Cursor) (j : JState) (h : list JEntry).
Context (Hj : journal_inv l base j h).

(** The retained entries, by position in the history. *)
Lemma retained_lookup i :
  (length h - length (j_entries j) <= i)%nat → j_entries j !! (i - (length h - length (j_entries j)))%nat = h !! i.
Proof.
  intros Hi. destruct (ji_retained _ _ _ _ Hj) as [d Hd]. rewrite Hd in Hi |- *. rewrite length_app in *.
  rewrite lookup_app_r by lia. f_equal. lia.
Qed.
Lemma retained_length : (length (j_entries j) <= length h)%nat.
Proof. destruct (ji_retained _ _ _ _ Hj) as [d ->]. rewrite length_app. lia. Qed.
Lemma retained_oldest :
  (λ e, cursor_sequence (je_cursor e)) <$> head (j_entries j) =
  match j_entries j with
  | [] => None
  | _ => Some (cursor_sequence base + Z.of_nat (length h - length (j_entries j)) + 1)
  end.
Proof.
  destruct (j_entries j) as [|e es] eqn:E; [done|]. cbn. f_equal.
  pose proof (retained_lookup (length h - length (j_entries j))) as Hl. rewrite Nat.sub_diag, E in Hl. specialize (Hl ltac:(lia)).
  cbn in Hl. symmetry in Hl. rewrite (ji_numbered _ _ _ _ Hj _ _ Hl). cbn. lia.
Qed.

(** The answer of [journal_next] at a position of the history of an open journal. *)
Lemma next_at b :
  j_closed j = false → (b <= length h)%nat →
  journal_next j (at_sequence base (Z.of_nat b)) =
  if decide (b = length h) then Ok None
  else if decide (length h - length (j_entries j) <= b)%nat then
    match h !! b with Some e => Ok (Some e) | None => Err JLagged end
  else Err JLagged.
Proof.
  intros Hc Hb. destruct (ji_range _ _ _ _ Hj) as [Hr0 Hr1]. unfold journal_next. rewrite Hc, (ji_head _ _ _ _ Hj). cbn [at_sequence cursor_epoch cursor_sequence].
  rewrite bool_decide_eq_true_2 by done. cbn [negb]. unfold zlen in *.
  destruct (Z.ltb_spec (cursor_sequence base + Z.of_nat (length h)) (cursor_sequence base + Z.of_nat b)); [lia|].
  destruct (Z.eqb_spec (cursor_sequence base + Z.of_nat b) (cursor_sequence base + Z.of_nat (length h))); destruct (decide (b = length h)); try lia; [done|].
  unfold u_add. rewrite usize_checked_ok by lia. cbn [ok_or mbind result_bind]. rewrite retained_oldest.
  pose proof retained_length as Hlen. destruct (j_entries j) as [|e es] eqn:E.
  { cbn [length ok_or mbind result_bind]. destruct (decide _); [lia|done]. }
  cbn [ok_or mbind result_bind]. rewrite <- E in *. destruct (decide (length h - length (j_entries j) <= b)%nat) as [Hle|Hle].
  - unfold u_sub. rewrite usize_checked_ok by lia. cbn [ok_or mbind result_bind].
    replace (Z.to_nat _) with (b - (length h - length (j_entries j)))%nat by lia. rewrite retained_lookup by done.
    by destruct (h !! b).
  - unfold u_sub, usize_checked. destruct (_ && _) eqn:E2; [|done]. apply andb_true_iff in E2 as [E2%Z.leb_le _]. lia.
Qed.

Lemma next_sound c r :
  journal_next j c = Ok r →
  j_closed j = false ∧ ∃ b : nat, c = at_sequence base (Z.of_nat b) ∧ (b <= length h)%nat ∧
    match r with None => b = length h | Some e => h !! b = Some e end.
Proof.
  intros Hn. pose proof Hn as Hn0. unfold journal_next in Hn. destruct (j_closed j) eqn:Hc; [done|]. split; [done|].
  case_bool_decide as He; [|done]. cbn [negb] in Hn. rewrite (ji_head _ _ _ _ Hj) in *. cbn [at_sequence cursor_epoch cursor_sequence] in *.
  destruct (Z.ltb_spec (cursor_sequence base + zlen h) (cursor_sequence c)); [done|].
  assert (∃ b : nat, (b <= length h)%nat ∧ cursor_sequence c = cursor_sequence base + Z.of_nat b) as (b & Hb & Hs).
  { destruct (Z.eqb_spec (cursor_sequence c) (cursor_sequence base + zlen h)) as [E|]; [by exists (length h)|].
    apply bind_ok in Hn as (sq & [-> Hsq]%ok_or_ok%usize_checked_Some & (o & Ho%ok_or_ok & (i & [-> Hi]%ok_or_ok%usize_checked_Some & _)%bind_ok)%bind_ok).
    rewrite retained_oldest in Ho. destruct (j_entries j); [done|]. injection Ho as <-. unfold zlen in *.
    exists (Z.to_nat (cursor_sequence c - cursor_sequence base)). lia. }
  assert (c = at_sequence base (Z.of_nat b)) as -> by by apply cursor_eq. exists b. split_and!; try done.
  rewrite next_at in Hn0 by done. destruct (decide (b = length h)) as [->|]; [by injection Hn0 as <-|].
  destruct (decide _); [|done]. destruct (h !! b) eqn:E; [|done]. by injection Hn0 as <-.
Qed.
End Retention.

(** ** Preservation *)

Lemma sub_inv_mono base j j' h k s :
  sub_inv base j h s →
  j_changed j' = j_changed j ∧ j_head j' = j_head j ∧ j_closed j' = j_closed j ∨ j_changed j' = watch_send (j_changed j) →
  sub_inv base j' (h ++ k) s.
Proof.
  intros [(a & b & Ha & Hb & Hab & Hr) (n & Hn & Hw)] Hj. split.
  - exists a, b. rewrite length_app. split_and!; try done; try lia. by rewrite take_app_le by lia.
  - destruct Hj as [(-> & -> & ->)| ->]; [by exists n|]. exists (S n). rewrite Hn. done.
Qed.

Lemma sub_step_inv l base j h s s' :
  journal_inv l base j h → sub_inv base j h s → sub_step j s = Some s' → sub_inv base j h s'.
Proof.
  intros Hj Hs Hst. unfold sub_step in Hst. destruct (sub_phase s) eqn:Hp.
  - injection Hst as <-. destruct Hs as [Hc _]. split; [done|]. exists O. done.
  - destruct Hs as [(a & b & Ha & Hb & Hab & Hr) (n & Hn & Hw)].
    destruct (journal_next j (sub_cursor s)) as [[e|]|e] eqn:En; injection Hst as <-.
    + destruct (next_sound _ _ _ _ Hj _ _ En) as (_ & b' & Hb' & Hle & Hl). rewrite Hb in Hb'.
      assert (b = b') as <- by (apply (f_equal cursor_sequence) in Hb'; cbn in Hb'; lia).
      split; cbn; [|by exists n]. exists a, (S b). split_and!; try done; try lia.
      * rewrite (ji_numbered _ _ _ _ Hj _ _ Hl). f_equal. lia.
      * apply lookup_lt_Some in Hl. lia.
      * rewrite (take_S_r _ _ e) by done. rewrite drop_app_le by (rewrite length_take; lia). by rewrite Hr.
    + destruct (next_sound _ _ _ _ Hj _ _ En) as (Hc & b' & Hb' & Hle & ->).
      split; cbn; [by exists a, b|]. exists n. split; [done|]. intros _ _. by rewrite Hb', (ji_head _ _ _ _ Hj).
    + split; cbn; [by exists a, b|]. by exists n.
  - destruct (watch_changed _ _); [|done]. injection Hst as <-. destruct Hs as [Hc (n & Hn & _)]. split; [done|]. by exists n.
  - done.
Qed.

Lemma subscribe_inv l base j h c s : journal_inv l base j h → subscribe j c = Ok s → sub_inv base j h s.
Proof.
  intros Hj (r & Hn & <-%Ok_inj)%bind_ok. destruct (next_sound _ _ _ _ Hj _ _ Hn) as (Hc & b & -> & Hb & _). split; cbn.
  - exists b, b. split_and!; try done. by rewrite drop_ge by (rewrite length_take; lia).
  - by exists O.
Qed.

Lemma close_inv l base j h : journal_inv l base j h → limits_ok l → journal_inv l base (close j) h.
Proof.
  intros [Hr Hh Hn Hd Hb Hx] Hl. split; try done; cbn.
  - exists h. by rewrite app_nil_r.
  - unfold limits_ok in Hl. change (zlen (@nil JEntry)) with 0. lia.
Qed.

Lemma sys_step_inv l base s s' : limits_ok l → sys_inv l base s → sys_step l s s' → sys_inv l base s'.
Proof.
  intros Hl [Hj Hs] Hst. destruct Hst as [s sequence frame j r Hp|s|s c sub Hsub|s i sub sub' Hi Hsub|s i sub Hi Hw]; split; cbn; try done.
  - destruct (publish_ok l base _ _ sequence frame Hl Hj) as [[e He]|(j' & He & _ & _ & _ & _ & _ & _ & _ & Hj')];
      rewrite He in Hp; injection Hp as <- <-; done.
  - destruct (publish_ok l base _ _ sequence frame Hl Hj) as [[e He]|(j' & He & _ & _ & _ & _ & _ & Hch & _)];
      rewrite He in Hp; injection Hp as <- <-; [done|].
    eapply Forall_impl; [exact Hs|]. intros sub Hsub. eapply sub_inv_mono; [done|by right].
  - by apply close_inv.
  - eapply Forall_impl; [exact Hs|]. intros sub Hsub. rewrite <- (app_nil_r (sys_history s)). eapply sub_inv_mono; [done|by right].
  - apply Forall_app. split; [done|]. apply Forall_singleton. by eapply subscribe_inv.
  - apply Forall_insert; [done|]. eapply sub_step_inv; [done| |done]. by eapply Forall_lookup_1.
  - apply Forall_insert; [done|]. destruct (Forall_lookup_1 _ _ _ _ Hs Hi) as [Hc (n & Hn & _)]. split; [done|]. by exists n.
Qed.

Lemma sys_reach_inv l base s s' : limits_ok l → sys_inv l base s → rtc (sys_step l) s s' → sys_inv l base s'.
Proof. intros Hl Hi Hr. induction Hr as [|x y z Hxy Hyz IH]; [done|]. apply IH. by eapply sys_step_inv. Qed.

(** ** Properties *)

Definition sub_run (j : JState) : Subscriber → Subscriber → Prop := rtc (λ a b, sub_step j a = Some b).

Lemma sub_run_inv l base j h s s' :
  journal_inv l base j h → sub_inv base j h s → sub_run j s s' → sub_inv base j h s'.
Proof. intros Hj Hs Hr. induction Hr as [|x y z Hxy Hyz IH]; [done|]. apply IH. by eapply sub_step_inv. Qed.

(** A subscriber at a retained position runs up to the head. *)
Lemma marked_run l base j h n b s :
  journal_inv l base j h → j_closed j = false → sub_cursor s = at_sequence base (Z.of_nat b) → sub_phase s = Marked →
  (length h - length (j_entries j) <= b)%nat → (b + n = length h)%nat →
  ∃ s', sub_run j s s' ∧ sub_phase s' = Waiting ∧ sub_cursor s' = j_head j ∧ sub_from s' = sub_from s.
Proof.
  intros Hj Hc. revert b s. induction n as [|n IH]; intros b s Hb Hp Hr Hn.
  - exists (sub_at s Waiting). assert (b = length h) as -> by lia. split; [|by rewrite (ji_head _ _ _ _ Hj)].
    apply rtc_once. unfold sub_step. rewrite Hp, Hb, (next_at l base j h Hj) by (done || lia). by rewrite decide_True.
  - destruct (lookup_lt_is_Some_2 h b) as [e He]; [lia|].
    pose proof (ji_numbered _ _ _ _ Hj _ _ He) as Hec.
    set (s1 := {| sub_cursor := je_cursor e; sub_seen := sub_seen s; sub_phase := Idle; sub_from := sub_from s;
                  sub_received := sub_received s ++ [e] |}).
    set (s2 := {| sub_cursor := je_cursor e; sub_seen := j_changed j; sub_phase := Marked; sub_from := sub_from s;
                  sub_received := sub_received s ++ [e] |}).
    destruct (IH (S b) s2) as (s' & Hrun & Hw & Hh & Hf); [cbn; rewrite Hec; f_equal; lia|done|lia|lia|].
    exists s'. split; [|done]. apply rtc_l with s1; [|apply rtc_l with s2; done].
    unfold sub_step. rewrite Hp, Hb, (next_at l base j h Hj) by (done || lia).
    rewrite decide_False, decide_True by lia. by rewrite He.
Qed.

Lemma idle_run l base j h b s :
  journal_inv l base j h → j_closed j = false → sub_cursor s = at_sequence base (Z.of_nat b) → sub_phase s = Idle →
  (length h - length (j_entries j) <= b <= length h)%nat →
  ∃ s', sub_run j s s' ∧ sub_phase s' = Waiting ∧ sub_cursor s' = j_head j ∧ sub_from s' = sub_from s.
Proof.
  intros Hj Hc Hb Hp Hr.
  destruct (marked_run l base j h (length h - b) b
    {| sub_cursor := sub_cursor s; sub_seen := j_changed j; sub_phase := Marked; sub_from := sub_from s;
       sub_received := sub_received s |}) as (s' & Hrun & Hrest); try done; try lia.
  exists s'. split; [|done]. eapply rtc_l; [|exact Hrun]. unfold sub_step. by rewrite Hp.
Qed.

Lemma initial_inv l head j :
  Journal_new head l = Ok j → 0 <= jl_max_bytes l → 0 <= jl_max_batches l → 0 <= jl_max_frame_bytes l →
  0 <= cursor_sequence head <= USIZE_MAX → limits_ok l ∧ sys_inv l head (sys_initial j).
Proof.
  intros Hn H1 H2 H3 Hs. destruct (limits_new _ _ _ Hn H1 H2 H3) as (Hl & Hh & He & Hb & Hc). split; [done|]. split; [|done].
  change (zlen (@nil JEntry)) with 0 in *. split; cbn; rewrite ?He, ?Hb; try done.
  - change (zlen (@nil JEntry)) with 0. lia.
  - rewrite Hh. destruct head. unfold at_sequence. cbn. f_equal. unfold zlen. cbn. lia.
  - by exists [].
Qed.

Section Reachable.
Context (l : JLimits) (base : Cursor) (j0 : JState) (s : System).
Context (Hnew : Journal_new base l = Ok j0).
Context (Hmachine : 0 <= jl_max_bytes l ∧ 0 <= jl_max_batches l ∧ 0 <= jl_max_frame_bytes l ∧
                    0 <= cursor_sequence base <= USIZE_MAX).
Context (Hreach : rtc (sys_step l) (sys_initial j0) s).

Lemma journal_reachable : limits_ok l ∧ sys_inv l base s.
Proof.
  destruct Hmachine as (H1 & H2 & H3 & H4). destruct (initial_inv _ _ _ Hnew H1 H2 H3 H4) as [Hl Hi].
  split; [done|]. by eapply sys_reach_inv.
Qed.

(** C28. The retention of a reachable journal is within both of its limits and is the
    newest part of everything published, numbered without gaps up to the head; a
    publication never panics, is accepted exactly for the next sequence and a frame
    within the limit while the journal is open, and otherwise changes nothing. *)
Theorem journal_bounded sequence frame :
  let j := sys_journal s in
  (∃ dropped, sys_history s = dropped ++ j_entries j) ∧
  j_bytes j = retained_bytes (j_entries j) ∧ j_bytes j <= jl_max_bytes l ∧ zlen (j_entries j) <= jl_max_batches l ∧
  j_head j = at_sequence base (zlen (sys_history s)) ∧
  (∀ i e, sys_history s !! i = Some e → je_cursor e = at_sequence base (Z.of_nat i + 1)) ∧
  ∃ j' r, publish l j sequence frame = Some (j', r) ∧
    match r with
    | Ok _ => j_head j' = at_sequence (j_head j) 1 ∧ last (j_entries j') = Some {| je_cursor := j_head j'; je_frame := frame |}
    | Err _ => j' = j
    end ∧
    (r = Ok tt ↔ j_closed j = false ∧ frame ≠ [] ∧ zlen frame <= jl_max_frame_bytes l ∧
                 sequence = cursor_sequence (j_head j) + 1 ∧ sequence <= USIZE_MAX).
Proof.
  destruct journal_reachable as [Hl [Hj _]]. pose proof Hj as [Hr Hh Hn Hd Hb [Hb1 Hb2]]. cbv zeta. split_and!; try done.
  destruct (publish_ok l base _ _ sequence frame Hl Hj) as
    [[e He]|(j' & He & Hs & Hne & Hz & Hc & _ & _ & Hh' & [Hr' _ _ [d Hd'] _ _])]; rewrite He.
  - exists (sys_journal s), (Err e). split_and!; try done. split; [done|]. intros (Hc & Hne & Hz & Hs & Hm). exfalso.
    unfold publish in He. rewrite bool_decide_eq_false_2, Hc in He by done.
    rewrite (proj2 (Z.ltb_ge _ _) Hz), bool_decide_eq_true_2 in He.
    2:{ apply usize_checked_Some. rewrite Hh in *. cbn in *. pose proof (zlen_nonneg (sys_history s)). lia. }
    cbn [orb negb] in He.
    assert (1 <= zlen frame) by (destruct frame as [|x t]; [done|]; rewrite zlen_cons; pose proof (zlen_nonneg t); lia).
    destruct (evict_oldest_ok l (zlen frame) (j_entries (sys_journal s)) Hl) as (? & k & _ & Hk & _); [unfold limits_ok in Hl; lia|lia|].
    rewrite Hb, Hk in He. cbn [mbind option_bind] in He. by destruct (u_add _ _).
  - exists j', (Ok tt). split; [done|]. split.
    + rewrite Hh'. split; [rewrite Hh; unfold at_sequence; cbn; f_equal; lia|].
      unfold publish in He. rewrite bool_decide_eq_false_2, Hc in He by done.
      rewrite (proj2 (Z.ltb_ge _ _) Hz) in He. cbn [orb] in He. destruct (negb _); [done|].
      destruct (evict_oldest _ _ _ _) as [[u k]|]; [|done]. cbn [mbind option_bind] in He. destruct (u_add u _); [|done].
      cbn [mbind option_bind] in He. injection He as <-. cbn [j_entries j_head] in *. rewrite last_snoc. by rewrite Hh'.
    + split; [|done]. intros _. rewrite Hh. cbn. rewrite zlen_snoc in Hr'. split_and!; (done || lia).
Qed.

(** C26. Delivery is exact: a subscriber has received precisely the entries published
    after the position it started from, in order and without a gap or a repetition; and
    no notification is lost: while it waits with none pending, it is at the head of an
    open journal. *)
Theorem journal_delivery i sub :
  sys_subs s !! i = Some sub →
  ∃ a b : nat, sub_from sub = at_sequence base (Z.of_nat a) ∧ sub_cursor sub = at_sequence base (Z.of_nat b) ∧
    (a <= b <= length (sys_history s))%nat ∧ sub_received sub = drop a (take b (sys_history s)) ∧
    (sub_phase sub = Waiting → watch_changed (j_changed (sys_journal s)) (sub_seen sub) = false →
     sub_cursor sub = j_head (sys_journal s) ∧ j_closed (sys_journal s) = false).
Proof.
  intros Hi. destruct journal_reachable as [_ [_ Hs]].
  destruct (Forall_lookup_1 _ _ _ _ Hs Hi) as [(a & b & Ha & Hb & Hab & Hr) (n & Hn & Hw)].
  exists a, b. do 4 (split; [done|]). intros Hp Hch. apply Hw; [|done]. destruct n; [done|].
  by rewrite Hn, watch_sent in Hch.
Qed.

(** C27. Progress: a subscriber of an open journal that has not fallen behind the
    retention receives, by its own steps alone, everything published after its start,
    and then waits at the head. *)
Theorem journal_catch_up i sub :
  sys_subs s !! i = Some sub → j_closed (sys_journal s) = false → (∀ e, sub_phase sub ≠ Failed e) →
  cursor_sequence (j_head (sys_journal s)) - cursor_sequence (sub_cursor sub) <= zlen (j_entries (sys_journal s)) →
  ∃ sub' (a : nat), sub_run (sys_journal s) sub sub' ∧ sub_phase sub' = Waiting ∧ sub_cursor sub' = j_head (sys_journal s) ∧
    sub_from sub = at_sequence base (Z.of_nat a) ∧ sub_received sub' = drop a (sys_history s).
Proof.
  intros Hi Hc Hp Hr. destruct journal_reachable as [_ [Hj Hs]]. pose proof (Forall_lookup_1 _ _ _ _ Hs Hi) as Hsub.
  destruct (si_cursors _ _ _ _ Hsub) as (a & b & Ha & Hb & Hab & _).
  assert (∃ sub', sub_run (sys_journal s) sub sub' ∧ sub_phase sub' = Waiting ∧ sub_cursor sub' = j_head (sys_journal s) ∧
            sub_from sub' = sub_from sub) as (sub' & Hrun & Hw & Hh & Hf).
  { rewrite Hb, (ji_head _ _ _ _ Hj) in Hr. cbn in Hr. unfold zlen in Hr. destruct (sub_phase sub) eqn:Ep.
    - eapply idle_run; try done. lia.
    - eapply (marked_run l base _ _ (length (sys_history s) - b)); try done; lia.
    - destruct (watch_changed (j_changed (sys_journal s)) (sub_seen sub)) eqn:Ew.
      + destruct (idle_run l base _ _ b (sub_at sub Idle) Hj Hc) as (s' & Hrun & Hrest); try done; [lia|].
        exists s'. split; [|done]. eapply rtc_l; [|exact Hrun]. unfold sub_step. by rewrite Ep, Ew.
      + exists sub. split; [apply rtc_refl|]. split_and!; try done.
        destruct (si_seen _ _ _ _ Hsub) as (n & Hn & Hx). apply Hx; [|done]. destruct n; [done|]. by rewrite Hn, watch_sent in Ew.
    - by destruct (Hp e). }
  exists sub', a. split_and!; try done. pose proof (sub_run_inv _ _ _ _ _ _ Hj Hsub Hrun) as Hsub'.
  destruct (si_cursors _ _ _ _ Hsub') as (a' & b' & Ha' & Hb' & Hab' & ->).
  rewrite Hf, Ha in Ha'. apply (f_equal cursor_sequence) in Ha'. cbn in Ha'.
  rewrite Hh, (ji_head _ _ _ _ Hj) in Hb'. apply (f_equal cursor_sequence) in Hb'. cbn in Hb'. unfold zlen in Hb'.
  rewrite (take_ge _ b') by lia. f_equal. lia.
Qed.
End Reachable.
End Journal.

(** ** Examples *)

(** A version counter is such a channel. *)
#[export] Program Instance nat_watch : Watch nat :=
  {| watch_initial := O; watch_send := S; watch_changed := λ current seen, negb (Nat.eqb current seen) |}.
Next Obligation. intros v. cbn. by rewrite Nat.eqb_refl. Qed.
Next Obligation.
  intros v n. assert (∀ k, Nat.iter k S v = (k + v)%nat) as Hk by (induction k as [|k IH]; [done|]; by rewrite Nat.iter_succ, IH).
  cbv beta. rewrite Hk. cbn [Nat.add]. destruct (Nat.eqb_spec (S (n + v)) v); [lia|done].
Qed.

Definition sample_limits : JLimits := {| jl_max_bytes := 10; jl_max_batches := 2; jl_max_frame_bytes := 4 |}.
Definition sample_head (n : Z) : Cursor := {| cursor_epoch := replicate 16 x2a; cursor_sequence := n |}.
Definition sample_entry (n : Z) (s : string) : JEntry := {| je_cursor := sample_head n; je_frame := lit s |}.
Definition sample_initial : JState :=
  {| j_head := sample_head 7; j_entries := []; j_bytes := 0; j_closed := false; j_changed := O |}.
(** Three publications, the first of them evicted, and a subscriber from the first on. *)
Definition sample_sub : Subscriber :=
  {| sub_cursor := sample_head 8; sub_seen := 1%nat; sub_phase := Idle; sub_from := sample_head 8; sub_received := [] |}.
Definition sample_system : System :=
  {| sys_journal := {| j_head := sample_head 10; j_entries := [sample_entry 9 "bb"; sample_entry 10 "ccc"]; j_bytes := 5;
                       j_closed := false; j_changed := 3%nat |};
     sys_history := [sample_entry 8 "aaaa"; sample_entry 9 "bb"; sample_entry 10 "ccc"];
     sys_subs := [sample_sub] |}.

Lemma sample_reachable : rtc (sys_step sample_limits) (sys_initial sample_initial) sample_system.
Proof.
  eapply rtc_l; [eapply (step_publish _ _ 8 (lit "aaaa")); vm_compute; reflexivity|].
  eapply rtc_l; [eapply (step_subscribe _ _ (sample_head 8)); vm_compute; reflexivity|].
  eapply rtc_l; [eapply (step_publish _ _ 9 (lit "bb")); vm_compute; reflexivity|].
  eapply rtc_l; [eapply (step_publish _ _ 10 (lit "ccc")); vm_compute; reflexivity|].
  vm_compute. apply rtc_refl.
Qed.

Lemma journal_bounded_witness :
  ∃ (j' : JState) r, publish sample_limits (sys_journal sample_system) 11 (lit "dddd") = Some (j', r) ∧ r = Ok tt.
Proof.
  destruct (journal_bounded (W := nat_watch) sample_limits (sample_head 7) sample_initial sample_system ltac:(vm_compute; reflexivity)
    ltac:(vm_compute; intuition congruence) sample_reachable 11 (lit "dddd")) as (_ & _ & _ & _ & _ & _ & j' & r & Hp & _ & Hr).
  exists j', r. split; [exact Hp|]. apply Hr. vm_compute. intuition congruence.
Defined.

Lemma journal_delivery_witness :
  sys_subs sample_system !! O = Some sample_sub ∧
  ∃ a b : nat, sub_from sample_sub = at_sequence (sample_head 7) (Z.of_nat a) ∧
    sub_received sample_sub = drop a (take b (sys_history sample_system)).
Proof.
  split; [done|].
  destruct (journal_delivery (W := nat_watch) sample_limits (sample_head 7) sample_initial sample_system ltac:(vm_compute; reflexivity)
    ltac:(vm_compute; intuition congruence) sample_reachable O sample_sub eq_refl) as (a & b & Ha & _ & _ & Hr & _).
  by exists a, b.
Defined.

Lemma journal_catch_up_witness :
  ∃ sub' (a : nat), sub_run (sys_journal sample_system) sample_sub sub' ∧
    sub_from sample_sub = at_sequence (sample_head 7) (Z.of_nat a) ∧ sub_received sub' = drop a (sys_history sample_system).
Proof.
  destruct (journal_catch_up (W := nat_watch) sample_limits (sample_head 7) sample_initial sample_system ltac:(vm_compute; reflexivity)
    ltac:(vm_compute; intuition congruence) sample_reachable O sample_sub eq_refl eq_refl ltac:(done)
    ltac:(vm_compute; congruence)) as (sub' & a & Hrun & _ & _ & Ha & Hr).
  by exists sub', a.
Defined.
