(* ===== verification/Recovery.v ===== *)
(** * Recovery of the append-only file

    Models the configuration, the errors and the recovery of
    src/persistence/writer.rs: the routed replay of a record, the loop over the
    records of a generation and the repair of its tail.  The clock is read once per
    replay: [clock n] is its [n]-th reading. *)

From Stdlib Require Import Strings.Byte Strings.String ZArith Lia.
From S2P Require Import Prelude Float Wire Score Memory Command Store StoreInv StoreSpec Mutation StoreExec Replay Routing Format MemoryFormat Profile MemoryLifecycle Decoded Protocol.

#[local] Open Scope Z_scope.
#[local] Open Scope fallible_scope.

(** ** Configuration and errors *)

(** A period is a [Duration] in nanoseconds. *)
Inductive SyncPolicy := Always | Periodic (period : Z).
#[export] Instance SyncPolicy_eq_decision : EqDecision SyncPolicy.
Proof. solve_decision. Defined.

Record AofConfig := {
  memory_profile : bool;
  directory : bytes;
  aof_layout : DurableLayout;
  aof_sync : SyncPolicy;
  queue_capacity : Z;
  aof_limits : Limits;
  compact_after_bytes : Z;
  max_delta_bytes : Z
}.
Definition AofConfig_new (dir : bytes) : AofConfig :=
  {| memory_profile := false; directory := dir; aof_layout := DurableLayout_default; aof_sync := Always;
     queue_capacity := 32; aof_limits := Limits_default; compact_after_bytes := 64 * 1024 * 1024;
     max_delta_bytes := 16 * 1024 * 1024 |}.
Definition with_memory_profile (c : AofConfig) : AofConfig :=
  {| memory_profile := true; directory := directory c; aof_layout := aof_layout c; aof_sync := aof_sync c;
     queue_capacity := queue_capacity c; aof_limits := aof_limits c; compact_after_bytes := compact_after_bytes c;
     max_delta_bytes := max_delta_bytes c |}.

(** [max_permits] is the largest capacity of the queue of the asynchronous runtime. *)
Definition AofConfig_validate (max_permits : Z) (c : AofConfig) : result ConfigError unit :=
  _ ← DurableLayout_validate (aof_layout c);
  _ ← guard_ok (negb (bool_decide (directory c = []))) (InvalidServerLimits "SIDER_AOF_DIR cannot be empty");
  _ ← guard_ok (negb ((queue_capacity c =? 0) || (max_permits <? queue_capacity c)))
        (InvalidServerLimits "AOF queue must have valid capacity");
  _ ← guard_ok (negb ((max_record_bytes (aof_limits c) <? 64) || (MAX_RECORD_BYTES <? max_record_bytes (aof_limits c))
                      || (max_mutations (aof_limits c) =? 0) || (1000000 <? max_mutations (aof_limits c))
                      || (max_delta_bytes c =? 0) || (ISIZE_MAX <? max_delta_bytes c)))
        (InvalidServerLimits "invalid AOF limits");
  match aof_sync c with
  | Periodic period =>
      guard_ok (negb ((period =? 0) || (60 * 10 ^ 9 <? period)))
        (InvalidServerLimits "AOF sync period must be between 1 ms and 60 s")
  | Always => Ok tt
  end.

Inductive AofError :=
| AofConfigError (e : ConfigError)
| AofIo
| AofFormat (e : FormatError)
| AofReplay (e : ReplayError)
| AofLocked
| AofUnavailable
| AofSequence
| AofCompacting
| AofDeltaLimit
| AofLayoutMismatch (expected actual : DurableLayout)
| AofCrossShard
| AofShardQuota (shard used quota : Z)
| AofMigration (what : string).

(** ** Routed replay *)

(** The shard of a batch of plain mutations, and the same check on any mutations. *)
Fixpoint batch_shard_loop (layout : DurableLayout) (selected : option Z) (keys : list bytes) : result AofError (option Z) :=
  match keys with
  | [] => Ok selected
  | key :: keys =>
      shard ← map_err AofConfigError (layout_shard_for layout key);
      if match selected with Some previous => negb (previous =? shard) | None => false end then Err AofCrossShard
      else batch_shard_loop layout (Some shard) keys
  end.
Definition batch_shard (l : list Mutation) (layout : DurableLayout) : result AofError Z :=
  selected ← batch_shard_loop layout None (Mutation_key <$> l); Ok (default 0 selected).

Fixpoint check_shards (layout : DurableLayout) (allow_mixed : bool) (selected : option Z) (l : list MMutation)
    : result AofError unit :=
  match l with
  | [] => Ok tt
  | mu :: l =>
      shard ← map_err AofConfigError (layout_shard_for layout (MMutation_key mu));
      if negb allow_mixed && match selected with Some previous => negb (previous =? shard) | None => false end
      then Err AofCrossShard
      else check_shards layout allow_mixed (Some shard) l
  end.

(** The usage of the touched shards after the batch; [None] is an index out of range. *)
Fixpoint project_usage (layout : DurableLayout) (usage : list Z) (projected : gmap Z Z) (deltas : list (bytes * Z * Z))
    : fallible AofError (gmap Z Z) :=
  match deltas with
  | [] => Some (Ok projected)
  | (key, before, after) :: deltas =>
      shard ⇐ Some (map_err AofConfigError (layout_shard_for layout key));
      match (match projected !! shard with Some used => Some used | None => usage !! Z.to_nat shard end) with
      | None => None
      | Some used =>
          used ⇐ Some (ok_or (AofReplay ReplayQuota) (value ← u_sub used before; u_add value after));
          project_usage layout usage (<[shard := used]> projected) deltas
      end
  end.
Definition check_quotas (layout : DurableLayout) (total : Z) (projected : gmap Z Z) : result AofError unit :=
  fold_ok (λ _ '(shard, used),
    q ← map_err AofConfigError (quota layout total shard);
    if q <? used then Err (AofShardQuota shard used q) else Ok tt) tt (btree_iter projected).
Definition store_usage (usage : list Z) (projected : gmap Z Z) : list Z :=
  foldl (λ usage '(shard, used), <[Z.to_nat shard := used]> usage) usage (btree_iter projected).

Definition replay_routed_memory (s : Store) (t : Sample) (l : list MMutation) (layout : DurableLayout) (total : Z)
    (usage : list Z) (allow_mixed : bool) : fallible AofError (Store * list Z) :=
  _ ⇐ Some (check_shards layout allow_mixed None l);
  p ⇐ map_err AofReplay <$> prepare_memory_replay s t l Client;
  deltas ⇐ Some (map_err AofReplay (usage_deltas p s));
  projected ⇐ project_usage layout usage ∅ deltas;
  _ ⇐ Some (check_quotas layout total projected);
  '(s, _) ← apply s p;
  Some (Ok (s, store_usage usage projected)).

(** ** The loop over the records *)

Record LoadState := {
  ls_store : Store;
  ls_usage : list Z;
  ls_sequence : Z;
  ls_sealed : bool;
  ls_previous : option bytes;
  ls_entries : Z;
  ls_digest : Z;
  ls_valid : Z;
  ls_reads : nat
}.

Section Load.
Context (p : Profile) (layout : DurableLayout) (limits : Limits) (total : Z) (clock : nat → Sample).

Definition load_replay (st : LoadState) (l : list MMutation) : fallible AofError (Store * list Z) :=
  replay_routed_memory (ls_store st) (clock (ls_reads st)) l layout total (ls_usage st)
    (bool_decide (p = ComposedLegacyMixed)).

(** One record; [position] is the position of the file after it. *)
Definition load_record (base : Z) (st : LoadState) (r : MRecord) (position : Z) : fallible AofError LoadState :=
  match r with
  | MSnapshot mu =>
      if negb (ls_sealed st) && is_image mu then
        if match ls_previous st with Some key => bool_decide (cmp key (MMutation_key mu) ≠ Lt) | None => false end
        then Some (Err AofSequence)
        else
          encoded ⇐ Some (map_err AofFormat (profile_encode p (MSnapshot mu) limits));
          '(s, usage) ⇐ load_replay st [mu];
          Some (Ok {| ls_store := s; ls_usage := usage; ls_sequence := ls_sequence st; ls_sealed := false;
                      ls_previous := Some (MMutation_key mu); ls_entries := ls_entries st + 1;
                      ls_digest := snapshot_digest (ls_digest st) encoded; ls_valid := position;
                      ls_reads := S (ls_reads st) |})
      else Some (Err AofSequence)
  | MSeal seal entries digest =>
      if negb (ls_sealed st) && (seal =? base) && (entries =? ls_entries st) && (digest =? ls_digest st) then
        Some (Ok {| ls_store := ls_store st; ls_usage := ls_usage st; ls_sequence := ls_sequence st; ls_sealed := true;
                    ls_previous := ls_previous st; ls_entries := ls_entries st; ls_digest := ls_digest st;
                    ls_valid := position; ls_reads := ls_reads st |})
      else Some (Err AofSequence)
  | MBatch next _ ms =>
      if ls_sealed st && bool_decide (u_add (ls_sequence st) 1 = Some next) then
        '(s, usage) ⇐ load_replay st ms;
        Some (Ok {| ls_store := s; ls_usage := usage; ls_sequence := next; ls_sealed := true;
                    ls_previous := ls_previous st; ls_entries := ls_entries st; ls_digest := ls_digest st;
                    ls_valid := position; ls_reads := S (ls_reads st) |})
      else Some (Err AofSequence)
  end.

(** Reads records until the end or an incomplete tail; [size] is the length of the
    file, so that [size - zlen rest] is the position. *)
Fixpoint load_loop (fuel : nat) (base size : Z) (st : LoadState) (input : bytes) : fallible AofError (LoadState * bool) :=
  match fuel with
  | O => None
  | S fuel =>
      next ⇐ Some (map_err AofFormat (profile_read_record p limits input));
      match next with
      | MEnd => Some (Ok (st, false))
      | MIncompleteTail => Some (Ok (st, true))
      | MNextRecord r rest =>
          st ⇐ load_record base st r (size - zlen rest);
          load_loop fuel base size st rest
      end
  end.

(** Every record takes at least one byte. *)
Definition load_fuel (input : bytes) : nat := S (length input).
End Load.

Record RecoveryMetadata := {
  rm_layout : DurableLayout;
  rm_sequence : Z;
  rm_format_version : Z;
  rm_shard_usage : list Z;
  rm_valid_bytes : Z;
  rm_incomplete_tail_bytes : Z;
  rm_replication : option ReplicationMetadata
}.

(** The reading of one generation: [load_profile] from the open file on.  Also returns
    whether the tail is incomplete. *)
Definition load_generation (p : Profile) (cfg : AofConfig) (sc : StoreConfig) (clock : nat → Sample) (file : bytes)
    : fallible AofError (Store * RecoveryMetadata * bool) :=
  s ⇐ Some (map_err AofConfigError (with_config 0 sc));
  '(header, input) ⇐ Some match profile_read_header p file with
                          | Err (FVersion v) =>
                              if (1 <=? v) && (v <=? 3) && memory_profile cfg
                              then Err (AofMigration "record-2 profile requires explicit offline migration from legacy AOF")
                              else Err (AofFormat (FVersion v))
                          | Err e => Err (AofFormat e)
                          | Ok h => Ok h
                          end;
  if negb (bool_decide (h_layout header = aof_layout cfg))
  then Some (Err (AofLayoutMismatch (aof_layout cfg) (h_layout header)))
  else
    let st := {| ls_store := s; ls_usage := replicate (Z.to_nat (shard_count (aof_layout cfg))) 0;
                 ls_sequence := h_sequence header; ls_sealed := false; ls_previous := None; ls_entries := 0;
                 ls_digest := 0; ls_valid := h_bytes header; ls_reads := O |} in
    '(st, incomplete) ⇐ load_loop p (aof_layout cfg) (aof_limits cfg) (max_dataset_bytes sc) clock (load_fuel input)
                          (h_sequence header) (zlen file) st input;
    if negb (ls_sealed st) then Some (Err AofSequence)
    else
      Some (Ok (ls_store st,
                {| rm_layout := h_layout header; rm_sequence := ls_sequence st;
                   rm_format_version := h_format_version header; rm_shard_usage := ls_usage st;
                   rm_valid_bytes := ls_valid st;
                   rm_incomplete_tail_bytes := if (incomplete : bool) then zlen file - ls_valid st else 0;
                   rm_replication := h_replication header |}, incomplete)).

(** ** The meaning of a batch of the log *)

Abbreviation dataset := (gmap bytes (Value * option Z)).

(** The images a batch resolves to on a dataset: a delta edits the collection there. *)
Definition log_image (m : dataset) (mu : MMutation) : fallible ReplayError Mutation :=
  match mu with
  | Legacy mu => Some (Ok mu)
  | Image key collection expiry =>
      Some (_ ← map_err ReplayMemory (validate_key collection key); Ok (Put key (VMemory collection) expiry))
  | Delta key d edits expiry =>
      match m !! key with
      | Some (VMemory collection, _) =>
          r ← apply_edits collection d edits key;
          Some (candidate ← map_err ReplayMemory r; Ok (Put key (VMemory candidate) expiry))
      | _ => Some (Err (ReplayMemory Identity))
      end
  end.
Fixpoint log_images (m : dataset) (seen : gset bytes) (l : list MMutation) : fallible ReplayError (list Mutation) :=
  match l with
  | [] => Some (Ok [])
  | mu :: l =>
      if bool_decide (MMutation_key mu ∈ seen) then Some (Err DuplicateKey)
      else image ⇐ log_image m mu;
           images ⇐ log_images m ({[MMutation_key mu]} ∪ seen) l;
           Some (Ok (image :: images))
  end.
(** The dataset after a batch, at a time. *)
Definition log_effect (t : Sample) (m : dataset) (l : list MMutation) : fallible ReplayError dataset :=
  images ⇐ log_images m ∅ l; Some (Ok (apply_mutations t m images)).

Lemma replay_image_log s mu : replay_image s mu = log_image (persisted s) mu.
Proof.
  destruct mu as [mu|key c expiry|key d edits expiry]; try done. cbn. rewrite lookup_persisted.
  destruct (values s !! key) as [[v a b g ds]|]; [|done]. cbn. by destruct v.
Qed.
Lemma replay_images_log s seen l : replay_images s seen l = log_images (persisted s) seen l.
Proof.
  revert seen. induction l as [|mu l IH]; intros seen; [done|]. cbn. case_bool_decide; [done|].
  rewrite replay_image_log. destruct (log_image _ mu) as [[image|e]|]; [|done..]. cbn.
  rewrite IH. by destruct (log_images _ _ l) as [[images|e]|].
Qed.

Lemma log_image_ok s mu :
  store_wf s → mmutation_wf mu →
  ∃ r, log_image (persisted s) mu = Some r ∧
    match r with Ok image => mutation_wf image ∧ Mutation_key image = MMutation_key mu | Err _ => True end.
Proof.
  intros [Hc _ _] Hm. destruct mu as [mu|key c expiry|key d edits expiry]; cbn.
  - eexists. split; [done|]. by split.
  - eexists. split; [done|]. by destruct (validate_key c key).
  - rewrite lookup_persisted. destruct (values s !! key) as [e|] eqn:Hk; cbn; [|by eexists].
    pose proof (co_entries _ _ Hc _ _ Hk) as [Hv _ _ _ [_ Hi]].
    destruct (e_value e) eqn:Ev; try (by eexists). rename collection into c. cbn in Hv.
    destruct (apply_edits_ok c d edits key Hv) as (r & Hr & Hok). rewrite Hr. cbn [mbind option_bind].
    destruct r as [c'|err]; [|by eexists]. destruct (Hok c' eq_refl) as (Hw & Hq & _). destruct Hm as [He Hd].
    eexists. split; [done|]. split; [|done]. pose proof (apply_edits_i64 _ _ _ _ _ Hv Hr Hi He) as Hi'. done.
Qed.
Lemma log_images_ok s seen l :
  store_wf s → Forall mmutation_wf l →
  ∃ r, log_images (persisted s) seen l = Some r ∧
    match r with
    | Ok images => Forall mutation_wf images ∧ Mutation_key <$> images = MMutation_key <$> l ∧
                   NoDup (MMutation_key <$> l) ∧ ∀ k, k ∈ MMutation_key <$> l → k ∉ seen
    | Err _ => True
    end.
Proof.
  intros Hs Hl. revert seen. induction Hl as [|mu l Hm Hl IH]; intros seen; cbn.
  { eexists. split; [done|]. split_and!; [done..|constructor|]. intros k ?%not_elem_of_nil. done. }
  case_bool_decide as Hin; [by eexists|]. destruct (log_image_ok s mu Hs Hm) as ([image|e] & -> & Hi); cbn; [|by eexists].
  destruct (IH ({[MMutation_key mu]} ∪ seen)) as ([images|e] & -> & Hr); cbn; [|by eexists].
  destruct Hi as [Hw Hk], Hr as (Hws & Hks & Hn & Hd). eexists. split; [done|]. cbn. split_and!.
  - by constructor.
  - by rewrite Hk, Hks.
  - apply NoDup_cons. split; [|done]. intros Hx. destruct (Hd _ Hx). set_solver.
  - intros k [->|Hx]%elem_of_cons; [done|]. specialize (Hd _ Hx). set_solver.
Qed.

(** ** The usage of the shards *)

Definition shard_of (layout : DurableLayout) (key : bytes) : Z := shard_for {| count := shard_count layout |} key.
(** The bytes of a dataset on a shard. *)
Definition shard_size (layout : DurableLayout) (m : dataset) (shard : Z) : Z :=
  map_zsum (λ k c, if shard_of layout k =? shard then entry_size k c.1 else 0) m.
Definition shard_quota (layout : DurableLayout) (total shard : Z) : Z :=
  total / shard_count layout + (if shard <? total mod shard_count layout then 1 else 0).
(** The usage of every shard is exact. *)
Definition usage_exact (layout : DurableLayout) (usage : list Z) (m : dataset) : Prop :=
  length usage = Z.to_nat (shard_count layout) ∧
  ∀ shard, 0 <= shard < shard_count layout → usage !! Z.to_nat shard = Some (shard_size layout m shard).
Definition within_shards (layout : DurableLayout) (total : Z) (m : dataset) : Prop :=
  ∀ shard, 0 <= shard < shard_count layout → shard_size layout m shard <= shard_quota layout total shard.

Definition before_on (layout : DurableLayout) (shard : Z) (ds : list (bytes * Z * Z)) : Z :=
  zsum_with (λ d, if shard_of layout d.1.1 =? shard then d.1.2 else 0) ds.
Definition after_on (layout : DurableLayout) (shard : Z) (ds : list (bytes * Z * Z)) : Z :=
  zsum_with (λ d, if shard_of layout d.1.1 =? shard then d.2 else 0) ds.
Definition projected_usage (usage : list Z) (projected : gmap Z Z) (shard : Z) : Z :=
  match projected !! shard with Some used => used | None => default 0 (usage !! Z.to_nat shard) end.

Section Shards.
Context (layout : DurableLayout) (Hlayout : DurableLayout_validate layout = Ok tt).

Lemma shard_for_ok key : layout_shard_for layout key = Ok (shard_of layout key) ∧ 0 <= shard_of layout key < shard_count layout.
Proof.
  pose proof (validate_count _ Hlayout) as Hc. split.
  - unfold layout_shard_for. rewrite Hlayout. cbn. unfold ShardRouter_new.
    assert ((1 <=? shard_count layout) && (shard_count layout <=? MAX_SHARDS) = true) as -> by lia. done.
  - apply shard_for_range. unfold router_ok. cbn. lia.
Qed.

Lemma after_on_nonneg shard ds : Forall (λ d, 0 <= d.2) ds → 0 <= after_on layout shard ds.
Proof.
  unfold after_on, zsum_with. induction 1 as [|d ds Hd _ IH]; cbn; [lia|]. destruct (_ =? _); lia.
Qed.

Lemma project_usage_ok usage projected ds :
  length usage = Z.to_nat (shard_count layout) → Forall (λ d, 0 <= d.1.2 ∧ 0 <= d.2) ds →
  (∀ shard, 0 <= shard < shard_count layout →
     before_on layout shard ds <= projected_usage usage projected shard ∧
     projected_usage usage projected shard + after_on layout shard ds <= USIZE_MAX) →
  ∃ projected', project_usage layout usage projected ds = Some (Ok projected') ∧
    (∀ shard, 0 <= shard < shard_count layout →
       projected_usage usage projected' shard =
       projected_usage usage projected shard - before_on layout shard ds + after_on layout shard ds) ∧
    (∀ shard, is_Some (projected' !! shard) → is_Some (projected !! shard) ∨ 0 <= shard < shard_count layout) ∧
    (∀ shard, is_Some (projected !! shard) → is_Some (projected' !! shard)).
Proof.
  intros Hlen Hds. revert projected. induction Hds as [|[[key before] after] ds [Hb Ha] Hds IH]; intros projected Hp.
  { exists projected. split; [done|]. split; [unfold before_on, after_on; cbn; intros; lia|]. split; [by left|done]. }
  cbn [fst snd] in Hb, Ha. destruct (shard_for_ok key) as [Hs Hr]. cbn [project_usage]. rewrite Hs. cbn [map_err fallible_bind].
  set (sh := shard_of layout key) in *.
  assert (∀ shard, before_on layout shard ((key, before, after) :: ds) = (if sh =? shard then before else 0) + before_on layout shard ds) as Eb by done.
  assert (∀ shard, after_on layout shard ((key, before, after) :: ds) = (if sh =? shard then after else 0) + after_on layout shard ds) as Ea by done.
  assert (∀ shard, 0 <= before_on layout shard ds ∧ 0 <= after_on layout shard ds) as Hnn.
  { intros shard. split; [|apply after_on_nonneg; eapply Forall_impl; [done|by intros ? []]].
    unfold before_on, zsum_with. clear -Hds. induction Hds as [|d ds [Hd _] _ IH]; cbn; [lia|]. destruct (_ =? _); lia. }
  destruct (lookup_lt_is_Some_2 usage (Z.to_nat sh)) as [u Hu]; [lia|].
  assert ((match projected !! sh with Some used => Some used | None => usage !! Z.to_nat sh end)
          = Some (projected_usage usage projected sh)) as ->.
  { unfold projected_usage. destruct (projected !! sh); [done|]. by rewrite Hu. }
  destruct (Hp sh Hr) as [Hp1 Hp2]. rewrite Eb, Z.eqb_refl in Hp1. rewrite Ea, Z.eqb_refl in Hp2. pose proof (Hnn sh).
  unfold u_sub, u_add. rewrite usize_checked_ok by lia. cbn [mbind option_bind]. rewrite usize_checked_ok by lia.
  cbn [ok_or fallible_bind]. set (v := projected_usage usage projected sh - before + after).
  assert (∀ shard, projected_usage usage (<[sh := v]> projected) shard = if sh =? shard then v else projected_usage usage projected shard) as Ep.
  { intros shard. unfold projected_usage. destruct (Z.eqb_spec sh shard) as [<-|Hne]; [by rewrite lookup_insert_eq|by rewrite lookup_insert_ne]. }
  destruct (IH (<[sh := v]> projected)) as (projected' & He & Hv & Hd & Hk).
  { intros shard Hsh. destruct (Hp shard Hsh) as [H1 H2]. rewrite Eb in H1. rewrite Ea in H2. rewrite Ep.
    pose proof (Hnn shard). destruct (Z.eqb_spec sh shard) as [<-|]; [subst v; lia|lia]. }
  exists projected'. split; [done|]. split_and!.
  - intros shard Hsh. rewrite (Hv shard Hsh), Ep, Eb, Ea. destruct (Z.eqb_spec sh shard) as [<-|]; [subst v; lia|lia].
  - intros shard [Hx|Hx]%Hd; [|by right]. destruct (decide (sh = shard)) as [<-|Hne]; [by right|].
    rewrite lookup_insert_ne in Hx by done. by left.
  - intros shard Hx. apply Hk. destruct (decide (sh = shard)) as [<-|Hne]; [by rewrite lookup_insert_eq|by rewrite lookup_insert_ne].
Qed.

Lemma store_usage_lookup usage projected i :
  (∀ shard, is_Some (projected !! shard) → 0 <= shard < shard_count layout) →
  length usage = Z.to_nat (shard_count layout) →
  length (store_usage usage projected) = length usage ∧
  (0 <= i < shard_count layout → store_usage usage projected !! Z.to_nat i = Some (projected_usage usage projected i)).
Proof.
  intros Hp Hlen. unfold store_usage, projected_usage.
  assert (∀ l : list (Z * Z), NoDup l.*1 → (∀ s u, (s, u) ∈ l → 0 <= s < shard_count layout) →
    ∀ us, length us = length usage →
    let r := foldl (λ usage '(shard, used), <[Z.to_nat shard := used]> usage) us l in
    length r = length usage ∧
    (0 <= i < shard_count layout →
     r !! Z.to_nat i = match (list_to_map l : gmap Z Z) !! i with Some u => Some u | None => us !! Z.to_nat i end)) as Hfold.
  { induction l as [|[s u] l IH]; intros Hn Hl us Hus; cbn; [by split|].
    apply NoDup_cons in Hn as [Hs Hn]. pose proof (Hl s u ltac:(left)) as Hr.
    destruct (IH Hn ltac:(intros; eapply Hl; by right) (<[Z.to_nat s := u]> us)) as [H1 H2]; [by rewrite length_insert|].
    split; [done|]. intros Hi. rewrite (H2 Hi). destruct (decide (i = s)) as [->|Hne].
    - rewrite not_elem_of_list_to_map_1, lookup_insert_eq by done. apply list_lookup_insert_eq. lia.
    - rewrite lookup_insert_ne by done. rewrite list_lookup_insert_ne by lia. done. }
  destruct (Hfold (btree_iter projected) (btree_iter_NoDup projected)) with (us := usage) as [H1 H2]; [|done|].
  { intros s u Hin%btree_iter_elem. apply Hp. by rewrite Hin. }
  split; [done|]. intros Hi. rewrite (H2 Hi), list_to_map_iter. destruct (projected !! i); [done|].
  destruct (lookup_lt_is_Some_2 usage (Z.to_nat i)) as [u Hu]; [lia|]. by rewrite Hu.
Qed.

Lemma check_quotas_ok total projected :
  shard_count layout <= total → (∀ shard, is_Some (projected !! shard) → 0 <= shard < shard_count layout) →
  check_quotas layout total projected = Ok tt ↔
  ∀ shard used, projected !! shard = Some used → used <= shard_quota layout total shard.
Proof.
  intros Ht Hp.
  assert (∀ s u, (s, u) ∈ btree_iter projected → 0 <= s < shard_count layout) as Hr
    by (intros s u Hx%btree_iter_elem; apply Hp; by rewrite Hx).
  trans (∀ s u, (s, u) ∈ btree_iter projected → u <= shard_quota layout total s).
  2:{ split; intros H s u Hx; apply H; by apply btree_iter_elem. }
  unfold check_quotas. induction (btree_iter projected) as [|[s u] l IH]; cbn.
  { split; [|done]. intros _ s u Hx. by apply not_elem_of_nil in Hx. }
  rewrite (quota_ok layout total s); [|done|by eapply Hr; left|done]. cbn [map_err mbind result_bind].
  fold (shard_quota layout total s). destruct (Z.ltb_spec (shard_quota layout total s) u) as [Hlt|Hle]; cbn [mbind result_bind].
  { split; [done|]. intros H. pose proof (H s u ltac:(left)). lia. }
  rewrite IH by (intros s' u' Hx; eapply Hr; by right). split; intros H s' u'.
  - intros [[= -> ->]|Hx]%elem_of_cons; [done|by apply H].
  - intros Hx. apply H. by right.
Qed.
End Shards.

(** The shards partition the dataset. *)
Lemma content_size_shards layout m :
  DurableLayout_validate layout = Ok tt → content_size m = zsum_with (shard_size layout m) (seqZ 0 (shard_count layout)).
Proof.
  intros Hl. unfold content_size, shard_size. induction m as [|k c m Hk IH] using map_ind.
  { rewrite map_zsum_empty, (zsum_with_ext _ (λ _, 0)) by (intros; apply map_zsum_empty).
    unfold zsum_with. induction (seqZ _ _); cbn; lia. }
  rewrite map_zsum_insert, IH by done. rewrite (zsum_with_ext (λ shard, map_zsum _ (<[k:=c]> m))
    (λ shard, (if decide (shard_of layout k = shard) then entry_size k c.1 else 0)
              + map_zsum (λ k c, if shard_of layout k =? shard then entry_size k c.1 else 0) m)).
  - rewrite zsum_with_plus, zsum_with_owner by apply NoDup_seqZ. rewrite decide_True; [done|].
    apply elem_of_seqZ. pose proof (shard_for_ok layout Hl k). lia.
  - intros shard _. rewrite map_zsum_insert by done. case_decide; destruct (Z.eqb_spec (shard_of layout k) shard); done.
Qed.
Lemma within_total layout total m :
  DurableLayout_validate layout = Ok tt → shard_count layout <= total → within_shards layout total m → content_size m <= total.
Proof.
  intros Hl Ht Hw. pose proof (validate_count _ Hl) as Hc. rewrite (content_size_shards layout m Hl).
  etrans; [apply zsum_with_le; intros shard Hs%elem_of_seqZ; apply Hw; lia|]. unfold shard_quota.
  pose proof (Z.mod_pos_bound total (shard_count layout)).
  pose proof (quota_sum (total / shard_count layout) (total mod shard_count layout) (Z.to_nat (shard_count layout))) as Hq.
  rewrite Z2Nat.id in Hq by lia. rewrite Hq by lia.
  pose proof (Z.div_mod total (shard_count layout)). lia.
Qed.
Lemma within_forall layout total m :
  Forall (λ shard, shard_size layout m shard <= shard_quota layout total shard) (seqZ 0 (shard_count layout)) ↔
  within_shards layout total m.
Proof.
  unfold within_shards. rewrite Forall_forall. split; intros H shard Hs; apply H; [apply elem_of_seqZ|apply elem_of_seqZ in Hs]; lia.
Qed.
#[export] Instance within_shards_dec layout total m : Decision (within_shards layout total m).
Proof.
  refine (cast_if (decide (Forall (λ shard, shard_size layout m shard <= shard_quota layout total shard) (seqZ 0 (shard_count layout)))));
    by rewrite <- within_forall.
Defined.

(** ** Sums over a batch *)

Lemma apply_mutations_sum (w : bytes → Value * option Z → Z) t m l :
  NoDup (Mutation_key <$> l) →
  map_zsum w (apply_mutations t m l) =
  map_zsum w m - zsum_with (λ mu, at_key w (m !! Mutation_key mu) (Mutation_key mu)) l
  + zsum_with (λ mu, at_key w (mutation_effect t mu) (Mutation_key mu)) l.
Proof.
  intros Hn. rewrite (map_zsum_change w m (apply_mutations t m l) (Mutation_key <$> l)); [|done|].
  2:{ intros k Hk. rewrite lookup_apply_mutations by done. rewrite not_elem_of_list_to_map_1; [done|].
      by rewrite <- list_fmap_compose. }
  rewrite !zsum_with_fmap. f_equal. apply zsum_with_ext. intros mu Hmu. unfold compose.
  rewrite lookup_apply_mutations by done. rewrite (elem_of_list_to_map_1 _ (Mutation_key mu) (mutation_effect t mu)); [done|..].
  - by rewrite <- list_fmap_compose.
  - apply list_elem_of_fmap. by exists mu.
Qed.
Lemma map_zsum_keys_le {V} (w : bytes → V → Z) m (l : list bytes) :
  (∀ k v, m !! k = Some v → 0 <= w k v) → NoDup l → zsum_with (λ k, at_key w (m !! k) k) l <= map_zsum w m.
Proof.
  intros Hw Hn. pose proof (map_zsum_change w m (base.filter (λ e, e.1 ∉ l) m) l Hn) as H.
  assert (zsum_with (λ k, at_key w (base.filter (λ e : bytes * V, e.1 ∉ l) m !! k) k) l = 0) as E.
  { rewrite (zsum_with_ext _ (λ _, 0)).
    - unfold zsum_with. clear. induction l; cbn; lia.
    - intros k Hk. rewrite map_lookup_filter_None_2; [done|]. right. intros v _. cbn. tauto. }
  assert (0 <= map_zsum w (base.filter (λ e, e.1 ∉ l) m)) as H0.
  { apply map_zsum_nonneg. intros k v [Hk _]%map_lookup_filter_Some. by apply Hw. }
  rewrite H in H0; [lia|]. intros k Hk. symmetry. destruct (m !! k) as [v|] eqn:Ek.
  - by apply map_lookup_filter_Some.
  - apply map_lookup_filter_None. by left.
Qed.

(** ** Routed replay *)

(** A store being recovered, with the usage of its shards. *)
Record recovered_ok (layout : DurableLayout) (total : Z) (s : Store) (usage : list Z) : Prop := {
  ro_store : store_wf s;
  ro_total : max_dataset_bytes (config s) = total;
  ro_usage : usage_exact layout usage (persisted s);
  ro_quota : within_shards layout total (persisted s)
}.

Lemma check_shards_ok layout mixed selected l :
  DurableLayout_validate layout = Ok tt →
  check_shards layout mixed selected l = Err AofCrossShard ∨
  check_shards layout mixed selected l = Ok tt ∧
    (mixed = false → ∀ mu, mu ∈ l → ∀ mu', mu' ∈ l → shard_of layout (MMutation_key mu) = shard_of layout (MMutation_key mu')).
Proof.
  intros Hl.
  assert (∀ selected, check_shards layout mixed selected l = Err AofCrossShard ∨
    check_shards layout mixed selected l = Ok tt ∧
    (mixed = false → ∀ mu, mu ∈ l → shard_of layout (MMutation_key mu) = default (shard_of layout (MMutation_key mu)) selected ∧
       ∀ mu', mu' ∈ l → shard_of layout (MMutation_key mu) = shard_of layout (MMutation_key mu'))) as H.
  { induction l as [|mu l IH]; intros sel; cbn.
    { right. split; [done|]. intros _ mu ?%not_elem_of_nil. done. }
    rewrite (proj1 (shard_for_ok layout Hl (MMutation_key mu))). cbn [map_err mbind result_bind].
    destruct (negb mixed && _) eqn:E; [by left|]. destruct (IH (Some (shard_of layout (MMutation_key mu)))) as [Hc|[Hc Hr]]; [by left|].
    right. split; [done|]. intros Hm. specialize (Hr Hm). subst mixed. cbn in E.
    assert (∀ mu', mu' ∈ l → shard_of layout (MMutation_key mu') = shard_of layout (MMutation_key mu)) as Hx
      by (intros mu' Hin; exact (proj1 (Hr mu' Hin))).
    assert (∀ z, sel = Some z → z = shard_of layout (MMutation_key mu)) as Hz by (intros z ->; lia).
    assert (∀ mu', mu' ∈ mu :: l → shard_of layout (MMutation_key mu') = shard_of layout (MMutation_key mu)) as Ha
      by (intros mu' [->|Hin]%elem_of_cons; auto).
    intros mu1 H1. split; [destruct sel as [z|]; cbn; [rewrite (Hz z eq_refl); auto|done]|].
    intros mu2 H2. by rewrite (Ha _ H1), (Ha _ H2). }
  destruct (H selected) as [Hc|[Hc Hr]]; [by left|right]. split; [done|]. intros Hm mu Hin. by apply Hr.
Qed.

Section Routed.
Context (layout : DurableLayout) (total : Z) (s : Store) (usage : list Z) (t : Sample) (images : list Mutation).
Context (Hlayout : DurableLayout_validate layout = Ok tt) (Htotal : shard_count layout <= total).
Context (Hs : recovered_ok layout total s usage) (Ht : clock_ok t).
Context (Hn : NoDup (Mutation_key <$> images)) (Hw : Forall mutation_wf images).
Context (Hfit : replay_usage s t images <= total).

(** The deltas of a batch that fits. *)
Definition image_delta (mu : Mutation) : bytes * Z * Z :=
  (Mutation_key mu, charge s (Mutation_key mu), optional_size (replayed s t mu)).

Lemma replayed_size_nonneg mu : mu ∈ images → 0 <= optional_size (replayed s t mu).
Proof.
  intros Hin. pose proof (proj1 (Forall_forall _ _) Hw) as Hw'. pose proof (replayed_ok s t mu (Hw' mu Hin)) as Ho. unfold optional_ok, optional_size in *.
  destruct (replayed s t mu).2 as [e|]; [|lia]. pose proof (entry_size_pos (replayed s t mu).1 (e_value e) (eo_value _ _ Ho)). lia.
Qed.
Lemma optional_sizes_bound : zsum_with (λ mu, optional_size (replayed s t mu)) images <= total.
Proof.
  pose proof Hs as [[Hc _ _] Hm _ _]. unfold replay_usage in Hfit. rewrite !zsum_with_fmap in Hfit.
  pose proof (charges_bound 0 s _ Hc Hn) as Hb. rewrite zsum_with_fmap in Hb.
  change (zsum_with (optional_size ∘ replayed s t) images <= total). lia.
Qed.
Lemma zsum_with_member {A} (f : A → Z) l x : (∀ y, y ∈ l → 0 <= f y) → x ∈ l → f x <= zsum_with f l.
Proof.
  unfold zsum_with. induction l as [|y l IH]; intros Hf Hx; [by apply not_elem_of_nil in Hx|]. cbn.
  assert (0 <= foldr (λ x acc, f x + acc) 0 l).
  { assert (∀ y, y ∈ l → 0 <= f y) as Hl by (intros; apply Hf; by right). clear -Hl.
    induction l as [|z l IH]; cbn; [lia|]. pose proof (Hl z ltac:(left)). specialize (IH ltac:(intros; apply Hl; by right)). lia. }
  apply elem_of_cons in Hx as [->|Hx]; [lia|]. specialize (IH ltac:(intros; apply Hf; by right) Hx). pose proof (Hf y ltac:(left)). lia.
Qed.

Lemma usage_deltas_ok o : usage_deltas (prepared s ROk (replayed s t <$> images) o) s = Ok (image_delta <$> images).
Proof.
  pose proof Hs as [[Hc _ _] Hm _ _]. pose proof (co_config _ _ Hc). pose proof (co_quota _ _ Hc). assert (ISIZE_MAX <= USIZE_MAX) by done.
  unfold usage_deltas. cbn [p_entries prepared].
  rewrite (try_map_ok _ (λ e, (e.1, charge s e.1, optional_size e)) (replayed s t <$> images)).
  { f_equal. by rewrite <- list_fmap_compose. }
  intros e (mu & -> & Hin)%list_elem_of_fmap. pose proof (proj1 (Forall_forall _ _) Hw) as Hw'.
  assert (optional_bytes (replayed s t mu).1 (values s !! (replayed s t mu).1) = Ok (charge s (replayed s t mu).1)) as ->.
  { pose proof (charge_bounds 0 s (replayed s t mu).1 Hc) as Hb. unfold optional_bytes, charge in *.
    destruct (values s !! (replayed s t mu).1) as [e|] eqn:E; [|done].
    rewrite entry_bytes_eq by apply (eo_value _ _ (co_entries _ _ Hc _ _ E)). by rewrite usize_checked_ok by lia. }
  cbn [mbind result_bind]. pose proof (replayed_ok s t mu (Hw' mu Hin)) as Ho. pose proof (replayed_size_nonneg mu Hin) as Hz.
  pose proof (zsum_with_member _ _ mu replayed_size_nonneg Hin) as Hx. pose proof optional_sizes_bound as Hb. cbv beta in Hx.
  assert (optional_bytes (replayed s t mu).1 (replayed s t mu).2 = Ok (optional_size (replayed s t mu))) as ->; [|done].
  unfold optional_bytes, optional_size, optional_ok in *. destruct (replayed s t mu).2 as [e|]; [|done].
  rewrite entry_bytes_eq by apply (eo_value _ _ Ho). by rewrite usize_checked_ok by lia.
Qed.

(** The sums of the deltas on a shard are those of the dataset. *)
Definition on_shard (shard : Z) (k : bytes) (c : Value * option Z) : Z :=
  if shard_of layout k =? shard then entry_size k c.1 else 0.
Lemma before_on_eq shard :
  before_on layout shard (image_delta <$> images) =
  zsum_with (λ mu, at_key (on_shard shard) (persisted s !! Mutation_key mu) (Mutation_key mu)) images.
Proof.
  unfold before_on. rewrite zsum_with_fmap. apply zsum_with_ext. intros mu _. unfold compose, image_delta, on_shard, at_key, charge. cbn.
  rewrite lookup_persisted. destruct (values s !! Mutation_key mu); cbn; [done|]. by destruct (_ =? _).
Qed.
Lemma after_on_eq shard :
  after_on layout shard (image_delta <$> images) =
  zsum_with (λ mu, at_key (on_shard shard) (mutation_effect t mu) (Mutation_key mu)) images.
Proof.
  unfold after_on. rewrite zsum_with_fmap. apply zsum_with_ext. intros mu Hin. unfold compose, image_delta, on_shard, at_key. cbn.
  pose proof (proj1 (Forall_forall _ _) Hw) as Hw'. rewrite <- (effect_replayed s t mu Ht (Hw' mu Hin)). unfold optional_size, replayed. cbn.
  destruct (replayed_entry s t mu); cbn; [done|]. by destruct (_ =? _).
Qed.
Lemma shard_size_after shard :
  shard_size layout (apply_mutations t (persisted s) images) shard =
  shard_size layout (persisted s) shard - before_on layout shard (image_delta <$> images)
  + after_on layout shard (image_delta <$> images).
Proof. rewrite before_on_eq, after_on_eq. by apply (apply_mutations_sum (on_shard shard)). Qed.

Lemma shard_bounds shard :
  0 <= shard < shard_count layout →
  before_on layout shard (image_delta <$> images) <= shard_size layout (persisted s) shard ∧
  shard_size layout (persisted s) shard + after_on layout shard (image_delta <$> images) <= USIZE_MAX.
Proof.
  intros Hr. pose proof Hs as [[Hc _ _] Hm _ _]. pose proof (co_config _ _ Hc). pose proof (co_quota _ _ Hc).
  assert (∀ k c, persisted s !! k = Some c → 0 <= entry_size k c.1) as Hpos.
  { intros k c. rewrite lookup_persisted. intros (e & He & ->)%fmap_Some_1. cbn.
    pose proof (entry_size_pos k (e_value e) (eo_value _ _ (co_entries _ _ Hc _ _ He))). lia. }
  split.
  - rewrite before_on_eq. pose proof (map_zsum_keys_le (on_shard shard) (persisted s) (Mutation_key <$> images)) as Hle.
    rewrite zsum_with_fmap in Hle. apply Hle; [|done]. intros k c Hk. unfold on_shard. specialize (Hpos k c Hk). destruct (_ =? _); lia.
  - assert (shard_size layout (persisted s) shard <= content_size (persisted s)) as H1.
    { apply map_zsum_le; [done|]. intros k c Hk. right. exists c. split; [done|]. specialize (Hpos k c Hk). destruct (_ =? _); lia. }
    rewrite <- content_size_used in H1 by done.
    assert (after_on layout shard (image_delta <$> images) <= total) as H2.
    { etransitivity; [|apply optional_sizes_bound]. unfold after_on. rewrite zsum_with_fmap. apply zsum_with_le.
      intros mu Hin. pose proof (replayed_size_nonneg mu Hin). unfold compose, image_delta. cbn. destruct (_ =? _); lia. }
    assert (2 * ISIZE_MAX <= USIZE_MAX) by done. lia.
Qed.
End Routed.

(** What the replay of a batch makes of a dataset: the batch stays on one shard unless
    mixed batches are allowed, and its effect respects the quotas. *)
Definition batch_effect (layout : DurableLayout) (total : Z) (mixed : bool) (t : Sample) (m : dataset) (l : list MMutation)
    : option dataset :=
  match check_shards layout mixed None l, log_effect t m l with
  | Ok _, Some (Ok m') => if bool_decide (within_shards layout total m') then Some m' else None
  | _, _ => None
  end.

(** Checking the touched shards is checking all of them. *)
Lemma check_quotas_within layout total s usage pr m :
  DurableLayout_validate layout = Ok tt → shard_count layout <= total → recovered_ok layout total s usage →
  (∀ shard, is_Some (pr !! shard) → 0 <= shard < shard_count layout) →
  (∀ shard, 0 <= shard < shard_count layout → projected_usage usage pr shard = shard_size layout m shard) →
  check_quotas layout total pr = Ok tt ↔ within_shards layout total m.
Proof.
  intros Hl Htot [_ _ [_ Hus] Hq] Hdom Hpu. rewrite check_quotas_ok by done. split; intros H shard.
  - intros Hr. rewrite <- (Hpu shard Hr). unfold projected_usage. destruct (pr !! shard) as [u|] eqn:Eu; [by apply H|].
    rewrite (Hus shard Hr). cbn. by apply Hq.
  - intros u Hu. assert (0 <= shard < shard_count layout) as Hr by (apply Hdom; by rewrite Hu).
    pose proof (H shard Hr) as Hx. rewrite <- (Hpu shard Hr) in Hx. unfold projected_usage in Hx. by rewrite Hu in Hx.
Qed.

(** A batch of decodable mutations is replayed without a panic, and succeeds exactly
    when it has an effect; the usage of every shard stays exact. *)
Lemma replay_routed_spec layout total s usage t l mixed :
  DurableLayout_validate layout = Ok tt → shard_count layout <= total → recovered_ok layout total s usage → clock_ok t →
  Forall mmutation_wf l → generation s + 3 * zlen l < 2 ^ 64 →
  match batch_effect layout total mixed t (persisted s) l with
  | Some m' => ∃ s' usage', replay_routed_memory s t l layout total usage mixed = Some (Ok (s', usage')) ∧
      recovered_ok layout total s' usage' ∧ persisted s' = m' ∧ generation s' <= generation s + 3 * zlen l
  | None => ∃ e, replay_routed_memory s t l layout total usage mixed = Some (Err e)
  end.
Proof.
  intros Hl Htot Hs Ht Hm Hg. pose proof Hs as [Hwf Hcf [Hlen Hus] Hq]. pose proof Hwf as [Hc _ _].
  unfold replay_routed_memory, batch_effect, log_effect.
  destruct (check_shards_ok layout mixed None l Hl) as [->|[-> _]]; cbn [fallible_bind]; [by eexists|].
  unfold prepare_memory_replay. rewrite replay_images_log.
  destruct (log_images_ok s ∅ l Hwf Hm) as ([images|e] & -> & Hi); cbn [mbind option_bind fallible_bind]; [|by eexists].
  destruct Hi as (Hiw & Hik & Hin & _). rewrite <- Hik in Hin.
  assert (zlen images = zlen l) as Hz by (unfold zlen; rewrite <- (length_fmap Mutation_key images), Hik; by rewrite length_fmap).
  rewrite (prepare_replay_eq 0) by done. cbn [fmap option_fmap option_map]. rewrite Hcf.
  destruct (Z.leb_spec (replay_usage s t images) total) as [Hfit|Hover].
  2:{ rewrite bool_decide_eq_false_2; [by eexists|]. intros Hw%within_total; [|done..].
      rewrite <- replay_usage_eq in Hw by done. lia. }
  cbn [map_err fallible_bind]. rewrite (usage_deltas_ok layout total s usage t images) by done. cbn [map_err fallible_bind].
  destruct (project_usage_ok layout Hl usage ∅ (image_delta s t <$> images) Hlen) as (pr & -> & Hv & Hd & _).
  { apply Forall_fmap, Forall_forall. intros mu Hmu. cbn. pose proof (charge_bounds 0 s (Mutation_key mu) Hc).
    pose proof (replayed_size_nonneg s t images Hiw mu Hmu). lia. }
  { intros shard Hr. unfold projected_usage. rewrite lookup_empty, (Hus shard Hr). cbn. by apply (shard_bounds layout total s usage). }
  assert (∀ shard, is_Some (pr !! shard) → 0 <= shard < shard_count layout) as Hdom
    by (intros shard [[? ?]|?]%Hd; [by rewrite lookup_empty in *|done]).
  assert (∀ shard, 0 <= shard < shard_count layout →
            projected_usage usage pr shard = shard_size layout (apply_mutations t (persisted s) images) shard) as Hpu.
  { intros shard Hr. rewrite (Hv shard Hr), (shard_size_after layout s t images) by done.
    unfold projected_usage. by rewrite lookup_empty, (Hus shard Hr). }
  pose proof (check_quotas_within layout total s usage pr _ Hl Htot Hs Hdom Hpu) as Hcq.
  cbn [fallible_bind]. case_bool_decide as Hw.
  2:{ destruct (check_quotas layout total pr) as [[]|e]; [by destruct Hw; apply Hcq|by eexists]. }
  rewrite (proj2 Hcq Hw). cbn [fallible_bind].
  rewrite <- Hz in Hg. destruct (replay_apply_ok s t images Client Hwf Ht Hin Hiw Hg) as (s' & -> & Hwf' & Hp' & Hc' & Hg'); [lia|].
  cbn [mbind option_bind]. eexists _, _. split; [done|]. split; [|split; [done|lia]].
  split; [done|by rewrite Hc'|rewrite Hp'; split|by rewrite Hp'].
  - by rewrite (proj1 (store_usage_lookup layout usage pr 0 Hdom Hlen)).
  - intros shard Hr. rewrite (proj2 (store_usage_lookup layout usage pr shard Hdom Hlen) Hr). by rewrite Hpu.
Qed.
Lemma replay_routed_ok layout total s usage t l mixed :
  DurableLayout_validate layout = Ok tt → shard_count layout <= total → recovered_ok layout total s usage → clock_ok t →
  Forall mmutation_wf l → generation s + 3 * zlen l < 2 ^ 64 →
  ∃ r, replay_routed_memory s t l layout total usage mixed = Some r ∧
    match r with
    | Ok (s', usage') => recovered_ok layout total s' usage' ∧ generation s' <= generation s + 3 * zlen l
    | Err _ => True
    end.
Proof.
  intros Hl Htot Hs Ht Hm Hg. pose proof (replay_routed_spec layout total s usage t l mixed Hl Htot Hs Ht Hm Hg) as H.
  destruct (batch_effect _ _ _ _ _ _) as [m'|]; [destruct H as (s' & u' & -> & ? & _ & ?)|destruct H as [e ->]]; by eexists.
Qed.

(** ** The loop over the records *)

Section Loop.
Context (p : Profile) (layout : DurableLayout) (limits : Limits) (total : Z) (clock : nat → Sample).

Lemma fallible_bind_ext {E A B} (r : fallible E A) (f g : A → fallible E B) :
  (∀ a, r = Some (Ok a) → f a = g a) → fallible_bind r f = fallible_bind r g.
Proof. destruct r as [[a|e]|]; cbn; auto. Qed.
Lemma fallible_bind_assoc {E A B C} (r : fallible E A) (f : A → fallible E B) (g : B → fallible E C) :
  fallible_bind (fallible_bind r f) g = fallible_bind r (λ a, fallible_bind (f a) g).
Proof. by destruct r as [[a|e]|]. Qed.

(** Any fuel above the length of the input is enough. *)
Lemma load_loop_fuel base size f1 f2 st input :
  (length input < f1)%nat → (length input < f2)%nat →
  load_loop p layout limits total clock f1 base size st input = load_loop p layout limits total clock f2 base size st input.
Proof.
  revert f2 st input. induction f1 as [|f1 IH]; intros [|f2] st input H1 H2; try lia. cbn [load_loop].
  destruct (profile_read_record p limits input) as [[| |r rest]|e] eqn:E; cbn [map_err fallible_bind]; try done.
  apply fallible_bind_ext. intros st' _. apply profile_read_progress in E as (consumed & -> & Hw).
  assert (0 <= record_weight r) as Hr by (destruct r; cbn; auto with sider; lia).
  rewrite length_app in H1, H2. unfold zlen in Hw. apply IH; lia.
Qed.

Fixpoint load_records (base : Z) (st : LoadState) (l : list (MRecord * Z)) : fallible AofError LoadState :=
  match l with
  | [] => Some (Ok st)
  | (r, position) :: l => st ⇐ load_record p layout limits total clock base st r position; load_records base st l
  end.

(** The positions after each of the encoded records. *)
Fixpoint positions (start : Z) (encs : list bytes) : list Z :=
  match encs with [] => [] | enc :: encs => (start + zlen enc) :: positions (start + zlen enc) encs end.

Definition encoded (r : MRecord) (enc : bytes) : Prop := mrecord_ok r ∧ profile_encode p r limits = Ok enc.

Lemma join_cons (enc : bytes) encs : mjoin (enc :: encs) = enc ++ mjoin encs.
Proof. done. Qed.

(** Reading back what was written is running the records. *)
Lemma load_loop_encoded base size fuel st rs encs tail :
  Forall2 encoded rs encs → (length (mjoin encs ++ tail) < fuel)%nat →
  load_loop p layout limits total clock fuel base size st (mjoin encs ++ tail) =
  fallible_bind (load_records base st (zip rs (positions (size - zlen (mjoin encs ++ tail)) encs)))
    (λ st, load_loop p layout limits total clock (load_fuel tail) base size st tail).
Proof.
  intros Hall. revert fuel st. induction Hall as [|r enc rs encs [Hr He] Hall IH]; intros fuel st Hf.
  { cbn [mjoin list_join app zip load_records fallible_bind]. apply load_loop_fuel; unfold load_fuel; cbn in *; lia. }
  destruct fuel as [|fuel]; [lia|]. rewrite join_cons, <- app_assoc in *. cbn [load_loop].
  rewrite (codec_read r limits enc) by done. cbn [map_err fallible_bind positions].
  change (zip (r :: rs) (?x :: ?l)) with ((r, x) :: zip rs l). cbn [load_records]. rewrite fallible_bind_assoc.
  assert (size - zlen (enc ++ mjoin encs ++ tail) + zlen enc = size - zlen (mjoin encs ++ tail)) as -> by (rewrite (zlen_app enc); lia).
  apply fallible_bind_ext. intros st' _. apply IH.
  assert (enc ≠ []) as Hne by by eapply codec_nonempty. destruct enc as [|b enc]; [done|]. rewrite length_app in Hf. cbn [length] in Hf. lia.
Qed.

Lemma load_loop_end base size st : load_loop p layout limits total clock (load_fuel []) base size st [] = Some (Ok (st, false)).
Proof. cbn [load_loop load_fuel length]. by rewrite codec_end. Qed.
Lemma load_loop_torn base size st r enc n :
  encoded r enc → (0 < n < length enc)%nat →
  load_loop p layout limits total clock (load_fuel (take n enc)) base size st (take n enc) = Some (Ok (st, true)).
Proof. intros [Hr He] Hn. unfold load_fuel. cbn [load_loop]. by rewrite (codec_prefix r limits enc). Qed.
Lemma load_loop_corrupt base size st r enc i b rest :
  encoded r enc → (i < length enc)%nat → enc !! i ≠ Some b →
  ∃ what, load_loop p layout limits total clock (load_fuel (<[i := b]> enc ++ rest)) base size st (<[i := b]> enc ++ rest)
          = Some (Err (AofFormat (FCorrupt what))).
Proof.
  intros [Hr He] Hi Hb. destruct (codec_corrupt r limits enc i b rest Hr He Hi Hb) as [what Hw]. exists what.
  unfold load_fuel. cbn [load_loop]. by rewrite Hw.
Qed.
End Loop.

(** ** Any file *)

Lemma read_frame_local l prefix body rest rest' :
  read_frame l ((prefix ++ body) ++ rest) = Ok (Body body rest) → zlen prefix = 12 →
  read_frame l ((prefix ++ body) ++ rest') = Ok (Body body rest').
Proof.
  intros H Hp. rewrite <- app_assoc in *. unfold read_frame in *.
  destruct prefix as [|b prefix]; [done|]. cbn [app] in *. rewrite !app_comm_cons in *.
  rewrite <- Hp, read_exact_app in H. rewrite <- Hp, read_exact_app. cbv zeta in *.
  destruct (negb _); [done|]. destruct (_ || _); [done|].
  destruct (read_exact _ (body ++ rest)) as [[body1 rest1]|] eqn:E; [|done].
  pose proof (le_value_range (take 4 (b :: prefix))) as [Hz _]. apply read_exact_Some in E as [E Hl]; [|done].
  destruct (negb (checksum body1 =? _)) eqn:Ec; [done|]. injection H as -> ->.
  rewrite <- Hl, read_exact_app. by rewrite Ec.
Qed.

Lemma profile_read_local p l input r rest :
  profile_read_record p l input = Ok (MNextRecord r rest) →
  ∃ consumed, input = consumed ++ rest ∧ record_weight r + 12 <= zlen consumed ∧
    ∀ rest', profile_read_record p l (consumed ++ rest') = Ok (MNextRecord r rest').
Proof.
  assert (∀ body, read_frame l input = Ok (Body body rest) → ∃ prefix, input = (prefix ++ body) ++ rest ∧ zlen prefix = 12 ∧
            ∀ rest', read_frame l ((prefix ++ body) ++ rest') = Ok (Body body rest')) as Hf.
  { intros body Hb. destruct (read_frame_split _ _ _ _ Hb) as (prefix & -> & Hp). exists prefix. rewrite app_assoc in *.
    split_and!; [done..|]. intros rest'. by eapply read_frame_local. }
  destruct p; cbn [profile_read_record].
  2:{ unfold memory_read_record. intros ([| |body rest'] & Hb & Hr)%bind_ok; try done.
      apply bind_ok in Hr as (r' & Hd & [= -> ->]). destruct (Hf body Hb) as (prefix & -> & Hp & Hl). exists (prefix ++ body).
      split; [done|]. split; [apply memory_decode_weight in Hd; rewrite zlen_app; lia|]. intros rest'. rewrite Hl. cbn [mbind result_bind]. by rewrite Hd. }
  all: unfold read_record; intros (next & Hn & Hr)%bind_ok; destruct next as [| |r' rest']; try done; injection Hr as <- ->;
    apply bind_ok in Hn as ([| |body rest''] & Hb & Hn); try done;
    apply bind_ok in Hn as (r'' & Hd & [= -> ->]); destruct (Hf body Hb) as (prefix & -> & Hp & Hl); exists (prefix ++ body);
    (split; [done|]); (split; [apply decode_record_weight in Hd; rewrite zlen_app; lia|]); intros rest'; rewrite Hl; cbn [mbind result_bind]; by rewrite Hd.
Qed.

Section AnyFile.
Context (p : Profile) (layout : DurableLayout) (limits : Limits) (total : Z) (clock : nat → Sample).
Context (Hlayout : DurableLayout_validate layout = Ok tt) (Htotal : shard_count layout <= total) (Hclock : ∀ n, clock_ok (clock n)).

Definition load_ok (budget : Z) (st : LoadState) : Prop :=
  recovered_ok layout total (ls_store st) (ls_usage st) ∧ generation (ls_store st) + 3 * budget < 2 ^ 64.

Lemma load_record_ok base budget st r position :
  load_ok (budget + record_weight r) st → mrecord_wf r → 0 <= budget →
  ∃ res, load_record p layout limits total clock base st r position = Some res ∧
    match res with Ok st' => load_ok budget st' ∧ ls_valid st' = position | Err _ => True end.
Proof.
  intros [Hs Hg] Hr Hb. destruct r as [mu|seal entries digest|sq o ms]; cbn [load_record record_weight] in *.
  - destruct (negb _ && _); [|by eexists]. destruct (match ls_previous st with Some _ => _ | None => _ end); [by eexists|].
    destruct (profile_encode p (MSnapshot mu) limits) as [enc|e]; cbn [map_err fallible_bind]; [|by eexists].
    unfold load_replay. destruct (replay_routed_ok layout total (ls_store st) (ls_usage st) (clock (ls_reads st)) [mu]
      (bool_decide (p = ComposedLegacyMixed))) as ([[s' u']|e] & -> & Hok); try done; [by constructor|change (zlen [mu]) with 1; lia| |]; cbn [fallible_bind]; [|by eexists].
    destruct Hok as (Hro & Hg'). eexists. split; [done|]. split; [|done]. split; [done|]. change (zlen [mu]) with 1 in Hg'. cbn. lia.
  - destruct (_ && _); [|by eexists]. eexists. split; [done|]. split; [|done]. split; [done|]. cbn. lia.
  - destruct (_ && _); [|by eexists]. destruct Hr as [_ Hms].
    unfold load_replay. destruct (replay_routed_ok layout total (ls_store st) (ls_usage st) (clock (ls_reads st)) ms
      (bool_decide (p = ComposedLegacyMixed))) as ([[s' u']|e] & -> & Hok); try done; [lia| |]; cbn [fallible_bind]; [|by eexists].
    destruct Hok as (Hro & Hg'). eexists. split; [done|]. split; [|done]. split; [done|]. cbn. lia.
Qed.

(** The loop is total on every input; what it read can be read again without the tail. *)
Lemma load_loop_ok base size fuel st input :
  load_ok (zlen input) st → (length input < fuel)%nat →
  ∃ res, load_loop p layout limits total clock fuel base size st input = Some res ∧
    match res with
    | Ok (st', incomplete) =>
        load_ok 0 st' ∧ ∃ consumed tail, input = consumed ++ tail ∧
          (st' = st ∧ consumed = [] ∨ ls_valid st' = size - zlen tail) ∧ (incomplete = false → tail = []) ∧
          load_loop p layout limits total clock (load_fuel consumed) base (size - zlen tail) st consumed = Some (Ok (st', false))
    | Err _ => True
    end.
Proof.
  revert st input. induction fuel as [|fuel IH]; intros st input Hst Hf; [lia|]. cbn [load_loop].
  destruct (profile_read_record p limits input) as [[| |r rest]|e] eqn:E; cbn [map_err fallible_bind]; [..|by eexists].
  - destruct Hst as [Hro Hg]. eexists. split; [done|]. split; [split; [done|zlen_lia]|].
    assert (input = []) as ->.
    { destruct p; cbn [profile_read_record] in E; unfold memory_read_record, read_record in E; inv_ok;
        repeat match goal with H : match ?x with _ => _ end = _ |- _ => destruct x eqn:?; inv_ok; try done end;
        destruct input; [done|..]; unfold read_frame in *; repeat case_match; done. }
    exists [], []. rewrite Z.sub_0_r. split_and!; [done|by left|done|]. apply load_loop_end.
  - destruct Hst as [Hro Hg]. eexists. split; [done|]. split; [split; [done|zlen_lia]|].
    exists [], input. split_and!; [done|by left|done|]. apply load_loop_end.
  - destruct (profile_read_local _ _ _ _ _ E) as (consumed & -> & Hw & Hlocal). pose proof (profile_read_sound _ _ _ _ _ E) as Hr.
    assert (0 <= record_weight r) as Hrw by (destruct r; cbn; auto with sider; lia).
    rewrite length_app in Hf. destruct (load_record_ok base (zlen rest) st r (size - zlen rest)) as ([st1|e] & Hrec & Hst1); [|done|auto with sider| |].
    { destruct Hst as [Hro Hg]. split; [done|]. rewrite zlen_app in Hg. lia. }
    2:{ rewrite Hrec. cbn. by eexists. }
    rewrite Hrec. cbn [fallible_bind]. destruct Hst1 as [Hst1 Hv1].
    destruct (IH st1 rest Hst1) as ([[st' inc]|e] & -> & Hok); [unfold zlen in Hw; lia| |by eexists].
    destruct Hok as (Hst' & consumed' & tail & -> & Hv & Htail & Hagain). eexists. split; [done|]. split; [done|].
    exists (consumed ++ consumed'), tail. split; [by rewrite app_assoc|]. split_and!.
    + right. destruct Hv as [[-> ->]|Hv]; [rewrite Hv1; cbn; lia|done].
    + done.
    + unfold load_fuel. cbn [load_loop]. rewrite Hlocal. cbn [map_err fallible_bind].
      replace (size - zlen tail - zlen consumed') with (size - zlen (consumed' ++ tail)) by (rewrite zlen_app; lia).
      rewrite Hrec. cbn [fallible_bind]. rewrite <- Hagain. apply load_loop_fuel; [|unfold load_fuel; lia].
      rewrite length_app. unfold zlen in Hw. lia.
Qed.
End AnyFile.
