(* ===== verification/RecoverySpec.v ===== *)
(** * What recovery guarantees

    Theorems on the recovery of Recovery.v: it is total and exact on every file, the
    repair of a tail is sound, a torn log is recovered up to its last complete batch,
    a changed byte is refused, and a log of a history is recovered to that history. *)

From Stdlib Require Import Strings.Byte Strings.String ZArith Lia.
From S2P Require Import Prelude Float Wire Score Memory Command Store StoreInv StoreSpec Mutation StoreExec Replay Routing Format MemoryFormat Profile MemoryLifecycle Decoded Protocol Recovery.

#[local] Open Scope Z_scope.
#[local] Open Scope fallible_scope.

(** ** Headers *)

(** A reader that takes a prefix of its input, whatever follows it. *)
Definition local_reader {E A} (f : bytes → result E (A * bytes)) : Prop :=
  ∀ s a rest, f s = Ok (a, rest) → ∃ c, s = c ++ rest ∧ ∀ rest', f (c ++ rest') = Ok (a, rest').

Lemma local_read {E} (e : E) n : local_reader (λ s, ok_or e (read_exact n s)).
Proof.
  intros s a rest H. destruct (read_exact n s) as [[a' rest']|] eqn:Er; [|done]. injection H as -> ->.
  exists a. destruct (Z.le_gt_cases 0 n) as [Hn|Hn].
  - apply read_exact_Some in Er as [-> <-]; [|done]. split; [done|]. intros rest'. by rewrite read_exact_app.
  - unfold read_exact in *. replace (Z.to_nat n) with O in * by lia. destruct (n <=? zlen s); [|done]. injection Er as <- <-.
    split; [done|]. intros rest'. destruct (Z.leb_spec n (zlen rest')) as [?|?]; cbn [app]; [|pose proof (zlen_nonneg rest'); lia].
    rewrite (proj2 (Z.leb_le _ _)) by done. done.
Qed.
Lemma local_bind {E A B} (f : bytes → result E (A * bytes)) (g : A → bytes → result E (B * bytes)) :
  local_reader f → (∀ a, local_reader (g a)) → local_reader (λ s, '(a, s) ← f s; g a s).
Proof.
  intros Hf Hg s b rest ([a s'] & Ha & Hb)%bind_ok. destruct (Hf _ _ _ Ha) as (c & -> & Hc). destruct (Hg a _ _ _ Hb) as (c' & -> & Hc').
  exists (c ++ c'). rewrite app_assoc. split; [done|]. intros rest'. rewrite <- app_assoc, Hc. apply Hc'.
Qed.
Lemma local_pure {E A B} (r : result E A) (g : A → bytes → result E (B * bytes)) :
  (∀ a, local_reader (g a)) → local_reader (λ s, a ← r; g a s).
Proof. intros Hg. by destruct r as [a|e]; [apply Hg|intros ???]. Qed.
Lemma local_if {E A} (b : bool) (f g : bytes → result E (A * bytes)) :
  local_reader f → local_reader g → local_reader (λ s, if b then f s else g s).
Proof. by destruct b. Qed.
Lemma local_err {E A} (e : E) : local_reader (λ _, @Err E (A * bytes) e).
Proof. done. Qed.
Lemma local_ret {E A} (a : A) : local_reader (λ s, @Ok E (A * bytes) (a, s)).
Proof. intros s a' rest [= <- <-]. by exists []. Qed.

Lemma header_local p : local_reader (profile_read_header p).
Proof.
  assert (∀ A B (h : A → result FormatError B) (r : bytes → result FormatError (A * bytes)),
            local_reader r → local_reader (λ s, '(a, s) ← r s; b ← h a; Ok (b, s))) as Hmap.
  { intros A B h r Hr. apply local_bind; [done|]. intros a. apply local_pure. intros b. apply local_ret. }
  destruct p; cbn [profile_read_header].
  - unfold read_header_with_layout. apply local_bind; [apply local_read|]. intros prefix.
    apply local_if; [apply local_err|]. apply local_pure. intros n. apply local_bind; [apply local_read|]. intros tail.
    apply local_if; [apply local_err|]. apply local_pure. intros h. apply local_ret.
  - apply local_bind; [|intros h; apply local_ret]. unfold memory_read_header. apply local_bind; [apply local_read|]. intros prefix.
    apply local_if; [apply local_err|]. apply local_pure. intros n. apply local_bind; [apply local_read|]. intros tail.
    apply local_if; [apply local_err|]. apply local_pure. intros h. apply local_ret.
  - apply local_bind; [|intros h; apply local_if; [apply local_err|apply local_ret]].
    unfold composed_read_header. apply local_bind; [apply local_read|]. intros prefix.
    apply local_if; [apply local_err|]. apply local_if; [apply local_err|]. apply local_bind; [apply local_read|]. intros tail.
    do 2 (apply local_if; [apply local_err|]). apply local_pure. intros version. do 2 (apply local_if; [apply local_err|]).
    apply local_pure. intros replication. apply local_pure. intros []. apply local_ret.
Qed.

(** ** Any file *)

Definition without_tail (meta : RecoveryMetadata) : RecoveryMetadata :=
  {| rm_layout := rm_layout meta; rm_sequence := rm_sequence meta; rm_format_version := rm_format_version meta;
     rm_shard_usage := rm_shard_usage meta; rm_valid_bytes := rm_valid_bytes meta; rm_incomplete_tail_bytes := 0;
     rm_replication := rm_replication meta |}.

Lemma aof_config_layout permits cfg : AofConfig_validate permits cfg = Ok tt → DurableLayout_validate (aof_layout cfg) = Ok tt.
Proof. unfold AofConfig_validate. by intros ([] & Hl & _)%bind_ok. Qed.
Lemma store_config_ok sc : StoreConfig_validate sc = Ok tt → ∃ s, with_config 0 sc = Ok s.
Proof. intros Hsc. unfold with_config. rewrite Hsc. by eexists. Qed.

Lemma shard_size_empty layout shard : shard_size layout ∅ shard = 0.
Proof. unfold shard_size. by rewrite ?map_filter_empty. Qed.

Lemma recovered_empty layout sc s :
  DurableLayout_validate layout = Ok tt → shard_count layout <= max_dataset_bytes sc → with_config 0 sc = Ok s →
  recovered_ok layout (max_dataset_bytes sc) s (replicate (Z.to_nat (shard_count layout)) 0) ∧ generation s = 0.
Proof.
  intros Hl Ht Hs. pose proof (validate_count _ Hl) as Hc.
  assert (store_wf s) as Hwf by (eapply with_config_wf; [|done]; lia).
  unfold with_config, StoreConfig_validate in Hs. destruct (guard_ok _ _); [|done]. injection Hs as <-.
  split; [|done]. split; [done..|split|]; unfold persisted; cbn [values]; rewrite ?fmap_empty.
  - apply length_replicate.
  - intros shard Hr. rewrite shard_size_empty. apply lookup_replicate. split; [done|lia].
  - intros shard Hr. rewrite shard_size_empty. unfold shard_quota.
    pose proof (Z.div_pos (max_dataset_bytes sc) (shard_count layout)). destruct (_ <? _); lia.
Qed.

(** C7. Recovery of any file under a valid configuration returns: a panic is not
    possible, whatever the bytes.  When it succeeds, the store is well formed, the
    usage of every shard is exact and within its quota, the length of the valid part
    and of the incomplete tail add up to the file, and the file cut at the valid part
    recovers to the same store and the same metadata with nothing left to cut. *)
Theorem recovery_any_file p cfg sc clock file permits :
  AofConfig_validate permits cfg = Ok tt → shard_count (aof_layout cfg) <= max_dataset_bytes sc →
  (∀ n, clock_ok (clock n)) → zlen file < 2 ^ 60 →
  ∃ r, load_generation p cfg sc clock file = Some r ∧
    ∀ s meta incomplete, r = Ok (s, meta, incomplete) →
      recovered_ok (aof_layout cfg) (max_dataset_bytes sc) s (rm_shard_usage meta) ∧
      0 <= rm_valid_bytes meta ∧ 0 <= rm_incomplete_tail_bytes meta ∧
      rm_valid_bytes meta + rm_incomplete_tail_bytes meta = zlen file ∧
      load_generation p cfg sc clock (take (Z.to_nat (rm_valid_bytes meta)) file)
        = Some (Ok (s, without_tail meta, false)).
Proof.
  intros Hv Ht Hclock Hf. pose proof (aof_config_layout _ _ Hv) as Hl.
  unfold load_generation at 1. destruct (with_config 0 sc) as [s0|e] eqn:Es; cbn [map_err fallible_bind]; [|by eexists].
  destruct (recovered_empty _ _ _ Hl Ht Es) as [Hr0 Hg0].
  destruct (profile_read_header p file) as [[h input]|[]] eqn:Eh; cbn [fallible_bind];
    try (by eexists); [|by destruct (_ && _); eexists].
  destruct (header_local p _ _ _ Eh) as (head & -> & Hhead).
  destruct (bool_decide (h_layout h = aof_layout cfg)) eqn:El; cbn [negb]; [|by eexists].
  set (st0 := {| ls_store := s0 |}). rewrite zlen_app in Hf.
  destruct (load_loop_ok p (aof_layout cfg) (aof_limits cfg) (max_dataset_bytes sc) clock Hl Ht Hclock (h_sequence h)
    (zlen (head ++ input)) (load_fuel input) st0 input) as ([[st inc]|e] & -> & Hok); [|unfold load_fuel; lia| |]; cbn [fallible_bind]; [|..|by eexists].
  { split; [done|]. cbn. rewrite Hg0. zlen_lia. }
  destruct Hok as ((Hro & _) & consumed & tail & -> & Hvalid & Htail & Hagain).
  destruct (ls_sealed st) eqn:Esl; cbn [negb]; [|by eexists]. eexists. split; [done|]. intros s meta inc' [= <- <- <-].
  destruct Hvalid as [[-> _]|Hvalid]; [done|]. cbn [rm_shard_usage rm_valid_bytes rm_incomplete_tail_bytes].
  assert (ls_valid st = zlen (head ++ consumed)) as Hp by (rewrite Hvalid, !zlen_app; lia).
  rewrite Hp. split; [done|]. split; [zlen_lia|].
  assert (zlen (head ++ consumed ++ tail) - zlen (head ++ consumed) = zlen tail) as -> by (rewrite !zlen_app; lia).
  split; [destruct inc; zlen_lia|]. split; [destruct inc; [rewrite !zlen_app; lia|rewrite (Htail eq_refl), !app_nil_r; lia]|].
  rewrite app_assoc. unfold zlen at 1. rewrite Nat2Z.id, take_app_length.
  unfold load_generation. rewrite Es. cbn [map_err fallible_bind]. rewrite Hhead. cbn [fallible_bind]. rewrite El. cbn [negb].
  fold st0. replace (zlen (head ++ consumed)) with (zlen (head ++ consumed ++ tail) - zlen tail) by (rewrite !zlen_app; lia).
  rewrite Hagain. cbn [fallible_bind]. rewrite Esl. cbn [negb]. unfold without_tail. cbn. by rewrite Hvalid.
Qed.

(** ** Logs *)

(** What the records of a generation say: a snapshot at a base sequence and the
    batches after it. *)
Record Log := {
  lg_base : Z;
  lg_snapshot : list MMutation;
  lg_batches : list (MutationOrigin * list MMutation)
}.

Fixpoint batch_records (base : Z) (batches : list (MutationOrigin * list MMutation)) : list MRecord :=
  match batches with
  | [] => []
  | (o, ms) :: batches => MBatch (base + 1) o ms :: batch_records (base + 1) batches
  end.

Lemma batch_records_app base l k : batch_records base (l ++ k) = batch_records base l ++ batch_records (base + zlen l) k.
Proof.
  revert base. induction l as [|[o ms] l IH]; intros base; cbn; [by rewrite Z.add_0_r|].
  rewrite IH. do 2 f_equal. rewrite zlen_cons. f_equal. lia.
Qed.
Lemma batch_records_length base l : length (batch_records base l) = length l.
Proof. revert base. induction l as [|[o ms] l IH]; intros base; cbn; [done|]. by rewrite IH. Qed.

#[local] Opaque snapshot_digest.

Section Log.
Context (p : Profile) (layout : DurableLayout) (limits : Limits) (total : Z) (clock : nat → Sample).
Context (Hlayout : DurableLayout_validate layout = Ok tt) (Htotal : shard_count layout <= total) (Hclock : ∀ n, clock_ok (clock n)).

(** The batches that recovery replays, each at its reading of the clock. *)
Fixpoint run_batches (n : nat) (m : dataset) (batches : list (list MMutation)) : option dataset :=
  match batches with
  | [] => Some m
  | ms :: batches =>
      m ← batch_effect layout total (bool_decide (p = ComposedLegacyMixed)) (clock n) m ms;
      run_batches (S n) m batches
  end.

Lemma run_batches_app n m l k :
  run_batches n m (l ++ k) = (m' ← run_batches n m l; run_batches (n + length l) m' k).
Proof.
  revert n m. induction l as [|ms l IH]; intros n m; cbn; [by rewrite Nat.add_0_r|].
  destruct (batch_effect _ _ _ _ _ _) as [m'|]; [|done]. cbn. rewrite IH. by rewrite Nat.add_succ_r.
Qed.

Lemma encoded_wf r enc : encoded p limits r enc → mrecord_wf r ∧ 0 <= record_weight r <= zlen enc.
Proof.
  intros [Hr He]. pose proof (codec_read r limits enc [] Hr He) as E. rewrite app_nil_r in E.
  split; [by eapply profile_read_sound|]. apply profile_read_progress in E as (c & -> & Hw). rewrite app_nil_r.
  destruct r; cbn [record_weight] in *; auto with sider; zlen_lia.
Qed.

(** The steps of the state that the records share. *)
Record loaded_ok (budget : Z) (st : LoadState) (m : dataset) (valid : Z) : Prop := {
  lo_ok : load_ok layout total budget st;
  lo_data : persisted (ls_store st) = m;
  lo_valid : ls_valid st = valid
}.

Lemma load_replay_spec budget st ms :
  load_ok layout total (budget + zlen ms) st → Forall mmutation_wf ms → 0 <= budget →
  match batch_effect layout total (bool_decide (p = ComposedLegacyMixed)) (clock (ls_reads st)) (persisted (ls_store st)) ms with
  | Some m => ∃ s usage, load_replay p layout total clock st ms = Some (Ok (s, usage)) ∧ recovered_ok layout total s usage ∧
      persisted s = m ∧ generation s + 3 * budget < 2 ^ 64
  | None => ∃ e, load_replay p layout total clock st ms = Some (Err e)
  end.
Proof.
  intros [Hs Hg] Hms Hb.
  pose proof (replay_routed_spec layout total (ls_store st) (ls_usage st) (clock (ls_reads st)) ms
    (bool_decide (p = ComposedLegacyMixed)) Hlayout Htotal Hs (Hclock _) Hms ltac:(lia)) as H.
  destruct (batch_effect _ _ _ _ _ _) as [m|]; [|done]. destruct H as (s & usage & ? & ? & ? & ?).
  exists s, usage. split_and!; [done..|lia].
Qed.

(** Snapshot entries in increasing order of their keys. *)
Lemma load_snapshots extra base snap encs st m start :
  0 <= extra →
  Forall2 (encoded p limits) (MSnapshot <$> snap) encs →
  Forall (λ mu, is_image mu = true) snap → StronglySorted cmp_lt (MMutation_key <$> snap) →
  loaded_ok (zlen (mjoin encs) + extra) st m start → ls_sealed st = false →
  (∀ key mu, ls_previous st = Some key → mu ∈ snap → cmp_lt key (MMutation_key mu)) →
  match run_batches (ls_reads st) m ((λ mu, [mu]) <$> snap) with
  | Some m' => ∃ st', load_records p layout limits total clock base st (zip (MSnapshot <$> snap) (positions start encs)) = Some (Ok st') ∧
      loaded_ok extra st' m' (start + zlen (mjoin encs)) ∧ ls_sealed st' = false ∧ ls_sequence st' = ls_sequence st ∧
      ls_entries st' = ls_entries st + zlen snap ∧ ls_digest st' = foldl snapshot_digest (ls_digest st) encs ∧
      ls_reads st' = (ls_reads st + length snap)%nat
  | None => ∃ e, load_records p layout limits total clock base st (zip (MSnapshot <$> snap) (positions start encs)) = Some (Err e)
  end.
Proof.
  intros Hextra. revert encs st m start. induction snap as [|mu snap IH]; intros encs st m start Hall Hi Hsort Hst Hseal Hprev.
  { apply Forall2_nil_inv_l in Hall as ->. exists st. destruct Hst as [[? ?] ? ?]. change (zlen (mjoin (@nil bytes))) with 0 in *. cbn. rewrite Nat.add_0_r.
    split; [done|]. split; [|by rewrite ?Z.add_0_r]. split; [split; [done|lia]|done|]. by rewrite Z.add_0_r. }
  apply Forall2_cons_inv_l in Hall as (enc & encs' & He & Hall & ->). apply Forall_cons in Hi as [Hi1 Hi].
  cbn in Hsort. apply StronglySorted_inv in Hsort as [Hsort Hlt]. destruct Hst as [Hok Hm Hv].
  destruct (encoded_wf _ _ He) as [Hwf Hw]. cbn [record_weight] in Hw. rewrite join_cons, zlen_app in Hok.
  pose proof (load_replay_spec (zlen (mjoin encs') + extra) st [mu]) as Hrep.
  cbn [fmap list_fmap run_batches positions]. change (zip (?x :: ?l) (?y :: ?k)) with ((x, y) :: zip l k). cbn [load_records load_record].
  rewrite Hseal, Hi1. cbn [negb andb].
  assert (match ls_previous st with Some key => bool_decide (cmp key (MMutation_key mu) ≠ Lt) | None => false end = false) as ->.
  { destruct (ls_previous st) as [key|] eqn:Ep; [|done]. apply bool_decide_eq_false_2. intros Hx. apply Hx.
    apply (Hprev key mu); [done|left]. }
  rewrite (proj2 He). cbn [map_err fallible_bind]. rewrite Hm in Hrep.
  destruct (batch_effect _ _ _ _ m [mu]) as [m1|]; cbn [mbind option_bind].
  2:{ destruct Hrep as [e ->]; [|by constructor|zlen_lia|by eexists].
      destruct Hok. split; [done|]. change (zlen [mu]) with 1. lia. }
  destruct Hrep as (s1 & u1 & -> & Hr1 & Hp1 & Hg1); [|by constructor|zlen_lia|].
  { destruct Hok. split; [done|]. change (zlen [mu]) with 1. lia. }
  cbn [fallible_bind]. set (st1 := {| ls_store := s1 |}).
  specialize (IH encs' st1 m1 (start + zlen enc) Hall Hi Hsort). cbn [ls_reads st1] in IH.
  change (ls_reads st1) with (S (ls_reads st)) in IH. destruct (run_batches _ m1 _) as [m'|].
  - destruct IH as (st' & Hl & Hok' & ? & ? & Hent & Hd & Hre); [done|done| |].
    { intros key mu' [= <-] Hin. rewrite Forall_forall in Hlt. apply Hlt. apply list_elem_of_fmap. by exists mu'. }
    exists st'. split; [done|]. split; [by rewrite join_cons, zlen_app, Z.add_assoc|]. do 2 (split; [done|]).
    split; [rewrite Hent, zlen_cons; cbn; lia|]. split; [unfold st1 in Hd; cbn [ls_digest foldl] in *; exact Hd|]. rewrite Hre. cbn. lia.
  - apply IH; [done|done|]. intros key mu' [= <-] Hin. rewrite Forall_forall in Hlt. apply Hlt. apply list_elem_of_fmap. by exists mu'.
Qed.

(** Batches with consecutive numbers. *)
Lemma load_batches base batches encs st m start :
  Forall2 (encoded p limits) (batch_records (ls_sequence st) batches) encs →
  0 <= ls_sequence st → ls_sequence st + zlen batches < 2 ^ 64 →
  loaded_ok (zlen (mjoin encs)) st m start → ls_sealed st = true →
  match run_batches (ls_reads st) m (snd <$> batches) with
  | Some m' => ∃ st', load_records p layout limits total clock base st
                        (zip (batch_records (ls_sequence st) batches) (positions start encs)) = Some (Ok st') ∧
      loaded_ok 0 st' m' (start + zlen (mjoin encs)) ∧ ls_sealed st' = true ∧ ls_sequence st' = ls_sequence st + zlen batches
  | None => ∃ e, load_records p layout limits total clock base st
                   (zip (batch_records (ls_sequence st) batches) (positions start encs)) = Some (Err e)
  end.
Proof.
  revert encs st m start. induction batches as [|[o ms] batches IH]; intros encs st m start Hall H0 Hmax Hst Hseal.
  { apply Forall2_nil_inv_l in Hall as ->. exists st. destruct Hst as [[? ?] ? ?]. change (zlen (mjoin (@nil bytes))) with 0 in *.
    cbn. rewrite !Z.add_0_r. split; [done|]. split; [|done]. split; [split; [done|lia]|done|done]. }
  cbn [batch_records] in *. apply Forall2_cons_inv_l in Hall as (enc & encs' & He & Hall & ->). destruct Hst as [Hok Hm Hv].
  destruct (encoded_wf _ _ He) as [[_ Hwf] Hw]. cbn [record_weight] in Hw. rewrite join_cons, zlen_app in Hok. rewrite zlen_cons in Hmax.
  pose proof (zlen_nonneg batches) as Hnn. pose proof (zlen_nonneg (mjoin encs')) as Hne.
  pose proof (load_replay_spec (zlen (mjoin encs')) st ms) as Hrep.
  cbn [fmap list_fmap run_batches positions]. change (zip (?x :: ?l) (?y :: ?k)) with ((x, y) :: zip l k). cbn [load_records load_record snd].
  assert (bool_decide (u_add (ls_sequence st) 1 = Some (ls_sequence st + 1)) = true) as ->.
  { apply bool_decide_eq_true_2. unfold u_add. by rewrite usize_checked_ok by (unfold USIZE_MAX; lia). }
  rewrite Hseal. cbn [andb]. rewrite Hm in Hrep.
  assert (load_ok layout total (zlen (mjoin encs') + zlen ms) st) as Hok' by (destruct Hok; split; [done|lia]).
  destruct (batch_effect _ _ _ _ m ms) as [m1|]; cbn [mbind option_bind].
  2:{ destruct Hrep as [e ->]; [done..|by eexists]. }
  destruct Hrep as (s1 & u1 & -> & Hr1 & Hp1 & Hg1); [done..|]. cbn [fallible_bind]. set (st1 := {| ls_store := s1 |}).
  specialize (IH encs' st1 m1 (start + zlen enc)). change (ls_sequence st1) with (ls_sequence st + 1) in IH.
  change (ls_reads st1) with (S (ls_reads st)) in IH. destruct (run_batches _ m1 _) as [m'|]; [|apply IH; (done || lia)].
  destruct IH as (st' & Hl & Hok1 & ? & Hseq); [done|lia..|done|done|]. exists st'. split; [done|].
  split; [by rewrite join_cons, zlen_app, Z.add_assoc|]. split; [done|]. rewrite Hseq, zlen_cons. lia.
Qed.
End Log.

Section LogFile.
Context (p : Profile) (cfg : AofConfig) (sc : StoreConfig) (clock : nat → Sample).
Abbreviation layout := (aof_layout cfg).
Abbreviation limits := (aof_limits cfg).
Abbreviation total := (max_dataset_bytes sc).

(** The bytes of a log: the header, the snapshot entries in the order of their keys,
    the seal with their number and their digest, and the numbered batches. *)
Record log_file (lg : Log) (head : bytes) (snapshot : list bytes) (seal : bytes) (batches : list bytes) : Prop := {
  lf_base : 0 <= lg_base lg;
  lf_last : lg_base lg + zlen (lg_batches lg) < 2 ^ 64;
  lf_header : ∃ replication, replication_ok replication ∧ profile_write_header p (lg_base lg) layout replication = Ok head;
  lf_images : Forall (λ mu, is_image mu = true) (lg_snapshot lg);
  lf_sorted : StronglySorted cmp_lt (MMutation_key <$> lg_snapshot lg);
  lf_snapshot : Forall2 (encoded p limits) (MSnapshot <$> lg_snapshot lg) snapshot;
  lf_seal : encoded p limits (MSeal (lg_base lg) (zlen (lg_snapshot lg)) (foldl snapshot_digest 0 snapshot)) seal;
  lf_batches : Forall2 (encoded p limits) (batch_records (lg_base lg) (lg_batches lg)) batches
}.
Definition log_bytes (head : bytes) (snapshot : list bytes) (seal : bytes) (batches : list bytes) : bytes :=
  head ++ mjoin snapshot ++ seal ++ mjoin batches.

(** The dataset that a log describes, replayed at the readings of the clock. *)
Definition log_dataset (lg : Log) : option dataset :=
  run_batches p layout total clock 0 ∅ (((λ mu, [mu]) <$> lg_snapshot lg) ++ (snd <$> lg_batches lg)).

(** The part of a record that a crash left at the end of the file. *)
Definition torn (tail : bytes) : Prop :=
  ∃ r enc n, encoded p limits r enc ∧ (0 < n < length enc)%nat ∧ tail = take n enc.

Context (Hlayout : DurableLayout_validate layout = Ok tt) (Htotal : shard_count layout <= total) (Hclock : ∀ n, clock_ok (clock n)).
Context (Hconfig : ∃ s, with_config 0 sc = Ok s).

Lemma positions_app start l k : positions start (l ++ k) = positions start l ++ positions (start + zlen (mjoin l)) k.
Proof.
  revert start. induction l as [|enc l IH]; intros start; cbn [app positions].
  { change (zlen (mjoin (@nil bytes))) with 0. by rewrite Z.add_0_r. }
  by rewrite IH, join_cons, zlen_app, Z.add_assoc.
Qed.
Lemma positions_length start l : length (positions start l) = length l.
Proof. revert start. induction l as [|enc l IH]; intros start; cbn; [done|]. by rewrite IH. Qed.
Lemma load_records_app base st l k :
  load_records p layout limits total clock base st (l ++ k) =
  fallible_bind (load_records p layout limits total clock base st l) (λ st, load_records p layout limits total clock base st k).
Proof.
  revert st. induction l as [|[r position] l IH]; intros st; [done|]. cbn [app load_records]. rewrite fallible_bind_assoc.
  apply fallible_bind_ext. intros st' _. apply IH.
Qed.
Lemma zip_positions (rs rs' : list MRecord) encs encs' start :
  length rs = length encs →
  zip (rs ++ rs') (positions start (encs ++ encs')) =
  zip rs (positions start encs) ++ zip rs' (positions (start + zlen (mjoin encs)) encs').
Proof. intros Hl. rewrite positions_app. apply zip_with_app. by rewrite positions_length. Qed.

Definition log_records (lg : Log) (snapshot : list bytes) : list MRecord :=
  (MSnapshot <$> lg_snapshot lg) ++
  MSeal (lg_base lg) (zlen (lg_snapshot lg)) (foldl snapshot_digest 0 snapshot) :: batch_records (lg_base lg) (lg_batches lg).

(** The records of a log, from the state after its header. *)
Lemma load_log lg head snapshot seal batches st :
  log_file lg head snapshot seal batches →
  loaded_ok layout total (zlen (mjoin snapshot ++ seal ++ mjoin batches)) st ∅ (zlen head) →
  ls_sequence st = lg_base lg → ls_sealed st = false → ls_previous st = None → ls_entries st = 0 → ls_digest st = 0 → ls_reads st = O →
  let steps := zip (log_records lg snapshot) (positions (zlen head) (snapshot ++ seal :: batches)) in
  match log_dataset lg with
  | Some m => ∃ st', load_records p layout limits total clock (lg_base lg) st steps = Some (Ok st') ∧
      loaded_ok layout total 0 st' m (zlen (log_bytes head snapshot seal batches)) ∧ ls_sealed st' = true ∧
      ls_sequence st' = lg_base lg + zlen (lg_batches lg)
  | None => ∃ e, load_records p layout limits total clock (lg_base lg) st steps = Some (Err e)
  end.
Proof.
  intros [Hb Hlast _ Him Hsort Hsnap Hseal Hbat] [[Hro Hg] Hd Hv] Hsq Hsl Hpr Hen Hdg Hrd steps. unfold steps, log_records.
  rewrite !zlen_app in Hg. pose proof (zlen_nonneg (mjoin snapshot)). pose proof (zlen_nonneg (mjoin batches)). pose proof (zlen_nonneg seal).
  rewrite zip_positions by (by rewrite (Forall2_length _ _ _ Hsnap)). rewrite load_records_app. unfold log_dataset. rewrite run_batches_app.
  pose proof (load_snapshots p layout limits total clock Hlayout Htotal Hclock (zlen (mjoin batches)) (lg_base lg) _ _ st ∅ (zlen head)
    ltac:(done) Hsnap Him Hsort) as HS. rewrite Hrd in HS.
  assert (loaded_ok layout total (zlen (mjoin snapshot) + zlen (mjoin batches)) st ∅ (zlen head)) as Hst by (split; [split; [done|lia]|done..]).
  destruct (run_batches _ _ _ _ 0 ∅ _) as [m1|]; cbn [mbind option_bind].
  2:{ destruct HS as [e ->]; [done|done|by rewrite Hpr|by eexists]. }
  destruct HS as (st1 & -> & [Hok1 Hd1 Hv1] & Hsl1 & Hsq1 & Hen1 & Hdg1 & Hrd1); [done|done|by rewrite Hpr|].
  cbn [fallible_bind positions]. change (zip (?x :: ?l) (?y :: ?k)) with ((x, y) :: zip l k). cbn [load_records load_record].
  rewrite Hsl1, Hen1, Hen, Hdg1, Hdg, !Z.eqb_refl. cbn [negb andb fallible_bind]. set (st2 := {| ls_store := _ |}).
  pose proof (load_batches p layout limits total clock Hlayout Htotal Hclock (lg_base lg) (lg_batches lg) batches st2 m1
    (zlen head + zlen (mjoin snapshot) + zlen seal)) as HB.
  change (ls_sequence st2) with (ls_sequence st1) in HB. rewrite Hsq1, Hsq in HB. change (ls_reads st2) with (ls_reads st1) in HB. rewrite Hrd1 in HB.
  rewrite length_fmap. destruct (run_batches _ _ _ _ _ m1 _) as [m|]; [|by apply HB].
  destruct HB as (st' & Hl & Hok' & ? & ?); [done..|]. exists st'. split; [done|]. split; [|done].
  unfold log_bytes. by rewrite !zlen_app, !Z.add_assoc.
Qed.

Definition log_state (s : Store) (header : Header) : LoadState :=
  {| ls_store := s; ls_usage := replicate (Z.to_nat (shard_count layout)) 0; ls_sequence := h_sequence header;
     ls_sealed := false; ls_previous := None; ls_entries := 0; ls_digest := 0; ls_valid := h_bytes header; ls_reads := O |}.

(** Recovery after the header of a log. *)
Lemma load_after_header base head records replication :
  0 <= base < 2 ^ 64 → replication_ok replication → profile_write_header p base layout replication = Ok head →
  zlen records < 2 ^ 60 →
  ∃ s header, h_sequence header = base ∧ loaded_ok layout total (zlen records) (log_state s header) ∅ (zlen head) ∧
    load_generation p cfg sc clock (head ++ records) =
      '(st, incomplete) ⇐ load_loop p layout limits total clock (load_fuel records) base (zlen (head ++ records)) (log_state s header) records;
      if negb (ls_sealed st) then Some (Err AofSequence)
      else Some (Ok (ls_store st,
             {| rm_layout := layout; rm_sequence := ls_sequence st; rm_format_version := h_format_version header;
                rm_shard_usage := ls_usage st; rm_valid_bytes := ls_valid st;
                rm_incomplete_tail_bytes := if (incomplete : bool) then zlen (head ++ records) - ls_valid st else 0;
                rm_replication := replication |}, incomplete)).
Proof.
  intros Hb Hr Hw Hz. destruct Hconfig as [s Hs]. destruct (profile_header_ok p base layout replication head records Hb Hr Hw) as [version Hh].
  eexists s, _. split; [|split]; [| |unfold load_generation; rewrite Hs; cbn [map_err fallible_bind]; rewrite Hh; cbn [fallible_bind h_layout];
    rewrite bool_decide_eq_true_2 by done; cbn [negb]; reflexivity]; [done|].
  destruct (recovered_empty layout sc s Hlayout Htotal Hs) as [Hro Hg]. split; [split; [done|cbn; lia]| |done].
  cbn. unfold with_config in Hs. destruct (StoreConfig_validate sc); [|done]. cbn in Hs. injection Hs as <-. unfold persisted. cbn. apply fmap_empty.
Qed.

(** A log followed by a part of a record recovers to the dataset of the log. *)
Lemma load_log_file lg head snapshot seal batches tail :
  log_file lg head snapshot seal batches → tail = [] ∨ torn tail → zlen (log_bytes head snapshot seal batches ++ tail) < 2 ^ 60 →
  match log_dataset lg with
  | Some m => ∃ s meta, load_generation p cfg sc clock (log_bytes head snapshot seal batches ++ tail)
                          = Some (Ok (s, meta, bool_decide (tail ≠ []))) ∧
      recovered_ok layout total s (rm_shard_usage meta) ∧ persisted s = m ∧
      rm_sequence meta = lg_base lg + zlen (lg_batches lg) ∧ rm_valid_bytes meta = zlen (log_bytes head snapshot seal batches)
  | None => ∃ e, load_generation p cfg sc clock (log_bytes head snapshot seal batches ++ tail) = Some (Err e)
  end.
Proof.
  intros Hf Ht Hz. pose proof Hf as [Hb Hl (replication & Hr & Hw) _ _ Hsnap Hseal Hbat].
  set (encs := snapshot ++ seal :: batches). assert (mjoin snapshot ++ seal ++ mjoin batches = mjoin encs) as Ej.
  { unfold encs. by rewrite join_app, join_cons. }
  assert (log_bytes head snapshot seal batches ++ tail = head ++ mjoin encs ++ tail) as Eb.
  { unfold log_bytes. rewrite <- Ej. by rewrite <- !app_assoc. }
  rewrite Eb in Hz |- *. rewrite !zlen_app in Hz. pose proof (zlen_nonneg head). pose proof (zlen_nonneg tail). pose proof (zlen_nonneg (lg_batches lg)).
  destruct (load_after_header (lg_base lg) head (mjoin encs ++ tail) replication) as (s & header & Hsq & Hst & ->);
    [lia|done|done|rewrite zlen_app; lia|].
  assert (Forall2 (encoded p limits) (log_records lg snapshot) encs) as Hall by (apply Forall2_app; [done|by constructor]).
  rewrite (load_loop_encoded p layout limits total clock _ _ _ _ _ _ _ Hall) by (unfold load_fuel; lia).
  replace (zlen (head ++ mjoin encs ++ tail) - zlen (mjoin encs ++ tail)) with (zlen head) by (rewrite !zlen_app; lia).
  pose proof (load_log lg head snapshot seal batches (log_state s header) Hf) as HL. cbv zeta in HL. rewrite Ej in HL. fold encs in HL.
  assert (loaded_ok layout total (zlen (mjoin encs)) (log_state s header) ∅ (zlen head)) as Hst'.
  { destruct Hst as [[? Hg] ? ?]. rewrite zlen_app in Hg. split; [split; [done|lia]|done..]. }
  destruct (log_dataset lg) as [m|]; [|by destruct HL as [e ->]; [done..|eexists]].
  destruct HL as (st & -> & [[Hro _] Hd Hv] & Hsl & Hsq'); [done..|]. cbn [fallible_bind].
  assert (load_loop p layout limits total clock (load_fuel tail) (lg_base lg) (zlen (head ++ mjoin encs ++ tail)) st tail
          = Some (Ok (st, bool_decide (tail ≠ [])))) as ->.
  { destruct Ht as [->|(r & enc & n & He & Hn & ->)]; [apply load_loop_end|].
    rewrite (load_loop_torn p layout limits total clock _ _ st r enc n He Hn). rewrite bool_decide_eq_true_2; [done|].
    intros E%(f_equal length). rewrite length_take in E. cbn in E. lia. }
  cbn [fallible_bind]. rewrite Hsl. cbn [negb]. eexists _, _. split; [done|]. done.
Qed.
End LogFile.

(** ** Cuts and changed bytes *)

Lemma join_nil : mjoin (@nil bytes) = [].
Proof. done. Qed.

(** A cut of concatenated encodings leaves whole ones and a part of the next. *)
Lemma cut_join (encs : list bytes) n :
  ∃ k part, take n (mjoin encs) = mjoin (take k encs) ++ part ∧ (k <= length encs)%nat ∧
    (length (mjoin (take k encs)) <= n)%nat ∧
    (∀ enc, encs !! k = Some enc → (n < length (mjoin (take k encs)) + length enc)%nat) ∧
    (part = [] ∨ ∃ enc i, encs !! k = Some enc ∧ (0 < i < length enc)%nat ∧ part = take i enc).
Proof.
  revert n. induction encs as [|enc encs IH]; intros n.
  { exists O, []. rewrite take_nil, join_nil, take_nil. cbn. split_and!; [done|lia|lia|done|by left]. }
  rewrite join_cons. destruct (decide (n < length enc)%nat) as [Hn|Hn].
  - exists O, (take n enc). change (take 0 (enc :: encs)) with (@nil bytes). rewrite join_nil, take_app_le by lia. cbn [app length lookup list_lookup]. split_and!; [done|lia|lia|intros ? [= <-]; lia|].
    destruct n as [|n]; [by left|right]. exists enc, (S n). split_and!; [done|lia|lia|done].
  - destruct (IH (n - length enc)%nat) as (k & part & E & Hk & Hle & Hlt & Hp). exists (S k), part. cbn [take length].
    rewrite !join_cons, length_app, take_app_ge, E, app_assoc by lia. split_and!; [done|lia|lia| |done].
    intros enc' He%Hlt. lia.
Qed.

Definition log_take (k : nat) (lg : Log) : Log :=
  {| lg_base := lg_base lg; lg_snapshot := lg_snapshot lg; lg_batches := take k (lg_batches lg) |}.

Lemma batch_records_take base k l : batch_records base (take k l) = take k (batch_records base l).
Proof. revert base k. induction l as [|[o ms] l IH]; intros base [|k]; cbn; [done..|]. by rewrite IH. Qed.
Lemma log_file_take p cfg k lg head snapshot seal batches :
  log_file p cfg lg head snapshot seal batches → log_file p cfg (log_take k lg) head snapshot seal (take k batches).
Proof.
  intros [? Hl ? ? ? ? ? Hb]. split; try done; cbn.
  - pose proof (zlen_nonneg (lg_batches lg)). unfold zlen in *. rewrite length_take. lia.
  - rewrite batch_records_take. by apply Forall2_take.
Qed.

Lemma log_file_encoded p cfg lg head snapshot seal batches :
  log_file p cfg lg head snapshot seal batches →
  ∀ enc, enc ∈ snapshot ++ seal :: batches → ∃ r, encoded p (aof_limits cfg) r enc.
Proof.
  intros [_ _ _ _ _ Hs Hl Hb] enc [i Hi]%list_elem_of_lookup.
  assert (Forall2 (encoded p (aof_limits cfg)) (log_records lg snapshot) (snapshot ++ seal :: batches)) as Hall
    by (apply Forall2_app; [done|by constructor]).
  destruct (Forall2_lookup_r _ _ _ _ _ Hall Hi) as (r & _ & Hr). by exists r.
Qed.

(** No strict prefix of a header is a header. *)
Lemma header_prefix p base layout replication head n :
  0 <= base < 2 ^ 64 → replication_ok replication → profile_write_header p base layout replication = Ok head → (n < length head)%nat →
  ∃ e, profile_read_header p (take n head) = Err e.
Proof.
  intros Hb Hr Hw Hn. destruct (profile_read_header p (take n head)) as [[h rest]|e] eqn:E; [|by eexists]. exfalso.
  destruct (header_local p _ _ _ E) as (c & Hc & Hl). destruct (profile_header_ok p base layout replication head [] Hb Hr Hw) as [v Hh].
  rewrite app_nil_r in Hh. rewrite <- (take_drop n head), Hc, <- app_assoc, Hl in Hh. injection Hh as _ Hd.
  apply app_eq_nil in Hd as [_ Hd]. apply (f_equal length) in Hd. rewrite length_drop in Hd. cbn in Hd. lia.
Qed.

Section Crash.
Context (p : Profile) (cfg : AofConfig) (sc : StoreConfig) (clock : nat → Sample).
Context (Hlayout : DurableLayout_validate (aof_layout cfg) = Ok tt) (Htotal : shard_count (aof_layout cfg) <= max_dataset_bytes sc).
Context (Hclock : ∀ n, clock_ok (clock n)) (Hconfig : ∃ s, with_config 0 sc = Ok s).

Lemma load_loop_part layout total base size st part :
  part = [] ∨ torn p cfg part →
  load_loop p layout (aof_limits cfg) total clock (load_fuel part) base size st part = Some (Ok (st, bool_decide (part ≠ []))).
Proof.
  intros [->|(r & enc & n & He & Hn & ->)]; [apply load_loop_end|].
  rewrite (load_loop_torn p layout (aof_limits cfg) total clock _ _ st r enc n He Hn). rewrite bool_decide_eq_true_2; [done|].
  intros E%(f_equal length). rewrite length_take in E. cbn in E. lia.
Qed.

(** Without its seal a log is refused. *)
Lemma load_unsealed lg head snapshot seal batches n :
  log_file p cfg lg head snapshot seal batches → zlen (log_bytes head snapshot seal batches) < 2 ^ 60 →
  (n < length (head ++ mjoin snapshot ++ seal))%nat →
  ∃ e, load_generation p cfg sc clock (take n (head ++ mjoin snapshot ++ seal)) = Some (Err e).
Proof.
  intros Hf Hz Hn. pose proof Hf as [Hb Hl (replication & Hr & Hw) Him Hsort Hsnap Hseal _]. pose proof (zlen_nonneg (lg_batches lg)).
  unfold log_bytes in Hz. rewrite !zlen_app in Hz. pose proof (zlen_nonneg head). pose proof (zlen_nonneg seal). pose proof (zlen_nonneg (mjoin batches)).
  destruct (decide (n < length head)%nat) as [Hh|Hh].
  { rewrite take_app_le by lia. destruct (header_prefix p (lg_base lg) _ _ _ _ ltac:(lia) Hr Hw Hh) as [e He]. destruct Hconfig as [s Hs].
    unfold load_generation. rewrite Hs, He. cbn [map_err fallible_bind]. destruct e; try (by eexists). by destruct (_ && _); eexists. }
  rewrite take_app_ge by lia. rewrite !length_app in Hn. assert (n - length head < length (mjoin snapshot ++ seal))%nat as Hn' by (rewrite length_app; lia).
  set (n' := (n - length head)%nat) in *.
  assert (mjoin snapshot ++ seal = mjoin (snapshot ++ [seal])) as Ej by (by rewrite join_app, join_cons, join_nil, app_nil_r).
  rewrite Ej. destruct (cut_join (snapshot ++ [seal]) n') as (k & part & E & Hk & Hle & _ & Hp). rewrite E.
  assert (k <= length snapshot)%nat as Hks.
  { rewrite length_app in Hk. cbn in Hk. destruct (decide (k = S (length snapshot))) as [->|]; [|lia].
    rewrite take_ge in Hle by (rewrite length_app; cbn; lia). rewrite <- Ej in Hle. lia. }
  rewrite take_app_le in * by lia. set (encs := take k snapshot) in *.
  assert (zlen (mjoin encs ++ part) <= zlen (mjoin snapshot ++ seal)) as Hlen.
  { rewrite <- E, Ej. unfold zlen. rewrite length_take. lia. }
  rewrite (zlen_app (mjoin snapshot)) in Hlen.
  destruct (load_after_header p cfg sc clock Hlayout Htotal Hconfig (lg_base lg) head (mjoin encs ++ part) replication) as (s & header & Hsq & Hst & ->);
    [lia|done|done|lia|].
  assert (Forall2 (encoded p (aof_limits cfg)) (MSnapshot <$> take k (lg_snapshot lg)) encs) as Hall
    by (rewrite fmap_take; by apply Forall2_take).
  rewrite (load_loop_encoded p _ _ _ clock _ _ _ _ _ _ _ Hall) by (unfold load_fuel; lia).
  replace (zlen (head ++ mjoin encs ++ part) - zlen (mjoin encs ++ part)) with (zlen head) by (rewrite !zlen_app; lia).
  pose proof (load_snapshots p (aof_layout cfg) (aof_limits cfg) (max_dataset_bytes sc) clock Hlayout Htotal Hclock (zlen part) (lg_base lg)
    (take k (lg_snapshot lg)) encs (log_state cfg s header) ∅ (zlen head)) as HS.
  assert (loaded_ok (aof_layout cfg) (max_dataset_bytes sc) (zlen (mjoin encs) + zlen part) (log_state cfg s header) ∅ (zlen head)) as Hst'
    by (by rewrite <- zlen_app).
  assert (Forall (λ mu, is_image mu = true) (take k (lg_snapshot lg))) as Him' by by apply Forall_take.
  assert (StronglySorted cmp_lt (MMutation_key <$> take k (lg_snapshot lg))) as Hsort'.
  { rewrite fmap_take. rewrite <- (take_drop k (MMutation_key <$> lg_snapshot lg)) in Hsort. by apply StronglySorted_app_1_l in Hsort. }
  destruct (run_batches _ _ _ _ _ ∅ _) as [m|]; [|by destruct HS as [e ->]; [zlen_lia|done..|eexists]].
  destruct HS as (st & -> & _ & Hsl & _); [zlen_lia|done..|]. cbn [fallible_bind].
  rewrite (load_loop_part (aof_layout cfg) (max_dataset_bytes sc) (lg_base lg) (zlen (head ++ mjoin encs ++ part)) st part).
  2:{ destruct Hp as [->|(enc & i & He & Hi & ->)]; [by left|right].
    destruct (log_file_encoded _ _ _ _ _ _ _ Hf enc) as [r Hr']; [|by exists r, enc, i].
    apply list_elem_of_lookup_2 in He. set_solver. }
  cbn [fallible_bind]. rewrite Hsl. by eexists.
Qed.
End Crash.

(** Recovery of a prefix of a log that has its seal. *)
Lemma load_sealed p cfg sc clock permits lg head snapshot seal batches n :
  AofConfig_validate permits cfg = Ok tt → StoreConfig_validate sc = Ok tt →
  shard_count (aof_layout cfg) <= max_dataset_bytes sc → (∀ n, clock_ok (clock n)) →
  log_file p cfg lg head snapshot seal batches → (length (head ++ mjoin snapshot ++ seal) <= n)%nat →
  let file := take n (log_bytes head snapshot seal batches) in
  zlen file < 2 ^ 60 →
  ∃ k, (k <= length batches)%nat ∧ (length (log_bytes head snapshot seal (take k batches)) <= n)%nat ∧
    (∀ enc, batches !! k = Some enc → (n < length (log_bytes head snapshot seal (take k batches)) + length enc)%nat) ∧
    match log_dataset p cfg sc clock (log_take k lg) with
    | Some m => ∃ s meta incomplete, load_generation p cfg sc clock file = Some (Ok (s, meta, incomplete)) ∧
        recovered_ok (aof_layout cfg) (max_dataset_bytes sc) s (rm_shard_usage meta) ∧ persisted s = m ∧
        rm_sequence meta = lg_base lg + Z.of_nat k ∧ rm_valid_bytes meta = zlen (log_bytes head snapshot seal (take k batches)) ∧
        (incomplete = true ↔ rm_valid_bytes meta < zlen file)
    | None => ∃ e, load_generation p cfg sc clock file = Some (Err e)
    end.
Proof.
  intros Hv Hsc Ht Hclock Hf Hn file Hz. pose proof (aof_config_layout _ _ Hv) as Hl.
  pose proof (store_config_ok sc Hsc) as Hc.
  assert (∀ l, log_bytes head snapshot seal l = (head ++ mjoin snapshot ++ seal) ++ mjoin l) as El
    by (intros l; unfold log_bytes; by rewrite <- !app_assoc).
  unfold file in *. clear file. rewrite (El batches), take_app_ge in Hz |- * by lia.
  destruct (cut_join batches (n - length (head ++ mjoin snapshot ++ seal))) as (k & part & E & Hk & Hle & Hlt & Hp). rewrite E in Hz |- *.
  exists k. rewrite !El, !(length_app (head ++ mjoin snapshot ++ seal)). split_and!; [done|lia|intros enc He%Hlt; lia|].
  rewrite app_assoc, <- El in Hz |- *. pose proof (load_log_file p cfg sc clock Hl Ht Hclock Hc (log_take k lg) head snapshot seal (take k batches) part) as HL.
  assert (zlen (lg_batches (log_take k lg)) = Z.of_nat k) as Ek.
  { pose proof (Forall2_length _ _ _ (lf_batches _ _ _ _ _ _ _ Hf)) as Hx. rewrite batch_records_length in Hx.
    unfold zlen. cbn. rewrite length_take. lia. }
  rewrite Ek in HL. assert (part = [] ∨ torn p cfg part) as Hpart.
  { destruct Hp as [->|(enc & i & He & Hi & ->)]; [by left|right].
    destruct (log_file_encoded _ _ _ _ _ _ _ Hf enc) as [r Hr]; [|by exists r, enc, i].
    apply list_elem_of_lookup_2 in He. set_solver. }
  destruct (log_dataset _ _ _ _ _) as [m|]; [|by apply HL; [apply log_file_take|..]].
  destruct HL as (s & meta & ? & ? & ? & ? & Hvb); [by apply log_file_take|done..|]. exists s, meta, (bool_decide (part ≠ [])).
  split_and!; [done..|]. rewrite bool_decide_eq_true, Hvb, zlen_app. destruct part; [rewrite zlen_nil; split; [done|lia]|].
  rewrite zlen_cons. split; [|done]. pose proof (zlen_nonneg part). lia.
Qed.

(** Recovery of any prefix of a log. *)
Lemma load_cut p cfg sc clock permits lg head snapshot seal batches n :
  AofConfig_validate permits cfg = Ok tt → StoreConfig_validate sc = Ok tt →
  shard_count (aof_layout cfg) <= max_dataset_bytes sc → (∀ n, clock_ok (clock n)) →
  log_file p cfg lg head snapshot seal batches → zlen (log_bytes head snapshot seal batches) < 2 ^ 60 →
  let file := take n (log_bytes head snapshot seal batches) in
  if decide (n < length (head ++ mjoin snapshot ++ seal))%nat
  then ∃ e, load_generation p cfg sc clock file = Some (Err e)
  else ∃ k, (k <= length batches)%nat ∧ (length (log_bytes head snapshot seal (take k batches)) <= n)%nat ∧
    (∀ enc, batches !! k = Some enc → (n < length (log_bytes head snapshot seal (take k batches)) + length enc)%nat) ∧
    match log_dataset p cfg sc clock (log_take k lg) with
    | Some m => ∃ s meta incomplete, load_generation p cfg sc clock file = Some (Ok (s, meta, incomplete)) ∧
        recovered_ok (aof_layout cfg) (max_dataset_bytes sc) s (rm_shard_usage meta) ∧ persisted s = m ∧
        rm_sequence meta = lg_base lg + Z.of_nat k ∧ rm_valid_bytes meta = zlen (log_bytes head snapshot seal (take k batches)) ∧
        (incomplete = true ↔ rm_valid_bytes meta < zlen file)
    | None => ∃ e, load_generation p cfg sc clock file = Some (Err e)
    end.
Proof.
  intros Hv Hsc Ht Hclock Hf Hz file. case_decide as Hn.
  - unfold file, log_bytes. rewrite !app_assoc, <- (app_assoc head), take_app_le by lia.
    eapply load_unsealed; [by eapply aof_config_layout|done|done|by apply store_config_ok|done..].
  - eapply load_sealed; [done..|lia|]. unfold zlen in *. rewrite length_take. lia.
Qed.

(** C6. A crash leaves a prefix of the log.  Cut before the end of the seal, the log is
    refused.  Cut anywhere after it, recovery replays exactly the complete batches: it
    yields the dataset they describe, the sequence of the last of them, exact usage
    and the end of the last complete batch as the valid length, and fails exactly when
    they have no effect within the quotas; a part of the next batch is reported as an
    incomplete tail. *)
Theorem recovery_after_crash p cfg sc clock permits lg head snapshot seal batches n :
  AofConfig_validate permits cfg = Ok tt → StoreConfig_validate sc = Ok tt →
  shard_count (aof_layout cfg) <= max_dataset_bytes sc → (∀ n, clock_ok (clock n)) →
  log_file p cfg lg head snapshot seal batches → zlen (log_bytes head snapshot seal batches) < 2 ^ 60 →
  let file := take n (log_bytes head snapshot seal batches) in
  if decide (n < length (head ++ mjoin snapshot ++ seal))%nat
  then ∃ e, load_generation p cfg sc clock file = Some (Err e)
  else ∃ k, (k <= length batches)%nat ∧ (length (log_bytes head snapshot seal (take k batches)) <= n)%nat ∧
    (∀ enc, batches !! k = Some enc → (n < length (log_bytes head snapshot seal (take k batches)) + length enc)%nat) ∧
    match log_dataset p cfg sc clock (log_take k lg) with
    | Some m => ∃ s meta incomplete, load_generation p cfg sc clock file = Some (Ok (s, meta, incomplete)) ∧
        recovered_ok (aof_layout cfg) (max_dataset_bytes sc) s (rm_shard_usage meta) ∧ persisted s = m ∧
        rm_sequence meta = lg_base lg + Z.of_nat k ∧ rm_valid_bytes meta = zlen (log_bytes head snapshot seal (take k batches)) ∧
        (incomplete = true ↔ rm_valid_bytes meta < zlen file)
    | None => ∃ e, load_generation p cfg sc clock file = Some (Err e)
    end.
Proof. apply load_cut. Qed.

Lemma cut_at (encs : list bytes) i :
  (i < length (mjoin encs))%nat →
  ∃ k enc j, encs !! k = Some enc ∧ (j < length enc)%nat ∧ i = (length (mjoin (take k encs)) + j)%nat.
Proof.
  revert i. induction encs as [|enc encs IH]; intros i Hi; [by apply Nat.nlt_0_r in Hi|]. rewrite join_cons, length_app in Hi.
  destruct (decide (i < length enc)%nat) as [Hn|Hn]; [by exists O, enc, i|].
  destruct (IH (i - length enc)%nat) as (k & enc' & j & He & Hj & E); [lia|]. exists (S k), enc', j. cbn [take].
  rewrite join_cons, length_app. split_and!; [done|done|lia].
Qed.

(** C8. In a log that recovers, changing any one byte of any record, of the snapshot,
    the seal or the batches, makes recovery fail with a corruption error: no damaged
    record is replayed, and none is mistaken for an incomplete tail. *)
Theorem recovery_refuses_corruption p cfg sc clock permits lg head snapshot seal batches m i b :
  AofConfig_validate permits cfg = Ok tt → StoreConfig_validate sc = Ok tt →
  shard_count (aof_layout cfg) <= max_dataset_bytes sc → (∀ n, clock_ok (clock n)) →
  log_file p cfg lg head snapshot seal batches → zlen (log_bytes head snapshot seal batches) < 2 ^ 60 →
  log_dataset p cfg sc clock lg = Some m →
  (length head <= i < length (log_bytes head snapshot seal batches))%nat → log_bytes head snapshot seal batches !! i ≠ Some b →
  ∃ what, load_generation p cfg sc clock (<[i := b]> (log_bytes head snapshot seal batches)) = Some (Err (AofFormat (FCorrupt what))).
Proof.
  intros Hv Hsc Ht Hclock Hf Hz Hm Hi Hb. pose proof (aof_config_layout _ _ Hv) as Hl.
  pose proof (store_config_ok sc Hsc) as Hc.
  pose proof Hf as [H0 Hlast (replication & Hr & Hw) _ _ Hsnap Hseal Hbat]. pose proof (zlen_nonneg (lg_batches lg)).
  set (encs := snapshot ++ seal :: batches). assert (mjoin snapshot ++ seal ++ mjoin batches = mjoin encs) as Ej
    by (unfold encs; by rewrite join_app, join_cons).
  unfold log_bytes in *. rewrite Ej in *. rewrite length_app in Hi. rewrite lookup_app_r in Hb by lia. rewrite insert_app_r_alt by lia.
  destruct (cut_at encs (i - length head)) as (k & enc & j & He & Hj & Eij); [lia|]. rewrite Eij in *.
  assert (mjoin encs = mjoin (take k encs) ++ enc ++ mjoin (drop (S k) encs)) as Ecut
    by (rewrite <- join_cons, <- join_app; f_equal; symmetry; by apply take_drop_middle).
  rewrite Ecut, lookup_app_r, Nat.add_sub_swap, Nat.sub_diag in Hb by lia. rewrite lookup_app_l in Hb by done.
  rewrite Ecut, insert_app_r, insert_app_l by done. set (tail := <[j:=b]> enc ++ mjoin (drop (S k) encs)).
  assert (zlen (mjoin (take k encs) ++ tail) = zlen (mjoin encs)) as Hlen.
  { rewrite Ecut. unfold tail, zlen. by rewrite !length_app, length_insert. }
  rewrite zlen_app in Hz. pose proof (zlen_nonneg head).
  destruct (load_after_header p cfg sc clock Hl Ht Hc (lg_base lg) head (mjoin (take k encs) ++ tail) replication)
    as (s & header & Hsq & Hst & ->); [lia|done|done|lia|].
  assert (Forall2 (encoded p (aof_limits cfg)) (log_records lg snapshot) encs) as Hall by (apply Forall2_app; [done|by constructor]).
  rewrite (load_loop_encoded p _ _ _ clock _ _ _ _ _ _ _ (Forall2_take _ _ _ k Hall)) by (unfold load_fuel; lia).
  replace (zlen (head ++ mjoin (take k encs) ++ tail) - zlen (mjoin (take k encs) ++ tail)) with (zlen head) by (rewrite (zlen_app head); lia).
  pose proof (load_log p cfg sc clock Hl Ht Hclock lg head snapshot seal batches (log_state cfg s header) Hf) as HL. cbv zeta in HL.
  rewrite Ej, Hm in HL. fold encs in HL. rewrite Hlen in Hst. destruct HL as (st & HL & _); [done..|].
  destruct (Forall2_lookup_r _ _ _ _ _ Hall He) as (r & Hrk & Henc).
  rewrite <- (take_drop k (log_records lg snapshot)), <- (take_drop k encs), zip_positions, load_records_app in HL.
  2:{ rewrite !length_take. by rewrite (Forall2_length _ _ _ Hall). }
  destruct (load_records _ _ _ _ _ _ _ (zip (take k _) _)) as [[st1|e]|]; [|done..]. cbn [fallible_bind].
  destruct (load_loop_corrupt p (aof_layout cfg) (aof_limits cfg) (max_dataset_bytes sc) clock (lg_base lg)
    (zlen (head ++ mjoin (take k encs) ++ tail)) st1 r enc j b (mjoin (drop (S k) encs)) Henc Hj Hb) as [what Hwhat].
  exists what. fold tail in Hwhat. by rewrite Hwhat.
Qed.

(** ** A concrete log *)

Definition sample_config : AofConfig := AofConfig_new (lit "data").
Definition sample_log : Log :=
  {| lg_base := 4; lg_snapshot := [Legacy (Put (lit "a") (VString (lit "1")) None); Legacy (Put (lit "b") (VString (lit "2")) None)];
     lg_batches := [(Client, [Legacy (Delete (lit "a"))]); (Client, [Legacy (Put (lit "c") (VString (lit "3")) None)])] |}.
Definition encoding (r : MRecord) : bytes :=
  match profile_encode LegacyProfile r Limits_default with Ok enc => enc | Err _ => [] end.
Definition sample_log_header : bytes :=
  match profile_write_header LegacyProfile 4 DurableLayout_default None with Ok enc => enc | Err _ => [] end.
Definition sample_snapshot : list bytes := encoding <$> (MSnapshot <$> lg_snapshot sample_log).
Definition sample_seal : bytes := encoding (MSeal 4 2 (foldl snapshot_digest 0 sample_snapshot)).
Definition sample_batches : list bytes := encoding <$> batch_records 4 (lg_batches sample_log).
Definition sample_clock (n : nat) : Sample := epoch_sample.

Lemma sample_log_file : log_file LegacyProfile sample_config sample_log sample_log_header sample_snapshot sample_seal sample_batches.
Proof.
  split.
  - done.
  - done.
  - exists None. split; [done|]. vm_compute. reflexivity.
  - repeat constructor.
  - repeat constructor.
  - repeat constructor; vm_compute; reflexivity.
  - split; [vm_compute; done|]. vm_compute. reflexivity.
  - repeat constructor; try done; vm_compute; reflexivity.
Qed.

Definition sample_file : bytes := log_bytes sample_log_header sample_snapshot sample_seal sample_batches.
(** The last batch is cut. *)
Definition sample_cut : nat := (length sample_file - 3)%nat.

Lemma recovery_any_file_witness :
  ∃ s meta, load_generation LegacyProfile sample_config StoreConfig_default sample_clock (take sample_cut sample_file)
              = Some (Ok (s, meta, true)) ∧
    recovered_ok DurableLayout_default (max_dataset_bytes StoreConfig_default) s (rm_shard_usage meta) ∧
    load_generation LegacyProfile sample_config StoreConfig_default sample_clock
      (take (Z.to_nat (rm_valid_bytes meta)) (take sample_cut sample_file)) = Some (Ok (s, without_tail meta, false)).
Proof.
  destruct (recovery_any_file LegacyProfile sample_config StoreConfig_default sample_clock (take sample_cut sample_file) 32)
    as (r & Hr & Hok); [reflexivity|by vm_compute|done|by vm_compute|].
  assert (match load_generation LegacyProfile sample_config StoreConfig_default sample_clock (take sample_cut sample_file) with
          | Some (Ok (_, meta, true)) => rm_sequence meta =? 5 | _ => false end = true) as He by (vm_compute; reflexivity).
  rewrite Hr in He. destruct r as [[[s meta] [|]]|e]; [|discriminate He..].
  destruct (Hok s meta true eq_refl) as (Hs & _ & _ & _ & Hagain). exists s, meta. rewrite Hr. by split_and!.
Defined.

Lemma recovery_after_crash_witness :
  ∃ s meta, load_generation LegacyProfile sample_config StoreConfig_default sample_clock (take sample_cut sample_file)
              = Some (Ok (s, meta, true)) ∧
    rm_sequence meta = 5 ∧ persisted s !! lit "a" = None ∧ persisted s !! lit "b" = Some (VString (lit "2"), None).
Proof.
  pose proof (recovery_after_crash LegacyProfile sample_config StoreConfig_default sample_clock 32 sample_log sample_log_header
    sample_snapshot sample_seal sample_batches sample_cut) as H.
  rewrite decide_False in H by (vm_compute; lia).
  destruct H as (k & Hk & Hle & Hlt & H); [reflexivity|reflexivity|by vm_compute|done|apply sample_log_file|by vm_compute|].
  assert (k = 1%nat) as ->.
  { destruct k as [|[|k]]; [|done|]; exfalso.
    - specialize (Hlt _ eq_refl). vm_compute in Hlt. lia.
    - destruct k; vm_compute in Hk, Hle; lia. }
  set (D := log_dataset LegacyProfile sample_config StoreConfig_default sample_clock (log_take 1 sample_log)) in *.
  assert ((m ← D; Some (m !! lit "a", m !! lit "b")) = Some (None, Some (VString (lit "2"), None))) as Hd by (vm_compute; reflexivity).
  destruct D as [m|]; [|discriminate Hd]. injection Hd as Ha Hb. destruct H as (s & meta & inc & Hl & _ & Hp & Hs & Hv & Hi).
  fold sample_file in Hl.
  exists s, meta. rewrite Hl, Hp. split_and!; [|done..]. do 3 f_equal. apply Hi. rewrite Hv. vm_compute. reflexivity.
Defined.

Lemma recovery_refuses_corruption_witness :
  ∃ what, load_generation LegacyProfile sample_config StoreConfig_default sample_clock (<[50%nat := x00]> sample_file)
            = Some (Err (AofFormat (FCorrupt what))).
Proof.
  set (D := log_dataset LegacyProfile sample_config StoreConfig_default sample_clock sample_log).
  assert (match D with Some _ => true | None => false end = true) as Hd by (vm_compute; reflexivity).
  destruct D as [m|] eqn:E; [|discriminate Hd].
  apply (recovery_refuses_corruption LegacyProfile sample_config StoreConfig_default sample_clock 32 sample_log sample_log_header
    sample_snapshot sample_seal sample_batches m 50 x00).
  - reflexivity.
  - reflexivity.
  - by vm_compute.
  - intros n. apply epoch_sample_ok.
  - apply sample_log_file.
  - by vm_compute.
  - exact E.
  - vm_compute. lia.
  - by vm_compute.
Defined.
