(* ===== verification/Disk.v ===== *)
(** * Files

    The operations of [std::fs] that src/persistence/writer.rs uses, on one directory of
    regular files, and what a failure of the machine leaves of it.  Every operation
    takes its outcome from a list: it works, it fails after a part of its work, or the
    process dies in it.  A weakest precondition follows a program through all of them. *)

From Stdlib Require Import Strings.Byte Strings.String ZArith Lia.
From S2P Require Import Prelude Wire Format Recovery Journal.

#[local] Open Scope Z_scope.

(** ** The disk *)

(** The bytes of a file as processes see them and as its last [sync_all] left them; the
    directory, and the directory as its last sync left it. *)
Record Inode := { i_data : bytes; i_durable : bytes }.
Record Disk := { inodes : gmap nat Inode; entries : gmap bytes nat; saved : gmap bytes nat }.

(** What the writer answers: an appended batch or a flush with the sequence it reaches,
    the refusal and the end of a compaction, an installation, the attachment of a
    journal, and the status. *)
Inductive WReply :=
| Appended (r : result AofError Z)
| Flushed (r : result AofError Z)
| Refused (e : AofError)
| Compacted (r : result AofError unit)
| Installed (r : result AofError unit)
| Attached (r : result AofError unit)
| StatusIs (sequence bytes_since_compact : Z) (compacting : bool).

(** The disk, the process-wide counter behind the names of temporary files, the journals
    that the writer shares with their subscribers, and the replies sent so far. *)
Record World := {
  disk : Disk;
  next_temporary : Z;
  journals : list (JLimits * JState (V := nat));
  sent : list WReply
}.

Definition set_inode (id : nat) (i : Inode) (d : Disk) : Disk :=
  {| inodes := <[id := i]> (inodes d); entries := entries d; saved := saved d |}.
Definition set_entries (e : gmap bytes nat) (d : Disk) : Disk :=
  {| inodes := inodes d; entries := e; saved := saved d |}.
Definition on_disk (f : Disk → Disk) (w : World) : World :=
  {| disk := f (disk w); next_temporary := next_temporary w; journals := journals w; sent := sent w |}.

Definition create_inode (name : bytes) (d : Disk) : Disk :=
  let id := fresh (dom (inodes d)) in
  {| inodes := <[id := {| i_data := []; i_durable := [] |}]> (inodes d);
     entries := <[name := id]> (entries d); saved := saved d |}.
Definition append_inode (id : nat) (data : bytes) (d : Disk) : Disk :=
  match inodes d !! id with
  | Some i => set_inode id {| i_data := i_data i ++ data; i_durable := i_durable i |} d
  | None => d
  end.
Definition truncate_inode (id : nat) (n : Z) (d : Disk) : Disk :=
  match inodes d !! id with
  | Some i => set_inode id {| i_data := take (Z.to_nat n) (i_data i); i_durable := i_durable i |} d
  | None => d
  end.
Definition sync_inode (id : nat) (d : Disk) : Disk :=
  match inodes d !! id with
  | Some i => set_inode id {| i_data := i_data i; i_durable := i_data i |} d
  | None => d
  end.
Definition rename_entry (source target : bytes) (d : Disk) : Disk :=
  match entries d !! source with
  | Some id => set_entries (<[target := id]> (delete source (entries d))) d
  | None => d
  end.
Definition remove_entry (name : bytes) (d : Disk) : Disk := set_entries (delete name (entries d)) d.
Definition sync_entries (d : Disk) : Disk :=
  {| inodes := inodes d; entries := entries d; saved := entries d |}.
Definition contents (id : nat) (d : Disk) : bytes := default [] (i_data <$> inodes d !! id).

(** ** Programs *)

Inductive Fault := Works | Fails (n : nat) | Dies (n : nat).
Inductive Exit (A : Type) := Return (a : A) | Raise (e : AofError) | Died.
Arguments Return {A}.
Arguments Raise {A}.
Arguments Died {A}.

Definition IO (A : Type) : Type := World → list Fault → World * list Fault * Exit A.

#[export] Instance io_ret : MRet IO := λ A a w fs, (w, fs, Return a).
#[export] Instance io_bind : MBind IO := λ A B k m w fs,
  match m w fs with
  | (w, fs, Return a) => k a w fs
  | (w, fs, Raise e) => (w, fs, Raise e)
  | (w, fs, Died) => (w, fs, Died)
  end.
Definition raise_io {A} (e : AofError) : IO A := λ w fs, (w, fs, Raise e).
Definition died {A} : IO A := λ w fs, (w, fs, Died).
Definition lift_io {A} (r : result AofError A) : IO A :=
  match r with Ok a => mret a | Err e => raise_io e end.
(** A panic ends the thread, and nothing more reaches the disk. *)
Definition lift_fallible {A} (r : fallible AofError A) : IO A :=
  match r with Some r => lift_io r | None => died end.
(** [(|| ...)()]: the result of a closure as a value. *)
Definition attempt {A} (m : IO A) : IO (result AofError A) := λ w fs,
  match m w fs with
  | (w, fs, Return a) => (w, fs, Return (Ok a))
  | (w, fs, Raise e) => (w, fs, Return (Err e))
  | (w, fs, Died) => (w, fs, Died)
  end.
Definition get_disk : IO Disk := λ w fs, (w, fs, Return (disk w)).
(** [NEXT_TEMPORARY.fetch_add(1)] wraps around. *)
Definition take_temporary : IO Z := λ w fs,
  ({| disk := disk w; next_temporary := (next_temporary w + 1) mod 2 ^ 64; journals := journals w; sent := sent w |}, fs,
   Return (next_temporary w)).
Definition send (r : WReply) : IO unit := λ w fs,
  ({| disk := disk w; next_temporary := next_temporary w; journals := journals w; sent := sent w ++ [r] |}, fs, Return tt).
Definition get_journal (i : nat) : IO (option (JLimits * JState)) := λ w fs, (w, fs, Return (journals w !! i)).
Definition put_journal (i : nat) (l : JLimits) (j : JState) : IO unit := λ w fs,
  ({| disk := disk w; next_temporary := next_temporary w; journals := <[i := (l, j)]> (journals w); sent := sent w |}, fs,
   Return tt).

(** An operation on the disk, what its failure leaves done and what a death in it does. *)
Definition act (effect : Disk → Disk) (failed dead : nat → Disk → Disk) : IO unit := λ w fs,
  match fs with
  | [] => (on_disk effect w, [], Return tt)
  | Works :: fs => (on_disk effect w, fs, Return tt)
  | Fails n :: fs => (on_disk (failed n) w, fs, Raise AofIo)
  | Dies n :: fs => (on_disk (dead n) w, fs, Died)
  end.
Definition atomic (effect : Disk → Disk) : IO unit :=
  act effect (λ _ d, d) (λ n d, match n with O => d | S _ => effect d end).

(** Opening, reading and querying change nothing. *)
Definition probe : IO unit := atomic (λ d, d).
Definition write_all (id : nat) (data : bytes) : IO unit :=
  act (append_inode id data) (λ n, append_inode id (take n data)) (λ n, append_inode id (take n data)).
Definition sync_all (id : nat) : IO unit := atomic (sync_inode id).
Definition set_len (id : nat) (n : Z) : IO unit := atomic (truncate_inode id n).
Definition sync_directory : IO unit := atomic sync_entries.
Definition open_file (name : bytes) : IO nat :=
  d ← get_disk; _ ← probe;
  match entries d !! name with Some id => mret id | None => raise_io AofIo end.
(** [create_new(true)] *)
Definition create_new (name : bytes) : IO nat :=
  d ← get_disk;
  match entries d !! name with
  | Some _ => raise_io AofIo
  | None => _ ← atomic (create_inode name); mret (fresh (dom (inodes d)))
  end.
(** [create(true)] *)
Definition open_or_create (name : bytes) : IO nat :=
  d ← get_disk;
  match entries d !! name with Some _ => open_file name | None => create_new name end.
Definition rename (source target : bytes) : IO unit :=
  d ← get_disk;
  match entries d !! source with
  | Some _ => atomic (rename_entry source target)
  | None => raise_io AofIo
  end.
Definition remove_file (name : bytes) : IO unit :=
  d ← get_disk;
  match entries d !! name with
  | Some _ => atomic (remove_entry name)
  | None => raise_io AofIo
  end.
(** [let _ = fs::remove_file(...)] *)
Definition discard_file (name : bytes) : IO unit := _ ← attempt (remove_file name); mret tt.
Definition path_exists (name : bytes) : IO bool :=
  d ← get_disk; mret (bool_decide (is_Some (entries d !! name))).

(** ** Failure of the machine *)

(** What is left of a file holds everything on which the two views agree, and nothing
    that neither has: a failure keeps or loses the end of what was not synced. *)
Definition remains (i : Inode) (c : bytes) : Prop :=
  (c `prefix_of` i_data i ∨ c `prefix_of` i_durable i) ∧
  ∀ b, b `prefix_of` i_data i → b `prefix_of` i_durable i → b `prefix_of` c.
(** Every name is found as it was or as the last sync of the directory left it. *)
Record crashed (d d' : Disk) : Prop := {
  cr_inodes id : match inodes d !! id with
                 | Some i => ∃ c, inodes d' !! id = Some {| i_data := c; i_durable := c |} ∧ remains i c
                 | None => inodes d' !! id = None
                 end;
  cr_entries name : entries d' !! name = entries d !! name ∨ entries d' !! name = saved d !! name;
  cr_saved : saved d' = entries d'
}.

(** ** Weakest preconditions *)

Definition wp {A} (m : IO A) (w : World) (Φ : World → Exit A → Prop) : Prop :=
  ∀ fs, let '(w', _, x) := m w fs in Φ w' x.
(** The postcondition of a step followed by the rest of the program. *)
Definition next {A B} (k : A → IO B) (Φ : World → Exit B → Prop) : World → Exit A → Prop := λ w x,
  match x with Return a => wp (k a) w Φ | Raise e => Φ w (Raise e) | Died => Φ w Died end.

Lemma wpd_mono {A} (m : IO A) w Φ Ψ : wp m w Φ → (∀ w x, Φ w x → Ψ w x) → wp m w Ψ.
Proof. intros Hm Hi fs. specialize (Hm fs). destruct (m w fs) as [[w' fs'] x]. by apply Hi. Qed.
Lemma wpd_ret {A} (a : A) w Φ : Φ w (Return a) → wp (mret a) w Φ.
Proof. by intros ? fs. Qed.
Lemma wpd_bind {A B} (m : IO A) (k : A → IO B) w Φ : wp m w (next k Φ) → wp (m ≫= k) w Φ.
Proof.
  intros Hm fs. specialize (Hm fs). unfold mbind, io_bind. destruct (m w fs) as [[w' fs'] [a|e|]]; [|done..].
  apply Hm.
Qed.
Lemma wpd_raise {A} e w (Φ : World → Exit A → Prop) : Φ w (Raise e) → wp (raise_io e) w Φ.
Proof. by intros ? fs. Qed.
Lemma wpd_died {A} w (Φ : World → Exit A → Prop) : Φ w Died → wp died w Φ.
Proof. by intros ? fs. Qed.
Lemma wpd_get_disk w Φ : Φ w (Return (disk w)) → wp get_disk w Φ.
Proof. by intros ? fs. Qed.
Lemma wpd_get_journal i w Φ : Φ w (Return (journals w !! i)) → wp (get_journal i) w Φ.
Proof. by intros ? fs. Qed.
Lemma wpd_lift {A} (r : result AofError A) w Φ :
  match r with Ok a => Φ w (Return a) | Err e => Φ w (Raise e) end → wp (lift_io r) w Φ.
Proof. destruct r; [apply wpd_ret|apply wpd_raise]. Qed.
Lemma wpd_attempt {A} (m : IO A) w Φ :
  wp m w (λ w x, match x with Return a => Φ w (Return (Ok a)) | Raise e => Φ w (Return (Err e)) | Died => Φ w Died end) →
  wp (attempt m) w Φ.
Proof. intros Hm fs. specialize (Hm fs). unfold attempt. by destruct (m w fs) as [[w' fs'] [a|e|]]. Qed.
Lemma wpd_act effect failed dead w Φ :
  Φ (on_disk effect w) (Return tt) → (∀ n, Φ (on_disk (failed n) w) (Raise AofIo)) → (∀ n, Φ (on_disk (dead n) w) Died) →
  wp (act effect failed dead) w Φ.
Proof. intros ? ? ? [|[|n|n] fs]; by cbn. Qed.
Lemma on_disk_id w : on_disk (λ d, d) w = w.
Proof. by destruct w. Qed.
Lemma wpd_atomic effect w Φ :
  Φ (on_disk effect w) (Return tt) → Φ w (Raise AofIo) → Φ w Died → Φ (on_disk effect w) Died → wp (atomic effect) w Φ.
Proof. intros. apply wpd_act; [done|by intros n; rewrite on_disk_id|]. intros [|n]; [by rewrite on_disk_id|done]. Qed.
Lemma wpd_probe w Φ : Φ w (Return tt) → Φ w (Raise AofIo) → Φ w Died → wp probe w Φ.
Proof. intros. apply wpd_atomic; rewrite ?on_disk_id; done. Qed.

(** ** Runs without failures *)

Definition calm {A} (m : IO A) (w : World) (Φ : World → Exit A → Prop) : Prop :=
  ∃ w' x, m w [] = (w', [], x) ∧ Φ w' x.
Lemma calm_bind {A B} (m : IO A) (k : A → IO B) w Φ :
  calm m w (λ w' x, match x with Return a => calm (k a) w' Φ | Raise e => Φ w' (Raise e) | Died => Φ w' Died end) →
  calm (m ≫= k) w Φ.
Proof.
  intros (w' & x & E & Hx). unfold calm, mbind, io_bind. rewrite E. destruct x as [a|e|]; [done|by eexists _, _..].
Qed.
Lemma calm_ret {A} (a : A) w Φ : Φ w (Return a) → calm (mret a) w Φ.
Proof. intros H. by eexists _, _. Qed.
Lemma calm_raise {A} e w (Φ : World → Exit A → Prop) : Φ w (Raise e) → calm (raise_io e) w Φ.
Proof. intros H. by eexists _, _. Qed.
Lemma calm_get_disk w Φ : Φ w (Return (disk w)) → calm get_disk w Φ.
Proof. intros H. by eexists _, _. Qed.
Lemma calm_act effect failed dead w Φ : Φ (on_disk effect w) (Return tt) → calm (act effect failed dead) w Φ.
Proof. intros H. by eexists _, _. Qed.
Lemma calm_probe w Φ : Φ w (Return tt) → calm probe w Φ.
Proof. intros H. apply calm_act. by rewrite on_disk_id. Qed.
Lemma calm_open name id w Φ : entries (disk w) !! name = Some id → Φ w (Return id) → calm (open_file name) w Φ.
Proof. intros He H. apply calm_bind, calm_get_disk, calm_bind, calm_probe. cbn. rewrite He. by apply calm_ret. Qed.
Lemma calm_create name w Φ :
  entries (disk w) !! name = None → Φ (on_disk (create_inode name) w) (Return (fresh (dom (inodes (disk w))))) → calm (create_new name) w Φ.
Proof. intros He H. apply calm_bind, calm_get_disk. cbn. rewrite He. apply calm_bind, calm_act. by apply calm_ret. Qed.
(** What holds of every run holds of this one. *)
Lemma calm_wp {A} (m : IO A) w Φ Ψ : wp m w Φ → calm m w Ψ → calm m w (λ w' x, Φ w' x ∧ Ψ w' x).
Proof. intros Hw (w' & x & E & Hx). exists w', x. specialize (Hw []). rewrite E in Hw. auto. Qed.
Lemma calm_mono {A} (m : IO A) w (Φ Ψ : World → Exit A → Prop) : calm m w Φ → (∀ w' x, Φ w' x → Ψ w' x) → calm m w Ψ.
Proof. intros (w' & x & E & Hx) H. exists w', x. auto. Qed.
