(* ===== verification/Writer.v ===== *)
(** * The writer of the append-only file

    Models the writer of src/persistence/writer.rs: the names of its files, the opening of
    a directory, the appends with their syncs, the installation of a replica's snapshot,
    compaction, and the loop over the requests of the handles.  The thread that writes a
    compacted snapshot works on a file of its own and is one step here; the diagnostics
    and the fault points of the tests are left out.  [elapsed] tells whether the period of
    a periodic sync has passed. *)

From Stdlib Require Import Strings.Byte Strings.String ZArith Lia.
From S2P Require Import Prelude Float Wire Score Memory Command Store StoreInv StoreSpec Mutation StoreExec Replay Routing Format MemoryFormat Profile MemoryLifecycle Decoded Protocol Journal Recovery Disk.

#[local] Open Scope Z_scope.

#[export] Instance Role_eq_decision : EqDecision Role.
Proof. solve_decision. Defined.
#[export] Instance ReplicationMetadata_eq_decision : EqDecision ReplicationMetadata.
Proof. solve_decision. Defined.

Definition U64_MAX : Z := 2 ^ 64 - 1.

(** ** Names *)

(** [{:020}] *)
Definition pad (n : Z) : bytes := replicate (20 - length (udec n)) "0"%byte ++ udec n.
Definition generation_path (g : Z) : bytes := lit "generation-" ++ pad g ++ lit ".aof".
Definition temporary_name (pid : Z) (prefix : bytes) (n : Z) : bytes :=
  prefix ++ lit "-" ++ udec pid ++ lit "-" ++ udec n ++ lit ".tmp".
Definition temporary_path (pid : Z) (prefix : bytes) : IO bytes := n ← take_temporary; mret (temporary_name pid prefix n).
Definition tail_name (pid g n : Z) : bytes := lit "tail-" ++ pad g ++ lit "-" ++ udec pid ++ lit "-" ++ udec n ++ lit ".bak".
Definition tail_path (pid g : Z) : IO bytes := n ← take_temporary; mret (tail_name pid g n).

Definition is_residue (name : bytes) : bool :=
  bool_decide (is_Some (strip_prefix (lit "replication-install-") name)) && bool_decide (is_Some (strip_suffix (lit ".tmp") name)).
(** The residues of interrupted installations and the numbers of the generations. *)
Fixpoint scan_names (read_only : bool) (names residues : list bytes) (generations : list Z)
    : result AofError (list bytes * list Z) :=
  match names with
  | [] => Ok (residues, generations)
  | name :: names =>
      if negb read_only && is_residue name then scan_names read_only names (residues ++ [name]) generations
      else
        match strip_prefix (lit "generation-") name ≫= strip_suffix (lit ".aof") with
        | None => scan_names read_only names residues generations
        | Some value =>
            if negb (zlen value =? 20) || negb (forallb is_digit value) || (U64_MAX <? dec_value value) then Err AofSequence
            else scan_names read_only names residues (generations ++ [dec_value value])
        end
  end.

(** ** The writer *)

(** The channel from the thread of a compaction, and what the thread was given. *)
Inductive Ready := Producing | Produced (r : result AofError nat) | Disconnected.
Record Compaction := {
  cp_ready : Ready;
  cp_temporary : bytes;
  cp_destination : bytes;
  cp_delta : list bytes;
  cp_delta_bytes : Z;
  cp_aborted : bool;
  cp_snapshot : list Mutation;
  cp_sequence : Z;
  cp_replication : option ReplicationMetadata
}.

Record Writer := {
  wr_config : AofConfig;
  wr_profile : Profile;
  wr_file : nat;
  wr_generation : Z;
  wr_sequence : Z;
  wr_bytes_since_compact : Z;
  wr_dirty : bool;
  wr_compaction : option Compaction;
  wr_replication : option ReplicationMetadata;
  wr_journal : option nat;
  wr_store_config : StoreConfig
}.

Definition with_compaction (w : Writer) (c : option Compaction) : Writer :=
  {| wr_config := wr_config w; wr_profile := wr_profile w; wr_file := wr_file w; wr_generation := wr_generation w;
     wr_sequence := wr_sequence w; wr_bytes_since_compact := wr_bytes_since_compact w; wr_dirty := wr_dirty w;
     wr_compaction := c; wr_replication := wr_replication w; wr_journal := wr_journal w;
     wr_store_config := wr_store_config w |}.
Definition with_dirty (w : Writer) (dirty : bool) : Writer :=
  {| wr_config := wr_config w; wr_profile := wr_profile w; wr_file := wr_file w; wr_generation := wr_generation w;
     wr_sequence := wr_sequence w; wr_bytes_since_compact := wr_bytes_since_compact w; wr_dirty := dirty;
     wr_compaction := wr_compaction w; wr_replication := wr_replication w; wr_journal := wr_journal w;
     wr_store_config := wr_store_config w |}.
Definition with_journal (w : Writer) (journal : option nat) : Writer :=
  {| wr_config := wr_config w; wr_profile := wr_profile w; wr_file := wr_file w; wr_generation := wr_generation w;
     wr_sequence := wr_sequence w; wr_bytes_since_compact := wr_bytes_since_compact w; wr_dirty := wr_dirty w;
     wr_compaction := wr_compaction w; wr_replication := wr_replication w; wr_journal := journal;
     wr_store_config := wr_store_config w |}.

(** ** Appending *)

Definition writer_sync (w : Writer) : IO Writer := _ ← sync_all (wr_file w); mret (with_dirty w false).

Definition frame_limits (w : Writer) : RepLimits :=
  {| max_frame_bytes := max_record_bytes (aof_limits (wr_config w)) + FRAME_HEADER_BYTES + 12;
     record_limits := aof_limits (wr_config w) |}.
Definition frame_error (e : RepError) : AofError := match e with RepRecord e => AofFormat e | _ => AofSequence end.

(** The delta of a compaction takes the record, or is given up. *)
Definition extend_delta (max : Z) (c : Compaction) (encoded : bytes) : Compaction :=
  let with_delta delta bytes aborted :=
    {| cp_ready := cp_ready c; cp_temporary := cp_temporary c; cp_destination := cp_destination c; cp_delta := delta;
       cp_delta_bytes := bytes; cp_aborted := aborted; cp_snapshot := cp_snapshot c; cp_sequence := cp_sequence c;
       cp_replication := cp_replication c |} in
  if cp_aborted c then c
  else match u_add (cp_delta_bytes c) (zlen encoded) with
       | Some n => if max <? n then with_delta [] 0 true else with_delta (cp_delta c ++ [encoded]) n false
       | None => with_delta [] 0 true
       end.

Definition publish_frame (journal : option nat) (frame : option bytes) (sequence : Z) : IO unit :=
  match journal, frame with
  | Some i, Some frame =>
      j ← get_journal i;
      match j with
      | Some (l, j) =>
          match publish l j sequence frame with
          | Some (j, r) => _ ← put_journal i l j; lift_io (map_err (λ _, AofUnavailable) r)
          | None => died
          end
      | None => died
      end
  | _, _ => mret tt
  end.

(** The fields of the writer after a record was written. *)
Definition after_append (w : Writer) (sequence : Z) (encoded : bytes) : Writer :=
  {| wr_config := wr_config w; wr_profile := wr_profile w; wr_file := wr_file w; wr_generation := wr_generation w;
     wr_sequence := sequence;
     wr_bytes_since_compact := Z.min U64_MAX (wr_bytes_since_compact w + zlen encoded);
     wr_dirty := true;
     wr_compaction := (λ c, extend_delta (max_delta_bytes (wr_config w)) c encoded) <$> wr_compaction w;
     wr_replication := wr_replication w; wr_journal := wr_journal w; wr_store_config := wr_store_config w |}.
Definition append_encoded (w : Writer) (sequence : Z) (encoded : bytes) (frame : option bytes) : IO (Writer * Z) :=
  _ ← write_all (wr_file w) encoded;
  let w := after_append w sequence encoded in
  w ← (if bool_decide (aof_sync (wr_config w) = Always) then writer_sync w else mret w);
  _ ← publish_frame (wr_journal w) frame sequence;
  mret (w, sequence).

Definition writer_append (w : Writer) (batch : ResolvedBatch) : IO (Writer * Z) :=
  _ ← lift_io (if bool_decide (wr_profile w = ComposedLegacyMixed)
               then fold_ok (λ _ mu, _ ← map_err AofConfigError (layout_shard_for (aof_layout (wr_config w)) (Mutation_key mu)); Ok tt)
                      tt (mutations batch)
               else _ ← batch_shard (mutations batch) (aof_layout (wr_config w)); Ok tt);
  sequence ← lift_io (ok_or AofSequence (u_add (wr_sequence w) 1));
  frame ← lift_io match wr_journal w with
                  | Some _ =>
                      frame ← map_err frame_error
                        ((if bool_decide (wr_profile w = ComposedLegacyMixed) then rep_encode_composed else rep_encode)
                           (MsgBatch sequence batch) (frame_limits w));
                      Ok (Some frame)
                  | None => Ok None
                  end;
  encoded ← lift_io (map_err AofFormat (profile_encode_legacy (wr_profile w) (Batch sequence batch) (aof_limits (wr_config w))));
  append_encoded w sequence encoded frame.

Definition writer_append_memory (w : Writer) (o : MutationOrigin) (ms : list MMutation) : IO (Writer * Z) :=
  if negb (memory_profile (wr_config w)) then raise_io (AofFormat (FVersion 2))
  else
    _ ← lift_io (check_shards (aof_layout (wr_config w)) false None ms);
    sequence ← lift_io (ok_or AofSequence (u_add (wr_sequence w) 1));
    frame ← lift_io match wr_journal w with
                    | Some _ =>
                        frame ← map_err frame_error (rep_encode_memory (MsgMemoryBatch sequence o ms) (frame_limits w));
                        Ok (Some frame)
                    | None => Ok None
                    end;
    encoded ← lift_io (map_err AofFormat (memory_encode (MBatch sequence o ms) (aof_limits (wr_config w))));
    append_encoded w sequence encoded frame.

(** ** New generations *)

(** The entries of a snapshot, written one by one.  A compaction takes plain mutations and
    also refuses an entry out of order. *)
Fixpoint write_snapshot (p : Profile) (l : Limits) (file : nat) (snapshot : list MMutation) (entries digest : Z) : IO (Z * Z) :=
  match snapshot with
  | [] => mret (entries, digest)
  | mu :: snapshot =>
      encoded ← lift_io (map_err AofFormat (profile_encode p (MSnapshot mu) l));
      _ ← write_all file encoded;
      write_snapshot p l file snapshot (entries + 1) (snapshot_digest digest encoded)
  end.
Fixpoint write_compacted (p : Profile) (l : Limits) (file : nat) (previous : option bytes) (snapshot : list Mutation)
    (entries digest : Z) : IO (Z * Z) :=
  match snapshot with
  | [] => mret (entries, digest)
  | mu :: snapshot =>
      if negb (is_put mu)
         || match previous with Some key => bool_decide (cmp key (Mutation_key mu) ≠ Lt) | None => false end
      then raise_io AofSequence
      else
        encoded ← lift_io (map_err AofFormat (profile_encode_legacy p (Snapshot mu) l));
        _ ← write_all file encoded;
        write_compacted p l file (Some (Mutation_key mu)) snapshot (entries + 1) (snapshot_digest digest encoded)
  end.
Definition write_seal (p : Profile) (l : Limits) (file : nat) (sequence entries digest : Z) : IO unit :=
  encoded ← lift_io (map_err AofFormat (profile_encode p (MSeal sequence entries digest) l));
  _ ← write_all file encoded;
  sync_all file.
Definition write_head (p : Profile) (file : nat) (sequence : Z) (layout : DurableLayout) (replication : option ReplicationMetadata)
    : IO unit :=
  header ← lift_io (map_err AofFormat (profile_write_header p sequence layout replication));
  write_all file header.

(** A complete new file: the header, the snapshot and its seal, synced. *)
Definition write_generation (p : Profile) (cfg : AofConfig) (name : bytes) (sequence : Z) (replication : option ReplicationMetadata)
    (snapshot : list MMutation) : IO nat :=
  file ← create_new name;
  _ ← write_head p file sequence (aof_layout cfg) replication;
  '(entries, digest) ← write_snapshot p (aof_limits cfg) file snapshot 0 0;
  _ ← write_seal p (aof_limits cfg) file sequence entries digest;
  mret file.

(** Makes a complete file the one of a generation. *)
Definition publish_file (temporary destination : bytes) : IO unit :=
  _ ← rename temporary destination; sync_directory.

Section Process.
Context (pid : Z) (clock : nat → Sample).

(** The check of an installed snapshot: images in order, within the quotas of the shards. *)
Fixpoint check_snapshot (w : Writer) (snapshot : list MMutation) (previous : option bytes) (n : nat) (s : Store) (usage : list Z)
    : fallible AofError unit :=
  match snapshot with
  | [] => Some (Ok tt)
  | mu :: snapshot =>
      if negb (is_image mu)
         || match previous with Some key => bool_decide (cmp key (MMutation_key mu) ≠ Lt) | None => false end
      then Some (Err AofSequence)
      else
        fallible_bind
          (replay_routed_memory s (clock n) [mu] (aof_layout (wr_config w)) (max_dataset_bytes (wr_store_config w)) usage
             (bool_decide (wr_profile w = ComposedLegacyMixed)))
          (λ r, check_snapshot w snapshot (Some (MMutation_key mu)) (S n) r.1 r.2)
  end.

(** [path.exists() && remove_file(path)] of the generation before the previous one. *)
Definition remove_obsolete (generation : Z) : IO unit :=
  if generation <? 2 then mret tt
  else
    found ← path_exists (generation_path (generation - 2));
    if (found : bool) then discard_file (generation_path (generation - 2)) else mret tt.

Definition close_journal (journal : option nat) : IO unit :=
  match journal with
  | Some i =>
      j ← get_journal i;
      match j with Some (l, j) => put_journal i l (close j) | None => died end
  | None => mret tt
  end.

Definition install_profile_snapshot (w : Writer) (snapshot : list MMutation) (sequence : Z) (metadata : ReplicationMetadata)
    : IO Writer :=
  match wr_compaction w with
  | Some _ => raise_io AofCompacting
  | None =>
      generation ← lift_io (ok_or AofSequence (u_add (wr_generation w) 1));
      checked ← lift_io (map_err AofConfigError (with_config 0 (wr_store_config w)));
      _ ← lift_fallible (check_snapshot w snapshot None O checked
                           (replicate (Z.to_nat (shard_count (aof_layout (wr_config w)))) 0));
      temporary ← temporary_path pid (lit "replication-install");
      r ← attempt (
        file ← write_generation (wr_profile w) (wr_config w) temporary sequence (Some metadata) snapshot;
        _ ← publish_file temporary (generation_path generation);
        _ ← close_journal (wr_journal w);
        mret {| wr_config := wr_config w; wr_profile := wr_profile w; wr_file := file; wr_generation := generation;
                wr_sequence := sequence; wr_bytes_since_compact := 0; wr_dirty := false; wr_compaction := None;
                wr_replication := Some metadata; wr_journal := None; wr_store_config := wr_store_config w |});
      match r with
      | Err e =>
          published ← path_exists (generation_path generation);
          if (published : bool) then raise_io AofUnavailable
          else _ ← discard_file temporary; raise_io e
      | Ok w => _ ← remove_obsolete generation; mret w
      end
  end.
Definition install_snapshot (w : Writer) (snapshot : list Mutation) (sequence : Z) (metadata : ReplicationMetadata) : IO Writer :=
  if memory_profile (wr_config w) then raise_io (AofFormat (FVersion 2))
  else install_profile_snapshot w (from_storage <$> snapshot) sequence metadata.
Definition install_memory_snapshot (w : Writer) (snapshot : list MMutation) (sequence : Z) (metadata : ReplicationMetadata)
    : IO Writer :=
  if negb (memory_profile (wr_config w)) then raise_io (AofFormat (FVersion 2))
  else install_profile_snapshot w snapshot sequence metadata.

(** ** Compaction *)

Definition begin_compaction (w : Writer) (snapshot : list Mutation) : IO Writer :=
  match wr_compaction w, u_add (wr_generation w) 1 with
  | Some _, _ => _ ← send (Refused AofCompacting); mret w
  | None, None => _ ← send (Refused AofSequence); mret w
  | None, Some generation =>
      temporary ← temporary_path pid (lit "compact-" ++ pad generation);
      mret (with_compaction w
        (Some {| cp_ready := Producing; cp_temporary := temporary; cp_destination := generation_path generation;
                 cp_delta := []; cp_delta_bytes := 0; cp_aborted := false; cp_snapshot := snapshot;
                 cp_sequence := wr_sequence w; cp_replication := wr_replication w |}))
  end.

(** The thread of a compaction. *)
Definition produce (w : Writer) (c : Compaction) : IO nat :=
  file ← create_new (cp_temporary c);
  _ ← write_head (wr_profile w) file (cp_sequence c) (aof_layout (wr_config w)) (cp_replication c);
  '(entries, digest) ← write_compacted (wr_profile w) (aof_limits (wr_config w)) file None (cp_snapshot c) 0 0;
  _ ← write_seal (wr_profile w) (aof_limits (wr_config w)) file (cp_sequence c) entries digest;
  mret file.
Definition with_ready (c : Compaction) (r : Ready) : Compaction :=
  {| cp_ready := r; cp_temporary := cp_temporary c; cp_destination := cp_destination c; cp_delta := cp_delta c;
     cp_delta_bytes := cp_delta_bytes c; cp_aborted := cp_aborted c; cp_snapshot := cp_snapshot c;
     cp_sequence := cp_sequence c; cp_replication := cp_replication c |}.
Definition producer_step (w : Writer) : IO Writer :=
  match wr_compaction w with
  | Some c =>
      match cp_ready c with
      | Producing => r ← attempt (produce w c); mret (with_compaction w (Some (with_ready c (Produced r))))
      | _ => mret w
      end
  | None => mret w
  end.

Fixpoint write_deltas (file : nat) (delta : list bytes) : IO unit :=
  match delta with [] => mret tt | d :: delta => _ ← write_all file d; write_deltas file delta end.

Definition publish_compaction (w : Writer) (c : Compaction) (ready : result AofError nat) : IO Writer :=
  file ← lift_io ready;
  _ ← write_deltas file (cp_delta c);
  _ ← sync_all file;
  _ ← publish_file (cp_temporary c) (cp_destination c);
  let generation := wr_generation w + 1 in
  _ ← remove_obsolete generation;
  mret {| wr_config := wr_config w; wr_profile := wr_profile w; wr_file := file; wr_generation := generation;
          wr_sequence := wr_sequence w; wr_bytes_since_compact := 0; wr_dirty := false; wr_compaction := None;
          wr_replication := wr_replication w; wr_journal := wr_journal w; wr_store_config := wr_store_config w |}.

(** The result of the thread, taken from the channel. *)
Definition conclude_compaction (w : Writer) (c : Compaction) (ready : result AofError nat) : IO Writer :=
  if cp_aborted c then
    _ ← discard_file (cp_temporary c); _ ← send (Compacted (Err AofDeltaLimit)); mret w
  else
    r ← attempt (publish_compaction w c ready);
    published ← path_exists (cp_destination c);
    match r with
    | Ok w => _ ← send (Compacted (Ok tt)); mret w
    | Err e =>
        _ ← (if (published : bool) then mret tt else discard_file (cp_temporary c));
        _ ← send (Compacted (Err e));
        if (published : bool) then raise_io AofUnavailable else mret w
    end.
Definition finish_compaction (w : Writer) : IO Writer :=
  match wr_compaction w with
  | None => mret w
  | Some c =>
      match cp_ready c with
      | Producing => mret w
      | Produced r => conclude_compaction (with_compaction w None) c r
      | Disconnected => conclude_compaction (with_compaction w None) c (Err AofUnavailable)
      end
  end.

(** ** Opening *)

Record Recovered := { rc_store : Store; rc_metadata : RecoveryMetadata; rc_writer : Writer }.

(** [DirectoryLock::acquire]; [locked] tells whether another process holds the lock. *)
Definition acquire_lock (locked create : bool) : IO unit :=
  _ ← (if create then open_or_create (lit "writer.lock") else open_file (lit "writer.lock"));
  if locked then raise_io AofLocked else probe.

(** Publishes the complete initial file. *)
Definition create_initial (p : Profile) (cfg : AofConfig) (path : bytes) : IO unit :=
  temporary ← temporary_path pid (lit "initial");
  _ ← write_generation p cfg temporary 0 None [];
  publish_file temporary path.

Fixpoint remove_residues (residues : list bytes) : IO unit :=
  match residues with [] => mret tt | name :: residues => _ ← remove_file name; remove_residues residues end.

(** Keeps a copy of the file and cuts its incomplete tail. *)
Definition repair_tail (generation : Z) (file : nat) (path : bytes) (valid : Z) : IO unit :=
  backup ← tail_path pid generation;
  original ← open_file path;
  saved ← create_new backup;
  d ← get_disk;
  _ ← write_all saved (contents original d);
  _ ← sync_all saved;
  _ ← sync_directory;
  _ ← set_len file valid;
  sync_all file.

Definition load_profile (max_permits : Z) (locked read_only : bool) (p : Profile) (cfg : AofConfig) (sc : StoreConfig)
    : IO Recovered :=
  if negb (Bool.eqb (bool_decide (p = MemoryProfile)) (memory_profile cfg))
  then raise_io (AofMigration "incompatible development AOF profile")
  else
    _ ← lift_io (map_err AofConfigError (AofConfig_validate max_permits cfg));
    _ ← lift_io (map_err AofConfigError (StoreConfig_validate sc));
    _ ← lift_io (map_err AofConfigError (quota (aof_layout cfg) (max_dataset_bytes sc) 0));
    _ ← (if read_only then mret tt else probe);
    _ ← acquire_lock locked (negb read_only);
    _ ← probe;
    d ← get_disk;
    '(residues, generations) ← lift_io (scan_names read_only (map_to_list (entries d)).*1 [] []);
    let generation := default 0 (last (merge_sort Z.le generations)) in
    let path := generation_path generation in
    _ ← (match generations with
         | [] => if read_only then raise_io AofSequence else create_initial p cfg path
         | _ => mret tt
         end);
    file ← open_file path;
    _ ← probe;
    d ← get_disk;
    '(s, metadata, incomplete) ← lift_fallible (load_generation p cfg sc clock (contents file d));
    _ ← remove_residues residues;
    _ ← (if (incomplete : bool) && negb read_only then repair_tail generation file path (rm_valid_bytes metadata) else mret tt);
    _ ← probe;
    mret {| rc_store := s; rc_metadata := metadata;
            rc_writer := {| wr_config := cfg; wr_profile := p; wr_file := file; wr_generation := generation;
                            wr_sequence := rm_sequence metadata; wr_bytes_since_compact := rm_valid_bytes metadata;
                            wr_dirty := false; wr_compaction := None; wr_replication := rm_replication metadata;
                            wr_journal := None; wr_store_config := sc |} |}.
Definition load (max_permits : Z) (locked read_only : bool) (cfg : AofConfig) (sc : StoreConfig) : IO Recovered :=
  load_profile max_permits locked read_only (Profile_selected (memory_profile cfg)) cfg sc.

(** ** The loop *)

Inductive WRequest :=
| WAppendMemory (o : MutationOrigin) (ms : list MMutation)
| WReplicateMemory (sequence : Z) (o : MutationOrigin) (ms : list MMutation)
| WAppend (batch : ResolvedBatch)
| WReplicate (sequence : Z) (batch : ResolvedBatch)
| WFlush
| WCompact (snapshot : list Mutation)
| WStatus
| WInstall (snapshot : list Mutation) (sequence : Z) (metadata : ReplicationMetadata)
| WInstallMemory (snapshot : list MMutation) (sequence : Z) (metadata : ReplicationMetadata)
| WJournal (journal : nat).

(** A request, no request within the wait, or the end of the queue; and the thread of a
    compaction, which runs beside the loop. *)
Inductive Input := Received (r : WRequest) | TimedOut | Closed | ProducerRuns.

(** The writer goes on, or has ended. *)
Inductive Running := Runs (w : Writer) | Ended (r : result AofError unit).

(** A record over the limit is refused; any other failure of an append ends the writer. *)
Definition answer_append (w : Writer) (m : IO (Writer * Z)) : IO (option Writer) :=
  r ← attempt m;
  match r with
  | Ok (w, n) => _ ← send (Appended (Ok n)); mret (Some w)
  | Err e =>
      _ ← send (Appended (Err e));
      mret match e with AofFormat FLimit => Some w | _ => None end
  end.
Definition answer_install (w : Writer) (m : IO Writer) : IO (option Writer) :=
  r ← attempt m;
  match r with
  | Ok w => _ ← send (Installed (Ok tt)); mret (Some w)
  | Err e =>
      _ ← send (Installed (Err e));
      mret match e with AofUnavailable => None | _ => Some w end
  end.
Definition follows (w : Writer) (sequence : Z) : bool :=
  bool_decide (u_add (wr_sequence w) 1 = Some sequence)
  && match wr_replication w with Some metadata => bool_decide (role metadata = Replica) | None => false end.

Definition attach_journal (w : Writer) (journal : nat) : IO Writer :=
  found ← get_journal journal;
  let valid := match found with
               | Some (_, j) =>
                   match Journal_status j with
                   | Ok status =>
                       (cursor_sequence (js_head status) =? wr_sequence w)
                       && bool_decide (wr_replication w = Some {| role := Primary; epoch := cursor_epoch (js_head status) |})
                   | Err _ => false
                   end
               | None => false
               end in
  if valid then _ ← close_journal (wr_journal w); _ ← send (Attached (Ok tt)); mret (with_journal w (Some journal))
  else _ ← send (Attached (Err AofSequence)); mret w.

(** One request; [None] ends the writer, and [Replicate] out of order skips the rest of the
    iteration. *)
Inductive Handled := Next (w : Writer) | Skip (w : Writer) | Fatal.
Definition handled (m : IO (option Writer)) : IO Handled :=
  w ← m; mret match w with Some w => Next w | None => Fatal end.
Definition handle (w : Writer) (r : WRequest) : IO Handled :=
  match r with
  | WAppendMemory o ms => handled (answer_append w (writer_append_memory w o ms))
  | WReplicate sequence batch =>
      if follows w sequence then handled (answer_append w (writer_append w batch))
      else _ ← send (Appended (Err AofSequence)); mret (Skip w)
  | WReplicateMemory sequence o ms =>
      if follows w sequence then handled (answer_append w (writer_append_memory w o ms))
      else _ ← send (Appended (Err AofSequence)); mret (Skip w)
  | WAppend batch => handled (answer_append w (writer_append w batch))
  | WFlush =>
      r ← attempt (writer_sync w);
      match r with
      | Ok w => _ ← send (Flushed (Ok (wr_sequence w))); mret (Next w)
      | Err e => _ ← send (Flushed (Err e)); mret Fatal
      end
  | WCompact snapshot => w ← begin_compaction w snapshot; mret (Next w)
  | WStatus =>
      _ ← send (StatusIs (wr_sequence w) (wr_bytes_since_compact w) (bool_decide (is_Some (wr_compaction w)))); mret (Next w)
  | WInstall snapshot sequence metadata => handled (answer_install w (install_snapshot w snapshot sequence metadata))
  | WInstallMemory snapshot sequence metadata => handled (answer_install w (install_memory_snapshot w snapshot sequence metadata))
  | WJournal journal => w ← attach_journal w journal; mret (Next w)
  end.

(** The end of an iteration: the periodic sync and the end of a compaction. *)
Definition upkeep (w : Writer) (elapsed : bool) : IO Running :=
  w ← (match aof_sync (wr_config w) with
       | Periodic _ => if wr_dirty w && elapsed then writer_sync w else mret w
       | Always => mret w
       end);
  w ← finish_compaction w;
  mret (Runs w).
Definition iteration (w : Writer) (i : Input) (elapsed : bool) : IO Running :=
  match i with
  | Received r =>
      h ← handle w r;
      match h with
      | Next w => upkeep w elapsed
      | Skip w => mret (Runs w)
      | Fatal => mret (Ended (Err AofUnavailable))
      end
  | TimedOut => upkeep w elapsed
  | Closed => w ← writer_sync w; _ ← close_journal (wr_journal w); mret (Ended (Ok tt))
  | ProducerRuns => w ← producer_step w; mret (Runs w)
  end.
Fixpoint run (w : Writer) (inputs : list (Input * bool)) : IO Running :=
  match inputs with
  | [] => mret (Runs w)
  | (i, elapsed) :: inputs =>
      r ← iteration w i elapsed;
      match r with Runs w => run w inputs | Ended r => mret (Ended r) end
  end.
End Process.
