(* ===== verification/Ledgers.v ===== *)
(** * What the directory of the log holds

    The abstract log of the writer is a ledger: the histories that its directory may hold,
    each with the sequence up to which it is safe.  This file says when a disk is covered
    by a ledger and when a writer is tracked by one, and how the steps on files change it:
    names, programs that write one private file, appended batches and syncs. *)

From Stdlib Require Import Strings.Byte Strings.String ZArith Lia.
From S2P Require Import Prelude Float Wire Score Memory Command Store StoreInv StoreSpec Mutation StoreExec Replay Routing Format MemoryFormat Profile MemoryLifecycle Decoded Protocol Journal Recovery RecoverySpec Disk Writer.

#[local] Open Scope Z_scope.
#[local] Opaque snapshot_digest.
#[local] Arguments generation_path : simpl never.
#[local] Arguments wp : simpl never.

(** ** Names *)

Lemma udec_length n k : 0 <= n < 10 ^ Z.of_nat (S k) → (length (udec n) <= S k)%nat.
Proof.
  revert n. induction k as [|k IH]; intros n Hn.
  { change (10 ^ Z.of_nat 1) with 10 in Hn. by rewrite udec_digit by lia. }
  destruct (decide (n < 10)); [rewrite udec_digit by lia; cbn; lia|].
  rewrite (Z.div_mod n 10), Z.mul_comm, udec_snoc, length_app; [|apply Z.div_str_pos; lia|by apply Z.mod_pos_bound|lia].
  enough (length (udec (n / 10)) <= S k)%nat by (cbn [length]; lia). apply IH. split; [apply Z.div_pos; lia|].
  apply Z.div_lt_upper_bound; [lia|]. rewrite Nat2Z.inj_succ, Z.pow_succ_r in Hn by lia. lia.
Qed.
Lemma pad_length g : 0 <= g < 2 ^ 64 → length (pad g) = 20%nat.
Proof.
  intros Hg. unfold pad. rewrite length_app, length_replicate.
  pose proof (udec_length g 19 ltac:(change (10 ^ Z.of_nat 20) with 100000000000000000000; lia)). lia.
Qed.
Lemma pad_digits g : 0 <= g → forallb is_digit (pad g) = true.
Proof.
  intros Hg. unfold pad. rewrite forallb_app, udec_digits by done. rewrite andb_true_r.
  induction (20 - _)%nat as [|n IH]; [done|exact IH].
Qed.
Lemma pad_value g : 0 <= g → dec_value (pad g) = g.
Proof.
  intros Hg. unfold pad, dec_value. rewrite fold_left_app.
  assert (∀ n, fold_left (λ v b, v * 10 + digit_value b) (replicate n "0"%byte) 0 = 0) as ->
    by (induction n as [|n IH]; [done|exact IH]).
  by apply udec_value.
Qed.
Lemma generation_path_inj g g' : 0 <= g → 0 <= g' → generation_path g = generation_path g' → g = g'.
Proof.
  intros Hg Hg' E. unfold generation_path in E. apply app_inv_head, app_inv_tail in E.
  by rewrite <- (pad_value g), <- (pad_value g'), E by done.
Qed.


(** The other files of the directory: the lock, temporary files and copies of tails. *)
Definition apart (name : bytes) : Prop := head name ≠ Some "g"%byte.
Definition known (name : bytes) : Prop := apart name ∨ ∃ g, 0 <= g < 2 ^ 64 ∧ name = generation_path g.

Lemma apart_generation name g : apart name → name ≠ generation_path g.
Proof. by intros Ha ->. Qed.
Lemma apart_strip name : apart name → strip_prefix (lit "generation-") name = None.
Proof.
  intros Ha. unfold strip_prefix. rewrite bool_decide_eq_false_2; [done|]. intros E. apply Ha.
  destruct name; [done|]. cbn in E |- *. by injection E as ->.
Qed.
Lemma residue_generation g : is_residue (generation_path g) = false.
Proof. done. Qed.

Lemma residue_apart name : is_residue name = true → apart name.
Proof.
  unfold is_residue, strip_prefix. intros [Hr _]%andb_prop Hg. apply bool_decide_eq_true in Hr.
  case_bool_decide as E; [|by destruct Hr]. destruct name; [done|]. cbn in Hg, E. injection Hg as ->. by injection E.
Qed.

Lemma scan_names_ok read_only names residues gs :
  Forall known names →
  ∃ gs', scan_names read_only names residues gs
           = Ok (residues ++ List.filter (λ name, negb read_only && is_residue name) names, gs ++ gs') ∧
    ∀ g, g ∈ gs' ↔ 0 <= g < 2 ^ 64 ∧ generation_path g ∈ names.
Proof.
  intros Hall. revert residues gs. induction Hall as [|name names Hn Hall IH]; intros residues gs; cbn [scan_names List.filter].
  { exists []. rewrite !app_nil_r. split; [done|]. intros g. split; [by intros ?%not_elem_of_nil|by intros [_ ?%not_elem_of_nil]]. }
  destruct Hn as [Ha|(g & Hg & ->)].
  - assert (∀ g, generation_path g ∈ name :: names ↔ generation_path g ∈ names) as Hiff.
    { intros g. rewrite elem_of_cons. split; [|by right]. intros [E|?]; [|done]. by destruct (apart_generation name g). }
    destruct (negb read_only && is_residue name).
    + destruct (IH (residues ++ [name]) gs) as (gs' & -> & Hgs'). exists gs'. rewrite <- app_assoc. split; [done|].
      intros g. by rewrite Hgs', Hiff.
    + rewrite apart_strip by done. destruct (IH residues gs) as (gs' & -> & Hgs'). exists gs'. split; [done|].
      intros g. by rewrite Hgs', Hiff.
  - rewrite residue_generation, andb_false_r. 
    assert (strip_prefix (lit "generation-") (generation_path g) ≫= strip_suffix (lit ".aof") = Some (pad g)) as ->.
    { unfold generation_path. rewrite strip_prefix_app. apply strip_suffix_app. }
    unfold zlen. rewrite pad_length, pad_digits, pad_value by lia. cbn [Z.of_nat Z.eqb negb orb].
    replace (U64_MAX <? g) with false by (unfold U64_MAX; lia). cbn.
    destruct (IH residues (gs ++ [g])) as (gs' & -> & Hgs'). exists (g :: gs'). rewrite <- app_assoc. split; [done|].
    intros g'. rewrite !elem_of_cons, Hgs'. split.
    + intros [->|[? ?]]; [by split; [|left]|]. split; [done|by right].
    + intros [? [E|?]]; [left; apply generation_path_inj; (done || lia)|by right].
Qed.

(** ** Programs that send nothing *)

Definition silent {A} (m : IO A) : Prop := ∀ w fs, sent (m w fs).1.1 = sent w.
Lemma silent_ret {A} (a : A) : silent (mret a).
Proof. done. Qed.
Lemma silent_bind {A B} (m : IO A) (k : A → IO B) : silent m → (∀ a, silent (k a)) → silent (m ≫= k).
Proof.
  intros Hm Hk w fs. unfold mbind, io_bind. specialize (Hm w fs). destruct (m w fs) as [[w' fs'] [a|e|]]; [|done..].
  cbn in Hm. by rewrite (Hk a), Hm.
Qed.
Lemma silent_attempt {A} (m : IO A) : silent m → silent (attempt m).
Proof. intros Hm w fs. specialize (Hm w fs). unfold attempt. by destruct (m w fs) as [[w' fs'] [a|e|]]. Qed.
Lemma silent_raise {A} e : silent (raise_io (A := A) e).
Proof. done. Qed.
Lemma silent_died {A} : silent (died (A := A)).
Proof. done. Qed.
Lemma silent_lift {A} (r : result AofError A) : silent (lift_io r).
Proof. by destruct r. Qed.
Lemma silent_lift_fallible {A} (r : fallible AofError A) : silent (lift_fallible r).
Proof. by destruct r as [[]|]. Qed.
Lemma silent_get_disk : silent get_disk.
Proof. done. Qed.
Lemma silent_take_temporary : silent take_temporary.
Proof. done. Qed.
Lemma silent_get_journal i : silent (get_journal i).
Proof. done. Qed.
Lemma silent_put_journal i l j : silent (put_journal i l j).
Proof. done. Qed.
Lemma silent_act effect failed dead : silent (act effect failed dead).
Proof. by intros w [|[]]. Qed.
Create HintDb silent.
#[export] Hint Resolve silent_ret silent_bind silent_attempt silent_raise silent_died silent_lift silent_lift_fallible silent_get_disk silent_take_temporary silent_get_journal silent_put_journal silent_act : silent.
(** Descends into a program and its branches. *)
Ltac silence :=
  repeat first
    [ progress intros
    | progress cbv zeta
    | apply silent_bind
    | progress auto with silent
    | match goal with |- silent (match ?x with _ => _ end) => destruct x end
    | match goal with |- silent (if ?x then _ else _) => destruct x end
    | match goal with |- silent (let '(_, _) := ?x in _) => destruct x end ].

Lemma wpd_silent {A} (m : IO A) w Φ : silent m → wp m w Φ → wp m w (λ w' x, Φ w' x ∧ sent w' = sent w).
Proof. intros Hq Hm fs. specialize (Hq w fs). specialize (Hm fs). by destruct (m w fs) as [[w' fs'] x]. Qed.

(** ** Programs that write one file *)

Definition at_file (t : nat) (i : Inode) (w : World) : World := on_disk (set_inode t i) w.
Definition extended (i : Inode) (data : bytes) : Inode := {| i_data := i_data i ++ data; i_durable := i_durable i |}.
Definition synced (i : Inode) : Inode := {| i_data := i_data i; i_durable := i_data i |}.

Lemma set_set_inode t i i' d : set_inode t i' (set_inode t i d) = set_inode t i' d.
Proof. unfold set_inode. cbn. by rewrite insert_insert_eq. Qed.
Lemma append_at_file t i w data : on_disk (append_inode t data) (at_file t i w) = at_file t (extended i data) w.
Proof. unfold on_disk, at_file, append_inode. cbn. rewrite lookup_insert_eq. by rewrite set_set_inode. Qed.
Lemma sync_at_file t i w : on_disk (sync_inode t) (at_file t i w) = at_file t (synced i) w.
Proof. unfold on_disk, at_file, sync_inode. cbn. rewrite lookup_insert_eq. by rewrite set_set_inode. Qed.
Lemma append_inode_eq t i d data : inodes d !! t = Some i → append_inode t data d = set_inode t (extended i data) d.
Proof. intros Hi. unfold append_inode. by rewrite Hi. Qed.
Lemma sync_inode_eq t i d : inodes d !! t = Some i → sync_inode t d = set_inode t (synced i) d.
Proof. intros Hi. unfold sync_inode. by rewrite Hi. Qed.
Lemma at_file_id t i w : inodes (disk w) !! t = Some i → at_file t i w = w.
Proof. intros Hi. destruct w as [[? ? ?] ? ? ?]. unfold at_file, on_disk, set_inode. cbn in *. by rewrite insert_id. Qed.

(** [m] changes nothing but the file [t], and on success leaves it as [Q] says. *)
Definition writes {A} (t : nat) (w : World) (m : IO A) (i : Inode) (Q : A → Inode → Prop) : Prop :=
  wp m (at_file t i w) (λ w' x, ∃ i', w' = at_file t i' w ∧ match x with Return a => Q a i' | _ => True end).

Lemma writes_bind {A B} t w (m : IO A) (k : A → IO B) i (R : A → Inode → Prop) Q :
  writes t w m i R → (∀ a i', R a i' → writes t w (k a) i' Q) → writes t w (m ≫= k) i Q.
Proof.
  intros Hm Hk. apply wpd_bind. eapply wpd_mono; [exact Hm|]. intros w' [a|e|] (i' & -> & Hx); cbn; [by apply Hk|by exists i'..].
Qed.
Lemma writes_ret {A} t w (a : A) i (Q : A → Inode → Prop) : Q a i → writes t w (mret a) i Q.
Proof. intros ?. apply wpd_ret. by exists i. Qed.
Lemma writes_lift {A B} t w (r : result AofError A) (k : A → IO B) i Q :
  (∀ a, r = Ok a → writes t w (k a) i Q) → writes t w (lift_io r ≫= k) i Q.
Proof.
  intros HQ. apply wpd_bind, wpd_lift. destruct r as [a|e]; cbn; [by apply HQ|by exists i].
Qed.
Lemma writes_raise {A} t w e i (Q : A → Inode → Prop) : writes t w (raise_io e) i Q.
Proof. apply wpd_raise. by exists i. Qed.
Lemma writes_write t w i data : writes t w (write_all t data) i (λ _ i', i' = extended i data).
Proof.
  unfold writes, write_all. apply wpd_act; intros; rewrite append_at_file; by eexists.
Qed.
Lemma writes_sync t w i : writes t w (sync_all t) i (λ _ i', i' = synced i).
Proof.
  unfold writes, sync_all. apply wpd_atomic; rewrite ?sync_at_file; [by eexists|by exists i|by exists i|by eexists].
Qed.
Lemma writes_mono {A} t w (m : IO A) i (Q R : A → Inode → Prop) :
  writes t w m i Q → (∀ a i', Q a i' → R a i') → writes t w m i R.
Proof. intros Hm Hi. eapply wpd_mono; [exact Hm|]. intros w' [a|e|] (i' & -> & Hx); exists i'; split; try done. by apply Hi. Qed.

Section Files.
Context (p : Profile) (cfg : AofConfig) (t : nat) (w : World).
Abbreviation limits := (aof_limits cfg).

Lemma writes_head base layout replication i :
  writes t w (write_head p t base layout replication) i (λ _ i',
    ∃ head, profile_write_header p base layout replication = Ok head ∧ i' = extended i head).
Proof.
  eapply writes_lift. intros head Hh%map_err_ok. eapply writes_mono; [apply writes_write|]. intros _ i' ->. by exists head.
Qed.

Lemma writes_seal sequence entries digest i :
  mrecord_ok (MSeal sequence entries digest) →
  writes t w (write_seal p limits t sequence entries digest) i (λ _ i',
    ∃ seal, encoded p limits (MSeal sequence entries digest) seal ∧ i' = synced (extended i seal)).
Proof.
  intros Hok. eapply writes_lift. intros seal Hs%map_err_ok. eapply writes_bind; [apply writes_write|]. intros _ i' ->.
  eapply writes_mono; [apply writes_sync|]. intros _ i' ->. by exists seal.
Qed.

Lemma extended_extended i a b : extended (extended i a) b = extended i (a ++ b).
Proof. unfold extended. cbn. by rewrite <- app_assoc. Qed.

Lemma writes_snapshot snapshot entries digest i :
  Forall mmutation_ok snapshot →
  writes t w (write_snapshot p limits t snapshot entries digest) i (λ r i',
    ∃ encs, Forall2 (encoded p limits) (MSnapshot <$> snapshot) encs ∧ i' = extended i (mjoin encs) ∧
      r = (entries + zlen snapshot, foldl snapshot_digest digest encs)).
Proof.
  intros Hok. revert entries digest i. induction Hok as [|mu snapshot Hmu Hok IH]; intros entries digest i; cbn [write_snapshot].
  { apply writes_ret. exists []. rewrite join_nil, zlen_nil, Z.add_0_r. split; [constructor|]. split; [|done].
    unfold extended. rewrite app_nil_r. by destruct i. }
  eapply writes_lift. intros enc He%map_err_ok. eapply writes_bind; [apply writes_write|]. intros _ i' ->.
  eapply writes_mono; [apply IH|]. intros r i' (encs & Hall & -> & ->). exists (enc :: encs).
  rewrite extended_extended, join_cons, zlen_cons. split; [by constructor|]. split; [done|]. cbn [foldl]. f_equal. lia.
Qed.

Lemma digest_range digest encs : 0 <= digest < 2 ^ 32 → 0 <= foldl snapshot_digest digest encs < 2 ^ 32.
Proof.
  revert digest. induction encs as [|enc encs IH]; intros digest Hd; cbn [foldl]; [done|]. apply IH.
  rewrite snapshot_digest_eq. apply checksum_range.
Qed.

Definition after (previous : option bytes) (key : bytes) : Prop := match previous with Some k => cmp_lt k key | None => True end.
Lemma writes_compacted previous snapshot entries digest i :
  Forall mmutation_ok (from_storage <$> snapshot) →
  writes t w (write_compacted p limits t previous snapshot entries digest) i (λ r i',
    (Forall (λ mu, is_image mu = true) (from_storage <$> snapshot) ∧ StronglySorted cmp_lt (Mutation_key <$> snapshot) ∧
     Forall (after previous) (Mutation_key <$> snapshot)) ∧
    ∃ encs, Forall2 (encoded p limits) (MSnapshot <$> (from_storage <$> snapshot)) encs ∧ i' = extended i (mjoin encs) ∧
      r = (entries + zlen snapshot, foldl snapshot_digest digest encs)).
Proof.
  revert previous entries digest i. induction snapshot as [|mu snapshot IH]; intros previous entries digest i Hok; cbn [write_compacted].
  { apply writes_ret. split; [split_and!; constructor|]. exists []. rewrite join_nil, zlen_nil, Z.add_0_r. split; [constructor|]. split; [|done].
    unfold extended. rewrite app_nil_r. by destruct i. }
  apply Forall_cons in Hok as [Hmu Hok].
  destruct (negb (is_put mu) || _) eqn:Eg; [apply writes_raise|]. apply orb_false_iff in Eg as [Hput%negb_false_iff Hprev].
  eapply writes_lift. intros enc He%map_err_ok. eapply writes_bind; [apply writes_write|]. intros _ i' ->.
  eapply writes_mono; [by apply IH|]. intros r i' ((Him & Hsort & Hafter) & encs & Hall & -> & ->). split.
  - split_and!.
    + constructor; [|done]. destruct mu as [? [] ?|]; done.
    + by constructor.
    + constructor.
      * destruct previous; [|done]. cbn. by apply bool_decide_eq_false, dec_stable in Hprev.
      * eapply Forall_impl; [exact Hafter|]. intros key Hkey. destruct previous as [k|]; [|done]. cbn in *.
        apply bool_decide_eq_false, dec_stable in Hprev. by eapply cmp_trans.
  - exists (enc :: encs). rewrite extended_extended, join_cons, zlen_cons. cbn [fmap list_fmap].
    split; [by constructor|]. split; [done|]. cbn [foldl]. f_equal. lia.
Qed.


(** The new file of a snapshot. *)
Lemma writes_sealed base snapshot head encs i :
  0 <= base < 2 ^ 64 → zlen snapshot < 2 ^ 64 → i_data i = head ++ mjoin encs →
  writes t w (write_seal p limits t base (zlen snapshot) (foldl snapshot_digest 0 encs)) i (λ _ i', ∃ seal,
    encoded p limits (MSeal base (zlen (snapshot : list MMutation)) (foldl snapshot_digest 0 encs)) seal ∧
    i' = synced i' ∧ i_data i' = log_bytes head encs seal []).
Proof.
  intros Hb Hs Hd. eapply writes_mono; [apply writes_seal|].
  - pose proof (zlen_nonneg snapshot). split; [lia|]. split; [lia|]. apply digest_range. lia.
  - intros _ i' (seal & He & ->). exists seal. split; [done|]. split; [done|]. cbn. rewrite Hd. unfold log_bytes.
    by rewrite join_nil, app_nil_r, <- app_assoc.
Qed.
Lemma writes_deltas delta i : writes t w (write_deltas t delta) i (λ _ i', i' = extended i (mjoin delta)).
Proof.
  revert i. induction delta as [|d delta IH]; intros i; cbn [write_deltas].
  { apply writes_ret. rewrite join_nil. unfold extended. rewrite app_nil_r. by destruct i. }
  eapply writes_bind; [apply writes_write|]. intros _ i' ->. eapply writes_mono; [apply IH|]. intros _ i' ->.
  by rewrite extended_extended, join_cons.
Qed.
End Files.

(** ** The directory *)

(** Every name is one the writer gives, and names a file. *)
Definition disk_ok (d : Disk) : Prop :=
  ∀ name id, entries d !! name = Some id ∨ saved d !! name = Some id → known name ∧ is_Some (inodes d !! id).

(** [d'] is [d] but for files that no generation names. *)
Record beside (d d' : Disk) : Prop := {
  fr_entries g : entries d' !! generation_path g = entries d !! generation_path g;
  fr_saved g : saved d' !! generation_path g = saved d !! generation_path g;
  fr_inodes g id :
    entries d !! generation_path g = Some id ∨ saved d !! generation_path g = Some id → inodes d' !! id = inodes d !! id;
  fr_ok : disk_ok d'
}.
Definition private (t : nat) (d : Disk) : Prop :=
  ∀ g, entries d !! generation_path g ≠ Some t ∧ saved d !! generation_path g ≠ Some t.

Lemma frame_refl d : disk_ok d → beside d d.
Proof. done. Qed.
Lemma frame_trans d1 d2 d3 : beside d1 d2 → beside d2 d3 → beside d1 d3.
Proof.
  intros [He Hs Hi Ho] [He' Hs' Hi' Ho']. split; [intros g; by rewrite He'|intros g; by rewrite Hs'| |done].
  intros g id Hid. rewrite (Hi' g), (Hi g); [done..|]. by rewrite He, Hs.
Qed.
Lemma private_frame t d d' : beside d d' → private t d → private t d'.
Proof. intros Hf Hp g. rewrite (fr_entries _ _ Hf), (fr_saved _ _ Hf). apply Hp. Qed.

Lemma set_inode_ok t i d : disk_ok d → disk_ok (set_inode t i d).
Proof.
  intros Hd name id Hn. destruct (Hd name id Hn) as [? Hi]. split; [done|]. cbn.
  destruct (decide (id = t)) as [->|]; [by rewrite lookup_insert_eq|by rewrite lookup_insert_ne].
Qed.
Lemma frame_set_inode t i d : disk_ok d → private t d → beside d (set_inode t i d).
Proof.
  intros Hd Hp. split; [done..| |by apply set_inode_ok]. intros g id Hid. cbn. apply lookup_insert_ne. intros <-.
  destruct (Hp g). by destruct Hid.
Qed.
Lemma frame_remove name d : disk_ok d → apart name → beside d (remove_entry name d).
Proof.
  intros Hd Ha. split; cbn; [|done..|].
  - intros g. apply lookup_delete_ne. by apply apart_generation.
  - intros name' id. cbn. intros [He|Hs]; [|by apply Hd; right]. apply lookup_delete_Some in He as [_ He]. by apply Hd; left.
Qed.

Definition fresh_inode (d : Disk) : nat := fresh (dom (inodes d)).
Lemma fresh_inode_new d : inodes d !! fresh_inode d = None.
Proof. apply (not_elem_of_dom (D := gset nat)). exact (is_fresh (dom (inodes d) : gset nat)). Qed.
Lemma create_ok name d : disk_ok d → known name → disk_ok (create_inode name d).
Proof.
  intros Hd Ha name' id. cbn. fold (fresh_inode d). intros Hid.
  assert (known name' ∧ (id = fresh_inode d ∨ is_Some (inodes d !! id))) as [? Hi].
  { destruct Hid as [He|Hs]; [|destruct (Hd name' id (or_intror Hs)); auto].
    apply lookup_insert_Some in He as [[<- <-]|[_ He]]; [by split; [|left]|]. destruct (Hd name' id (or_introl He)). auto. }
  split; [done|]. destruct (decide (id = fresh_inode d)) as [->|]; [by rewrite lookup_insert_eq|].
  rewrite lookup_insert_ne by done. by destruct Hi.
Qed.
Lemma frame_create name d :
  disk_ok d → apart name → beside d (create_inode name d) ∧ private (fresh_inode d) (create_inode name d).
Proof.
  intros Hd Ha. assert (∀ g, entries (create_inode name d) !! generation_path g = entries d !! generation_path g) as He.
  { intros g. cbn. apply lookup_insert_ne. by apply apart_generation. }
  assert (∀ g id, entries d !! generation_path g = Some id ∨ saved d !! generation_path g = Some id → id ≠ fresh_inode d) as Hne.
  { intros g id Hid ->. destruct (Hd _ _ Hid) as [_ [i Hi]]. by rewrite fresh_inode_new in Hi. }
  split; [split; [done|done| |]|].
  - intros g id Hid. cbn. apply lookup_insert_ne. intros E. by apply (Hne g id Hid).
  - apply create_ok; [done|by left].
  - intros g. rewrite He. split; intros E; by eapply Hne; [|done]; (left + right).
Qed.

Lemma sync_entries_ok d : disk_ok d → disk_ok (sync_entries d).
Proof. intros Hd name id. cbn. intros [?|?]; by apply Hd; left. Qed.
Lemma rename_ok source target d : disk_ok d → known target → disk_ok (rename_entry source target d).
Proof.
  intros Hd Ht. unfold rename_entry. destruct (entries d !! source) as [s|] eqn:E; [|done]. intros name id. cbn.
  intros [He|Hs]; [|by apply Hd; right].
  apply lookup_insert_Some in He as [[<- <-]|[_ He]]; [split; [done|by apply (Hd source); left]|].
  apply lookup_delete_Some in He as [_ He]. by apply Hd; left.
Qed.

(** ** Ledgers *)

(** The histories a directory may hold, each with the sequence that is safe in it. *)
Abbreviation Ledger := (list (Z * Log)).

Section Ledger.
Context {p : Profile} {cfg : AofConfig}.

(** The bytes of a history. *)
Record Text := { tx_head : bytes; tx_snapshot : list bytes; tx_seal : bytes; tx_batches : list bytes }.
Definition text_bytes (x : Text) : bytes := log_bytes (tx_head x) (tx_snapshot x) (tx_seal x) (tx_batches x).
Definition text_of (lg : Log) (x : Text) : Prop := log_file p cfg lg (tx_head x) (tx_snapshot x) (tx_seal x) (tx_batches x).
Definition text_take (k : nat) (x : Text) : Text :=
  {| tx_head := tx_head x; tx_snapshot := tx_snapshot x; tx_seal := tx_seal x; tx_batches := take k (tx_batches x) |}.

(** A prefix of the bytes that reaches the sequence [floor]. *)
Record reaches (base floor : Z) (x : Text) (b : bytes) : Prop := {
  re_prefix : b `prefix_of` text_bytes x;
  re_floor : (length (text_bytes (text_take (Z.to_nat (floor - base)) x)) <= length b)%nat
}.
(** A file that holds one of the histories, as processes see it and as it would be found. *)
Definition good (L : Ledger) (i : Inode) : Prop :=
  ∃ floor lg k x, (floor, lg) ∈ L ∧ text_of (log_take k lg) x ∧ lg_base lg <= floor <= lg_base lg + zlen (tx_batches x) ∧
    reaches (lg_base lg) floor x (i_data i) ∧ reaches (lg_base lg) floor x (i_durable i).

(** Some generation is in the directory for good, and it and every later one that may
    be found holds one of the histories. *)
Record covered (L : Ledger) (d : Disk) : Prop := {
  cov_ok : disk_ok d;
  cov_newest : ∃ g, 0 <= g < 2 ^ 64 ∧ is_Some (entries d !! generation_path g) ∧ is_Some (saved d !! generation_path g) ∧
    ∀ g' id, g <= g' < 2 ^ 64 → entries d !! generation_path g' = Some id ∨ saved d !! generation_path g' = Some id →
      ∃ i, inodes d !! id = Some i ∧ good L i
}.
Lemma covered_frame L d d' : covered L d → beside d d' → covered L d'.
Proof.
  intros [Ho (g & Hg & He & Hs & Hall)] Hf. split; [apply Hf|]. exists g. rewrite (fr_entries _ _ Hf), (fr_saved _ _ Hf).
  do 3 (split; [done|]). intros g' id Hg' Hid. rewrite (fr_entries _ _ Hf), (fr_saved _ _ Hf) in Hid.
  rewrite (fr_inodes _ _ Hf g' id Hid). by eapply Hall.
Qed.
Lemma covered_sync L d : covered L d → covered L (sync_entries d).
Proof.
  intros [Ho (g & Hg & He & Hs & Hall)]. split; [by apply sync_entries_ok|]. exists g. cbn. do 3 (split; [done|]).
  intros g' id Hg' [Hid|Hid]; apply (Hall g' id Hg'); by left.
Qed.
Lemma good_mono L L' i : L ⊆ L' → good L i → good L' i.
Proof. intros HL (floor & lg & k & x & Hin & H). exists floor, lg, k, x. split; [by apply HL|done]. Qed.
Lemma covered_mono L L' d : L ⊆ L' → covered L d → covered L' d.
Proof.
  intros HL [Ho (g & Hg & He & Hs & Hall)]. split; [done|]. exists g. do 3 (split; [done|]). intros g' id Hg' Hid.
  destruct (Hall g' id Hg' Hid) as (i & Hi & Hgood). exists i. split; [done|by eapply good_mono].
Qed.

Lemma text_take_prefix k x : text_bytes (text_take k x) `prefix_of` text_bytes x.
Proof.
  unfold text_bytes, log_bytes. cbn. do 3 apply prefix_app. rewrite <- (take_drop k (tx_batches x)) at 2.
  rewrite join_app. by apply prefix_app_r.
Qed.
Lemma reaches_whole base floor x : reaches base floor x (text_bytes x).
Proof. split; [done|]. apply prefix_length, text_take_prefix. Qed.
Lemma text_batches lg x : text_of lg x → zlen (tx_batches x) = zlen (lg_batches lg).
Proof. intros Hx. unfold zlen. rewrite <- (Forall2_length _ _ _ (lf_batches _ _ _ _ _ _ _ Hx)). by rewrite batch_records_length. Qed.
Lemma log_take_all lg : log_take (length (lg_batches lg)) lg = lg.
Proof. destruct lg. unfold log_take. cbn. by rewrite take_ge. Qed.
Lemma good_whole L floor lg x i :
  (floor, lg) ∈ L → text_of lg x → lg_base lg <= floor <= lg_base lg + zlen (lg_batches lg) →
  i_data i = text_bytes x → reaches (lg_base lg) floor x (i_durable i) → good L i.
Proof.
  intros Hin Hx Hfl Hd Hr. exists floor, lg, (length (lg_batches lg)), x. rewrite log_take_all, (text_batches lg x Hx), Hd.
  do 3 (split; [done|]). split; [apply reaches_whole|done].
Qed.

(** ** An open generation *)

(** The generation [g] is the newest one, durably in the directory, and its file is [f]. *)
Record opened (g : Z) (f : nat) (d : Disk) : Prop := {
  op_ok : disk_ok d;
  op_range : 0 <= g < 2 ^ 64;
  op_entry : entries d !! generation_path g = Some f;
  op_saved : saved d !! generation_path g = Some f;
  op_newest g' : g < g' < 2 ^ 64 → entries d !! generation_path g' = None ∧ saved d !! generation_path g' = None
}.
Lemma opened_covered L g f d i : opened g f d → inodes d !! f = Some i → good L i → covered L d.
Proof.
  intros [Ho Hg He Hs Hn] Hi Hgood. split; [done|]. exists g. do 3 (split; [done|]). intros g' id Hg' Hid.
  destruct (decide (g' = g)) as [->|]; [|destruct (Hn g') as [He' Hs']; [lia|]; rewrite He', Hs' in Hid; by destruct Hid].
  rewrite He, Hs in Hid. exists i. by destruct Hid as [[= <-]|[= <-]].
Qed.
Lemma opened_set g f d t i : opened g f d → opened g f (set_inode t i d).
Proof. intros [Ho ? ? ? ?]. split; try done. by apply set_inode_ok. Qed.
Lemma opened_frame g f d d' : opened g f d → beside d d' → opened g f d'.
Proof.
  intros [Ho ? ? ? Hn] Hf. split; [apply Hf|done|by rewrite (fr_entries _ _ Hf)|by rewrite (fr_saved _ _ Hf)|].
  intros g'. rewrite (fr_entries _ _ Hf), (fr_saved _ _ Hf). apply Hn.
Qed.
Lemma opened_file g f d t : opened g f d → private t d → t ≠ f.
Proof. intros Hop Hp ->. apply (Hp g), Hop. Qed.

(** What a compaction has on the disk: its candidate is one of the histories, and the file
    of its thread holds the snapshot. *)
Definition candidate (c : Compaction) (batches : list (MutationOrigin * list MMutation)) : Log :=
  {| lg_base := cp_sequence c; lg_snapshot := from_storage <$> cp_snapshot c; lg_batches := batches |}.
Record compacting (L : Ledger) (w : Writer) (d : Disk) (c : Compaction) : Prop := {
  co_destination : cp_destination c = generation_path (wr_generation w + 1);
  co_range : wr_generation w + 1 < 2 ^ 64;
  co_apart : apart (cp_temporary c);
  co_snapshot : Forall mmutation_ok (from_storage <$> cp_snapshot c) ∧ zlen (cp_snapshot c) < 2 ^ 64;
  co_replication : replication_ok (cp_replication c);
  co_sequence : 0 <= cp_sequence c < 2 ^ 64;
  co_live : cp_aborted c = false → ∃ floor batches, (floor, candidate c batches) ∈ L ∧
    Forall2 (encoded p (aof_limits cfg)) (batch_records (cp_sequence c) batches) (cp_delta c);
  co_file t : cp_ready c = Produced (Ok t) → private t d ∧ entries d !! cp_temporary c = Some t ∧
    ∃ i x, inodes d !! t = Some i ∧ text_of (candidate c []) x ∧ i_data i = text_bytes x
}.

(** The file of the writer holds one of the histories, all of which end at its sequence. *)
Record tracked (L : Ledger) (w : Writer) (d : Disk) : Prop := {
  tr_config : wr_config w = cfg;
  tr_profile : wr_profile w = p;
  tr_opened : opened (wr_generation w) (wr_file w) d;
  tr_replication : replication_ok (wr_replication w);
  tr_sequence : 0 <= wr_sequence w < 2 ^ 64;
  tr_ledger : Forall (λ e, lg_base e.2 <= e.1 <= wr_sequence w ∧ lg_base e.2 + zlen (lg_batches e.2) = wr_sequence w) L;
  tr_file : ∃ floor lg x i, (floor, lg) ∈ L ∧ text_of lg x ∧ inodes d !! wr_file w = Some i ∧
    i_data i = text_bytes x ∧ reaches (lg_base lg) floor x (i_durable i);
  tr_compaction c : wr_compaction w = Some c → compacting L w d c
}.
Lemma tracked_covered L w d : tracked L w d → covered L d.
Proof.
  intros [? ? Ho ? ? Hl (floor & lg & x & i & Hin & Hx & Hi & Hd & Hr) _]. eapply opened_covered; [done|done|].
  rewrite Forall_forall in Hl. destruct (Hl _ Hin) as [? ?]. cbn in *. eapply good_whole; [done..|lia|done|done].
Qed.

(** ** Appending *)

Definition add_batch (b : MutationOrigin * list MMutation) (lg : Log) : Log :=
  {| lg_base := lg_base lg; lg_snapshot := lg_snapshot lg; lg_batches := lg_batches lg ++ [b] |}.
(** The batch is the next one of every history; the sequence [n] is safe in all of them. *)
Definition adding (b : MutationOrigin * list MMutation) (L : Ledger) : Ledger := (λ e, (e.1, add_batch b e.2)) <$> L.
Definition raising (n : Z) (L : Ledger) : Ledger := (λ e, (Z.max n e.1, e.2)) <$> L.

Definition extend_text (x : Text) (enc : bytes) : Text :=
  {| tx_head := tx_head x; tx_snapshot := tx_snapshot x; tx_seal := tx_seal x; tx_batches := tx_batches x ++ [enc] |}.
Lemma extend_bytes x enc : text_bytes (extend_text x enc) = text_bytes x ++ enc.
Proof. unfold text_bytes, log_bytes. cbn. rewrite join_app, join_cons, join_nil, app_nil_r. by rewrite !app_assoc. Qed.
Lemma text_extend lg x o ms enc :
  text_of lg x → lg_base lg + zlen (lg_batches lg) + 1 < 2 ^ 64 →
  encoded p (aof_limits cfg) (MBatch (lg_base lg + zlen (lg_batches lg) + 1) o ms) enc →
  text_of (add_batch (o, ms) lg) (extend_text x enc).
Proof.
  intros [Hb Hl ? ? ? ? ? Hbs] Hmax He. split; try done; cbn.
  - rewrite zlen_app, zlen_cons, zlen_nil. lia.
  - rewrite batch_records_app. apply Forall2_app; [done|]. constructor; [exact He|constructor].
Qed.
Lemma reaches_extend base floor x enc b :
  floor <= base + zlen (tx_batches x) → reaches base floor x b → reaches base floor (extend_text x enc) b.
Proof.
  intros Hf [Hp Hr]. split; [rewrite extend_bytes; by apply prefix_app_r|]. unfold text_bytes in *. cbn in *.
  rewrite take_app_le; [done|]. unfold zlen in *. lia.
Qed.

Lemma adding_in b L floor lg : (floor, lg) ∈ L → (floor, add_batch b lg) ∈ adding b L.
Proof. intros Hin. apply list_elem_of_fmap. by exists (floor, lg). Qed.

Section Append.
Context (L : Ledger) (w : Writer) (d : Disk) (o : MutationOrigin) (ms : list MMutation) (enc : bytes) (i : Inode).
Context (Ht : tracked L w d) (Hmax : wr_sequence w + 1 < 2 ^ 64).
Context (He : encoded p (aof_limits cfg) (MBatch (wr_sequence w + 1) o ms) enc) (Hi : inodes d !! wr_file w = Some i).

(** The record is the next one of the file, on the histories with the batch. *)
Lemma append_text : ∃ floor lg x, (floor, lg) ∈ L ∧ text_of lg x ∧ i_data i = text_bytes x ∧
  reaches (lg_base lg) floor x (i_durable i) ∧ lg_base lg <= floor <= lg_base lg + zlen (lg_batches lg) ∧
  text_of (add_batch (o, ms) lg) (extend_text x enc).
Proof.
  destruct Ht as [? ? ? ? ? Hl (floor & lg & x & i' & Hin & Hx & Hi' & Hd & Hr) _].
  rewrite Forall_forall in Hl. destruct (Hl _ Hin) as [Hfl Hseq]. cbn in *. rewrite <- Hseq in *. simplify_eq.
  exists floor, lg, x. do 5 (split; [done|]). by apply text_extend.
Qed.
Lemma append_covered n : covered (adding (o, ms) L) (set_inode (wr_file w) (extended i (take n enc)) d).
Proof.
  destruct append_text as (floor & lg & x & Hin & Hx & Hd & Hr & Hfl & Hx').
  eapply opened_covered; [by apply opened_set, Ht|apply lookup_insert_eq|].
  rewrite <- (text_batches _ _ Hx) in Hfl.
  exists floor, (add_batch (o, ms) lg), (length (lg_batches (add_batch (o, ms) lg))), (extend_text x enc).
  rewrite log_take_all. split; [by apply adding_in|]. split; [done|].
  split; [cbn [lg_base add_batch tx_batches extend_text]; rewrite zlen_app, zlen_cons, zlen_nil; lia|].
  split; [|by apply reaches_extend; [cbn [lg_base add_batch]; lia|]]. split.
  - rewrite extend_bytes. cbn [extended i_data]. rewrite Hd. apply prefix_app. by exists (drop n enc); rewrite take_drop.
  - etrans; [apply (reaches_extend _ _ _ _ _ (proj2 Hfl) Hr)|]. cbn [extended i_data]. rewrite Hd, length_app.
    pose proof (prefix_length _ _ (re_prefix _ _ _ _ Hr)). lia.
Qed.
End Append.

Lemma compacting_set L w d c i :
  opened (wr_generation w) (wr_file w) d → compacting L w d c → compacting L w (set_inode (wr_file w) i d) c.
Proof.
  intros Ho [? ? ? ? ? ? ? Hf]. split; try done. intros t Ht. destruct (Hf t Ht) as (Hp & ? & i' & x & Hi & ?).
  split; [done|]. split; [done|]. exists i', x. cbn. rewrite lookup_insert_ne; [done|]. symmetry. by eapply opened_file.
Qed.

Lemma compacting_append L w d c o ms enc :
  Forall (λ e, lg_base e.2 <= e.1 <= wr_sequence w ∧ lg_base e.2 + zlen (lg_batches e.2) = wr_sequence w) L →
  encoded p (aof_limits cfg) (MBatch (wr_sequence w + 1) o ms) enc →
  compacting L w d c → compacting (adding (o, ms) L) (after_append w (wr_sequence w + 1) enc) d (extend_delta (max_delta_bytes (wr_config w)) c enc).
Proof.
  intros Hl He [? ? ? ? ? ? Hlive Hf].
  assert (∃ delta n a, extend_delta (max_delta_bytes (wr_config w)) c enc
    = {| cp_ready := cp_ready c; cp_temporary := cp_temporary c; cp_destination := cp_destination c; cp_delta := delta;
         cp_delta_bytes := n; cp_aborted := a; cp_snapshot := cp_snapshot c; cp_sequence := cp_sequence c;
         cp_replication := cp_replication c |} ∧ (a = false → cp_aborted c = false ∧ delta = cp_delta c ++ [enc]))
    as (delta & n & a & -> & Ha).
  { unfold extend_delta. destruct (cp_aborted c) eqn:Ea.
    { exists (cp_delta c), (cp_delta_bytes c), true. split; [|done]. destruct c. cbn in *. by subst. }
    destruct (u_add _ _) as [m|]; [destruct (_ <? m)|]; eexists _, _, _; (split; [done|]); done. }
  split; try done. cbn. intros [Hc ->]%Ha. destruct (Hlive Hc) as (floor & batches & Hin & Hall).
  exists floor, (batches ++ [(o, ms)]). split; [exact (adding_in (o, ms) L _ _ Hin)|].
  rewrite Forall_forall in Hl. destruct (Hl _ Hin) as [_ Hseq]. cbn in Hseq.
  rewrite batch_records_app. apply Forall2_app; [done|]. rewrite Hseq. constructor; [exact He|constructor].
Qed.

Lemma tracked_append L w d o ms enc i :
  tracked L w d → wr_sequence w + 1 < 2 ^ 64 → encoded p (aof_limits cfg) (MBatch (wr_sequence w + 1) o ms) enc →
  inodes d !! wr_file w = Some i →
  tracked (adding (o, ms) L) (after_append w (wr_sequence w + 1) enc) (set_inode (wr_file w) (extended i enc) d).
Proof.
  intros Ht Hmax He Hi. destruct (append_text L w d o ms enc i Ht Hmax He Hi) as (floor & lg & x & Hin & Hx & Hd & Hr & Hfl & Hx').
  destruct Ht as [? ? Ho ? ? Hl _ Hc]. split; cbn; try done.
  - by apply opened_set.
  - lia.
  - apply Forall_fmap. eapply Forall_impl; [exact Hl|]. intros [fl l]. cbn. rewrite zlen_app, zlen_cons, zlen_nil. lia.
  - exists floor, (add_batch (o, ms) lg), (extend_text x enc), (extended i enc). split; [by apply adding_in|]. split; [done|].
    rewrite lookup_insert_eq. split; [done|]. split; [rewrite extend_bytes; cbn [extended i_data]; by rewrite Hd|].
    apply reaches_extend; [|done]. rewrite (text_batches _ _ Hx). cbn. lia.
  - intros c' [c [Ec ->]]%fmap_Some. apply (compacting_set _ (after_append w (wr_sequence w + 1) enc)); [done|].
    apply compacting_append; [done..|by apply Hc].
Qed.

(** Syncing the file makes any floors up to the sequence safe. *)
Lemma tracked_sync L w d i (φ : Z * Log → Z) :
  tracked L w d → inodes d !! wr_file w = Some i → Forall (λ e, lg_base e.2 <= φ e <= wr_sequence w) L →
  tracked ((λ e, (φ e, e.2)) <$> L) (with_dirty w false) (set_inode (wr_file w) (synced i) d).
Proof.
  intros [? ? Ho ? ? Hl (floor & lg & x & i' & Hin & Hx & Hi' & Hd & Hr) Hc] Hi Hφ. rewrite Hi in Hi'. injection Hi' as <-. split; cbn; try done.
  - by apply opened_set.
  - apply Forall_fmap. apply Forall_forall. intros e He. cbn. rewrite Forall_forall in Hl, Hφ.
    split; [by apply Hφ|by apply Hl].
  - exists (φ (floor, lg)), lg, x, (synced i). split; [apply list_elem_of_fmap; by exists (floor, lg)|]. split; [done|].
    rewrite lookup_insert_eq. split; [done|]. split; [done|]. cbn. rewrite Hd. apply reaches_whole.
  - intros c Ec. apply (compacting_set _ (with_dirty w false)); [done|]. destruct (Hc c Ec) as [? ? ? ? ? ? Hlive ?]. split; try done.
    intros Ha. destruct (Hlive Ha) as (fl & batches & Hin' & ?). eexists _, batches. split; [|done].
    apply list_elem_of_fmap. by eexists (fl, _).
Qed.
Lemma tracked_raise L w d i :
  tracked L w d → inodes d !! wr_file w = Some i →
  tracked (raising (wr_sequence w) L) (with_dirty w false) (set_inode (wr_file w) (synced i) d).
Proof.
  intros Ht Hi. apply (tracked_sync L w d i (λ e, Z.max (wr_sequence w) e.1)); [done..|]. eapply Forall_impl; [apply Ht|]. cbn. lia.
Qed.
Lemma tracked_resync L w d i :
  tracked L w d → inodes d !! wr_file w = Some i → tracked L (with_dirty w false) (set_inode (wr_file w) (synced i) d).
Proof.
  intros Ht Hi. pose proof (tracked_sync L w d i fst Ht Hi) as H. rewrite <- (list_fmap_id L) at 1.
  erewrite list_fmap_ext; [apply H|]; [|by intros ? []]. eapply Forall_impl; [apply Ht|]. cbn. lia.
Qed.
End Ledger.
Arguments text_of : clear implicits.
Arguments good : clear implicits.
Arguments covered : clear implicits.
Arguments compacting : clear implicits.
Arguments tracked : clear implicits.
