(* ===== verification/WriterSpec.v ===== *)
(** * Crash safety of the writer

    Every step of the writer (Writer.v) keeps its ledger (Ledgers.v) on the disk at every
    point at which the process may die: appends, syncs, compaction, installation and the
    loop over the requests. *)

From Stdlib Require Import Strings.Byte Strings.String ZArith Lia.
From S2P Require Import Prelude Float Wire Score Memory Command Store StoreInv StoreSpec Mutation StoreExec Replay Routing Format MemoryFormat Profile MemoryLifecycle Decoded Protocol Journal Recovery RecoverySpec Disk Writer Ledgers.

#[local] Open Scope Z_scope.
#[local] Opaque snapshot_digest.
#[local] Arguments generation_path : simpl never.
#[local] Arguments wp : simpl never.

Section Ledger.
Context {p : Profile} {cfg : AofConfig}.
Abbreviation text_of := (text_of p cfg).
Abbreviation good := (good p cfg).
Abbreviation covered := (covered p cfg).
Abbreviation compacting := (compacting p cfg).
Abbreviation tracked := (tracked p cfg).

(** ** Appending *)

Lemma tracked_inode L w d : tracked L w d → ∃ i, inodes d !! wr_file w = Some i.
Proof. intros [? ? ? ? ? ? (? & ? & ? & i & ? & ? & ? & ?) ?]. by exists i. Qed.

Lemma writer_sync_ok (Φ : World → Exit Writer → Prop) L w W :
  tracked L w (disk W) →
  (∀ W', tracked (raising (wr_sequence w) L) (with_dirty w false) (disk W') ∧ tracked L (with_dirty w false) (disk W') →
    Φ W' (Return (with_dirty w false))) →
  (∀ W' x, tracked L w (disk W') ∨ tracked L (with_dirty w false) (disk W') → x = Raise AofIo ∨ x = Died → Φ W' x) →
  wp (writer_sync w) W Φ.
Proof.
  intros Ht Hdone Hbad. destruct (tracked_inode _ _ _ Ht) as [i Hi].
  assert (tracked L (with_dirty w false) (sync_inode (wr_file w) (disk W))) as Ht'
    by (rewrite (sync_inode_eq _ i) by done; by apply tracked_resync).
  apply wpd_bind, wpd_atomic; cbn; [|by apply Hbad; auto..].
  apply wpd_ret, Hdone. split; [|done]. cbn. rewrite (sync_inode_eq _ i) by done. by apply tracked_raise.
Qed.

Lemma publish_frame_ok journal frame sequence W :
  wp (publish_frame journal frame sequence) W (λ W' x, disk W' = disk W ∧ ∀ e, x = Raise e → e = AofUnavailable).
Proof.
  unfold publish_frame. destruct journal as [n|]; [|by apply wpd_ret]. destruct frame as [f|]; [|by apply wpd_ret].
  intros fs. unfold mbind, io_bind. cbn. destruct (journals W !! n) as [[l j]|]; [|done].
  destruct (publish l j sequence f) as [[j' [[]|e]]|]; cbn; [done| |done]. split; [done|]. by intros e' [= <-].
Qed.
Lemma publish_frame_silent journal frame sequence : silent (publish_frame journal frame sequence).
Proof. unfold publish_frame. silence. Qed.

(** The ledger after an append was acknowledged. *)
Definition acknowledging (n : Z) (b : MutationOrigin * list MMutation) (L : Ledger) : Ledger :=
  if bool_decide (aof_sync cfg = Always) then raising n (adding b L) else adding b L.
(** What an append leaves: the acknowledged batch, or one that may or may not be there. *)
Definition append_post (L : Ledger) (w : Writer) (b : MutationOrigin * list MMutation) (W' : World) (x : Exit (Writer * Z)) : Prop :=
  match x with
  | Return (w', n) => n = wr_sequence w + 1 ∧ tracked (acknowledging n b L) w' (disk W')
  | Raise (AofIo | AofUnavailable) | Died => covered (adding b L) (disk W')
  | Raise _ => tracked L w (disk W')
  end.

Lemma append_encoded_ok L w W o ms enc frame :
  tracked L w (disk W) → wr_sequence w + 1 < 2 ^ 64 → encoded p (aof_limits cfg) (MBatch (wr_sequence w + 1) o ms) enc →
  wp (append_encoded w (wr_sequence w + 1) enc frame) W (append_post L w (o, ms)).
Proof.
  intros Ht Hmax He. destruct (tracked_inode _ _ _ Ht) as [i Hi]. apply wpd_bind, wpd_act; cbn.
  2,3: intros n; rewrite (append_inode_eq _ i) by done; by apply append_covered.
  set (w1 := after_append w (wr_sequence w + 1) enc). set (b := (o, ms)).
  assert (tracked (adding b L) w1 (append_inode (wr_file w) enc (disk W))) as Ht1
    by (rewrite (append_inode_eq _ i) by done; by apply tracked_append).
  assert (wp (if bool_decide (aof_sync (wr_config w) = Always) then writer_sync w1 else mret w1)
    (on_disk (append_inode (wr_file w) enc) W)
    (λ W' x, match x with
             | Return w' => tracked (adding b L) w' (disk W') ∧ tracked (acknowledging (wr_sequence w + 1) b L) w' (disk W')
             | Raise e => e = AofIo ∧ covered (adding b L) (disk W')
             | Died => covered (adding b L) (disk W')
             end)) as Hsync.
  { rewrite (tr_config _ _ _ Ht). unfold acknowledging. case_bool_decide; [|by apply wpd_ret].
    apply (writer_sync_ok _ (adding b L)); [done|by intros W' []|].
    intros W' x [Hx|Hx] [->| ->]; try split; try done; by eapply tracked_covered. }
  apply wpd_bind. eapply wpd_mono; [exact Hsync|]. intros W' [w'|e|]; cbn; [|by intros [-> ?]|done]. intros [Hl Ha].
  apply wpd_bind. eapply wpd_mono; [apply publish_frame_ok|]. intros W'' [[]|e|] [Hd Hx]; cbn.
  - apply wpd_ret. cbn. by rewrite Hd.
  - rewrite (Hx e) by done. cbn. rewrite Hd. by eapply tracked_covered.
  - rewrite Hd. by eapply tracked_covered.
Qed.

Lemma u_add_next n m : 0 <= n → u_add n 1 = Some m → m = n + 1 ∧ n + 1 < 2 ^ 64.
Proof. unfold u_add. rewrite usize_checked_Some. unfold USIZE_MAX. lia. Qed.

(** A step that cannot fail with an I/O error before the record is written. *)
Lemma append_lift {A} (r : result AofError A) (k : A → IO (Writer * Z)) L w W b :
  tracked L w (disk W) → (∀ e, r = Err e → e ≠ AofIo ∧ e ≠ AofUnavailable) →
  (∀ a, r = Ok a → wp (k a) W (append_post L w b)) → wp (lift_io r ≫= k) W (append_post L w b).
Proof.
  intros Ht He Hk. apply wpd_bind, wpd_lift. destruct r as [a|e]; cbn; [by apply Hk|]. destruct (He e eq_refl). by destruct e.
Qed.

(** Errors that are not about I/O. *)
Definition refusal (e : AofError) : Prop := e ≠ AofIo ∧ e ≠ AofUnavailable.
Lemma layout_refusal layout key e : map_err AofConfigError (layout_shard_for layout key) = Err e → refusal e.
Proof. destruct (layout_shard_for _ _); [done|]. by intros [= <-]. Qed.
Lemma batch_shard_loop_refusal layout selected keys e : batch_shard_loop layout selected keys = Err e → refusal e.
Proof.
  revert selected. induction keys as [|key keys IH]; intros selected; cbn; [done|].
  destruct (map_err _ _) as [shard|e'] eqn:E; cbn; [|intros [= <-]; by eapply layout_refusal].
  destruct (match selected with Some _ => _ | None => _ end); [by intros [= <-]|apply IH].
Qed.
Lemma keys_refusal layout l e :
  fold_ok (λ _ mu, _ ← map_err AofConfigError (layout_shard_for layout (Mutation_key mu)); Ok tt) tt l = Err e → refusal e.
Proof.
  induction l as [|mu l IH]; cbn [fold_ok]; [by intros [=]|].
  destruct (map_err _ _) as [shard|e'] eqn:E; cbn; [apply IH|intros [= <-]; by eapply layout_refusal].
Qed.
Lemma check_shards_refusal layout mixed selected l e : check_shards layout mixed selected l = Err e → refusal e.
Proof.
  revert selected. induction l as [|mu l IH]; intros selected; cbn; [done|].
  destruct (map_err _ _) as [shard|e'] eqn:E; cbn; [|intros [= <-]; by eapply layout_refusal].
  destruct (_ && _); [by intros [= <-]|apply IH].
Qed.
Lemma map_err_refusal {E A} (f : E → AofError) (r : result E A) e : (∀ e, refusal (f e)) → map_err f r = Err e → refusal e.
Proof. intros Hf. destruct r; [done|]. intros [= <-]. apply Hf. Qed.
Lemma frame_refusal (frames : option nat) (r : result RepError bytes) e :
  match frames with Some _ => frame ← map_err frame_error r; Ok (Some frame) | None => Ok None end = Err e → refusal e.
Proof. destruct frames; [|by intros [=]]. destruct r as [|e']; cbn; [by intros [=]|]. intros [= <-]. by destruct e'. Qed.

Lemma writer_append_ok L w W batch :
  tracked L w (disk W) → Forall mmutation_ok (from_storage <$> mutations batch) →
  wp (writer_append w batch) W (append_post L w (origin batch, from_storage <$> mutations batch)).
Proof.
  intros Ht Hok. pose proof Ht as [Hc Hp _ _ Hs _ _ _]. unfold writer_append. rewrite Hc, Hp.
  apply append_lift; [done| |].
  { intros e. destruct (bool_decide (p = ComposedLegacyMixed)).
    - apply keys_refusal.
    - unfold batch_shard. destruct (batch_shard_loop _ _ _) eqn:E; cbn; [done|]. intros [= <-]. by eapply batch_shard_loop_refusal. }
  intros _ _. apply append_lift; [done|by destruct (u_add _ _); cbn; intros e [= <-]|].
  intros sequence Hseq. destruct (u_add _ _) as [n|] eqn:En; cbn in Hseq; [|done]. injection Hseq as ->.
  apply u_add_next in En as [-> Hmax]; [|lia]. apply append_lift; [done|apply frame_refusal|]. intros frame _.
  apply append_lift; [done|intros e; by apply map_err_refusal|]. intros enc He%map_err_ok.
  apply append_encoded_ok; [done..|]. split; [|exact He]. split; [lia|done].
Qed.

Lemma writer_append_memory_ok L w W o ms :
  bool_decide (p = MemoryProfile) = memory_profile cfg →
  tracked L w (disk W) → Forall mmutation_ok ms → wp (writer_append_memory w o ms) W (append_post L w (o, ms)).
Proof.
  intros Hprofile Ht Hok. pose proof Ht as [Hc Hp _ _ Hs _ _ _]. unfold writer_append_memory. rewrite Hc, <- Hprofile.
  case_bool_decide as Hm; cbn [negb]; [|by apply wpd_raise].
  apply append_lift; [done|apply check_shards_refusal|].
  intros _ _. apply append_lift; [done|by destruct (u_add _ _); cbn; intros e [= <-]|].
  intros sequence Hseq. destruct (u_add _ _) as [n|] eqn:En; cbn in Hseq; [|done]. injection Hseq as ->.
  apply u_add_next in En as [-> Hmax]; [|lia]. apply append_lift; [done|apply frame_refusal|]. intros frame _.
  apply append_lift; [done|intros e; by apply map_err_refusal|]. intros enc He%map_err_ok.
  apply append_encoded_ok; [done..|]. split; [split; [lia|done]|]. by rewrite Hm.
Qed.

(** ** New files *)

Definition empty_inode : Inode := {| i_data := []; i_durable := [] |}.
Lemma wpd_create {B} name (k : nat → IO B) W Φ :
  (entries (disk W) !! name = None → wp (k (fresh_inode (disk W))) (at_file (fresh_inode (disk W)) empty_inode (on_disk (create_inode name) W)) Φ) →
  Φ W (Raise AofIo) → Φ W Died → Φ (on_disk (create_inode name) W) Died → wp (create_new name ≫= k) W Φ.
Proof.
  intros Hk Hr Hd Hd'. apply wpd_bind, wpd_bind, wpd_get_disk. cbn. destruct (entries (disk W) !! name) eqn:E; [by apply wpd_raise|].
  apply wpd_bind, wpd_atomic; [|done..]. apply wpd_ret. cbn. rewrite at_file_id in Hk; [by apply Hk|]. cbn. apply lookup_insert_eq.
Qed.

(** A file built under a name of its own: what the directory shows besides is unchanged. *)
Definition built (name : bytes) (d : Disk) (t : nat) (d' : Disk) : Prop :=
  beside d d' ∧ private t d' ∧ entries d' = <[name := t]> (entries d) ∧ saved d' = saved d.
Lemma built_at_file name W i :
  disk_ok (disk W) → apart name →
  built name (disk W) (fresh_inode (disk W)) (disk (at_file (fresh_inode (disk W)) i (on_disk (create_inode name) W))).
Proof.
  intros Hd Ha. destruct (frame_create name (disk W) Hd Ha) as [Hf Hp]. split; [|done].
  eapply frame_trans; [exact Hf|]. apply frame_set_inode; [apply Hf|done].
Qed.

(** [m] builds a file and, on success, leaves it as [Q] says. *)
Lemma wpd_build name (m : nat → IO nat) W Q (Φ : World → Exit nat → Prop) :
  disk_ok (disk W) → apart name → let t := fresh_inode (disk W) in
  writes t (on_disk (create_inode name) W) (m t) empty_inode (λ a i, a = t ∧ Q i) →
  (∀ W' i, built name (disk W) t (disk W') → inodes (disk W') !! t = Some i → Q i → Φ W' (Return t)) →
  (∀ W' x, beside (disk W) (disk W') → (∀ a, x ≠ Return a) → Φ W' x) →
  wp (create_new name ≫= m) W Φ.
Proof.
  intros Hd Ha t Hw Hk Hbad. assert (∀ i, built name (disk W) t (disk (at_file t i (on_disk (create_inode name) W)))) as Hb
    by (intros i; by apply built_at_file).
  apply wpd_create; [|by apply Hbad; [apply frame_refl|]..|].
  2:{ apply Hbad; [|done]. apply frame_create; done. }
  intros _. eapply wpd_mono; [exact Hw|]. intros W' x (i & -> & Hx). destruct x as [a|e|]; [|by apply Hbad; [apply Hb|]..].
  destruct Hx as [-> HQ]. apply (Hk _ i); [done| |done]. cbn. apply lookup_insert_eq.
Qed.

Lemma text_new base snapshot replication head encs seal :
  0 <= base < 2 ^ 64 → replication_ok replication → profile_write_header p base (aof_layout cfg) replication = Ok head →
  Forall (λ mu, is_image mu = true) snapshot → StronglySorted cmp_lt (MMutation_key <$> snapshot) →
  Forall2 (encoded p (aof_limits cfg)) (MSnapshot <$> snapshot) encs →
  encoded p (aof_limits cfg) (MSeal base (zlen snapshot) (foldl snapshot_digest 0 encs)) seal →
  text_of {| lg_base := base; lg_snapshot := snapshot; lg_batches := [] |}
    {| tx_head := head; tx_snapshot := encs; tx_seal := seal; tx_batches := [] |}.
Proof.
  intros Hb Hr Hw Hi Hs He Hseal. split; cbn; [lia|unfold zlen; cbn; lia|by exists replication|done..|constructor].
Qed.

(** The file of a snapshot. *)
Definition holds (lg : Log) (i : Inode) : Prop := ∃ x, text_of lg x ∧ i_data i = text_bytes x ∧ i_durable i = text_bytes x.

Lemma write_generation_ok name base replication snapshot W (Φ : World → Exit nat → Prop) :
  disk_ok (disk W) → apart name → 0 <= base < 2 ^ 64 → replication_ok replication → zlen snapshot < 2 ^ 64 →
  Forall mmutation_ok snapshot → Forall (λ mu, is_image mu = true) snapshot → StronglySorted cmp_lt (MMutation_key <$> snapshot) →
  (∀ W' t i, built name (disk W) t (disk W') → inodes (disk W') !! t = Some i →
    holds {| lg_base := base; lg_snapshot := snapshot; lg_batches := [] |} i → Φ W' (Return t)) →
  (∀ W' x, beside (disk W) (disk W') → (∀ a, x ≠ Return a) → Φ W' x) →
  wp (write_generation p cfg name base replication snapshot) W Φ.
Proof.
  intros Hd Ha Hb Hr Hz Hok Hi Hs Hdone Hbad. eapply wpd_build; [done|done| |by intros; eapply Hdone|done]. cbv beta.
  eapply writes_bind; [apply writes_head|]. intros _ i (head & Hw & ->).
  eapply writes_bind; [by apply writes_snapshot|]. intros [entries digest] i (encs & He & -> & [= -> ->]).
  eapply writes_bind; [by apply (writes_sealed p cfg _ _ base snapshot head encs)|]. intros _ i (seal & Hseal & Hsy & Hdata).
  apply writes_ret. split; [done|]. exists {| tx_head := head; tx_snapshot := encs; tx_seal := seal; tx_batches := [] |}.
  split; [by eapply text_new|]. split; [done|]. rewrite Hsy. exact Hdata.
Qed.

Lemma storage_snapshot_keys (snapshot : list Mutation) : MMutation_key <$> (from_storage <$> snapshot) = Mutation_key <$> snapshot.
Proof. rewrite <- list_fmap_compose. apply list_fmap_ext. by intros ? [? [] ?|] _. Qed.

Lemma produce_ok c w W (Φ : World → Exit nat → Prop) :
  wr_config w = cfg → wr_profile w = p → disk_ok (disk W) → apart (cp_temporary c) → 0 <= cp_sequence c < 2 ^ 64 →
  replication_ok (cp_replication c) → zlen (cp_snapshot c) < 2 ^ 64 → Forall mmutation_ok (from_storage <$> cp_snapshot c) →
  (∀ W' t i, built (cp_temporary c) (disk W) t (disk W') → inodes (disk W') !! t = Some i → holds (candidate c []) i → Φ W' (Return t)) →
  (∀ W' x, beside (disk W) (disk W') → (∀ a, x ≠ Return a) → Φ W' x) →
  wp (produce w c) W Φ.
Proof.
  intros Hc Hp Hd Ha Hb Hr Hz Hok Hdone Hbad. unfold produce. rewrite Hc, Hp. eapply wpd_build; [done|done| |by intros; eapply Hdone|done].
  cbv beta. eapply writes_bind; [apply writes_head|]. intros _ i (head & Hw & ->).
  eapply writes_bind; [by apply writes_compacted|]. intros [entries digest] i ((Hi & Hs & _) & encs & He & -> & [= -> ->]).
  rewrite <- storage_snapshot_keys in Hs. assert (zlen (cp_snapshot c) = zlen (from_storage <$> cp_snapshot c)) as Ez
    by (unfold zlen; by rewrite length_fmap). rewrite Ez in *.
  eapply writes_bind; [by apply (writes_sealed p cfg _ _ (cp_sequence c) (from_storage <$> cp_snapshot c) head encs)|].
  intros _ i (seal & Hseal & Hsy & Hdata).
  apply writes_ret. split; [done|]. exists {| tx_head := head; tx_snapshot := encs; tx_seal := seal; tx_batches := [] |}.
  split; [by eapply text_new|]. split; [done|]. rewrite Hsy. exact Hdata.
Qed.

(** ** Publishing a generation *)

Lemma opened_next_named g f d : opened g f d → g + 1 < 2 ^ 64 → known (generation_path (g + 1)).
Proof. intros Ho Hg. right. exists (g + 1). split; [|done]. pose proof (op_range _ _ _ Ho). lia. Qed.

Section Publish.
Context (L : Ledger) (name : bytes) (g : Z) (f t : nat) (d : Disk) (i i' : Inode).
Context (Ho : opened g f d) (Hg : g + 1 < 2 ^ 64) (Hname : apart name) (Hentry : entries d !! name = Some t).
Context (Hi : inodes d !! f = Some i) (Hgood : good L i) (Hi' : inodes d !! t = Some i') (Hgood' : good L i').

Abbreviation renamed := (rename_entry name (generation_path (g + 1)) d).
Lemma renamed_entries : entries renamed = <[generation_path (g + 1) := t]> (delete name (entries d)) ∧ saved renamed = saved d ∧ inodes renamed = inodes d.
Proof. unfold rename_entry. by rewrite Hentry. Qed.
Lemma renamed_lookup g' :
  0 <= g' → entries renamed !! generation_path g' = if decide (g' = g + 1) then Some t else entries d !! generation_path g'.
Proof.
  destruct renamed_entries as (-> & _ & _). pose proof (op_range _ _ _ Ho). intros Hg'. destruct (decide (g' = g + 1)) as [E|E].
  - rewrite E. apply lookup_insert_eq.
  - rewrite lookup_insert_ne by (intros E'%generation_path_inj; lia). apply lookup_delete_ne. by apply apart_generation.
Qed.
Lemma renamed_ok : disk_ok renamed.
Proof. apply rename_ok; [apply Ho|by eapply opened_next_named]. Qed.

Lemma renamed_covered : covered L renamed.
Proof.
  destruct renamed_entries as (_ & Es & Ein). pose proof (op_range _ _ _ Ho). split; [apply renamed_ok|].
  exists g. split; [done|]. split; [rewrite renamed_lookup, decide_False by lia; by rewrite (op_entry _ _ _ Ho)|].
  rewrite Es. split; [by rewrite (op_saved _ _ _ Ho)|]. intros g' id Hg'.
  rewrite renamed_lookup, Ein by lia. destruct (decide (g' = g + 1)) as [->|E].
  - intros [[= <-]|Hs]; [by exists i'|]. destruct (op_newest _ _ _ Ho (g + 1)) as [_ Hn]; [lia|]. by rewrite Hn in Hs.
  - intros Hid. destruct (decide (g' = g)) as [->|]; [|destruct (op_newest _ _ _ Ho g') as [H1 H2]; [lia|]; rewrite H1, H2 in Hid; by destruct Hid].
    rewrite (op_entry _ _ _ Ho), (op_saved _ _ _ Ho) in Hid. exists i. by destruct Hid as [[= <-]|[= <-]].
Qed.
Lemma renamed_opened : opened (g + 1) t (sync_entries renamed).
Proof.
  pose proof (op_range _ _ _ Ho). split; [apply sync_entries_ok, renamed_ok|lia|..]; unfold sync_entries; cbn [entries saved].
  - by rewrite renamed_lookup, decide_True by lia.
  - by rewrite renamed_lookup, decide_True by lia.
  - intros g' Hg'. rewrite renamed_lookup, decide_False by lia. destruct (op_newest _ _ _ Ho g') as [-> _]; [lia|done].
Qed.
End Publish.

Lemma publish_file_ok L name g f t W i i' (Φ : World → Exit unit → Prop) :
  opened g f (disk W) → g + 1 < 2 ^ 64 → apart name → entries (disk W) !! name = Some t →
  inodes (disk W) !! f = Some i → good L i → inodes (disk W) !! t = Some i' → good L i' →
  (∀ W', opened (g + 1) t (disk W') → inodes (disk W') = inodes (disk W) → Φ W' (Return tt)) →
  Φ W (Raise AofIo) →
  (∀ W', covered L (disk W') → is_Some (entries (disk W') !! generation_path (g + 1)) → Φ W' (Raise AofIo)) →
  (∀ W', covered L (disk W') → Φ W' Died) →
  wp (publish_file name (generation_path (g + 1))) W Φ.
Proof.
  intros Ho Hg Hn He Hi Hgood Hi' Hgood' Hdone Hraise Hpub Hdied.
  assert (covered L (disk W)) as Hcov by by eapply opened_covered.
  assert (covered L (rename_entry name (generation_path (g + 1)) (disk W))) as Hcov' by by eapply renamed_covered.
  assert (is_Some (entries (rename_entry name (generation_path (g + 1)) (disk W)) !! generation_path (g + 1))) as Hsome.
  { pose proof (op_range _ _ _ Ho). by rewrite (renamed_lookup name g f t), decide_True by (done || lia). }
  apply wpd_bind, wpd_bind, wpd_get_disk. cbn. rewrite He. apply wpd_atomic; cbn; [|done|by apply Hdied|by apply Hdied].
  apply wpd_atomic; cbn; [|by apply Hpub|by apply Hdied|by apply Hdied, covered_sync].
  apply Hdone; [by eapply renamed_opened|]. cbn. by apply (renamed_entries name g t).
Qed.

(** ** The other steps *)

Lemma temporary_path_ok {B} pid prefix b rest (k : bytes → IO B) W Φ :
  prefix = b :: rest → b ≠ "g"%byte → (∀ W' name, disk W' = disk W → apart name → wp (k name) W' Φ) →
  wp (temporary_path pid prefix ≫= k) W Φ.
Proof.
  intros -> Hb Hk. apply wpd_bind, wpd_bind. intros fs. cbn. apply wpd_ret, Hk; [done|]. by intros [= ?].
Qed.
Lemma discard_ok name W Φ :
  disk_ok (disk W) → apart name → (∀ W' x, beside (disk W) (disk W') → x = Return tt ∨ x = Died → Φ W' x) →
  wp (discard_file name) W Φ.
Proof.
  intros Hd Ha HΦ. assert (∀ x, x = Return tt ∨ x = Died → Φ W x) as HW by (intros x Hx; apply HΦ; [by apply frame_refl|done]).
  apply wpd_bind, wpd_attempt, wpd_bind, wpd_get_disk. cbn. destruct (entries (disk W) !! name) eqn:E.
  - apply wpd_atomic; [apply wpd_ret, HΦ; [by apply frame_remove|auto]|apply wpd_ret, HW; auto|apply HW; auto|].
    apply HΦ; [by apply frame_remove|auto].
  - apply wpd_raise, wpd_ret, HW. auto.
Qed.
Lemma opened_remove g f d g' : opened g f d → 0 <= g' < g → opened g f (remove_entry (generation_path g') d).
Proof.
  intros [Hok ? ? ? Hn] Hg'. split; cbn; [|done|..|done|].
  - intros name id. cbn. intros [He|Hs]; [|by apply Hok; right]. apply lookup_delete_Some in He as [_ He]. by apply Hok; left.
  - rewrite lookup_delete_ne; [done|]. intros E%generation_path_inj; lia.
  - intros g'' Hg''. destruct (Hn g'' Hg''). rewrite lookup_delete_ne; [done|]. intros E%generation_path_inj; lia.
Qed.
Lemma remove_obsolete_ok g f W Φ :
  opened g f (disk W) →
  (∀ W' x, opened g f (disk W') → inodes (disk W') = inodes (disk W) → x = Return tt ∨ x = Died → Φ W' x) →
  wp (remove_obsolete g) W Φ.
Proof.
  intros Ho HΦ. unfold remove_obsolete. destruct (g <? 2) eqn:Eg; [apply wpd_ret, HΦ; auto|].
  assert (opened g f (remove_entry (generation_path (g - 2)) (disk W))) as Ho' by (apply opened_remove; [done|lia]).
  apply wpd_bind, wpd_bind, wpd_get_disk, wpd_ret. cbn. case_bool_decide; [|apply wpd_ret, HΦ; auto].
  apply wpd_bind, wpd_attempt, wpd_bind, wpd_get_disk. cbn. destruct (entries (disk W) !! _) eqn:E; [|apply wpd_raise, wpd_ret, HΦ; auto].
  apply wpd_atomic; [apply wpd_ret, HΦ|apply wpd_ret, HΦ|apply HΦ|apply HΦ]; auto.
Qed.
Lemma close_journal_ok journal W Φ :
  (∀ W' x, disk W' = disk W → x = Return tt ∨ x = Died → Φ W' x) → wp (close_journal journal) W Φ.
Proof.
  intros HΦ. unfold close_journal. destruct journal as [i|]; [|apply wpd_ret, HΦ; auto].
  intros fs. unfold mbind, io_bind. cbn. destruct (journals W !! i) as [[l j]|]; apply HΦ; auto.
Qed.

Lemma tracked_frame L w d d' :
  tracked L w d → beside d d' → (∀ c, wr_compaction w = Some c → compacting L w d' c) → tracked L w d'.
Proof.
  intros [? ? Ho ? ? ? (floor & lg & x & i & ? & ? & Hi & ?) _] Hf Hc. split; try done; [by eapply opened_frame|].
  exists floor, lg, x, i. do 2 (split; [done|]). split; [|done].
  rewrite (fr_inodes _ _ Hf (wr_generation w)); [done|]. left. apply Ho.
Qed.

(** The candidate of a new compaction is one more history. *)
Lemma compacting_mono L L' w d c : L ⊆ L' → compacting L w d c → compacting L' w d c.
Proof.
  intros HL [? ? ? ? ? ? Hlive ?]. split; try done. intros Ha. destruct (Hlive Ha) as (floor & batches & Hin & ?).
  exists floor, batches. split; [by apply HL|done].
Qed.
Definition begun (w : Writer) (snapshot : list Mutation) (L : Ledger) : Ledger :=
  L ++ [(wr_sequence w, {| lg_base := wr_sequence w; lg_snapshot := from_storage <$> snapshot; lg_batches := [] |})].
Lemma tracked_begin L w d snapshot temporary :
  tracked L w d → wr_compaction w = None → wr_generation w + 1 < 2 ^ 64 → apart temporary →
  Forall mmutation_ok (from_storage <$> snapshot) → zlen snapshot < 2 ^ 64 →
  tracked (begun w snapshot L) (with_compaction w
    (Some {| cp_ready := Producing; cp_temporary := temporary; cp_destination := generation_path (wr_generation w + 1);
             cp_delta := []; cp_delta_bytes := 0; cp_aborted := false; cp_snapshot := snapshot;
             cp_sequence := wr_sequence w; cp_replication := wr_replication w |})) d.
Proof.
  intros [? ? ? ? ? Hl (floor & lg & x & i & Hin & ?) _] Hno Hg Ha Hok Hz. split; cbn; try done.
  - apply Forall_app. split; [done|]. constructor; [|constructor]. cbn. unfold zlen. cbn. lia.
  - exists floor, lg, x, i. split; [|done]. apply elem_of_app. by left.
  - intros c [= <-]. split; cbn; try done. intros _. exists (wr_sequence w), []. split; [|constructor].
    apply elem_of_app. right. by left.
Qed.

(** ** Compaction *)

Lemma begin_compaction_ok pid snapshot L w W :
  tracked L w (disk W) → Forall mmutation_ok (from_storage <$> snapshot) → zlen snapshot < 2 ^ 64 →
  wp (begin_compaction pid w snapshot) W (λ W' x, ∃ w', x = Return w' ∧ wr_sequence w' = wr_sequence w ∧
    (sent W' = sent W ∧ tracked (begun w snapshot L) w' (disk W') ∨ ∃ e, sent W' = sent W ++ [Refused e] ∧ tracked L w' (disk W'))).
Proof.
  intros Ht Hok Hz. unfold begin_compaction. destruct (wr_compaction w) as [c|] eqn:Ec.
  { intros fs. cbn. exists w. do 2 (split; [done|]). right. by eexists. }
  destruct (u_add (wr_generation w) 1) as [g|] eqn:Eg.
  2:{ intros fs. cbn. exists w. do 2 (split; [done|]). right. by eexists. }
  pose proof (op_range _ _ _ (tr_opened _ _ _ Ht)) as Hr. apply u_add_next in Eg as [-> Hg]; [|lia].
  intros fs. cbn. eexists. split; [done|]. split; [done|]. left. split; [done|]. cbn. by apply tracked_begin.
Qed.

Lemma tracked_ready L w d d' c r :
  tracked L w d → wr_compaction w = Some c → cp_ready c = Producing → beside d d' →
  match r with
  | Ok t => ∃ i, built (cp_temporary c) d t d' ∧ inodes d' !! t = Some i ∧ holds (candidate c []) i
  | Err _ => True
  end → tracked L (with_compaction w (Some (with_ready c (Produced r)))) d'.
Proof.
  intros Ht Ec Hp Hf Hr. pose proof (tr_compaction _ _ _ Ht c Ec) as [? ? ? ? ? ? Hlive _].
  destruct Ht as [? ? Ho ? ? ? (floor & lg & x & i & ? & ? & Hi & ?) _]. split; cbn; try done; [by eapply opened_frame| |].
  - exists floor, lg, x, i. do 2 (split; [done|]). split; [|done].
    rewrite (fr_inodes _ _ Hf (wr_generation w)); [done|]. left. apply Ho.
  - intros c' [= <-]. split; cbn; try done. intros t [= ->]. destruct Hr as (i' & (_ & Hpr & He & _) & Hi' & x' & ? & ? & _).
    split; [done|]. split; [by rewrite He, lookup_insert_eq|]. by exists i', x'.
Qed.
Lemma producer_step_ok L w W :
  tracked L w (disk W) →
  wp (producer_step w) W (λ W' x, match x with Return w' => tracked L w' (disk W') | _ => covered L (disk W') end).
Proof.
  intros Ht. unfold producer_step. destruct (wr_compaction w) as [c|] eqn:Ec; [|by apply wpd_ret].
  destruct (cp_ready c) eqn:Er; [|by apply wpd_ret..]. pose proof (tr_compaction _ _ _ Ht c Ec) as [? ? ? [? ?] ? ? ? _].
  apply wpd_bind, wpd_attempt. apply produce_ok; try done; [apply Ht..| |].
  - intros W' t i Hb Hi Hh. apply wpd_ret. cbn. eapply tracked_ready; [done..|apply Hb|]. by exists i.
  - intros W' [t|e|] Hf Hx; cbn; [by destruct (Hx t)| |].
    + apply wpd_ret. by eapply tracked_ready.
    + eapply covered_frame; [by eapply tracked_covered|done].
Qed.

(** The published file of a compaction holds its candidate with the batches since. *)
Lemma text_deltas c batches x delta :
  text_of (candidate c []) x → Forall2 (encoded p (aof_limits cfg)) (batch_records (cp_sequence c) batches) delta →
  cp_sequence c + zlen batches < 2 ^ 64 →
  ∃ x', text_of (candidate c batches) x' ∧ text_bytes x' = text_bytes x ++ mjoin delta.
Proof.
  intros Hx Hd Hz. exists {| tx_head := tx_head x; tx_snapshot := tx_snapshot x; tx_seal := tx_seal x; tx_batches := delta |}.
  pose proof (text_batches _ _ Hx) as Hb. destruct Hx as [? ? ? ? ? ? ? Hbs]. cbn in Hbs. apply Forall2_nil_inv_l in Hbs.
  split; [by split|]. unfold text_bytes, log_bytes. cbn. rewrite Hbs, join_nil, app_nil_r. by rewrite <- !app_assoc.
Qed.
Lemma tracked_without_compaction L w d : tracked L w d → tracked L (with_compaction w None) d.
Proof. by intros [? ? ? ? ? ? ? _]. Qed.
Lemma frame_at_file t W i : disk_ok (disk W) → private t (disk W) → beside (disk W) (disk (at_file t i W)).
Proof. apply frame_set_inode. Qed.

(** The writer on the published file, every history of which is synced. *)
Lemma tracked_published L w c batches d t i g floor :
  Forall (λ e, lg_base e.2 <= e.1 <= wr_sequence w ∧ lg_base e.2 + zlen (lg_batches e.2) = wr_sequence w) L →
  wr_config w = cfg → wr_profile w = p → replication_ok (wr_replication w) → 0 <= wr_sequence w < 2 ^ 64 →
  (floor, candidate c batches) ∈ L → opened g t d → inodes d !! t = Some i → holds (candidate c batches) i →
  tracked (raising (wr_sequence w) L)
    {| wr_config := wr_config w; wr_profile := wr_profile w; wr_file := t; wr_generation := g;
       wr_sequence := wr_sequence w; wr_bytes_since_compact := 0; wr_dirty := false; wr_compaction := None;
       wr_replication := wr_replication w; wr_journal := wr_journal w; wr_store_config := wr_store_config w |} d.
Proof.
  intros Hl ? ? ? ? Hin Ho Hi (x & Hx & Hd & Hs). split; cbn; try done.
  - apply Forall_fmap. eapply Forall_impl; [exact Hl|]. intros [fl lg]. cbn. lia.
  - exists (Z.max (wr_sequence w) floor), (candidate c batches), x, i. split; [apply list_elem_of_fmap; by exists (floor, candidate c batches)|].
    do 3 (split; [done|]). rewrite Hs. apply reaches_whole.
Qed.

Definition publish_post (L : Ledger) (w : Writer) (c : Compaction) (W W' : World) (x : Exit Writer) : Prop :=
  match x with
  | Return w' => wr_sequence w' = wr_sequence w ∧ tracked (raising (wr_sequence w) L) w' (disk W')
  | Raise _ => beside (disk W) (disk W') ∨ covered L (disk W') ∧ is_Some (entries (disk W') !! cp_destination c)
  | Died => covered L (disk W')
  end.
Lemma publish_compaction_ok L w c t W :
  tracked L w (disk W) → compacting L w (disk W) c → cp_aborted c = false → cp_ready c = Produced (Ok t) →
  wp (publish_compaction w c (Ok t)) W (publish_post L w c W).
Proof.
  intros Ht [Hdest Hrange Hapart _ _ _ Hlive Hfile] Ha Hready.
  destruct (Hfile t Hready) as (Hp & Hentry & i & x & Hi & Hx & Hd). destruct (Hlive Ha) as (floor & batches & Hin & Hdelta).
  pose proof Ht as [Hc Hpr Ho Hrep Hseq Hl (fl & lg & y & j & Hlin & Hy & Hj & Hjd & Hjr) _].
  pose proof (op_ok _ _ _ Ho) as Hok. pose proof (tracked_covered _ _ _ Ht) as Hcov.
  assert (∀ i', beside (disk W) (disk (at_file t i' W))) as Hf by (intros i'; by apply frame_at_file).
  assert (∀ W' i', W' = at_file t i' W → covered L (disk W')) as Hcov' by (intros W' i' ->; by eapply covered_frame).
  rewrite Forall_forall in Hl. pose proof (Hl _ Hlin) as Hfl. pose proof (Hl _ Hin) as Hfc. rewrite <- Forall_forall in Hl. cbn in Hfl, Hfc.
  destruct (text_deltas c batches x (cp_delta c) Hx Hdelta ltac:(lia)) as (x' & Hx' & Ebytes).
  apply wpd_bind, wpd_ret. cbn. apply wpd_bind. rewrite <- (at_file_id t i W Hi) at 1.
  eapply wpd_mono; [apply (writes_deltas t W)|]. intros W1 [[]|e|] (i1 & -> & E1); cbn [next]; [|by left; apply Hf|by eapply Hcov'].
  subst i1. apply wpd_bind. eapply wpd_mono; [apply (writes_sync t W)|].
  intros W2 [[]|e|] (i2 & -> & E2); cbn [next]; [|by left; apply Hf|by eapply Hcov']. subst i2.
  set (i2 := synced (extended i (mjoin (cp_delta c)))). set (W2 := at_file t i2 W).
  assert (holds (candidate c batches) i2) as Hholds by (exists x'; split; [done|]; cbn; by rewrite Hd, Ebytes).
  assert (good L i2) as Hgood.
  { destruct Hholds as (z & Hz & Hzd & E). apply (good_whole L floor (candidate c batches) z); [done..|cbn; lia|done|]. rewrite E. apply reaches_whole. }
  assert (inodes (disk W2) !! t = Some i2) as Hi2 by (cbn; apply lookup_insert_eq).
  assert (inodes (disk W2) !! wr_file w = Some j) as Hj2.
  { cbn. rewrite lookup_insert_ne; [done|]. by eapply opened_file. }
  apply wpd_bind. rewrite Hdest. eapply (publish_file_ok L _ _ (wr_file w) t _ j i2); try done.
  - eapply opened_frame; [exact Ho|apply Hf].
  - apply (good_whole L fl lg y); [done..|lia|done|done].
  - intros W3 Ho3 Hin3. cbn [next]. apply wpd_bind. eapply remove_obsolete_ok; [done|]. intros W4 z Ho4 Hin4 [->| ->]; cbn [next].
    + apply wpd_ret. split; [done|]. apply (tracked_published L w c batches _ t i2 _ floor); [done..| |done]. by rewrite Hin4, Hin3.
    + eapply opened_covered; [done| |done]. by rewrite Hin4, Hin3.
  - left. apply Hf.
  - intros W3 Hc3 Hs3. right. by rewrite Hdest.
Qed.

(** ** What the programs send *)

Lemma probe_silent effect : silent (atomic effect).
Proof. apply silent_act. Qed.
Lemma create_new_silent name : silent (create_new name).
Proof. unfold create_new, atomic. silence. Qed.
Lemma rename_silent source target : silent (rename source target).
Proof. unfold rename, atomic. silence. Qed.
Lemma remove_file_silent name : silent (remove_file name).
Proof. unfold remove_file, atomic. silence. Qed.
Lemma discard_file_silent name : silent (discard_file name).
Proof. unfold discard_file. apply silent_bind; [apply silent_attempt, remove_file_silent|done]. Qed.
Lemma path_exists_silent name : silent (path_exists name).
Proof. unfold path_exists. silence. Qed.
Lemma write_all_silent t data : silent (write_all t data).
Proof. apply silent_act. Qed.
Lemma sync_all_silent t : silent (sync_all t).
Proof. apply silent_act. Qed.
Lemma sync_directory_silent : silent sync_directory.
Proof. apply silent_act. Qed.
Lemma writer_sync_silent w : silent (writer_sync w).
Proof. apply silent_bind; [apply sync_all_silent|done]. Qed.
#[local] Hint Resolve probe_silent create_new_silent rename_silent remove_file_silent discard_file_silent path_exists_silent write_all_silent sync_all_silent sync_directory_silent publish_frame_silent writer_sync_silent : silent.

Lemma write_deltas_silent t delta : silent (write_deltas t delta).
Proof. induction delta; cbn; [done|]. silence. Qed.
Lemma publish_file_silent source target : silent (publish_file source target).
Proof. unfold publish_file, sync_directory. silence. Qed.
Lemma remove_obsolete_silent g : silent (remove_obsolete g).
Proof. unfold remove_obsolete. silence. Qed.
Lemma write_head_silent q t base layout replication : silent (write_head q t base layout replication).
Proof. unfold write_head. silence. Qed.
Lemma write_seal_silent q l t base entries digest : silent (write_seal q l t base entries digest).
Proof. unfold write_seal. silence. Qed.
Lemma write_snapshot_silent q l t snapshot entries digest : silent (write_snapshot q l t snapshot entries digest).
Proof. revert entries digest. induction snapshot; intros; cbn [write_snapshot]; [done|]. silence. Qed.
Lemma write_compacted_silent q l t previous snapshot entries digest : silent (write_compacted q l t previous snapshot entries digest).
Proof. revert previous entries digest. induction snapshot; intros; cbn [write_compacted]; [done|]. silence. Qed.
#[local] Hint Resolve write_deltas_silent publish_file_silent remove_obsolete_silent write_head_silent write_seal_silent write_snapshot_silent write_compacted_silent : silent.
Lemma write_generation_silent q c name base replication snapshot : silent (write_generation q c name base replication snapshot).
Proof. unfold write_generation. silence. Qed.
Lemma produce_silent w c : silent (produce w c).
Proof. unfold produce. silence. Qed.
Lemma publish_compaction_silent w c r : silent (publish_compaction w c r).
Proof. unfold publish_compaction. silence. Qed.
Lemma close_journal_silent j : silent (close_journal j).
Proof. unfold close_journal. silence. Qed.
Lemma temporary_path_silent pid prefix : silent (temporary_path pid prefix).
Proof. unfold temporary_path. silence. Qed.
Lemma append_encoded_silent w n enc frame : silent (append_encoded w n enc frame).
Proof. unfold append_encoded. silence. Qed.
#[local] Hint Resolve write_generation_silent produce_silent publish_compaction_silent close_journal_silent temporary_path_silent append_encoded_silent : silent.
Lemma writer_append_silent w batch : silent (writer_append w batch).
Proof. unfold writer_append. silence. Qed.
Lemma writer_append_memory_silent w o ms : silent (writer_append_memory w o ms).
Proof. unfold writer_append_memory. silence. Qed.
Lemma install_profile_snapshot_silent pid clock w snapshot base metadata :
  silent (install_profile_snapshot pid clock w snapshot base metadata).
Proof. unfold install_profile_snapshot. silence. Qed.
Lemma producer_step_silent w : silent (producer_step w).
Proof. unfold producer_step. silence. Qed.

(** ** The end of a compaction *)

Definition finish_post (L : Ledger) (w : Writer) (W W' : World) (x : Exit Writer) : Prop :=
  match x with
  | Return w' => wr_sequence w' = wr_sequence w ∧
      (sent W' = sent W ∧ tracked L w' (disk W') ∨
       ∃ r, sent W' = sent W ++ [Compacted r] ∧
         tracked match r with Ok _ => raising (wr_sequence w) L | Err _ => L end w' (disk W'))
  | Raise _ => covered L (disk W') ∧ ∃ e, sent W' = sent W ++ [Compacted (Err e)]
  | Died => covered L (disk W') ∧ sent W' = sent W
  end.

Lemma conclude_compaction_ok L w c ready W :
  tracked L w (disk W) → wr_compaction w = None → compacting L w (disk W) c → (∀ t, ready = Ok t → cp_ready c = Produced (Ok t)) →
  wp (conclude_compaction w c ready) W (finish_post L w W).
Proof.
  intros Ht Hno Hc Hready. pose proof (op_ok _ _ _ (tr_opened _ _ _ Ht)) as Hok.
  assert (∀ W', beside (disk W) (disk W') → tracked L w (disk W')) as Hbeside
    by (intros W' Hf; eapply tracked_frame; [exact Ht|exact Hf|by rewrite Hno]).
  unfold conclude_compaction. destruct (cp_aborted c) eqn:Ea.
  { apply wpd_bind. eapply wpd_mono; [apply wpd_silent; [apply discard_file_silent|]|].
    { apply (discard_ok _ _ (λ W' x, beside (disk W) (disk W') ∧ (x = Return tt ∨ x = Died))); [done|apply Hc|auto]. }
    intros W' x [[Hf [->| ->]] Hs]; cbn [next].
    - intros fs. cbn. split; [done|]. right. eexists. split; [by rewrite Hs|]. cbn. by apply Hbeside.
    - split; [|done]. by eapply tracked_covered, Hbeside. }
  assert (wp (publish_compaction w c ready) W (publish_post L w c W)) as Hpub.
  { destruct ready as [t|e]; [by apply publish_compaction_ok; [..|apply Hready]|]. apply wpd_bind, wpd_raise. left. by apply frame_refl. }
  apply wpd_bind, wpd_attempt. eapply wpd_mono; [apply wpd_silent; [apply publish_compaction_silent|exact Hpub]|].
  intros W' [w'|e|] [Hx Hs]; cbn [next].
  - apply wpd_bind, wpd_bind, wpd_get_disk, wpd_ret. intros fs. cbn. destruct Hx as [? ?]. split; [done|]. right.
    eexists. split; [by rewrite Hs|]. done.
  - apply wpd_bind, wpd_bind, wpd_get_disk, wpd_ret. cbn [next]. destruct Hx as [Hf|[Hcov Hsome]].
    + rewrite (co_destination _ _ _ _ Hc), (fr_entries _ _ Hf).
      destruct (op_newest _ _ _ (tr_opened _ _ _ Ht) (wr_generation w + 1)) as [-> _];
        [pose proof (co_range _ _ _ _ Hc); lia|]. rewrite bool_decide_eq_false_2 by (by intros []).
      apply wpd_bind. eapply wpd_mono; [apply wpd_silent; [apply discard_file_silent|]|].
      { apply (discard_ok _ _ (λ W'' x, beside (disk W') (disk W'') ∧ (x = Return tt ∨ x = Died))); [apply Hf|apply Hc|auto]. }
      intros W'' x [[Hf' [->| ->]] Hs']; cbn [next].
      * intros fs. cbn. split; [done|]. right. eexists. split; [by rewrite Hs', Hs|]. cbn. by apply Hbeside; eapply frame_trans.
      * split; [|by rewrite Hs', Hs]. by eapply tracked_covered, Hbeside, frame_trans.
    + rewrite bool_decide_eq_true_2 by done. apply wpd_bind, wpd_ret. intros fs. cbn. split; [done|]. by rewrite Hs; eexists.
  - by split.
Qed.
Lemma finish_compaction_ok L w W : tracked L w (disk W) → wp (finish_compaction w) W (finish_post L w W).
Proof.
  intros Ht. unfold finish_compaction. destruct (wr_compaction w) as [c|] eqn:Ec; [|apply wpd_ret; by split; [|left]].
  assert (∀ ready, (∀ t, ready = Ok t → cp_ready c = Produced (Ok t)) →
    wp (conclude_compaction (with_compaction w None) c ready) W (finish_post L w W)) as Hgo.
  { intros ready Hr. apply (conclude_compaction_ok L (with_compaction w None)); [by apply tracked_without_compaction|done| |done].
    by destruct (tr_compaction _ _ _ Ht c Ec); split. }
  destruct (cp_ready c) eqn:Er; [apply wpd_ret; by split; [|left]|apply Hgo; by intros t ->|by apply Hgo].
Qed.

(** ** Installation *)

Lemma check_snapshot_ok clock w snapshot previous n s usage :
  check_snapshot clock w snapshot previous n s usage = Some (Ok tt) →
  Forall (λ mu, is_image mu = true) snapshot ∧ StronglySorted cmp_lt (MMutation_key <$> snapshot) ∧
  Forall (after previous) (MMutation_key <$> snapshot).
Proof.
  revert previous n s usage. induction snapshot as [|mu snapshot IH]; intros previous n s usage; cbn [check_snapshot]; [intros _; split_and!; constructor|].
  destruct (negb (is_image mu) || _) eqn:Eg; [done|]. apply orb_false_iff in Eg as [Him%negb_false_iff Hprev].
  destruct (replay_routed_memory _ _ _ _ _ _ _) as [[[s' usage']|e]|]; cbn [fallible_bind]; [|done..].
  intros (Hi & Hs & Ha)%IH. cbn [fmap list_fmap]. split_and!; [by constructor|by constructor|]. constructor.
  - destruct previous; [|done]. cbn. by apply bool_decide_eq_false, dec_stable in Hprev.
  - eapply Forall_impl; [exact Ha|]. intros key Hkey. destruct previous as [k|]; [|done]. cbn in *.
    apply bool_decide_eq_false, dec_stable in Hprev. by eapply cmp_trans.
Qed.

Definition installed (sequence : Z) (snapshot : list MMutation) : Log :=
  {| lg_base := sequence; lg_snapshot := snapshot; lg_batches := [] |}.
(** The history of an installation takes the place of the others, or may do so. *)
Definition installing (sequence : Z) (snapshot : list MMutation) (L : Ledger) : Ledger :=
  L ++ [(sequence, installed sequence snapshot)].
Definition install_post (L : Ledger) (w : Writer) (sequence : Z) (snapshot : list MMutation) (W' : World) (x : Exit Writer) : Prop :=
  match x with
  | Return w' => tracked [(sequence, installed sequence snapshot)] w' (disk W')
  | Raise AofUnavailable | Died => covered (installing sequence snapshot L) (disk W')
  | Raise _ => tracked L w (disk W')
  end.
Lemma installing_covered L w sequence snapshot d : tracked L w d → covered (installing sequence snapshot L) d.
Proof. intros Ht. eapply covered_mono; [|by eapply tracked_covered]. intros e He. apply elem_of_app. by left. Qed.
Lemma install_raise L w sequence snapshot W' e : tracked L w (disk W') → install_post L w sequence snapshot W' (Raise e).
Proof. intros Ht. destruct e; try done. by eapply installing_covered. Qed.

(** The new generation is written and published. *)
Definition build_post (L : Ledger) (g : Z) (lg : Log) (k : nat → Writer) (W W' : World) (x : Exit Writer) : Prop :=
  match x with
  | Return w' => ∃ t i, w' = k t ∧ opened (g + 1) t (disk W') ∧ inodes (disk W') !! t = Some i ∧ holds lg i
  | Raise _ => beside (disk W) (disk W') ∨ covered L (disk W') ∧ is_Some (entries (disk W') !! generation_path (g + 1))
  | Died => covered L (disk W')
  end.
Lemma build_ok L w base metadata snapshot temporary journal (k : nat → Writer) W :
  tracked L w (disk W) → wr_generation w + 1 < 2 ^ 64 → apart temporary → 0 <= base < 2 ^ 64 → replication_ok (Some metadata) →
  zlen snapshot < 2 ^ 64 → Forall mmutation_ok snapshot → Forall (λ mu, is_image mu = true) snapshot →
  StronglySorted cmp_lt (MMutation_key <$> snapshot) →
  wp (file ← write_generation p cfg temporary base (Some metadata) snapshot;
      _ ← publish_file temporary (generation_path (wr_generation w + 1));
      _ ← close_journal journal;
      mret (k file)) W
    (build_post (installing base snapshot L) (wr_generation w) (installed base snapshot) k W).
Proof.
  intros Ht Hg Ha Hb Hr Hz Hok Him Hs. pose proof (tr_opened _ _ _ Ht) as Ho. pose proof (op_ok _ _ _ Ho) as Hd.
  pose proof (installing_covered L w base snapshot _ Ht) as Hcov.
  destruct Ht as [_ _ _ _ _ Hl (fl & lg & y & j & Hlin & Hy & Hj & Hjd & Hjr) _].
  rewrite Forall_forall in Hl. destruct (Hl _ Hlin) as [Hfl Hfe]. cbn in Hfl, Hfe. set (L' := installing base snapshot L) in *.
  apply wpd_bind. apply write_generation_ok; try done.
  2:{ intros W' [t|e|] Hf Hx; cbn [next]; [by destruct (Hx t)|by left|by eapply covered_frame]. }
  intros W1 t i (Hf & Hp & He & _) Hi Hh. cbn [next].
  assert (good L' i) as Hgood.
  { destruct Hh as (z & Hz' & Hzd & E). apply (good_whole L' base (installed base snapshot) z); [apply elem_of_app; right; by left|done|..].
    - cbn. unfold zlen. cbn. lia.
    - done.
    - rewrite E. apply reaches_whole. }
  apply wpd_bind. eapply (publish_file_ok L' _ _ (wr_file w) t _ j i); try done.
  - by eapply opened_frame.
  - by rewrite He, lookup_insert_eq.
  - rewrite (fr_inodes _ _ Hf (wr_generation w)); [done|]. left. apply Ho.
  - apply (good_whole L' fl lg y); [apply elem_of_app; by left|done|lia|done|done].
  - intros W2 Ho2 Hin2. cbn [next]. apply wpd_bind, close_journal_ok. intros W3 x Ed [->| ->]; cbn [next].
    + apply wpd_ret. exists t, i. rewrite Ed, Hin2. done.
    + cbn. rewrite Ed. eapply opened_covered; [done| |done]. by rewrite Hin2.
  - left. exact Hf.
  - intros W2 Hc2 Hs2. by right.
Qed.

Lemma install_ok pid clock L w W snapshot sequence metadata :
  tracked L w (disk W) → 0 <= sequence < 2 ^ 64 → replication_ok (Some metadata) → zlen snapshot < 2 ^ 64 → Forall mmutation_ok snapshot →
  wp (install_profile_snapshot pid clock w snapshot sequence metadata) W (install_post L w sequence snapshot).
Proof.
  intros Ht Hb Hr Hz Hok. pose proof Ht as [Hc Hp Ho _ _ _ _ _]. unfold install_profile_snapshot.
  destruct (wr_compaction w) eqn:Ec; [by apply wpd_raise|].
  destruct (u_add (wr_generation w) 1) as [g|] eqn:Eg; [|by apply wpd_bind, wpd_raise].
  pose proof (op_range _ _ _ Ho). apply u_add_next in Eg as [-> Hg]; [|lia]. apply wpd_bind, wpd_ret. cbn [next].
  apply wpd_bind, wpd_lift. destruct (with_config 0 (wr_store_config w)) as [s|e]; cbn [map_err next]; [|done].
  apply wpd_bind. destruct (check_snapshot _ _ _ _ _ _ _) as [[[]|e]|] eqn:Echeck; cbn [lift_fallible lift_io].
  2:{ apply wpd_raise. by apply install_raise. }
  2:{ apply wpd_died. by eapply installing_covered. }
  apply check_snapshot_ok in Echeck as (Him & Hs & _). apply wpd_ret. cbn [next].
  eapply temporary_path_ok; [done|done|]. intros W1 temporary Ed Ha. rewrite <- Ed in Ht, Ho.
  apply wpd_bind, wpd_attempt. rewrite Hc, Hp.
  eapply wpd_mono; [by apply build_ok|]. intros W2 [w'|e|] Hx; cbn [next].
  - destruct Hx as (t & i & -> & Ho2 & Hi & x & Hx & Hd & Hdur). apply wpd_bind. eapply remove_obsolete_ok; [exact Ho2|].
    intros W3 z Ho3 Hin3 [->| ->]; cbn [next].
    + apply wpd_ret. split; cbn; try done; [by constructor; [cbn; unfold zlen; cbn; lia|]|].
      exists sequence, (installed sequence snapshot), x, i. split; [by left|]. split; [done|]. rewrite Hin3.
      do 2 (split; [done|]). rewrite Hdur. apply reaches_whole.
    + eapply opened_covered; [exact Ho3|by rewrite Hin3|].
      apply (good_whole _ sequence (installed sequence snapshot) x); [apply elem_of_app; right; by left|done|..|done|].
      * cbn. unfold zlen. cbn. lia.
      * rewrite Hdur. apply reaches_whole.
  - apply wpd_bind, wpd_bind, wpd_get_disk, wpd_ret. cbn [next]. destruct Hx as [Hf|[Hcov Hsome]].
    + rewrite (fr_entries _ _ Hf). destruct (op_newest _ _ _ Ho (wr_generation w + 1)) as [-> _]; [lia|].
      rewrite bool_decide_eq_false_2 by (by intros []). apply wpd_bind, discard_ok; [apply Hf|done|].
      assert (∀ W3, beside (disk W2) (disk W3) → tracked L w (disk W3)) as Hb3.
      { intros W3 Hf3. eapply tracked_frame; [exact Ht|by eapply frame_trans|by rewrite Ec]. }
      intros W3 z Hf3 [->| ->]; cbn [next]; [by apply wpd_raise, install_raise, Hb3|]. by eapply installing_covered, Hb3.
    + rewrite bool_decide_eq_true_2 by done. by apply wpd_raise.
  - exact Hx.
Qed.

(** ** The abstract log *)

Definition ledger_end (L : Ledger) : Z :=
  match L with (_, lg) :: _ => lg_base lg + zlen (lg_batches lg) | [] => 0 end.

(** The batch that a request asks to append. *)
Definition batch_of (r : WRequest) : option (MutationOrigin * list MMutation) :=
  match r with
  | WAppendMemory o ms | WReplicateMemory _ o ms => Some (o, ms)
  | WAppend batch | WReplicate _ batch => Some (origin batch, from_storage <$> mutations batch)
  | _ => None
  end.
(** The reply to a request is the first one sent after it. *)
Definition own_reply (rs : list WReply) : option WReply :=
  match rs with [] | Compacted _ :: _ => None | r :: _ => Some r end.

(** A batch whose append was acknowledged is in every history, and safe if every append
    is synced; a batch that was refused is in none; one without a reply, or whose append
    failed in the middle, may be there. *)
Definition after_append_request (L : Ledger) (b : MutationOrigin * list MMutation) (reply : option WReply) : Ledger :=
  match reply with
  | Some (Appended (Ok n)) => acknowledging n b L
  | None | Some (Appended (Err (AofIo | AofUnavailable))) => adding b L
  | Some _ => L
  end.
Definition after_install_request (L : Ledger) (sequence : Z) (snapshot : list MMutation) (reply : option WReply) : Ledger :=
  match reply with
  | Some (Installed (Ok _)) => [(sequence, installed sequence snapshot)]
  | None | Some (Installed (Err AofUnavailable)) => installing sequence snapshot L
  | Some _ => L
  end.
Definition after_request (L : Ledger) (r : WRequest) (reply : option WReply) : Ledger :=
  match r with
  | WFlush => match reply with Some (Flushed (Ok n)) => raising n L | _ => L end
  | WCompact snapshot =>
      match reply with
      | Some (Refused _) => L
      | _ => L ++ [(ledger_end L, installed (ledger_end L) (from_storage <$> snapshot))]
      end
  | WInstall snapshot sequence _ => after_install_request L sequence (from_storage <$> snapshot) reply
  | WInstallMemory snapshot sequence _ => after_install_request L sequence snapshot reply
  | _ => match batch_of r with Some b => after_append_request L b reply | None => L end
  end.
(** A finished compaction leaves every history synced. *)
Definition after_compaction (L : Ledger) (rs : list WReply) : Ledger :=
  if existsb (λ r, match r with Compacted (Ok _) => true | _ => false end) rs then raising (ledger_end L) L else L.
Definition ledger_step (L : Ledger) (i : Input) (rs : list WReply) : Ledger :=
  after_compaction match i with Received r => after_request L r (own_reply rs) | _ => L end rs.
(** The ledger after the inputs, given the replies sent in each iteration. *)
Fixpoint ledger_after (L : Ledger) (inputs : list Input) (replies : list (list WReply)) : Ledger :=
  match inputs, replies with
  | i :: inputs, rs :: replies => ledger_after (ledger_step L i rs) inputs replies
  | _, _ => L
  end.

(** The values of a request are in the ranges of their types. *)
Definition snapshot_ok (snapshot : list MMutation) : Prop := Forall mmutation_ok snapshot ∧ zlen snapshot < 2 ^ 64.
Definition wrequest_ok (r : WRequest) : Prop :=
  match r with
  | WAppendMemory _ ms | WReplicateMemory _ _ ms => Forall mmutation_ok ms
  | WAppend batch | WReplicate _ batch => Forall mmutation_ok (from_storage <$> mutations batch)
  | WCompact snapshot => snapshot_ok (from_storage <$> snapshot)
  | WInstall snapshot sequence metadata =>
      snapshot_ok (from_storage <$> snapshot) ∧ 0 <= sequence < 2 ^ 64 ∧ replication_ok (Some metadata)
  | WInstallMemory snapshot sequence metadata => snapshot_ok snapshot ∧ 0 <= sequence < 2 ^ 64 ∧ replication_ok (Some metadata)
  | _ => True
  end.
Definition input_ok (i : Input) : Prop := match i with Received r => wrequest_ok r | _ => True end.

Lemma tracked_end L w d : tracked L w d → ledger_end L = wr_sequence w.
Proof.
  intros [_ _ _ _ _ Hl (fl & lg & _ & _ & Hin & _) _]. destruct L as [|[fl' lg'] L]; [by apply elem_of_nil in Hin|].
  apply Forall_cons in Hl as [[_ Hl] _]. exact Hl.
Qed.

(** ** Requests *)

(** The replies to a request; an append is acknowledged with the next sequence. *)
Definition numbered (L : Ledger) (reply : option WReply) : Prop :=
  match reply with Some (Compacted _) => False | Some (Appended (Ok n)) => n = ledger_end L + 1 | _ => True end.
(** What handling a request leaves, with its reply if it was sent. *)
Definition handle_post (L : Ledger) (r : WRequest) (W W' : World) (x : Exit Handled) : Prop :=
  ∃ reply, numbered L reply ∧ sent W' = sent W ++ option_list reply ∧
    match x with
    | Return (Next w') | Return (Skip w') => tracked (after_request L r reply) w' (disk W')
    | _ => covered (after_request L r reply) (disk W')
    end.

Lemma answer_append_ok L w (m : IO (Writer * Z)) W r b :
  ledger_end L = wr_sequence w → after_request L r = after_append_request L b → silent m → wp m W (append_post L w b) →
  wp (handled (answer_append w m)) W (handle_post L r W).
Proof.
  intros Hend Er Hq Hm. apply wpd_bind, wpd_bind, wpd_attempt. eapply wpd_mono; [by apply wpd_silent|].
  intros W' [[w' n]|e|] [Hx Hs]; cbn [next].
  - intros fs. cbn. destruct Hx as [Hn Hx]. exists (Some (Appended (Ok n))). rewrite Er, Hs. cbn. by rewrite Hend.
  - intros fs. cbn. exists (Some (Appended (Err e))). split; [done|]. split; [by rewrite Hs|]. rewrite Er. cbn.
    assert (∀ w', tracked L w' (disk W') → covered L (disk W')) as Hcov by (intros ?; apply tracked_covered).
    destruct e as [| |[]| | | | | | | | | |]; cbn; try exact Hx; by eapply Hcov.
  - exists None. split; [done|]. split; [by rewrite app_nil_r|]. rewrite Er. exact Hx.
Qed.
Lemma answer_install_ok L w (m : IO Writer) W r sequence snapshot :
  after_request L r = after_install_request L sequence snapshot → silent m → wp m W (install_post L w sequence snapshot) →
  wp (handled (answer_install w m)) W (handle_post L r W).
Proof.
  intros Er Hq Hm. apply wpd_bind, wpd_bind, wpd_attempt. eapply wpd_mono; [by apply wpd_silent|].
  intros W' [w'|e|] [Hx Hs]; cbn [next].
  - intros fs. cbn. exists (Some (Installed (Ok tt))). split; [done|]. split; [by rewrite Hs|]. by rewrite Er.
  - intros fs. cbn. exists (Some (Installed (Err e))). split; [done|]. split; [by rewrite Hs|]. rewrite Er. cbn.
    destruct e; cbn; exact Hx.
  - exists None. split; [done|]. split; [by rewrite app_nil_r|]. by rewrite Er.
Qed.

Lemma out_of_order_ok L w W r b :
  after_request L r = after_append_request L b → tracked L w (disk W) →
  wp (_ ← send (Appended (Err AofSequence)); mret (Skip w)) W (handle_post L r W).
Proof. intros Er Ht fs. cbn. exists (Some (Appended (Err AofSequence))). split; [done|]. split; [done|]. by rewrite Er. Qed.

Lemma attach_journal_ok L w W journal :
  tracked L w (disk W) →
  wp (w ← attach_journal w journal; mret (Next w)) W (handle_post L (WJournal journal) W).
Proof.
  intros Ht. assert (∀ j, tracked L (with_journal w j) (disk W)) as Hj.
  { intros j. destruct Ht as [? ? ? ? ? ? ? Hc]. split; try done. intros c Ec. by destruct (Hc c Ec); split. }
  apply wpd_bind. unfold attach_journal. apply wpd_bind, wpd_get_journal. cbn [next].
  destruct (match journals W !! journal with Some _ => _ | None => _ end).
  - apply wpd_bind. eapply wpd_mono; [apply wpd_silent; [apply close_journal_silent|]|].
    { apply (close_journal_ok _ _ (λ W' x, disk W' = disk W ∧ (x = Return tt ∨ x = Died))). auto. }
    intros W' x [[Ed [->| ->]] Hs]; cbn [next].
    + intros fs. cbn. intros fs'. cbn. exists (Some (Attached (Ok tt))). split; [done|]. cbn. rewrite Hs. split; [done|].
      by rewrite Ed.
    + exists None. split; [done|]. cbn. rewrite Hs, app_nil_r. split; [done|]. rewrite Ed. by eapply tracked_covered.
  - intros fs. cbn. intros fs'. cbn. exists (Some (Attached (Err AofSequence))). by split.
Qed.

Lemma handle_ok pid clock L w W r :
  bool_decide (p = MemoryProfile) = memory_profile cfg →
  tracked L w (disk W) → wrequest_ok r → wp (handle pid clock w r) W (handle_post L r W).
Proof.
  intros Hpr Ht Hr. pose proof (tracked_end _ _ _ Ht) as Hend. pose proof (tracked_covered _ _ _ Ht) as Hcov.
  destruct r as [o ms|sequence o ms|batch|sequence batch| |snapshot| |snapshot sequence metadata|snapshot sequence metadata|journal];
    cbn [handle wrequest_ok] in *.
  - eapply answer_append_ok; [done|done|apply writer_append_memory_silent|by apply writer_append_memory_ok].
  - destruct (follows w sequence); [|by eapply out_of_order_ok].
    eapply answer_append_ok; [done|done|apply writer_append_memory_silent|by apply writer_append_memory_ok].
  - eapply answer_append_ok; [done|done|apply writer_append_silent|by apply writer_append_ok].
  - destruct (follows w sequence); [|by eapply out_of_order_ok].
    eapply answer_append_ok; [done|done|apply writer_append_silent|by apply writer_append_ok].
  - apply wpd_bind, wpd_attempt. eapply wpd_mono.
    { apply wpd_silent; [apply writer_sync_silent|].
      apply (writer_sync_ok (λ W' x, match x with
        | Return w' => wr_sequence w' = wr_sequence w ∧ tracked (raising (wr_sequence w) L) w' (disk W')
        | _ => covered L (disk W') end) L); [done|by intros W' []|].
      intros W' x [Hx|Hx] [->| ->]; by eapply tracked_covered. }
    intros W' [w'|e|] [Hx Hs]; cbn [next].
    + destruct Hx as [Hseq Hx]. intros fs. cbn. exists (Some (Flushed (Ok (wr_sequence w')))). rewrite Hs, Hseq. by split_and!.
    + intros fs. cbn. exists (Some (Flushed (Err e))). rewrite Hs. by split_and!.
    + exists None. rewrite Hs, app_nil_r. by split_and!.
  - destruct Hr as [Hok Hz]. assert (zlen snapshot < 2 ^ 64) as Hz' by (unfold zlen in *; by rewrite length_fmap in Hz).
    apply wpd_bind. eapply wpd_mono; [by apply begin_compaction_ok|]. intros W' x (w' & -> & Hseq & Hx). apply wpd_ret.
    destruct Hx as [[Hs Hx]|(e & Hs & Hx)].
    + exists None. rewrite Hs, app_nil_r. split; [done|]. split; [done|]. cbn. by rewrite Hend.
    + exists (Some (Refused e)). by rewrite Hs.
  - intros fs. cbn. exists (Some (StatusIs (wr_sequence w) (wr_bytes_since_compact w) (bool_decide (is_Some (wr_compaction w))))). by split_and!.
  - destruct Hr as ((Hok & Hz) & ? & ?). eapply (answer_install_ok _ _ _ _ _ sequence (from_storage <$> snapshot)); [done|..]; unfold install_snapshot;
      (destruct (memory_profile (wr_config w)); [|]); [done|apply install_profile_snapshot_silent|by apply wpd_raise|by apply install_ok].
  - destruct Hr as ((Hok & Hz) & ? & ?). eapply (answer_install_ok _ _ _ _ _ sequence snapshot); [done|..]; unfold install_memory_snapshot;
      (destruct (memory_profile (wr_config w)); [|]); [apply install_profile_snapshot_silent|done|by apply install_ok|by apply wpd_raise].
  - by apply attach_journal_ok.
Qed.

(** ** Iterations *)

Lemma upkeep_ok L w W elapsed :
  tracked L w (disk W) →
  wp (upkeep w elapsed) W (λ W' x, ∃ rs, (rs = [] ∨ ∃ r, rs = [Compacted r]) ∧ sent W' = sent W ++ rs ∧
    match x with
    | Return (Runs w') => tracked (after_compaction L rs) w' (disk W')
    | _ => covered (after_compaction L rs) (disk W')
    end).
Proof.
  intros Ht. apply wpd_bind. eapply (wpd_mono _ _ (λ W' x, match x with Return w' => tracked L w' (disk W') | _ => covered L (disk W') end
    ∧ sent W' = sent W)).
  { pose proof (tracked_covered _ _ _ Ht) as Hcov. destruct (aof_sync (wr_config w)); [by apply wpd_ret|].
    destruct (wr_dirty w && elapsed); [|by apply wpd_ret]. apply wpd_silent; [apply writer_sync_silent|].
    apply (writer_sync_ok _ L); [done|by intros W' []|]. intros W' x [Hx|Hx] [->| ->]; by eapply tracked_covered. }
  intros W' [w'|e|] [Hx Hs]; cbn [next]; [|by exists []; rewrite app_nil_r; auto..].
  apply wpd_bind. eapply wpd_mono; [by apply finish_compaction_ok|]. intros W'' [w''|e|] Hf; cbn [next finish_post] in *.
  - apply wpd_ret. destruct Hf as [_ [[Hs' Hf]|(r & Hs' & Hf)]].
    + exists []. rewrite Hs', Hs, app_nil_r. auto.
    + exists [Compacted r]. rewrite Hs', Hs. split; [eauto|]. split; [done|]. destruct r as [[]|e]; cbn; [|done].
      by rewrite (tracked_end _ _ _ Hx).
  - destruct Hf as [Hf (e' & Hs')]. exists [Compacted (Err e')]. rewrite Hs', Hs. split; [eauto|]. by split.
  - destruct Hf as [Hf Hs']. exists []. rewrite Hs', Hs, app_nil_r. auto.
Qed.

Definition iteration_post (L : Ledger) (i : Input) (W W' : World) (x : Exit Running) : Prop :=
  ∃ rs, sent W' = sent W ++ rs ∧ numbered L (own_reply rs) ∧
    match x with
    | Return (Runs w') => tracked (ledger_step L i rs) w' (disk W')
    | _ => covered (ledger_step L i rs) (disk W')
    end.

Lemma own_reply_app L reply rs :
  numbered L reply → rs = [] ∨ (∃ r, rs = [Compacted r]) → own_reply (option_list reply ++ rs) = reply.
Proof. by intros Hr [->|[r ->]]; destruct reply as [[]|]. Qed.
Lemma after_compaction_own L L' reply rs :
  numbered L' reply → after_compaction L (option_list reply ++ rs) = after_compaction L rs.
Proof. by destruct reply as [[]|]. Qed.

Lemma iteration_ok pid clock L w W i elapsed :
  bool_decide (p = MemoryProfile) = memory_profile cfg → tracked L w (disk W) → input_ok i →
  wp (iteration pid clock w i elapsed) W (iteration_post L i W).
Proof.
  intros Hpr Ht Hi. destruct i as [r| | |]; cbn [iteration input_ok] in *.
  - apply wpd_bind. eapply wpd_mono; [by apply handle_ok|]. intros W' x (reply & Hre & Hs & Hx).
    assert (∀ rs, rs = [] ∨ (∃ c, rs = [Compacted c]) →
      ledger_step L (Received r) (option_list reply ++ rs) = after_compaction (after_request L r reply) rs) as Estep.
    { intros rs Hrs. unfold ledger_step. by rewrite (own_reply_app L), (after_compaction_own _ L). }
    assert (ledger_step L (Received r) (option_list reply) = after_request L r reply) as Estep0
      by (rewrite <- (app_nil_r (option_list reply)), Estep by auto; done).
    assert (numbered L (own_reply (option_list reply))) as Hre0 by (pose proof (own_reply_app L reply [] Hre) as E; rewrite app_nil_r in E; rewrite E; auto).
    destruct x as [[w'|w'|]|e|]; cbn [next].
    + eapply wpd_mono; [by apply upkeep_ok|]. intros W'' x (rs & Hrs & Hs' & Hx'). exists (option_list reply ++ rs).
      rewrite Hs', Hs, <- app_assoc, Estep, (own_reply_app L) by done. by split.
    + apply wpd_ret. exists (option_list reply). by rewrite Estep0.
    + apply wpd_ret. exists (option_list reply). by rewrite Estep0.
    + exists (option_list reply). by rewrite Estep0.
    + exists (option_list reply). by rewrite Estep0.
  - eapply wpd_mono; [by apply upkeep_ok|]. intros W' x (rs & Hrs & Hs & Hx). exists rs. split; [done|]. split; [|done].
    by destruct Hrs as [->|[c ->]].
  - assert (∀ W', sent W' = sent W → covered L (disk W') → ∀ x, (∀ w', x ≠ Return (Runs w')) → iteration_post L Closed W W' x) as Hend.
    { intros W' Hs Hc x Hx. exists []. rewrite app_nil_r. do 2 (split; [done|]). destruct x as [[w'|r]|e|]; try done. by destruct (Hx w'). }
    apply wpd_bind. eapply wpd_mono.
    { apply wpd_silent; [apply writer_sync_silent|].
      apply (writer_sync_ok (λ W' x, covered L (disk W')) L); [done| |].
      - intros W' [_ Hx]. by eapply tracked_covered.
      - intros W' x [Hx|Hx] _; by eapply tracked_covered. }
    intros W' [w'|e|] [Hx Hs]; cbn [next]; [|by apply Hend..]. apply wpd_bind.
    eapply wpd_mono; [apply wpd_silent; [apply close_journal_silent|]|].
    { apply (close_journal_ok _ _ (λ W'' x, disk W'' = disk W' ∧ (x = Return tt ∨ x = Died))). auto. }
    intros W'' x [[Ed [->| ->]] Hs']; cbn [next]; [apply wpd_ret|]; apply Hend; rewrite ?Hs', ?Ed; done.
  - apply wpd_bind. eapply wpd_mono; [apply wpd_silent; [apply producer_step_silent|by apply producer_step_ok]|].
    intros W' [w'|e|] [Hx Hs]; cbn [next]; [apply wpd_ret|..]; exists []; by rewrite app_nil_r.
Qed.

Lemma run_ok pid clock L w W inputs :
  bool_decide (p = MemoryProfile) = memory_profile cfg → tracked L w (disk W) → Forall (λ e, input_ok e.1) inputs →
  wp (run pid clock w inputs) W (λ W' x, ∃ replies, (length replies <= length inputs)%nat ∧ sent W' = sent W ++ mjoin replies ∧
    match x with
    | Return (Runs w') => length replies = length inputs ∧ tracked (ledger_after L inputs.*1 replies) w' (disk W')
    | _ => covered (ledger_after L inputs.*1 replies) (disk W')
    end).
Proof.
  intros Hpr Ht Hok. revert L w W Ht. induction Hok as [|[i elapsed] inputs Hi Hok IH]; intros L w W Ht; cbn [run].
  { apply wpd_ret. exists []. rewrite app_nil_r. by split_and!. }
  apply wpd_bind. eapply wpd_mono; [by apply iteration_ok|]. intros W' x (rs & Hs & _ & Hx).
  assert (covered (ledger_step L i rs) (disk W') → (∃ replies : list (list WReply),
    (length replies <= S (length inputs))%nat ∧ sent W' = sent W ++ mjoin replies ∧
    covered (ledger_after L ((i, elapsed) :: inputs).*1 replies) (disk W'))) as Hstop.
  { intros Hc. exists [rs]. split; [cbn; lia|]. split; [rewrite Hs; cbn; by rewrite app_nil_r|]. cbn. by destruct inputs. }
  destruct x as [[w'|r]|e|]; cbn [next]; [|apply wpd_ret|..]; [|by apply Hstop..].
  eapply wpd_mono; [by apply IH|]. intros W'' x (replies & Hlen & Hs' & Hx').
  exists (rs :: replies). split; [cbn; lia|]. split; [rewrite Hs', Hs; cbn; by rewrite <- app_assoc|].
  destruct x as [[w''|r]|e|]; cbn; [|done..]. destruct Hx' as [-> Hx']. by split.
Qed.
End Ledger.
Arguments acknowledging : clear implicits.
Arguments holds : clear implicits.
Arguments after_append_request : clear implicits.
Arguments after_request : clear implicits.
Arguments ledger_step : clear implicits.
Arguments ledger_after : clear implicits.
