(* ===== verification/Opening.v ===== *)
(** * Opening a directory

    What a failure of the machine leaves of a covered disk is covered, and opening it
    ([load_profile] of Writer.v) recovers one of the histories of the ledger, at or after
    the sequence that was safe in it; a death while opening loses nothing. *)

From Stdlib Require Import Strings.Byte Strings.String ZArith Lia.
From S2P Require Import Prelude Float Wire Score Memory Command Store StoreInv StoreSpec Mutation StoreExec Replay Routing Format MemoryFormat Profile MemoryLifecycle Decoded Protocol Journal Recovery RecoverySpec Disk Writer Ledgers WriterSpec.

#[local] Open Scope Z_scope.
#[local] Opaque snapshot_digest.
#[local] Arguments generation_path : simpl never.
#[local] Arguments wp : simpl never.

(** ** Failures of the machine *)

Section Crash.
Context {p : Profile} {cfg : AofConfig}.

Lemma text_take_le k k' x : (k <= k')%nat → (length (text_bytes (text_take k x)) <= length (text_bytes (text_take k' x)))%nat.
Proof.
  intros Hk. apply prefix_length. replace (text_take k x) with (text_take k (text_take k' x)); [apply text_take_prefix|].
  unfold text_take. cbn. f_equal. rewrite take_take. f_equal. lia.
Qed.

Lemma text_take_S k x enc :
  tx_batches x !! k = Some enc → text_bytes (text_take (S k) x) = text_bytes (text_take k x) ++ enc.
Proof.
  intros He. unfold text_bytes, log_bytes. cbn. rewrite (take_S_r _ _ _ He), join_app, join_cons, join_nil, app_nil_r.
  by rewrite !app_assoc.
Qed.

Lemma good_remains L i c : good p cfg L i → remains i c → good p cfg L {| i_data := c; i_durable := c |}.
Proof.
  intros (floor & lg & k & x & Hin & Hx & Hfl & [Hp Hf] & [Hp' Hf']) [Hc Hall].
  set (b := text_bytes (text_take (Z.to_nat (floor - lg_base lg)) x)) in *.
  assert (∀ d, d `prefix_of` text_bytes x → (length b <= length d)%nat → b `prefix_of` d) as Hb.
  { intros d Hd Hl. destruct (prefix_weak_total b d (text_bytes x) (text_take_prefix _ x) Hd) as [?|Hdb]; [done|].
    rewrite (prefix_length_eq d b); [done|done|lia]. }
  assert (reaches (lg_base lg) floor x c) as Hr.
  { split; [by destruct Hc; etrans|]. apply prefix_length, Hall; by apply Hb. }
  by exists floor, lg, k, x.
Qed.

Lemma crashed_covered L d d' : covered p cfg L d → crashed d d' → covered p cfg L d'.
Proof.
  intros [Hok (g & Hg & He & Hs & Hall)] [Hi Hn Hsaved].
  assert (∀ name id, entries d' !! name = Some id → entries d !! name = Some id ∨ saved d !! name = Some id) as Hname.
  { intros name id E. destruct (Hn name) as [E'|E']; rewrite E' in E; auto. }
  split.
  - intros name id. rewrite Hsaved. intros E. assert (entries d' !! name = Some id) as E' by by destruct E.
    destruct (Hok name id (Hname _ _ E')) as [? [i Hid]]. split; [done|]. specialize (Hi id). rewrite Hid in Hi.
    destruct Hi as (c & -> & _). done.
  - exists g. split; [done|]. rewrite Hsaved. assert (is_Some (entries d' !! generation_path g)) as Hsome
      by (destruct (Hn (generation_path g)) as [->| ->]; done).
    do 2 (split; [done|]). intros g' id Hg' E. assert (entries d' !! generation_path g' = Some id) as E' by by destruct E.
    destruct (Hall g' id Hg' (Hname _ _ E')) as (i & Hid & Hgood). specialize (Hi id). rewrite Hid in Hi.
    destruct Hi as (c & -> & Hc). eexists. split; [done|]. by eapply good_remains.
Qed.
End Crash.

(** ** Reading a good file *)

Lemma load_generation_header p cfg sc clock file s meta incomplete :
  load_generation p cfg sc clock file = Some (Ok (s, meta, incomplete)) →
  ∃ h rest, profile_read_header p file = Ok (h, rest) ∧ rm_replication meta = h_replication h.
Proof.
  unfold load_generation. destruct (with_config 0 sc); cbn [map_err fallible_bind]; [|done].
  destruct (profile_read_header p file) as [[h rest]|[]]; cbn [fallible_bind]; try done; [|by destruct (_ && _)].
  destruct (negb _); [done|]. destruct (load_loop _ _ _ _ _ _ _ _ _ _) as [[[st inc]|e]|]; cbn [fallible_bind]; [|done..].
  destruct (negb _); [done|]. intros [= _ <- _]. by exists h, rest.
Qed.

Section Open.
Context {p : Profile} {cfg : AofConfig} (sc : StoreConfig) (clock : nat → Sample) (permits : Z).
Context (Hcfg : AofConfig_validate permits cfg = Ok tt) (Hsc : StoreConfig_validate sc = Ok tt).
Context (Htotal : shard_count (aof_layout cfg) <= max_dataset_bytes sc) (Hclock : ∀ n, clock_ok (clock n)).
Context (Hprofile : bool_decide (p = MemoryProfile) = memory_profile cfg).

(** What recovery reads from a file that holds [log_take k lg]. *)
Definition reads (lg : Log) (k : nat) (x : Text) (b : bytes) : Prop :=
  match log_dataset p cfg sc clock (log_take k lg) with
  | Some m => ∃ s meta incomplete, load_generation p cfg sc clock b = Some (Ok (s, meta, incomplete)) ∧
      recovered_ok (aof_layout cfg) (max_dataset_bytes sc) s (rm_shard_usage meta) ∧ persisted s = m ∧
      rm_sequence meta = lg_base lg + Z.of_nat k ∧ rm_valid_bytes meta = zlen (text_bytes x) ∧
      (incomplete = true ↔ zlen (text_bytes x) < zlen b) ∧ replication_ok (rm_replication meta)
  | None => ∃ e, load_generation p cfg sc clock b = Some (Err e)
  end.

Lemma log_take_take k k' lg : (k <= k')%nat → log_take k (log_take k' lg) = log_take k lg.
Proof. intros Hk. unfold log_take. cbn. f_equal. rewrite take_take. f_equal. lia. Qed.

Lemma read_good L i :
  good p cfg L i → zlen (i_data i) < 2 ^ 60 →
  ∃ floor lg k x, (floor, lg) ∈ L ∧ floor <= lg_base lg + Z.of_nat k ∧ (k <= length (lg_batches lg))%nat ∧
    text_of p cfg (log_take k lg) x ∧ text_bytes x `prefix_of` i_data i ∧ reads lg k x (i_data i) ∧
    good p cfg L {| i_data := text_bytes x; i_durable := i_durable i |}.
Proof.
  intros (floor & lg & k0 & x & Hin & Hx & Hfl & [[rest Hp] Hf] & Hdur) Hz. set (n := length (i_data i)) in *.
  assert (take n (text_bytes x) = i_data i) as Edata by (rewrite Hp; unfold n; by rewrite take_app_length).
  destruct (load_sealed p cfg sc clock permits (log_take k0 lg) (tx_head x) (tx_snapshot x) (tx_seal x) (tx_batches x) n)
    as (k & Hk & Hle & Hlt & Hload); [done..| | |].
  { etrans; [|exact Hf]. unfold text_bytes, log_bytes. cbn. rewrite !length_app. lia. }
  { fold (text_bytes x). by rewrite Edata. }
  fold (text_bytes x) in Hload. rewrite Edata in Hload.
  assert (length (tx_batches x) = length (take k0 (lg_batches lg))) as Eb
    by (pose proof (text_batches _ _ Hx) as E; unfold zlen in E; cbn in E; lia).
  rewrite length_take in Eb. rewrite log_take_take in Hload by lia. change (lg_base (log_take k0 lg)) with (lg_base lg) in Hload.
  assert (floor <= lg_base lg + Z.of_nat k) as Hfk.
  { destruct (decide (floor <= lg_base lg + Z.of_nat k)) as [|Hn]; [done|]. exfalso.
    destruct (lookup_lt_is_Some_2 (tx_batches x) k) as [enc He]; [unfold zlen in Hfl; lia|]. specialize (Hlt enc He).
    pose proof (text_take_le (S k) (Z.to_nat (floor - lg_base lg)) x ltac:(lia)) as Hs.
    rewrite (text_take_S _ _ _ He), length_app in Hs. change (log_bytes _ _ _ (take k (tx_batches x))) with (text_bytes (text_take k x)) in Hlt. lia. }
  exists floor, lg, k, (text_take k x). split; [done|]. split; [done|]. split; [lia|].
  assert (text_of p cfg (log_take k lg) (text_take k x)) as Hxk.
  { rewrite <- (log_take_take k k0) by lia. by apply log_file_take. }
  assert (text_bytes (text_take k x) `prefix_of` i_data i) as Hpre.
  { rewrite <- Edata. destruct (text_take_prefix k x) as [tail ->]. rewrite take_app_ge by done. by apply prefix_app_r. }
  split; [done|]. split; [done|]. split.
  - unfold reads. destruct (log_dataset _ _ _ _ _) as [m|]; [|done].
    destruct Hload as (s & meta & incomplete & Hl & Hro & Hm & Hseq & Hv & Hinc). exists s, meta, incomplete.
    do 4 (split; [done|]). split; [done|]. rewrite Hv in Hinc. split; [done|].
    destruct (load_generation_header _ _ _ _ _ _ _ _ Hl) as (h & hrest & Hh & ->). pose proof Hx as [Hb Hlast (rep & Hr & Hw) _ _ _ _ _].
    cbn in Hb, Hlast. pose proof (zlen_nonneg (take k0 (lg_batches lg))).
    destruct (profile_header_ok p (lg_base lg) _ rep (tx_head x) (drop (length (tx_head x)) (i_data i)) ltac:(lia) Hr Hw) as [v Hv'].
    assert (tx_head x ++ drop (length (tx_head x)) (i_data i) = i_data i) as Eh.
    { destruct Hpre as [tail ->]. unfold text_bytes, log_bytes. cbn. rewrite <- !app_assoc, drop_app_length. done. }
    rewrite Eh, Hh in Hv'. injection Hv' as -> _. done.
  - exists floor, lg, k0, x. do 3 (split; [done|]). split; [|done]. split; [apply text_take_prefix|]. apply text_take_le. lia.
Qed.

(** ** The steps of opening *)

Lemma newest_ok gs :
  gs ≠ [] → default 0 (last (merge_sort Z.le gs)) ∈ gs ∧ ∀ g, g ∈ gs → g <= default 0 (last (merge_sort Z.le gs)).
Proof.
  intros Hne. pose proof (merge_sort_Permutation Z.le gs) as Hp. pose proof (StronglySorted_merge_sort Z.le gs) as Hs.
  set (l := merge_sort Z.le gs) in *. destruct (last l) as [g|] eqn:El.
  2:{ apply last_None in El. rewrite El in Hp. apply Permutation_nil in Hp. by destruct Hne. }
  apply last_Some in El as [l' El]. cbn. split.
  - rewrite <- Hp, El. apply elem_of_app. right. by left.
  - intros g'. rewrite <- Hp, El. rewrite El in Hs. intros [Hin|Hin]%elem_of_app; [|apply list_elem_of_singleton in Hin; lia].
    pose proof (StronglySorted_app_1_elem_of Z.le l' [g] g' g Hs Hin ltac:(by left)) as Hle. exact Hle.
Qed.

Lemma open_file_ok name id W Φ :
  entries (disk W) !! name = Some id → Φ W (Return id) → Φ W (Raise AofIo) → Φ W Died → wp (open_file name) W Φ.
Proof.
  intros He Hok Hr Hd. apply wpd_bind, wpd_get_disk, wpd_bind, wpd_probe; [|done..]. cbn. rewrite He. by apply wpd_ret.
Qed.
(** A step that leaves every generation as it is and may end in any way. *)
Definition harmless {A} (m : IO A) (W : World) : Prop := wp m W (λ W' _, beside (disk W) (disk W')).
Lemma harmless_bind {A B} (m : IO A) (k : A → IO B) W L Φ :
  harmless m W → covered p cfg L (disk W) →
  (∀ W' a, beside (disk W) (disk W') → wp (k a) W' Φ) → (∀ W' x, (∀ b, x ≠ Return b) → covered p cfg L (disk W') → Φ W' x) →
  wp (m ≫= k) W Φ.
Proof.
  intros Hm Hc Hk Hbad. apply wpd_bind. eapply wpd_mono; [exact Hm|]. intros W' [a|e|] Hf; cbn [next]; [by apply Hk|..];
    (apply Hbad; [done|by eapply covered_frame]).
Qed.
Lemma harmless_probe W : disk_ok (disk W) → harmless probe W.
Proof. intros Hd. apply wpd_probe; by apply frame_refl. Qed.
Lemma harmless_ret {A} (a : A) W : disk_ok (disk W) → harmless (mret a) W.
Proof. intros Hd. apply wpd_ret. by apply frame_refl. Qed.
Lemma harmless_seq {A B} (m : IO A) (k : A → IO B) W :
  harmless m W → (∀ W' a, beside (disk W) (disk W') → harmless (k a) W') → harmless (m ≫= k) W.
Proof.
  intros Hm Hk. apply wpd_bind. eapply wpd_mono; [exact Hm|]. intros W' [a|e|] Hf; [|done..]. cbn [next].
  eapply wpd_mono; [by apply Hk|]. intros W'' x Hf'. by eapply frame_trans.
Qed.
Lemma harmless_create name W : disk_ok (disk W) → apart name → harmless (create_new name) W.
Proof.
  intros Hd Ha. apply wpd_bind, wpd_get_disk. cbn [next]. destruct (entries (disk W) !! name); [apply wpd_raise; by apply frame_refl|].
  apply wpd_bind, wpd_atomic; [apply wpd_ret|..]; first [by apply frame_refl|by apply frame_create].
Qed.
Lemma harmless_lock locked W : disk_ok (disk W) → harmless (acquire_lock locked true) W.
Proof.
  intros Hd. apply harmless_seq.
  - apply wpd_bind, wpd_get_disk. cbn [next]. destruct (entries (disk W) !! lit "writer.lock") eqn:E.
    + eapply open_file_ok; [exact E|by apply frame_refl..].
    + apply harmless_create; [done|]. by intros [=].
  - intros W' _ Hf. destruct locked; [apply wpd_raise|apply harmless_probe]; [apply frame_refl|]; apply Hf.
Qed.
Lemma harmless_residues residues W : disk_ok (disk W) → Forall apart residues → harmless (remove_residues residues) W.
Proof.
  intros Hd Hall. revert W Hd. induction Hall as [|name residues Ha Hall IH]; intros W Hd; cbn [remove_residues]; [by apply harmless_ret|].
  apply harmless_seq; [|intros W' _ Hf; apply IH, Hf]. apply wpd_bind, wpd_get_disk. cbn [next].
  destruct (entries (disk W) !! name); [|apply wpd_raise; by apply frame_refl].
  apply wpd_atomic; first [by apply frame_refl|by apply frame_remove].
Qed.

Lemma opened_sync g f d : opened g f d → opened g f (sync_entries d).
Proof. intros [Hd ? ? ? Hn]. split; cbn; [by apply sync_entries_ok|done..|]. intros g' Hg'. by destruct (Hn g' Hg'). Qed.
Lemma truncate_inode_eq f i d n :
  inodes d !! f = Some i → truncate_inode f n d = set_inode f {| i_data := take (Z.to_nat n) (i_data i); i_durable := i_durable i |} d.
Proof. intros Hi. unfold truncate_inode. by rewrite Hi. Qed.

Lemma tail_path_ok {B} pid g (k : bytes → IO B) W Φ :
  (∀ W' name, disk W' = disk W → apart name → wp (k name) W' Φ) → wp (tail_path pid g ≫= k) W Φ.
Proof. intros Hk. apply wpd_bind, wpd_bind. intros fs. cbn. apply wpd_ret, Hk; [done|]. by intros [=]. Qed.

Definition text_inode (x : Text) : Inode := {| i_data := text_bytes x; i_durable := text_bytes x |}.
Lemma repair_tail_ok L pid g f W i x Φ :
  opened g f (disk W) → inodes (disk W) !! f = Some i → good p cfg L i →
  good p cfg L {| i_data := text_bytes x; i_durable := i_durable i |} → text_bytes x `prefix_of` i_data i →
  (∀ W', opened g f (disk W') → inodes (disk W') !! f = Some (text_inode x) → Φ W' (Return tt)) →
  (∀ W' z, (∀ a, z ≠ Return a) → covered p cfg L (disk W') → Φ W' z) →
  wp (repair_tail pid g f (generation_path g) (zlen (text_bytes x))) W Φ.
Proof.
  intros Ho Hi Hgood Hcut [tail Hpre] Hdone Hbad. apply tail_path_ok. intros W0 backup Ed Hapart.
  rewrite <- Ed in Ho, Hi.
  assert (covered p cfg L (disk W0)) as Hcov by by eapply opened_covered.
  apply wpd_bind. eapply open_file_ok; [apply Ho|cbn [next]|by apply Hbad..].
  destruct (frame_create backup (disk W0) (op_ok _ _ _ Ho) Hapart) as [Hf Hp]. set (t := fresh_inode (disk W0)) in *.
  set (W1 := on_disk (create_inode backup) W0) in *.
  assert (∀ j, beside (disk W0) (disk (at_file t j W1))) as Hbeside.
  { intros j. eapply frame_trans; [exact Hf|]. apply (frame_at_file t W1); [apply Hf|exact Hp]. }
  apply wpd_create; [|by apply Hbad..|apply Hbad; [done|by eapply covered_frame]]. intros _. fold t W1.
  apply wpd_bind, wpd_get_disk. cbn [next]. apply wpd_bind.
  eapply wpd_mono; [apply writes_write|]. intros W2 z (j & -> & Hz).
  destruct z as [[]|e|]; cbn [next]; [|by apply Hbad; [|eapply covered_frame]..]. subst j. apply wpd_bind.
  eapply wpd_mono; [apply writes_sync|]. intros W2 z (j & -> & _).
  destruct z as [[]|e|]; cbn [next]; [|by apply Hbad; [|eapply covered_frame]..]. set (W2 := at_file t j W1).
  assert (opened g f (disk W2)) as Ho2 by (eapply opened_frame; [exact Ho|apply Hbeside]).
  assert (inodes (disk W2) !! f = Some i) as Hi2 by (rewrite (fr_inodes _ _ (Hbeside j) g); [done|left; apply Ho]). clearbody W2.
  assert (covered p cfg L (disk W2)) as Hcov2 by by eapply opened_covered.
  apply wpd_bind, wpd_atomic; cbn [next]; [|by apply Hbad..|apply Hbad; [done|by apply covered_sync]].
  set (W3 := on_disk sync_entries W2). assert (opened g f (disk W3)) as Ho3 by by apply opened_sync.
  change (inodes (disk W2)) with (inodes (disk W3)) in Hi2. clearbody W3.
  assert (covered p cfg L (disk W3)) as Hcov3 by by eapply opened_covered.
  assert (truncate_inode f (zlen (text_bytes x)) (disk W3)
    = set_inode f {| i_data := text_bytes x; i_durable := i_durable i |} (disk W3)) as Etrunc.
  { rewrite (truncate_inode_eq _ i) by done. unfold zlen. by rewrite Nat2Z.id, Hpre, take_app_length. }
  assert (covered p cfg L (truncate_inode f (zlen (text_bytes x)) (disk W3))) as Hcov4.
  { rewrite Etrunc. eapply opened_covered; [by apply opened_set|apply lookup_insert_eq|done]. }
  assert (good p cfg L (text_inode x)) as Htext.
  { eapply good_remains; [exact Hcut|]. split; [by left|]. by intros b. }
  apply wpd_bind, wpd_atomic; cbn [next]; [|by apply Hbad..].
  assert (sync_inode f (truncate_inode f (zlen (text_bytes x)) (disk W3)) = set_inode f (text_inode x) (disk W3)) as Esync.
  { rewrite Etrunc. erewrite sync_inode_eq by apply lookup_insert_eq. by rewrite set_set_inode. }
  assert (opened g f (set_inode f (text_inode x) (disk W3))) as Ho4 by by apply opened_set.
  apply wpd_atomic; cbn; [|by apply Hbad..|].
  - apply Hdone; cbn; rewrite Esync; [done|apply lookup_insert_eq].
  - apply Hbad; [done|]. cbn. rewrite Esync. eapply opened_covered; [done|apply lookup_insert_eq|done].
Qed.

(** ** Opening a covered directory *)

(** What is seen of the generations is durable, as after a start of the machine. *)
Record settled (d : Disk) : Prop := {
  se_entries g : saved d !! generation_path g = entries d !! generation_path g;
  se_inodes id i : inodes d !! id = Some i → i_durable i = i_data i
}.
Lemma crashed_settled d d' : crashed d d' → settled d'.
Proof.
  intros [Hi _ Hs]. split; [intros g; by rewrite Hs|]. intros id i E. specialize (Hi id). rewrite E in Hi.
  destruct (inodes d !! id); [|done]. destruct Hi as (c & [= ->] & _). done.
Qed.

(** The result is one of the histories, at or after what was safe in it, and the writer
    goes on from there. *)
Definition recovers (L : Ledger) (rc : Recovered) (d : Disk) : Prop :=
  ∃ floor lg k, (floor, lg) ∈ L ∧ floor <= lg_base lg + Z.of_nat k ∧ (k <= length (lg_batches lg))%nat ∧
    log_dataset p cfg sc clock (log_take k lg) = Some (persisted (rc_store rc)) ∧
    recovered_ok (aof_layout cfg) (max_dataset_bytes sc) (rc_store rc) (rm_shard_usage (rc_metadata rc)) ∧
    rm_sequence (rc_metadata rc) = lg_base lg + Z.of_nat k ∧
    tracked p cfg [(lg_base lg + Z.of_nat k, log_take k lg)] (rc_writer rc) d.
Definition load_post (L : Ledger) (W' : World) (x : Exit Recovered) : Prop :=
  match x with Return rc => recovers L rc (disk W') | _ => covered p cfg L (disk W') end.

Lemma listed {A} (m : gmap bytes A) name : name ∈ (map_to_list m).*1 ↔ is_Some (m !! name).
Proof.
  rewrite list_elem_of_fmap. split.
  - intros ([name' a] & -> & Hin%elem_of_map_to_list). by exists a.
  - intros [a Ha]. exists (name, a). split; [done|]. by apply elem_of_map_to_list.
Qed.

(** The generation that is selected, and its file. *)
Lemma select_ok L d gs :
  covered p cfg L d → (∀ g, saved d !! generation_path g = entries d !! generation_path g) → (∀ g, g ∈ gs ↔ 0 <= g < 2 ^ 64 ∧ generation_path g ∈ (map_to_list (entries d)).*1) →
  let g := default 0 (last (merge_sort Z.le gs)) in
  gs ≠ [] ∧ ∃ f i, opened g f d ∧ inodes d !! f = Some i ∧ good p cfg L i.
Proof.
  intros [Hok (g0 & Hg0 & He & Hs & Hall)] Hset Hgs g.
  assert (∀ g', g' ∈ gs ↔ 0 <= g' < 2 ^ 64 ∧ is_Some (entries d !! generation_path g')) as Hiff.
  { intros g'. by rewrite Hgs, listed. }
  assert (g0 ∈ gs) as Hin by by apply Hiff. assert (gs ≠ []) as Hne by (intros ->; by apply elem_of_nil in Hin).
  split; [done|]. destruct (newest_ok gs Hne) as [Hg Hmax]. fold g in Hg, Hmax. apply Hiff in Hg as [Hr [f Hf]].
  specialize (Hmax _ Hin). destruct (Hall g f ltac:(lia) (or_introl Hf)) as (i & Hi & Hgood). exists f, i. split; [|done].
  split; [done|done|done|by rewrite Hset|]. intros g' Hg'. rewrite Hset.
  assert (entries d !! generation_path g' = None) as ->; [|done]. apply eq_None_not_Some. intros Hsome.
  destruct (newest_ok gs Hne) as [_ Hmax']. specialize (Hmax' g'). rewrite Hiff in Hmax'. fold g in Hmax'.
  specialize (Hmax' ltac:(split; [lia|done])). lia.
Qed.

Lemma quota_exists : ∃ q, quota (aof_layout cfg) (max_dataset_bytes sc) 0 = Ok q.
Proof.
  pose proof (aof_config_layout _ _ Hcfg) as Hl. pose proof (validate_count _ Hl). eexists. apply quota_ok; [done|lia|done].
Qed.

(** The writer on a file that holds exactly a history. *)
Lemma recovered_tracked lg k x g f d meta :
  text_of p cfg (log_take k lg) x → (k <= length (lg_batches lg))%nat → opened g f d → inodes d !! f = Some (text_inode x) →
  rm_sequence meta = lg_base lg + Z.of_nat k → replication_ok (rm_replication meta) →
  tracked p cfg [(lg_base lg + Z.of_nat k, log_take k lg)]
    {| wr_config := cfg; wr_profile := p; wr_file := f; wr_generation := g; wr_sequence := rm_sequence meta;
       wr_bytes_since_compact := rm_valid_bytes meta; wr_dirty := false; wr_compaction := None;
       wr_replication := rm_replication meta; wr_journal := None; wr_store_config := sc |} d.
Proof.
  intros Hx Hk Ho Hi Hseq Hr. pose proof (lf_base _ _ _ _ _ _ _ Hx) as Hb. pose proof (lf_last _ _ _ _ _ _ _ Hx) as Hl.
  assert (zlen (lg_batches (log_take k lg)) = Z.of_nat k) as Ez by (unfold zlen; cbn; rewrite length_take; lia).
  rewrite Ez in Hl. cbn in Hb, Hl. split; cbn; try done; [lia| |].
  - constructor; [|constructor]. cbn. unfold zlen in *. cbn in Ez. lia.
  - exists (lg_base lg + Z.of_nat k), (log_take k lg), x, (text_inode x). split; [by left|]. split; [done|]. split; [done|].
    split; [done|]. apply reaches_whole.
Qed.

Lemma selected_ok L d0 d :
  covered p cfg L d0 → settled d0 → beside d0 d →
  let names := (map_to_list (entries d)).*1 in
  ∃ gs f i, let g := default 0 (last (merge_sort Z.le gs)) in
    scan_names false names [] [] = Ok (List.filter is_residue names, gs) ∧ gs ≠ [] ∧ opened g f d ∧
    inodes d !! f = Some i ∧ inodes d0 !! f = Some i ∧ good p cfg L i ∧ covered p cfg L d.
Proof.
  intros Hcov Hset Hf names. assert (covered p cfg L d) as Hc by by eapply covered_frame.
  destruct (scan_names_ok false names [] []) as (gs & -> & Hgs).
  { apply Forall_forall. intros name [id Hid]%listed. eapply (fr_ok _ _ Hf). by left. }
  destruct (select_ok L d gs Hc) as (Hne & f & i & Ho & Hi & Hgood).
  { intros g. rewrite (fr_entries _ _ Hf), (fr_saved _ _ Hf). apply Hset. }
  { done. }
  exists gs, f, i. do 4 (split; [done|]). split; [|done].
  rewrite <- (fr_inodes _ _ Hf (default 0 (last (merge_sort Z.le gs)))); [done|]. left. rewrite <- (fr_entries _ _ Hf). apply Ho.
Qed.

(** What opening does with the selected generation. *)
Definition open_selected (pid g : Z) (residues : list bytes) : IO Recovered :=
  file ← open_file (generation_path g);
  _ ← probe;
  d ← get_disk;
  '(s, metadata, incomplete) ← lift_fallible (load_generation p cfg sc clock (contents file d));
  _ ← remove_residues residues;
  _ ← (if (incomplete : bool) && negb false then repair_tail pid g file (generation_path g) (rm_valid_bytes metadata) else mret tt);
  _ ← probe;
  mret {| rc_store := s; rc_metadata := metadata;
          rc_writer := {| wr_config := cfg; wr_profile := p; wr_file := file; wr_generation := g;
                          wr_sequence := rm_sequence metadata; wr_bytes_since_compact := rm_valid_bytes metadata;
                          wr_dirty := false; wr_compaction := None; wr_replication := rm_replication metadata;
                          wr_journal := None; wr_store_config := sc |} |}.

Lemma open_selected_ok L pid g residues W f i :
  opened g f (disk W) → inodes (disk W) !! f = Some i → good p cfg L i → zlen (i_data i) < 2 ^ 60 → i_durable i = i_data i →
  Forall apart residues → wp (open_selected pid g residues) W (load_post L).
Proof.
  intros Ho Hi Hgood Hz Hdur Hres. assert (covered p cfg L (disk W)) as Hc by by eapply opened_covered.
  assert (∀ W' (z : Exit Recovered), (∀ b, z ≠ Return b) → covered p cfg L (disk W') → load_post L W' z) as Hbad.
  { intros W' [rc|e|] Hz' Hc'; [by destruct (Hz' rc)|done..]. }
  apply wpd_bind. eapply open_file_ok; [apply Ho|cbn [next]|by apply Hbad..].
  eapply harmless_bind; [apply harmless_probe, Hc|exact Hc| |done]. intros W4 _ Hf4.
  assert (opened g f (disk W4) ∧ inodes (disk W4) !! f = Some i ∧ covered p cfg L (disk W4)) as (Ho4 & Hi4 & Hc4).
  { split; [by eapply opened_frame|]. split; [|by eapply covered_frame]. rewrite (fr_inodes _ _ Hf4 g); [done|]. left. apply Ho. }
  apply wpd_bind, wpd_get_disk. cbn [next]. replace (contents f (disk W4)) with (i_data i) by (unfold contents; by rewrite Hi4).
  destruct (read_good L i Hgood Hz) as (floor & lg & k & x & Hin & Hfl & Hk & Hx & Hpre & Hreads & Hcut). unfold reads in Hreads.
  destruct (log_dataset p cfg sc clock (log_take k lg)) as [m|] eqn:Em.
  2:{ destruct Hreads as [e ->]. apply wpd_bind, wpd_raise. by apply Hbad. }
  destruct Hreads as (s & meta & incomplete & -> & Hro & Hm & Hseq & Hv & Hinc & Hrep). apply wpd_bind, wpd_ret. cbn [next].
  eapply harmless_bind; [apply harmless_residues; [apply Hc4|done]|exact Hc4| |done]. intros W5 _ Hf5.
  assert (opened g f (disk W5) ∧ inodes (disk W5) !! f = Some i ∧ covered p cfg L (disk W5)) as (Ho5 & Hi5 & Hc5).
  { split; [by eapply opened_frame|]. split; [|by eapply covered_frame]. rewrite (fr_inodes _ _ Hf5 g); [done|]. left. apply Ho4. }
  assert (∀ W6, opened g f (disk W6) → inodes (disk W6) !! f = Some (text_inode x) →
    wp (_ ← probe;
        mret {| rc_store := s; rc_metadata := meta;
          rc_writer := {| wr_config := cfg; wr_profile := p; wr_file := f; wr_generation := g;
                          wr_sequence := rm_sequence meta; wr_bytes_since_compact := rm_valid_bytes meta; wr_dirty := false;
                          wr_compaction := None; wr_replication := rm_replication meta; wr_journal := None;
                          wr_store_config := sc |} |}) W6 (load_post L)) as Hend.
  { intros W6 Ho6 Hi6. assert (covered p cfg L (disk W6)) as Hc6.
    { eapply opened_covered; [done|done|]. eapply good_remains; [exact Hcut|]. split; [by left|]. by intros b. }
    apply wpd_bind, wpd_probe; [|done..]. apply wpd_ret. exists floor, lg, k. rewrite Em. cbn. rewrite Hm.
    do 6 (split; [done|]). by apply recovered_tracked with x. }
  destruct incomplete; cbn [andb].
  - apply wpd_bind. rewrite Hv in Hend |- *. eapply repair_tail_ok; [done|done|exact Hgood|exact Hcut|done|exact Hend|]. intros W6 z Hz6 Hc6.
    destruct z as [[]|e|]; [by destruct (Hz6 tt)|done..].
  - apply wpd_bind, wpd_ret. cbn [next]. apply Hend; [done|]. rewrite Hi5. f_equal. unfold text_inode.
    assert (i_data i = text_bytes x) as Ed.
    { destruct Hpre as [tail Ed]. rewrite Ed. destruct tail; [by rewrite app_nil_r|]. exfalso.
      rewrite Ed, zlen_app, zlen_cons in Hinc. pose proof (zlen_nonneg tail). assert (false = true); [apply Hinc; lia|done]. }
    destruct i. cbn in *. by rewrite Hdur, Ed.
Qed.

(** The residues of a directory are not generations. *)
Lemma residues_apart names : Forall apart (List.filter is_residue names).
Proof. apply Forall_forall. intros name Hin. apply list_elem_of_In, filter_In in Hin as [_ Hin]. by apply residue_apart. Qed.

(** Opening up to the list of the directory, and from there. *)
Definition open_listed (pid : Z) (names : list bytes) : IO Recovered :=
  '(residues, generations) ← lift_io (scan_names false names [] []);
  let g := default 0 (last (merge_sort Z.le generations)) in
  _ ← (match generations with [] => create_initial pid p cfg (generation_path g) | _ => mret tt end);
  open_selected pid g residues.

Lemma load_listed_ok pid locked W Φ :
  disk_ok (disk W) → (∀ W' x, beside (disk W) (disk W') → (∀ rc, x ≠ Return rc) → Φ W' x) →
  (∀ W', beside (disk W) (disk W') → wp (open_listed pid (map_to_list (entries (disk W'))).*1) W' Φ) →
  wp (load_profile pid clock permits locked false p cfg sc) W Φ.
Proof.
  intros Hd Hbad Hk. unfold load_profile. rewrite Hprofile, Bool.eqb_reflx, Hcfg, Hsc. cbn [negb].
  destruct quota_exists as [q ->]. cbn [map_err lift_io]. do 3 (apply wpd_bind, wpd_ret; cbn [next]).
  apply wpd_bind. eapply wpd_mono; [by apply harmless_probe|]. intros W1 [[]|e|] Hf1; cbn [next]; [|by apply Hbad..].
  apply wpd_bind. eapply wpd_mono; [apply harmless_lock, Hf1|]. intros W2 x Hf2. assert (beside (disk W) (disk W2)) as Hf by by eapply frame_trans.
  destruct x as [[]|e|]; cbn [next]; [|by apply Hbad..].
  apply wpd_bind. eapply wpd_mono; [apply harmless_probe, Hf2|]. intros W3 x Hf3.
  assert (beside (disk W) (disk W3)) as Hf' by by eapply frame_trans.
  destruct x as [[]|e|]; cbn [next]; [|by apply Hbad..]. apply wpd_bind, wpd_get_disk. by apply Hk.
Qed.

Lemma load_covered_ok L pid locked W :
  covered p cfg L (disk W) → settled (disk W) → (∀ id i, inodes (disk W) !! id = Some i → zlen (i_data i) < 2 ^ 60) →
  wp (load_profile pid clock permits locked false p cfg sc) W (load_post L).
Proof.
  intros Hcov Hset Hsize. apply load_listed_ok; [apply Hcov| |].
  { intros W' [rc|e|] Hf Hx; [by destruct (Hx rc)|by eapply covered_frame..]. }
  intros W' Hf. unfold open_listed.
  destruct (selected_ok L (disk W) (disk W')) as (gs & f & i & -> & Hne & Ho & Hi & Hi0 & Hgood & Hc); [done..|].
  apply wpd_bind, wpd_ret. cbn [next]. destruct gs as [|g gs]; [done|]. apply wpd_bind, wpd_ret. cbn [next].
  eapply open_selected_ok; [done..|by eapply Hsize|by eapply Hset|apply residues_apart].
Qed.

(** ** Opening a directory without a generation *)

(** Every generation that may be found holds one of the histories. *)
Record starting (L : Ledger) (d : Disk) : Prop := {
  st_ok : disk_ok d;
  st_found g id : 0 <= g < 2 ^ 64 → entries d !! generation_path g = Some id ∨ saved d !! generation_path g = Some id →
    ∃ i, inodes d !! id = Some i ∧ good p cfg L i
}.
Lemma starting_frame L d d' : starting L d → beside d d' → starting L d'.
Proof.
  intros [Ho Hall] Hf. split; [apply Hf|]. intros g id Hg. rewrite (fr_entries _ _ Hf), (fr_saved _ _ Hf). intros E.
  rewrite (fr_inodes _ _ Hf g) by done. by eapply Hall.
Qed.
Lemma starting_covered L d g :
  starting L d → settled d → 0 <= g < 2 ^ 64 → is_Some (entries d !! generation_path g) → covered p cfg L d.
Proof.
  intros [Ho Hall] Hset Hg He. split; [done|]. exists g. rewrite (se_entries _ Hset). do 3 (split; [done|]).
  intros g' id Hg'. apply Hall. lia.
Qed.

(** The file of an empty snapshot is small. *)
Lemma header_small sequence layout replication head :
  0 <= sequence < 2 ^ 64 → replication_ok replication → profile_write_header p sequence layout replication = Ok head → zlen head <= 64.
Proof.
  intros Hs Hr He. destruct p; cbn [profile_write_header] in He.
  - apply bind_ok in He as (u & _ & <-%Ok_inj). unfold sealed_header. rewrite !zlen_app. unfold u32_le, u64_le. rewrite !le_bytes_zlen.
    destruct replication as [[ro ep]|]; cbn [replication_ok role epoch] in *; [|done].
    assert (zlen ep = 16) as E by (unfold zlen; lia). by rewrite zlen_cons, zlen_app, E.
  - apply (memory_header_ok {| mh_sequence := sequence; mh_layout := layout; mh_replication := replication |} head []) in He as [_ ->]; [|done..].
    by destruct replication.
  - by eapply (composed_header_ok (Build_CHeader sequence layout LegacyRecords true replication) head []) in He as [_ ->].
Qed.
Lemma seal_small sequence count digest seal : encoded p (aof_limits cfg) (MSeal sequence count digest) seal → zlen seal <= 64.
Proof.
  intros [_ He]. assert (∀ body, zlen (frame 21 body) = 12 + zlen body) as Hframe.
  { intros body. unfold frame. rewrite !zlen_app. unfold u32_le. rewrite !le_bytes_zlen. lia. }
  assert (zlen (x02 :: u64_le sequence ++ u64_le count ++ u32_le digest) = 21) as Hbody.
  { rewrite zlen_cons, !zlen_app. unfold u32_le, u64_le. by rewrite !le_bytes_zlen. }
  assert ((if (max_record_bytes (aof_limits cfg) <? 21) || (MAX_RECORD_BYTES <? 21) then Err FLimit
           else Ok (frame 21 (x02 :: u64_le sequence ++ u64_le count ++ u32_le digest))) = Ok seal) as He' by (destruct p; exact He).
  destruct (_ || _); [done|]. apply Ok_inj in He' as <-. rewrite Hframe, Hbody. lia.
Qed.

(** The history of a new directory. *)
Definition initial_ledger : Ledger := [(0, installed 0 [])].
Lemma initial_good i : holds p cfg (installed 0 []) i → good p cfg initial_ledger i ∧ zlen (i_data i) < 2 ^ 60 ∧ i_durable i = i_data i.
Proof.
  intros (x & Hx & Hd & Hs). split; [|split; [|by rewrite Hd, Hs]].
  - apply (good_whole _ 0 (installed 0 []) x); [by left|done| |done|rewrite Hs; apply reaches_whole]. unfold installed, zlen. cbn [lg_base lg_batches length]. lia.
  - rewrite Hd. destruct Hx as [_ _ (rep & Hr & Hw) _ _ Hsnap Hseal Hb]. cbn in *. apply Forall2_nil_inv_l in Hsnap, Hb.
    unfold text_bytes, log_bytes. rewrite Hsnap, Hb, !zlen_app. pose proof (header_small 0 (aof_layout cfg) rep _ ltac:(lia) Hr Hw).
    pose proof (seal_small _ _ _ _ Hseal). unfold zlen in *. cbn. lia.
Qed.

(** No generation may be found. *)
Definition nameless (d : Disk) : Prop :=
  ∀ g, 0 <= g < 2 ^ 64 → entries d !! generation_path g = None ∧ saved d !! generation_path g = None.

Lemma nameless_frame d d' : nameless d → beside d d' → nameless d'.
Proof. intros Hn Hf g Hg. rewrite (fr_entries _ _ Hf), (fr_saved _ _ Hf). by apply Hn. Qed.
Lemma nameless_scan d :
  nameless d → disk_ok d → let names := (map_to_list (entries d)).*1 in scan_names false names [] [] = Ok (List.filter is_residue names, []).
Proof.
  intros Hn Hd names. destruct (scan_names_ok false names [] []) as (gs & -> & Hgs).
  { apply Forall_forall. intros name [id Hid]%listed. eapply Hd. by left. }
  destruct gs as [|g gs]; [done|]. destruct (proj1 (Hgs g) ltac:(by left)) as [Hg [id Hid]%listed].
  destruct (Hn g Hg) as [E _]. by rewrite E in Hid.
Qed.

Lemma create_initial_ok pid W Φ :
  disk_ok (disk W) → nameless (disk W) →
  (∀ W' t i, opened 0 t (disk W') → inodes (disk W') !! t = Some i → holds p cfg (installed 0 []) i → Φ W' (Return tt)) →
  (∀ W' x, starting initial_ledger (disk W') → (∀ a, x ≠ Return a) → Φ W' x) →
  wp (create_initial pid p cfg (generation_path 0)) W Φ.
Proof.
  intros Hd Hn Hdone Hbad. eapply temporary_path_ok; [done|done|]. intros W1 temporary Ed Ha. rewrite <- Ed in Hd, Hn.
  assert (∀ d, beside (disk W1) d → starting initial_ledger d) as Hblank.
  { intros d Hf. eapply starting_frame; [|exact Hf]. split; [done|]. intros g id Hg. destruct (Hn g Hg) as [-> ->]. by intros []. }
  apply wpd_bind. apply write_generation_ok; [done|done|done|done|done|by constructor..| |].
  2:{ intros W2 [a|e|] Hf Hx; [by destruct (Hx a)|by apply Hbad; [apply Hblank|]..]. }
  intros W2 t i (Hf & Hp & He & Hs) Hi Hh. cbn [next]. destruct (initial_good i Hh) as (Hgood & _ & _).
  set (d := rename_entry temporary (generation_path 0) (disk W2)).
  assert (entries (disk W2) !! temporary = Some t) as Et by (rewrite He; apply lookup_insert_eq).
  assert (entries d = <[generation_path 0 := t]> (delete temporary (entries (disk W2))) ∧ saved d = saved (disk W2) ∧ inodes d = inodes (disk W2))
    as (Ee & Es & Ei) by (unfold d, rename_entry; by rewrite Et).
  assert (∀ g, 0 < g < 2 ^ 64 → entries d !! generation_path g = None) as Hlater.
  { intros g Hg. rewrite Ee, lookup_insert_ne, lookup_delete_ne by (first [by apply apart_generation|intros E%generation_path_inj; lia]).
    rewrite (fr_entries _ _ Hf). apply Hn. lia. }
  assert (∀ g, 0 <= g < 2 ^ 64 → saved d !! generation_path g = None) as Hsaved.
  { intros g Hg. rewrite Es, (fr_saved _ _ Hf). by apply Hn. }
  assert (entries d !! generation_path 0 = Some t) as E0 by (rewrite Ee; apply lookup_insert_eq).
  assert (disk_ok d) as Hok by (apply rename_ok; [apply Hf|right; by exists 0]).
  assert (starting initial_ledger d) as Hstart.
  { split; [done|]. intros g id Hg. rewrite Ei, (Hsaved g Hg). intros [E|E]; [|done].
    destruct (decide (g = 0)) as [->|]; [|by rewrite Hlater in E by lia]. rewrite E0 in E. injection E as <-. by exists i. }
  assert (opened 0 t (sync_entries d)) as Ho.
  { split; cbn; [by apply sync_entries_ok|done..|]. intros g Hg. by rewrite Hlater. }
  apply wpd_bind, wpd_bind, wpd_get_disk. cbn [next]. rewrite Et.
  apply wpd_atomic; cbn [next]; [|by apply Hbad; [apply Hblank|]|by apply Hbad; [apply Hblank|]|by apply Hbad].
  apply wpd_atomic; cbn [next].
  - apply (Hdone _ t i); [exact Ho| |done]. change (inodes d !! t = Some i). by rewrite Ei.
  - by apply Hbad.
  - by apply Hbad.
  - apply Hbad; [|done]. split; [apply Ho|]. intros g id Hg E. apply (st_found _ _ Hstart g); [done|]. left. by destruct E.
Qed.

(** What may be found, and what opening makes of it. *)
Definition recoverable (L : Ledger) (d : Disk) : Prop := covered p cfg L d ∨ L = initial_ledger ∧ starting L d.
Definition open_post (L : Ledger) (W' : World) (x : Exit Recovered) : Prop :=
  match x with Return rc => recovers L rc (disk W') | _ => recoverable L (disk W') end.
Lemma load_open L W x : load_post L W x → open_post L W x.
Proof. destruct x; [done|by left..]. Qed.

Lemma load_fresh_ok pid locked W :
  starting initial_ledger (disk W) → nameless (disk W) →
  wp (load_profile pid clock permits locked false p cfg sc) W (open_post initial_ledger).
Proof.
  intros Hst Hn. apply load_listed_ok; [apply Hst| |].
  { intros W' [rc|e|] Hf Hx; [by destruct (Hx rc)|right; split; [done|by eapply starting_frame]..]. }
  intros W' Hf. unfold open_listed. rewrite (nameless_scan (disk W')); [|by eapply nameless_frame|apply Hf].
  apply wpd_bind, wpd_ret. cbn [next]. apply wpd_bind. change (default 0 (last (merge_sort Z.le []))) with 0.
  apply create_initial_ok; [apply Hf|by eapply nameless_frame| |].
  - intros W2 t i Ho Hi Hh. destruct (initial_good i Hh) as (Hgood & Hz & Hdur). cbn [next].
    eapply wpd_mono; [by eapply open_selected_ok; [..|apply residues_apart]|]. intros W3 x. apply load_open.
  - intros W2 [[]|e|] Hs Hx; cbn [next]; [by destruct (Hx tt)|by right..].
Qed.

(** A directory that was settled either has a generation or has none. *)
Lemma starting_cases d : starting initial_ledger d → settled d → covered p cfg initial_ledger d ∨ nameless d.
Proof.
  intros Hst Hset. destruct (scan_names_ok false (map_to_list (entries d)).*1 [] []) as (gs & _ & Hgs).
  { apply Forall_forall. intros name [id Hid]%listed. eapply (st_ok _ _ Hst). by left. }
  destruct gs as [|g gs].
  - right. intros g Hg. rewrite (se_entries _ Hset). destruct (entries d !! generation_path g) eqn:E; [|done].
    destruct (not_elem_of_nil g). apply Hgs. split; [done|]. apply listed. by rewrite E.
  - left. destruct (proj1 (Hgs g) ltac:(by left)) as [Hg Hid%listed]. by eapply starting_covered.
Qed.

Lemma recoverable_cases L d :
  recoverable L d → settled d → covered p cfg L d ∨ L = initial_ledger ∧ starting L d ∧ nameless d.
Proof. intros [|[-> Hst]] Hset; [by left|]. destruct (starting_cases _ Hst Hset); auto. Qed.

Lemma opening_ok L pid locked W :
  recoverable L (disk W) → settled (disk W) → (∀ id i, inodes (disk W) !! id = Some i → zlen (i_data i) < 2 ^ 60) →
  wp (load_profile pid clock permits locked false p cfg sc) W (open_post L).
Proof.
  intros Hrec Hset Hsize. destruct (recoverable_cases L (disk W) Hrec Hset) as [Hc|(-> & Hst & Hn)].
  - eapply wpd_mono; [by apply load_covered_ok|]. apply load_open.
  - by apply load_fresh_ok.
Qed.

(** ** Opening without failures *)

Lemma calm_residues residues w Φ :
  NoDup residues → Forall (λ name, is_Some (entries (disk w) !! name)) residues →
  (∀ d, entries d ⊆ entries (disk w) → (∀ name, name ∉ residues → entries d !! name = entries (disk w) !! name) →
    Φ (on_disk (λ _, d) w) (Return tt)) → calm (remove_residues residues) w Φ.
Proof.
  intros Hnd. revert w. induction Hnd as [|name residues Hn Hnd IH]; intros w Hall HΦ; cbn [remove_residues].
  { apply calm_ret. rewrite <- (on_disk_id w). by apply (HΦ (disk w)). }
  apply Forall_cons in Hall as [[id Hid] Hall]. apply calm_bind, calm_bind, calm_get_disk. cbn. rewrite Hid. apply calm_act. cbn.
  apply IH; cbn.
  - apply Forall_forall. intros name' Hin. rewrite lookup_delete_ne by (by intros ->). rewrite Forall_forall in Hall. by apply Hall.
  - intros d Hd Hkept. apply (HΦ d); [etrans; [exact Hd|apply delete_subseteq]|].
    intros name' [Hne Hnin]%not_elem_of_cons. rewrite (Hkept _ Hnin). cbn. by rewrite lookup_delete_ne.
Qed.

Lemma calm_repair pid g f path valid w id Φ :
  entries (disk w) !! path = Some id → entries (disk w) !! tail_name pid g (next_temporary w) = None →
  (∀ w', Φ w' (Return tt)) → calm (repair_tail pid g f path valid) w Φ.
Proof.
  intros Hp Hn HΦ. apply calm_bind. eexists _, _. split; [done|]. cbn. apply calm_bind. eapply calm_open; [exact Hp|].
  apply calm_bind, calm_create; [exact Hn|]. apply calm_bind, calm_get_disk. do 4 (apply calm_bind, calm_act). apply calm_act, HΦ.
Qed.

Lemma tail_name_lock pid g n : tail_name pid g n ≠ lit "writer.lock".
Proof. done. Qed.

(** The lock adds at most its own name. *)
Lemma calm_lock w Φ :
  disk_ok (disk w) →
  (∀ d, beside (disk w) d → (∀ name, name ≠ lit "writer.lock" → entries d !! name = entries (disk w) !! name) →
    Φ (on_disk (λ _, d) w) (Return tt)) → calm (acquire_lock false true) w Φ.
Proof.
  intros Hd HΦ. apply calm_bind, calm_bind, calm_get_disk. cbv beta iota.
  destruct (entries (disk w) !! lit "writer.lock") as [id|] eqn:E.
  - eapply calm_open; [exact E|]. apply calm_probe. rewrite <- (on_disk_id w). by apply (HΦ (disk w)); [apply frame_refl|].
  - apply calm_create; [exact E|]. apply calm_probe. apply (HΦ (create_inode _ (disk w))).
    + apply frame_create; [done|by intros [=]].
    + intros name Hn. cbn. by rewrite lookup_insert_ne.
Qed.

(** No file of an earlier process has a name that this one may give. *)
Definition unused (pid : Z) (d : Disk) : Prop :=
  ∀ n, entries d !! temporary_name pid (lit "initial") n = None ∧ ∀ g, entries d !! tail_name pid g n = None.
(** Every history that may be recovered has a dataset. *)
Definition replayable (L : Ledger) : Prop :=
  ∀ floor lg k, (floor, lg) ∈ L → floor <= lg_base lg + Z.of_nat k → (k <= length (lg_batches lg))%nat →
    log_dataset p cfg sc clock (log_take k lg) ≠ None.

Lemma calm_selected L pid g residues W f i :
  opened g f (disk W) → inodes (disk W) !! f = Some i → good p cfg L i → zlen (i_data i) < 2 ^ 60 → replayable L →
  NoDup residues → Forall apart residues → Forall (λ name, is_Some (entries (disk W) !! name)) residues →
  entries (disk W) !! tail_name pid g (next_temporary W) = None →
  calm (open_selected pid g residues) W (λ _ x, ∃ rc, x = Return rc).
Proof.
  intros Ho Hi Hgood Hz Hdata Hnd Hap Hpresent Hfree. apply calm_bind. eapply calm_open; [apply Ho|].
  apply calm_bind, calm_probe, calm_bind, calm_get_disk. replace (contents f (disk W)) with (i_data i) by (unfold contents; by rewrite Hi).
  destruct (read_good L i Hgood Hz) as (floor & lg & k & x & Hin & Hfl & Hk & _ & _ & Hreads & _). unfold reads in Hreads.
  destruct (log_dataset p cfg sc clock (log_take k lg)) as [m|] eqn:Em; [|by destruct (Hdata floor lg k)].
  destruct Hreads as (s & meta & incomplete & -> & _). apply calm_bind, calm_ret, calm_bind, calm_residues; [done|done|].
  intros d Hsub Hkept.
  assert (calm (repair_tail pid g f (generation_path g) (rm_valid_bytes meta)) (on_disk (λ _, d) W) (λ _ x, x = Return tt)) as Hrepair.
  { eapply calm_repair; [|by apply (lookup_weaken_None _ _ _) with (2 := Hsub)|done].
    cbn. rewrite Hkept; [apply Ho|]. intros Hin'. rewrite Forall_forall in Hap. by apply (apart_generation _ g (Hap _ Hin')). }
  apply calm_bind. destruct Hrepair as (W' & z & E & ->). destruct incomplete; cbn [andb negb].
  - exists W', (Return tt). split; [exact E|]. apply calm_bind, calm_probe, calm_ret. by eexists.
  - apply calm_ret, calm_bind, calm_probe, calm_ret. by eexists.
Qed.

Lemma initial_encodings :
  (∃ head, profile_write_header p 0 (aof_layout cfg) None = Ok head) ∧ ∃ seal, profile_encode p (MSeal 0 0 0) (aof_limits cfg) = Ok seal.
Proof.
  pose proof Hcfg as Hv. unfold AofConfig_validate in Hv. apply bind_ok in Hv as ([] & Hl & Hv).
  apply bind_ok in Hv as (? & _ & Hv). apply bind_ok in Hv as (? & _ & Hv). apply bind_ok in Hv as (? & Hm & _).
  apply guard_ok_ok, negb_true_iff in Hm. repeat apply orb_false_elim in Hm as [Hm _]. apply Z.ltb_ge in Hm.
  split.
  - destruct p; cbn [profile_write_header]; unfold write_header_with_replication, memory_encode_header, composed_encode_header, CHeader_validate;
      cbn; rewrite Hl; cbn; by eexists.
  - assert (profile_encode p (MSeal 0 0 0) (aof_limits cfg)
      = if (max_record_bytes (aof_limits cfg) <? 21) || (MAX_RECORD_BYTES <? 21) then Err FLimit
        else Ok (frame 21 (x02 :: u64_le 0 ++ u64_le 0 ++ u32_le 0))) as -> by by destruct p.
    destruct (Z.ltb_spec (max_record_bytes (aof_limits cfg)) 21); [lia|]. by eexists.
Qed.

Lemma entries_append f b d : entries (append_inode f b d) = entries d.
Proof. unfold append_inode. by destruct (inodes d !! f). Qed.
Lemma entries_sync f d : entries (sync_inode f d) = entries d.
Proof. unfold sync_inode. by destruct (inodes d !! f). Qed.

Lemma calm_initial pid path W :
  let temporary := temporary_name pid (lit "initial") (next_temporary W) in entries (disk W) !! temporary = None →
  calm (create_initial pid p cfg path) W (λ W' x, x = Return tt ∧
    ∀ name, name ≠ temporary → name ≠ path → entries (disk W') !! name = entries (disk W) !! name).
Proof.
  intros temporary Hfree. apply calm_bind. eexists _, _. split; [done|]. cbv beta iota. fold temporary.
  set (W1 := {| disk := disk W; next_temporary := _; journals := _; sent := _ |}).
  destruct initial_encodings as [[head Hhead] [seal Hseal]].
  apply calm_bind, calm_bind, calm_create; [exact Hfree|]. cbv beta iota. unfold write_head. rewrite Hhead.
  apply calm_bind, calm_bind, calm_ret, calm_act. cbn [write_snapshot]. apply calm_bind, calm_ret. unfold write_seal. rewrite Hseal.
  apply calm_bind, calm_bind, calm_ret, calm_bind, calm_act, calm_act, calm_ret.
  set (W2 := on_disk (sync_inode _) _). 
  assert (entries (disk W2) = <[temporary := fresh (dom (inodes (disk W1)))]> (entries (disk W))) as E2.
  { unfold W2. cbn. by rewrite entries_sync, !entries_append. }
  clearbody W2. apply calm_bind, calm_bind, calm_get_disk. cbv beta iota. rewrite E2, lookup_insert_eq. apply calm_act, calm_act.
  split; [done|]. intros name Hn Hp. cbn. unfold rename_entry. rewrite E2, lookup_insert_eq. cbn.
  by rewrite lookup_insert_ne, lookup_delete_ne, lookup_insert_ne.
Qed.

Lemma calm_listed pid W Φ :
  disk_ok (disk W) →
  (∀ d, beside (disk W) d → (∀ name, name ≠ lit "writer.lock" → entries d !! name = entries (disk W) !! name) →
    calm (open_listed pid (map_to_list (entries d)).*1) (on_disk (λ _, d) W) Φ) →
  calm (load_profile pid clock permits false false p cfg sc) W Φ.
Proof.
  intros Hd Hk. unfold load_profile. rewrite Hprofile, Bool.eqb_reflx, Hcfg, Hsc. cbn [negb].
  destruct quota_exists as [q ->]. cbn [map_err lift_io]. do 3 apply calm_bind, calm_ret. apply calm_bind, calm_probe, calm_bind, calm_lock; [done|].
  intros d Hf Hnames. apply calm_bind, calm_probe, calm_bind, calm_get_disk. by apply Hk.
Qed.
Lemma residues_listed d :
  let residues := List.filter is_residue (map_to_list (entries d)).*1 in
  NoDup residues ∧ Forall (λ name, is_Some (entries d !! name) ∧ is_residue name = true) residues.
Proof.
  split.
  - apply NoDup_ListNoDup, List.NoDup_filter, NoDup_ListNoDup, NoDup_fst_map_to_list.
  - apply Forall_forall. intros name Hin. apply list_elem_of_In, filter_In in Hin as [Hin ?]. split; [|done]. apply listed. by apply list_elem_of_In.
Qed.
Lemma residue_initial pid n : is_residue (temporary_name pid (lit "initial") n) = false.
Proof. done. Qed.

(** Opening succeeds if nothing fails, the lock is free and the names are unused. *)
Lemma opening_total L pid W :
  recoverable L (disk W) → settled (disk W) → (∀ id i, inodes (disk W) !! id = Some i → zlen (i_data i) < 2 ^ 60) →
  unused pid (disk W) → replayable L →
  calm (load_profile pid clock permits false false p cfg sc) W (λ _ x, ∃ rc, x = Return rc).
Proof.
  intros Hrec Hset Hsize Hfree Hdata. destruct (recoverable_cases L (disk W) Hrec Hset) as [Hc|(-> & Hst & Hn)].
  - apply calm_listed; [apply Hc|]. intros d Hf Hnames. unfold open_listed. destruct (residues_listed d) as [Hnd Hres].
    destruct (selected_ok L (disk W) d) as (gs & f & i & -> & Hne & Ho & Hi & Hi0 & Hgood & _); [done..|].
    apply calm_bind, calm_ret. destruct gs as [|g gs]; [done|]. apply calm_bind, calm_ret.
    eapply calm_selected; [done..|by eapply Hsize|done|done|apply residues_apart|by eapply Forall_impl; [exact Hres|intros ? []]|].
    cbn. rewrite Hnames by apply tail_name_lock. apply Hfree.
  - apply calm_listed; [apply Hst|]. intros d Hf Hnames. unfold open_listed. destruct (residues_listed d) as [Hnd Hres].
    rewrite (nameless_scan d); [|by eapply nameless_frame|apply Hf]. apply calm_bind, calm_ret, calm_bind.
    eapply calm_mono; [eapply (calm_wp _ _ (λ W' x, x = Return tt →
        ∃ t i, opened 0 t (disk W') ∧ inodes (disk W') !! t = Some i ∧ holds p cfg (installed 0 []) i)); [|apply calm_initial]|].
    { apply create_initial_ok; [apply Hf|by eapply nameless_frame|eauto|]. intros W' x _ Hx ->. by destruct (Hx tt). }
    { cbn. rewrite Hnames by done. apply Hfree. }
    intros W' x [Hx [-> Hkept]]. destruct (Hx eq_refl) as (t & i & Ho & Hi & Hh). destruct (initial_good i Hh) as (Hgood & Hz & _).
    eapply calm_selected; [done..|apply residues_apart| |].
    + eapply Forall_impl; [exact Hres|]. cbn. intros name [? Hr]. rewrite Hkept; [done|..].
      * intros ->. by rewrite residue_initial in Hr.
      * by apply apart_generation, residue_apart.
    + rewrite Hkept; [|done..]. cbn. rewrite Hnames by apply tail_name_lock. apply Hfree.
Qed.
End Open.
