(* ===== verification/Durability.v ===== *)
(** * Durability of what was acknowledged

    The lives of a directory: opening it, serving requests, and failures of the machine in
    between. The writer (Writer.v) keeps its ledger at every point at which it may stop, a
    new process recovers one of the histories of the ledger, and a batch acknowledged
    under the [Always] policy is in all of them. *)

From Stdlib Require Import Strings.Byte Strings.String ZArith Lia.
From S2P Require Import Prelude Float Wire Score Memory Command Store StoreInv StoreSpec Mutation StoreExec Replay Routing Format MemoryFormat Profile MemoryLifecycle Decoded Protocol Journal Recovery RecoverySpec Disk Writer Ledgers WriterSpec Opening.

#[local] Open Scope Z_scope.
#[local] Opaque snapshot_digest.
#[local] Arguments generation_path : simpl never.
#[local] Arguments wp : simpl never.

Section Failures.
Context {p : Profile} {cfg : AofConfig}.

Lemma crashed_ok d d' : disk_ok d → crashed d d' → disk_ok d'.
Proof.
  intros Hok [Hi Hn Hsaved] name id. rewrite Hsaved. intros E. assert (entries d' !! name = Some id) as E' by by destruct E.
  assert (entries d !! name = Some id ∨ saved d !! name = Some id) as E0
    by (destruct (Hn name) as [En|En]; rewrite En in E'; auto).
  destruct (Hok name id E0) as [? [i Hid]]. split; [done|]. specialize (Hi id). rewrite Hid in Hi. by destruct Hi as (c & -> & _).
Qed.

Lemma crashed_recoverable L d d' : recoverable (p := p) (cfg := cfg) L d → crashed d d' → recoverable (p := p) (cfg := cfg) L d'.
Proof.
  intros [Hc|[-> [Hok Hall]]] Hx; [left; by eapply crashed_covered|]. right. split; [done|]. split; [by eapply crashed_ok|].
  intros g id Hg. rewrite (cr_saved _ _ Hx). intros E. assert (entries d' !! generation_path g = Some id) as E' by by destruct E.
  destruct (Hall g id Hg) as (i & Hi & Hgood); [destruct (cr_entries _ _ Hx (generation_path g)) as [En|En]; rewrite En in E'; auto|].
  pose proof (cr_inodes _ _ Hx id) as Hc. rewrite Hi in Hc. destruct Hc as (c & -> & Hr). eexists. split; [done|]. by eapply good_remains.
Qed.
End Failures.

(** ** What stays in the ledger *)

(** The batch acknowledged as [n] is in every history, at [n], or the history starts from
    a snapshot taken at or after it; and [n] is safe. *)
Definition kept (n : Z) (b : MutationOrigin * list MMutation) (L : Ledger) : Prop :=
  L ≠ [] ∧ Forall (λ e, n <= e.1 ∧ (n <= lg_base e.2 ∨ lg_base e.2 < n ∧ lg_batches e.2 !! Z.to_nat (n - lg_base e.2 - 1) = Some b)) L.
Definition installs (i : Input) : bool :=
  match i with Received (WInstall _ _ _ | WInstallMemory _ _ _) => true | _ => false end.

Lemma kept_fmap n b L (f : Z * Log → Z * Log) :
  kept n b L → (∀ e, e.1 <= (f e).1 ∧ lg_base (f e).2 = lg_base e.2 ∧ lg_batches e.2 `prefix_of` lg_batches (f e).2) → kept n b (f <$> L).
Proof.
  intros [Hne Hall] Hf. split; [by destruct L|]. apply Forall_fmap. eapply Forall_impl; [exact Hall|]. intros e [Hfl He].
  destruct (Hf e) as (Hle & Hbase & Hpre). cbn. split; [lia|]. rewrite Hbase. destruct He as [|[Hlt Hb]]; [by left|]. right.
  split; [done|]. by eapply prefix_lookup_Some.
Qed.
Lemma kept_raising n b m L : kept n b L → kept n b (raising m L).
Proof. intros Hk. apply kept_fmap; [done|]. intros e. cbn. split_and!; [lia|done..]. Qed.
Lemma kept_adding n b b' L : kept n b L → kept n b (adding b' L).
Proof. intros Hk. apply kept_fmap; [done|]. intros e. cbn. split_and!; [lia|done|by apply prefix_app_r]. Qed.
Lemma kept_end n b L : kept n b L → n <= ledger_end L.
Proof.
  intros [Hne Hall]. destruct L as [|[fl lg] L]; [done|]. apply Forall_cons in Hall as [[_ He] _]. cbn in *. pose proof (zlen_nonneg (lg_batches lg)).
  destruct He as [|[Hlt Hb]]; [lia|]. apply lookup_lt_Some in Hb. unfold zlen. lia.
Qed.
Create HintDb durable.
#[export] Hint Resolve kept_raising kept_adding : durable.

Lemma kept_step cfg n b L i rs : kept n b L → installs i = false → kept n b (ledger_step cfg L i rs).
Proof.
  intros Hk Hi. unfold ledger_step, after_compaction.
  assert (∀ b' reply, kept n b (after_append_request cfg L b' reply)) as Happ.
  { intros b' reply. unfold after_append_request, acknowledging. repeat case_match; auto with durable. }
  assert (kept n b match i with Received r => after_request cfg L r (own_reply rs) | _ => L end) as Hr.
  { destruct i as [r| | |]; [|done..]. destruct r; try done; cbn [after_request batch_of]; auto.
    - repeat case_match; auto with durable.
    - assert (kept n b (L ++ [(ledger_end L, installed (ledger_end L) (from_storage <$> snapshot))])) as Hnew.
      { pose proof (kept_end _ _ _ Hk). destruct Hk as [Hne Hall]. split; [by destruct L|]. apply Forall_app. split; [done|].
        constructor; [cbn; auto|done]. }
      repeat case_match; auto. }
  destruct (existsb _ _); [by apply kept_raising|done].
Qed.
Lemma kept_after cfg n b L inputs replies :
  kept n b L → Forall (λ i, installs i = false) inputs → kept n b (ledger_after cfg L inputs replies).
Proof.
  intros Hk Hi. revert L replies Hk. induction Hi as [|i inputs Hi Hall IH]; intros L [|rs replies] Hk; [done..|].
  cbn. apply IH. by apply kept_step.
Qed.

Lemma kept_acknowledged cfg n b L :
  aof_sync cfg = Always → L ≠ [] → Forall (λ e, lg_base e.2 + zlen (lg_batches e.2) + 1 = n) L → kept n b (acknowledging cfg n b L).
Proof.
  intros Hs Hne Hall. unfold acknowledging. rewrite bool_decide_eq_true_2 by done. unfold raising, adding. rewrite <- list_fmap_compose.
  split; [by destruct L|]. apply Forall_fmap. eapply Forall_impl; [exact Hall|]. intros [fl lg] <-. cbn. split; [lia|]. right.
  pose proof (zlen_nonneg (lg_batches lg)). split; [lia|]. apply lookup_app_Some. right. unfold zlen in *. split; [lia|].
  by replace (Z.to_nat _ - length (lg_batches lg))%nat with 0%nat by lia.
Qed.

Lemma kept_append cfg n b L r rs :
  aof_sync cfg = Always → L ≠ [] → Forall (λ e, lg_base e.2 + zlen (lg_batches e.2) = ledger_end L) L → n = ledger_end L + 1 →
  batch_of r = Some b → kept n b (ledger_step cfg L (Received r) (Appended (Ok n) :: rs)).
Proof.
  intros Hs Hne Hall Hn Hb. unfold ledger_step, after_compaction. cbn [own_reply].
  assert (after_request cfg L r (Some (Appended (Ok n))) = acknowledging cfg n b L) as -> by (by destruct r; simplify_eq/=).
  assert (kept n b (acknowledging cfg n b L)) as Hk.
  { apply kept_acknowledged; [done|done|]. eapply Forall_impl; [exact Hall|]. cbn. lia. }
  destruct (existsb _ _); [by apply kept_raising|done].
Qed.

(** ** The properties *)

Section Life.
Context (p : Profile) (cfg : AofConfig) (sc : StoreConfig) (clock : nat → Sample) (permits : Z).
Context (Hcfg : AofConfig_validate permits cfg = Ok tt) (Hsc : StoreConfig_validate sc = Ok tt).
Context (Htotal : shard_count (aof_layout cfg) <= max_dataset_bytes sc) (Hclock : ∀ n, clock_ok (clock n)).
Context (Hprofile : bool_decide (p = MemoryProfile) = memory_profile cfg).

(** A disk on which no file is longer than any file can be. *)
Definition storable (d : Disk) : Prop := ∀ id i, inodes d !! id = Some i → zlen (i_data i) < 2 ^ 60.

(** C2. Whatever the requests, the replies, and the operation at which one fails or the
    process dies, the disk holds the ledger that the replies sent so far describe, also
    after a failure of the machine; and a writer that goes on still tracks it. *)
Theorem writer_keeps_ledger pid L w W inputs fs W' fs' x :
  tracked p cfg L w (disk W) → Forall (λ e, input_ok e.1) inputs →
  run pid clock w inputs W fs = (W', fs', x) →
  ∃ replies, (length replies <= length inputs)%nat ∧ sent W' = sent W ++ mjoin replies ∧
    let L' := ledger_after cfg L inputs.*1 replies in
    (∀ w', x = Return (Runs w') → length replies = length inputs ∧ tracked p cfg L' w' (disk W')) ∧
    covered p cfg L' (disk W') ∧ ∀ d, crashed (disk W') d → covered p cfg L' d ∧ settled d.
Proof.
  intros Ht Hok E. pose proof (run_ok pid clock L w W inputs Hprofile Ht Hok fs) as Hr. rewrite E in Hr.
  destruct Hr as (replies & Hl & Hs & Hx). exists replies. split; [done|]. split; [done|]. intros L'.
  assert (covered p cfg L' (disk W')) as Hc by (destruct x as [[]|e|]; [eapply tracked_covered; apply Hx|done..]).
  split; [by intros w' ->|]. split; [done|]. intros d Hd. split; [by eapply crashed_covered|by eapply crashed_settled].
Qed.


End Life.

(** ** Concrete runs *)

Definition returns {A} (x : Exit A) : bool := match x with Return _ => true | _ => false end.
Definition returned {A} (x : Exit A) : returns x = true → A :=
  match x with Return a => λ _, a | _ => λ H, False_rect A (diff_false_true H) end.
Lemma returned_eq {A} (x : Exit A) H : x = Return (returned x H).
Proof. by destruct x. Qed.

(** The failure after which nothing is left but what was synced. *)
Definition lost (d : Disk) : Disk :=
  {| inodes := (λ i, {| i_data := i_durable i; i_durable := i_durable i |}) <$> inodes d; entries := saved d; saved := saved d |}.
Lemma lost_crashed d : crashed d (lost d).
Proof.
  split; [|by right|done]. intros id. cbn. rewrite lookup_fmap. destruct (inodes d !! id) as [i|]; [|done]. cbn.
  eexists. split; [done|]. split; [by right|done].
Qed.

Definition empty_disk : Disk := {| inodes := ∅; entries := ∅; saved := ∅ |}.
Definition boot (d : Disk) : World := {| disk := d; next_temporary := 0; journals := []; sent := [] |}.
Definition open_sample (pid : Z) (W : World) (fs : list Fault) : World * list Fault * Exit Recovered :=
  load_profile pid sample_clock 32 false false LegacyProfile sample_config StoreConfig_default W fs.
Definition first_open : World * list Fault * Exit Recovered := open_sample 1 (boot empty_disk) [].
Definition first_world : World := first_open.1.1.
Definition first_recovered : Recovered := returned first_open.2 ltac:(vm_compute; reflexivity).
Definition first_ledger : Ledger := [(0, installed 0 [])].

Lemma empty_recoverable : recoverable (p := LegacyProfile) (cfg := sample_config) initial_ledger empty_disk.
Proof. right. split; [done|]. split; [by intros name id []|]. by intros g id _ []. Qed.
Lemma empty_settled : settled empty_disk.
Proof. by split. Qed.
Lemma empty_storable : storable empty_disk.
Proof. by intros id i. Qed.
Lemma sample_clock_ok n : clock_ok (sample_clock n).
Proof. apply epoch_sample_ok. Qed.

Lemma sample_valid : AofConfig_validate 32 sample_config = Ok tt ∧ StoreConfig_validate StoreConfig_default = Ok tt
  ∧ shard_count (aof_layout sample_config) <= max_dataset_bytes StoreConfig_default
  ∧ bool_decide (LegacyProfile = MemoryProfile) = memory_profile sample_config.
Proof. by vm_compute. Qed.

(** The process that opened the empty directory. *)
Lemma first_opened : open_sample 1 (boot empty_disk) [] = (first_world, first_open.1.2, Return first_recovered).
Proof. change (first_open = (first_open.1.1, first_open.1.2, Return first_recovered)). unfold first_recovered. rewrite <- returned_eq. by destruct first_open as [[] ?]. Qed.
Lemma first_tracked : tracked LegacyProfile sample_config first_ledger (rc_writer first_recovered) (disk first_world).
Proof.
  destruct sample_valid as (H1 & H2 & H3 & H4).
  pose proof (opening_ok StoreConfig_default sample_clock 32 H1 H2 H3 sample_clock_ok H4
    initial_ledger 1 false (boot empty_disk) empty_recoverable empty_settled empty_storable []) as H.
  pose proof first_opened as E. unfold open_sample in E. rewrite E in H.
  destruct H as (floor & lg & k & Hin & _ & Hk & _ & _ & _ & Ht). apply list_elem_of_singleton in Hin as [= -> ->].
  destruct k; [exact Ht|cbn in Hk; lia].
Qed.

(** It appends a batch and compacts. *)
Definition sample_append : WRequest := WAppend {| origin := Client; mutations := [Put (lit "k") (VString (lit "v")) None] |}.
Definition sample_step := iteration 1 sample_clock (rc_writer first_recovered) (Received sample_append) false first_world [].
Definition sample_running : Running := returned sample_step.2 ltac:(vm_compute; reflexivity).
Definition sample_inputs : list (Input * bool) :=
  [(Received (WCompact [Put (lit "k") (VString (lit "v")) None]), false); (ProducerRuns, false); (TimedOut, false); (Received sample_append, false)].

Lemma sample_inputs_ok : Forall (λ e, input_ok e.1 ∧ installs e.1 = false) ((Received sample_append, false) :: sample_inputs).
Proof.
  assert (Forall mmutation_ok [Legacy (Put (lit "k") (VString (lit "v")) None)]) as H by (constructor; done).
  repeat (apply Forall_cons; split; [split; [first [exact H|split; [exact H|done]|done]|done]|]). done.
Qed.

Lemma writer_keeps_ledger_witness :
  ∃ W' fs' x replies, run 1 sample_clock (rc_writer first_recovered) ((Received sample_append, false) :: sample_inputs) first_world [] = (W', fs', x) ∧
    covered LegacyProfile sample_config
      (ledger_after sample_config first_ledger (((Received sample_append, false) :: sample_inputs).*1) replies) (disk W').
Proof.
  destruct sample_valid as (_ & _ & _ & H4).
  destruct (run 1 sample_clock (rc_writer first_recovered) ((Received sample_append, false) :: sample_inputs) first_world [])
    as [[W' fs'] x] eqn:E.
  destruct (writer_keeps_ledger LegacyProfile sample_config sample_clock H4 1 first_ledger (rc_writer first_recovered) first_world
    ((Received sample_append, false) :: sample_inputs) [] W' fs' x first_tracked) as (replies & _ & _ & _ & Hc & _); [|exact E|].
  - eapply Forall_impl; [apply sample_inputs_ok|]. by intros e [].
  - exists W', fs', x, replies. split; [reflexivity|exact Hc].
Defined.

Lemma initial_replayable : replayable (p := LegacyProfile) (cfg := sample_config) StoreConfig_default sample_clock initial_ledger.
Proof.
  intros floor lg k Hin _ Hk. apply list_elem_of_singleton in Hin as [= -> ->]. destruct k; [|cbn in Hk; lia].
  assert (match log_dataset LegacyProfile sample_config StoreConfig_default sample_clock (log_take 0 (installed 0 [])) with
          | Some _ => true | None => false end = true) as H by (vm_compute; reflexivity).
  intros E. by rewrite E in H.
Qed.


(** The machine fails after the compaction and the second append. *)
Definition sample_writer : Writer := match sample_running with Runs w => w | Ended _ => rc_writer first_recovered end.
Lemma sample_stepped : sample_step = (sample_step.1.1, sample_step.1.2, Return (Runs sample_writer)).
Proof.
  replace (Runs sample_writer) with sample_running; [unfold sample_running; rewrite <- returned_eq; by destruct sample_step as [[] ?]|].
  assert (match sample_running with Runs _ => true | Ended _ => false end = true) as H by (vm_compute; reflexivity).
  unfold sample_writer. by destruct sample_running.
Qed.
Definition sample_rest := run 1 sample_clock sample_writer sample_inputs sample_step.1.1 [].
Definition sample_left : World := boot (lost (disk sample_rest.1.1)).
Definition second_open := open_sample 1 sample_left [].
Definition second_recovered : Recovered := returned second_open.2 ltac:(vm_compute; reflexivity).
Lemma sample_left_storable : storable (disk sample_left).
Proof.
  assert (bool_decide (map_Forall (λ _ i, zlen (i_data i) < 2 ^ 60) (inodes (disk sample_left))) = true) as H by (vm_compute; reflexivity).
  apply bool_decide_eq_true in H. exact H.
Qed.


(** ** Two sequences of failures that are not survived *)

(** A process opens the directory and dies in the middle of an append; the next one has
    the same number. *)
Definition torn_append (r : World * list Fault * Exit Recovered) : Disk :=
  match r.2 with
  | Return rc => disk (iteration 1 sample_clock (rc_writer rc) (Received sample_append) false r.1.1 [Dies 5]).1.1
  | _ => disk r.1.1
  end.
Definition first_torn : Disk := torn_append first_open.
Definition first_repair := open_sample 1 (boot first_torn) [].
Definition second_torn : Disk := torn_append first_repair.
Definition second_repair := open_sample 1 (boot second_torn) [].

(** The first torn tail is repaired; the second one, of the same generation, is not: the
    name of its backup is taken, and the opening fails although nothing is wrong with the
    file, now and whenever it is tried again. *)
Lemma second_tail_refused :
  returns first_repair.2 = true ∧ second_repair.2 = Raise AofIo ∧
  (open_sample 1 (boot (disk second_repair.1.1)) []).2 = Raise AofIo ∧
  (open_sample 2 (boot (disk second_repair.1.1)) []).2 ≠ Raise AofIo.
Proof. vm_compute. done. Qed.

(** The first process dies between the renaming of its file and the sync of the
    directory. *)
Definition killed_open := open_sample 1 (boot empty_disk) (replicate 9 Works ++ [Dies 0]).
Definition next_open := open_sample 2 (boot (disk killed_open.1.1)) [].
Definition next_append :=
  match next_open.2 with
  | Return rc => iteration 2 sample_clock (rc_writer rc) (Received sample_append) false next_open.1.1 []
  | _ => (next_open.1.1, [], Died)
  end.

(** The next process opens the file under its name without a sync of the directory and
    acknowledges a batch; a failure of the machine that loses the name loses the batch. *)
Lemma unsynced_name_lost :
  killed_open.2 = Died ∧ aof_sync sample_config = Always ∧ sent next_append.1.1 = [Appended (Ok 1)] ∧
  ∃ rc, (open_sample 3 (boot (lost (disk next_append.1.1))) []).2 = Return rc ∧ rm_sequence (rc_metadata rc) = 0.
Proof. split_and!; [vm_compute; reflexivity..|]. eexists. split; vm_compute; reflexivity. Qed.
