(* ===== verification/History.v ===== *)
(** * Histories and their logs

    The dataset that a sequence of committed batches builds, and its recovery: a log
    of the batches recovers to that dataset, up to the plain values whose deadline has
    passed on the wall clock.  The batches are those of the workers (Worker.v). *)

From Stdlib Require Import Strings.Byte Strings.String ZArith Lia.
From S2P Require Import Prelude Float Wire Score Memory Command Store StoreInv StoreSpec Mutation StoreExec Replay Routing Format MemoryFormat Profile MemoryLifecycle Decoded Protocol Recovery RecoverySpec.

#[local] Open Scope Z_scope.
#[local] Open Scope fallible_scope.

(** A batch of records turns a dataset into another when it is committed. *)
Definition commits (L : dataset) (ms : list MMutation) (L' : dataset) : Prop :=
  ∃ images, log_images L ∅ ms = Some (Ok images) ∧ NoDup (Mutation_key <$> images) ∧ effects raw_effect L images = L'.

(** What recovery holds of a committed dataset: everything that a reader at time [t]
    can still see, and nothing else than what was committed. *)
Definition tracks (t : Sample) (m L : dataset) : Prop := undropped t L ⊆ m ∧ m ⊆ L.

Lemma tracks_refl t L : tracks t L L.
Proof. split; [apply map_filter_subseteq|done]. Qed.
Lemma tracks_lookup t m L k :
  tracks t m L → m !! k = L !! k ∨ m !! k = None ∧ ∃ c, L !! k = Some c ∧ dropped t c.1 c.2 = true.
Proof.
  intros [Hu Hm]. destruct (m !! k) as [c|] eqn:E; [left; symmetry; by eapply lookup_weaken|].
  destruct (L !! k) as [c|] eqn:El; [right|by left]. split; [done|]. exists c. split; [done|].
  destruct (dropped t c.1 c.2) eqn:Ed; [done|]. exfalso.
  assert (undropped t L !! k = Some c) as Hx by (rewrite lookup_undropped, El; cbn; by rewrite Ed).
  by rewrite (lookup_weaken _ _ _ _ Hx Hu) in E.
Qed.
Lemma tracks_intro t m L :
  (∀ k, m !! k = L !! k ∨ m !! k = None ∧ ∃ c, L !! k = Some c ∧ dropped t c.1 c.2 = true) → tracks t m L.
Proof.
  intros H. split; apply map_subseteq_spec; intros k c Hk; destruct (H k) as [E|(E & c' & Ec & Ed)]; try congruence.
  - rewrite lookup_undropped in Hk. rewrite E. destruct (L !! k) as [c'|]; [|done]. cbn in Hk. by destruct (dropped _ _ _).
  - rewrite lookup_undropped, Ec in Hk. cbn in Hk. by rewrite Ed in Hk.
Qed.
Lemma tracks_visible t m L : tracks t m L → undropped t m = undropped t L.
Proof.
  intros H. apply map_eq. intros k. rewrite !lookup_undropped. destruct (tracks_lookup _ _ _ k H) as [->|(-> & c & -> & Hd)]; [done|].
  cbn. by rewrite Hd.
Qed.

Lemma dropped_later t t' v x : unix_millis t <= unix_millis t' → dropped t v x = true → dropped t' v x = true.
Proof. intros Ht. unfold dropped. destruct x as [d|]; [|done]. rewrite !andb_true_iff, !Z.leb_le. intros [? ?]. split; [lia|done]. Qed.

Lemma tracks_effects t t' m L l :
  unix_millis t <= unix_millis t' → NoDup (Mutation_key <$> l) → tracks t' m L →
  tracks t' (apply_mutations t m l) (effects raw_effect L l).
Proof.
  intros Ht Hn Htr. apply tracks_intro. intros k. destruct (decide (k ∈ Mutation_key <$> l)) as [Hk|Hk].
  - apply list_elem_of_fmap in Hk as (mu & -> & Hmu). rewrite (effects_at raw_effect) by done.
    change (apply_mutations t m l) with (effects (mutation_effect t) m l). rewrite effects_at by done.
    destruct mu as [k v x|k]; [|by left]. cbn [mutation_effect raw_effect]. destruct (dropped t v x) eqn:Ed; [|by left].
    right. split; [done|]. exists (v, x). split; [done|]. by eapply dropped_later.
  - rewrite (effects_other raw_effect) by done. change (apply_mutations t m l) with (effects (mutation_effect t) m l).
    rewrite effects_other by done. by apply tracks_lookup.
Qed.

(** A collection is never dropped, so deltas resolve in the same way. *)
Lemma tracks_images t m L seen ms : tracks t m L → log_images m seen ms = log_images L seen ms.
Proof.
  intros Htr. assert (∀ mu, log_image m mu = log_image L mu) as Hi.
  { intros [mu|k c x|k d edits x]; [done..|]. cbn [log_image].
    destruct (tracks_lookup _ _ _ k Htr) as [->|(-> & [v y] & -> & Hd)]; [done|]. destruct v; try done.
    unfold dropped in Hd. cbn in Hd. destruct y; [|done]. by rewrite andb_false_r in Hd. }
  revert seen. induction ms as [|mu ms IH]; intros seen; [done|]. cbn. case_bool_decide; [done|]. rewrite Hi.
  apply fallible_bind_ext. intros image _. by rewrite IH.
Qed.

Lemma shard_size_mono layout m L shard :
  (∀ k c, L !! k = Some c → 0 <= entry_size k c.1) → m ⊆ L → shard_size layout m shard <= shard_size layout L shard.
Proof. intros Hp Hm. apply map_zsum_mono; [|done]. intros k c Hk. specialize (Hp k c Hk). destruct (_ =? _); lia. Qed.

Definition sized (L : dataset) : Prop := ∀ k c, L !! k = Some c → 0 <= entry_size k c.1.
Lemma persisted_sized s : store_wf s → sized (persisted s).
Proof.
  intros [Hc _ _] k c. rewrite lookup_persisted. intros (e & He & ->)%fmap_Some_1.
  pose proof (entry_size_pos k (e_value e) (eo_value _ _ (co_entries _ _ Hc _ _ He))). cbn. lia.
Qed.

Section History.
Context (p : Profile) (layout : DurableLayout) (total : Z).

(** Committed batches, each within the quotas and, unless mixed, on one shard. *)
Inductive history : dataset → list (list MMutation) → dataset → Prop :=
| history_nil L : history L [] L
| history_batch L ms L' batches L'' :
    commits L ms L' → check_shards layout (bool_decide (p = ComposedLegacyMixed)) None ms = Ok tt →
    sized L' → within_shards layout total L' → history L' batches L'' → history L (ms :: batches) L''.

Lemma history_app L l L' k L'' : history L l L' → history L' k L'' → history L (l ++ k) L''.
Proof. induction 1; [done|]. intros Hk. cbn. econstructor; eauto. Qed.
Lemma history_take L l L' k : history L l L' → ∃ L'', history L (take k l) L''.
Proof.
  intros H. revert k. induction H as [L|L ms L' batches L'' Hc Hs Hz Hw _ IH]; intros [|k]; cbn; try (by eexists; constructor).
  destruct (IH k) as [L3 HL3]. exists L3. by econstructor.
Qed.

Lemma history_unique L l L1 L2 : history L l L1 → history L l L2 → L1 = L2.
Proof.
  intros H. revert L2. induction H as [L|L ms L' batches L'' (images & Hi & _ & <-) _ _ _ _ IH]; intros L2 H2; [by inversion H2|].
  apply IH. inversion H2 as [|? ? L3 ? ? (images' & Hi' & _ & <-) ? ? ? ?]; subst. rewrite Hi in Hi'. by injection Hi' as <-.
Qed.

(** Replaying a history at readings of the clock up to [t] recovers it. *)
Lemma history_runs (clock : nat → Sample) t L batches L' m n :
  history L batches L' → (∀ i, unix_millis (clock i) <= unix_millis t) → tracks t m L →
  ∃ m', run_batches p layout total clock n m batches = Some m' ∧ tracks t m' L'.
Proof.
  intros H Hclock. revert m n. induction H as [L|L ms L' batches L'' (images & Hi & Hn & <-) Hs Hz Hw _ IH]; intros m n Htr; [by exists m|].
  cbn [run_batches]. unfold batch_effect, log_effect. rewrite Hs, (tracks_images t m L) by done. rewrite Hi. cbn [fallible_bind].
  pose proof (tracks_effects (clock n) t m L images (Hclock n) Hn Htr) as Htr'. rewrite bool_decide_eq_true_2.
  - cbn [mbind option_bind]. by apply IH.
  - intros shard Hr. etrans; [|by apply Hw]. apply shard_size_mono; [done|apply Htr'].
Qed.
End History.

(** ** The snapshot of a store *)

Lemma from_storage_image L mu : mutation_wf mu → log_image L (from_storage mu) = Some (Ok mu).
Proof.
  intros Hm. destruct mu as [k v x|k]; [|done]. destruct v; try done. destruct Hm as (Hv & Hk & _). cbn in *.
  by rewrite validate_key_quota.
Qed.
Lemma from_storage_key mu : MMutation_key (from_storage mu) = Mutation_key mu.
Proof. destruct mu as [k [] x|k]; done. Qed.
Lemma check_shards_single layout mixed mu : DurableLayout_validate layout = Ok tt → check_shards layout mixed None [mu] = Ok tt.
Proof. intros Hl. cbn. rewrite (proj1 (shard_for_ok layout Hl _)). cbn. by rewrite andb_false_r. Qed.

(** Puts of a dataset, one at a time, build it up. *)
Lemma puts_history p layout total L l L0 :
  DurableLayout_validate layout = Ok tt → sized L → within_shards layout total L → L0 ⊆ L → Forall mutation_wf l →
  (∀ mu, mu ∈ l → ∃ c, raw_effect mu = Some c ∧ L !! Mutation_key mu = Some c) →
  history p layout total L0 ((λ mu, [mu]) <$> (from_storage <$> l)) (effects raw_effect L0 l).
Proof.
  intros Hl Hz Hw HL Hwf Hin. revert L0 HL. induction Hwf as [|mu l Hm _ IH]; intros L0 HL; [constructor|]. rewrite !fmap_cons.
  destruct (Hin mu ltac:(left)) as (c & Hc & Hk).
  assert (effects raw_effect L0 [mu] ⊆ L) as HL'.
  { cbn. rewrite Hc. change (<[Mutation_key mu := c]> L0 ⊆ L). by apply insert_subseteq_l. }
  apply (history_batch _ _ _ L0 [from_storage mu] (effects raw_effect L0 [mu])).
  - exists [mu]. cbn [log_images]. rewrite bool_decide_eq_false_2 by set_solver. rewrite from_storage_image by done. cbn.
    split_and!; [done|apply NoDup_singleton|done].
  - by apply check_shards_single.
  - intros k' c' Hc'. eapply Hz, lookup_weaken; done.
  - intros shard Hr. etrans; [|by apply Hw]. by apply shard_size_mono.
  - apply IH; [|done]. intros mu' Hx. apply Hin. by right.
Qed.
Lemma puts_effects L l :
  NoDup (Mutation_key <$> l) → (∀ mu, mu ∈ l → ∃ c, raw_effect mu = Some c ∧ L !! Mutation_key mu = Some c) →
  (∀ k, is_Some (L !! k) → k ∈ Mutation_key <$> l) → effects raw_effect ∅ l = L.
Proof.
  intros Hn Hin Hall. apply map_eq. intros k. destruct (decide (k ∈ Mutation_key <$> l)) as [Hk|Hk].
  - apply list_elem_of_fmap in Hk as (mu & -> & Hmu). destruct (Hin mu Hmu) as (c & Hc & ->). by rewrite effects_at.
  - rewrite effects_other, lookup_empty by done. destruct (L !! k) as [c|] eqn:E; [|done]. destruct Hk. apply Hall. by rewrite E.
Qed.
