(* ===== verification/Worker.v ===== *)
(** * Workers

    Models the owner of a shard in src/storage/worker.rs: the requests it serves, the
    commit that appends a batch to the log before it applies it, and the expiration
    tick.  The writer of the log is an interface ([AofLog]) that Handle.v implements.
    The role of the server does not change while a request holds its admission, so
    every request carries one [readonly]; the fault points of the tests do nothing. *)

From Stdlib Require Import Strings.Byte Strings.String ZArith Lia.
From S2P Require Import Prelude Float Wire Score Memory Command Store StoreInv StoreSpec Mutation StoreExec Replay Batch Routing Format MemoryFormat Profile MemoryLifecycle Expire Decoded Protocol Recovery RecoverySpec History.

#[local] Open Scope Z_scope.

(** ** The log *)

(** What a worker relies on: an acknowledged append is the next batch of the log; it
    stays on one shard unless the profile is mixed, and its mutations fit a record. *)
Class AofLog (A : Type) := {
  is_memory_profile : A → bool;
  record_limits : A → Limits;
  aof_append : A → ResolvedBatch → A * result AofError Z;
  aof_append_memory : A → MutationOrigin → list MMutation → A * result AofError Z;
  aof_batches : A → list (MutationOrigin * list MMutation);
  aof_profile : A → Profile;
  aof_log_layout : A → DurableLayout
}.

Definition appends `{AofLog A} (a : A) (o : MutationOrigin) (ms : list MMutation) (a' : A) (r : result AofError Z) : Prop :=
  aof_profile a' = aof_profile a ∧ aof_log_layout a' = aof_log_layout a ∧ is_memory_profile a' = is_memory_profile a ∧
  match r with
  | Ok _ => aof_batches a' = aof_batches a ++ [(o, ms)] ∧
      check_shards (aof_log_layout a) (bool_decide (aof_profile a = ComposedLegacyMixed)) None ms = Ok tt ∧
      Forall (λ mu, ∃ size, MMutation_encoded_bytes mu = Ok size) ms
  | Err _ => aof_batches a' = aof_batches a
  end.
Class AofLaws (A : Type) `{AofLog A} : Prop := {
  append_law a b a' r : aof_append a b = (a', r) → appends a (origin b) (from_storage <$> mutations b) a' r;
  append_memory_law a o ms a' r : aof_append_memory a o ms = (a', r) → appends a o ms a' r
}.

(** ** The worker *)

Inductive DbError := Unavailable | Timeout | ShuttingDown | SecurityExpired.

Record Worker A := { wk_store : Store; wk_aof : option A }.
Arguments wk_store {A}.
Arguments wk_aof {A}.
Arguments Build_Worker {A}.

Section Worker.
Context `{HashOrder} {A : Type} `{AofLog A}.

Definition with_store (w : Worker A) (s : Store) : Worker A := {| wk_store := s; wk_aof := wk_aof w |}.
Definition with_log (w : Worker A) (a : A) : Worker A := {| wk_store := wk_store w; wk_aof := Some a |}.

(** A record over the limit is refused before anything is written. *)
Definition persist (w : Worker A) (p : Prepared) : Worker A * result DbError (option Reply) :=
  match wk_aof w with
  | Some aof =>
      if negb (bool_decide (mutations (p_batch p) = [])) then
        let '(aof, r) := if is_memory_profile aof
                         then aof_append_memory aof (origin (p_batch p)) (resolved_memory_mutations (wk_store w) p)
                         else aof_append aof (p_batch p) in
        (with_log w aof,
         match r with
         | Ok _ => Ok None
         | Err (AofFormat FLimit) => Ok (Some (RError AofRecordLimit))
         | Err _ => Err Unavailable
         end)
      else (w, Ok None)
  | None => (w, Ok None)
  end.

Definition apply_prepared (w : Worker A) (p : Prepared) : option (Worker A * Reply) :=
  '(s, reply) ← apply (wk_store w) p; Some (with_store w s, reply).

Definition commit (readonly : bool) (w : Worker A) (p : Prepared) : option (Worker A * result DbError Reply) :=
  if readonly then Some (w, Ok (p_reply p))
  else
    let '(w, r) := persist w p in
    match r with
    | Err e => Some (w, Err e)
    | Ok (Some rejection) => Some (w, Ok rejection)
    | Ok None => '(w, reply) ← apply_prepared w p; Some (w, Ok reply)
    end.

Definition commit_memory (readonly : bool) (w : Worker A) (p : PreparedMemory) : option (Worker A * result DbError Reply) :=
  if readonly then Some (w, Ok (p_reply (pm_prepared p)))
  else
    let '(w, r) :=
      match wk_aof w, pm_resolved p with
      | Some aof, Some mu =>
          let '(aof, r) := aof_append_memory aof (origin (p_batch (pm_prepared p))) [mu] in
          (with_log w aof,
           match r with
           | Ok _ => Ok None
           | Err (AofFormat FLimit) => Ok (Some (RError AofRecordLimit))
           | Err _ => Err Unavailable
           end)
      | _, _ => (w, Ok None)
      end in
    match r with
    | Err e => Some (w, Err e)
    | Ok (Some rejection) => Some (w, Ok rejection)
    | Ok None => '(s, reply) ← apply_memory (wk_store w) p; Some (with_store w s, Ok reply)
    end.

(** The budget is halved while the record is too long; six halvings reach one. *)
Fixpoint expire_loop (fuel : nat) (budget : Z) (w : Worker A) (t : nat → Sample) : option (Worker A * result DbError unit) :=
  match fuel with
  | O => None
  | S fuel =>
      p ← prepare_expiration (wk_store w) (t O) budget;
      '(w, r) ← commit false w p;
      match r with
      | Ok (RError AofRecordLimit) =>
          if 1 <? budget then expire_loop fuel (budget / 2) w (λ n, t (S n)) else Some (w, Ok tt)
      | Ok _ => Some (w, Ok tt)
      | Err e => Some (w, Err e)
      end
  end.
Definition expire (w : Worker A) (t : nat → Sample) : option (Worker A * result DbError unit) := expire_loop 7 64 w t.

(** ** Requests *)

Inductive Request :=
| ReqMemory (key : bytes) (operation : Operation)
| ReqExecute (command : Command)
| ReqBatch (commands : list Command) (watched : list WatchToken)
| ReqWatch (keys : list bytes)
| ReqTransaction (commands : list Command) (watched : list WatchToken).
(** A transaction hands the reply to the subscription, which builds the output. *)
Inductive Response :=
| RespReply (reply : Reply)
| RespWatch (reply : Reply) (tokens : list WatchToken).

(** A token of another registry is not of this store. *)
Definition drop_tokens (w : Worker A) (tokens : list WatchToken) : Worker A :=
  let registry := watches (wk_store w) in
  with_store w (set_watches (wk_store w)
    (foldl drop_token registry (List.filter (λ token, Nat.eqb (r_id registry) (t_registry token)) tokens))).
Definition respond (r : option (Worker A * result DbError Reply)) : option (Worker A * result DbError Response * bool) :=
  '(w, r) ← r;
  Some match r with Ok reply => (w, Ok (RespReply reply), true) | Err e => (w, Err e, false) end.

(** The tokens are released whether or not they are valid. *)
Definition serve_batch (readonly : bool) (w : Worker A) (t : Sample) (commands : list Command) (watched : list WatchToken)
    : option (Worker A * result DbError Response * bool) :=
  if readonly && existsb writes_dataset commands then Some (w, Ok (RespReply (RError ReadOnly)), true)
  else
    let valid := watches_valid_at (wk_store w) watched (now t) in
    let w := drop_tokens w watched in
    if valid then p ← prepare_batch_at (wk_store w) commands t; respond (commit readonly w p)
    else Some (w, Ok (RespReply RNullArray), true).

(** The new worker, the response, and whether the worker goes on. *)
Definition serve (readonly : bool) (w : Worker A) (t t' : Sample) (r : Request) : option (Worker A * result DbError Response * bool) :=
  let refused := Some (w, Ok (RespReply (RError ReadOnly)), true) in
  match r with
  | ReqMemory key operation =>
      if readonly && Operation_writes_dataset operation then refused
      else if match wk_aof w with Some aof => negb (is_memory_profile aof) | None => false end then Some (w, Err Unavailable, true)
      else
        let limit := match wk_aof w with Some aof => max_record_bytes (record_limits aof) | None => MAX_RECORD_BYTES end in
        p ← prepare_memory_with_limit (wk_store w) t key operation limit;
        respond (commit_memory readonly w p)
  | ReqExecute command =>
      if readonly && writes_dataset command then refused
      else p ← prepare (wk_store w) t command; respond (commit readonly w p)
  | ReqBatch commands watched | ReqTransaction commands watched => serve_batch readonly w t commands watched
  | ReqWatch keys =>
      p ← prepare (wk_store w) t (CExists keys);
      '(w, r) ← commit readonly w p;
      Some match r with
           | Err e => (w, Err e, false)
           | Ok (RError e) => (w, Ok (RespWatch (RError e) []), true)
           | Ok _ => let '(s, tokens) := watch (wk_store w) (now t') keys in
                     (with_store w s, Ok (RespWatch ROk tokens), true)
           end
  end.
End Worker.

(** ** Prepared batches *)

(** A batch that can be applied to the store it was prepared on. *)
Record well_prepared (n : Z) (s : Store) (p : Prepared) : Prop := {
  wp_shape : p = prepared s (p_reply p) (p_entries p) (origin (p_batch p));
  wp_keys : NoDup (p_entries p).*1;
  wp_entries : Forall optional_ok (p_entries p);
  wp_quota : used_bytes s - zsum_with (λ e, charge s e.1) (p_entries p) + zsum_with optional_size (p_entries p)
               <= max_dataset_bytes (config s);
  wp_few : zlen (p_entries p) <= n
}.

Lemma finished_prepared s keys sh l r o :
  finished s keys sh l → well_prepared (zlen keys) s (prepared s r (entries_of sh l) o).
Proof.
  intros Hf. pose proof (finished_usage _ _ _ _ Hf) as Hu. pose proof (finished_keys _ _ _ _ Hf) as Hk.
  destruct Hf as [(sh0 & Hs & Hcs & Hcf) Hout Hsame Hl Hn]. split; cbn [p_entries p_reply p_batch prepared origin].
  - done.
  - by rewrite entries_of_keys.
  - apply Forall_fmap, Forall_true. intros k. unfold optional_ok. cbn. destruct (values sh !! k) eqn:E; [|done]. by eapply co_entries.
  - rewrite <- Hu, <- Hcf. apply Hcs.
  - unfold entries_of, zlen in *. rewrite length_fmap. lia.
Qed.

Lemma prepare_well `{HashOrder} s t c :
  store_wf s → command_scores c → generation s + 6 * zlen (visit_keys c) < 2 ^ 64 →
  ∃ p, prepare s t c = Some p ∧ well_prepared (zlen (visit_keys c)) s p ∧ ∀ k, k ∈ (p_entries p).*1 → k ∈ visit_keys c.
Proof.
  intros [Hc _ Hg] Hsc Hb. destruct (prepare_ok 0 s t c Hc Hg Hb Hsc) as (sh & l & r & -> & Hf & _).
  eexists. split; [done|]. split.
  - destruct (finished_prepared s _ sh l r (match c with CMemory _ _ => Client | _ => prepare_origin c end) Hf) as [? ? ? ? Hn].
    split; try done. pose proof (command_keys_length c). lia.
  - cbn [p_entries prepared]. rewrite entries_of_keys. intros k Hk%(fi_keys _ _ _ _ Hf). by apply command_keys_elem.
Qed.

Lemma batch_well `{HashOrder} s t commands :
  store_wf s → Forall command_scores commands → generation s + 6 * zlen (commands ≫= visit_keys) < 2 ^ 64 →
  ∃ p, prepare_batch_at s commands t = Some p ∧ well_prepared (zlen (commands ≫= visit_keys)) s p ∧
    ∀ k, k ∈ (p_entries p).*1 → k ∈ commands ≫= visit_keys.
Proof.
  intros Hw Hsc Hb. pose proof Hw as [Hc _ Hg]. unfold prepare_batch_at. destruct (existsb is_memory_command commands) eqn:Em.
  { eexists. split; [done|]. split; [|by intros k ?%not_elem_of_nil]. split; cbn; [done|constructor|constructor| |zlen_lia].
    pose proof (co_quota _ _ Hc). lia. }
  set (K := list_to_set (commands ≫= visit_keys)). destruct (begin_ok s t K Hc Hg) as (tx & -> & Ht & Eg & Hs).
  cbn [mbind option_bind]. pose proof (btree_set_iter_NoDup K) as Hn.
  assert (∀ k, k ∈ commands ≫= visit_keys ↔ k ∈ btree_set_iter K) as HK.
  { intros k. rewrite btree_set_iter_elem. unfold K. by rewrite elem_of_list_to_set. }
  destruct (batch_replies_ok s _ t commands tx Ht) as (tx' & rs & -> & Ht' & Hr); [naive_solver|done|..].
  { rewrite Eg. destruct Hc. lia. } { by rewrite Eg. }
  cbn [mbind option_bind]. destruct (seal_finished s _ tx' Hn Ht') as [Hf ->].
  eexists. split; [done|]. split.
  - destruct (finished_prepared s _ _ _ (RArray rs) Client Hf) as [? ? ? ? Hlen]. split; try done.
    assert (zlen (btree_set_iter K) <= zlen (commands ≫= visit_keys)); [|lia].
    unfold zlen. apply inj_le, submseteq_length, NoDup_submseteq; [done|]. intros k. by rewrite HK.
  - cbn [p_entries prepared]. rewrite entries_of_keys. intros k Hk%(fi_keys _ _ _ _ Hf). by apply HK.
Qed.

Lemma expiration_well s t budget :
  store_wf s → 0 <= budget →
  ∃ p, prepare_expiration s t budget = Some p ∧ well_prepared 64 s p ∧ ∀ k, k ∈ (p_entries p).*1 → is_Some (values s !! k).
Proof.
  intros Hw Hb. destruct (prepare_expiration_ok s t budget Hw Hb) as (events & entries & -> & Hev & Hn & Hx & Hsum).
  rewrite Forall_forall in Hx. assert (∀ x, x ∈ entries → _) as Hdue by (intros x Hin; exact (expiration_of_due s t x Hw (Hx x Hin))).
  eexists. split; [done|]. split; [split; cbn [p_entries p_reply p_batch prepared origin]|].
  - done.
  - done.
  - apply Forall_forall. intros x Hin. apply Hdue, Hin.
  - assert (zsum_with optional_size entries <= zsum_with (λ e, charge s e.1) entries); [|pose proof (co_quota _ _ (wf_core _ Hw)); lia].
    apply zsum_with_le. intros x Hin. apply Hdue, Hin.
  - assert (zsum_with (λ _, 1) entries <= zsum_with (removed s) entries) as Hz by (apply zsum_with_le; intros x Hin; apply Hdue, Hin).
    rewrite (zsum_const _ 1) in Hz by done. unfold MAX_EDITS in Hev. lia.
  - cbn [p_entries prepared]. intros k ([k' o] & -> & Hin)%list_elem_of_fmap. destruct (Hx _ Hin) as (e & He & _). by exists e.
Qed.

(** Applying a batch commits its mutations. *)
Lemma apply_well n s p :
  store_wf s → well_prepared n s p → generation s + 3 * n < 2 ^ 64 →
  ∃ s', apply s p = Some (s', p_reply p) ∧ store_wf s' ∧ config s' = config s ∧ generation s' <= generation s + 3 * n ∧
    effects raw_effect (persisted s) (mutations (p_batch p)) = persisted s' ∧
    ∀ k, k ∉ (p_entries p).*1 → values s' !! k = values s !! k.
Proof.
  intros Hw [Hp Hn He Hq Hl] Hg. pose proof Hw as [Hc _ Hgs]. rewrite Hp in Hn, He, Hq, Hl |- *. cbn [p_entries p_batch mutations prepared p_reply] in *.
  set (entries := p_entries p) in *.
  destruct (apply_ok 0 s (prepared s (p_reply p) entries (origin (p_batch p))) Hc) as (s' & Ha & Hc' & Hk & _ & _ & Hfr & Hv); [done..|].
  cbn [p_entries prepared p_reply] in *. exists s'. pose proof (zlen_nonneg entries).
  assert (store_wf s') as Hw' by (eapply wf_keeps; [done|done|exact Hk|lia]). split; [done|]. split; [done|]. split; [apply Hk|].
  split; [destruct Hk as [_ _ Hkg]; destruct (Hkg Hgs) as [_ ?]; [apply Hc|lia|lia]|]. split; [|done].
  assert (Mutation_key <$> (mutation_of <$> entries) = entries.*1) as Ek.
  { rewrite <- list_fmap_compose. apply list_fmap_ext. intros i x _. apply mutation_of_key. }
  apply map_eq. intros k. destruct (decide (k ∈ entries.*1)) as [Hin|Hin].
  - apply list_elem_of_fmap in Hin as ([k' o] & -> & Hin). cbn [fst].
    pose proof (effects_at raw_effect (persisted s) (mutation_of <$> entries) (mutation_of (k', o))) as Hx.
    rewrite mutation_of_key in Hx. cbn [fst] in Hx. rewrite Hx; [|by rewrite Ek|by apply list_elem_of_fmap_2].
    specialize (Hv k'). rewrite (elem_of_list_to_map_1 entries k' o) in Hv by done. rewrite lookup_persisted.
    destruct o as [e|], (values s' !! k') as [e'|]; try done. cbn in Hv |- *. injection Hv as H1 H2 H3 H4. unfold content. by rewrite H1, H3.
  - rewrite effects_other by (by rewrite Ek). by rewrite !lookup_persisted, Hfr.
Qed.

Lemma log_images_exact L seen ms images :
  Forall2 (λ mu image, log_image L mu = Some (Ok image) ∧ MMutation_key mu = Mutation_key image) ms images →
  NoDup (Mutation_key <$> images) → (∀ k, k ∈ Mutation_key <$> images → k ∉ seen) →
  log_images L seen ms = Some (Ok images).
Proof.
  intros Hall. revert seen. induction Hall as [|mu image ms images [Hi Hk] _ IH]; intros seen Hn Hs; [done|].
  rewrite fmap_cons in *. apply NoDup_cons in Hn as [Hn1 Hn]. cbn [log_images].
  rewrite Hk, bool_decide_eq_false_2 by (apply Hs; left). rewrite Hi. cbn [fallible_bind]. rewrite IH; [done|done|].
  intros k Hin. apply not_elem_of_union. split; [|apply Hs; by right]. intros ->%elem_of_singleton. done.
Qed.

Lemma entries_wf entries : Forall optional_ok entries → Forall mutation_wf (mutation_of <$> entries).
Proof. intros H. apply Forall_fmap. eapply Forall_impl; [exact H|]. intros x. apply mutation_of_wf. Qed.

Section Commits.
Context (n : Z) (s : Store) (p : Prepared) (s' : Store).
Context (Hs : store_wf s) (Hp : well_prepared n s p) (Heff : effects raw_effect (persisted s) (mutations (p_batch p)) = persisted s').

Lemma batch_mutations : mutations (p_batch p) = mutation_of <$> p_entries p.
Proof. by rewrite (wp_shape _ _ _ Hp). Qed.
Lemma batch_keys : Mutation_key <$> mutations (p_batch p) = (p_entries p).*1.
Proof. rewrite batch_mutations, <- list_fmap_compose. apply list_fmap_ext. intros i x _. apply mutation_of_key. Qed.
Lemma batch_wf : Forall mutation_wf (mutations (p_batch p)).
Proof. rewrite batch_mutations. apply entries_wf, Hp. Qed.

Lemma commits_of ms :
  Forall2 (λ mu image, log_image (persisted s) mu = Some (Ok image) ∧ MMutation_key mu = Mutation_key image) ms (mutations (p_batch p)) →
  commits (persisted s) ms (persisted s').
Proof.
  intros Hall. exists (mutations (p_batch p)). assert (NoDup (Mutation_key <$> mutations (p_batch p))) as Hn by (rewrite batch_keys; apply Hp).
  split_and!; [|done|done]. apply log_images_exact; [done|done|]. intros k _. apply not_elem_of_empty.
Qed.
Lemma commits_plain : commits (persisted s) (from_storage <$> mutations (p_batch p)) (persisted s').
Proof.
  apply commits_of. pose proof batch_wf as Hw. apply Forall2_fmap_l, Forall_Forall2_diag. eapply Forall_impl; [exact Hw|].
  intros mu Hm. split; [by apply from_storage_image|apply from_storage_key].
Qed.

Lemma encodable_edits key d edits x size : MMutation_encoded_bytes (Delta key d edits x) = Ok size → zlen edits <= MAX_EDITS.
Proof. cbn. destruct (_ || _) eqn:E; [done|]. intros _. apply orb_false_iff in E as [_ ?]. lia. Qed.
Lemma commits_resolved :
  Forall (λ mu, ∃ size, MMutation_encoded_bytes mu = Ok size) (resolved_memory_mutations s p) →
  commits (persisted s) (resolved_memory_mutations s p) (persisted s').
Proof.
  intros Hsz. apply commits_of. unfold resolved_memory_mutations in *. apply Forall2_fmap_l, Forall_Forall2_diag.
  rewrite Forall_forall in Hsz. apply Forall_forall. intros mu Hin. pose proof (proj1 (Forall_forall _ _) batch_wf mu Hin) as Hm.
  destruct (Hsz (resolve_mutation s mu)) as [size Hsize]; [by apply list_elem_of_fmap_2|]. destruct (resolve_mutation_ok s mu Hs Hm) as [Hk Hr].
  { intros key d edits x E. rewrite E in Hsize. by eapply encodable_edits. }
  split; [|done]. by rewrite <- replay_image_log.
Qed.
End Commits.

(** ** Write-ahead *)

Section Commit.
Context `{HashOrder} {A : Type} `{AofLaws A}.

(** The stores that a sequence of logged batches goes through. *)
Inductive chain (a : A) (keys : list bytes) : Store → list (MutationOrigin * list MMutation) → Store → Prop :=
| chain_nil s s' : persisted s' = persisted s → config s' = config s → chain a keys s [] s'
| chain_cons s o ms s1 batches s' :
    (∀ mu, mu ∈ ms → MMutation_key mu ∈ keys) →
    check_shards (aof_log_layout a) (bool_decide (aof_profile a = ComposedLegacyMixed)) None ms = Ok tt →
    commits (persisted s) ms (persisted s1) → store_wf s1 → config s1 = config s →
    chain a keys s1 batches s' → chain a keys s ((o, ms) :: batches) s'.

(** The log of a worker grew by exactly what its store committed. *)
Definition same_log (a a' : A) : Prop :=
  aof_profile a' = aof_profile a ∧ aof_log_layout a' = aof_log_layout a ∧ is_memory_profile a' = is_memory_profile a.
Definition logged (keys : list bytes) (w w' : Worker A) : Prop :=
  match wk_aof w, wk_aof w' with
  | None, None => True
  | Some a, Some a' =>
      same_log a a' ∧ ∃ batches, aof_batches a' = aof_batches a ++ batches ∧ chain a keys (wk_store w) batches (wk_store w')
  | _, _ => False
  end.

Lemma chain_start a keys s0 s batches s' :
  persisted s0 = persisted s → config s0 = config s → chain a keys s batches s' → chain a keys s0 batches s'.
Proof.
  intros Hp Hc Hch. destruct Hch as [s s' C1 C2|s o ms s1 batches s' C1 C2 C3 C4 C5 C6]; [constructor; congruence|].
  apply (chain_cons _ _ _ _ _ s1); try done; [by rewrite Hp|congruence].
Qed.
Lemma chain_app a keys s l s' k s'' : chain a keys s l s' → chain a keys s' k s'' → chain a keys s (l ++ k) s''.
Proof.
  intros Hch. revert k s''. induction Hch as [s s' C1 C2|s o ms s1 batches s' C1 C2 C3 C4 C5 _ IH]; intros k s'' Hk.
  - cbn. by eapply chain_start.
  - cbn. econstructor; eauto.
Qed.
Lemma chain_weaken a a' keys keys' s l s' :
  same_log a' a → (∀ k, k ∈ keys → k ∈ keys') → chain a keys s l s' → chain a' keys' s l s'.
Proof.
  intros (Hp & Hl & _) Hk. induction 1 as [s s' C1 C2|s o ms s1 batches s' C1 C2 C3 C4 C5 _ IH]; [by constructor|].
  apply (chain_cons _ _ _ _ _ s1); try done; [by auto|by rewrite <- Hp, <- Hl].
Qed.

(** One step of a worker, which touches some keys and takes some generations. *)
Record advances (n : Z) (keys : list bytes) (w w' : Worker A) : Prop := {
  ad_wf : store_wf (wk_store w');
  ad_config : config (wk_store w') = config (wk_store w);
  ad_generation : generation (wk_store w') <= generation (wk_store w) + n;
  ad_frame : ∀ k, k ∉ keys → values (wk_store w') !! k = values (wk_store w) !! k;
  ad_logged : logged keys w w'
}.

Lemma advances_refl n keys w : store_wf (wk_store w) → 0 <= n → advances n keys w w.
Proof. intros Hw Hn. split; [done|done|lia|done|]. unfold logged. destruct (wk_aof w); [|done]. split; [done|]. exists []. rewrite app_nil_r. split; [done|by constructor]. Qed.

Lemma advances_weaken n n' keys keys' w w' :
  n <= n' → (∀ k, k ∈ keys → k ∈ keys') → advances n keys w w' → advances n' keys' w w'.
Proof.
  intros Hn Hk [? ? ? Hf Hl]. split; [done|done|lia|intros k Hx; apply Hf; naive_solver|]. unfold logged in *.
  destruct (wk_aof w) as [a|], (wk_aof w'); try done. destruct Hl as (? & batches & ? & Hc). split; [done|]. exists batches.
  split; [done|]. by apply (chain_weaken a a keys keys').
Qed.
Lemma advances_trans n1 n2 keys w1 w2 w3 : advances n1 keys w1 w2 → advances n2 keys w2 w3 → advances (n1 + n2) keys w1 w3.
Proof.
  intros [? C1 ? F1 L1] [? C2 ? F2 L2]. split; [done|congruence|lia|intros k Hk; by rewrite F2, F1|]. unfold logged in *.
  destruct (wk_aof w1) as [a1|], (wk_aof w2) as [a2|], (wk_aof w3) as [a3|]; try done.
  destruct L1 as ((? & ? & ?) & l1 & E1 & Ch1), L2 as ((? & ? & ?) & l2 & E2 & Ch2). split; [unfold same_log; split_and!; congruence|].
  exists (l1 ++ l2). split; [by rewrite E2, E1, app_assoc|]. eapply chain_app; [done|]. by apply (chain_weaken a2 a1 keys keys).
Qed.

(** An append that is refused leaves the store and the acknowledged batches. *)
Lemma advances_refused n keys w a a' o ms e :
  store_wf (wk_store w) → 0 <= n → wk_aof w = Some a → appends a o ms a' (Err e) → advances n keys w (with_log w a').
Proof.
  intros Hw Hn Ha (A1 & A2 & A3 & A4). split; [done|done|cbn; lia|done|]. unfold logged. rewrite Ha. cbn. split; [done|].
  exists []. rewrite app_nil_r. split; [done|by constructor].
Qed.

Lemma resolved_keys s p : MMutation_key <$> resolved_memory_mutations s p = Mutation_key <$> mutations (p_batch p).
Proof.
  unfold resolved_memory_mutations. rewrite <- list_fmap_compose. apply list_fmap_ext. intros i mu _. unfold compose, resolve_mutation.
  destruct mu as [k v x|k]; [|done]. destruct v; try done. cbn. destruct (values s !! k) as [[v ? ? ? ?]|]; [|done].
  destruct v; try done. by case_bool_decide.
Qed.
Lemma from_storage_keys (l : list Mutation) : MMutation_key <$> (from_storage <$> l) = Mutation_key <$> l.
Proof. rewrite <- list_fmap_compose. apply list_fmap_ext. intros i mu _. apply from_storage_key. Qed.

(** The batch is in the log before it is applied. *)
Lemma advances_applied n w a a' o ms z p :
  store_wf (wk_store w) → well_prepared n (wk_store w) p → generation (wk_store w) + 3 * n < 2 ^ 64 →
  wk_aof w = Some a → appends a o ms a' (Ok z) → MMutation_key <$> ms = (p_entries p).*1 →
  (∀ s', effects raw_effect (persisted (wk_store w)) (mutations (p_batch p)) = persisted s' → commits (persisted (wk_store w)) ms (persisted s')) →
  ∃ s', apply (wk_store w) p = Some (s', p_reply p) ∧ advances (3 * n) (p_entries p).*1 w (with_store (with_log w a') s').
Proof.
  intros Hw Hp Hg Ha (A1 & A2 & A3 & A4 & A5 & A6) Hk Hc.
  destruct (apply_well n _ p Hw Hp Hg) as (s' & Hs' & Hw' & Hcf & Hg' & Heff & Hfr). exists s'. split; [done|].
  split; [done|done|done|done|]. unfold logged. rewrite Ha. cbn. split; [done|]. exists [(o, ms)]. split; [done|].
  apply (chain_cons _ _ _ _ _ s'); [|done|by apply Hc|done|done|by constructor].
  intros mu Hmu. rewrite <- Hk. by apply list_elem_of_fmap_2.
Qed.

Lemma commit_spec n readonly w p :
  store_wf (wk_store w) → well_prepared n (wk_store w) p → generation (wk_store w) + 3 * n < 2 ^ 64 → 0 <= n →
  ∃ w' r, commit readonly w p = Some (w', r) ∧ advances (3 * n) (p_entries p).*1 w w'.
Proof.
  intros Hw Hp Hg Hn. unfold commit. destruct readonly; [eexists _, _; split; [done|]; apply advances_refl; [done|lia]|].
  unfold persist, apply_prepared. destruct (wk_aof w) as [a|] eqn:Ea.
  - destruct (bool_decide (mutations (p_batch p) = [])) eqn:Em; cbn [negb].
    + apply bool_decide_eq_true in Em. destruct (apply_well n _ p Hw Hp Hg) as (s' & -> & Hw' & Hcf & Hg' & Heff & Hfr).
      cbn [mbind option_bind]. eexists _, _. split; [done|]. split; [done|done|done|done|].
      unfold logged. cbn [wk_aof wk_store with_store]. rewrite Ea. split; [done|].
      exists []. rewrite app_nil_r. split; [done|]. constructor; [|done]. rewrite Em in Heff. by rewrite <- Heff.
    + clear Em. destruct (is_memory_profile a) eqn:Ep.
      * destruct (aof_append_memory a _ _) as [a' [z|e]] eqn:Eap; apply append_memory_law in Eap.
        -- destruct (advances_applied n w a a' _ _ z p Hw Hp Hg Ea Eap) as (s' & Ha & Had).
           { by rewrite resolved_keys, (batch_keys n (wk_store w) p Hp). }
           { intros s' Heff. destruct Eap as (_ & _ & _ & _ & _ & Hsz). by eapply commits_resolved. }
           cbn [wk_store with_log]. rewrite Ha. cbn [mbind option_bind]. by eexists _, _.
        -- assert (advances (3 * n) (p_entries p).*1 w (with_log w a')) as Hr by (by eapply advances_refused; [|lia|..]).
           destruct e as [| |[]| | | | | | | | | |]; by eexists _, _.
      * destruct (aof_append a _) as [a' [z|e]] eqn:Eap; apply append_law in Eap.
        -- destruct (advances_applied n w a a' _ _ z p Hw Hp Hg Ea Eap) as (s' & Ha & Had).
           { by rewrite from_storage_keys, (batch_keys n (wk_store w) p Hp). }
           { intros s' Heff. by eapply commits_plain. }
           cbn [wk_store with_log]. rewrite Ha. cbn [mbind option_bind]. by eexists _, _.
        -- assert (advances (3 * n) (p_entries p).*1 w (with_log w a')) as Hr by (by eapply advances_refused; [|lia|..]).
           destruct e as [| |[]| | | | | | | | | |]; by eexists _, _.
  - destruct (apply_well n _ p Hw Hp Hg) as (s' & -> & Hw' & Hcf & Hg' & Heff & Hfr).
    cbn [mbind option_bind]. eexists _, _. split; [done|]. split; [done|done|done|done|]. unfold logged. cbn [wk_aof wk_store with_store]. by rewrite Ea.
Qed.

Lemma commit_memory_spec readonly w t key o limit :
  store_wf (wk_store w) → generation (wk_store w) + 6 < 2 ^ 64 →
  ∃ p w' r, prepare_memory_with_limit (wk_store w) t key o limit = Some p ∧ commit_memory readonly w p = Some (w', r) ∧
    advances 3 [key] w w'.
Proof.
  intros Hw Hg. pose proof Hw as [Hc _ Hgs]. destruct (prepare_memory_ok 0 _ t key o limit Hc Hgs Hg) as (p & sh & l & r & Ep & Epp & Hf & Hrec).
  exists p. pose proof (finished_prepared _ _ _ _ r (memory_origin o) Hf) as Hp. rewrite <- Epp in Hp. change (zlen [key]) with 1 in Hp.
  assert (p_entries (pm_prepared p) = entries_of sh l) as Ee by (by rewrite Epp).
  assert (∀ k, k ∈ (p_entries (pm_prepared p)).*1 → k ∈ [key]) as Hk by (rewrite Ee, entries_of_keys; apply Hf).
  assert (∀ w' : Worker A, advances (3 * 1) (p_entries (pm_prepared p)).*1 w w' → advances 3 [key] w w') as Hweak
    by (intros w'; apply advances_weaken; [lia|done]).
  unfold commit_memory, apply_memory. destruct readonly; [eexists _, _; split_and!; [done..|apply advances_refl; [done|lia]]|].
  destruct (wk_aof w) as [a|] eqn:Ea; [destruct (pm_resolved p) as [mu|] eqn:Er|].
  - cbn in Hrec. destruct Hrec as (-> & Hkey & Hr & Hmem).
    destruct (aof_append_memory a _ _) as [a' [z|e]] eqn:Eap; apply append_memory_law in Eap.
    + destruct (advances_applied 1 w a a' _ _ z (pm_prepared p) Hw Hp ltac:(lia) Ea Eap) as (s' & Ha & Had).
      { rewrite Ee, entries_of_keys. cbn. by rewrite Hkey. }
      { intros s' Heff. eapply commits_of; [done|done|]. rewrite (batch_mutations _ _ _ Hp), Ee. constructor; [|constructor].
        rewrite <- replay_image_log, Hr. by rewrite mutation_of_key. }
      cbn [wk_store with_log]. rewrite Ha. cbn [mbind option_bind]. eexists _, _. split_and!; [done..|by apply Hweak].
    + assert (advances 3 [key] w (with_log w a')) as Hr' by (by eapply advances_refused; [|lia|..]).
      destruct e as [| |[]| | | | | | | | | |]; eexists _, _; by split_and!.
  - cbn in Hrec. subst l. destruct (apply_well 1 _ _ Hw Hp ltac:(lia)) as (s' & -> & Hw' & Hcf & Hg' & Heff & Hfr).
    cbn [mbind option_bind]. eexists _, _. split_and!; [done..|]. apply Hweak. split; [done|done|done|done|].
    unfold logged. cbn [wk_aof wk_store with_store]. rewrite Ea. split; [done|]. exists []. rewrite app_nil_r. split; [done|].
    constructor; [|done]. rewrite (batch_mutations _ _ _ Hp), Ee in Heff. by rewrite <- Heff.
  - destruct (apply_well 1 _ _ Hw Hp ltac:(lia)) as (s' & -> & Hw' & Hcf & Hg' & Heff & Hfr).
    cbn [mbind option_bind]. eexists _, _. split_and!; [done..|]. apply Hweak. split; [done|done|done|done|].
    unfold logged. cbn [wk_aof wk_store with_store]. by rewrite Ea.
Qed.
End Commit.

(** ** Every request and every tick *)

Definition request_keys (r : Request) : list bytes :=
  match r with
  | ReqMemory key _ => [key]
  | ReqExecute command => visit_keys command
  | ReqBatch commands _ | ReqTransaction commands _ => commands ≫= visit_keys
  | ReqWatch keys => keys
  end.
Definition request_scores (r : Request) : Prop :=
  match r with
  | ReqMemory _ _ | ReqWatch _ => True
  | ReqExecute command => command_scores command
  | ReqBatch commands _ | ReqTransaction commands _ => Forall command_scores commands
  end.

Section Serve.
Context `{HashOrder} {A : Type} `{AofLaws A}.

Definition all_keys (s : Store) : list bytes := (map_to_list (values s)).*1.
Lemma all_keys_elem s k : k ∈ all_keys s ↔ is_Some (values s !! k).
Proof.
  unfold all_keys. rewrite list_elem_of_fmap. split.
  - intros ([k' e] & -> & Hin%elem_of_map_to_list). by exists e.
  - intros [e He]. exists (k, e). split; [done|]. by apply elem_of_map_to_list.
Qed.

Lemma set_watches_wf s r : store_wf s → store_wf (set_watches s r).
Proof. intros [[] [] ?]. split; [by split|by split|done]. Qed.
Lemma watch_watches s at_ keys : ∃ r, (watch s at_ keys).1 = set_watches s r.
Proof.
  revert s. induction keys as [|key keys IH]; intros s; cbn; [exists (watches s); by destruct s|].
  destruct (token _ _ _) as [r tok]. destruct (IH (set_watches s r)) as [r' Hr']. destruct (watch (set_watches s r) at_ keys) as [s' toks].
  cbn in *. by exists r'.
Qed.
Lemma advances_watches n keys w w' r :
  advances n keys w w' → advances n keys w (with_store w' (set_watches (wk_store w') r)).
Proof.
  intros [? ? ? ? Hl]. split; [by apply set_watches_wf|done|done|done|]. unfold logged in *. cbn [wk_aof wk_store with_store].
  destruct (wk_aof w), (wk_aof w'); try done. destruct Hl as (? & batches & ? & Hc). split; [done|]. exists batches. split; [done|].
  rewrite <- (app_nil_r batches). eapply chain_app; [exact Hc|by constructor].
Qed.

Lemma respond_spec n keys w r :
  (∃ w' reply, r = Some (w', reply) ∧ advances n keys w w') →
  ∃ w' response healthy, respond (A := A) r = Some (w', response, healthy) ∧ advances n keys w w'.
Proof. intros (w' & reply & -> & Ha). unfold respond. cbn. destruct reply; by eexists _, _, _. Qed.

Lemma serve_batch_spec readonly w t commands watched n :
  store_wf (wk_store w) → Forall command_scores commands → n = zlen (commands ≫= visit_keys) → generation (wk_store w) + 6 * (n + 1) < 2 ^ 64 →
  ∃ w' response healthy, serve_batch readonly w t commands watched = Some (w', response, healthy) ∧
    advances (6 * (n + 1)) (commands ≫= visit_keys) w w'.
Proof.
  intros Hw Hsc -> Hg. set (n := zlen (commands ≫= visit_keys)) in *. assert (0 <= n) as Hn by apply zlen_nonneg.
  assert (advances (6 * (n + 1)) (commands ≫= visit_keys) w w) as Hrefl by (apply advances_refl; [done|lia]).
  unfold serve_batch. destruct (_ && _); [by eexists _, _, _|]. cbv zeta. unfold drop_tokens. set (reg := foldl _ _ _).
  destruct (watches_valid_at _ _ _); [|eexists _, _, _; split; [done|]; by apply advances_watches].
  set (w0 := with_store w (set_watches (wk_store w) reg)).
  destruct (batch_well (wk_store w0) t commands) as (p & -> & Hp & Hk); [by apply set_watches_wf|done|cbn; lia|].
  cbn [mbind option_bind]. destruct (commit_spec n readonly w0 p) as (w' & rr & Hc & Ha); [by apply set_watches_wf|done|cbn; lia|lia|].
  apply respond_spec. exists w', rr. split; [done|]. apply (advances_weaken (3 * n) _ (p_entries p).*1); [lia|done|].
  destruct Ha as [? ? ? ? Hl]. split; [done..|]. unfold logged in *. cbn [wk_aof w0 with_store] in Hl.
  destruct (wk_aof w), (wk_aof w'); try done. destruct Hl as (? & batches & ? & Hch). split; [done|]. exists batches. split; [done|].
  by eapply chain_start; [| |exact Hch].
Qed.

Lemma serve_spec readonly w t t' r :
  store_wf (wk_store w) → request_scores r → generation (wk_store w) + 6 * (zlen (request_keys r) + 1) < 2 ^ 64 →
  ∃ w' response healthy, serve readonly w t t' r = Some (w', response, healthy) ∧
    advances (6 * (zlen (request_keys r) + 1)) (request_keys r) w w'.
Proof.
  intros Hw Hs Hg. pose proof (zlen_nonneg (request_keys r)) as Hn.
  assert (advances (6 * (zlen (request_keys r) + 1)) (request_keys r) w w) as Hrefl by (apply advances_refl; [done|lia]).
  destruct r as [key operation|command|commands watched|keys|commands watched]; cbn [serve request_keys] in *; try (by apply serve_batch_spec).
  - change (zlen [key]) with 1 in *. destruct (_ && _); [by eexists _, _, _; eauto|]. destruct (match wk_aof w with Some _ => _ | None => _ end); [by eexists _, _, _; eauto|].
    set (limit := match wk_aof w with Some _ => _ | None => _ end).
    destruct (commit_memory_spec readonly w t key operation limit Hw ltac:(lia)) as (p & w' & rr & -> & Hc & Ha). cbn [mbind option_bind].
    apply respond_spec. exists w', rr. split; [done|]. by apply (advances_weaken 3 _ [key]); [lia|..].
  - destruct (_ && _); [by eexists _, _, _; eauto|].
    destruct (prepare_well (wk_store w) t command Hw Hs ltac:(lia)) as (p & -> & Hp & Hk). cbn [mbind option_bind].
    destruct (commit_spec _ readonly w p Hw Hp ltac:(lia) ltac:(lia)) as (w' & rr & Hc & Ha).
    apply respond_spec. exists w', rr. split; [done|]. by apply (advances_weaken (3 * zlen (visit_keys command)) _ (p_entries p).*1); [lia|..].
  - destruct (prepare_well (wk_store w) t (CExists keys) Hw I ltac:(cbn; lia)) as (p & -> & Hp & Hk). cbn [mbind option_bind visit_keys] in *.
    destruct (commit_spec _ readonly w p Hw Hp ltac:(lia) ltac:(lia)) as (w' & rr & -> & Ha). cbn [mbind option_bind].
    apply (advances_weaken (3 * zlen keys) (6 * (zlen keys + 1)) _ keys) in Ha; [|lia|done].
    destruct (watch_watches (wk_store w') (now t') keys) as [reg Hreg]. destruct (watch (wk_store w') (now t') keys) as [s' tokens]. cbn in Hreg.
    destruct rr as [reply|e]; [|by eexists _, _, _]. destruct reply; try (eexists _, _, _; split; [done|]; subst s'; by apply advances_watches).
    by eexists _, _, _.
Qed.

Lemma expire_loop_spec fuel budget w t :
  store_wf (wk_store w) → 1 <= budget < 2 ^ Z.of_nat fuel → generation (wk_store w) + 192 * Z.of_nat fuel < 2 ^ 64 →
  ∃ w' r, expire_loop fuel budget w t = Some (w', r) ∧ advances (192 * Z.of_nat fuel) (all_keys (wk_store w)) w w'.
Proof.
  revert budget w t. induction fuel as [|fuel IH]; intros budget w t Hw Hb Hg; [cbn in Hb; lia|]. cbn [expire_loop].
  destruct (expiration_well (wk_store w) (t O) budget Hw ltac:(lia)) as (p & -> & Hp & Hk). cbn [mbind option_bind].
  destruct (commit_spec 64 false w p Hw Hp ltac:(lia) ltac:(lia)) as (w1 & r & -> & Ha). cbn [mbind option_bind].
  assert (∀ k, k ∈ (p_entries p).*1 → k ∈ all_keys (wk_store w)) as Hk' by (intros k Hin; by apply all_keys_elem, Hk).
  apply (advances_weaken (3 * 64) 192 _ (all_keys (wk_store w))) in Ha; [|lia|done].
  assert (advances (192 * Z.of_nat (S fuel)) (all_keys (wk_store w)) w w1) as Hdone by (by eapply advances_weaken; [| |exact Ha]; [lia|]).
  assert (1 < budget → ∃ w' r, expire_loop fuel (budget / 2) w1 (λ n, t (S n)) = Some (w', r) ∧
            advances (192 * Z.of_nat (S fuel)) (all_keys (wk_store w)) w w') as Hmore.
  { intros Hb1. destruct (IH (budget / 2) w1 (λ n, t (S n))) as (w' & r' & He & Ha').
    - apply Ha.
    - split; [apply Z.div_le_lower_bound; lia|]. apply Z.div_lt_upper_bound; [lia|]. rewrite Nat2Z.inj_succ, Z.pow_succ_r in Hb by lia. lia.
    - pose proof (ad_generation _ _ _ _ Ha). lia.
    - exists w', r'. split; [done|]. replace (192 * Z.of_nat (S fuel)) with (192 + 192 * Z.of_nat fuel) by lia.
      eapply advances_trans; [exact Ha|]. eapply advances_weaken; [| |exact Ha']; [lia|]. intros k Hin%all_keys_elem. apply all_keys_elem.
      destruct (decide (k ∈ all_keys (wk_store w))) as [Hx|Hx]; [by apply all_keys_elem|]. by rewrite <- (ad_frame _ _ _ _ Ha k Hx). }
  destruct r as [reply|e]; [|by eexists _, _]. destruct reply as [| | | | | |e']; try (by eexists _, _).
  destruct e'; try (by eexists _, _). destruct (Z.ltb_spec 1 budget); [by apply Hmore|by eexists _, _].
Qed.
Lemma expire_spec w t :
  store_wf (wk_store w) → generation (wk_store w) + 1344 < 2 ^ 64 →
  ∃ w' r, expire w t = Some (w', r) ∧ advances 1344 (all_keys (wk_store w)) w w'.
Proof. intros Hw Hg. apply (expire_loop_spec 7); [done|done|cbn; lia]. Qed.
End Serve.
