(* ===== verification/System.v ===== *)
(** * The workers and their log

    The shards of src/storage/worker.rs with one writer: every request goes to the
    worker that owns its keys (src/storage/routing.rs), and the ordered snapshot of all
    the shards (src/storage/snapshot.rs) starts a generation of the log.  What the
    workers commit is what a recovery of the log yields. *)

From Stdlib Require Import Strings.Byte Strings.String ZArith Lia.
From S2P Require Import Prelude Float Wire Score Memory Command Store StoreInv StoreSpec Mutation StoreExec Replay Batch Routing Format MemoryFormat Profile MemoryLifecycle Expire Decoded Protocol Recovery RecoverySpec History Worker.

#[local] Open Scope Z_scope.

Lemma log_images_keys L seen ms images :
  log_images L seen ms = Some (Ok images) → MMutation_key <$> ms = Mutation_key <$> images.
Proof.
  revert seen images. induction ms as [|mu ms IH]; intros seen images; cbn; [by intros [= <-]|].
  case_bool_decide; [done|]. destruct (log_image L mu) as [[image|e]|] eqn:Ei; cbn; [|done..].
  destruct (log_images L _ ms) as [[images'|e]|] eqn:Em; cbn; [|done..]. intros [= <-]. cbn. rewrite (IH _ _ Em). f_equal.
  destruct mu as [mu|k c x|k d edits x]; cbn in Ei; [by injection Ei as ->| |].
  - destruct (validate_key c k); cbn in Ei; [|done]. by injection Ei as <-.
  - destruct (L !! k) as [[[] ?]|]; try done. destruct (apply_edits _ _ _ _) as [[c|e]|]; cbn in Ei; [|done..]. by injection Ei as <-.
Qed.

(** ** The dataset of the shards *)

Section Shards.
Context (layout : DurableLayout) (total : Z).

(** Each store holds the keys of its shard, within the quota of its shard. *)
Record shard_ok (i : nat) (s : Store) : Prop := {
  sk_wf : store_wf s;
  sk_owned : ∀ k, is_Some (values s !! k) → shard_of layout k = Z.of_nat i;
  sk_quota : max_dataset_bytes (config s) = shard_quota layout total (Z.of_nat i)
}.
Record shards_ok (ss : list Store) : Prop := {
  ss_length : length ss = Z.to_nat (shard_count layout);
  ss_shard : ∀ i s, ss !! i = Some s → shard_ok i s
}.

Definition global (ss : list Store) : dataset := foldr (λ s m, persisted s ∪ m) ∅ ss.

Lemma global_lookup ss k :
  (∀ i s, ss !! i = Some s → ∀ k, is_Some (values s !! k) → shard_of layout k = Z.of_nat i) →
  0 <= shard_of layout k → global ss !! k = ss !! Z.to_nat (shard_of layout k) ≫= (λ s, persisted s !! k).
Proof.
  intros Ho H0.
  assert (∀ l n, (∀ i s, l !! i = Some s → ∀ k, is_Some (values s !! k) → shard_of layout k = Z.of_nat (n + i)) →
    Z.of_nat n <= shard_of layout k → global l !! k = l !! (Z.to_nat (shard_of layout k) - n)%nat ≫= (λ s, persisted s !! k)) as H.
  { induction l as [|s l IH]; intros n Hl Hn; [done|]. cbn [global foldr]. fold (global l).
    destruct (decide (Z.to_nat (shard_of layout k) = n)) as [E|E].
    - rewrite E, Nat.sub_diag. cbn. destruct (persisted s !! k) as [c|] eqn:Ec; [by erewrite lookup_union_Some_l|].
      rewrite lookup_union_r by done. destruct (global l !! k) as [c|] eqn:Eg; [|done]. exfalso.
      assert (∃ i s', l !! i = Some s' ∧ is_Some (values s' !! k)) as (i & s' & Hi & Hk).
      { clear -Eg. induction l as [|s' l IH]; [done|]. cbn [global foldr] in Eg. fold (global l) in Eg.
        destruct (persisted s' !! k) as [c'|] eqn:Ec.
        - exists O, s'. split; [done|]. rewrite lookup_persisted in Ec. by destruct (values s' !! k).
        - rewrite lookup_union_r in Eg by done. destruct (IH Eg) as (i & s'' & ? & ?). by exists (S i), s''. }
      pose proof (Hl (S i) s' Hi k Hk). lia.
    - assert (persisted s !! k = None) as Ep.
      { rewrite lookup_persisted. destruct (values s !! k) eqn:Ev; [|done]. pose proof (Hl O s eq_refl k ltac:(by rewrite Ev)). lia. }
      rewrite lookup_union_r by done. rewrite (IH (S n)).
      + by replace (Z.to_nat (shard_of layout k) - n)%nat with (S (Z.to_nat (shard_of layout k) - S n)) by lia.
      + intros i s' Hi k' Hk'. rewrite (Hl (S i) s' Hi k' Hk'). lia.
      + lia. }
  rewrite (H ss O); [by rewrite Nat.sub_0_r|done|lia].
Qed.

Context (Hlayout : DurableLayout_validate layout = Ok tt).

Lemma global_owned ss i s k :
  shards_ok ss → ss !! i = Some s → shard_of layout k = Z.of_nat i → global ss !! k = persisted s !! k.
Proof.
  intros [_ Hs] Hi Hk. rewrite global_lookup; [|intros j s' Hj; apply (Hs j s' Hj)|lia].
  rewrite Hk, Nat2Z.id, Hi. done.
Qed.
Lemma global_other ss i s' k :
  shards_ok ss → shards_ok (<[i := s']> ss) → shard_of layout k ≠ Z.of_nat i → global (<[i := s']> ss) !! k = global ss !! k.
Proof.
  intros [_ H1] [_ H2] Hk. pose proof (shard_for_ok layout Hlayout k).
  rewrite !global_lookup; [|intros j s Hj; apply (H1 j s Hj)|lia|intros j s Hj; apply (H2 j s Hj)|lia].
  rewrite list_lookup_insert_ne by lia. done.
Qed.

Lemma global_sized ss : shards_ok ss → sized (global ss).
Proof.
  intros Hok k c. pose proof Hok as [_ Hs]. pose proof (shard_for_ok layout Hlayout k).
  rewrite global_lookup; [|intros j s' Hj; apply (Hs j s' Hj)|lia].
  destruct (ss !! _) as [s|] eqn:E; [|done]. cbn. apply persisted_sized. by apply (Hs _ s E).
Qed.
Lemma global_within ss : shards_ok ss → within_shards layout total (global ss).
Proof.
  intros Hok shard Hr. pose proof Hok as [Hlen Hs]. destruct (lookup_lt_is_Some_2 ss (Z.to_nat shard)) as [s Hi]; [lia|].
  destruct (Hs _ s Hi) as [Hw Ho Hq]. rewrite Z2Nat.id in Ho, Hq by lia. rewrite <- Hq. etrans; [|apply (co_quota _ _ (wf_core _ Hw))].
  rewrite content_size_used by apply Hw. apply map_zsum_le; [by apply persisted_sized|]. intros k c Hk.
  destruct (Z.eqb_spec (shard_of layout k) shard) as [E|]; [right|by left]. exists c. split; [|done].
  rewrite <- Hk. symmetry. apply (global_owned ss (Z.to_nat shard) s k); [done|done|]. by rewrite Z2Nat.id by lia.
Qed.

(** A worker that commits keys of its shard commits them for the whole dataset. *)
Lemma commits_shard ss i s s' ms :
  shards_ok ss → ss !! i = Some s → store_wf s' → config s' = config s → commits (persisted s) ms (persisted s') →
  (∀ mu, mu ∈ ms → shard_of layout (MMutation_key mu) = Z.of_nat i) →
  shards_ok (<[i := s']> ss) ∧ commits (global ss) ms (global (<[i := s']> ss)).
Proof.
  intros Hok Hi Hw' Hcf (images & Him & Hn & Heff) Hms. pose proof Hok as [Hlen Hs]. destruct (Hs i s Hi) as [Hw Ho Hq].
  assert (∀ seen, log_images (persisted s) seen ms = log_images (global ss) seen ms) as Himg.
  { clear Him. induction ms as [|mu ms IH]; intros seen; [done|]. cbn. case_bool_decide; [done|].
    rewrite IH by (intros; apply Hms; by right). f_equal. destruct mu as [mu|k c x|k d edits x]; [done..|]. cbn.
    rewrite (global_owned ss i s k) by (done || apply (Hms (Delta k d edits x)); left). done. }
  assert (∀ k, k ∈ Mutation_key <$> images → shard_of layout k = Z.of_nat i) as Hkeys.
  { apply log_images_keys in Him as <-. intros k (mu & -> & Hmu)%list_elem_of_fmap. by apply Hms. }
  assert (shards_ok (<[i := s']> ss)) as Hok'.
  { split; [by rewrite length_insert|]. intros j sj Hj. apply list_lookup_insert_Some in Hj as [(<- & <- & _)|(Hne & Hj)]; [|by apply Hs].
    split; [done| |congruence]. intros k Hk. destruct (decide (k ∈ Mutation_key <$> images)) as [Hin|Hin]; [by apply Hkeys|]. apply Ho.
    assert (persisted s' !! k = persisted s !! k) as Hp by (rewrite <- Heff; by apply effects_other). rewrite !lookup_persisted in Hp.
    destruct (values s !! k); [done|]. by destruct (values s' !! k); [|destruct Hk]. }
  split; [done|]. exists images. split; [by rewrite <- Himg|]. split; [done|]. apply map_eq. intros k.
  assert ((<[i := s']> ss) !! i = Some s') as Hi' by (apply list_lookup_insert_eq; by eapply lookup_lt_Some).
  destruct (decide (shard_of layout k = Z.of_nat i)) as [Hk|Hk].
  - rewrite (global_owned _ i s') by done. rewrite <- Heff. destruct (decide (k ∈ Mutation_key <$> images)) as [Hin|Hin].
    + apply list_elem_of_fmap in Hin as (mu & -> & Hmu). by rewrite !effects_at.
    + rewrite !effects_other by done. by apply (global_owned ss i s).
  - rewrite effects_other by (done || naive_solver). by rewrite global_other.
Qed.
End Shards.

(** ** Steps of the system *)

Record System A := { sy_stores : list Store; sy_aof : A }.
Arguments sy_stores {A}.
Arguments sy_aof {A}.

(** A request at a worker, or a tick of its expiration. *)
Inductive Event :=
| EvRequest (shard : nat) (readonly : bool) (t t' : Sample) (request : Request)
| EvTick (shard : nat) (t : nat → Sample).
Definition event_shard (ev : Event) : nat := match ev with EvRequest i _ _ _ _ | EvTick i _ => i end.
Definition event_weight (ev : Event) : Z :=
  match ev with EvRequest _ _ _ _ r => 6 * (zlen (request_keys r) + 1) | EvTick _ _ => 1344 end.
(** The router sends a request to the owner of its keys. *)
Definition event_ok (layout : DurableLayout) (ev : Event) : Prop :=
  Z.of_nat (event_shard ev) < shard_count layout ∧
  match ev with
  | EvRequest i _ _ _ r => request_scores r ∧ ∀ k, k ∈ request_keys r → shard_of layout k = Z.of_nat i
  | EvTick _ _ => True
  end.

Section System.
Context `{HashOrder} {A : Type} `{AofLaws A}.

Definition event_at (w : Worker A) (ev : Event) : option (Worker A * bool) :=
  match ev with
  | EvRequest _ readonly t t' r => '(w, _, healthy) ← serve readonly w t t' r; Some (w, healthy)
  | EvTick _ t => '(w, r) ← expire w t; Some (w, match r with Ok _ => true | Err _ => false end)
  end.
Definition system_step (σ : System A) (ev : Event) : option (System A * bool) :=
  s ← sy_stores σ !! event_shard ev;
  '(w, healthy) ← event_at {| wk_store := s; wk_aof := Some (sy_aof σ) |} ev;
  Some ({| sy_stores := <[event_shard ev := wk_store w]> (sy_stores σ); sy_aof := default (sy_aof σ) (wk_aof w) |}, healthy).
(** A worker that fails stops the server. *)
Fixpoint system_run (σ : System A) (evs : list Event) : option (System A * bool) :=
  match evs with
  | [] => Some (σ, true)
  | ev :: evs => '(σ, healthy) ← system_step σ ev; if (healthy : bool) then system_run σ evs else Some (σ, false)
  end.

Context (layout : DurableLayout) (total : Z) (p : Profile) (Hlayout : DurableLayout_validate layout = Ok tt).

Lemma chain_history a keys ss i s batches s' :
  aof_profile a = p → aof_log_layout a = layout → (∀ k, k ∈ keys → shard_of layout k = Z.of_nat i) →
  chain a keys s batches s' → store_wf s' → shards_ok layout total ss → ss !! i = Some s →
  shards_ok layout total (<[i := s']> ss) ∧ history p layout total (global ss) (snd <$> batches) (global (<[i := s']> ss)).
Proof.
  intros Hp Hl Hk Hch. revert ss. induction Hch as [s s' C1 C2|s o ms s1 batches s' C1 C2 C3 C4 C5 _ IH]; intros ss Hw Hok Hi.
  - assert (commits (persisted s) [] (persisted s')) as Hc by (exists []; split_and!; [done|constructor|by rewrite C1]).
    destruct (commits_shard layout total Hlayout ss i s s' [] Hok Hi Hw C2 Hc) as [Hok' (images & [= <-] & _ & <-)]; [by intros ? ?%not_elem_of_nil|].
    split; [done|constructor].
  - destruct (commits_shard layout total Hlayout ss i s s1 ms Hok Hi C4 C5 C3) as [Hok1 Hc]; [by auto|].
    destruct (IH (<[i := s1]> ss) Hw Hok1) as [Hok' Hh]; [apply list_lookup_insert_eq; by eapply lookup_lt_Some|].
    rewrite list_insert_insert_eq in Hok', Hh. split; [done|]. cbn. apply (history_batch _ _ _ _ _ (global (<[i := s1]> ss))); [done| | | |done].
    + by rewrite <- Hp, <- Hl.
    + by apply (global_sized layout total).
    + by apply global_within.
Qed.

Definition room (n : Z) (ss : list Store) : Prop := Forall (λ s, generation s + n < 2 ^ 64) ss.

Lemma system_step_ok σ ev n :
  shards_ok layout total (sy_stores σ) → aof_profile (sy_aof σ) = p → aof_log_layout (sy_aof σ) = layout →
  event_ok layout ev → 0 <= n → room (event_weight ev + n) (sy_stores σ) →
  ∃ σ' healthy, system_step σ ev = Some (σ', healthy) ∧ shards_ok layout total (sy_stores σ') ∧
    aof_profile (sy_aof σ') = p ∧ aof_log_layout (sy_aof σ') = layout ∧ room n (sy_stores σ') ∧
    ∃ batches, aof_batches (sy_aof σ') = aof_batches (sy_aof σ) ++ batches ∧
      history p layout total (global (sy_stores σ)) (snd <$> batches) (global (sy_stores σ')).
Proof.
  intros Hok Hp Hl [Hi Hev] Hn Hroom. pose proof Hok as [Hlen Hs]. destruct (lookup_lt_is_Some_2 (sy_stores σ) (event_shard ev)) as [s Es]; [lia|].
  destruct (Hs _ s Es) as [Hw Ho _]. pose proof (Forall_lookup_1 _ _ _ _ Hroom Es) as Hg. cbv beta in Hg.
  set (w := {| wk_store := s; wk_aof := Some (sy_aof σ) |}).
  assert (∃ w' healthy keys, event_at w ev = Some (w', healthy) ∧ advances (event_weight ev) keys w w' ∧
            ∀ k, k ∈ keys → shard_of layout k = Z.of_nat (event_shard ev)) as (w' & healthy & keys & Hat & [Hw' Hcf Hg' _ Hlog] & Hk).
  { destruct ev as [i readonly t t' r|i t]; cbn [event_at event_weight event_shard] in *.
    - destruct Hev as [Hsc Hkeys]. destruct (serve_spec readonly w t t' r Hw Hsc) as (w' & resp & healthy & -> & Ha); [cbn; lia|].
      exists w', healthy, (request_keys r). by split_and!.
    - destruct (expire_spec w t Hw) as (w' & r & -> & Ha); [cbn; lia|]. cbn [mbind option_bind]. eexists w', _, _. split; [done|]. split; [exact Ha|].
      intros k Hk%all_keys_elem. by apply Ho. }
  unfold system_step. rewrite Es. cbn [mbind option_bind]. fold w. rewrite Hat. cbn [mbind option_bind]. eexists _, _. split; [done|]. cbn [sy_stores sy_aof].
  unfold logged in Hlog. cbn [wk_aof w] in Hlog. destruct (wk_aof w') as [a'|]; [|done]. destruct Hlog as ((E1 & E2 & _) & batches & Eb & Hch).
  destruct (chain_history (sy_aof σ) keys (sy_stores σ) (event_shard ev) s batches (wk_store w') Hp Hl Hk Hch Hw' Hok Es) as [Hok' Hh].
  split; [done|]. split; [cbn; congruence|]. split; [cbn; congruence|]. split; [|by exists batches].
  unfold room. apply Forall_forall. intros s1 [j Hj]%list_elem_of_lookup. apply list_lookup_insert_Some in Hj as [(_ & <- & _)|(_ & Hj)]; [cbn in Hg'; lia|].
  pose proof (Forall_lookup_1 _ _ _ _ Hroom Hj) as Hx. cbv beta in Hx.
  assert (0 <= event_weight ev) by (destruct ev; cbn; zlen_lia). lia.
Qed.

Lemma system_run_ok σ evs :
  shards_ok layout total (sy_stores σ) → aof_profile (sy_aof σ) = p → aof_log_layout (sy_aof σ) = layout →
  Forall (event_ok layout) evs → room (zsum_with event_weight evs) (sy_stores σ) →
  ∃ σ' healthy, system_run σ evs = Some (σ', healthy) ∧ shards_ok layout total (sy_stores σ') ∧
    ∃ batches, aof_batches (sy_aof σ') = aof_batches (sy_aof σ) ++ batches ∧
      history p layout total (global (sy_stores σ)) (snd <$> batches) (global (sy_stores σ')).
Proof.
  intros Hok Hp Hl Hevs. revert σ Hok Hp Hl. induction Hevs as [|ev evs Hev _ IH]; intros σ Hok Hp Hl Hroom.
  { exists σ, true. split; [done|]. split; [done|]. exists []. rewrite app_nil_r. split; [done|constructor]. }
  cbn [system_run]. change (zsum_with event_weight (ev :: evs)) with (event_weight ev + zsum_with event_weight evs) in Hroom.
  assert (0 <= zsum_with event_weight evs) as Hn by (apply zsum_with_nonneg; intros []; cbn; zlen_lia).
  destruct (system_step_ok σ ev _ Hok Hp Hl Hev Hn Hroom) as (σ1 & healthy & -> & Hok1 & Hp1 & Hl1 & Hr1 & l1 & E1 & H1').
  cbn [mbind option_bind]. destruct healthy; [|exists σ1, false; split; [done|]; split; [done|]; by exists l1].
  destruct (IH σ1 Hok1 Hp1 Hl1 Hr1) as (σ' & h & -> & Hok' & l2 & E2 & H2'). exists σ', h. split; [done|]. split; [done|].
  exists (l1 ++ l2). rewrite E2, E1, app_assoc, fmap_app. split; [done|]. by eapply history_app.
Qed.
End System.

(** ** The ordered snapshot of all the shards *)

Section Freeze.
Context `{HashOrder}.

(** The mutations that [freeze] collects: the snapshots of the workers in turn, sorted
    by key. *)
Definition freeze (ss : list Store) : list Mutation :=
  merge_sort (λ l r, cmp_le (Mutation_key l) (Mutation_key r)) (mjoin (snapshot <$> ss)).

Lemma freeze_elem ss mu :
  mu ∈ freeze ss ↔ ∃ i s k e, ss !! i = Some s ∧ values s !! k = Some e ∧ mu = put_of (k, e).
Proof.
  unfold freeze. rewrite merge_sort_Permutation, list_elem_of_join. split.
  - intros (l & Hmu & (s & -> & [i Hi]%list_elem_of_lookup)%list_elem_of_fmap). rewrite snapshot_eq in Hmu.
    apply list_elem_of_fmap in Hmu as ([k e] & -> & He%btree_iter_elem). by exists i, s, k, e.
  - intros (i & s & k & e & Hi & He & ->). exists (snapshot s). split; [|apply list_elem_of_fmap_2; by eapply list_elem_of_lookup_2].
    rewrite snapshot_eq. apply list_elem_of_fmap_2. by apply btree_iter_elem.
Qed.

Lemma snapshots_NoDup layout (ss : list Store) n :
  (∀ i s, ss !! i = Some s → ∀ k, is_Some (values s !! k) → shard_of layout k = Z.of_nat (n + i)) →
  NoDup (Mutation_key <$> mjoin (snapshot <$> ss)) ∧
  ∀ k, k ∈ Mutation_key <$> mjoin (snapshot <$> ss) → Z.of_nat n <= shard_of layout k.
Proof.
  revert n. induction ss as [|s ss IH]; intros n Ho; [split; [constructor|by intros k ?%not_elem_of_nil]|].
  rewrite fmap_cons. change (mjoin (snapshot s :: ?l)) with (snapshot s ++ mjoin l). rewrite fmap_app, snapshot_keys.
  destruct (IH (S n)) as [Hn Hle]; [intros i s' Hi k Hk; rewrite (Ho (S i) s' Hi k Hk); lia|].
  assert (∀ k, k ∈ (btree_iter (values s)).*1 → shard_of layout k = Z.of_nat n) as Hs.
  { intros k ([k' e] & -> & He%btree_iter_elem)%list_elem_of_fmap. cbn. rewrite (Ho O s eq_refl k'); [lia|]. by rewrite He. }
  split.
  - apply NoDup_app. split; [apply btree_iter_NoDup|]. split; [|done]. intros k Hk Hk'. specialize (Hs k Hk). specialize (Hle k Hk'). lia.
  - intros k [Hk|Hk]%elem_of_app; [rewrite (Hs k Hk); lia|]. specialize (Hle k Hk). lia.
Qed.

(** It is strictly sorted and describes the dataset of the shards. *)
Lemma freeze_ok p layout total ss :
  DurableLayout_validate layout = Ok tt → shards_ok layout total ss →
  StronglySorted cmp_lt (MMutation_key <$> (from_storage <$> freeze ss)) ∧
  Forall (λ mu, is_image mu = true) (from_storage <$> freeze ss) ∧
  history p layout total ∅ ((λ mu, [mu]) <$> (from_storage <$> freeze ss)) (global ss).
Proof.
  intros Hl Hok. pose proof Hok as [_ Hs].
  assert (NoDup (Mutation_key <$> freeze ss)) as Hn.
  { unfold freeze. rewrite merge_sort_Permutation. apply (snapshots_NoDup layout ss O). intros i s Hi. apply (Hs i s Hi). }
  assert (∀ mu, mu ∈ freeze ss → ∃ c, raw_effect mu = Some c ∧ global ss !! Mutation_key mu = Some c) as Hin.
  { intros mu (i & s & k & e & Hi & He & ->)%freeze_elem. exists (content e). split; [done|]. cbn.
    rewrite (global_owned layout total ss i s k) by (done || (apply (Hs i s Hi); by rewrite He)). by rewrite lookup_persisted, He. }
  split_and!.
  - rewrite <- list_fmap_compose. rewrite (list_fmap_ext _ Mutation_key) by (intros i mu _; apply from_storage_key).
    apply strictly_sorted; [|done]. apply (StronglySorted_fmap Mutation_key (λ l r, cmp_le (Mutation_key l) (Mutation_key r))); [done|].
    apply StronglySorted_merge_sort; [intros x y z; cbn; by apply transitivity|intros x y; cbn; apply base.total; apply _].
  - apply Forall_fmap, Forall_forall. intros mu (i & s & k & e & _ & _ & ->)%freeze_elem. cbn. by destruct (e_value e).
  - rewrite <- (puts_effects (global ss) (freeze ss) Hn Hin) at 1.
    + apply puts_history with (global ss); [done|by apply (global_sized layout total)|by apply global_within|apply map_empty_subseteq| |done].
      apply Forall_forall. intros mu (i & s & k & e & Hi & He & ->)%freeze_elem. apply (put_wf s); [apply (Hs i s Hi)|done].
    + intros k. pose proof (shard_for_ok layout Hl k). rewrite (global_lookup layout) by (lia || (intros j s Hj; apply (Hs j s Hj))).
      destruct (ss !! _) as [s|] eqn:E; cbn; [|by intros []]. rewrite lookup_persisted. intros [c (e & He & _)%fmap_Some].
      apply list_elem_of_fmap. exists (put_of (k, e)). split; [done|]. apply freeze_elem. by exists (Z.to_nat (shard_of layout k)), s, k, e.
Qed.
End Freeze.

(** ** What the workers commit is what recovery yields *)

Lemma log_dataset_history p cfg sc clock t lg L L' :
  history p (aof_layout cfg) (max_dataset_bytes sc) ∅ ((λ mu, [mu]) <$> lg_snapshot lg) L →
  history p (aof_layout cfg) (max_dataset_bytes sc) L (snd <$> lg_batches lg) L' →
  (∀ n, unix_millis (clock n) <= unix_millis t) →
  ∃ m, log_dataset p cfg sc clock lg = Some m ∧ undropped t m = undropped t L'.
Proof.
  intros H1 H2 Hclock. destruct (history_runs p _ _ clock t ∅ _ L' ∅ O (history_app _ _ _ _ _ _ _ _ H1 H2) Hclock (tracks_refl t ∅)) as (m & Hm & Ht).
  exists m. split; [done|]. by apply tracks_visible.
Qed.

(** C5. Any run of requests and expiration ticks over the workers of a valid layout
    returns without a panic and keeps every shard well formed and within its quota.
    The log then describes what was committed: a generation that starts with the
    snapshot of the shards and has the acknowledged batches recovers, at any time after
    the run, to exactly the values that are still visible in the shards, with the
    sequence of the last batch; and cut anywhere after its seal it recovers to what the
    workers had committed at some batch in between. *)
Theorem workers_recover `{HashOrder} {A} `{AofLaws A} p cfg sc clock t permits (σ : System A) evs :
  AofConfig_validate permits cfg = Ok tt → StoreConfig_validate sc = Ok tt →
  shard_count (aof_layout cfg) <= max_dataset_bytes sc →
  (∀ n, clock_ok (clock n) ∧ unix_millis (clock n) <= unix_millis t) →
  shards_ok (aof_layout cfg) (max_dataset_bytes sc) (sy_stores σ) →
  aof_profile (sy_aof σ) = p → aof_log_layout (sy_aof σ) = aof_layout cfg → aof_batches (sy_aof σ) = [] →
  Forall (event_ok (aof_layout cfg)) evs → room (zsum_with event_weight evs) (sy_stores σ) →
  ∃ σ' healthy, system_run σ evs = Some (σ', healthy) ∧ shards_ok (aof_layout cfg) (max_dataset_bytes sc) (sy_stores σ') ∧
    ∀ lg head snapshot seal batches n,
      lg_snapshot lg = from_storage <$> freeze (sy_stores σ) → lg_batches lg = aof_batches (sy_aof σ') →
      log_file p cfg lg head snapshot seal batches → zlen (log_bytes head snapshot seal batches) < 2 ^ 60 →
      (length (head ++ mjoin snapshot ++ seal) <= n)%nat →
      ∃ k L s meta incomplete,
        load_generation p cfg sc clock (take n (log_bytes head snapshot seal batches)) = Some (Ok (s, meta, incomplete)) ∧
        undropped t (persisted s) = undropped t L ∧ rm_sequence meta = lg_base lg + Z.of_nat k ∧
        history p (aof_layout cfg) (max_dataset_bytes sc) (global (sy_stores σ)) (take k (snd <$> lg_batches lg)) L ∧
        ((length (log_bytes head snapshot seal batches) <= n)%nat → k = length batches ∧ L = global (sy_stores σ')).
Proof.
  intros Hv Hsc Htot Hclock Hok Hp Hl Hb Hevs Hroom. pose proof (aof_config_layout _ _ Hv) as Hlay.
  destruct (system_run_ok (aof_layout cfg) (max_dataset_bytes sc) p Hlay σ evs Hok Hp Hl Hevs Hroom)
    as (σ' & healthy & Hrun & Hok' & bs & Ebs & Hh). rewrite Hb in Ebs. cbn in Ebs. subst bs.
  exists σ', healthy. split; [done|]. split; [done|]. intros lg head snapshot seal batches n Hsnap Hbat Hf Hz Hn.
  destruct (freeze_ok p _ _ _ Hlay Hok) as (_ & _ & Hfr). rewrite <- Hsnap in Hfr. rewrite <- Hbat in Hh.
  pose proof (load_cut p cfg sc clock permits lg head snapshot seal batches n Hv Hsc Htot (λ n, proj1 (Hclock n)) Hf Hz) as Hcut.
  cbv zeta in Hcut. rewrite decide_False in Hcut by lia. destruct Hcut as (k & Hk & Hle & Hlt & Hcut).
  destruct (history_take p _ _ _ _ _ k Hh) as [L HL].
  destruct (log_dataset_history p cfg sc clock t (log_take k lg) _ L Hfr) as (m & Em & Hvis); [by rewrite <- fmap_take in HL|apply Hclock|].
  rewrite Em in Hcut. destruct Hcut as (s & meta & inc & Hload & _ & Hpers & Hseq & _).
  exists k, L, s, meta, inc. split; [done|]. rewrite Hpers. do 3 (split; [done|]). intros Hall.
  assert (k = length batches) as ->.
  { destruct (decide (k = length batches)) as [|Hne]; [done|]. destruct (lookup_lt_is_Some_2 batches k) as [enc He]; [lia|].
    pose proof (Hlt enc He). assert (length (log_bytes head snapshot seal (take k batches)) + length enc <= length (log_bytes head snapshot seal batches))%nat; [|lia].
    rewrite <- (take_drop_middle batches k enc He) at 2. unfold log_bytes. rewrite join_app, join_cons, !length_app. lia. }
  split; [done|]. pose proof (Forall2_length _ _ _ (lf_batches _ _ _ _ _ _ _ Hf)) as Hx. rewrite batch_records_length in Hx.
  rewrite take_ge in HL by (rewrite length_fmap; lia). by eapply history_unique.
Qed.

(** ** A log in memory *)

Record ListLog := { ll_profile : Profile; ll_layout : DurableLayout; ll_batches : list (MutationOrigin * list MMutation) }.
Definition list_append (a : ListLog) (o : MutationOrigin) (ms : list MMutation) : ListLog * result AofError Z :=
  match check_shards (ll_layout a) (bool_decide (ll_profile a = ComposedLegacyMixed)) None ms with
  | Err e => (a, Err e)
  | Ok _ =>
      if forallb (λ mu, match MMutation_encoded_bytes mu with Ok _ => true | Err _ => false end) ms
      then ({| ll_profile := ll_profile a; ll_layout := ll_layout a; ll_batches := ll_batches a ++ [(o, ms)] |}, Ok (zlen (ll_batches a) + 1))
      else (a, Err (AofFormat FLimit))
  end.
#[export] Instance list_log : AofLog ListLog := {
  is_memory_profile a := bool_decide (ll_profile a = MemoryProfile);
  record_limits _ := Limits_default;
  aof_append a b := list_append a (origin b) (from_storage <$> mutations b);
  aof_append_memory := list_append;
  aof_batches := ll_batches;
  aof_profile := ll_profile;
  aof_log_layout := ll_layout
}.
#[export] Instance list_log_laws : AofLaws ListLog.
Proof.
  assert (∀ a o ms a' r, list_append a o ms = (a', r) → appends a o ms a' r) as Hl.
  { intros a o ms a' r. unfold list_append. destruct (check_shards _ _ _ ms) as [[]|e] eqn:Ec; [|by intros [= <- <-]].
    destruct (forallb _ ms) eqn:Ef; intros [= <- <-]; [|done]. do 3 (split; [done|]). cbn.
    do 2 (split; [done|]). apply Forall_forall. intros mu Hin. rewrite forallb_forall in Ef. specialize (Ef mu (proj1 (list_elem_of_In _ _) Hin)).
    destruct (MMutation_encoded_bytes mu); [by eexists|done]. }
  split; intros; by apply Hl.
Qed.

Definition sample_system : System ListLog :=
  {| sy_stores := [empty_store]; sy_aof := {| ll_profile := LegacyProfile; ll_layout := DurableLayout_default; ll_batches := [] |} |}.
Definition sample_events : list Event :=
  [EvRequest 0 false epoch_sample epoch_sample (ReqExecute (CSet (lit "k") (lit "v"))); EvTick 0 sample_clock].
Definition sample_run_log : Log :=
  {| lg_base := 0; lg_snapshot := []; lg_batches := [(Client, [Legacy (Put (lit "k") (VString (lit "v")) None)])] |}.
Definition sample_run_header : bytes :=
  match profile_write_header LegacyProfile 0 DurableLayout_default None with Ok enc => enc | Err _ => [] end.
Definition sample_run_seal : bytes := encoding (MSeal 0 0 0).
Definition sample_run_batches : list bytes := encoding <$> batch_records 0 (lg_batches sample_run_log).

Lemma sample_run_file : log_file LegacyProfile sample_config sample_run_log sample_run_header [] sample_run_seal sample_run_batches.
Proof.
  split.
  - done.
  - done.
  - exists None. split; [done|]. vm_compute. reflexivity.
  - constructor.
  - constructor.
  - constructor.
  - split; [vm_compute; done|]. vm_compute. reflexivity.
  - repeat constructor; try done; vm_compute; reflexivity.
Qed.
Lemma sample_shards_ok : shards_ok DurableLayout_default (max_dataset_bytes StoreConfig_default) (sy_stores sample_system).
Proof.
  split; [done|]. intros [|i] s; [|done]. intros [= <-]. split; [apply empty_store_wf| |by vm_compute].
  intros k [e He]. cbn in He. by rewrite lookup_empty in He.
Qed.

Lemma sample_events_ok : Forall (event_ok DurableLayout_default) sample_events.
Proof.
  assert (∀ k, k ∈ [lit "k"] → shard_of DurableLayout_default k = Z.of_nat 0) as Hk by (intros k ->%list_elem_of_singleton; by vm_compute).
  constructor; [split; [by vm_compute|by split]|]. constructor; [split; [by vm_compute|done]|constructor].
Qed.
Lemma sample_room : room (zsum_with event_weight sample_events) [empty_store].
Proof. repeat constructor; by vm_compute. Qed.

Lemma workers_recover_witness :
  ∃ σ' healthy, system_run (H := list_order) sample_system sample_events = Some (σ', healthy) ∧
    ∃ s meta, load_generation LegacyProfile sample_config StoreConfig_default sample_clock
                (log_bytes sample_run_header [] sample_run_seal sample_run_batches) = Some (Ok (s, meta, false)) ∧
      undropped epoch_sample (persisted s) = undropped epoch_sample (global (sy_stores σ')).
Proof.
  destruct (workers_recover (H := list_order) LegacyProfile sample_config StoreConfig_default sample_clock epoch_sample 32 sample_system sample_events)
    as (σ' & healthy & Hrun & _ & Hrec).
  - reflexivity.
  - reflexivity.
  - by vm_compute.
  - intros n. split; [apply epoch_sample_ok|done].
  - apply sample_shards_ok.
  - reflexivity.
  - reflexivity.
  - reflexivity.
  - apply sample_events_ok.
  - apply sample_room.
  - exists σ', healthy. split; [exact Hrun|].
    assert (match system_run (H := list_order) sample_system sample_events with
            | Some (σ', _) => Some (ll_batches (sy_aof σ')) | None => None end = Some (lg_batches sample_run_log)) as Hb by (vm_compute; reflexivity).
    rewrite Hrun in Hb. injection Hb as Hb.
    destruct (Hrec sample_run_log sample_run_header [] sample_run_seal sample_run_batches
      (length (log_bytes sample_run_header [] sample_run_seal sample_run_batches))) as (k & L & s & meta & inc & Hload & Hvis & _ & _ & Hfull).
    + vm_compute. reflexivity.
    + symmetry. exact Hb.
    + apply sample_run_file.
    + by vm_compute.
    + by vm_compute; lia.
    + rewrite firstn_all in Hload. destruct (Hfull (le_n _)) as [_ ->]. exists s, meta.
      assert (match load_generation LegacyProfile sample_config StoreConfig_default sample_clock
                (log_bytes sample_run_header [] sample_run_seal sample_run_batches) with Some (Ok (_, _, inc)) => negb inc | _ => false end = true) as Hi
        by (vm_compute; reflexivity).
      rewrite Hload in Hi. destruct inc; [discriminate Hi|]. split; [exact Hload|exact Hvis].
Defined.
