(* ===== verification/Handle.v ===== *)
(** * The workers over the writer

    The handle of the writer (AofHandle of src/persistence/writer.rs) as the workers use
    it, over the model of the writer (Writer.v), discharges what the workers rely on
    (AofLaws of Worker.v); so a failure of the machine while the service runs leaves a
    directory from which a new process recovers what the workers had committed. *)

From Stdlib Require Import Strings.Byte Strings.String ZArith Lia.
From S2P Require Import Prelude Float Wire Score Memory Command Store StoreInv StoreSpec Mutation StoreExec Replay Batch Routing Format MemoryFormat Profile MemoryLifecycle Expire Decoded Protocol Journal Recovery RecoverySpec Disk Writer Ledgers WriterSpec Opening Durability History Worker System.

#[local] Open Scope Z_scope.
#[local] Opaque snapshot_digest.
#[local] Arguments generation_path : simpl never.
#[local] Arguments wp : simpl never.

(** ** What the writer checks before it appends *)

Lemma batch_shard_checked layout selected (l : list Mutation) z :
  batch_shard_loop layout selected (Mutation_key <$> l) = Ok z → check_shards layout false selected (from_storage <$> l) = Ok tt.
Proof.
  revert selected. induction l as [|mu l IH]; intros selected; [done|]. cbn. rewrite from_storage_key.
  destruct (layout_shard_for layout (Mutation_key mu)) as [shard|e]; cbn; [|done]. destruct (match selected with Some _ => _ | None => _ end); [done|]. apply IH.
Qed.
Lemma keys_checked layout selected (l : list Mutation) :
  fold_ok (λ (_ : unit) mu, _ ← map_err AofConfigError (layout_shard_for layout (Mutation_key mu)); Ok tt) tt l = Ok tt →
  check_shards layout true selected (from_storage <$> l) = Ok tt.
Proof.
  revert selected. induction l as [|mu l IH]; intros selected; [done|]. cbn. rewrite from_storage_key.
  destruct (layout_shard_for layout (Mutation_key mu)) as [shard|e]; cbn; [|done]. apply IH.
Qed.

Lemma folded_sizes acc ms acc' :
  fold_ok batch_size_step acc ms = Ok acc' → Forall (λ mu, ∃ size, MMutation_encoded_bytes mu = Ok size) ms.
Proof.
  revert acc. induction ms as [|mu ms IH]; intros acc; [constructor|]. cbn. intros (acc1 & Hs & Hf)%bind_ok.
  constructor; [|by eapply IH]. unfold batch_size_step in Hs. case_bool_decide; [done|]. apply bind_ok in Hs as (n & Hn & _). by exists n.
Qed.
Lemma storage_sizes size (ms : list Mutation) size' :
  try_fold (λ size mu, extra ← match mutation_size mu with Ok n => Some n | Err _ => None end; u_add size extra) size ms = Some size' →
  Forall (λ mu, ∃ size, mutation_size mu = Ok size) ms.
Proof.
  revert size. induction ms as [|mu ms IH]; intros size; [constructor|]. cbn.
  destruct (mutation_size mu) as [n|e] eqn:E; cbn; [|done]. destruct (u_add size n) as [size1|]; cbn; [|done]. intros Hf.
  constructor; [by exists n|by eapply IH].
Qed.
Lemma encoded_sizes p sequence o ms l enc :
  profile_encode p (MBatch sequence o ms) l = Ok enc → Forall (λ mu, ∃ size, MMutation_encoded_bytes mu = Ok size) ms.
Proof.
  intros He. destruct (decide (p = MemoryProfile)) as [->|Hp].
  - cbn in He. unfold memory_encode in He. apply bind_ok in He as (size & Hs & _). cbn in Hs. destruct (_ || _); [done|].
    apply bind_ok in Hs as (acc & Hf & _). by eapply folded_sizes.
  - assert (∃ r, try_map legacy ms = Ok r ∧ ∃ enc, encode_record (Batch sequence {| origin := o; mutations := r |}) l = Ok enc) as (r & Hr & enc' & Hb).
    { destruct p; [|done|]; cbn in He; apply bind_ok in He as (rec & (r & Hr & <-%Ok_inj)%bind_ok & Hb); eauto. }
    unfold encode_record in Hb. apply bind_ok in Hb as (size & (size' & Hs & Hok)%bind_ok & _). cbn in Hs. destruct (_ || _); [done|]. injection Hs as <-.
    destruct (try_fold _ 14 r) as [n|] eqn:Ef; [|done]. apply storage_sizes in Ef. clear -Hr Ef.
    revert r Hr Ef. induction ms as [|mu ms IH]; intros r; cbn; [constructor|]. intros (mu' & Hl & (r' & Hr' & <-%Ok_inj)%bind_ok)%bind_ok.
    intros [[n Hn] Hall]%Forall_cons. constructor; [|by eapply IH]. destruct mu; cbn in Hl; simplify_eq/=. by exists n.
Qed.

(** ** An append and the rest of its iteration *)

Definition steady (w w' : Writer) : Prop :=
  wr_config w' = wr_config w ∧ wr_profile w' = wr_profile w ∧ wr_compaction w' = None.

Lemma wpd_skip {A B} (m : IO A) (k : A → IO B) W Φ :
  (∀ W' a, wp (k a) W' Φ) → (∀ W' x, (∀ b, x ≠ Return b) → Φ W' x) → wp (m ≫= k) W Φ.
Proof.
  intros Hk Hbad. apply wpd_bind. eapply (wpd_mono _ _ (λ _ _, True)); [|by intros W' [a|e|] _; cbn [next]; [apply Hk|apply Hbad..]].
  intros fs. by destruct (m W fs) as [[] ?].
Qed.
Lemma wpd_lift_skip {A B} (r : result AofError A) (k : A → IO B) W Φ :
  (∀ a, r = Ok a → wp (k a) W Φ) → (∀ W' x, (∀ b, x ≠ Return b) → Φ W' x) → wp (lift_io r ≫= k) W Φ.
Proof. intros Hk Hbad. apply wpd_bind, wpd_lift. destruct r as [a|e]; cbn [next]; [by apply Hk|by apply Hbad]. Qed.

Section Append.
Context (P : Prop) (w : Writer) (Hw : wr_compaction w = None).

(** The append of a batch that satisfies [P] if it succeeds. *)
Definition accepts (W' : World) (x : Exit (Writer * Z)) : Prop := match x with Return (w', _) => steady w w' ∧ P | _ => True end.
Lemma accepts_failed W' x : (∀ b, x ≠ Return b) → accepts W' x.
Proof. intros Hx. destruct x as [a|e|]; [by destruct (Hx a)|done..]. Qed.

Lemma append_encoded_accepts n enc frame W : P → wp (append_encoded w n enc frame) W accepts.
Proof.
  intros HP. apply wpd_skip; [|apply accepts_failed]. intros W1 _. cbv zeta. set (w1 := after_append w n enc).
  assert (steady w w1) as H1 by (unfold steady; cbn; by rewrite Hw).
  assert (wp (if bool_decide (aof_sync (wr_config w1) = Always) then writer_sync w1 else mret w1) W1
    (λ _ x, match x with Return w' => steady w w' | _ => True end)) as H2.
  { case_bool_decide; [|by apply wpd_ret]. apply wpd_skip; [|by intros W2 [b|e|] Hx; [destruct (Hx b)|..]]. intros W2 _. by apply wpd_ret. }
  apply wpd_bind. eapply wpd_mono; [exact H2|]. intros W2 [w2|e|] Hs; cbn [next]; [|done..].
  apply wpd_skip; [|apply accepts_failed]. intros W3 _. by apply wpd_ret.
Qed.
End Append.

Lemma writer_append_accepts w batch W :
  wr_compaction w = None →
  wp (writer_append w batch) W (accepts
    (check_shards (aof_layout (wr_config w)) (bool_decide (wr_profile w = ComposedLegacyMixed)) None (from_storage <$> mutations batch) = Ok tt ∧
     Forall (λ mu, ∃ size, MMutation_encoded_bytes mu = Ok size) (from_storage <$> mutations batch)) w).
Proof.
  intros Hw. unfold writer_append. apply wpd_lift_skip; [|apply accepts_failed]. intros [] Hc.
  do 2 (apply wpd_lift_skip; [intros ? _|apply accepts_failed]). apply wpd_lift_skip; [|apply accepts_failed].
  intros enc He%map_err_ok. apply append_encoded_accepts; [done|]. split; [|by eapply encoded_sizes].
  case_bool_decide; [by apply keys_checked|]. apply bind_ok in Hc as (z & (sel & Hs & _)%bind_ok & _). by eapply batch_shard_checked.
Qed.
Lemma writer_append_memory_accepts w o ms W :
  wr_compaction w = None → memory_profile (wr_config w) = bool_decide (wr_profile w = MemoryProfile) →
  wp (writer_append_memory w o ms) W (accepts
    (check_shards (aof_layout (wr_config w)) (bool_decide (wr_profile w = ComposedLegacyMixed)) None ms = Ok tt ∧
     Forall (λ mu, ∃ size, MMutation_encoded_bytes mu = Ok size) ms) w).
Proof.
  intros Hw Hp. unfold writer_append_memory. rewrite Hp. destruct (bool_decide (wr_profile w = MemoryProfile)) eqn:Ep; [|by apply wpd_raise].
  apply bool_decide_eq_true in Ep. apply wpd_lift_skip; [|apply accepts_failed]. intros [] Hc.
  do 2 (apply wpd_lift_skip; [intros ? _|apply accepts_failed]). apply wpd_lift_skip; [|apply accepts_failed].
  intros enc He%map_err_ok. apply append_encoded_accepts; [done|]. rewrite Ep. split; [exact Hc|].
  by apply (encoded_sizes MemoryProfile _ _ _ _ _ He).
Qed.

(** The reply comes first, an [Ok] reply only if the append succeeded; and the writer goes
    on only after that or after it refused the batch. *)
Definition answered (rs : list WReply) : Prop :=
  match own_reply rs with Some (Appended (Ok _)) | Some (Appended (Err (AofFormat FLimit))) => True | _ => False end.
Definition append_iterated (P : Prop) (w : Writer) (W W' : World) (x : Exit Running) : Prop :=
  ∃ rs, sent W' = sent W ++ rs ∧ (∀ n, own_reply rs = Some (Appended (Ok n)) → P) ∧
    ∀ w', x = Return (Runs w') → steady w w' ∧ answered rs.

Lemma upkeep_steady w W elapsed :
  wr_compaction w = None →
  wp (upkeep w elapsed) W (λ W' x, sent W' = sent W ∧ ∀ w', x = Return (Runs w') → steady w w').
Proof.
  intros Hw. apply wpd_bind. eapply (wpd_mono _ _ (λ W' x, match x with Return w' => steady w w' | _ => True end ∧ sent W' = sent W)).
  { apply wpd_silent; [destruct (aof_sync _); [apply silent_ret|destruct (_ && _); [apply writer_sync_silent|apply silent_ret]]|].
    assert (steady w w) as Hs by done. destruct (aof_sync _); [by apply wpd_ret|]. destruct (_ && _); [|by apply wpd_ret].
    apply wpd_skip; [intros W' _; by apply wpd_ret|]. intros W' [b|e|] Hx; [by destruct (Hx b)|done..]. }
  intros W' [w'|e|] [Hs Es]; cbn [next]; [|done..]. unfold finish_compaction. rewrite (proj2 (proj2 Hs)).
  apply wpd_bind, wpd_ret. cbn [next]. apply wpd_ret. split; [done|]. by intros ? [= <-].
Qed.

Lemma wpd_send r W Φ : Φ {| disk := disk W; next_temporary := next_temporary W; journals := journals W; sent := sent W ++ [r] |} (Return tt) → wp (send r) W Φ.
Proof. intros H fs. exact H. Qed.

Lemma append_iteration P w (m : IO (Writer * Z)) W elapsed :
  wr_compaction w = None → silent m → (∀ W, wp m W (accepts P w)) →
  wp (h ← handled (answer_append w m);
      match h with Next w => upkeep w elapsed | Skip w => mret (Runs w) | Fatal => mret (Ended (Err AofUnavailable)) end) W
    (append_iterated P w W).
Proof.
  intros Hw Hq Hm. assert (∀ W1 w1 r, steady w w1 → sent W1 = sent W ++ [r] → (∀ n, r = Appended (Ok n) → P) →
    answered [r] → wp (upkeep w1 elapsed) W1 (append_iterated P w W)) as Hup.
  { intros W1 w1 r (Hc & Hp & Hn) Hs HP Hr. eapply wpd_mono; [by apply upkeep_steady|]. intros W2 x [Hs2 Hx].
    exists [r]. split; [congruence|]. split; [intros n; destruct r; cbn; try (by intros [= ->]; eapply HP); done|].
    intros w' E. destruct (Hx w' E) as (? & ? & ?). split; [|done]. split_and!; congruence. }
  do 3 apply wpd_bind. apply wpd_attempt. eapply wpd_mono; [apply wpd_silent; [done|apply Hm]|].
  intros W1 [[w1 n]|e|] [Hx Hs]; cbn [next].
  - apply wpd_bind, wpd_send. cbn [next]. apply wpd_ret. cbn [next]. apply wpd_ret. cbn [next].
    apply (Hup _ w1 (Appended (Ok n))); [apply Hx|cbn; by rewrite Hs|by intros n' _; apply Hx|done].
  - apply wpd_bind, wpd_send. cbn [next]. apply wpd_ret. cbn [next]. apply wpd_ret. cbn [next].
    set (W2 := {| disk := disk W1; next_temporary := _; journals := _; sent := sent W1 ++ [Appended (Err e)] |}).
    assert (sent W2 = sent W ++ [Appended (Err e)]) as Hs2 by (cbn; by rewrite Hs).
    assert (wp (mret (Ended (Err AofUnavailable))) W2 (append_iterated P w W)) as Hend.
    { apply wpd_ret. by exists [Appended (Err e)]. }
    assert (e = AofFormat FLimit → wp (upkeep w elapsed) W2 (append_iterated P w W)) as Hgo.
    { intros ->. by apply (Hup _ w (Appended (Err (AofFormat FLimit)))). }
    destruct e as [| |[]| | | | | | | | | |]; first [exact Hend|exact (Hgo eq_refl)].
  - exists []. by rewrite app_nil_r.
Qed.

(** ** The handle *)

Definition extend (lg : Log) (batches : list (MutationOrigin * list MMutation)) : Log :=
  {| lg_base := lg_base lg; lg_snapshot := lg_snapshot lg; lg_batches := lg_batches lg ++ batches |}.
Definition log_end (lg : Log) : Z := lg_base lg + zlen (lg_batches lg).
(** The batch of a request, if it was acknowledged. *)
Definition acknowledged (e : WRequest * list WReply) : option (MutationOrigin * list MMutation) :=
  match own_reply e.2 with Some (Appended (Ok _)) => batch_of e.1 | _ => None end.

Section Handle.
Context (p : Profile) (cfg : AofConfig) (pid : Z) (clock : nat → Sample) (elapsed : nat → bool) (lg0 : Log).
Context (Hprofile : bool_decide (p = MemoryProfile) = memory_profile cfg).

(** The disk holds what was acknowledged, synced if every append is, and at most one batch
    more if the writer has ended. *)
Definition holds_acknowledged (batches : list (MutationOrigin * list MMutation)) (writer : option Writer) (d : Disk) : Prop :=
  match writer with
  | Some w => ∃ floor, tracked p cfg [(floor, extend lg0 batches)] w d ∧ (aof_sync cfg = Always → floor = log_end (extend lg0 batches))
  | None => ∃ floor extra, covered p cfg [(floor, extend lg0 (batches ++ extra))] d ∧ (length extra <= 1)%nat ∧
      (aof_sync cfg = Always → log_end (extend lg0 batches) <= floor)
  end.

(** The writer while it runs, and all that was asked and answered. *)
Record Live := {
  lv_writer : option Writer;
  lv_world : World;
  lv_faults : list Fault;
  lv_asked : list (WRequest * list WReply);
  lv_steady : match lv_writer with Some w => wr_config w = cfg ∧ wr_profile w = p ∧ wr_compaction w = None | None => True end;
  lv_holds : Forall (λ e, wrequest_ok e.1) lv_asked → holds_acknowledged (omap acknowledged lv_asked) lv_writer (disk lv_world)
}.

(** The appends of the workers. *)
Inductive Ask := AskAppend (batch : ResolvedBatch) | AskMemory (o : MutationOrigin) (ms : list MMutation).
Definition request_of (k : Ask) : WRequest := match k with AskAppend batch => WAppend batch | AskMemory o ms => WAppendMemory o ms end.
Definition asked_batch (k : Ask) : MutationOrigin * list MMutation :=
  match k with AskAppend batch => (origin batch, from_storage <$> mutations batch) | AskMemory o ms => (o, ms) end.
Definition accepted (ms : list MMutation) : Prop :=
  check_shards (aof_layout cfg) (bool_decide (p = ComposedLegacyMixed)) None ms = Ok tt ∧
  Forall (λ mu, ∃ size, MMutation_encoded_bytes mu = Ok size) ms.

Lemma ask_iteration w k e W :
  wr_config w = cfg → wr_profile w = p → wr_compaction w = None →
  wp (iteration pid clock w (Received (request_of k)) e) W (append_iterated (accepted (asked_batch k).2) w W).
Proof.
  intros Hc Hp Hn. destruct k as [batch|o ms].
  - apply append_iteration; [done|apply writer_append_silent|]. intros W1. unfold accepted. rewrite <- Hc, <- Hp. by apply writer_append_accepts.
  - apply append_iteration; [done|apply writer_append_memory_silent|]. intros W1. unfold accepted. rewrite <- Hc, <- Hp.
    apply writer_append_memory_accepts; [done|]. by rewrite Hc, Hp, Hprofile.
Qed.

Definition run_of (x : Exit Running) : option Writer := match x with Return (Runs w) => Some w | _ => None end.
Definition asking (a : Live) (w : Writer) (k : Ask) : World * list Fault * Exit Running :=
  iteration pid clock w (Received (request_of k)) (elapsed (length (lv_asked a))) (lv_world a) (lv_faults a).
Definition answers (a : Live) (W' : World) : list WReply := drop (length (sent (lv_world a))) (sent W').

Lemma asking_steady a w k :
  lv_writer a = Some w → let rs := answers a (asking a w k).1.1 in
  (∀ n, own_reply rs = Some (Appended (Ok n)) → accepted (asked_batch k).2) ∧
  match run_of (asking a w k).2 with
  | Some w' => (wr_config w' = cfg ∧ wr_profile w' = p ∧ wr_compaction w' = None) ∧ answered rs
  | None => True
  end.
Proof.
  intros Ea rs. pose proof (lv_steady a) as Hs. rewrite Ea in Hs. destruct Hs as (Hc & Hp & Hn).
  pose proof (ask_iteration w k (elapsed (length (lv_asked a))) (lv_world a) Hc Hp Hn (lv_faults a)) as Hi.
  change (iteration _ _ _ _ _ _ _) with (asking a w k) in Hi. unfold rs. destruct (asking a w k) as [[W' fs] x]. cbn.
  destruct Hi as (rs' & Hs & Hr & Hx). unfold answers. rewrite Hs, drop_app_length. split; [done|].
  destruct x as [[w'|r]|e|]; [|done..]. destruct (Hx w' eq_refl) as [(? & ? & ?) ?]. split_and!; congruence.
Qed.
Lemma asking_config a w k :
  lv_writer a = Some w →
  match run_of (asking a w k).2 with Some w' => wr_config w' = cfg ∧ wr_profile w' = p ∧ wr_compaction w' = None | None => True end.
Proof. intros Ea. destruct (asking_steady a w k Ea) as [_ H]. destruct (run_of _); [apply H|done]. Qed.

Lemma batch_of_ask k : batch_of (request_of k) = Some (asked_batch k).
Proof. by destruct k. Qed.

(** One more request, as the ledger sees it. *)
Lemma after_compaction_one f lg rs :
  ∃ f', after_compaction [(f, lg)] rs = [(f', lg)] ∧ f <= f' ∧ (f = log_end lg → f' = log_end lg).
Proof.
  unfold after_compaction. destruct (existsb _ _); [|by exists f]. exists (Z.max (log_end lg) f). split; [done|]. lia.
Qed.
Lemma ask_ledger floor lg k rs :
  (aof_sync cfg = Always → floor = log_end lg) → numbered [(floor, lg)] (own_reply rs) →
  ∃ floor' batches, ledger_step cfg [(floor, lg)] (Received (request_of k)) rs = [(floor', extend lg batches)] ∧
    (aof_sync cfg = Always → log_end lg <= floor') ∧
    (batches = option_list (acknowledged (request_of k, rs)) ∧ (aof_sync cfg = Always → floor' = log_end (extend lg batches)) ∨
     ¬ answered rs ∧ acknowledged (request_of k, rs) = None ∧ batches = [asked_batch k]).
Proof.
  intros Hfl Hn. unfold ledger_step.
  assert (after_request cfg [(floor, lg)] (request_of k) (own_reply rs) = after_append_request cfg [(floor, lg)] (asked_batch k) (own_reply rs)) as ->
    by by destruct k.
  set (b := asked_batch k). set (ack := acknowledged (request_of k, rs)).
  pose (Q (L : Ledger) := ∃ f batches, L = [(f, extend lg batches)] ∧ (aof_sync cfg = Always → log_end lg <= f) ∧
    (batches = option_list ack ∧ (aof_sync cfg = Always → f = log_end (extend lg batches)) ∨ ¬ answered rs ∧ ack = None ∧ batches = [b])).
  assert (extend lg [] = lg) as Hnil by (unfold extend; rewrite app_nil_r; by destruct lg).
  assert (ack = None → Q [(floor, lg)]) as Hsame.
  { intros Ha. exists floor, []. rewrite Hnil, Ha. split; [done|]. split; [intros Hs; rewrite (Hfl Hs); lia|]. by left. }
  assert (¬ answered rs → ack = None → Q (adding b [(floor, lg)])) as Hadd.
  { intros Hans Ha. exists floor, [b]. split; [done|]. split; [intros Hs; rewrite (Hfl Hs); lia|]. by right. }
  assert (∀ n, own_reply rs = Some (Appended (Ok n)) → Q (acknowledging cfg n b [(floor, lg)])) as Hack.
  { intros n E. rewrite E in Hn. cbn in Hn. assert (ack = Some b) as Ha by (unfold ack, acknowledged; cbn [fst snd]; rewrite E; apply batch_of_ask).
    assert (log_end (extend lg [b]) = log_end lg + 1) as He by (unfold log_end; cbn; rewrite zlen_app; change (zlen [b]) with 1; lia).
    unfold acknowledging. destruct (bool_decide (aof_sync cfg = Always)) eqn:Hs; cbn; [apply bool_decide_eq_true in Hs|apply bool_decide_eq_false in Hs].
    - exists (Z.max n floor), [b]. rewrite Ha, He, (Hfl Hs). unfold log_end in *. split; [done|]. split; [lia|]. left. split; [done|]. lia.
    - exists floor, [b]. split; [done|]. split; [done|]. left. by rewrite Ha. }
  assert (Q (after_append_request cfg [(floor, lg)] b (own_reply rs))) as (f & batches & -> & Hf & Hb).
  { unfold ack, acknowledged, answered in *. cbn [fst snd] in *. destruct (own_reply rs) as [[[n|e]| | | | | |]|]; cbn in *; auto.
    destruct e as [| |[]| | | | | | | | | |]; auto. }
  destruct (after_compaction_one f (extend lg batches) rs) as (f' & -> & Hle & Heq). exists f', batches. split; [done|].
  split; [intros Hs; specialize (Hf Hs); lia|]. destruct Hb as [[-> Hb]|Hb]; [left|by right]. split; [done|]. intros Hs. apply Heq, Hb, Hs.
Qed.

Lemma extend_extend lg l l' : extend (extend lg l) l' = extend lg (l ++ l').
Proof. unfold extend. cbn. by rewrite app_assoc. Qed.
Lemma omap_snoc {A B} (f : A → option B) l x : omap f (l ++ [x]) = omap f l ++ option_list (f x).
Proof. rewrite omap_app. by destruct (f x) eqn:E; cbn; rewrite E. Qed.

Lemma asking_holds a w k :
  lv_writer a = Some w → let l := lv_asked a ++ [(request_of k, answers a (asking a w k).1.1)] in Forall (λ e, wrequest_ok e.1) l →
  holds_acknowledged (omap acknowledged l) (run_of (asking a w k).2) (disk (asking a w k).1.1).
Proof.
  intros Ea l Hl. apply Forall_app in Hl as [Hl [Hk _]%Forall_cons]. cbn [fst] in Hk. unfold l. rewrite omap_snoc.
  pose proof (lv_holds a Hl) as Ht. rewrite Ea in Ht. destruct Ht as (floor & Ht & Hfl). destruct (asking_steady a w k Ea) as [_ Hst].
  pose proof (iteration_ok pid clock _ w (lv_world a) (Received (request_of k)) (elapsed (length (lv_asked a))) Hprofile Ht Hk (lv_faults a)) as Hi.
  change (iteration _ _ _ _ _ _ _) with (asking a w k) in Hi. destruct (asking a w k) as [[W' fs] x]. cbn [fst snd] in *.
  destruct Hi as (rs & Hs & Hn & Hx). assert (answers a W' = rs) as Er by (unfold answers; by rewrite Hs, drop_app_length). rewrite Er in *.
  destruct (ask_ledger floor (extend lg0 (omap acknowledged (lv_asked a))) k rs Hfl Hn) as (floor' & batches & EL & Hf & Hb). rewrite EL, extend_extend in Hx.
  rewrite extend_extend in Hb.
  assert (covered p cfg [(floor', extend lg0 (omap acknowledged (lv_asked a) ++ batches))] (disk W') →
    holds_acknowledged (omap acknowledged (lv_asked a) ++ option_list (acknowledged (request_of k, rs))) None (disk W')) as Hnone.
  { intros Hc. destruct Hb as [[-> Hb]|(_ & -> & ->)].
    - exists floor', []. rewrite app_nil_r. split; [done|]. split; [cbn; lia|]. intros Hsy. rewrite (Hb Hsy). lia.
    - exists floor', [asked_batch k]. cbn. rewrite app_nil_r. split; [done|]. split; [lia|]. done. }
  destruct x as [[w'|r]|e|]; cbn [run_of] in *; [|by apply Hnone..].
  destruct Hb as [[-> Hb]|[Hna _]]; [by exists floor'|]. by destruct Hst.
Qed.

Definition after_ask (a : Live) (w : Writer) (k : Ask) (E : lv_writer a = Some w) : Live :=
  {| lv_writer := run_of (asking a w k).2; lv_world := (asking a w k).1.1; lv_faults := (asking a w k).1.2;
     lv_asked := lv_asked a ++ [(request_of k, answers a (asking a w k).1.1)];
     lv_steady := asking_config a w k E; lv_holds := asking_holds a w k E |}.
(** A request to a writer that has ended finds the queue closed; without a reply, the
    writer ended while it had the request. *)
Definition ask (a : Live) (k : Ask) : Live * result AofError Z :=
  match lv_writer a as o return lv_writer a = o → Live * result AofError Z with
  | Some w => λ E, (after_ask a w k E,
      match own_reply (answers a (asking a w k).1.1) with Some (Appended r) => r | _ => Err AofUnavailable end)
  | None => λ _, (a, Err AofUnavailable)
  end eq_refl.

#[export] Instance live_log : AofLog Live := {
  is_memory_profile _ := memory_profile cfg;
  record_limits _ := aof_limits cfg;
  aof_append a batch := ask a (AskAppend batch);
  aof_append_memory a o ms := if negb (memory_profile cfg) then (a, Err (AofFormat (FVersion 2))) else ask a (AskMemory o ms);
  aof_batches a := omap acknowledged (lv_asked a);
  aof_profile _ := p;
  aof_log_layout _ := aof_layout cfg
}.

Lemma ask_appends a k a' r : ask a k = (a', r) → appends a (asked_batch k).1 (asked_batch k).2 a' r.
Proof.
  unfold ask. generalize (eq_refl (lv_writer a)). destruct (lv_writer a) as [w|] eqn:Ea at 2 3; intros E [= <- <-]; [|done].
  do 3 (split; [done|]). cbn. rewrite omap_app. pose proof (proj1 (asking_steady a w k E)) as Hok. set (rs := answers _ _) in *.
  cbn. unfold acknowledged. cbn. rewrite batch_of_ask. destruct (own_reply rs) as [[[n|e]|[]|e|[]|[]|[]|]|]; cbn; rewrite ?app_nil_r; try done.
  split; [by destruct (asked_batch k)|]. by apply (Hok n).
Qed.
#[export] Instance live_laws : AofLaws Live.
Proof.
  split; [intros a b a' r; apply (ask_appends a (AskAppend b))|].
  intros a o ms a' r. cbn [aof_append_memory live_log]. destruct (negb _); [by intros [= <- <-]|]. apply (ask_appends a (AskMemory o ms)).
Qed.

Lemma live_covered a :
  Forall (λ e, wrequest_ok e.1) (lv_asked a) → aof_sync cfg = Always →
  ∃ floor extra, covered p cfg [(floor, extend lg0 (aof_batches a ++ extra))] (disk (lv_world a)) ∧ (length extra <= 1)%nat ∧
    (lv_writer a ≠ None → extra = []) ∧ log_end (extend lg0 (aof_batches a)) <= floor.
Proof.
  intros Hl Hs. pose proof (lv_holds a Hl) as Hh. destruct (lv_writer a) as [w|]; cbn in Hh.
  - destruct Hh as (floor & Ht & Hfl). exists floor, []. rewrite app_nil_r. split; [by eapply tracked_covered|].
    split; [cbn; lia|]. split; [done|]. rewrite (Hfl Hs). cbn. lia.
  - destruct Hh as (floor & extra & Hc & Hle & Hfl). exists floor, extra. split; [done|]. split; [done|]. split; [done|]. by apply Hfl.
Qed.

Lemma extend_take k lg l extra :
  (length (lg_batches lg) + length l <= k)%nat → ∃ j, log_take k (extend lg (l ++ extra)) = extend lg (l ++ take j extra).
Proof.
  intros Hk. exists (k - length (lg_batches lg) - length l)%nat. unfold log_take, extend. cbn. f_equal.
  rewrite take_app_ge by lia. f_equal. rewrite take_app_ge by lia. done.
Qed.

End Handle.

(** ** A concrete service *)

Definition never (_ : nat) : bool := false.
Lemma legacy_sample : bool_decide (LegacyProfile = MemoryProfile) = memory_profile sample_config.
Proof. reflexivity. Qed.
Lemma first_holds : holds_acknowledged LegacyProfile sample_config (installed 0 []) [] (Some (rc_writer first_recovered)) (disk first_world).
Proof. exists 0. split; [apply first_tracked|done]. Qed.
Definition first_live : Live LegacyProfile sample_config (installed 0 []) :=
  {| lv_writer := Some (rc_writer first_recovered); lv_world := first_world; lv_faults := []; lv_asked := [];
     lv_steady := conj (tr_config _ _ _ first_tracked) (conj (tr_profile _ _ _ first_tracked) eq_refl); lv_holds := λ _, first_holds |}.
Definition sample_service : System (Live LegacyProfile sample_config (installed 0 [])) :=
  {| sy_stores := [empty_store]; sy_aof := first_live |}.
#[local] Instance sample_live_log : AofLog (Live LegacyProfile sample_config (installed 0 [])) :=
  live_log LegacyProfile sample_config 1 sample_clock never (installed 0 []) legacy_sample.
Definition service_run := system_run (H := list_order) sample_service sample_events.
Definition service_disk : Disk := match service_run with Some (σ, _) => disk (lv_world _ _ _ (sy_aof σ)) | None => empty_disk end.
Definition service_open := open_sample 2 (boot (lost service_disk)) [].
Definition service_recovered : Recovered := returned service_open.2 ltac:(vm_compute; reflexivity).

Lemma service_asked σ healthy :
  service_run = Some (σ, healthy) →
  Forall (λ e, wrequest_ok e.1) (lv_asked _ _ _ (sy_aof σ)) ∧ lv_writer _ _ _ (sy_aof σ) ≠ None ∧ storable (disk (boot (lost service_disk))).
Proof.
  intros E.
  assert ((σ' ← service_run; Some ((lv_asked _ _ _ (sy_aof σ'.1)).*1, bool_decide (is_Some (lv_writer _ _ _ (sy_aof σ'.1))))) = Some ([sample_append], true)) as H
    by (vm_compute; reflexivity).
  rewrite E in H. cbn in H. injection H as Ha Hw. apply bool_decide_eq_true in Hw as [w Hw]. split; [|split; [by rewrite Hw|]].
  - assert (Forall wrequest_ok (lv_asked _ _ _ (sy_aof σ)).*1) as Hr; [rewrite Ha|rewrite Forall_fmap in Hr; exact Hr].
    pose proof sample_inputs_ok as Hi. apply Forall_cons in Hi as [[Hi _] _]. constructor; [exact Hi|constructor].
  - assert (bool_decide (map_Forall (λ _ i, zlen (i_data i) < 2 ^ 60) (inodes (lost service_disk))) = true) as Hb by (vm_compute; reflexivity).
    by apply bool_decide_eq_true in Hb.
Qed.

